(* ===== verification/_CoqProject ===== *)
-Q . S2P
Prelude.v
TransactionContract.v
FleetGate.v
CacheKey.v
CoalesceCache.v
LockProtocol.v
SlotQueue.v
Speculation.v
Hypervisor.v
BackingFs.v
FuseStores.v
CowStore.v
InterceptFs.v
InterceptCoherence.v
SurfaceEvents.v
Sessions.v
SessionLedger.v
SessionDiscovery.v
RespCodec.v
GatewayCodecs.v
MaildirQueue.v
MaildirProtocol.v
LogBuffer.v
ServeLock.v
JsonValue.v
Config.v
IpcHandler.v
Harness.v
CliLimits.v
AgentPolicy.v
ServeHttp.v
Coordination.v
Detect.v
WorktreePool.v
SmartMerge.v
FuseSessions.v
TeamComm.v
TeamStore.v
SurfaceRpc.v
ProcScan.v
Cast.v
Monitors.v
RuntimePool.v
Journal.v
GatewayText.v
ProcTable.v
Utilities.v
SoakHarness.v
FleetReport.v
TeamClient.v
SurfaceClient.v
FuseBackend.v
TrayClient.v
LiveFeed.v
