(* ===== verification/Prelude.v ===== *)
(** * ShareCLI: a verification library

    ShareCLI lets many coding agents share one machine.  A command an agent
    wants to run goes through the _hypervisor_
    ([crates/sharecli-core/src/hypervisor.rs]), which waits for the thermal and
    memory gate, takes a slot of a cross-process priority queue, looks the
    command up in an on-disk _coalesce cache_ and, on a miss, runs it once under
    a per-key file lock so that concurrent callers share the one result.  A
    speculation task pre-executes hot commands, and a FUSE pass-through file
    system gives each agent a view of the tree with a read cache, a
    negative-dentry cache and copy-on-write staging.

    ** Files, in order, and the sources they translate

    - [Prelude] (this file): Rust's [Result] and [?] as a state-and-error monad
      in [rust_scope], fixed-width integer operations, the [core::str] functions
      the sources use, paths as component lists, [BTreeMap] order, reachability
      of step relations, and the tactics and hint databases of the library.
    - [TransactionContract]: [sharecli-core/src/transaction_contract.rs].  One
      section per guard: capability delegation, the reservation pool, the shared
      producer, effect retry and parent membership.
    - [FleetGate]: [sharecli-fleet/src/{thermal,agent_contention,
      coalesce_meters,slot_queue_meters}.rs] and the back-pressure loop of
      [sharecli-core/src/thermal_gate.rs].
    - [CacheKey]: the key of a command, [sharecli-ipc/src/{cache_key,nocache,
      semantic}.rs] and [harness-native/src/cache_key.rs], with the lossy decoding of
      paths and of the output of git.
    - [CoalesceCache]: [sharecli-ipc/src/lib.rs] as one process sees it: store,
      lookup, sweep, lock acquisition with its deadline against a system clock that
      is an argument, [with_lock_detailed].
    - [LockProtocol]: the same operation as a step relation over any number of
      processes, each with a TTL and debounce window of its own, that share the
      directory and the lock; the age and the contents of an entry are read in
      two steps, system calls fail, processes are killed; and the proof that the
      sequential code is a path of it.
    - [SlotQueue]: [sharecli-ipc/src/queue.rs]: tickets, ageing, whose turn it
      is, and [with_slot] with the drop of its guard.
    - [Speculation]: [sharecli-core/src/speculation.rs]: the hit tracker, one
      cycle of the background task, and the in-flight coalescer as a step
      relation.
    - [Hypervisor]: [sharecli-core/src/{hypervisor,types,fuse_guard}.rs]:
      [run] and [run_queued] put together from the components above.
    - [BackingFs]: the file-system calls the FUSE crate makes, over a tree of
      inodes with contents, modes and modification times.
    - [FuseStores]: the tables of the FUSE crate: inode map, negative dentries,
      read coalescer, path remapping, agent identifiers, provenance.
    - [CowStore]: [sharecli-fuse/src/{write_serialize,agent_cow}.rs].
    - [InterceptFs]: the [Filesystem] operations of [sharecli-fuse/src/lib.rs].
    - [InterceptCoherence]: what those operations keep true together.
    - [SurfaceEvents]: the event broker of [sharecli-session/src/events.rs]:
      chunking, bounded queues, loss accounting.
    - [Sessions], [SessionLedger], [SessionDiscovery]: [sharecli-session/src/
      {lib,ledger,layout,state,recovery,resolver,adapter,discovery}.rs]: the
      observation ledger over its table, recovery plans, layouts, resume
      resolution, and the scan of surfaces.
    - [RespCodec], [GatewayCodecs]: [gateway/src/{redis_resp,pkcs7_padding,
      tls_record,dns_message_parser,chunked_transfer}.rs].
    - [MaildirQueue], [MaildirProtocol]: [sharecli-mesh/src/task_queue.rs], first
      as one worker runs it, then as a step relation over workers that share the
      directory and may crash.
    - [LogBuffer], [ServeLock]: [sharecli-ipc/src/{log_buffer,serve_lock}.rs] and
      [src/serve_lock.rs]; the lock over inodes and file descriptions, as whole calls
      and as a step relation over the system calls of any number of callers.
    - [JsonValue], [Config]: JSON values and field codecs with their laws;
      [src/{config,config_validator}.rs] and the editing of the configuration.
    - [IpcHandler]: every method of [sharecli-ipc/src/handler.rs], over the ledger,
      the log buffer and the configuration; the trace events emitted while a request is
      served are an argument and go to the log buffer.
    - [Harness]: [harness-native/src]: rules, agent detection, the search for the
      real command, the strategies over an interface [Lane] of which the
      hypervisor is an instance, and the dispatcher's [main].
    - [CliLimits]: [src/{rate_limiter,serve_rate_limit,backoff,bounded_queue,
      debounce,watchdog}.rs].
    - [AgentPolicy]: [src/agent_call_policy.rs].
    - [ServeHttp]: [src/{serve_auth,http_red,error_envelope}.rs] and
      [src/commands/serve/{middleware,run}.rs]: authentication and the middleware
      stack.
    - [Coordination]: [src/coordination.rs]: lock and queue files.
    - [Detect], [ProcScan]: [sharecli-fleet/src/{detect,proc_scan,resource_watch}.rs]:
      recognising agents by name and arguments, the parsers of [/proc], the walk up
      to the agent a process belongs to, and the agent forests.
    - [WorktreePool], [SmartMerge]: [sharecli-mesh/src/{worktree_pool,smart_merge}.rs].
    - [FuseSessions]: [sharecli-fuse/src/{session_registry,cow_session}.rs].
    - [TeamComm], [TeamStore]: the coordination daemon of [lib/teamcomm]: handlers,
      dispatcher and connection loop of [teamcomm-daemon/src/{handlers,listener}.rs],
      and the durable tables of [db.rs] with their foreign keys.
    - [SurfaceRpc]: [sharecli-session/src/{rpc,rpc_transport}.rs]: the surface
      protocol over an interface [SurfaceControl], its token and its connection loop.
    - [Cast]: [src/cast/{address,registry,caster}.rs], [src/commands/cast.rs]: pane
      addresses, the registry file, the transports and their chain.
    - [Monitors]: [src/{health_check,notifier,config_watcher,audit_log,log_sink}.rs].
    - [RuntimePool]: [src/runtime/{pool,shared,resources,process_info,audit}.rs],
      [src/spawn_policy.rs] and the stop commands.
    - [Journal]: [src/commands/{history,undo,upgrade}.rs].
    - [GatewayText]: [gateway/src/{json_patch,pem_codec,m3u_parser,jwt_hs256,
      prometheus_exposition,histogram_metrics}.rs].
    - [ProcTable]: [src/commands/proc/{build,filter,sort,scan,run,render,platform}.rs]
      and the samples of [sharecli-fleet/src/resource_watch.rs]: the filter and the
      comparator of the flat listing and those of the tree, both listings, one process
      in detail, and CSV.
    - [Utilities]: the stand-alone modules [src/{graph,speculative_cache,
      binary_search,scheduler,retry,cache,coalesce,config_loader,config_merger,
      env_manager,proc_compose,paths,smtp_response}.rs].
    - [SoakHarness]: [src/commands/soak.rs]: the second calendar of the program, the
      soak loop, percentiles and the report.
    - [FleetReport]: [src/commands/{report,render_csv}.rs], [src/monitoring.rs] and the
      companion blocks of [sharecli-fleet]: the fleet report, monitoring, and the CSV
      documents of the operator commands.
    - [TeamClient]: the clients of the coordination daemon in [lib/teamcomm]: the typed
      client, the command line, the MCP server and the pid file, put together with
      [TeamComm].
    - [SurfaceClient]: [src/session.rs]: requests, subscriptions and events of a surface,
      put together with [SurfaceRpc].
    - [FuseBackend]: [sharecli-fuse/src/{backend,mount_smoke}.rs] and the cells of
      [fuse-smoke-runner/src/matrix.rs].
    - [TrayClient]: the connection loop of [sharecli-ipc/src/main.rs], the operator
      snapshots of [handler.rs], the client, state and icon of [sharecli-tray-linux] and
      [sharecli-ffi], put together with [IpcHandler].
    - [LiveFeed]: the thermal poller, the sockets, the dashboard and the metrics page of
      [src/commands/serve], and the feed client [sharecli-ipc/src/ws_client.rs].

    ** How code becomes definitions

    A struct is a [Record], an enum an [Inductive] with the same constructors, a
    method that takes [&mut self] a function that returns the new state, and
    fallible code a [result]; an error keeps the mutations made before it.
    Integers are [Z] with the width's wrap-around, saturation or [checked_]
    operation written out; [as u8] is [mod 256].  A [HashMap] is a [gmap], a
    [BTreeMap] iteration its sorted association list, a [Vec] a list.  The clock
    is part of the state and advances where the code sleeps or runs a command.
    What lies outside the repository is an argument of the definitions that use
    it, with named hypotheses: SHA-256 and XXH3, serde_json (a decoder that
    undoes its encoder), git, child processes, host samplers, mounts, the
    contents other processes leave in a shared directory, and the failure of
    each system call.

    ** What the theorems show

    - Sharing is sound: equal keys come from commands that agree on what the mode of
      the key keeps or exhibit a hash collision; a successful run is what later
      requests of the same key within the TTL get, and a failed one is not stored; in
      every interleaving at most one process is inside the critical section of a key,
      and after a stored success no run of the key starts within the shortest TTL in
      use on the cache root; a no-cache command touches nothing of the cache.
    - Waiting ends: the back-pressure loop and the slot queue return, within the
      bounds the code names, whatever the environment does, and so does lock
      acquisition as long as the system clock is not set back.
    - Nothing leaks: the slot guard, the readiness marker and the mount are gone
      on every exit; the waiter at the front of a lane has the turn, and when another
      has it too is said exactly; the closure runs only with a slot held.
    - Guards guard: the pool is never oversubscribed, delegation never amplifies,
      a producer stops once, a seal is a snapshot, the gate is monotone.
    - The file system is coherent: inodes and paths stay in bijection in the sense
      the code keeps, reads return current bytes, commits publish the staged bytes.
    - Queues and ledgers do not lose or duplicate: a mesh task has one claimant and
      is never lost, a worker empties the queue, a log follower sees every entry, the
      event broker accounts for each loss, the session store and the daemon in front
      of it answer from an abstract ledger, the queue file is four lanes, a message of
      the coordination daemon is delivered once and in order unless somebody reads it by
      its id.
    - Agents do not collide: the daemon keeps one session per process, claims answered
      without conflicts exclude each other while they live, leases of the worktree pool
      name live worktrees, a merge changes only its output, the agent forests hold
      exactly the processes below an agent, a shared runtime has one holder as long as
      callers release only what they hold and pids are not reused.
    - Records are right: the pane registry is a map, the audit log keeps the newest
      lines, the history reads back what was appended and dates it correctly, a health
      status is the length of the present run of failures, a spawn leaves the
      environment and the permits as they were, the roots of the tree listing are the
      agents of the flat one, up to a missing count of descriptors, and their CSV reads back, as does that of the fleet report, whose
      projects add up; the two calendars agree, and the soak report is the account of
      exactly its runs.
    - Clients and servers fit: each method of the typed client does in the daemon what it
      asks for, a remote call is the local one, a subscription is accepted and its events
      are read in order; a mount gets only a backend that was verified; the socket of the
      daemon serves its owner only, the tray shows what the daemon sampled or nothing, a
      feed delivers events in order, and the metrics page is a proper exposition.
    - The utilities do what they are named for: the search visits what is reachable,
      the bounded cache is a recency list, the binary search finds what is there, a
      merge is a union, a purge removes exactly its targets.
    - Services are guarded: one server holds a deployment as long as no pidfile is
      unlinked while somebody has it open, a protected path needs the
      token or a verified JWT, the rate limiter, the retry strategy, the back-off and
      the admission policy stay within their limits, configuration edits are atomic,
      an error reply leaves no trace but log entries, the surface socket acts on no request that lacks
      its token, calls its provider within bounds and does not depend on how bytes are
      cut into reads, the durable store deletes a session without dangling references.
    - Codecs round-trip: RESP, PKCS#7, TLS records, DNS questions, chunked bodies, the
      configuration, resume recipes, PEM blocks, playlists, tokens, metric labels, SMTP
      replies; JSON
      patches act as on a map and histogram counts are those of the values.
    - Some theorems show a departure of the code from its comments or its purpose
      (slot ageing wraps, equal-priority waiters are served newest first, the
      harness key ignores argument order, a directory rename leaves stale cache
      entries, a failed staging write commits an empty file, a circuit breaker runs a
      failed command twice, failed logins are not rate limited, the stop command stops
      nothing, text for a remote pane stays on this machine, several commands and tools of
      the coordination clients do not reach what they name, the one-shot requests to a
      surface are refused, the feed client understands no frame, a rule of a short TTL
      sweeps the entries of the others, a clock set back keeps a waiter polling, two
      waiters can have the turn at once, ...); each says so.

    ** Fuel

    [acquire_lock_with_deadline] gets 200 rounds: the back-off doubles from 5 ms to
    at most 250 ms against a deadline of 30 s, so that 126 are enough while the system
    clock is not set back; on a clock that is, a theorem shows that no number is enough,
    and an answer that the fuel ended has an error of its own, [StillPolling].  The
    back-pressure loop gets its own
    retry bound of 5.  [with_slot] gets timeout / poll + 2 rounds, each of which
    advances the clock by the poll interval.  The readiness probe of a mount gets
    101 rounds of 50 ms against 5 s.  In each case a theorem shows that the fuel is
    never what ends the loop.

    The RESP parser gets the length of its input: every value it reads consumes a byte.
    A draining worker gets one round per queued task and one more.  Both have such a
    theorem too.  The retry loop counts the attempts of the rule and needs none.  The
    walk up the process table gets one round more than the table has rows, since it
    visits no process twice, and the subtree below an agent the same depth, enough
    on a table without a cycle;
    a theorem shows that on a cycle of parents no fuel is enough.  The loop over the
    years gets a round for every 365 days, which a theorem shows to be enough.  The
    breadth-first search gets two rounds more than there are nodes, each of which takes
    a node that is not queued again, and the binary search one more than the length.
    The soak loop gets two rounds more than the duration has intervals, and a mount
    session 81 looks a tenth of a second apart against 8 s; both have such a theorem.

    ** Not modelled

    Command-line parsing and status formatting, the reading of [/proc] and the other
    samplers, the actual mounting, Windows variants, lock poisoning, terminal user
    interfaces, the texts of the tray menus and the Windows tray: they are input and
    output, or repeat a modelled decision in another presentation: text tables, NDJSON
    envelopes and the loops that redraw them.

    Within what is modelled: a store of the coalesce cache, with its sweep, is one step
    of the protocol; the coalescer of [Speculation] has no path on which an executor
    panics or its task is dropped, where the callers get an error; a failed write of
    [BackingFs] leaves the file as it was, so partial writes are left out, and so are
    failed and torn writes of the files of [Coordination]; [ServeHttp] emits audit
    events, and that writing one may fail without notice is left out; the captures that
    [FleetReport] prints succeeded.  [migration.rs] of the session crate and
    [tacacs_acl.rs], which does not type-check, are not part of the build. *)
From Stdlib Require Export Ascii String.
From stdpp Require Export gmap strings list sorting pretty fin_maps relations.
From Stdlib Require Export ZArith Lia.
From Stdlib Require Export Strings.Byte.
#[global] Open Scope Z_scope.

(** * Result and the state-and-error monad *)

Inductive result (A E : Type) : Type :=
| Ok (a : A)
| Err (e : E).
Arguments Ok {A E} a.
Arguments Err {A E} e.

Definition is_ok {A E} (r : result A E) : bool :=
  match r with Ok _ => true | Err _ => false end.

Definition result_bind {A B E} (f : A → result B E) (r : result A E) : result B E :=
  match r with Ok a => f a | Err e => Err e end.

(** [o.ok_or(e)]. *)
Definition ok_or {A E} (e : E) (o : option A) : result A E :=
  match o with Some a => Ok a | None => Err e end.

(** A computation that may mutate [S] and fail: as in Rust, the mutations made
    before an error is returned are kept. *)
Definition stm (S E A : Type) : Type := S → S * result A E.

Definition st_ret {S E A} (a : A) : stm S E A := λ s, (s, Ok a).
Definition st_err {S E A} (e : E) : stm S E A := λ s, (s, Err e).
Definition st_bind {S E A B} (f : A → stm S E B) (m : stm S E A) : stm S E B :=
  λ s, match m s with
       | (s', Ok a) => f a s'
       | (s', Err e) => (s', Err e)
       end.
Definition st_get {S E} : stm S E S := λ s, (s, Ok s).
Definition st_put {S E} (s : S) : stm S E unit := λ _, (s, Ok tt).
Definition st_mod {S E} (f : S → S) : stm S E unit := λ s, (f s, Ok tt).
Definition st_lift {S E A} (r : result A E) : stm S E A := λ s, (s, r).

Declare Scope rust_scope.
Delimit Scope rust_scope with rust.
Notation "x <- m ;; k" := (st_bind (λ x, k) m)
  (at level 100, m at next level, right associativity) : rust_scope.
Notation "m ;;; k" := (st_bind (λ _, k) m)
  (at level 100, right associativity) : rust_scope.
Notation "x <-? m ;; k" := (result_bind (λ x, k) m)
  (at level 100, m at next level, right associativity) : rust_scope.
#[global] Open Scope rust_scope.

(** * Fixed-width unsigned integers *)

Definition u8_max : Z := 2 ^ 8 - 1.
Definition u32_max : Z := 2 ^ 32 - 1.
Definition u64_max : Z := 2 ^ 64 - 1.

Definition checked_add (mx a b : Z) : option Z :=
  if a + b <=? mx then Some (a + b) else None.
Definition saturating_add (mx a b : Z) : Z := Z.min mx (a + b).
Definition saturating_sub (a b : Z) : Z := Z.max 0 (a - b).
Definition saturating_mul (mx a b : Z) : Z := Z.min mx (a * b).
Definition wrapping_add (mx a b : Z) : Z := (a + b) mod (mx + 1).
(** [x as u8] truncates. *)
Definition as_u8 (x : Z) : Z := x mod 2 ^ 8.
Definition as_u64 (x : Z) : Z := x mod 2 ^ 64.

#[global] Instance byte_eq_decision : EqDecision byte := Byte.byte_eq_dec.

(** * Strings (byte strings of UTF-8 text) *)

Definition empty_str : string := EmptyString.

Definition str_is_empty (s : string) : bool :=
  match s with EmptyString => true | _ => false end.

Definition ascii_lower (c : ascii) : ascii :=
  let n := nat_of_ascii c in
  if ((65 <=? n) && (n <=? 90))%nat then ascii_of_nat (n + 32) else c.

Fixpoint to_ascii_lowercase (s : string) : string :=
  match s with
  | EmptyString => EmptyString
  | String c s => String (ascii_lower c) (to_ascii_lowercase s)
  end.

(** ASCII part of [char::is_whitespace]. *)
Definition is_ws (c : ascii) : bool := Ascii.is_space c.

Fixpoint trim_start (s : string) : string :=
  match s with
  | String c s' => if is_ws c then trim_start s' else s
  | EmptyString => EmptyString
  end.

Fixpoint trim_end (s : string) : string :=
  match s with
  | EmptyString => EmptyString
  | String c s' =>
      match trim_end s' with
      | EmptyString => if is_ws c then EmptyString else String c EmptyString
      | t => String c t
      end
  end.

Definition trim (s : string) : string := trim_end (trim_start s).

(** [s.split(c)]: always at least one piece. *)
Fixpoint split_on (c : ascii) (s : string) : list string :=
  match s with
  | EmptyString => [EmptyString]
  | String a s' =>
      match split_on c s' with
      | [] => [] (* unreachable: [split_on] is never empty *)
      | w :: ws =>
          if bool_decide (a = c) then EmptyString :: w :: ws
          else String a w :: ws
      end
  end.

Fixpoint str_map (g : ascii → ascii) (s : string) : string :=
  match s with EmptyString => EmptyString | String c s' => String (g c) (str_map g s') end.
Fixpoint str_all (g : ascii → bool) (s : string) : bool :=
  match s with EmptyString => true | String c s' => g c && str_all g s' end.
Fixpoint has_char (c : ascii) (s : string) : bool :=
  match s with
  | EmptyString => false
  | String a s' => bool_decide (a = c) || has_char c s'
  end.

Definition nl : ascii := ascii_of_nat 10.
Definition cr : ascii := ascii_of_nat 13.

Fixpoint strip_cr (s : string) : string :=
  match s with
  | EmptyString => EmptyString
  | String c EmptyString => if bool_decide (c = cr) then EmptyString else s
  | String c s' => String c (strip_cr s')
  end.

(** [s.lines()]: pieces between newlines, without a trailing carriage return; a final
    newline does not start another line. *)
Definition str_lines (s : string) : list string :=
  let ps := split_on nl s in
  strip_cr <$>
    match last ps with Some EmptyString => removelast ps | _ => ps end.

Fixpoint starts_with (p s : string) : bool :=
  match p, s with
  | EmptyString, _ => true
  | String a p', String b s' => bool_decide (a = b) && starts_with p' s'
  | _, EmptyString => false
  end.

(** [str::strip_prefix]. *)
Fixpoint strip_prefix (p s : string) : option string :=
  match p, s with
  | EmptyString, _ => Some s
  | String a p', String b s' => if bool_decide (a = b) then strip_prefix p' s' else None
  | _, EmptyString => None
  end.

(** [str::strip_suffix]. *)
Fixpoint strip_suffix (p s : string) : option string :=
  if bool_decide (s = p) then Some EmptyString
  else match s with EmptyString => None | String c s' => String c <$> strip_suffix p s' end.

(** [s.contains(p)]. *)
Fixpoint contains (p s : string) : bool :=
  starts_with p s ||
  match s with
  | EmptyString => false
  | String _ s' => contains p s'
  end.

(** [str::split_whitespace]. *)
Fixpoint split_ws_go (s word : string) : list string :=
  match s with
  | EmptyString => if str_is_empty word then [] else [word]
  | String c s' =>
      if is_ws c then (if str_is_empty word then [] else [word]) ++ split_ws_go s' EmptyString
      else split_ws_go s' (word +:+ String c EmptyString)
  end.
Definition split_whitespace (s : string) : list string := split_ws_go s EmptyString.

(** Before and after the first character that satisfies [g]. *)
Fixpoint split_first (g : ascii → bool) (s : string) : option (string * string) :=
  match s with
  | EmptyString => None
  | String c s' =>
      if g c then Some (EmptyString, s')
      else prod_map (String c) id <$> split_first g s'
  end.
Definition split_once (c : ascii) : string → option (string * string) :=
  split_first (λ a, bool_decide (a = c)).

Fixpoint join_with (sep : string) (l : list string) : string :=
  match l with
  | [] => EmptyString
  | [x] => x
  | x :: l' => x +:+ sep +:+ join_with sep l'
  end.

Fixpoint concat_str (l : list string) : string :=
  match l with
  | [] => EmptyString
  | x :: l' => x +:+ concat_str l'
  end.

(** ** Decimal numbers *)

Definition digit_val (c : ascii) : option Z :=
  let n := Z.of_nat (nat_of_ascii c) in
  if (48 <=? n) && (n <=? 57) then Some (n - 48) else None.

Fixpoint parse_digits (mx acc : Z) (s : string) : option Z :=
  match s with
  | EmptyString => Some acc
  | String c s' =>
      match digit_val c with
      | Some d =>
          let v := acc * 10 + d in
          if v <=? mx then parse_digits mx v s' else None
      | None => None
      end
  end.

(** [s.parse::<uN>().ok()]: an optional plus sign, then at least one digit, no
    overflow. *)
Definition parse_uint (mx : Z) (s : string) : option Z :=
  let body :=
    match s with
    | String "+" s' => s'
    | _ => s
    end in
  if str_is_empty body then None else parse_digits mx 0 body.

(** [s.parse::<i64>().ok()]. *)
Definition parse_i64 (s : string) : option Z :=
  match s with
  | String "-" s' =>
      if str_is_empty s' then None else Z.opp <$> parse_digits (2 ^ 63) 0 s'
  | _ => parse_uint (2 ^ 63 - 1) s
  end.

(** [format!("{}", n)] for an unsigned [n]. *)
Definition show_u (n : Z) : string := pretty (Z.to_N n).
(** [n.to_string()] for a signed number. *)
Definition show_i (n : Z) : string :=
  if n <? 0 then String "-" (show_u (- n)) else show_u n.

(** [format!("{:02}", n)]. *)
Definition show_u02 (n : Z) : string :=
  if n <? 10 then String "0" (show_u n) else show_u n.

Definition hex_digit (n : nat) : ascii :=
  match String.get n "0123456789abcdef" with Some c => c | None => "0"%char end.

(** [format!("{b:02x}")] of one byte, and [hex::encode]. *)
Definition hex_byte (c : ascii) : string :=
  let n := nat_of_ascii c in
  String (hex_digit (n / 16)) (String (hex_digit (n mod 16)) EmptyString).

Fixpoint hex_encode (s : string) : string :=
  match s with
  | EmptyString => EmptyString
  | String c s' => hex_byte c +:+ hex_encode s'
  end.

(** [Path::new(s).file_name()]. *)
Definition file_name (s : string) : option string :=
  match last (filter (λ c, c ≠ EmptyString ∧ c ≠ ".") (split_on "/" s)) with
  | Some c => if bool_decide (c = "..") then None else Some c
  | None => None
  end.

(** [slice.chunks(n)] for [n > 0]; every round takes at least one element. *)
Fixpoint slice_chunks_go {A} (fuel n : nat) (l : list A) : list (list A) :=
  match fuel, l with
  | S fuel', _ :: _ => take n l :: slice_chunks_go fuel' n (drop n l)
  | _, _ => []
  end.
Definition slice_chunks {A} (n : nat) (l : list A) : list (list A) :=
  slice_chunks_go (length l) n l.

(** * Paths: what [Path::components] yields on Unix *)

Inductive Component : Type :=
| RootDir
| CurDir
| ParentDir
| Normal (name : string).

#[global] Instance component_eq_dec : EqDecision Component.
Proof. solve_decision. Defined.

#[global] Instance component_countable : Countable Component.
Proof.
  refine (inj_countable'
    (λ c, match c with
          | RootDir => inl (inl tt) | CurDir => inl (inr tt)
          | ParentDir => inr (inl tt) | Normal s => inr (inr s) end)
    (λ x, match x with
          | inl (inl _) => RootDir | inl (inr _) => CurDir
          | inr (inl _) => ParentDir | inr (inr s) => Normal s end) _).
  by intros [].
Defined.

(** A [PathBuf] up to [PathBuf]'s own equality, which compares components. *)
Abbreviation path := (list Component) (only parsing).

Definition comp_of (s : string) : Component :=
  if bool_decide (s = "..") then ParentDir else Normal s.

(** [Path::components]: repeated slashes and [.] components vanish, but for a leading [.]. *)
Definition components (s : string) : list Component :=
  let parts := comp_of <$> filter (λ x, x ≠ EmptyString ∧ x ≠ ".") (split_on "/" s) in
  if starts_with "/" s then RootDir :: parts
  else if bool_decide (head (split_on "/" s) = Some ".") then CurDir :: parts
  else parts.

Definition is_absolute (p : path) : bool :=
  match p with RootDir :: _ => true | _ => false end.

Definition drop_curdir (p : path) : path :=
  match p with CurDir :: p' => p' | _ => p end.

(** [p.join(q)]: an absolute [q] replaces [p]; a leading [.] of [q] is dropped
    by component normalisation unless [p] is empty. *)
Definition path_join (p q : path) : path :=
  if is_absolute q then q
  else match p with
       | [] => q
       | _ => p ++ drop_curdir q
       end.

(** * Ordered iteration of a [BTreeMap<String, _>] *)

Definition key_le {A} (x y : string * A) : Prop := String.le x.1 y.1.
#[global] Instance key_le_dec {A} : RelDecision (@key_le A).
Proof. intros x y. unfold key_le. apply _. Defined.
#[global] Instance key_le_trans {A} : Transitive (@key_le A).
Proof. intros x y z. unfold key_le. apply transitivity. Qed.
#[global] Instance key_le_total {A} : Total (@key_le A).
Proof. intros x y. unfold key_le. apply (total String.le). Qed.

Definition btree_entries {A} (m : gmap string A) : list (string * A) :=
  merge_sort key_le (map_to_list m).

Definition btree_values {A} (m : gmap string A) : list A := (btree_entries m).*2.

(** * A text for every countable datum *)

(** Instantiates the serialization parameters in the examples. *)
Fixpoint pos_text (p : positive) : string :=
  match p with
  | xH => EmptyString
  | xO p => String "0" (pos_text p)
  | xI p => String "1" (pos_text p)
  end.
Fixpoint text_pos (s : string) : positive :=
  match s with
  | EmptyString => xH
  | String c s => if bool_decide (c = "1"%char) then xI (text_pos s) else xO (text_pos s)
  end.
Definition countable_text `{Countable A} (a : A) : string := pos_text (encode a).
Definition text_countable `{Countable A} (s : string) : option A := decode (text_pos s).

Lemma countable_text_roundtrip `{Countable A} (a : A) : text_countable (countable_text a) = Some a.
Proof.
  assert (Hp : ∀ p, text_pos (pos_text p) = p) by (intros p; induction p as [p IH|p IH|]; [exact (f_equal xI IH)|exact (f_equal xO IH)|done]).
  unfold text_countable, countable_text. rewrite Hp. apply decode_encode.
Qed.

(** * Sums *)

Definition list_sum_Z (l : list Z) : Z := foldr Z.add 0 l.

Definition map_sum (m : gmap string Z) : Z := list_sum_Z (map_to_list m).*2.

(** * Automation *)

Create HintDb rust.
Create Rewrite HintDb rust_str.

(** Destruct the [match]es and [if]s of the goal and hypotheses one by one,
    discharging the contradictory branches. *)
Ltac rust_step :=
  match goal with
  | H : (_, _) = (_, _) |- _ => simplify_eq H
  | H : Ok _ = Err _ |- _ => discriminate H
  | H : Err _ = Ok _ |- _ => discriminate H
  | H : Ok _ = Ok _ |- _ => injection H as H
  | H : Err _ = Err _ |- _ => injection H as H
  | H : (if ?b then _ else _) = _ |- _ => let E := fresh "Hc" in destruct b eqn:E
  | H : match ?x with _ => _ end = _ |- _ => let E := fresh "Hc" in destruct x eqn:E
  | H : match ?x with _ => _ end _ = _ |- _ => let E := fresh "Hc" in destruct x eqn:E
  | |- context [if ?b then _ else _] => let E := fresh "Hc" in destruct b eqn:E
  | |- context [match ?x with _ => _ end] => let E := fresh "Hc" in destruct x eqn:E
  end.
Ltac rust_cases := repeat (rust_step; simplify_eq/=); try done.

(** Turn boolean comparisons into propositions. *)
Ltac bool_prop :=
  repeat match goal with
  | H : (_ && _)%bool = true |- _ => apply andb_true_iff in H as [? ?]
  | H : (_ && _)%bool = false |- _ => apply andb_false_iff in H
  | H : (_ || _)%bool = true |- _ => apply orb_true_iff in H
  | H : (_ || _)%bool = false |- _ => apply orb_false_iff in H as [? ?]
  | H : negb _ = true |- _ => apply negb_true_iff in H
  | H : negb _ = false |- _ => apply negb_false_iff in H
  | H : (_ <=? _) = true |- _ => apply Z.leb_le in H
  | H : (_ <=? _) = false |- _ => apply Z.leb_gt in H
  | H : (_ <? _) = true |- _ => apply Z.ltb_lt in H
  | H : (_ <? _) = false |- _ => apply Z.ltb_ge in H
  | H : (_ =? _) = true |- _ => apply Z.eqb_eq in H
  | H : (_ =? _) = false |- _ => apply Z.eqb_neq in H
  | H : bool_decide _ = true |- _ => apply bool_decide_eq_true_1 in H
  | H : bool_decide _ = false |- _ => apply bool_decide_eq_false_1 in H
  end.

(** * Generic lemmas *)

(** One step of a computation that is run on a state. *)
Lemma st_bind_run {S E A B} (f : A → stm S E B) (m : stm S E A) s :
  st_bind f m s = match m s with (s', Ok a) => f a s' | (s', Err e) => (s', Err e) end.
Proof. done. Qed.

(** Rule induction for a state machine: an invariant of the initial state that
    every step preserves holds in every reachable state. *)
Lemma rtc_invariant {S} (R : S → S → Prop) (P : S → Prop) x y :
  P x → (∀ a b, P a → R a b → P b) → rtc R x y → P y.
Proof. intros Hx Hstep Hr. induction Hr; eauto. Qed.

(** [slice::sort_by] of a total preorder: the stable order. *)
Fixpoint insert_by {A} (le : A → A → bool) (x : A) (l : list A) : list A :=
  match l with
  | [] => [x]
  | y :: l' => if le x y then x :: l else y :: insert_by le x l'
  end.
Definition sort_by {A} (le : A → A → bool) (l : list A) : list A :=
  foldr (insert_by le) [] l.

Lemma insert_by_perm {A} (le : A → A → bool) x l : insert_by le x l ≡ₚ x :: l.
Proof.
  induction l as [|y l IH]; [done|]. simpl. destruct (le x y); [done|]. by rewrite IH, Permutation_swap.
Qed.

Lemma sort_by_perm {A} (le : A → A → bool) l : sort_by le l ≡ₚ l.
Proof. induction l as [|x l IH]; [done|]. simpl. by rewrite insert_by_perm, IH. Qed.

(** The head of a sorted list is least, for a total and transitive order. *)
Lemma sort_by_sorted {A} (le : A → A → bool) l :
  (∀ x y, le x y = true ∨ le y x = true) →
  (∀ x y z, le x y = true → le y z = true → le x z = true) →
  StronglySorted (λ x y, le x y = true) (sort_by le l).
Proof.
  intros Htot Htr. induction l as [|x l IH]; [constructor|]. simpl. clear -IH Htot Htr.
  induction IH as [|y k Hk IH Hy]; [by repeat constructor|]. simpl.
  destruct (le x y) eqn:E.
  - repeat constructor; [done..|]. eapply Forall_impl; [done|]. eauto.
  - constructor; [done|]. apply Forall_forall. intros z.
    rewrite insert_by_perm, elem_of_cons. intros [->|Hz].
    + destruct (Htot x y); [congruence|done].
    + by apply (proj1 (Forall_forall _ _) Hy).
Qed.

(** A non-empty list has a least element for a total preorder. *)
Lemma list_least_exists {A} (R : relation A) `{!Total R, !Transitive R} (l : list A) :
  l ≠ [] → ∃ x, x ∈ l ∧ ∀ y, y ∈ l → R x y.
Proof.
  assert (Reflexive R) by (intros x; by destruct (total R x x)).
  induction l as [|a [|b l] IH]; intros Hl; [done| |].
  { exists a. split; [by left|]. by intros y ->%list_elem_of_singleton. }
  destruct IH as (x & Hx & Hmin); [done|].
  destruct (total R a x) as [Hax|Hxa].
  - exists a. split; [by left|]. intros y [->|Hy]%elem_of_cons; [done|].
    trans x; auto.
  - exists x. split; [by right|]. intros y [->|Hy]%elem_of_cons; auto.
Qed.

Lemma NoDup_fmap_inj {A B} (f : A → B) (l : list A) x y :
  NoDup (f <$> l) → x ∈ l → y ∈ l → f x = f y → x = y.
Proof.
  intros Hnd Hx Hy Heq. induction l as [|a l IH]; [by apply elem_of_nil in Hx|].
  apply NoDup_cons in Hnd as [Ha Hnd].
  apply elem_of_cons in Hx as [->|Hx]; apply elem_of_cons in Hy as [->|Hy]; auto.
  - destruct Ha. rewrite Heq. by apply list_elem_of_fmap_2.
  - destruct Ha. rewrite <- Heq. by apply list_elem_of_fmap_2.
Qed.

Lemma removelast_prefix {A} (l : list A) : removelast l `prefix_of` l.
Proof.
  induction l as [|x [|y l] IH]; [done|apply prefix_nil|]. by apply (prefix_cons x).
Qed.

Lemma Forall2_filter {A B} (R : A → B → Prop) (P : A → Prop) (Q : B → Prop)
    `{!∀ x, Decision (P x), !∀ y, Decision (Q y)} l k :
  Forall2 R l k → (∀ x y, x ∈ l → y ∈ k → R x y → (P x ↔ Q y)) →
  Forall2 R (filter P l) (filter Q k).
Proof.
  induction 1 as [|x y l k Hxy Hlk IH]; intros Hpq; [constructor|].
  assert (Forall2 R (filter P l) (filter Q k)) as Hrest.
  { apply IH. intros. apply Hpq; [by right..|done]. }
  rewrite !filter_cons.
  pose proof (Hpq x y ltac:(left) ltac:(left) Hxy) as Hd.
  destruct (decide (P x)), (decide (Q y)); try tauto. by constructor.
Qed.

Lemma filter_all {A} (P : A → Prop) `{!∀ x, Decision (P x)} l : Forall P l → filter P l = l.
Proof. induction 1; [done|]. rewrite filter_cons_True by done. by f_equal. Qed.

Lemma filter_none {A} (P : A → Prop) `{!∀ x, Decision (P x)} l :
  Forall (λ x, ¬ P x) l → filter P l = [].
Proof. induction 1; [done|]. by rewrite filter_cons_False. Qed.

Lemma filter_length_le {A} (P Q : A → Prop) `{!∀ x, Decision (P x), !∀ x, Decision (Q x)} (l : list A) :
  (∀ x, x ∈ l → P x → Q x) → (length (filter P l) ≤ length (filter Q l))%nat.
Proof.
  induction l as [|x l IH]; intros Himp; [done|]. rewrite !filter_cons.
  assert ((length (filter P l) ≤ length (filter Q l))%nat) by (apply IH; set_solver).
  repeat case_decide; cbn; try lia. exfalso. set_solver.
Qed.

Lemma strongly_sorted_filter {A} (g : A → Z) (P : A → Prop) `{!∀ x, Decision (P x)} l :
  StronglySorted Z.lt (g <$> l) → StronglySorted Z.lt (g <$> filter P l).
Proof.
  induction l as [|x l IH]; [constructor|]. rewrite fmap_cons, filter_cons.
  intros [Hl Hx]%StronglySorted_inv.
  destruct (decide (P x)); [|by apply IH]. rewrite fmap_cons. constructor; [by apply IH|].
  apply Forall_fmap, Forall_forall. intros y [_ Hy]%list_elem_of_filter.
  apply (proj1 (Forall_forall _ _) Hx). by apply list_elem_of_fmap_2.
Qed.

Lemma StronglySorted_NoDup (l : list Z) : StronglySorted Z.lt l → NoDup l.
Proof.
  induction 1 as [|x l _ IH Hx]; constructor; [|done].
  intros Hin. pose proof (proj1 (Forall_forall _ _) Hx _ Hin). lia.
Qed.

Lemma sorted_snoc_inv (l : list Z) x :
  StronglySorted Z.lt (l ++ [x]) → StronglySorted Z.lt l ∧ Forall (λ y, y < x) l.
Proof.
  induction l as [|y l IH]; simpl; intros Hs; [split; constructor|].
  apply StronglySorted_inv in Hs as [Hs Hy]. destruct (IH Hs) as [? ?].
  apply Forall_app in Hy as [? [Hyx _]%Forall_cons]. split; constructor; auto.
Qed.

Lemma slice_chunks_go_spec {A} fuel n (l : list A) :
  (0 < n)%nat → (length l ≤ fuel)%nat →
  concat (slice_chunks_go fuel n l) = l ∧
  Forall (λ c, 0 < length c ≤ n)%nat (slice_chunks_go fuel n l).
Proof.
  intros Hn. revert l. induction fuel as [|fuel IH]; intros [|b l] Hl; simpl in *; try by auto.
  { lia. }
  destruct (IH (drop n (b :: l))) as [Hc Hf].
  { rewrite length_drop. simpl. lia. }
  split; [by rewrite Hc, take_drop|].
  constructor; [|done]. rewrite length_take. simpl. lia.
Qed.

(** Chunks are non-empty, no longer than [n], and concatenate to the slice. *)
Lemma slice_chunks_spec {A} n (l : list A) :
  (0 < n)%nat →
  concat (slice_chunks n l) = l ∧ Forall (λ c, 0 < length c ≤ n)%nat (slice_chunks n l).
Proof. intros Hn. by apply slice_chunks_go_spec. Qed.

Lemma list_sum_Z_app l k : list_sum_Z (l ++ k) = list_sum_Z l + list_sum_Z k.
Proof. induction l; simpl; lia. Qed.

Lemma list_sum_Z_perm l k : l ≡ₚ k → list_sum_Z l = list_sum_Z k.
Proof. induction 1; simpl; lia. Qed.

Lemma list_sum_Z_nonneg l : Forall (λ x, 0 ≤ x) l → 0 ≤ list_sum_Z l.
Proof. induction 1; simpl; lia. Qed.

Lemma btree_entries_perm {A} (m : gmap string A) : btree_entries m ≡ₚ map_to_list m.
Proof. apply merge_sort_Permutation. Qed.

Lemma btree_entries_fmap {A B} (f : A → B) (m : gmap string A) :
  btree_entries (f <$> m) = prod_map id f <$> btree_entries m.
Proof.
  apply (StronglySorted_unique_strong key_le).
  - intros [k x] [k' y] Hx Hy Hl Hr. assert (k = k') as <- by (by apply (anti_symm String.le)).
    rewrite btree_entries_perm in Hx. apply elem_of_map_to_list in Hx.
    apply list_elem_of_fmap in Hy as ([k2 a] & [= -> ->] & Hy). rewrite btree_entries_perm in Hy.
    apply elem_of_map_to_list in Hy. rewrite lookup_fmap in Hx. cbn in *. rewrite Hy in Hx. by injection Hx as <-.
  - apply (StronglySorted_merge_sort _).
  - assert (StronglySorted key_le (btree_entries m)) as Hs by apply (StronglySorted_merge_sort _).
    induction Hs as [|[k x] l _ IH Hl]; [constructor|]. cbn. constructor; [done|]. apply Forall_fmap.
    by eapply Forall_impl; [exact Hl|].
  - by rewrite !btree_entries_perm, map_to_list_fmap.
Qed.

Lemma btree_values_perm {A} (m : gmap string A) : btree_values m ≡ₚ (map_to_list m).*2.
Proof. unfold btree_values. by rewrite btree_entries_perm. Qed.

Lemma btree_values_Forall {A} (P : A → Prop) (m : gmap string A) :
  Forall P (btree_values m) ↔ map_Forall (λ _, P) m.
Proof.
  rewrite btree_values_perm, Forall_fmap, map_Forall_to_list.
  apply Forall_iff. by intros [].
Qed.

Lemma elem_of_btree_values {A} (m : gmap string A) x :
  x ∈ btree_values m ↔ ∃ k, m !! k = Some x.
Proof.
  rewrite btree_values_perm, list_elem_of_fmap. split.
  - intros ([k y] & -> & Hk%elem_of_map_to_list). eauto.
  - intros [k Hk]. exists (k, x). by rewrite elem_of_map_to_list.
Qed.

Lemma map_sum_empty : map_sum ∅ = 0.
Proof. unfold map_sum. by rewrite map_to_list_empty. Qed.

Lemma map_sum_insert_None m i x : m !! i = None → map_sum (<[i:=x]> m) = x + map_sum m.
Proof.
  intros Hi. unfold map_sum.
  rewrite (list_sum_Z_perm _ ((i, x) :: map_to_list m).*2); [done|].
  by rewrite map_to_list_insert.
Qed.

Lemma map_sum_delete m i x : m !! i = Some x → map_sum (delete i m) = map_sum m - x.
Proof.
  intros Hi. rewrite <- (insert_delete_id m i x Hi) at 2.
  rewrite map_sum_insert_None by apply lookup_delete_eq. lia.
Qed.

Lemma map_sum_nonneg m : map_Forall (λ _ x, 0 ≤ x) m → 0 ≤ map_sum m.
Proof.
  intros H. apply list_sum_Z_nonneg. rewrite Forall_fmap.
  apply map_Forall_to_list in H. eapply Forall_impl; [exact H|]. by intros [].
Qed.

Lemma map_sum_lookup_le m i x :
  map_Forall (λ _ x, 0 ≤ x) m → m !! i = Some x → x ≤ map_sum m.
Proof.
  intros Hall Hi.
  pose proof (map_sum_nonneg (delete i m)) as Hn.
  rewrite (map_sum_delete m i x Hi) in Hn.
  assert (0 ≤ map_sum m - x); [|lia].
  apply Hn. by apply map_Forall_delete.
Qed.

(** ** Strings *)

Lemma str_app_nil_r s : s +:+ EmptyString = s.
Proof. induction s as [|a s IH]; [done|]. change (String a (s +:+ EmptyString) = String a s). by rewrite IH. Qed.

Lemma str_app_assoc s t u : (s +:+ t) +:+ u = s +:+ (t +:+ u).
Proof. induction s as [|a s IH]; [done|]. change (String a ((s +:+ t) +:+ u) = String a (s +:+ (t +:+ u))). by rewrite IH. Qed.

Lemma str_app_cons a s t : String a s +:+ t = String a (s +:+ t).
Proof. done. Qed.

Lemma str_app_nil_l t : EmptyString +:+ t = t.
Proof. done. Qed.

#[export] Hint Rewrite str_app_nil_r str_app_assoc str_app_cons str_app_nil_l : rust_str.

Lemma str_is_empty_false s : str_is_empty s = false ↔ s ≠ EmptyString.
Proof. by destruct s. Qed.

Lemma str_all_has_char g c s : str_all g s = true → has_char c s = true → g c = true.
Proof.
  induction s as [|a s IH]; [done|]. simpl. intros [Ha Hs]%andb_true_iff [Hc|Hc]%orb_true_iff.
  - apply bool_decide_eq_true_1 in Hc. by subst.
  - auto.
Qed.

Lemma has_char_app c s t : has_char c (s +:+ t) = has_char c s || has_char c t.
Proof.
  induction s as [|a s IH]; [done|].
  rewrite str_app_cons. simpl. by rewrite IH, orb_assoc.
Qed.

Lemma strip_prefix_app p s : strip_prefix p (p +:+ s) = Some s.
Proof. induction p as [|a p IH]; rewrite ?str_app_cons, ?str_app_nil_l; [done|]. cbn. by rewrite bool_decide_true. Qed.
Lemma str_length_app s t : String.length (s +:+ t) = (String.length s + String.length t)%nat.
Proof. induction s as [|a s IH]; [done|]. rewrite str_app_cons. cbn. by rewrite IH. Qed.
Lemma strip_suffix_app p s : strip_suffix p (s +:+ p) = Some s.
Proof.
  induction s as [|a s IH].
  - rewrite str_app_nil_l. destruct p; cbn; by rewrite bool_decide_true.
  - rewrite str_app_cons. cbn. rewrite bool_decide_false, IH; [done|].
    intros Hp. apply (f_equal String.length) in Hp. cbn in Hp. rewrite str_length_app in Hp. lia.
Qed.
Lemma str_all_app g s t : str_all g (s +:+ t) = str_all g s && str_all g t.
Proof. induction s as [|a s IH]; [done|]. rewrite str_app_cons. cbn. by rewrite IH, andb_assoc. Qed.
Lemma str_all_impl (g h : ascii → bool) s : (∀ c, g c = true → h c = true) → str_all g s = true → str_all h s = true.
Proof. intros Hgh. induction s as [|a s IH]; [done|]. cbn. intros [? ?]%andb_true_iff. by rewrite Hgh, IH. Qed.
Lemma str_all_no_char g c s : g c = false → str_all g s = true → has_char c s = false.
Proof. intros Hg Hs. destruct (has_char c s) eqn:E; [|done]. rewrite (str_all_has_char g c s Hs E) in Hg. done. Qed.

Lemma trim_end_app s t : t ≠ EmptyString → trim_end t = t → trim_end (s +:+ t) = s +:+ t.
Proof.
  intros Hne Ht. induction s as [|a s IH]; [done|]. rewrite str_app_cons. cbn [trim_end]. rewrite IH.
  destruct s; [rewrite str_app_nil_l; by destruct t|done].
Qed.
Lemma split_once_at c k rest : has_char c k = false → split_once c (k +:+ String c rest) = Some (k, rest).
Proof.
  unfold split_once. induction k as [|a k IH]; [intros _; rewrite str_app_nil_l; cbn; by rewrite bool_decide_true|]. cbn [has_char]. intros [Hc Hk]%orb_false_iff. rewrite str_app_cons. cbn [split_first].
  by rewrite Hc, IH.
Qed.

Lemma trim_no_ws g s : (∀ c, g c = true → is_ws c = false) → str_all g s = true → trim s = s.
Proof.
  intros Hg H. unfold trim.
  assert (trim_start s = s) as ->.
  { destruct s as [|c s]; [done|]. simpl in *. apply andb_true_iff in H as [Hc _].
    by rewrite Hg. }
  induction s as [|c s IH]; [done|]. simpl in *. apply andb_true_iff in H as [Hc Hs].
  rewrite IH by done. destruct s; [by rewrite Hg|done].
Qed.

Lemma split_on_nonempty c s : split_on c s ≠ [].
Proof.
  induction s as [|a s IH]; simpl; [done|].
  destruct (split_on c s); [done|]. by case_bool_decide.
Qed.

Lemma split_on_no_char c s : has_char c s = false → split_on c s = [s].
Proof.
  induction s as [|a s IH]; simpl; [done|].
  intros [Ha Hs]%orb_false_iff. rewrite IH by done. by rewrite Ha.
Qed.

Lemma split_on_app c s t :
  has_char c s = false → split_on c (s +:+ String c t) = s :: split_on c t.
Proof.
  induction s as [|a s IH]; simpl; intros Hs.
  - destruct (split_on c t) eqn:Et; [|by rewrite bool_decide_eq_true_2].
    exfalso. by apply (split_on_nonempty c t).
  - apply orb_false_iff in Hs as [Ha Hs].
    rewrite IH by done. by rewrite Ha.
Qed.

(** Splitting a joined list gives the list back when no piece holds the
    separator. *)
Lemma split_on_join c (l : list string) :
  l ≠ [] → Forall (λ s, has_char c s = false) l →
  split_on c (join_with (String c EmptyString) l) = l.
Proof.
  intros Hne Hall. induction l as [|x [|y l] IH]; [done| |].
  - inversion Hall; subst. by apply split_on_no_char.
  - inversion Hall; subst.
    change (join_with (String c EmptyString) (x :: y :: l))
      with (x +:+ String c (join_with (String c EmptyString) (y :: l))).
    rewrite split_on_app by done. f_equal. apply IH; [done|]. by inversion Hall.
Qed.

(** ** Decimal numbers *)

Lemma pretty_N_char_digit d : (d < 10)%N → digit_val (pretty_N_char d) = Some (Z.of_N d).
Proof.
  intros Hd.
  assert (d ∈ ([0;1;2;3;4;5;6;7;8;9]%N : list N)) as Hin.
  { destruct d as [|[[[[]|[]|]|[[]|[]|]|]|[[[]|[]|]|[[]|[]|]|]|]]; try lia; set_solver. }
  by repeat (apply elem_of_cons in Hin as [->|Hin]; [done|]); apply elem_of_nil in Hin.
Qed.

Lemma parse_digits_pretty mx (x : N) s :
  Z.of_N x ≤ mx → parse_digits mx 0 (pretty_N_go x s) = parse_digits mx (Z.of_N x) s.
Proof.
  revert s. induction (N.lt_wf_0 x) as [x _ IH]; intros s Hx.
  destruct (decide (x = 0)%N) as [->|Hne]; [by rewrite pretty_N_go_0|].
  pose proof (N.div_mod x 10 ltac:(done)) as Hdm.
  pose proof (N.mod_lt x 10 ltac:(done)) as Hm.
  rewrite pretty_N_go_step by lia.
  assert (x / 10 < x)%N as Hlt by (apply N.div_lt; lia).
  remember (x / 10)%N as q eqn:Eq; remember (x mod 10)%N as r eqn:Er; clear Eq Er.
  rewrite IH by lia. cbn [parse_digits].
  rewrite pretty_N_char_digit by done.
  replace (Z.of_N q * 10 + Z.of_N r) with (Z.of_N x) by lia.
  by rewrite (proj2 (Z.leb_le _ _) Hx).
Qed.

Lemma pretty_N_go_nonempty x s : s ≠ EmptyString → pretty_N_go x s ≠ EmptyString.
Proof.
  revert s. induction (N.lt_wf_0 x) as [x _ IH]; intros s Hs.
  destruct (decide (x = 0)%N) as [->|Hne]; [by rewrite pretty_N_go_0|].
  rewrite pretty_N_go_step by lia. apply IH; [apply N.div_lt; lia|done].
Qed.

Lemma has_char_pretty c (x : N) s :
  digit_val c = None → has_char c (pretty_N_go x s) = has_char c s.
Proof.
  intros Hc. revert s. induction (N.lt_wf_0 x) as [x _ IH]; intros s.
  destruct (decide (x = 0)%N) as [->|Hne]; [by rewrite pretty_N_go_0|].
  pose proof (N.mod_lt x 10 ltac:(done)) as Hm.
  rewrite pretty_N_go_step by lia.
  rewrite IH by (apply N.div_lt; lia). cbn [has_char].
  rewrite bool_decide_eq_false_2; [done|]. intros Heq.
  pose proof (pretty_N_char_digit _ Hm) as Hd. rewrite Heq in Hd. congruence.
Qed.

Lemma show_u_unfold n :
  show_u n = if decide (Z.to_N n = 0%N) then "0" else pretty_N_go (Z.to_N n) EmptyString.
Proof. done. Qed.

(** A printed number has no character but digits, is not empty, and parses back. *)
Lemma has_char_show_u c n : digit_val c = None → has_char c (show_u n) = false.
Proof.
  intros Hc. rewrite show_u_unfold. destruct (decide _).
  - simpl. rewrite bool_decide_eq_false_2; [done|]. by intros <-.
  - by rewrite has_char_pretty.
Qed.

Lemma has_char_show_u02 c n : digit_val c = None → has_char c (show_u02 n) = false.
Proof.
  intros Hc. unfold show_u02. destruct (n <? 10); [|by apply has_char_show_u].
  simpl. rewrite has_char_show_u by done.
  rewrite bool_decide_eq_false_2; [done|]. by intros <-.
Qed.

Lemma show_u_nonempty n : show_u n ≠ EmptyString.
Proof.
  rewrite show_u_unfold. destruct (decide _) as [|Hne]; [done|].
  rewrite pretty_N_go_step by lia. by apply pretty_N_go_nonempty.
Qed.

Lemma parse_uint_body mx s :
  s ≠ EmptyString → has_char "+" s = false → parse_uint mx s = parse_digits mx 0 s.
Proof.
  destruct s as [|a s]; [done|]. cbn [has_char]. intros _ [Ha _]%orb_false_iff.
  apply bool_decide_eq_false_1 in Ha. unfold parse_uint.
  by destruct a as [[] [] [] [] [] [] [] []].
Qed.

Lemma parse_digits_zero mx s :
  0 ≤ mx → parse_digits mx 0 (String "0" s) = parse_digits mx 0 s.
Proof.
  intros Hmx. cbn [parse_digits]. change (digit_val "0") with (Some 0).
  cbv beta iota zeta. change (0 * 10 + 0) with 0.
  by rewrite (proj2 (Z.leb_le 0 mx) Hmx).
Qed.

Lemma parse_digits_show mx n :
  0 ≤ n ≤ mx → parse_digits mx 0 (show_u n) = Some n.
Proof.
  intros Hn. rewrite show_u_unfold. destruct (decide _) as [Hz|Hne].
  - assert (n = 0) as -> by lia. rewrite parse_digits_zero by lia. done.
  - rewrite parse_digits_pretty by lia. simpl. f_equal. lia.
Qed.

Lemma parse_uint_show mx n : 0 ≤ n ≤ mx → parse_uint mx (show_u n) = Some n.
Proof.
  intros Hn. rewrite parse_uint_body by (apply show_u_nonempty || by apply has_char_show_u).
  by apply parse_digits_show.
Qed.

Lemma parse_uint_show02 mx n : 0 ≤ n ≤ mx → parse_uint mx (show_u02 n) = Some n.
Proof.
  intros Hn. unfold show_u02. destruct (n <? 10); [|by apply parse_uint_show].
  rewrite parse_uint_body by (done || (simpl; by rewrite has_char_show_u)).
  rewrite parse_digits_zero by lia. by apply parse_digits_show.
Qed.

(** ** Lines *)

(** A text of lines, each with its end. *)
Definition line_block (ls : list string) : string :=
  concat_str ((λ l, l +:+ String nl EmptyString) <$> ls).

Lemma split_line_block ls :
  Forall (λ l, has_char nl l = false) ls → split_on nl (line_block ls) = ls ++ [EmptyString].
Proof.
  induction 1 as [|l ls Hl _ IH]; [done|]. unfold line_block in *.
  cbn [fmap list_fmap concat_str app]. rewrite str_app_assoc, str_app_cons, str_app_nil_l.
  by rewrite split_on_app, IH.
Qed.

Lemma strip_cr_id s : has_char cr s = false → strip_cr s = s.
Proof.
  induction s as [|c s IH]; [done|]. cbn [has_char]. intros [Hc Hs]%orb_false_iff.
  destruct s as [|c' s]; [|cbn [strip_cr]; f_equal; by apply IH].
  cbn [strip_cr]. by rewrite Hc.
Qed.

Lemma str_lines_block ls :
  Forall (λ l, has_char nl l = false ∧ has_char cr l = false) ls → str_lines (line_block ls) = ls.
Proof.
  intros Hl. unfold str_lines.
  rewrite split_line_block by (eapply Forall_impl; [done|simpl; tauto]).
  rewrite last_snoc, removelast_last. induction Hl as [|l ls [_ Hc] _ IH]; [done|].
  rewrite fmap_cons, strip_cr_id by done. by f_equal.
Qed.

Lemma concat_str_app l k : concat_str (l ++ k) = concat_str l +:+ concat_str k.
Proof. induction l as [|s l IH]; [done|]. cbn. by rewrite IH, str_app_assoc. Qed.

Lemma line_block_snoc ls l : line_block (ls ++ [l]) = line_block ls +:+ l +:+ String nl EmptyString.
Proof. unfold line_block. rewrite fmap_app, concat_str_app. cbn. by rewrite str_app_nil_r. Qed.
