(* ===== verification/TransactionContract.v ===== *)
(** The transaction contracts of crates/sharecli-core/src/transaction_contract.rs:
    delegation of grants, the physical reservation pool, the shared producer and
    the sealed parent membership, each as a record with one definition per
    method, and the step relation of each state machine. *)
From S2P Require Import Prelude.

(** * Data *)

Inductive ActorKind : Type := Human | SoftwareAgent.

Record Actor : Type := mkActor { actor_id : string; actor_kind : ActorKind }.

Record Grant : Type := mkGrant {
  grant_actor_id : string;
  scope_id : string;
  authority_epoch : Z;
  operations : gset string;
  max_delegated_units : Z;
}.

Inductive GuardError : Type :=
| Duplicate
| InsufficientCapacity
| Overflow
| UnknownReservation
| UnknownConsumer
| InvalidUnits
| NotReclaimed
| ProducerStopping
| StaleGeneration
| IneligibleShare
| StaleMembership
| UnfinishedChild.

Definition validate_delegation (parent child : Grant) (child_is_descendant : bool) : bool :=
  child_is_descendant
  && (authority_epoch parent =? authority_epoch child)
  && (max_delegated_units child <=? max_delegated_units parent)
  && bool_decide (operations child ⊆ operations parent).

(** * ReservationPool *)

Record ReservationPool : Type := mkPool {
  capacity : Z;
  active : gmap string Z;
}.

Definition pool_new (cap : Z) : ReservationPool := mkPool cap ∅.

(** [values().copied().sum()]: a [u64] sum, wrapping in release builds. *)
Definition admitted (p : ReservationPool) : Z :=
  foldl (wrapping_add u64_max) 0 (btree_values (active p)).

(** [try_fold(0, |sum, value| sum.checked_add(value).ok_or(Overflow))]. *)
Definition try_sum (l : list Z) : result Z GuardError :=
  foldl (λ acc v, result_bind (λ s, ok_or Overflow (checked_add u64_max s v)) acc)
        (Ok 0) l.

Definition reserve (reservation_id : string) (units : Z)
  : stm ReservationPool GuardError unit :=
  p <- st_get ;;
  match active p !! reservation_id with
  | Some _ => st_err Duplicate
  | None =>
      if units =? 0 then st_err InvalidUnits
      else
        used <- st_lift (try_sum (btree_values (active p))) ;;
        next <- st_lift (ok_or Overflow (checked_add u64_max used units)) ;;
        if next >? capacity p then st_err InsufficientCapacity
        else st_put (mkPool (capacity p) (<[reservation_id := units]> (active p)))
  end.

Definition release (reservation_id : string) (reclaimed : bool)
  : stm ReservationPool GuardError unit :=
  p <- st_get ;;
  match active p !! reservation_id with
  | None => st_err UnknownReservation
  | Some _ =>
      if negb reclaimed then st_err NotReclaimed
      else st_put (mkPool (capacity p) (delete reservation_id (active p)))
  end.

Inductive pool_op : Type :=
| PReserve (id : string) (units : Z)
| PRelease (id : string) (reclaimed : bool).

Definition pool_exec (op : pool_op) : stm ReservationPool GuardError unit :=
  match op with
  | PReserve id units => reserve id units
  | PRelease id reclaimed => release id reclaimed
  end.

(** The units argument is a [u64]. *)
Definition pool_op_typed (op : pool_op) : Prop :=
  match op with PReserve _ units => 0 ≤ units ≤ u64_max | PRelease _ _ => True end.

Inductive pool_step : ReservationPool → ReservationPool → Prop :=
| pool_step_op op p : pool_op_typed op → pool_step p (pool_exec op p).1.

(** * SharedProducer *)

Inductive ProducerState : Type := Running | Stopping.
#[global] Instance producer_state_eq_dec : EqDecision ProducerState.
Proof. solve_decision. Defined.

Record SharedProducer : Type := mkProducer {
  generation : Z;
  pstate : ProducerState;
  consumers : gset string;
}.

Definition producer_new (g : Z) : SharedProducer := mkProducer g Running ∅.

Definition join (gen : Z) (consumer_id : string)
    (equivalent share_allowed output_authorized : bool)
  : stm SharedProducer GuardError unit :=
  p <- st_get ;;
  if negb (gen =? generation p) then st_err StaleGeneration
  else if negb (bool_decide (pstate p = Running)) then st_err ProducerStopping
  else if negb (equivalent && share_allowed && output_authorized)
  then st_err IneligibleShare
  else st_put (mkProducer (generation p) (pstate p) ({[consumer_id]} ∪ consumers p)).

Definition detach (gen : Z) (consumer_id : string)
  : stm SharedProducer GuardError bool :=
  p <- st_get ;;
  if negb (gen =? generation p) then st_err StaleGeneration
  else if negb (bool_decide (consumer_id ∈ consumers p)) then st_err UnknownConsumer
  else
    let rest := consumers p ∖ {[consumer_id]} in
    if bool_decide (rest = ∅) && bool_decide (pstate p = Running)
    then st_put (mkProducer (generation p) Stopping rest) ;;; st_ret true
    else st_put (mkProducer (generation p) (pstate p) rest) ;;; st_ret false.

Definition consumer_count (p : SharedProducer) : nat := size (consumers p).

Inductive producer_op : Type :=
| OpJoin (gen : Z) (c : string) (equivalent share_allowed output_authorized : bool)
| OpDetach (gen : Z) (c : string).

Inductive producer_out : Type :=
| OutJoin (r : result unit GuardError)
| OutDetach (r : result bool GuardError).

Definition producer_exec (op : producer_op) (p : SharedProducer)
  : SharedProducer * producer_out :=
  match op with
  | OpJoin g c e s o => let '(p', r) := join g c e s o p in (p', OutJoin r)
  | OpDetach g c => let '(p', r) := detach g c p in (p', OutDetach r)
  end.

(** A serialized history of joins and detaches, with what each call returned. *)
Fixpoint producer_run (ops : list producer_op) (p : SharedProducer)
  : SharedProducer * list producer_out :=
  match ops with
  | [] => (p, [])
  | op :: ops' =>
      let '(p1, o) := producer_exec op p in
      let '(p2, os) := producer_run ops' p1 in
      (p2, o :: os)
  end.

(** * Effect retries *)

Inductive EffectOutcome : Type :=
| NotDispatched | ConfirmedSuccess | ConfirmedFailure | UnknownOutcome.

Definition can_retry_effect (outcome : EffectOutcome)
    (same_effect_key_and_payload atomic_target_deduplication proven_absent
     duplication_explicitly_authorized : bool) : bool :=
  match outcome with
  | ConfirmedSuccess => false
  | NotDispatched => true
  | ConfirmedFailure | UnknownOutcome =>
      proven_absent
      || duplication_explicitly_authorized
      || (same_effect_key_and_payload && atomic_target_deduplication)
  end.

(** * ParentMembership *)

Record ParentMembership : Type := mkMembership {
  version : Z;
  sealed : bool;
  required : gmap string bool;
}.

Definition membership_default : ParentMembership := mkMembership 0 false ∅.

Definition add_child (id : string) : stm ParentMembership GuardError unit :=
  m <- st_get ;;
  if sealed m then st_err StaleMembership
  else match required m !! id with
       | Some _ => st_err Duplicate
       | None =>
           v <- st_lift (ok_or Overflow (checked_add u64_max (version m) 1)) ;;
           st_put (mkMembership v (sealed m) (<[id := false]> (required m)))
       end.

Definition mark_accepted (id : string) : stm ParentMembership GuardError unit :=
  m <- st_get ;;
  if sealed m then st_err StaleMembership
  else match required m !! id with
       | None => st_err UnknownReservation
       | Some _ => st_put (mkMembership (version m) (sealed m) (<[id := true]> (required m)))
       end.

Definition seal (expected_version : Z) : stm ParentMembership GuardError unit :=
  m <- st_get ;;
  if sealed m || negb (expected_version =? version m) then st_err StaleMembership
  else if negb (forallb id (btree_values (required m))) then st_err UnfinishedChild
  else st_put (mkMembership (version m) true (required m)).

Inductive membership_op : Type :=
| MAdd (id : string)
| MAccept (id : string)
| MSeal (expected_version : Z).

Definition membership_exec (op : membership_op) : stm ParentMembership GuardError unit :=
  match op with
  | MAdd id => add_child id
  | MAccept id => mark_accepted id
  | MSeal v => seal v
  end.

Inductive membership_step : ParentMembership → ParentMembership → Prop :=
| membership_step_op op m : membership_step m (membership_exec op m).1.

(** * Lemmas on the pool *)

Lemma try_sum_from l a :
  0 ≤ a ≤ u64_max → Forall (λ x, 0 ≤ x) l →
  foldl (λ acc v, result_bind (λ s, ok_or Overflow (checked_add u64_max s v)) acc) (Ok a) l
  = if a + list_sum_Z l <=? u64_max then Ok (a + list_sum_Z l) else Err Overflow.
Proof.
  intros Ha Hl. revert a Ha. induction Hl as [|x l Hx Hl IH]; intros a Ha; simpl.
  - rewrite Z.add_0_r. by rewrite (proj2 (Z.leb_le _ _)) by lia.
  - unfold checked_add at 2. pose proof (list_sum_Z_nonneg l Hl).
    destruct (a + x <=? u64_max) eqn:E; bool_prop; simpl.
    + rewrite IH by lia. by rewrite Z.add_assoc.
    + rewrite (proj2 (Z.leb_gt _ _)) by lia.
      clear. induction l; simpl; auto.
Qed.

Lemma wrapping_sum_from l a :
  0 ≤ a → Forall (λ x, 0 ≤ x) l → a + list_sum_Z l ≤ u64_max →
  foldl (wrapping_add u64_max) a l = a + list_sum_Z l.
Proof.
  intros Ha Hl. revert a Ha. induction Hl as [|x l Hx Hl IH]; intros a Ha Hs; simpl in *.
  - lia.
  - pose proof (list_sum_Z_nonneg l Hl).
    unfold wrapping_add at 2. rewrite Z.mod_small by lia. rewrite IH; lia.
Qed.

Definition pool_ok (p : ReservationPool) : Prop :=
  0 ≤ capacity p ≤ u64_max
  ∧ map_Forall (λ _ x, 0 < x) (active p)
  ∧ map_sum (active p) ≤ capacity p.

Lemma pool_ok_new cap : 0 ≤ cap ≤ u64_max → pool_ok (pool_new cap).
Proof.
  intros. split_and!; simpl; [lia..|apply map_Forall_empty|].
  rewrite map_sum_empty. lia.
Qed.

Lemma pool_ok_nonneg p : pool_ok p → map_Forall (λ _ x, 0 ≤ x) (active p).
Proof. intros (_ & H & _). eapply map_Forall_impl; [exact H|]. simpl. lia. Qed.

Lemma btree_values_nonneg p : pool_ok p → Forall (λ x, 0 ≤ x) (btree_values (active p)).
Proof. intros H. apply btree_values_Forall. by apply pool_ok_nonneg. Qed.

Lemma btree_values_sum p : list_sum_Z (btree_values (active p)) = map_sum (active p).
Proof. apply list_sum_Z_perm, btree_values_perm. Qed.

Lemma try_sum_ok p : pool_ok p → try_sum (btree_values (active p)) = Ok (map_sum (active p)).
Proof.
  intros H. unfold try_sum.
  rewrite try_sum_from; [|split; [lia|done]|by apply btree_values_nonneg].
  rewrite btree_values_sum. destruct H as (? & _ & ?).
  by rewrite (proj2 (Z.leb_le _ _)) by lia.
Qed.

Lemma admitted_exact p : pool_ok p → admitted p = map_sum (active p).
Proof.
  intros H. unfold admitted. rewrite wrapping_sum_from.
  - by rewrite btree_values_sum.
  - lia.
  - by apply btree_values_nonneg.
  - rewrite btree_values_sum. destruct H as (? & _ & ?). lia.
Qed.

(** What [reserve] does on a well-formed pool, branch by branch. *)
Lemma reserve_branches p id units :
  pool_ok p →
  reserve id units p =
    if bool_decide (is_Some (active p !! id)) then (p, Err Duplicate)
    else if units =? 0 then (p, Err InvalidUnits)
    else if u64_max <? map_sum (active p) + units then (p, Err Overflow)
    else if capacity p <? map_sum (active p) + units then (p, Err InsufficientCapacity)
    else (mkPool (capacity p) (<[id := units]> (active p)), Ok tt).
Proof.
  intros H. unfold reserve, st_bind, st_get, st_lift, st_err, st_put.
  destruct (active p !! id) eqn:E; simpl; [done|].
  destruct (units =? 0); [done|].
  rewrite try_sum_ok by done. unfold checked_add, ok_or.
  rewrite (Z.ltb_antisym (map_sum (active p) + units) u64_max).
  destruct (map_sum (active p) + units <=? u64_max); simpl; [|done].
  rewrite Z.gtb_ltb. by destruct (_ <? _).
Qed.

Lemma pool_ok_reserve p id units :
  pool_ok p → 0 ≤ units → pool_ok (reserve id units p).1.
Proof.
  intros H Hu. rewrite reserve_branches by done.
  rust_cases; try done. bool_prop. destruct H as (? & Hp & ?).
  repeat split; simpl; try lia.
  - apply map_Forall_insert_2; [lia|done].
  - rewrite map_sum_insert_None; [lia|].
    destruct (active p !! id) eqn:E; [|done]. exfalso. eauto.
Qed.

Lemma pool_ok_release p id r : pool_ok p → pool_ok (release id r p).1.
Proof.
  intros H. unfold release, st_bind, st_get, st_err, st_put; simpl.
  destruct (active p !! id) as [x|] eqn:E; [|done]. destruct r; [|done]. simpl.
  pose proof (map_sum_lookup_le _ _ _ (pool_ok_nonneg _ H) E).
  destruct H as (? & Hp & ?). repeat split; simpl; try lia.
  - by apply map_Forall_delete.
  - rewrite (map_sum_delete _ _ x) by done. specialize (Hp _ _ E). simpl in Hp. lia.
Qed.

Lemma pool_ok_step p q : pool_ok p → pool_step p q → pool_ok q.
Proof.
  intros H Hs. inv Hs. destruct op; simpl in *.
  - apply pool_ok_reserve; [done|lia].
  - by apply pool_ok_release.
Qed.

Lemma capacity_step p q : pool_step p q → capacity q = capacity p.
Proof.
  intros [op p' _].
  destruct op; simpl; unfold reserve, release, st_bind, st_get, st_lift, st_err, st_put;
    simpl; rust_cases.
Qed.

(** * Properties of the pool *)

(** C6: from an empty pool, no sequence of [reserve] and [release] calls ever
    admits more than the capacity, the capacity never changes, and [admitted]
    (a wrapping [u64] sum) is the exact sum of the active reservations. *)
Theorem pool_never_oversubscribed cap p :
  0 ≤ cap ≤ u64_max → rtc pool_step (pool_new cap) p →
  capacity p = cap ∧ admitted p = map_sum (active p) ∧ admitted p ≤ cap.
Proof.
  intros Hc Hr.
  assert (pool_ok p ∧ capacity p = cap) as [H Hcap].
  { apply (rtc_invariant pool_step (λ q, pool_ok q ∧ capacity q = cap)) with (pool_new cap).
    - split; [by apply pool_ok_new|done].
    - intros a b [Ha <-] Hs. split; [by eapply pool_ok_step|by apply capacity_step].
    - done. }
  rewrite admitted_exact by done. destruct H as (? & ? & ?). repeat split; [done|lia].
Qed.

Lemma pool_never_oversubscribed_witness :
  admitted (reserve "b" 3 (reserve "a" 4 (pool_new 7)).1).1 = 7 ∧
  admitted (reserve "b" 3 (reserve "a" 4 (pool_new 7)).1).1 ≤ 7.
Proof.
  split; [vm_compute; reflexivity|].
  apply (pool_never_oversubscribed 7); [unfold u64_max; lia|].
  apply (rtc_l _ _ _ _ (pool_step_op (PReserve "a" 4) (pool_new 7)
    ltac:(simpl; unfold u64_max; lia))).
  apply (rtc_l _ _ _ _ (pool_step_op (PReserve "b" 3) (reserve "a" 4 (pool_new 7)).1
    ltac:(simpl; unfold u64_max; lia))).
  apply rtc_refl.
Defined.

(** On every reachable pool [reserve] succeeds exactly when the id is free,
    the units are positive and they fit in the remaining capacity, computed
    without wrap-around; every refusal leaves the pool as it was. *)
Theorem reserve_admits_iff p id units :
  pool_ok p → 0 ≤ units ≤ u64_max →
  ((reserve id units p).2 = Ok tt ↔
     active p !! id = None ∧ 0 < units ∧ map_sum (active p) + units ≤ capacity p)
  ∧ ((reserve id units p).2 ≠ Ok tt → (reserve id units p).1 = p).
Proof.
  intros H Hu. rewrite reserve_branches by done.
  pose proof H as (? & _ & ?).
  rust_cases; bool_prop; (split; [|try done]); split; try done; intros; destruct_and?;
    try lia.
  - destruct (active p !! id) eqn:E; [done|]. by destruct Hc.
  - split_and!; [|lia..]. destruct (active p !! id) eqn:E; [|done]. exfalso. eauto.
Qed.

Lemma reserve_admits_iff_witness :
  (reserve "a" 5 (pool_new 4)).2 = Err InsufficientCapacity ∧
  (reserve "a" 5 (pool_new 4)).1 = pool_new 4.
Proof.
  split; [reflexivity|].
  apply (proj2 (reserve_admits_iff (pool_new 4) "a" 5
    (pool_ok_new 4 ltac:(unfold u64_max; lia)) ltac:(unfold u64_max; lia))).
  vm_compute. discriminate.
Defined.

(** Releasing what was just reserved gives the pool back, but only with
    evidence of reclamation: without it the call fails and the units stay
    charged. *)
Theorem reserve_release_roundtrip p id units :
  (reserve id units p).2 = Ok tt →
  release id true (reserve id units p).1 = (p, Ok tt)
  ∧ release id false (reserve id units p).1 = ((reserve id units p).1, Err NotReclaimed).
Proof.
  unfold reserve, release, st_bind, st_get, st_lift, st_err, st_put. simpl.
  destruct (active p !! id) eqn:E; [done|]. destruct (units =? 0); [done|].
  destruct (try_sum _); simpl; [|done].
  destruct (ok_or _ _); simpl; [|done].
  destruct (_ >? _); simpl; [done|]. intros _.
  rewrite lookup_insert_eq. simpl. split; [|done].
  rewrite delete_insert_id by done. by destruct p.
Qed.

Lemma reserve_release_roundtrip_witness :
  release "a" true (reserve "a" 4 (pool_new 7)).1 = (pool_new 7, Ok tt).
Proof. apply (reserve_release_roundtrip (pool_new 7) "a" 4). reflexivity. Defined.

(** * Properties of delegation *)

(** A chain of grants, each delegated from the one before it. *)
Fixpoint delegation_chain (root : Grant) (l : list Grant) : bool :=
  match l with
  | [] => true
  | g :: l' => validate_delegation root g true && delegation_chain g l'
  end.

Lemma validate_delegation_spec parent child d :
  validate_delegation parent child d = true ↔
  d = true ∧ authority_epoch parent = authority_epoch child
  ∧ max_delegated_units child ≤ max_delegated_units parent
  ∧ operations child ⊆ operations parent.
Proof.
  unfold validate_delegation.
  rewrite !andb_true_iff, Z.eqb_eq, Z.leb_le, bool_decide_eq_true. tauto.
Qed.

(** Rights never grow along a delegation chain of any length: every grant
    in it is a valid direct delegation of the root grant. *)
Theorem delegation_never_amplifies root l g :
  delegation_chain root l = true → g ∈ l → validate_delegation root g true = true.
Proof.
  revert root. induction l as [|h l IH]; intros root Hc Hin; [by apply not_elem_of_nil in Hin|].
  simpl in Hc. apply andb_true_iff in Hc as [Hh Hc].
  apply elem_of_cons in Hin as [->|Hin]; [done|].
  specialize (IH _ Hc Hin). rewrite validate_delegation_spec in *.
  destruct_and!. split_and!; [done|congruence|lia|set_solver].
Qed.

Lemma delegation_never_amplifies_witness :
  validate_delegation (mkGrant "a" "s" 1 {["read"; "write"]} 9)
    (mkGrant "c" "s/x/y" 1 {["read"]} 2) true = true.
Proof.
  apply (delegation_never_amplifies _
    [mkGrant "b" "s/x" 1 {["read"]} 5; mkGrant "c" "s/x/y" 1 {["read"]} 2]).
  - vm_compute. reflexivity.
  - right. left.
Defined.

(** * Properties of the producer *)

Definition is_stop (o : producer_out) : bool :=
  match o with OutDetach (Ok true) => true | _ => false end.

Definition stop_signals (os : list producer_out) : nat :=
  length (filter is_stop os).

Definition out_failed (o : producer_out) : Prop :=
  match o with OutJoin (Err _) | OutDetach (Err _) => True | _ => False end.

Definition producer_ok (p : SharedProducer) : Prop :=
  pstate p = Stopping → consumers p = ∅.

Lemma producer_exec_stopping op p :
  pstate p = Stopping → consumers p = ∅ →
  (producer_exec op p).1 = p ∧ out_failed (producer_exec op p).2.
Proof.
  intros Hs Hc.
  destruct op; simpl; unfold join, detach, st_bind, st_get, st_err, st_put, st_ret; simpl.
  - rust_cases. bool_prop. congruence.
  - rewrite Hc. rust_cases.
Qed.

Lemma producer_run_stopping ops p :
  pstate p = Stopping → consumers p = ∅ →
  (producer_run ops p).1 = p ∧ Forall out_failed (producer_run ops p).2.
Proof.
  intros Hs Hc. induction ops as [|op ops IH]; simpl; [done|].
  destruct (producer_exec op p) as [p1 o] eqn:E.
  pose proof (producer_exec_stopping op p Hs Hc) as [H1 H2]. rewrite E in H1, H2.
  simpl in *. subst p1. destruct (producer_run ops p) as [p2 os]. simpl in *.
  destruct IH as [-> IH]. split; [done|by constructor].
Qed.

Lemma stop_signals_failed os : Forall out_failed os → stop_signals os = 0%nat.
Proof.
  unfold stop_signals. induction 1 as [|o os Ho Hos IH]; [done|].
  rewrite filter_cons. by destruct o as [[|]|[[]|]].
Qed.

(** One call on a running producer: it keeps running and signals nothing, or it
    becomes stopped and empty and this very call returned [Ok(true)]. *)
Lemma producer_exec_running op p :
  pstate p = Running →
  generation (producer_exec op p).1 = generation p ∧
  ((pstate (producer_exec op p).1 = Running ∧ stop_signals [(producer_exec op p).2] = 0%nat)
   ∨ (pstate (producer_exec op p).1 = Stopping ∧ consumers (producer_exec op p).1 = ∅
      ∧ stop_signals [(producer_exec op p).2] = 1%nat)).
Proof.
  intros Hs. destruct op; simpl;
    unfold join, detach, st_bind, st_get, st_err, st_put, st_ret; simpl.
  - rust_cases; auto.
  - rust_cases; auto; bool_prop; split; auto.
Qed.

(** Over any serialized history of joins and detaches, with any generation
    numbers, [detach] answers [Ok(true)] exactly once if the producer ends up
    stopping and never otherwise; a stopping producer has no consumer and the
    generation is unchanged. *)
Theorem producer_stops_exactly_once g ops :
  let '(p, os) := producer_run ops (producer_new g) in
  generation p = g
  ∧ stop_signals os = (if bool_decide (pstate p = Stopping) then 1 else 0)%nat
  ∧ (pstate p = Stopping → consumers p = ∅).
Proof.
  assert (∀ p, pstate p = Running → generation p = g →
    generation (producer_run ops p).1 = g
    ∧ stop_signals (producer_run ops p).2 =
        (if bool_decide (pstate (producer_run ops p).1 = Stopping) then 1 else 0)%nat
    ∧ (pstate (producer_run ops p).1 = Stopping → consumers (producer_run ops p).1 = ∅))
    as H.
  { induction ops as [|op ops IH]; intros p Hs Hg; simpl.
    - rewrite Hs. split_and!; [done|by rewrite bool_decide_eq_false_2|done].
    - pose proof (producer_exec_running op p Hs) as [Hg1 Hcase].
      destruct (producer_exec op p) as [p1 o]. simpl in *.
      destruct (producer_run ops p1) as [p2 os] eqn:E. simpl.
      assert (stop_signals (o :: os) = stop_signals [o] + stop_signals os)%nat as ->.
      { unfold stop_signals. by rewrite <- length_app, <- filter_app. }
      destruct Hcase as [[Hr ->]|(Hst & Hc & ->)].
      + specialize (IH p1 Hr ltac:(congruence)). by rewrite E in IH.
      + pose proof (producer_run_stopping ops p1 Hst Hc) as [H1 H2].
        rewrite E in H1, H2. simpl in *. subst p2.
        rewrite (stop_signals_failed _ H2), bool_decide_eq_true_2 by done.
        split_and!; [congruence|done|done]. }
  specialize (H (producer_new g) eq_refl eq_refl).
  by destruct (producer_run ops (producer_new g)).
Qed.

(** * Properties of the membership *)

Definition membership_ok (m : ParentMembership) : Prop :=
  version m = Z.of_nat (size (required m))
  ∧ (sealed m = true → map_Forall (λ _ b, b = true) (required m)).

Lemma seal_values m :
  forallb id (btree_values (required m)) = true ↔ map_Forall (λ _ b, b = true) (required m).
Proof.
  rewrite <- btree_values_Forall, forallb_forall, <- List.Forall_forall. done.
Qed.

(** What one call can do to a membership. *)
Lemma membership_step_cases m m' :
  membership_step m m' →
  m' = m ∨
  (sealed m = false ∧
   ((∃ id, required m !! id = None ∧ m' = mkMembership (version m + 1) false (<[id:=false]> (required m)))
    ∨ (∃ id b, required m !! id = Some b ∧ m' = mkMembership (version m) false (<[id:=true]> (required m)))
    ∨ (map_Forall (λ _ b, b = true) (required m) ∧ m' = mkMembership (version m) true (required m)))).
Proof.
  intros Hs. inv Hs.
  destruct op; simpl;
    unfold add_child, mark_accepted, seal, st_bind, st_get, st_err, st_put, st_lift,
      checked_add, ok_or; simpl; rust_cases; auto; right.
  - split; [done|]. left. eauto.
  - split; [done|]. right; left. eauto.
  - bool_prop. split; [done|]. right; right. split; [by apply seal_values|done].
Qed.

Lemma membership_ok_step m m' : membership_ok m → membership_step m m' → membership_ok m'.
Proof.
  intros [Hv Hs] [->|(Hu & [(id & Hn & ->)|[(id & b & Hb & ->)|[Ha ->]]])]%membership_step_cases;
    split; simpl; try done.
  - rewrite map_size_insert_None by done. lia.
  - rewrite map_size_insert_Some by eauto. done.
Qed.

Lemma membership_grows m m' :
  rtc membership_step m m' → dom (required m) ⊆ dom (required m').
Proof.
  induction 1 as [|m m1 m2 Hs _ IH]; [done|]. etrans; [|exact IH].
  apply membership_step_cases in Hs
    as [->|(_ & [(id & _ & ->)|[(id & b & _ & ->)|[_ ->]]])]; simpl; try done; set_solver.
Qed.

Lemma membership_sealed_frozen m m' :
  sealed m = true → rtc membership_step m m' → m' = m.
Proof.
  intros Hs Hr. induction Hr as [|m m1 m2 Hstep _ IH]; [done|].
  apply membership_step_cases in Hstep as [->|(Hu & _)]; [by apply IH|congruence].
Qed.

(** No late child sneaks into a sealed revision. If a caller read the
    version in one reachable state and a [seal] with that version later
    succeeds, the sealed membership has exactly the children of the state that
    was read, all of them accepted, and no later call changes it. *)
Theorem seal_is_snapshot m0 m1 m2 :
  rtc membership_step membership_default m0 →
  rtc membership_step m0 m1 →
  seal (version m0) m1 = (m2, Ok tt) →
  dom (required m2) = dom (required m0)
  ∧ map_Forall (λ _ b, b = true) (required m2)
  ∧ (∀ m3, rtc membership_step m2 m3 → m3 = m2).
Proof.
  intros Hr0 Hr1 Hseal.
  assert (membership_ok m0) as Hok0.
  { eapply (rtc_invariant membership_step); [|exact membership_ok_step|exact Hr0].
    split; simpl; [by rewrite map_size_empty|done]. }
  assert (membership_ok m1) as Hok1.
  { eapply (rtc_invariant membership_step); [exact Hok0|exact membership_ok_step|exact Hr1]. }
  unfold seal, st_bind, st_get, st_err, st_put in Hseal. simpl in Hseal.
  rust_cases. bool_prop. simpl. split_and!; [|by apply seal_values|].
  - symmetry.
    destruct Hok0 as [Hv0 _], Hok1 as [Hv1 _].
    apply set_subseteq_size_eq; [by apply membership_grows|].
    rewrite !size_dom. lia.
  - intros m3 Hr3. by apply membership_sealed_frozen in Hr3.
Qed.

Definition demo_membership : ParentMembership :=
  (mark_accepted "a" (add_child "a" membership_default).1).1.

Lemma seal_is_snapshot_witness :
  dom (required (seal 1 demo_membership).1) = dom (required (add_child "a" membership_default).1).
Proof.
  apply (seal_is_snapshot (add_child "a" membership_default).1 demo_membership).
  - eapply rtc_l; [apply (membership_step_op (MAdd "a"))|apply rtc_refl].
  - eapply rtc_l; [apply (membership_step_op (MAccept "a"))|apply rtc_refl].
  - vm_compute. reflexivity.
Defined.
