(* ===== verification/FleetGate.v ===== *)
(** Admission control: the thermal governor (crates/sharecli-fleet/src/thermal.rs),
    host agent contention (agent_contention.rs), the coalesce and slot-queue
    meters (coalesce_meters.rs, slot_queue_meters.rs) and the [ThermalGate]
    trait with its implementations and the hypervisor's retry loop
    (crates/sharecli-core/src/thermal_gate.rs, hypervisor.rs).

    A gate is polled repeatedly and the host changes in between, so a gate is a
    function of the poll number. *)
From S2P Require Import Prelude.

(** * Thermal governor *)

Inductive ThermalLevel : Type := Green | Yellow | Red.
#[global] Instance thermal_level_eq_dec : EqDecision ThermalLevel.
Proof. solve_decision. Defined.

Record ThermalGovernor : Type := mkGovernor { mock_level : option ThermalLevel }.

Definition governor_new : ThermalGovernor := mkGovernor None.
Definition governor_with_mock (l : ThermalLevel) : ThermalGovernor := mkGovernor (Some l).

(** What reading the platform's thermal source gave. *)
Inductive ThermalRead : Type :=
| ReadOk (contents : string)
| ReadNotFound
| ReadFailed (msg : string).

(** The Linux [poll_impl]: /sys/class/thermal/thermal_zone0/temp. *)
Definition poll_impl_linux (r : ThermalRead) : result ThermalLevel string :=
  match r with
  | ReadNotFound => Ok Green
  | ReadFailed e => Err e
  | ReadOk contents =>
      match parse_i64 (trim contents) with
      | None => Err ("invalid thermal_zone0 temp " +:+ trim contents)
      | Some t =>
          Ok (if t <? 70000 then Green else if t <? 85000 then Yellow else Red)
      end
  end.

(** The macOS [poll_impl]: the output of sysctl, or the spawn error. *)
Definition poll_impl_macos (r : result string string) : result ThermalLevel string :=
  match r with
  | Err e => Err e
  | Ok out =>
      let raw := trim out in
      if bool_decide (raw = "1") then Ok Green
      else if bool_decide (raw = "2") then Ok Yellow
      else if bool_decide (raw = "4") then Ok Red
      else Err ("unexpected pressure level: " +:+ raw)
  end.

(** [poll]: the mock level if one is set, else the real system. *)
Definition governor_poll (g : ThermalGovernor) (sys : ThermalRead) : result ThermalLevel string :=
  match mock_level g with
  | Some level => Ok level
  | None => poll_impl_linux sys
  end.

(** * Agent contention *)

Record AgentContentionThresholds : Type := mkCountThresholds {
  warn_at : Z; refuse_at : Z }.
Definition default_count_thresholds : AgentContentionThresholds := mkCountThresholds 4 8.

Record AgentResourceThresholds : Type := mkRssThresholds {
  warn_total_rss_bytes : Z; refuse_total_rss_bytes : Z }.
Definition default_rss_thresholds : AgentResourceThresholds :=
  mkRssThresholds (16 * 1073741824) (32 * 1073741824).

Inductive AgentContentionTier : Type := TierOk | TierWarn | TierRefuse.
#[global] Instance tier_eq_dec : EqDecision AgentContentionTier.
Proof. solve_decision. Defined.

Definition tier_rank (t : AgentContentionTier) : Z :=
  match t with TierOk => 0 | TierWarn => 1 | TierRefuse => 2 end.

(** [Ord::max] of the derived order. *)
Definition tier_max (a b : AgentContentionTier) : AgentContentionTier :=
  if tier_rank b <? tier_rank a then a else b.

Definition agent_contention_tier (count : Z) (th : AgentContentionThresholds)
  : AgentContentionTier :=
  if refuse_at th <=? count then TierRefuse
  else if warn_at th <=? count then TierWarn
  else TierOk.

Definition agent_resource_contention_tier (total_rss : Z) (th : AgentResourceThresholds)
  : AgentContentionTier :=
  if refuse_total_rss_bytes th <=? total_rss then TierRefuse
  else if warn_total_rss_bytes th <=? total_rss then TierWarn
  else TierOk.

Definition combined_agent_contention_tier (count total_rss : Z)
    (cth : AgentContentionThresholds) (rth : AgentResourceThresholds)
  : AgentContentionTier :=
  tier_max (agent_contention_tier count cth) (agent_resource_contention_tier total_rss rth).

(** [live_agent_contention_tier] on the RSS of every agent the scan found. *)
Definition live_agent_contention_tier (agent_count : Z) (watched_rss : list Z)
  : AgentContentionTier :=
  combined_agent_contention_tier agent_count
    (foldl (wrapping_add u64_max) 0 watched_rss)
    default_count_thresholds default_rss_thresholds.

Definition effective_gate_decision_for_tier (thermal : ThermalLevel)
    (tier : AgentContentionTier) : string :=
  if bool_decide (thermal = Red) then "DENY"
  else if bool_decide (tier = TierRefuse) then "DENY"
  else "ADMIT".

Definition effective_gate_decision (thermal : ThermalLevel) (agent_count : Z) : string :=
  effective_gate_decision_for_tier thermal
    (agent_contention_tier agent_count default_count_thresholds).

Definition thermal_level_label (l : ThermalLevel) : string :=
  match l with Green => "GREEN" | Yellow => "YELLOW" | Red => "RED" end.

Definition contention_tier_label (t : AgentContentionTier) : string :=
  match t with TierOk => "OK" | TierWarn => "WARN" | TierRefuse => "REFUSE" end.

Record GateStatusSnapshot : Type := mkGateStatus {
  thermal_pressure : string;
  detected_agents : Z;
  agent_total_rss_bytes : Z;
  agent_contention : string;
  gate_decision : string;
}.

Definition gate_status_snapshot_with_rss (thermal : ThermalLevel) (agent_count total_rss : Z)
  : GateStatusSnapshot :=
  let tier := combined_agent_contention_tier agent_count total_rss
                default_count_thresholds default_rss_thresholds in
  mkGateStatus (thermal_level_label thermal) agent_count total_rss
    (contention_tier_label tier) (effective_gate_decision_for_tier thermal tier).

(** * Meters *)

Record CoalesceMeters : Type := mkCoalesceMeters {
  hits : Z; misses : Z; nocache_runs : Z }.
Definition coalesce_meters_zero : CoalesceMeters := mkCoalesceMeters 0 0 0.

(** Hit rate as [hits * 100 / (hits + misses)], with saturating arithmetic. *)
Definition hit_rate_pct (h m : Z) : Z :=
  let total := saturating_add u64_max h m in
  if total =? 0 then 0 else saturating_mul u64_max h 100 / total.

Inductive CoalesceHitKind : Type := Miss | LockRecheck | DebounceRecheck.
#[global] Instance hit_kind_eq_dec : EqDecision CoalesceHitKind.
Proof. solve_decision. Defined.

Definition shared_from_cache (k : CoalesceHitKind) : bool :=
  match k with Miss => false | _ => true end.

(** The counters are [AtomicU64]s: [fetch_add] wraps. *)
Definition bump (x : Z) : Z := wrapping_add u64_max x 1.

Definition record_coalesce_lookup_hit (m : CoalesceMeters) : CoalesceMeters :=
  mkCoalesceMeters (bump (hits m)) (misses m) (nocache_runs m).
Definition record_nocache_run (m : CoalesceMeters) : CoalesceMeters :=
  mkCoalesceMeters (hits m) (misses m) (bump (nocache_runs m)).
Definition record_coalesce_hit_kind (k : CoalesceHitKind) (m : CoalesceMeters)
  : CoalesceMeters :=
  match k with
  | Miss => mkCoalesceMeters (hits m) (bump (misses m)) (nocache_runs m)
  | LockRecheck | DebounceRecheck =>
      mkCoalesceMeters (bump (hits m)) (misses m) (nocache_runs m)
  end.

Record SlotQueueMeters : Type := mkSlotMeters {
  acquires : Z; waits : Z; timeouts : Z }.
Definition slot_meters_zero : SlotQueueMeters := mkSlotMeters 0 0 0.

Definition record_slot_acquire (m : SlotQueueMeters) : SlotQueueMeters :=
  mkSlotMeters (bump (acquires m)) (waits m) (timeouts m).
Definition record_slot_wait (m : SlotQueueMeters) : SlotQueueMeters :=
  mkSlotMeters (acquires m) (bump (waits m)) (timeouts m).
Definition record_slot_timeout (m : SlotQueueMeters) : SlotQueueMeters :=
  mkSlotMeters (acquires m) (waits m) (bump (timeouts m)).

(** * The ThermalGate trait *)

Inductive ThermalDecision : Type := Allow | Warn | Refuse.
#[global] Instance decision_eq_dec : EqDecision ThermalDecision.
Proof. solve_decision. Defined.

(** [trait ThermalGate]: the decision of the [n]-th poll. *)
Class ThermalGate (G : Type) : Type := gate_check : G → nat → ThermalDecision.

Record FakeThermalGate : Type := mkFakeGate { fake_decision : ThermalDecision }.
#[global] Instance fake_gate : ThermalGate FakeThermalGate := λ g _, fake_decision g.

(** The production gate, with the readings of the thermal source over time. *)
Record SystemThermalGate : Type := mkSystemGate {
  governor : ThermalGovernor;
  thermal_source : nat → ThermalRead;
}.
#[global] Instance system_gate : ThermalGate SystemThermalGate := λ g n,
  match governor_poll (governor g) (thermal_source g n) with
  | Ok Green => Allow
  | Ok Yellow => Warn
  | Ok Red => Refuse
  | Err _ => Allow
  end.

Definition combine_thermal_agent_decision (thermal : ThermalDecision)
    (agents : AgentContentionTier) : ThermalDecision :=
  match thermal, agents with
  | Refuse, _ | _, TierRefuse => Refuse
  | Allow, TierWarn => Warn
  | Allow, TierOk => Allow
  | Warn, _ => Warn
  end.

(** [AgentAwareThermalGate]: an inner gate and a source of contention tiers. *)
Record AgentAwareThermalGate (G : Type) : Type := mkAgentGate {
  inner_gate : G;
  agent_tier : nat → AgentContentionTier;
}.
Arguments mkAgentGate {G} _ _.
Arguments inner_gate {G} _.
Arguments agent_tier {G} _ _.
#[global] Instance agent_gate {G} `{ThermalGate G} : ThermalGate (AgentAwareThermalGate G) :=
  λ g n, combine_thermal_agent_decision (gate_check (inner_gate g) n) (agent_tier g n).

(** The gate [Hypervisor::new] installs. *)
Definition production_gate (source : nat → ThermalRead) (agents : nat → Z * list Z)
  : AgentAwareThermalGate SystemThermalGate :=
  mkAgentGate (mkSystemGate governor_new source)
    (λ n, live_agent_contention_tier (agents n).1 (agents n).2).

Definition THERMAL_MAX_RETRIES : Z := 5.
(** Milliseconds. *)
Definition THERMAL_RETRY_SLEEP : Z := 2000.

Inductive GateError : Type := SpawnRefused.

(** What the check did besides its answer: polls made and time slept. *)
Record GateTrace : Type := mkGateTrace { polls : nat; slept_ms : Z }.

(** [Hypervisor::thermal_gate_check]: poll, and on Refuse sleep and retry until
    [THERMAL_MAX_RETRIES] refusals. [None] means the fuel ran out. *)
Fixpoint thermal_gate_loop {G} `{ThermalGate G} (fuel : nat) (g : G) (attempt : Z)
    (tr : GateTrace) : option (result unit GateError * GateTrace) :=
  match fuel with
  | O => None
  | S fuel' =>
      let tr1 := mkGateTrace (S (polls tr)) (slept_ms tr) in
      match gate_check g (polls tr) with
      | Allow | Warn => Some (Ok tt, tr1)
      | Refuse =>
          let attempt' := attempt + 1 in
          if THERMAL_MAX_RETRIES <=? attempt' then Some (Err SpawnRefused, tr1)
          else thermal_gate_loop fuel' g attempt'
                 (mkGateTrace (polls tr1) (slept_ms tr1 + THERMAL_RETRY_SLEEP))
      end
  end.

Definition thermal_gate_check {G} `{ThermalGate G} (g : G)
  : option (result unit GateError * GateTrace) :=
  thermal_gate_loop 5 g 0 (mkGateTrace 0 0).

(** * Lemmas *)

Definition decision_rank (d : ThermalDecision) : Z :=
  match d with Allow => 0 | Warn => 1 | Refuse => 2 end.

(** The decision [SystemThermalGate] takes for a level. *)
Definition level_decision (l : ThermalLevel) : ThermalDecision :=
  match l with Green => Allow | Yellow => Warn | Red => Refuse end.

Lemma combine_rank d t :
  decision_rank (combine_thermal_agent_decision d t) = Z.max (decision_rank d) (tier_rank t).
Proof. by destruct d, t. Qed.

Lemma tier_max_rank a b : tier_rank (tier_max a b) = Z.max (tier_rank a) (tier_rank b).
Proof. by destruct a, b. Qed.

Lemma count_tier_mono c c' th :
  c ≤ c' → tier_rank (agent_contention_tier c th) ≤ tier_rank (agent_contention_tier c' th).
Proof. intros. unfold agent_contention_tier. rust_cases; bool_prop; lia. Qed.

Lemma rss_tier_mono r r' th :
  r ≤ r' →
  tier_rank (agent_resource_contention_tier r th) ≤ tier_rank (agent_resource_contention_tier r' th).
Proof. intros. unfold agent_resource_contention_tier. rust_cases; bool_prop; lia. Qed.

(** * Properties *)

(** Admission is monotone in pressure. A hotter inner decision, more agents
    or more resident memory never relax the decision of the agent-aware gate,
    whatever the thresholds. *)
Theorem gate_escalation_monotone d d' c c' r r' cth rth :
  decision_rank d ≤ decision_rank d' → c ≤ c' → r ≤ r' →
  decision_rank (combine_thermal_agent_decision d (combined_agent_contention_tier c r cth rth))
  ≤ decision_rank
      (combine_thermal_agent_decision d' (combined_agent_contention_tier c' r' cth rth)).
Proof.
  intros Hd Hc Hr. rewrite !combine_rank. unfold combined_agent_contention_tier.
  rewrite !tier_max_rank.
  pose proof (count_tier_mono c c' cth Hc). pose proof (rss_tier_mono r r' rth Hr). lia.
Qed.

Lemma gate_escalation_monotone_witness :
  decision_rank (combine_thermal_agent_decision Allow
    (combined_agent_contention_tier 3 0 default_count_thresholds default_rss_thresholds))
  ≤ decision_rank (combine_thermal_agent_decision Warn
    (combined_agent_contention_tier 9 1 default_count_thresholds default_rss_thresholds)).
Proof. apply gate_escalation_monotone; vm_compute; discriminate. Defined.

(** The operator-facing label agrees with what the hypervisor does: on any
    poll where the governor reads a level, the status snapshot says DENY
    exactly when the production gate refuses the spawn. *)
Theorem operator_label_matches_gate source agents n level :
  governor_poll governor_new (source n) = Ok level →
  (gate_decision (gate_status_snapshot_with_rss level (agents n).1
     (foldl (wrapping_add u64_max) 0 (agents n).2)) = "DENY"
   ↔ gate_check (production_gate source agents) n = Refuse).
Proof.
  intros Hp. unfold gate_check, agent_gate, gate_check, system_gate. simpl.
  rewrite Hp. unfold live_agent_contention_tier, effective_gate_decision_for_tier.
  destruct level, (combined_agent_contention_tier _ _ _ _); vm_compute; by split.
Qed.

Lemma operator_label_matches_gate_witness :
  gate_check (production_gate (λ _, ReadOk "71000") (λ _, (8, [1; 2]))) 0 = Refuse.
Proof.
  apply (operator_label_matches_gate (λ _, ReadOk "71000") (λ _, (8, [1; 2])) 0 Yellow);
    vm_compute; reflexivity.
Defined.

Lemma thermal_gate_loop_spec {G} `{ThermalGate G} (g : G) (fuel : nat) (n : nat) :
  (n < 5)%nat → (5 - n ≤ fuel)%nat →
  (∀ k, (k < n)%nat → gate_check g k = Refuse) →
  ∃ r tr,
    thermal_gate_loop fuel g (Z.of_nat n) (mkGateTrace n (2000 * Z.of_nat n)) = Some (r, tr)
    ∧ (r = Ok tt ↔ ∃ k, (k < 5)%nat ∧ gate_check g k ≠ Refuse)
    ∧ (1 ≤ polls tr ≤ 5)%nat
    ∧ slept_ms tr = 2000 * (Z.of_nat (polls tr) - 1).
Proof.
  revert n. induction fuel as [|fuel IH]; intros n Hn Hf Hpre; [lia|]. simpl.
  destruct (gate_check g n) eqn:E.
  1,2: eexists _, _; split_and!; [done| |simpl; lia..];
    split; [intros _; exists n; split; [lia|congruence]|done].
  unfold THERMAL_MAX_RETRIES, THERMAL_RETRY_SLEEP.
  destruct (5 <=? Z.of_nat n + 1) eqn:El; bool_prop.
  - eexists _, _. split_and!; [done| |simpl; lia..].
    split; [done|]. intros (k & Hk & Hne). exfalso. apply Hne.
    destruct (decide (k = n)) as [->|]; [done|]. apply Hpre. lia.
  - replace (Z.of_nat n + 1) with (Z.of_nat (S n)) by lia.
    replace (2000 * Z.of_nat n + 2000) with (2000 * Z.of_nat (S n)) by lia.
    apply IH; [lia..|]. intros k Hk.
    destruct (decide (k = n)) as [->|]; [done|]. apply Hpre. lia.
Qed.

(** The thermal back-pressure loop always returns. It lets the spawn through
    exactly when one of its first five polls does not refuse, it polls at most
    five times, and it sleeps two seconds between consecutive polls (so at most
    eight seconds before the explicit error). *)
Theorem thermal_gate_check_total {G} `{ThermalGate G} (g : G) :
  ∃ r tr, thermal_gate_check g = Some (r, tr)
    ∧ (r = Ok tt ↔ ∃ k, (k < 5)%nat ∧ gate_check g k ≠ Refuse)
    ∧ (1 ≤ polls tr ≤ 5)%nat
    ∧ slept_ms tr = 2000 * (Z.of_nat (polls tr) - 1)
    ∧ slept_ms tr ≤ 8000.
Proof.
  destruct (thermal_gate_loop_spec g 5 0) as (r & tr & Hr & Hok & Hp & Hs); [lia..|].
  exists r, tr. split_and!; try done; lia.
Qed.

(** The hit rate is a percentage for every pair of 64-bit counters, and the
    exact rounded-down quotient as long as [hits * 100] does not saturate. *)
Theorem hit_rate_pct_bounds h m :
  0 ≤ h ≤ u64_max → 0 ≤ m ≤ u64_max →
  0 ≤ hit_rate_pct h m ≤ 100
  ∧ (h * 100 ≤ u64_max → h + m ≤ u64_max → 0 < h + m → hit_rate_pct h m = h * 100 / (h + m)).
Proof.
  intros Hh Hm. unfold hit_rate_pct, saturating_add, saturating_mul. split.
  - destruct (Z.min u64_max (h + m) =? 0) eqn:E; bool_prop; [lia|]. split.
    + apply Z.div_pos; lia.
    + apply Z.div_le_upper_bound; lia.
  - intros. rewrite !Z.min_r by lia. rewrite (proj2 (Z.eqb_neq _ _)) by lia. done.
Qed.

Lemma hit_rate_pct_bounds_witness :
  hit_rate_pct 3 1 = 75 ∧ 0 ≤ hit_rate_pct u64_max u64_max ≤ 100.
Proof.
  split; [vm_compute; reflexivity|].
  apply (hit_rate_pct_bounds u64_max u64_max); unfold u64_max; lia.
Defined.
