(* ===== verification/CacheKey.v ===== *)
(** Cache keys and routing predicates of crates/sharecli-ipc: [cache_key.rs]
    (the hashed pre-image of a command), [nocache.rs] (mutating-flag detection)
    and [semantic.rs] (lint argv normalisation), and the key binary of
    crates/harness-native/src/cache_key.rs.

    SHA-256 and XXH3 are third-party crates: they are section variables. A path
    is the string of its bytes and enters the key as [to_string_lossy] gives it. *)
From S2P Require Import Prelude.

Definition nul : string := String "000" EmptyString.
Definition soh : string := String "001" EmptyString.

(** [Path::to_string_lossy] and [String::from_utf8_lossy]: every longest piece
    that cannot be part of well-formed UTF-8 becomes U+FFFD. *)
Definition replacement : string := String "239" (String "191" (String "189" EmptyString)).

Definition byte_between (lo hi : N) (a : ascii) : bool :=
  ((lo <=? N_of_ascii a) && (N_of_ascii a <=? hi))%N.
Definition is_ascii (a : ascii) : bool := byte_between 0 127 a.
Definition continuation (a : ascii) : bool := byte_between 128 191 a.

(** Whether [b] can follow the leading byte [a]. *)
Definition second_ok (a b : ascii) : bool :=
  (byte_between 194 223 a && continuation b)
  || (byte_between 224 224 a && byte_between 160 191 b)
  || (byte_between 225 236 a && continuation b)
  || (byte_between 237 237 a && byte_between 128 159 b)
  || (byte_between 238 239 a && continuation b)
  || (byte_between 240 240 a && byte_between 144 191 b)
  || (byte_between 241 243 a && continuation b)
  || (byte_between 244 244 a && byte_between 128 143 b).

Fixpoint to_string_lossy (s : string) : string :=
  match s with
  | EmptyString => EmptyString
  | String a r1 =>
      if is_ascii a then String a (to_string_lossy r1)
      else
        match r1 with
        | EmptyString => replacement
        | String b r2 =>
            if negb (second_ok a b) then replacement +:+ to_string_lossy r1
            else if byte_between 194 223 a then String a (String b (to_string_lossy r2))
            else
              match r2 with
              | EmptyString => replacement
              | String c r3 =>
                  if negb (continuation c) then replacement +:+ to_string_lossy r2
                  else if byte_between 224 239 a
                  then String a (String b (String c (to_string_lossy r3)))
                  else
                    match r3 with
                    | EmptyString => replacement
                    | String d r4 =>
                        if negb (continuation d) then replacement +:+ to_string_lossy r3
                        else String a (String b (String c (String d (to_string_lossy r4))))
                    end
              end
        end
  end.

(** * cache_key.rs *)

Inductive CacheKeyMode : Type := KeyTime | KeyArgs | KeyGit.

Definition cache_key_mode_parse (raw : string) : CacheKeyMode :=
  let s := to_ascii_lowercase (trim raw) in
  if bool_decide (s = "args") then KeyArgs
  else if bool_decide (s = "git") then KeyGit
  else KeyTime.

(** The bytes [hash_argv] feeds to the hasher. *)
Fixpoint hash_argv (argv : list string) : string :=
  match argv with
  | [] => EmptyString
  | arg :: rest => arg +:+ nul +:+ hash_argv rest
  end.

Definition env_entry (kv : string * string) : string := kv.1 +:+ "=" +:+ kv.2 +:+ nul.

(** The bytes [hash_env_subset] feeds: entries sorted by key (a stable sort). *)
Definition hash_env_subset (env : list (string * string)) : string :=
  concat_str (env_entry <$> merge_sort key_le env).

(** One git invocation: not spawned, or spawned with its success and stdout. *)
Definition GitOutput : Type := option (bool * string).

Definition git_stdout (o : GitOutput) : string :=
  match o with Some (true, out) => to_string_lossy out | _ => EmptyString end.

(** [git_fingerprint]: porcelain status, then HEAD. *)
Definition git_fingerprint (status head : GitOutput) : string :=
  git_stdout status +:+ git_stdout head.

(** What [command_key_with_mode] hashes. *)
Definition key_preimage (mode : CacheKeyMode) (argv : list string) (cwd : string)
    (env : list (string * string)) (fingerprint : string) : string :=
  hash_argv argv +:+
  match mode with
  | KeyArgs => EmptyString
  | KeyTime => soh +:+ to_string_lossy cwd +:+ soh +:+ hash_env_subset env
  | KeyGit => soh +:+ to_string_lossy cwd +:+ soh +:+ fingerprint
  end.

(** * nocache.rs *)

Definition DEFAULT_NOCACHE_ARGS : list string :=
  ["--fix"; "--unsafe-fixes"; "--force"; "--write"; "--in-place"; "-w"; "-i"].

Fixpoint any_flag_equals (arg : string) (flags : list string) : bool :=
  match flags with
  | [] => false
  | f :: fs => if bool_decide (arg = f) then true else any_flag_equals arg fs
  end.

Fixpoint any_arg_matches (argv flags : list string) : bool :=
  match argv with
  | [] => false
  | a :: rest => if any_flag_equals a flags then true else any_arg_matches rest flags
  end.

Definition has_nocache_arg (argv nocache_args : list string) : bool :=
  match nocache_args with
  | [] => false
  | _ => any_arg_matches argv nocache_args
  end.

Definition should_bypass_coalesce (argv nocache_args : list string) : bool :=
  has_nocache_arg argv nocache_args.

Definition parse_nocache_args_csv (csv : string) : list string :=
  filter (λ s, s ≠ EmptyString) (trim <$> split_on "," csv).

(** * semantic.rs *)

Section semantic.
(** The file system as [normalize_lint_path_arg] sees it: whether the argument
    joined to the working directory is a directory, and then what
    [canonicalize] gave. *)
Variable dir_view : string → string → option (option string).

Definition normalize_lint_path_arg (arg cwd : string) : string :=
  if bool_decide (arg = ".") then "__PROJECT_ROOT__"
  else match dir_view cwd arg with
       | Some canonical => default arg canonical
       | None => arg
       end.

Definition semantic_normalize_argv (argv : list string) (cwd : string) : list string :=
  match argv with
  | [] => []
  | prog :: rest =>
      let cmd := default prog (file_name prog) in
      if bool_decide (cmd ∈ ["ruff"; "mypy"; "pylint"; "flake8"])
      then prog :: ((λ a, normalize_lint_path_arg a cwd) <$> rest)
      else argv
  end.
End semantic.

Section keys.
Variable sha256 : string → string.

Definition command_key_with_mode (mode : CacheKeyMode) (argv : list string) (cwd : string)
    (env : list (string * string)) (fingerprint : string) : string :=
  hex_encode (sha256 (key_preimage mode argv cwd env fingerprint)).

Definition command_key (argv : list string) (cwd : string) (env : list (string * string))
  : string := command_key_with_mode KeyTime argv cwd env EmptyString.
End keys.

(** * The harness-cache-key binary *)

Section harness_keys.
Variable xxh3_64 : string → Z.

(** [compute_args_key]. *)
Definition compute_args_key (args : list string) : Z :=
  foldl (λ st arg, wrapping_add u64_max (xxh3_64 arg) st) 0 args.

(** [compute_env_key]: the arguments, then the set variables among the ten it
    knows, sorted by name. *)
Definition key_env_vars : list string :=
  ["PATH"; "HOME"; "PWD"; "NODE_VERSION"; "PYTHON_VERSION"; "RUST_VERSION"; "GOPATH";
   "CARGO_HOME"; "VIRTUAL_ENV"; "CONDA_DEFAULT_ENV"].

Definition compute_env_key (getenv : string → option string) (args : list string) : Z :=
  let pairs := merge_sort key_le
    (omap (λ v, (λ x, (v, x)) <$> getenv v) key_env_vars) in
  foldl (λ st kv, wrapping_add u64_max (xxh3_64 kv.2) (wrapping_add u64_max (xxh3_64 kv.1) st))
    (compute_args_key args) pairs.

(** [compute_content_key]: [read_file] gives the contents of a readable
    regular file. *)
Definition compute_content_key (read_file : string → option string) (args : list string) : Z :=
  foldl (λ st arg,
    let st' := wrapping_add u64_max (xxh3_64 arg) st in
    match read_file arg with
    | Some content => wrapping_add u64_max (xxh3_64 content) st'
    | None => st'
    end) 0 args.

(** [main]: an unknown mode is itself hashed as an argument. [None] is the
    usage error. *)
Definition harness_cache_key (getenv read_file : string → option string)
    (args : list string) : option Z :=
  match args with
  | [] => None
  | mode :: cmd_args =>
      Some (if bool_decide (mode = "args") then compute_args_key cmd_args
            else if bool_decide (mode = "env") then compute_env_key getenv cmd_args
            else if bool_decide (mode = "content") then compute_content_key read_file cmd_args
            else compute_args_key args)
  end.
End harness_keys.

(** * Lemmas *)

(** Two sorted arrangements of the same entries with distinct keys are equal. *)
Lemma sorted_by_key_unique {A} (l k : list (string * A)) :
  l ≡ₚ k → NoDup l.*1 → StronglySorted key_le l → StronglySorted key_le k → l = k.
Proof.
  revert k. induction l as [|x l IH]; intros k Hp Hnd Hl Hk.
  { by apply Permutation_nil_l in Hp. }
  destruct k as [|y k]; [by apply Permutation_nil_r in Hp|].
  inv Hl. inv Hk. simpl in Hnd. apply NoDup_cons in Hnd as [Hx Hnd].
  assert (x = y) as ->.
  { assert (x ∈ y :: k) as [|Hxk]%elem_of_cons by (rewrite <- Hp; left); [done|].
    assert (y ∈ x :: l) as [|Hyl]%elem_of_cons by (rewrite Hp; left); [done|].
    exfalso. apply Hx.
    assert (x.1 = y.1) as ->.
    { apply (anti_symm String.le).
      - rewrite Forall_forall in H2. by apply H2.
      - rewrite Forall_forall in H4. by apply H4. }
    by apply list_elem_of_fmap_2. }
  f_equal. apply IH; [|done..]. by apply Permutation_cons_inv in Hp.
Qed.

Lemma merge_sort_key_perm {A} (l k : list (string * A)) :
  l ≡ₚ k → NoDup l.*1 → merge_sort key_le l = merge_sort key_le k.
Proof.
  intros Hp Hnd. apply sorted_by_key_unique.
  - by rewrite !merge_sort_Permutation.
  - by rewrite merge_sort_Permutation.
  - apply (StronglySorted_merge_sort key_le).
  - apply (StronglySorted_merge_sort key_le).
Qed.

(** A separator that does not occur in the left parts splits uniquely. *)
Lemma sep_inj c s s' t t' :
  has_char c s = false → has_char c s' = false →
  s +:+ String c t = s' +:+ String c t' → s = s' ∧ t = t'.
Proof.
  revert s'. induction s as [|a s IH]; intros [|a' s'] Hs Hs' Heq; simpl in *.
  - by injection Heq.
  - injection Heq as -> _. by rewrite bool_decide_eq_true_2 in Hs'.
  - injection Heq as -> _. by rewrite bool_decide_eq_true_2 in Hs.
  - injection Heq as -> Heq. apply orb_false_iff in Hs as [_ Hs], Hs' as [_ Hs'].
    destruct (IH s' Hs Hs' Heq) as [-> ->]. done.
Qed.

Definition clean (c : ascii) (s : string) : Prop := has_char c s = false.

(** Arguments as the operating system can pass them, without the SOH byte the
    pre-image uses as a separator. *)
Definition argv_ok (argv : list string) : Prop :=
  Forall (λ a, clean "000" a ∧ clean "001" a) argv.
(** Environment entries: no NUL, and no equals sign in a name; distinct names. *)
Definition env_ok (env : list (string * string)) : Prop :=
  NoDup env.*1 ∧ Forall (λ kv, clean "000" kv.1 ∧ clean "=" kv.1 ∧ clean "000" kv.2) env.

(** The decoding puts in no ASCII byte that was not there. *)
Lemma lossy_clean c s : is_ascii c = true → clean c s → clean c (to_string_lossy s).
Proof.
  intros Hc. unfold clean.
  assert (∀ t, has_char c (replacement +:+ t) = has_char c t) as Hrep.
  { intros t. unfold replacement. simpl.
    rewrite !bool_decide_eq_false_2 by (intros <-; vm_compute in Hc; discriminate). done. }
  assert (has_char c replacement = false) as Hrep0 by (specialize (Hrep EmptyString); exact Hrep).
  assert (∀ n s, (String.length s ≤ n)%nat → has_char c s = false → has_char c (to_string_lossy s) = false)
    as Hall; [|eauto].
  clear s. induction n as [|n IH]; intros s Hn Hs.
  { by destruct s; [|simpl in Hn; lia]. }
  destruct s as [|a r1]; [done|]. simpl in Hn, Hs. apply orb_false_iff in Hs as [Ha Hs].
  simpl to_string_lossy. destruct (is_ascii a); [simpl; by rewrite Ha, IH by first [lia|done]|].
  destruct r1 as [|b r2]; [done|].
  destruct (second_ok a b); simpl negb; cbv iota; [|rewrite Hrep; apply IH; [simpl in *; lia|done]].
  simpl in Hn, Hs. apply orb_false_iff in Hs as [Hb Hs].
  destruct (byte_between 194 223 a); [simpl; by rewrite Ha, Hb, IH by first [lia|done]|].
  destruct r2 as [|d r3]; [done|].
  destruct (continuation d); simpl negb; cbv iota; [|rewrite Hrep; apply IH; [simpl in *; lia|done]].
  simpl in Hn, Hs. apply orb_false_iff in Hs as [Hd Hs].
  destruct (byte_between 224 239 a); [simpl; by rewrite Ha, Hb, Hd, IH by first [lia|done]|].
  destruct r3 as [|e r4]; [done|].
  destruct (continuation e); simpl negb; cbv iota; [|rewrite Hrep; apply IH; [simpl in *; lia|done]].
  simpl in Hn, Hs. apply orb_false_iff in Hs as [He Hs].
  simpl. by rewrite Ha, Hb, Hd, He, IH by first [lia|done].
Qed.

(** A path in ASCII is read as it is. *)
Lemma lossy_ascii s : (∀ c, has_char c s = true → is_ascii c = true) → to_string_lossy s = s.
Proof.
  induction s as [|a s IH]; intros H; [done|]. simpl.
  rewrite (H a) by (simpl; by rewrite bool_decide_eq_true_2).
  rewrite IH; [done|]. intros c Hc. apply H. simpl. by rewrite Hc, orb_true_r.
Qed.

Lemma hash_argv_clean argv : argv_ok argv → clean "001" (hash_argv argv).
Proof.
  induction 1 as [|a l [_ Ha] _ IH]; [done|]. unfold clean in *. simpl.
  rewrite !has_char_app, Ha, IH. done.
Qed.

Lemma hash_argv_inj argv argv' :
  argv_ok argv → argv_ok argv' → hash_argv argv = hash_argv argv' → argv = argv'.
Proof.
  intros H. revert argv'. induction H as [|a l [Ha _] _ IH]; intros [|a' l'] H' Heq; simpl in *.
  - done.
  - destruct a'; discriminate.
  - destruct a; discriminate.
  - inv H'. destruct H1 as [Ha' _].
    apply sep_inj in Heq as [-> Heq]; [|done..]. by rewrite (IH l').
Qed.

Lemma env_entry_inj k v k' v' :
  clean "=" k → clean "=" k' → k +:+ "=" +:+ v = k' +:+ "=" +:+ v' → (k, v) = (k', v').
Proof. intros Hk Hk' Heq. by apply sep_inj in Heq as [-> ->]. Qed.

Lemma env_concat_inj (l l' : list (string * string)) :
  Forall (λ kv, clean "000" kv.1 ∧ clean "=" kv.1 ∧ clean "000" kv.2) l →
  Forall (λ kv, clean "000" kv.1 ∧ clean "=" kv.1 ∧ clean "000" kv.2) l' →
  concat_str (env_entry <$> l) = concat_str (env_entry <$> l') → l = l'.
Proof.
  intros H. revert l'. induction H as [|[k v] l (Hk & Hke & Hv) _ IH];
    intros [|[k' v'] l'] H' Heq; simpl in *.
  - done.
  - unfold env_entry in Heq. simpl in Heq. destruct k'; discriminate.
  - unfold env_entry in Heq. simpl in Heq. destruct k; discriminate.
  - inv H'. destruct H1 as (Hk' & Hke' & Hv').
    unfold env_entry in Heq. simpl in Heq.
    rewrite !str_app_assoc in Heq.
    change (k +:+ "=" +:+ v +:+ nul +:+ concat_str (env_entry <$> l))
      with (k +:+ String "=" (v +:+ nul +:+ concat_str (env_entry <$> l))) in Heq.
    change (k' +:+ "=" +:+ v' +:+ nul +:+ concat_str (env_entry <$> l'))
      with (k' +:+ String "=" (v' +:+ nul +:+ concat_str (env_entry <$> l'))) in Heq.
    apply sep_inj in Heq as [-> Heq]; [|done..].
    apply sep_inj in Heq as [-> Heq]; [|done..].
    by rewrite (IH l').
Qed.

Definition unhex_digit (c : ascii) : nat :=
  let n := nat_of_ascii c in if (n <=? 57)%nat then (n - 48)%nat else (n - 87)%nat.

Definition unhex_byte (s : string) : ascii :=
  match s with
  | String a (String b EmptyString) => ascii_of_nat (16 * unhex_digit a + unhex_digit b)
  | _ => "000"%char
  end.

Lemma unhex_hex_byte c : unhex_byte (hex_byte c) = c.
Proof. by destruct c as [[] [] [] [] [] [] [] []]. Qed.

Lemma hex_encode_inj s s' : hex_encode s = hex_encode s' → s = s'.
Proof.
  revert s'. induction s as [|c s IH]; intros [|c' s'] Heq; try done.
  injection Heq as H1 H2 H3. rewrite (IH s' H3). f_equal.
  rewrite <- (unhex_hex_byte c), <- (unhex_hex_byte c').
  f_equal. exact (f_equal2 (λ a b, String a (String b EmptyString)) H1 H2).
Qed.

(** What a mode keeps of a command: all of it in the time mode, the arguments
    alone in the args mode, arguments, directory and state of the work tree in
    the git mode. *)
Definition same_command (mode : CacheKeyMode) (argv argv' : list string) (cwd cwd' : string)
    (env env' : list (string * string)) (fp fp' : string) : Prop :=
  argv = argv'
  ∧ (mode ≠ KeyArgs → to_string_lossy cwd = to_string_lossy cwd')
  ∧ (mode = KeyTime → env ≡ₚ env')
  ∧ (mode = KeyGit → fp = fp').

(** The pre-image determines what the mode keeps. *)
Lemma key_preimage_inj mode argv argv' cwd cwd' env env' fp fp' :
  argv_ok argv → argv_ok argv' → clean "001" cwd → clean "001" cwd' → env_ok env → env_ok env' →
  key_preimage mode argv cwd env fp = key_preimage mode argv' cwd' env' fp' →
  same_command mode argv argv' cwd cwd' env env' fp fp'.
Proof.
  intros Ha Ha' Hc Hc' [He1 He2] [He1' He2'] Heq. unfold key_preimage in Heq.
  apply (lossy_clean "001") in Hc; [|done]. apply (lossy_clean "001") in Hc'; [|done].
  destruct mode.
  2: { rewrite !str_app_nil_r in Heq. apply hash_argv_inj in Heq as ->; [|done..].
       split_and!; [done|by intros []|done..]. }
  all: apply sep_inj in Heq as [H1 Heq]; [|by apply hash_argv_clean..].
  all: apply sep_inj in Heq as [Hcwd Heq]; [|done..].
  all: apply hash_argv_inj in H1 as ->; [|done..].
  2: by split_and!.
  apply env_concat_inj in Heq; [|by rewrite merge_sort_Permutation..].
  split_and!; [done..| |done]. intros _.
  by rewrite <- (merge_sort_Permutation key_le env), <- (merge_sort_Permutation key_le env'), Heq.
Qed.

(** * Properties *)

(** The key does not depend on the order in which the caller lists the
    environment overrides. *)
Theorem command_key_env_order sha256 argv cwd env env' :
  env ≡ₚ env' → NoDup env.*1 →
  command_key sha256 argv cwd env = command_key sha256 argv cwd env'.
Proof.
  intros Hp Hnd. unfold command_key, command_key_with_mode, key_preimage, hash_env_subset.
  by rewrite (merge_sort_key_perm env env').
Qed.

Lemma command_key_env_order_witness :
  command_key id ["cargo"; "test"] "/w" [("B", "2"); ("A", "1")]
  = command_key id ["cargo"; "test"] "/w" [("A", "1"); ("B", "2")].
Proof.
  apply command_key_env_order.
  - apply Permutation_swap.
  - apply NoDup_ListNoDup. repeat constructor; simpl; intuition discriminate.
Defined.


(** Two directories whose names differ in a byte that is not UTF-8, and the same
    overrides in another order. *)
Definition dir_ff : string := "/w/" +:+ String "255" EmptyString.
Definition dir_fe : string := "/w/" +:+ String "254" EmptyString.

Lemma env_ok_two (k1 v1 k2 v2 : string) :
  k1 ≠ k2 → Forall (λ kv, clean "000" kv.1 ∧ clean "=" kv.1 ∧ clean "000" kv.2) [(k1, v1); (k2, v2)] →
  env_ok [(k1, v1); (k2, v2)].
Proof.
  intros Hne H. split; [|done]. simpl. apply NoDup_cons. split; [|apply NoDup_singleton].
  by rewrite list_elem_of_singleton.
Defined.


(** Two directories share the entries of the cache when their names differ only
    in bytes that are not UTF-8. *)
Lemma undecodable_directories_share_key sha256 argv env :
  command_key sha256 argv dir_ff env = command_key sha256 argv dir_fe env ∧ dir_ff ≠ dir_fe.
Proof. by split. Qed.

(** Routing to the queue is decided by exact token matching: a command
    bypasses the coalesce cache iff one of its arguments is one of the
    configured flags. *)
Theorem has_nocache_arg_iff argv flags :
  has_nocache_arg argv flags = true ↔ ∃ a, a ∈ argv ∧ a ∈ flags.
Proof.
  assert (∀ a fs, any_flag_equals a fs = true ↔ a ∈ fs) as Hf.
  { intros a fs. induction fs as [|f fs IH]; simpl; [split; [done|by intros ?%not_elem_of_nil]|].
    rewrite elem_of_cons. case_bool_decide; rewrite ?IH; tauto. }
  assert (∀ l fs, any_arg_matches l fs = true ↔ ∃ a, a ∈ l ∧ a ∈ fs) as Ha.
  { intros l fs. induction l as [|a l IH]; simpl.
    - split; [done|]. by intros (? & ?%not_elem_of_nil & _).
    - destruct (any_flag_equals a fs) eqn:E.
      + apply Hf in E. split; [|done]. intros _. exists a. split; [left|done].
      + rewrite IH. setoid_rewrite elem_of_cons. split; [intros (x & ? & ?); eauto|].
        intros (x & [->|?] & Hx); [|eauto]. apply Hf in Hx. congruence. }
  unfold has_nocache_arg. destruct flags; [|apply Ha].
  split; [done|]. by intros (? & _ & ?%not_elem_of_nil).
Qed.

(** A rules.conf [nocache_args=X,Y] value parses back to the flags it
    lists, for flags that are trimmed, non-empty and comma-free. *)
Theorem nocache_csv_roundtrip flags :
  flags ≠ [] →
  Forall (λ f, f ≠ EmptyString ∧ trim f = f ∧ has_char "," f = false) flags →
  parse_nocache_args_csv (join_with "," flags) = flags.
Proof.
  intros Hne Hall. unfold parse_nocache_args_csv.
  rewrite split_on_join; [|done|eapply Forall_impl; [exact Hall|]; by intros ? (_ & _ & ?)].
  clear Hne. induction Hall as [|f fs (H1 & H2 & _) _ IH]; [done|].
  rewrite fmap_cons, H2, filter_cons_True by done. by rewrite IH.
Qed.

Lemma nocache_csv_roundtrip_witness :
  parse_nocache_args_csv (join_with "," ["--fix"; "--unsafe-fixes"]) = ["--fix"; "--unsafe-fixes"].
Proof. apply nocache_csv_roundtrip; [done|]. by repeat constructor. Defined.

Lemma u64_mod_range x : 0 ≤ x mod 2 ^ 64 ≤ u64_max.
Proof.
  pose proof (Z.mod_pos_bound x (2 ^ 64) eq_refl) as [H1 H2].
  split; [done|]. unfold u64_max. by apply Z.lt_le_pred in H2.
Qed.

Lemma args_key_from (xxh3 : string → Z) (args : list string) st :
  0 ≤ st ≤ u64_max →
  foldl (λ s arg, wrapping_add u64_max (xxh3 arg) s) st args
  = (st + list_sum_Z (xxh3 <$> args)) mod 2 ^ 64.
Proof.
  revert st. induction args as [|a args IH]; intros st Hst; simpl.
  - rewrite Z.add_0_r, Z.mod_small; [done|]. unfold u64_max in Hst. lia.
  - unfold wrapping_add at 2.
    change (u64_max + 1) with (2 ^ 64).
    rewrite IH by (apply u64_mod_range).
    rewrite Zplus_mod_idemp_l. f_equal. unfold fmap. lia.
Qed.

(** The harness args key adds the hashes of the arguments, so it ignores
    their order: every permutation of an argument vector (for example
    [cp a b] and [cp b a]) has the same cache key. *)
Theorem args_key_ignores_order (xxh3 : string → Z) (args args' : list string) :
  args ≡ₚ args' → compute_args_key xxh3 args = compute_args_key xxh3 args'.
Proof.
  intros Hp. unfold compute_args_key. rewrite !args_key_from by (unfold u64_max; lia).
  by rewrite (list_sum_Z_perm _ (xxh3 <$> args')) by (by rewrite Hp).
Qed.

Lemma args_key_ignores_order_witness :
  compute_args_key (λ s, Z.of_nat (String.length s)) ["cp"; "src"; "b"]
  = compute_args_key (λ s, Z.of_nat (String.length s)) ["cp"; "b"; "src"].
Proof. apply args_key_ignores_order. apply Permutation_skip, Permutation_swap. Defined.
