(* ===== verification/CoalesceCache.v ===== *)
(** The file-backed coalesce cache of crates/sharecli-ipc/src/lib.rs: freshness
    by modification time, atomic store with a sweep of stale entries, the lock
    acquisition loop with its deadline, and the Lock-Wait-Cache protocol
    ([with_lock_detailed]).

    The cache root is a directory of named files. Every system call that can
    fail has its outcome in a [CacheIo] record, and the time spent waiting for
    the lock or sleeping lets other processes act on the world: both are
    arguments. serde_json is third-party and enters as two functions. *)
From S2P Require Import Prelude FleetGate.

Abbreviation bytes := (list byte) (only parsing).

(** * Data *)

Record CachedResult : Type := mkCached {
  exit_code : Z; stdout : bytes; stderr : bytes }.

(** [T: Into<CachedResult> + From<CachedResult>]. *)
Class CachedConv (T : Type) : Type := {
  into_cached : T → CachedResult;
  from_cached : CachedResult → T;
}.
#[global] Instance cached_conv_id : CachedConv CachedResult :=
  {| into_cached := id; from_cached := id |}.

Record File : Type := mkFile { mtime : Z; data : bytes }.

(** Time is in milliseconds. *)
Record World : Type := mkWorld {
  now : Z;
  dir : gmap string File;
  meters : CoalesceMeters;
}.

Definition set_dir (d : gmap string File) (w : World) : World := mkWorld (now w) d (meters w).
Definition set_meters (m : CoalesceMeters) (w : World) : World := mkWorld (now w) (dir w) m.
Definition advance (ms : Z) (w : World) : World := mkWorld (now w + ms) (dir w) (meters w).

Record CoalesceCache : Type := mkCache { ttl : Z; debounce : Z }.

Definition DEFAULT_TTL : Z := 300000.
Definition cache_new : CoalesceCache := mkCache DEFAULT_TTL 0.
Definition cache_with_ttl (t : Z) : CoalesceCache := mkCache t 0.

Inductive CacheError : Type :=
| CreateRoot (msg : string)
| Metadata (name msg : string)
| ReadDir (msg : string)
| ReadEntry (name msg : string)
| Deserialise (name : string)
| Serialise
| CreateTemp (msg : string)
| WriteTemp (msg : string)
| Persist (msg : string)
| OpenLock (msg : string)
| LockTimeout
| LockFailed (msg : string)
| RunFailed (msg : string)
| StillPolling.   (* not an error of the code: the call has not returned within the fuel *)

(** What reading a file that had metadata gave: it may be gone by then. *)
Inductive ReadOutcome : Type := ReadFine | ReadGone | ReadBroken (msg : string).

Record CacheIo : Type := mkCacheIo {
  io_create_root : option string;
  io_metadata : string → option string;
  io_read_dir : option string;
  io_read : string → ReadOutcome;
  io_temp : option string;
  io_write : option string;
  io_persist : option string;
  io_remove_fails : string → bool;
  io_open_lock : option string;
}.

(** Every call succeeds. *)
Definition io_good : CacheIo :=
  mkCacheIo None (λ _, None) None (λ _, ReadFine) None None None (λ _, false) None.

Definition io_check {E} (o : option string) (e : string → E) : result unit E :=
  match o with Some msg => Err (e msg) | None => Ok tt end.

(** * Lock acquisition *)

Inductive TryLock : Type := Acquired | WouldBlock | TryFailed (msg : string).

(** [started.elapsed().unwrap_or(Duration::ZERO)]: what the system clock shows
    since the start; a clock that was set back counts as no time at all. *)
Definition system_elapsed (clock : nat → Z) (n : nat) : Z := Z.max 0 (clock n).

(** [acquire_lock_with_deadline]: [tries] gives the answer of each
    [try_lock_exclusive], [clock] the system time at each check of the deadline
    relative to the start, [backoff] is the next sleep and [slept] the sum of
    the sleeps so far. Returns the outcome and the time slept; [None] means that
    the fuel ran out. *)
Fixpoint acquire_lock_loop (fuel : nat) (tries : nat → TryLock) (clock : nat → Z)
    (deadline : Z) (n : nat) (backoff slept : Z) : option (result unit CacheError * Z) :=
  match fuel with
  | O => None
  | S fuel' =>
      match tries n with
      | Acquired => Some (Ok tt, slept)
      | WouldBlock =>
          if deadline <=? system_elapsed clock n then Some (Err LockTimeout, slept)
          else acquire_lock_loop fuel' tries clock deadline (S n)
                 (Z.min (backoff * 2) 250) (slept + backoff)
      | TryFailed msg => Some (Err (LockFailed msg), slept)
      end
  end.

Definition LOCK_DEADLINE : Z := 30000.

Definition acquire_lock_with_deadline (fuel : nat) (tries : nat → TryLock) (clock : nat → Z)
    (deadline : Z) : option (result unit CacheError * Z) :=
  acquire_lock_loop fuel tries clock deadline 0 5 0.

(** What happens while a caller waits for its lock and while it sleeps through
    the debounce window: the answers of the lock, the readings of the clock and
    what others do to the world. *)
Record Schedule : Type := mkSchedule {
  lock_tries : nat → TryLock;
  lock_clock : nat → Z;
  during_wait : World → World;
  during_debounce : World → World;
}.

Definition acquire (sch : Schedule) : stm World CacheError unit :=
  λ w,
    match acquire_lock_with_deadline 200 (lock_tries sch) (lock_clock sch) LOCK_DEADLINE with
    | Some (r, slept) => (advance slept (during_wait sch w), r)
    | None => (during_wait sch w, Err StillPolling)
    end.

(** * The cache *)

(** [Path::extension] of a file name. *)
Definition extension (name : string) : option string :=
  match split_on "." name with
  | [] | [_] => None
  | [EmptyString; _] => None
  | l => last l
  end.

Definition entry_path (key : string) : string := key +:+ ".json".
Definition lock_path (key : string) : string := key +:+ ".lock".

Section cache.
Variables (to_vec : CachedResult → option bytes)
          (from_slice : bytes → option CachedResult).
Variable io : CacheIo.
Variable c : CoalesceCache.

Definition ensure_root : stm World CacheError unit :=
  st_lift (io_check (io_create_root io) CreateRoot).

(** [duration_since(modified).unwrap_or(ZERO)]. *)
Definition entry_age (name : string) : stm World CacheError (option Z) :=
  w <- st_get ;;
  match dir w !! name with
  | None => st_ret None
  | Some f =>
      st_lift (io_check (io_metadata io name) (Metadata name)) ;;;
      st_ret (Some (Z.max 0 (now w - mtime f)))
  end.

Definition is_fresh (name : string) : stm World CacheError bool :=
  age <- entry_age name ;;
  match age with
  | Some a => st_ret (a <? ttl c)
  | None => st_ret false
  end.

Fixpoint evict_names (names : list string) : stm World CacheError unit :=
  match names with
  | [] => st_ret tt
  | name :: rest =>
      if negb (bool_decide (extension name = Some "json")) then evict_names rest
      else
        fresh <- is_fresh name ;;
        (if negb fresh && negb (io_remove_fails io name)
         then st_mod (λ w, set_dir (delete name (dir w)) w)
         else st_ret tt) ;;;
        evict_names rest
  end.

(** [evict_stale]. The order of [read_dir] is unspecified; the model uses the
    enumeration of the map. *)
Definition evict_stale : stm World CacheError unit :=
  w <- st_get ;;
  st_lift (io_check (io_read_dir io) ReadDir) ;;;
  evict_names (map_to_list (dir w)).*1.

(** [fs::read] of an entry and what [lookup] makes of it. *)
Definition read_entry (name : string) : stm World CacheError (option CachedResult) :=
  w <- st_get ;;
  match dir w !! name, io_read io name with
  | None, _ | _, ReadGone => st_ret None
  | _, ReadBroken msg => st_err (ReadEntry name msg)
  | Some f, ReadFine =>
      match from_slice (data f) with
      | Some r => st_ret (Some r)
      | None => st_err (Deserialise name)
      end
  end.

Definition lookup (key : string) : stm World CacheError (option CachedResult) :=
  let name := entry_path key in
  fresh <- is_fresh name ;;
  if negb fresh then st_ret None else read_entry name.

(** [store]: serialise, write a temporary file in the same directory, rename
    it over the entry, sweep. A failure before the rename leaves no trace. *)
Definition store (key : string) (r : CachedResult) : stm World CacheError unit :=
  ensure_root ;;;
  b <- st_lift (ok_or Serialise (to_vec r)) ;;
  st_lift (io_check (io_temp io) CreateTemp) ;;;
  st_lift (io_check (io_write io) WriteTemp) ;;;
  st_lift (io_check (io_persist io) Persist) ;;;
  st_mod (λ w, set_dir (<[entry_path key := mkFile (now w) b]> (dir w)) w) ;;;
  evict_stale.

(** [OpenOptions::new().create(true).write(true).truncate(false)]. *)
Definition open_lock (key : string) : stm World CacheError unit :=
  st_lift (io_check (io_open_lock io) OpenLock) ;;;
  st_mod (λ w, match dir w !! lock_path key with
               | Some _ => w
               | None => set_dir (<[lock_path key := mkFile (now w) []]> (dir w)) w
               end).

Definition record_kind (k : CoalesceHitKind) : stm World CacheError unit :=
  st_mod (λ w, set_meters (record_coalesce_hit_kind k (meters w)) w).

(** The part of [with_lock_detailed] that runs with the lock held, from the
    miss closure on. *)
Definition run_and_store {T} `{CachedConv T} (key : string) (f : stm World CacheError T)
  : stm World CacheError (T * CoalesceHitKind) :=
  value <- f ;;
  let cached := into_cached value in
  if negb (exit_code cached =? 0)
  then record_kind Miss ;;; st_ret (from_cached cached, Miss)
  else store key cached ;;; record_kind Miss ;;; st_ret (from_cached cached, Miss).

Definition with_lock_detailed {T} `{CachedConv T} (sch : Schedule) (key : string)
    (f : stm World CacheError T) : stm World CacheError (T * CoalesceHitKind) :=
  ensure_root ;;;
  open_lock key ;;;
  acquire sch ;;;
  hit <- lookup key ;;
  match hit with
  | Some cached => record_kind LockRecheck ;;; st_ret (from_cached cached, LockRecheck)
  | None =>
      if negb (debounce c =? 0)
      then
        st_mod (λ w, advance (debounce c) (during_debounce sch w)) ;;;
        hit2 <- lookup key ;;
        match hit2 with
        | Some cached =>
            record_kind DebounceRecheck ;;; st_ret (from_cached cached, DebounceRecheck)
        | None => run_and_store key f
        end
      else run_and_store key f
  end.

Definition with_lock {T} `{CachedConv T} (sch : Schedule) (key : string)
    (f : stm World CacheError T) : stm World CacheError T :=
  r <- with_lock_detailed sch key f ;; st_ret r.1.
End cache.

(** * Lemmas: the lock loop *)

(** The sleep before try [n + 1] and the time slept before try [n]. *)
Definition backoff_at (n : nat) : Z := Nat.iter n (λ b, Z.min (b * 2) 250) 5.
Fixpoint slept_before (n : nat) : Z :=
  match n with O => 0 | S m => slept_before m + backoff_at m end.

(** The lock was busy at every try before [n] and the deadline not yet over. *)
Definition polled_until (tries : nat → TryLock) (clock : nat → Z) (deadline : Z) (n : nat) : Prop :=
  ∀ m, (m < n)%nat → tries m = WouldBlock ∧ system_elapsed clock m < deadline.

(** How an acquisition may end at try [n]: with the lock when the system gave
    it, with a timeout when the lock is busy and the deadline over, with the
    system's error otherwise. *)
Inductive lock_outcome (tries : nat → TryLock) (clock : nat → Z) (deadline : Z) (n : nat)
  : result unit CacheError → Prop :=
| outcome_acquired : tries n = Acquired → lock_outcome tries clock deadline n (Ok tt)
| outcome_timeout : tries n = WouldBlock → deadline ≤ system_elapsed clock n →
    lock_outcome tries clock deadline n (Err LockTimeout)
| outcome_failed msg : tries n = TryFailed msg →
    lock_outcome tries clock deadline n (Err (LockFailed msg)).

(** The system clock is not set back and shows at least the time slept. *)
Definition clock_advances (clock : nat → Z) : Prop :=
  0 ≤ clock 0%nat ∧ ∀ n, clock n + backoff_at n ≤ clock (S n).

Lemma backoff_range n : 5 ≤ backoff_at n ≤ 250.
Proof. unfold backoff_at. induction n as [|n IH]; simpl; lia. Qed.

(** After six tries the back-off stays at its maximum. *)
Lemma backoff_max n : backoff_at (6 + n) = 250.
Proof.
  induction n as [|n IH]; [reflexivity|].
  replace (6 + S n)%nat with (S (6 + n)) by lia. unfold backoff_at in *. simpl Nat.iter in *. lia.
Qed.

Lemma slept_linear n : slept_before (6 + n) = 315 + 250 * Z.of_nat n.
Proof.
  induction n as [|n IH]; [reflexivity|].
  replace (6 + S n)%nat with (S (6 + n)) by lia.
  change (slept_before (S (6 + n))) with (slept_before (6 + n) + backoff_at (6 + n)).
  rewrite IH, backoff_max. lia.
Qed.

Lemma clock_shows_sleep clock n : clock_advances clock → slept_before n ≤ clock n.
Proof. intros [H0 Hs]. induction n as [|n IH]; simpl; [done|]. specialize (Hs n). lia. Qed.

Lemma slept_nonneg n : 0 ≤ slept_before n.
Proof. induction n as [|n IH]; simpl; [done|]. pose proof (backoff_range n). lia. Qed.

(** Whatever the clock does: when the deadline is over at reading [k], the loop
    returns after at most [k + 1] tries, and says how it ended. *)
Lemma acquire_loop_returns tries clock deadline k fuel n :
  deadline ≤ system_elapsed clock k → (n ≤ k < n + fuel)%nat →
  polled_until tries clock deadline n →
  ∃ m r, acquire_lock_loop fuel tries clock deadline n (backoff_at n) (slept_before n)
         = Some (r, slept_before m)
    ∧ (m ≤ k)%nat ∧ polled_until tries clock deadline m ∧ lock_outcome tries clock deadline m r.
Proof.
  intros Hk. revert n. induction fuel as [|fuel IH]; intros n Hn Hp; [lia|]. simpl.
  destruct (tries n) eqn:E.
  - exists n, (Ok tt). split_and!; [done|lia|done|by constructor].
  - destruct (deadline <=? system_elapsed clock n) eqn:Ed; bool_prop.
    + exists n, (Err LockTimeout). split_and!; [done|lia|done|by constructor].
    + assert (n ≠ k) by (intros ->; lia).
      destruct (IH (S n)) as (m & r & Heq & Hm); [lia| |].
      * intros j Hj. destruct (decide (j = n)) as [->|]; [done|]. apply Hp. lia.
      * exists m, r. split; [|done]. exact Heq.
  - exists n, (Err (LockFailed msg)). split_and!; [done|lia|done|by constructor].
Qed.

(** A clock that never shows the deadline, and a lock that stays busy: the
    loop does not end, whatever the fuel. *)
Lemma acquire_loop_endless tries clock deadline fuel n b sl :
  (∀ m, tries m = WouldBlock) → (∀ m, system_elapsed clock m < deadline) →
  acquire_lock_loop fuel tries clock deadline n b sl = None.
Proof.
  intros Ht Hc. revert n b sl. induction fuel as [|fuel IH]; intros n b sl; simpl; [done|].
  rewrite Ht, (proj2 (Z.leb_gt _ _) (Hc n)). apply IH.
Qed.

Lemma acquire_loop_first tries clock deadline fuel n b sl :
  tries n = Acquired → acquire_lock_loop (S fuel) tries clock deadline n b sl = Some (Ok tt, sl).
Proof. intros H. simpl. by rewrite H. Qed.

(** A free lock is taken without waiting. *)
Lemma acquire_free sch w :
  lock_tries sch 0 = Acquired → acquire sch w = (advance 0 (during_wait sch w), Ok tt).
Proof.
  intros H. unfold acquire, acquire_lock_with_deadline.
  by rewrite (acquire_loop_first (lock_tries sch) (lock_clock sch) LOCK_DEADLINE 199 0 5 0 H).
Qed.

(** * Lemmas: entries *)

Definition file_fresh (c : CoalesceCache) (w : World) (f : File) : Prop :=
  Z.max 0 (now w - mtime f) < ttl c.

(** What the sweep must not touch: fresh entries and files that are not entries. *)
Definition kept (c : CoalesceCache) (w : World) (name : string) (f : File) : Prop :=
  extension name = Some "json" → file_fresh c w f.

Section cache_lemmas.
Variables (to_vec : CachedResult → option bytes)
          (from_slice : bytes → option CachedResult).
Variables (io : CacheIo) (c : CoalesceCache).
Implicit Types w : World.

Lemma is_fresh_pure name w : (is_fresh io c name w).1 = w.
Proof.
  unfold is_fresh, entry_age, st_bind, st_get, st_lift, io_check, st_ret.
  rust_cases.
Qed.

Lemma is_fresh_ok name w w' b :
  is_fresh io c name w = (w', Ok b) →
  w' = w ∧ (b = true ↔ ∃ f, dir w !! name = Some f ∧ file_fresh c w f).
Proof.
  unfold is_fresh, entry_age, st_bind, st_get, st_lift, io_check, st_ret, file_fresh.
  intros H. destruct (dir w !! name) as [f|]; simplify_eq/=.
  - destruct (io_metadata io name); simplify_eq/=. split; [done|].
    rewrite Z.ltb_lt. split; [eauto|]. by intros (? & [= <-] & ?).
  - split; [done|]. split; [done|]. by intros (? & ? & _).
Qed.

Lemma lookup_pure key w : (lookup from_slice io c key w).1 = w.
Proof.
  pose proof (is_fresh_pure (entry_path key) w) as Hp.
  unfold lookup, read_entry, st_bind, st_get, st_err, st_ret.
  destruct (is_fresh io c (entry_path key) w) as [w1 [b|e]]; simpl in *; subst; [|done].
  rust_cases.
Qed.

(** A hit is a fresh entry that deserialises to the answer. *)
Lemma lookup_hit key w r :
  (lookup from_slice io c key w).2 = Ok (Some r) →
  ∃ f, dir w !! entry_path key = Some f ∧ file_fresh c w f ∧ from_slice (data f) = Some r.
Proof.
  unfold lookup, read_entry, st_bind, st_get, st_err, st_ret.
  destruct (is_fresh io c (entry_path key) w) as [w1 [b|e]] eqn:E; [|done].
  apply is_fresh_ok in E as [-> Hb]. destruct b; simpl; [|done].
  destruct Hb as [Hb _]. destruct (Hb eq_refl) as (f & Hf & Hfr).
  rewrite Hf. intros H. exists f. split; [done|]. split; [done|].
  destruct (io_read io (entry_path key)); [|done..].
  by destruct (from_slice (data f)); simplify_eq/=.
Qed.

Lemma evict_names_spec names w w' r :
  evict_names io c names w = (w', r) →
  now w' = now w ∧ meters w' = meters w ∧ dir w' ⊆ dir w
  ∧ ∀ n f, dir w !! n = Some f → kept c w n f → dir w' !! n = Some f.
Proof.
  revert w. induction names as [|name names IH]; intros w H; simpl in H.
  { injection H as -> _. done. }
  destruct (bool_decide (extension name = Some "json")) eqn:Ex; simpl in H; [|by apply IH].
  bool_prop. unfold st_bind in H.
  destruct (is_fresh io c name w) as [w1 [b|e]] eqn:E.
  2: { pose proof (is_fresh_pure name w) as Hp. rewrite E in Hp. simpl in Hp. by simplify_eq. }
  apply is_fresh_ok in E as [-> Hb].
  destruct (negb b && negb (io_remove_fails io name)) eqn:Er; [|by apply IH].
  bool_prop. subst b. simpl in H.
  destruct (IH _ H) as (Hn & Hm & Hsub & Hk). simpl in *.
  split; [done|]. split; [done|]. split.
  { etrans; [exact Hsub|]. apply delete_subseteq. }
  intros n f Hf Hkept. apply Hk.
  - rewrite lookup_delete_ne; [done|]. intros ->.
    assert (false = true); [|done]. apply Hb. eauto.
  - intros Hx. by apply Hkept.
Qed.

(** On success the sweep leaves no stale entry among the names it visited. *)
Lemma evict_names_complete names w w' n f :
  evict_names io c names w = (w', Ok tt) → (∀ x, io_remove_fails io x = false) →
  n ∈ names → dir w' !! n = Some f → kept c w n f.
Proof.
  intros H Hrm. revert w H. induction names as [|name names IH]; intros w H Hin Hf;
    [by apply not_elem_of_nil in Hin|]. simpl in H.
  destruct (bool_decide (extension name = Some "json")) eqn:Ex; simpl in H; bool_prop.
  2: { apply elem_of_cons in Hin as [->|Hin]; [by intros ?|]. by eapply IH. }
  unfold st_bind in H.
  destruct (is_fresh io c name w) as [w1 [b|e]] eqn:E; [|done].
  apply is_fresh_ok in E as [-> Hb]. rewrite Hrm, andb_true_r in H.
  destruct b; simpl in H.
  - apply elem_of_cons in Hin as [->|Hin]; [|by eapply IH].
    destruct (proj1 Hb eq_refl) as (f0 & Hf0 & Hfr). intros _.
    apply evict_names_spec in H as (_ & _ & Hsub & _).
    pose proof (lookup_weaken _ _ _ _ Hf Hsub). by simplify_eq.
  - pose proof H as H'. apply evict_names_spec in H' as (_ & _ & Hsub & _).
    apply elem_of_cons in Hin as [->|Hin].
    + pose proof (lookup_weaken _ _ _ _ Hf Hsub) as Hl. simpl in Hl.
      by rewrite lookup_delete_eq in Hl.
    + specialize (IH _ H Hin Hf). intros Hx. by apply IH.
Qed.

Lemma evict_stale_spec w w' r :
  evict_stale io c w = (w', r) →
  now w' = now w ∧ meters w' = meters w ∧ dir w' ⊆ dir w
  ∧ ∀ n f, dir w !! n = Some f → kept c w n f → dir w' !! n = Some f.
Proof.
  unfold evict_stale, st_bind, st_get, st_lift, io_check.
  destruct (io_read_dir io); intros H; [by simplify_eq|]. by apply evict_names_spec in H.
Qed.
End cache_lemmas.

Section protocol_lemmas.
Variables (to_vec : CachedResult → option bytes)
          (from_slice : bytes → option CachedResult).
Variables (io : CacheIo) (c : CoalesceCache).

Lemma store_ok key r w w' :
  store to_vec io c key r w = (w', Ok tt) →
  ∃ b, to_vec r = Some b ∧ now w' = now w ∧ meters w' = meters w
    ∧ (0 < ttl c → dir w' !! entry_path key = Some (mkFile (now w) b)).
Proof.
  unfold store, ensure_root, st_bind, st_lift, st_mod, io_check, ok_or. intros H.
  destruct (io_create_root io); [done|]. destruct (to_vec r) as [b|]; [|done].
  destruct (io_temp io); [done|]. destruct (io_write io); [done|].
  destruct (io_persist io); [done|].
  apply evict_stale_spec in H as (Hn & Hm & _ & Hk). simpl in *.
  exists b. split_and!; [done..|]. intros Ht. apply Hk.
  - apply lookup_insert_eq.
  - intros _. unfold file_fresh. simpl. lia.
Qed.

Lemma lookup_fresh key w r f :
  (∀ n, io_metadata io n = None) → (∀ n, io_read io n = ReadFine) →
  dir w !! entry_path key = Some f → file_fresh c w f → from_slice (data f) = Some r →
  lookup from_slice io c key w = (w, Ok (Some r)).
Proof.
  intros Hmd Hrd Hf Hfr Hd.
  unfold lookup, read_entry, is_fresh, entry_age, st_bind, st_get, st_lift, st_ret, io_check.
  rewrite Hf, Hmd. unfold file_fresh in Hfr.
  rewrite (proj2 (Z.ltb_lt _ _)) by done. simpl. by rewrite Hf, Hrd, Hd.
Qed.

Lemma entry_path_ne_lock key key' : entry_path key ≠ lock_path key'.
Proof.
  unfold entry_path, lock_path. revert key'.
  assert (∀ s t : string, s +:+ ".json" ≠ t +:+ ".lock") as H; [|done].
  induction s as [|a s IH]; intros t Ht.
  - destruct t as [|? [|? [|? [|? [|? [|? ?]]]]]]; discriminate.
  - destruct t as [|b t].
    + destruct s as [|? [|? [|? [|? [|? ?]]]]]; discriminate.
    + injection Ht as -> Ht. by apply (IH t).
Qed.

(** The ways [with_lock_detailed] can succeed. *)
Lemma with_lock_ok {T} `{CachedConv T} sch key (f : stm World CacheError T) w w' v k :
  with_lock_detailed to_vec from_slice io c sch key f w = (w', Ok (v, k)) →
  (∃ w1 r, k ≠ Miss ∧ lookup from_slice io c key w1 = (w1, Ok (Some r))
     ∧ v = from_cached r ∧ w' = set_meters (record_coalesce_hit_kind k (meters w1)) w1)
  ∨ (k = Miss ∧ ∃ wf wf' ws value,
       lookup from_slice io c key wf = (wf, Ok None)
       ∧ f wf = (wf', Ok value) ∧ v = from_cached (into_cached value)
       ∧ w' = set_meters (record_coalesce_hit_kind Miss (meters ws)) ws
       ∧ ((exit_code (into_cached value) ≠ 0 ∧ ws = wf')
          ∨ (exit_code (into_cached value) = 0
             ∧ store to_vec io c key (into_cached value) wf' = (ws, Ok tt)))).
Proof.
  assert (∀ x, run_and_store to_vec io c key f x = (w', Ok (v, k)) →
    lookup from_slice io c key x = (x, Ok None) →
    k = Miss ∧ ∃ wf wf' ws value,
       lookup from_slice io c key wf = (wf, Ok None)
       ∧ f wf = (wf', Ok value) ∧ v = from_cached (into_cached value)
       ∧ w' = set_meters (record_coalesce_hit_kind Miss (meters ws)) ws
       ∧ ((exit_code (into_cached value) ≠ 0 ∧ ws = wf')
          ∨ (exit_code (into_cached value) = 0
             ∧ store to_vec io c key (into_cached value) wf' = (ws, Ok tt)))) as Hrun.
  { intros x Hx Hl. unfold run_and_store, record_kind, st_bind, st_mod, st_ret in Hx.
    destruct (f x) as [wf' [value|e]] eqn:Ef; [|done].
    destruct (exit_code (into_cached value) =? 0) eqn:Ee; simpl in Hx; bool_prop.
    - destruct (store to_vec io c key (into_cached value) wf') as [ws [[]|e]] eqn:Es; [|done].
      simplify_eq. split; [done|]. exists x, wf', ws, value. auto 10.
    - simplify_eq. split; [done|]. exists x, wf', wf', value. auto 10. }
  unfold with_lock_detailed, record_kind, st_bind, st_mod, st_ret. intros Hw.
  destruct (ensure_root io w) as [wr [[]|]]; [|done].
  destruct (open_lock io key _) as [wo [[]|]]; [|done].
  destruct (acquire sch _) as [w1 [[]|]]; [|done].
  destruct (lookup from_slice io c key w1) as [w2 [hit|e]] eqn:El; [|done].
  assert (w2 = w1) as -> by (pose proof (lookup_pure from_slice io c key w1) as Hp; by rewrite El in Hp).
  destruct hit as [r|].
  { left. simplify_eq. by eauto 10. }
  destruct (debounce c =? 0); simpl in Hw; [right; by eapply Hrun|].
  set (w3 := advance _ _) in Hw.
  destruct (lookup from_slice io c key w3) as [w4 [hit|e]] eqn:El2; [|done].
  assert (w4 = w3) as -> by (pose proof (lookup_pure from_slice io c key w3) as Hp; by rewrite El2 in Hp).
  destruct hit as [r|].
  - left. simplify_eq. by eauto 10.
  - right. by eapply Hrun.
Qed.
End protocol_lemmas.

(** Whenever the result came from the lock or debounce re-check, the miss
    closure was not run: any other closure gives the same answer and the same
    final world. *)
Lemma with_lock_shared {T} `{CachedConv T} to_vec from_slice io c sch key
    (f f' : stm World CacheError T) w w' v k :
  with_lock_detailed to_vec from_slice io c sch key f w = (w', Ok (v, k)) →
  shared_from_cache k = true →
  with_lock_detailed to_vec from_slice io c sch key f' w = (w', Ok (v, k)).
Proof.
  assert (∀ (g : stm World CacheError T) x,
    run_and_store to_vec io c key g x = (w', Ok (v, k)) → k = Miss) as Hrun.
  { intros g x. unfold run_and_store, record_kind, st_bind, st_mod, st_ret.
    intros Hx. rust_cases. }
  unfold with_lock_detailed, st_bind. intros Hw Hk.
  destruct (ensure_root io w) as [wr [[]|]]; [|done].
  destruct (open_lock io key _) as [wo [[]|]]; [|done].
  destruct (acquire sch _) as [w1 [[]|]]; [|done].
  destruct (lookup from_slice io c key w1) as [w2 [[r|]|e]]; [done| |done].
  destruct (negb (debounce c =? 0)).
  - destruct (st_mod _ w2) as [w3 [[]|]]; [|done].
    destruct (lookup from_slice io c key w3) as [w4 [[r|]|e]]; [done| |done].
    apply Hrun in Hw. by subst k.
  - apply Hrun in Hw. by subst k.
Qed.

(** * Properties *)

(** C40: while the system clock is not set back and shows at least the time
    slept, acquiring the per-key lock returns after at most 126 tries and sleeps
    of less than one back-off step past the 30-second deadline, and its answer is
    the system's: the lock exactly when a try obtained it after tries that all
    found it busy, the error of the first try that failed, a timeout only when
    the lock is still busy and the deadline over. *)
Theorem lock_acquisition_total tries clock :
  clock_advances clock →
  ∃ n r,
    acquire_lock_with_deadline 200 tries clock LOCK_DEADLINE = Some (r, slept_before n)
    ∧ (n < 126)%nat ∧ 0 ≤ slept_before n < LOCK_DEADLINE + 250
    ∧ polled_until tries clock LOCK_DEADLINE n ∧ lock_outcome tries clock LOCK_DEADLINE n r.
Proof.
  intros Hc.
  assert (LOCK_DEADLINE ≤ system_elapsed clock 125) as Hk.
  { pose proof (clock_shows_sleep clock 125 Hc) as H. change 125%nat with (6 + 119)%nat in H at 1.
    rewrite slept_linear in H. unfold system_elapsed, LOCK_DEADLINE. lia. }
  destruct (acquire_loop_returns tries clock LOCK_DEADLINE 125 200 0 Hk) as (n & r & Heq & Hn & Hp & Ho);
    [lia|intros m Hm; lia|].
  exists n, r. split_and!; [exact Heq|lia|apply slept_nonneg| |done|done].
  destruct n as [|n]; [done|]. destruct (Hp n ltac:(lia)) as [_ Hlt].
  pose proof (clock_shows_sleep clock n Hc). pose proof (backoff_range n).
  simpl. unfold system_elapsed in Hlt. lia.
Qed.

(** A sibling that keeps the lock for 400 ms while the clock jumps a day ahead
    at the fifth check: the caller gives up at once. *)
Definition jumping_clock (n : nat) : Z := slept_before n + (if (n <? 4)%nat then 0 else 86400000).

Lemma slept_before_S n : slept_before (S n) = slept_before n + backoff_at n.
Proof. done. Qed.

Lemma jumping_clock_advances : clock_advances jumping_clock.
Proof.
  split; [done|]. intros n. unfold jumping_clock. rewrite slept_before_S.
  destruct (Nat.ltb_spec n 4), (Nat.ltb_spec (S n) 4); lia.
Defined.

Lemma lock_acquisition_total_witness :
  acquire_lock_with_deadline 200 (λ n, if (n <? 7)%nat then WouldBlock else Acquired)
    jumping_clock LOCK_DEADLINE = Some (Err LockTimeout, 75)
  ∧ ∃ n r,
    acquire_lock_with_deadline 200 (λ n, if (n <? 7)%nat then WouldBlock else Acquired)
      jumping_clock LOCK_DEADLINE = Some (r, slept_before n)
    ∧ (n < 126)%nat ∧ 0 ≤ slept_before n < LOCK_DEADLINE + 250
    ∧ polled_until (λ n, if (n <? 7)%nat then WouldBlock else Acquired) jumping_clock LOCK_DEADLINE n
    ∧ lock_outcome (λ n, if (n <? 7)%nat then WouldBlock else Acquired) jumping_clock LOCK_DEADLINE n r.
Proof.
  split; [vm_compute; reflexivity|].
  apply (lock_acquisition_total (λ n, if (n <? 7)%nat then WouldBlock else Acquired) jumping_clock).
  exact jumping_clock_advances.
Defined.

(** Set back by an hour while the lock is busy, the clock shows no time at all:
    the call polls on, although its deadline is there so that it never hangs. *)
Lemma clock_set_back_never_ends fuel :
  acquire_lock_with_deadline fuel (λ _, WouldBlock)
    (λ n, if (n <? 3)%nat then slept_before n else -3600000) LOCK_DEADLINE = None.
Proof.
  apply acquire_loop_endless; [done|]. intros m. unfold system_elapsed, LOCK_DEADLINE.
  destruct m as [|[|[|m]]]; vm_compute; reflexivity.
Qed.

(** The sweep after a store removes exactly the stale entries: when it
    succeeds, a file of the cache root is still there (unchanged) iff it is not
    a [.json] entry or its age is below the TTL. *)
Theorem evict_stale_exact io c w w' n f :
  evict_stale io c w = (w', Ok tt) → (∀ x, io_remove_fails io x = false) →
  (dir w' !! n = Some f ↔
   dir w !! n = Some f ∧ (extension n = Some "json" → Z.max 0 (now w - mtime f) < ttl c)).
Proof.
  intros H Hrm. pose proof H as H'. apply evict_stale_spec in H' as (_ & _ & Hsub & Hk).
  split.
  - intros Hf. pose proof (lookup_weaken _ _ _ _ Hf Hsub) as Hf0. split; [done|].
    unfold evict_stale, st_bind, st_get, st_lift, io_check in H.
    destruct (io_read_dir io); [done|].
    eapply (evict_names_complete io c _ w w' n f); [exact H|done| |done].
    apply list_elem_of_fmap. exists (n, f). split; [done|]. by apply elem_of_map_to_list.
  - intros [Hf Hkept]. by apply Hk.
Qed.

Definition demo_dir : gmap string File :=
  {["old.json" := mkFile 0 []; "new.json" := mkFile 900 []; "old.lock" := mkFile 0 []]}.

Lemma evict_stale_exact_witness :
  let w := mkWorld 1000 demo_dir coalesce_meters_zero in
  dir (evict_stale io_good (mkCache 500 0) w).1 !! "old.lock" = Some (mkFile 0 []).
Proof.
  intros w.
  apply (evict_stale_exact io_good (mkCache 500 0) w _ "old.lock" (mkFile 0 []));
    [vm_compute; reflexivity|reflexivity|split; [reflexivity|vm_compute; discriminate]].
Defined.

(** A command that fails is never replayed to siblings: when the miss
    closure ran and exited non-zero, the cache directory is the one the closure
    left, with nothing stored. *)
Theorem failed_run_not_cached {T} `{CachedConv T} to_vec from_slice io c sch key
    (f : stm World CacheError T) w w' v :
  with_lock_detailed to_vec from_slice io c sch key f w = (w', Ok (v, Miss)) →
  ∃ wf wf' value, f wf = (wf', Ok value) ∧ v = from_cached (into_cached value)
    ∧ (exit_code (into_cached value) ≠ 0 → dir w' = dir wf').
Proof.
  intros Hw. apply with_lock_ok in Hw as [(w1 & r & Hk & _)|(_ & wf & wf' & ws & value & Hl & Hf & Hv & -> & Hcase)];
    [done|].
  exists wf, wf', value. split_and!; [done..|]. intros Hne.
  destruct Hcase as [[_ ->]|[? _]]; done.
Qed.

(** A successful run is shared. If one caller ran the command with exit code
    0, a second caller for the same key whose turn comes while the entry is
    younger than the TTL gets the very same result from the cache and runs
    nothing. *)
Theorem successful_run_shared to_vec from_slice io c sch sch' key
    (f f' : stm World CacheError CachedResult) w w' v t :
  (∀ r b, to_vec r = Some b → from_slice b = Some r) →
  with_lock_detailed to_vec from_slice io c sch key f w = (w', Ok (v, Miss)) →
  exit_code v = 0 →
  lock_tries sch' 0 = Acquired → (∀ x, during_wait sch' x = advance t x) → 0 ≤ t < ttl c →
  (with_lock_detailed to_vec from_slice io_good c sch' key f' w').2 = Ok (v, LockRecheck).
Proof.
  intros Hser Hw Hv Htry Hwait Ht.
  apply with_lock_ok in Hw as [(w1 & r & Hk & _)|(_ & wf & wf' & ws & value & Hl & Hf & Hv' & -> & Hcase)];
    [done|].
  destruct Hcase as [[Hne _]|[_ Hs]]; [simpl in *; congruence|].
  apply store_ok in Hs as (b & Hb & Hn & Hm & Hd). specialize (Hd ltac:(lia)).
  unfold with_lock_detailed, ensure_root, open_lock, st_bind, st_lift, st_mod.
  cbn [io_check io_create_root io_open_lock io_good].
  rewrite acquire_free, Hwait by done.
  match goal with |- context [lookup from_slice io_good c key ?x] => set (w2 := x) end.
  assert (dir w2 !! entry_path key = Some (mkFile (now wf') b)) as Hd2.
  { unfold w2. simpl. destruct (dir ws !! lock_path key); [done|]. simpl.
    rewrite lookup_insert_ne; [done|]. apply not_eq_sym, entry_path_ne_lock. }
  assert (now w2 = now ws + t) as Hn2.
  { unfold w2. simpl. destruct (dir ws !! lock_path key); simpl; lia. }
  clearbody w2.
  rewrite (lookup_fresh from_slice io_good c key w2 (into_cached value) (mkFile (now wf') b)).
  - simpl. by subst v.
  - done.
  - done.
  - done.
  - unfold file_fresh. simpl. lia.
  - simpl. by apply Hser.
Qed.

(** * A concrete serialiser, to run the protocol *)

Fixpoint take_unary (b : bytes) : option (nat * bytes) :=
  match b with
  | x00 :: rest => Some (0%nat, rest)
  | x01 :: rest => match take_unary rest with Some (n, r) => Some (S n, r) | None => None end
  | _ => None
  end.

Definition put_unary (n : nat) : bytes := replicate n x01 ++ [x00].

Lemma take_put_unary n rest : take_unary (put_unary n ++ rest) = Some (n, rest).
Proof. unfold put_unary. induction n as [|n IH]; simpl in *; [done|]. by rewrite IH. Qed.

Definition simple_to_vec (r : CachedResult) : option bytes :=
  Some ((if exit_code r <? 0 then x01 else x00) :: put_unary (Z.to_nat (Z.abs (exit_code r)))
        ++ put_unary (length (stdout r)) ++ stdout r ++ stderr r).

Definition simple_from_slice (b : bytes) : option CachedResult :=
  match b with
  | [] => None
  | s :: b1 =>
      match take_unary b1 with
      | None => None
      | Some (n, b2) =>
          match take_unary b2 with
          | None => None
          | Some (k, b3) =>
              Some (mkCached (match s with x01 => - Z.of_nat n | _ => Z.of_nat n end)
                      (take k b3) (drop k b3))
          end
      end
  end.

Lemma simple_codec r b : simple_to_vec r = Some b → simple_from_slice b = Some r.
Proof.
  unfold simple_to_vec, simple_from_slice. intros [= <-].
  rewrite take_put_unary, take_put_unary, take_app_length, drop_app_length.
  destruct r as [e o er]. simpl. do 2 f_equal.
  destruct (e <? 0) eqn:E; bool_prop; simpl; lia.
Qed.

Definition quiet : Schedule := mkSchedule (λ _, Acquired) slept_before id id.
Definition demo_world : World := mkWorld 1000 ∅ coalesce_meters_zero.
Definition demo_run (code : Z) : stm World CacheError CachedResult :=
  st_ret (mkCached code [x61] []).

Definition demo_after (code : Z) : World :=
  (with_lock_detailed simple_to_vec simple_from_slice io_good cache_new quiet "k"
     (demo_run code) demo_world).1.

Lemma failed_run_not_cached_witness :
  (with_lock_detailed simple_to_vec simple_from_slice io_good cache_new quiet "k"
     (demo_run 2) demo_world).2 = Ok (mkCached 2 [x61] [], Miss)
  ∧ ∃ wf wf' value, demo_run 2 wf = (wf', Ok value)
      ∧ mkCached 2 [x61] [] = from_cached (into_cached value)
      ∧ (exit_code (into_cached value) ≠ 0 → dir (demo_after 2) = dir wf').
Proof.
  split; [vm_compute; reflexivity|].
  apply (failed_run_not_cached simple_to_vec simple_from_slice io_good cache_new quiet "k"
           (demo_run 2) demo_world (demo_after 2) (mkCached 2 [x61] [])).
  vm_compute. reflexivity.
Defined.

Lemma successful_run_shared_witness :
  (with_lock_detailed simple_to_vec simple_from_slice io_good cache_new
     (mkSchedule (λ _, Acquired) slept_before (advance 200000) id) "k" (demo_run 7) (demo_after 0)).2
  = Ok (mkCached 0 [x61] [], LockRecheck).
Proof.
  apply (successful_run_shared simple_to_vec simple_from_slice io_good cache_new quiet
    (mkSchedule (λ _, Acquired) slept_before (advance 200000) id) "k" (demo_run 0) (demo_run 7)
    demo_world (demo_after 0) (mkCached 0 [x61] []) 200000 simple_codec);
    try reflexivity; vm_compute; split; [discriminate|reflexivity].
Defined.
