(* ===== verification/LockProtocol.v ===== *)
(** Lock-Wait-Cache as a concurrent protocol: any number of processes run
    [CoalesceCache::with_lock_detailed] (crates/sharecli-ipc/src/lib.rs) for one
    key, interleaved with the passage of time, with stores for other keys and
    with the background speculation task, which stores without the lock
    (crates/sharecli-core/src/speculation.rs).

    The steps use the operations of [CoalesceCache] with any outcome of their
    system calls; the advisory lock is the [holder] field. Every process has a
    cache of its own on the common root: rules with different TTLs share the
    directory (crates/harness-native/src/strategies/hypervisor_lane.rs), and a
    store sweeps with the TTL of the one that stores. *)
From S2P Require Import Prelude FleetGate CoalesceCache.

(** Where a process is inside [with_lock_detailed]. The flag tells the second
    look, after the debounce window, from the first. *)
Inductive pc : Type :=
| PWaiting                     (* lock file open, polling [try_lock_exclusive] *)
| PChecking (second : bool)    (* lock held, before the age of the entry is read *)
| PReading (second : bool)     (* lock held, the entry was fresh, before it is read *)
| PDebouncing                  (* lock held, sleeping through the debounce window *)
| PRunning                     (* lock held, inside the miss closure *)
| PDone (r : result (CachedResult * CoalesceHitKind) CacheError)
| PKilled.                     (* the process died; the system dropped its lock *)

(** What the protocol is judged by, newest first. *)
Inductive event : Type :=
| EvStart (i : nat) (t : Z)      (* process [i] entered the miss closure *)
| EvSuccess (i : nat) (t : Z).   (* its successful result was stored *)

Record PState : Type := mkPState {
  world : World;
  holder : option nat;
  pcs : gmap nat pc;
  log : list event;
}.

Definition in_critical (p : pc) : bool :=
  match p with PChecking _ | PReading _ | PDebouncing | PRunning => true | _ => false end.

Definition recheck_kind (second : bool) : CoalesceHitKind :=
  if second then DebounceRecheck else LockRecheck.

(** How polling for the lock can fail: the deadline, or the error of the system call. *)
Definition lock_error (e : CacheError) : bool :=
  match e with LockTimeout | LockFailed _ => true | _ => false end.

Section protocol.
Variables (to_vec : CachedResult → option bytes)
          (from_slice : bytes → option CachedResult).
(** The cache of each process, and the other caches on the same root. *)
Variables (cfg : nat → CoalesceCache) (others : CoalesceCache → Prop).
Variable key : string.

Definition p_record (k : CoalesceHitKind) (w : World) : World :=
  set_meters (record_coalesce_hit_kind k (meters w)) w.

(** Before the lock: the root and the lock file. *)
Definition p_open (io : CacheIo) : stm World CacheError unit :=
  ensure_root io ;;; open_lock io key.

(** After a miss: the debounce window once, then the closure. *)
Definition p_missed (i : nat) (second : bool) (s : PState) : PState :=
  if negb second && negb (debounce (cfg i) =? 0)
  then mkPState (world s) (holder s) (<[i := PDebouncing]> (pcs s)) (log s)
  else mkPState (world s) (holder s) (<[i := PRunning]> (pcs s))
         (EvStart i (now (world s)) :: log s).

(** A call returns and its lock file is closed. *)
Definition p_return (i : nat) (r : result (CachedResult * CoalesceHitKind) CacheError)
    (w : World) (l : list event) (s : PState) : PState :=
  mkPState w None (<[i := PDone r]> (pcs s)) l.

Inductive pstep : PState → PState → Prop :=
| st_arrive i s io w' :
    pcs s !! i = None → p_open io (world s) = (w', Ok tt) →
    pstep s (mkPState w' (holder s) (<[i := PWaiting]> (pcs s)) (log s))
| st_arrive_error i s io w' e :
    pcs s !! i = None → p_open io (world s) = (w', Err e) →
    pstep s (mkPState w' (holder s) (<[i := PDone (Err e)]> (pcs s)) (log s))
| st_acquire i s :
    pcs s !! i = Some PWaiting → holder s = None →
    pstep s (mkPState (world s) (Some i) (<[i := PChecking false]> (pcs s)) (log s))
| st_lock_error i s e :
    pcs s !! i = Some PWaiting → lock_error e = true →
    pstep s (mkPState (world s) (holder s) (<[i := PDone (Err e)]> (pcs s)) (log s))
| st_fresh i s io b :
    pcs s !! i = Some (PChecking b) →
    is_fresh io (cfg i) (entry_path key) (world s) = (world s, Ok true) →
    pstep s (mkPState (world s) (holder s) (<[i := PReading b]> (pcs s)) (log s))
| st_stale i s io b :
    pcs s !! i = Some (PChecking b) →
    is_fresh io (cfg i) (entry_path key) (world s) = (world s, Ok false) →
    pstep s (p_missed i b s)
| st_age_error i s io b e :
    pcs s !! i = Some (PChecking b) →
    is_fresh io (cfg i) (entry_path key) (world s) = (world s, Err e) →
    pstep s (p_return i (Err e) (world s) (log s) s)
| st_read_hit i s io b r :
    pcs s !! i = Some (PReading b) →
    read_entry from_slice io (entry_path key) (world s) = (world s, Ok (Some r)) →
    pstep s (p_return i (Ok (r, recheck_kind b)) (p_record (recheck_kind b) (world s)) (log s) s)
| st_read_gone i s b :
    (* swept since its age was read *)
    pcs s !! i = Some (PReading b) → dir (world s) !! entry_path key = None →
    pstep s (p_missed i b s)
| st_read_error i s io b e :
    pcs s !! i = Some (PReading b) →
    read_entry from_slice io (entry_path key) (world s) = (world s, Err e) →
    pstep s (p_return i (Err e) (world s) (log s) s)
| st_debounced i s :
    pcs s !! i = Some PDebouncing →
    pstep s (mkPState (world s) (holder s) (<[i := PChecking true]> (pcs s)) (log s))
| st_run_error i s e :
    pcs s !! i = Some PRunning →
    pstep s (p_return i (Err e) (world s) (log s) s)
| st_run_failed i s r :
    pcs s !! i = Some PRunning → exit_code r ≠ 0 →
    pstep s (p_return i (Ok (r, Miss)) (p_record Miss (world s)) (log s) s)
| st_run_stored i s io r w' :
    pcs s !! i = Some PRunning → exit_code r = 0 →
    store to_vec io (cfg i) key r (world s) = (w', Ok tt) →
    pstep s (p_return i (Ok (r, Miss)) (p_record Miss w')
               (EvSuccess i (now (world s)) :: log s) s)
| st_store_error i s io r w' e :
    (* before or after the rename *)
    pcs s !! i = Some PRunning → exit_code r = 0 →
    store to_vec io (cfg i) key r (world s) = (w', Err e) →
    pstep s (p_return i (Err e) w' (log s) s)
| st_killed i s p :
    pcs s !! i = Some p →
    pstep s (mkPState (world s) (if in_critical p then None else holder s)
               (<[i := PKilled]> (pcs s)) (log s))
| st_tick s dt :
    0 ≤ dt →
    pstep s (mkPState (advance dt (world s)) (holder s) (pcs s) (log s))
| st_meters s m :
    (* a caller of another key counts *)
    pstep s (mkPState (set_meters m (world s)) (holder s) (pcs s) (log s))
| st_other_open s io key' :
    pstep s (mkPState (open_lock io key' (world s)).1 (holder s) (pcs s) (log s))
| st_other_store s io c' key' r w' res :
    (* another key's caller, or the speculation task for any key *)
    others c' → store to_vec io c' key' r (world s) = (w', res) →
    pstep s (mkPState w' (holder s) (pcs s) (log s)).

Definition p_init (w : World) : PState := mkPState w None ∅ [].

(** * Invariants *)

(** Exactly the lock holder is inside the critical section. *)
Definition lock_inv (s : PState) : Prop :=
  ∀ i, (∃ p, pcs s !! i = Some p ∧ in_critical p = true) ↔ holder s = Some i.

(** No cache of the root has a TTL below [T]. *)
Definition ttl_floor (T : Z) : Prop :=
  (∀ i, T ≤ ttl (cfg i)) ∧ ∀ c', others c' → T ≤ ttl c'.

(** After a success at [t] the entry is at least that recent, or the success
    is [T] old. *)
Definition entry_recent (T : Z) (w : World) (t : Z) : Prop :=
  t ≤ now w ∧
  ((∃ f, dir w !! entry_path key = Some f ∧ t ≤ mtime f) ∨ t + T ≤ now w).

Definition log_inv (T : Z) (s : PState) : Prop :=
  ∀ i t, EvSuccess i t ∈ log s → entry_recent T (world s) t.

(** No run starts within [T] after an earlier success. *)
Definition runs_spaced (T : Z) (l : list event) : Prop :=
  ∀ l1 l2 i j s t, l = l1 ++ EvStart j s :: l2 → EvSuccess i t ∈ l2 → t + T ≤ s.
End protocol.

(** * Lemmas *)

Lemma open_lock_keeps io key key' w :
  now (open_lock io key' w).1 = now w
  ∧ dir (open_lock io key' w).1 !! entry_path key = dir w !! entry_path key.
Proof.
  unfold open_lock, st_bind, st_lift, st_mod, io_check.
  destruct (io_open_lock io); simpl; [done|].
  destruct (dir w !! lock_path key'); simpl; [done|]. split; [done|].
  apply lookup_insert_ne, not_eq_sym, entry_path_ne_lock.
Qed.

Lemma p_open_keeps io key w w' r :
  p_open key io w = (w', r) →
  now w' = now w ∧ dir w' !! entry_path key = dir w !! entry_path key.
Proof.
  unfold p_open, ensure_root, st_bind, st_lift, io_check.
  destruct (io_create_root io); intros H; [by simplify_eq|].
  pose proof (open_lock_keeps io key key w) as Hk. by rewrite H in Hk.
Qed.

(** What a store does to the directory, however it ends: nothing, or the new
    entry and a sweep that may stop half way. *)
Lemma store_any to_vec io c key r w w' res :
  store to_vec io c key r w = (w', res) →
  now w' = now w ∧
  (dir w' = dir w
   ∨ ∃ b, ∀ n f, <[entry_path key := mkFile (now w) b]> (dir w) !! n = Some f →
       (extension n = Some "json" → Z.max 0 (now w - mtime f) < ttl c) →
       dir w' !! n = Some f).
Proof.
  unfold store, ensure_root, st_bind, st_lift, st_mod, io_check, ok_or. intros H.
  destruct (io_create_root io); [simplify_eq; auto|].
  destruct (to_vec r) as [b|]; [|simplify_eq; auto].
  destruct (io_temp io); [simplify_eq; auto|]. destruct (io_write io); [simplify_eq; auto|].
  destruct (io_persist io); [simplify_eq; auto|].
  apply evict_stale_spec in H as (Hn & _ & _ & Hk). split; [done|]. right. exists b. exact Hk.
Qed.

Section protocol_lemmas.
Variables (to_vec : CachedResult → option bytes)
          (from_slice : bytes → option CachedResult).
Variables (cfg : nat → CoalesceCache) (others : CoalesceCache → Prop).
Variable key : string.
Variable T : Z.
Implicit Types s : PState.

Abbreviation step := (pstep to_vec from_slice cfg others key).

Lemma lock_inv_inside s i old p w l :
  lock_inv s → pcs s !! i = Some old → in_critical old = in_critical p →
  lock_inv (mkPState w (holder s) (<[i := p]> (pcs s)) l).
Proof.
  intros Hinv Hi Hc j. simpl. rewrite <- (Hinv j).
  destruct (decide (i = j)) as [<-|Hne].
  - rewrite lookup_insert_eq. rewrite Hi.
    split; intros (q & [= <-] & Hq); eexists; (split; [done|congruence]).
  - by rewrite lookup_insert_ne.
Qed.

Lemma lock_inv_release s i old p w l :
  lock_inv s → pcs s !! i = Some old → in_critical old = true → in_critical p = false →
  lock_inv (mkPState w None (<[i := p]> (pcs s)) l).
Proof.
  intros Hinv Hi Ho Hp j. simpl. split; [|done].
  intros (q & Hq & Hcrit). exfalso.
  destruct (decide (i = j)) as [<-|Hne].
  - rewrite lookup_insert_eq in Hq. simplify_eq. congruence.
  - rewrite lookup_insert_ne in Hq by done.
    assert (holder s = Some i) as H1 by (apply Hinv; eauto).
    assert (holder s = Some j) as H2 by (apply Hinv; eauto). congruence.
Qed.

Lemma lock_inv_acquire s i w l p :
  lock_inv s → holder s = None → in_critical p = true →
  lock_inv (mkPState w (Some i) (<[i := p]> (pcs s)) l).
Proof.
  intros Hinv Hh Hp j. simpl. destruct (decide (i = j)) as [<-|Hne].
  - rewrite lookup_insert_eq. split; [done|eauto].
  - rewrite lookup_insert_ne by done. rewrite (Hinv j), Hh. split; congruence.
Qed.

Lemma lock_inv_enter s i w l p :
  lock_inv s → pcs s !! i = None → in_critical p = false →
  lock_inv (mkPState w (holder s) (<[i := p]> (pcs s)) l).
Proof.
  intros Hinv Hi Hp j. simpl. rewrite <- (Hinv j). destruct (decide (i = j)) as [<-|Hne].
  - rewrite lookup_insert_eq, Hi. split; [intros (? & [= <-] & ?); congruence|by intros (? & ? & ?)].
  - by rewrite lookup_insert_ne.
Qed.

Lemma lock_inv_missed s i b p :
  lock_inv s → pcs s !! i = Some p → in_critical p = true → lock_inv (p_missed cfg i b s).
Proof.
  intros Hinv Hi Hp. unfold p_missed. case_match; by eapply lock_inv_inside.
Qed.

Lemma lock_inv_return s i p r w l :
  lock_inv s → pcs s !! i = Some p → in_critical p = true → lock_inv (p_return i r w l s).
Proof. intros Hinv Hi Hp. by eapply lock_inv_release. Qed.

Lemma lock_inv_step s s' : lock_inv s → step s s' → lock_inv s'.
Proof.
  intros Hinv Hs. inv Hs;
    first [ exact Hinv
          | by eapply lock_inv_missed
          | by eapply lock_inv_return
          | by eapply lock_inv_enter
          | by eapply lock_inv_acquire
          | by eapply lock_inv_inside
          | idtac ].
  destruct (in_critical p) eqn:E; [by eapply lock_inv_release|by eapply lock_inv_inside].
Qed.

Lemma entry_recent_keep w w' t :
  now w' = now w → dir w' !! entry_path key = dir w !! entry_path key →
  entry_recent key T w t → entry_recent key T w' t.
Proof. unfold entry_recent. by intros -> ->. Qed.

(** A store by any cache keeps the entry recent, if the sweep spares what is
    younger than [T]. *)
Lemma entry_recent_store io c' w w' key' r res t :
  T ≤ ttl c' → store to_vec io c' key' r w = (w', res) →
  entry_recent key T w t → entry_recent key T w' t.
Proof.
  intros HT Hs [Ht Hor]. apply store_any in Hs as (Hn & Hd).
  split; [lia|]. rewrite Hn. destruct Hor as [(f & Hf & Hm)|?]; [|by right].
  destruct Hd as [->|(b & Hk)]; [left; eauto|].
  assert (∃ f', <[entry_path key' := mkFile (now w) b]> (dir w) !! entry_path key = Some f'
                ∧ t ≤ mtime f') as (f' & Hf' & Hm').
  { destruct (decide (entry_path key' = entry_path key)) as [->|Hne].
    - rewrite lookup_insert_eq. eexists. split; [done|simpl; lia].
    - rewrite lookup_insert_ne by done. eauto. }
  destruct (decide (Z.max 0 (now w - mtime f') < ttl c')) as [Hfr|Hst].
  - left. exists f'. split; [|done]. by apply Hk.
  - right. lia.
Qed.

Lemma entry_recent_stored io c' w w' r :
  T ≤ ttl c' → store to_vec io c' key r w = (w', Ok tt) → entry_recent key T w' (now w).
Proof.
  intros HT Hs. apply store_ok in Hs as (b & _ & Hn & _ & Hd).
  split; [lia|]. destruct (decide (0 < ttl c')) as [Hp|?]; [left|right; lia].
  exists (mkFile (now w) b). split; [by apply Hd|done].
Qed.

Lemma log_inv_keep s s' :
  log_inv key T s → (∀ i t, EvSuccess i t ∈ log s' → EvSuccess i t ∈ log s) →
  (∀ t, entry_recent key T (world s) t → entry_recent key T (world s') t) → log_inv key T s'.
Proof. intros Hinv Hl Hw i t Hin. by eapply Hw, Hinv, Hl. Qed.

Lemma log_inv_missed s i b : log_inv key T s → log_inv key T (p_missed cfg i b s).
Proof.
  intros Hinv. apply (log_inv_keep s); [done| |]; unfold p_missed; case_match; simpl; try done.
  intros j t Hin. apply elem_of_cons in Hin as [?|Hin]; done.
Qed.

Lemma log_inv_step s s' : ttl_floor cfg others T → log_inv key T s → step s s' → log_inv key T s'.
Proof.
  intros [Hc Ho] Hinv Hs.
  inv Hs; try (by apply log_inv_missed); try (by apply (log_inv_keep s)).
  - apply (log_inv_keep s); [done|done|]. intros t. apply p_open_keeps in H0 as [? ?].
    by apply entry_recent_keep.
  - apply (log_inv_keep s); [done|done|]. intros t. apply p_open_keeps in H0 as [? ?].
    by apply entry_recent_keep.
  - intros j t Hin. simpl in Hin. apply elem_of_cons in Hin as [[= -> ->]|Hin]; simpl.
    + apply (entry_recent_keep w'); [done..|]. by eapply (entry_recent_stored io (cfg i)).
    + apply (entry_recent_keep w'); [done..|].
      eapply (entry_recent_store io (cfg i)); [done|done|]. by eapply Hinv.
  - apply (log_inv_keep s); [done|done|]. intros t. by eapply (entry_recent_store io (cfg i)).
  - apply (log_inv_keep s); [done|done|]. intros t [? [?|?]]; (split; [simpl; lia|]);
      [by left|right; simpl; lia].
  - apply (log_inv_keep s); [done|done|]. intros t.
    destruct (open_lock_keeps io key key' (world s)). by apply entry_recent_keep.
  - apply (log_inv_keep s); [done|done|]. intros t. eapply (entry_recent_store io c'); eauto.
Qed.

(** An entry found stale or gone means that no success is younger than [T]. *)
Lemma stale_is_late io i w t :
  T ≤ ttl (cfg i) → is_fresh io (cfg i) (entry_path key) w = (w, Ok false) →
  entry_recent key T w t → t + T ≤ now w.
Proof.
  intros HT Hl [Ht [(f & Hf & Hm)|?]]; [|done]. apply is_fresh_ok in Hl as [_ Hb].
  destruct (decide (t + T ≤ now w)) as [|Hlt]; [done|]. exfalso.
  assert (false = true); [|done]. apply Hb. exists f. split; [done|]. unfold file_fresh. lia.
Qed.

Lemma gone_is_late w t :
  dir w !! entry_path key = None → entry_recent key T w t → t + T ≤ now w.
Proof. intros Hn [Ht [(f & Hf & Hm)|?]]; [congruence|done]. Qed.

Lemma runs_spaced_cons e l :
  runs_spaced T l →
  (∀ j x, e = EvStart j x → ∀ i t, EvSuccess i t ∈ l → t + T ≤ x) →
  runs_spaced T (e :: l).
Proof.
  intros Hl He [|y l1] l2 i j x t Heq Hin; simplify_eq/=; [by eapply He|].
  by eapply (Hl l1 l2).
Qed.

Lemma runs_spaced_missed s i b :
  runs_spaced T (log s) → (∀ j t, EvSuccess j t ∈ log s → t + T ≤ now (world s)) →
  runs_spaced T (log (p_missed cfg i b s)).
Proof.
  intros Hsp Hlate. unfold p_missed. case_match; simpl; [done|].
  apply runs_spaced_cons; [done|]. intros j x [= <- <-]. exact Hlate.
Qed.

Lemma runs_spaced_step s s' :
  ttl_floor cfg others T → log_inv key T s → runs_spaced T (log s) → step s s' →
  runs_spaced T (log s').
Proof.
  intros [Hc _] Hlog Hsp Hs. inv Hs; simpl; try exact Hsp.
  - apply runs_spaced_missed; [done|]. intros j t Hin. by eapply stale_is_late, Hlog.
  - apply runs_spaced_missed; [done|]. intros j t Hin. by eapply gone_is_late, Hlog.
  - by apply runs_spaced_cons.
Qed.

Lemma lock_inv_reachable w s : rtc step (p_init w) s → lock_inv s.
Proof.
  intros Hr. eapply (rtc_invariant step lock_inv); [| |exact Hr].
  - intros i. simpl. split; [|done]. by intros (? & ? & ?).
  - intros a b H1 Hs. by eapply lock_inv_step.
Qed.

Lemma runs_spaced_reachable w s :
  ttl_floor cfg others T → rtc step (p_init w) s → log_inv key T s ∧ runs_spaced T (log s).
Proof.
  intros HT Hr. eapply (rtc_invariant step (λ x, log_inv key T x ∧ runs_spaced T (log x)));
    [| |exact Hr].
  - split.
    + intros i t Hin. by apply not_elem_of_nil in Hin.
    + intros l1 l2 i j x t Heq. by destruct l1.
  - intros a b (H2 & H3) Hs. split; [by eapply log_inv_step|by eapply runs_spaced_step].
Qed.
End protocol_lemmas.

(** ** A call as a path of the protocol *)

Section refinement.
Variables (to_vec : CachedResult → option bytes)
          (from_slice : bytes → option CachedResult).
Variables (cfg : nat → CoalesceCache) (others : CoalesceCache → Prop).
Variables (key : string) (io : CacheIo) (i : nat).

Abbreviation step := (pstep to_vec from_slice cfg others key).

(** What the rest of the system does to the world while [i] stays at [p] with
    the lock is a path of the protocol. *)
Definition others_do (p : pc) (g : World → World) : Prop :=
  ∀ s1, pcs s1 !! i = Some p → holder s1 = Some i →
  ∃ s2, rtc step s1 s2 ∧ pcs s2 !! i = Some p ∧ holder s2 = Some i ∧ world s2 = g (world s1).

(** What happens between opening the lock file and the end of the polling: the
    schedule's account of it is a path of the protocol in which [i] waits, and
    the lock is free when the system gave it to [i]. *)
Definition waiting_is (sch : Schedule) (s : PState) : Prop :=
  ∀ w1, p_open key io (world s) = (w1, Ok tt) →
  ∃ s2, rtc step (mkPState w1 (holder s) (<[i := PWaiting]> (pcs s)) (log s)) s2
    ∧ pcs s2 !! i = Some PWaiting ∧ world s2 = (acquire sch w1).1
    ∧ holder s2 ≠ Some i ∧ ((acquire sch w1).2 = Ok tt → holder s2 = None).

(** The call has returned [r] and left the world [w]. *)
Definition ended (w : World) (r : result (CachedResult * CoalesceHitKind) CacheError)
    (s : PState) : Prop :=
  world s = w ∧ pcs s !! i = Some (PDone r) ∧ holder s ≠ Some i.

Lemma ended_step s s1 w r l m :
  rtc step s s1 → step s1 (mkPState w None (<[i := PDone r]> m) l) →
  ∃ s', rtc step s s' ∧ ended w r s'.
Proof.
  intros Hp Hs. eexists. split; [etrans; [exact Hp|by apply rtc_once]|].
  split_and!; simpl; [done|by rewrite lookup_insert_eq|done].
Qed.

Lemma lookup_refines s b w' res :
  io_read io (entry_path key) ≠ ReadGone →
  pcs s !! i = Some (PChecking b) →
  lookup from_slice io (cfg i) key (world s) = (w', res) →
  w' = world s ∧
  match res with
  | Ok None => step s (p_missed cfg i b s)
  | Ok (Some r) =>
      ∃ s', rtc step s s' ∧ ended (p_record (recheck_kind b) w') (Ok (r, recheck_kind b)) s'
  | Err e => ∃ s', rtc step s s' ∧ ended w' (Err e) s'
  end.
Proof.
  intros Hgone Hi Hl. pose proof (lookup_pure from_slice io (cfg i) key (world s)) as Hp.
  rewrite Hl in Hp. simpl in Hp. subst w'. split; [done|].
  unfold lookup, st_bind in Hl.
  destruct (is_fresh io (cfg i) (entry_path key) (world s)) as [w1 [fresh|e]] eqn:E;
    pose proof (is_fresh_pure io (cfg i) (entry_path key) (world s)) as Hp;
    rewrite E in Hp; simpl in Hp; subst w1.
  2: { injection Hl as <-. eapply ended_step; [apply rtc_refl|]. by eapply st_age_error. }
  destruct fresh; simpl in Hl.
  2: { injection Hl as <-. by eapply st_stale. }
  assert (∃ f, dir (world s) !! entry_path key = Some f) as [f Hf].
  { apply is_fresh_ok in E as [_ Hb]. destruct (proj1 Hb eq_refl) as (f & ? & _). eauto. }
  set (s1 := mkPState (world s) (holder s) (<[i := PReading b]> (pcs s)) (log s)).
  assert (rtc step s s1) as H1 by (apply rtc_once; by eapply st_fresh).
  assert (pcs s1 !! i = Some (PReading b)) as Hi1 by apply lookup_insert_eq.
  destruct res as [[r|]|e].
  - eapply ended_step; [exact H1|]. by eapply (st_read_hit _ _ _ _ _ i s1).
  - exfalso. unfold read_entry, st_bind, st_get, st_ret, st_err in Hl. rewrite Hf in Hl.
    destruct (io_read io (entry_path key)); [by destruct (from_slice (data f))|done|done].
  - eapply ended_step; [exact H1|]. by eapply (st_read_error _ _ _ _ _ i s1).
Qed.

Lemma run_refines s f w' res :
  others_do PRunning (λ w, (f w).1) →
  pcs s !! i = Some PRunning → holder s = Some i →
  run_and_store to_vec io (cfg i) key f (world s) = (w', res) →
  ∃ s', rtc step s s' ∧ ended w' res s'.
Proof.
  intros Hf Hi Hh Hrun. destruct (Hf s Hi Hh) as (s1 & H1 & Hi1 & Hh1 & Hw1).
  unfold run_and_store, record_kind, st_bind, st_ret, st_mod in Hrun.
  destruct (f (world s)) as [wf [v|e]]; simpl in Hw1; subst wf.
  2: { injection Hrun as <- <-. eapply ended_step; [exact H1|]. by eapply (st_run_error _ _ _ _ _ i s1). }
  change (into_cached v) with v in Hrun. change (from_cached v) with v in Hrun.
  destruct (exit_code v =? 0) eqn:E; simpl in Hrun; bool_prop.
  - destruct (store to_vec io (cfg i) key v (world s1)) as [ws [[]|e]] eqn:Es;
      injection Hrun as <- <-; (eapply ended_step; [exact H1|]).
    + by eapply (st_run_stored _ _ _ _ _ i s1).
    + by eapply (st_store_error _ _ _ _ _ i s1).
  - injection Hrun as <- <-. eapply ended_step; [exact H1|]. by eapply (st_run_failed _ _ _ _ _ i s1).
Qed.

Lemma missed_runs s s1 b f w' res :
  others_do PRunning (λ w, (f w).1) → rtc step s s1 → holder s1 = Some i →
  step s1 (p_missed cfg i b s1) → b || (debounce (cfg i) =? 0) = true →
  run_and_store to_vec io (cfg i) key f (world s1) = (w', res) →
  ∃ s', rtc step s s' ∧ ended w' res s'.
Proof.
  intros Hf H1 Hh Hm Hb Hrun. unfold p_missed in Hm.
  rewrite <- negb_orb, Hb in Hm. simpl in Hm.
  set (s2 := mkPState _ _ _ _) in Hm.
  destruct (run_refines s2 f w' res Hf) as (s' & H2 & He); [apply lookup_insert_eq|done|done|].
  exists s'. split; [|done]. etrans; [exact H1|]. etrans; [by apply rtc_once|done].
Qed.

Lemma acquire_error sch w w' e :
  acquire sch w = (w', Err e) → e ≠ StillPolling → lock_error e = true.
Proof.
  unfold acquire, acquire_lock_with_deadline.
  assert (∀ fuel tries clock d n b sl, match acquire_lock_loop fuel tries clock d n b sl with
    | Some (Err e', _) => lock_error e' = true | _ => True end) as Hl.
  { intros fuel tries clock d. induction fuel as [|fuel IH]; intros n b sl; simpl; [done|].
    destruct (tries n); [done| |done]. destruct (d <=? system_elapsed clock n); [done|apply IH]. }
  specialize (Hl 200%nat (lock_tries sch) (lock_clock sch) LOCK_DEADLINE 0%nat 5 0).
  destruct (acquire_lock_loop _ _ _ _ _ _ _) as [[[] ?]|]; intros; simplify_eq; done.
Qed.

(** The part of a call after the lock was taken. *)
Lemma held_refines s sch f w' res :
  io_read io (entry_path key) ≠ ReadGone →
  others_do PDebouncing (λ w, advance (debounce (cfg i)) (during_debounce sch w)) →
  others_do PRunning (λ w, (f w).1) →
  pcs s !! i = Some (PChecking false) → holder s = Some i →
  (hit <- lookup from_slice io (cfg i) key ;;
   match hit with
   | Some cached => record_kind LockRecheck ;;; st_ret (from_cached cached, LockRecheck)
   | None =>
       if negb (debounce (cfg i) =? 0)
       then
         st_mod (λ w, advance (debounce (cfg i)) (during_debounce sch w)) ;;;
         hit2 <- lookup from_slice io (cfg i) key ;;
         match hit2 with
         | Some cached =>
             record_kind DebounceRecheck ;;; st_ret (from_cached cached, DebounceRecheck)
         | None => run_and_store to_vec io (cfg i) key f
         end
       else run_and_store to_vec io (cfg i) key f
   end) (world s) = (w', res) →
  ∃ s', rtc step s s' ∧ ended w' res s'.
Proof.
  intros Hio Hdeb Hf Hi Hh. unfold st_bind at 1.
  destruct (lookup from_slice io (cfg i) key (world s)) as [w1 r1] eqn:El.
  destruct (lookup_refines s false w1 r1 Hio Hi El) as [-> H1].
  destruct r1 as [[r|]|e].
  - unfold record_kind, st_bind, st_mod, st_ret. intros [= <- <-]. exact H1.
  - destruct (debounce (cfg i) =? 0) eqn:Ed; simpl.
    + apply (missed_runs s s false); [done|apply rtc_refl|done|done|by rewrite Ed].
    + unfold p_missed in H1. rewrite Ed in H1. simpl in H1.
      unfold st_bind, st_mod.
      set (s1 := mkPState (world s) (holder s) (<[i := PDebouncing]> (pcs s)) (log s)) in H1.
      destruct (Hdeb s1) as (s2 & H2 & Hi2 & Hh2 & Hw2); [apply lookup_insert_eq|done|].
      simpl in Hw2. rewrite <- Hw2. clear Hw2.
      set (s3 := mkPState (world s2) (holder s2) (<[i := PChecking true]> (pcs s2)) (log s2)).
      assert (rtc step s s3) as H3.
      { etrans; [by apply rtc_once|]. etrans; [exact H2|]. by apply rtc_once, st_debounced. }
      destruct (lookup from_slice io (cfg i) key (world s2)) as [w3 r3] eqn:El3.
      destruct (lookup_refines s3 true w3 r3 Hio) as [Hw3 H4]; [apply lookup_insert_eq|done|].
      simpl in Hw3. subst w3.
      destruct r3 as [[r|]|e].
      * unfold record_kind, st_bind, st_mod, st_ret. intros [= <- <-].
        destruct H4 as (s' & H4 & He). exists s'. split; [by etrans|done].
      * by apply (missed_runs s s3 true).
      * intros [= <- <-]. destruct H4 as (s' & H4 & He). exists s'. split; [by etrans|done].
  - intros [= <- <-]. exact H1.
Qed.
End refinement.

(** * Properties *)

(** C4: in every reachable state at most one process is between acquiring the
    lock and leaving [with_lock_detailed]: re-check, debounce and command
    execution for a key are mutually exclusive. *)
Theorem lock_mutual_exclusion to_vec from_slice cfg others key w s i j p q :
  rtc (pstep to_vec from_slice cfg others key) (p_init w) s →
  pcs s !! i = Some p → in_critical p = true →
  pcs s !! j = Some q → in_critical q = true → i = j.
Proof.
  intros Hr Hi Hp Hj Hq. apply lock_inv_reachable in Hr as Hinv.
  assert (holder s = Some i) as H1 by (apply Hinv; eauto).
  assert (holder s = Some j) as H2 by (apply Hinv; eauto). congruence.
Qed.

(** Two rules on one root: five minutes, the default, and ten seconds. *)
Definition demo_cfg (i : nat) : CoalesceCache := cache_new.
Definition short_rule (c : CoalesceCache) : Prop := c = mkCache 10000 0.
Abbreviation demo_step := (pstep simple_to_vec simple_from_slice demo_cfg short_rule "k").

Definition demo_state : PState := p_init demo_world.
Definition dw1 : World := (open_lock io_good "k" demo_world).1.
Definition demo_result : CachedResult := mkCached 0 [x61] [].

(** Process 1 runs the command. *)
Definition demo_alone : PState :=
  mkPState dw1 (Some 1%nat)
    (<[1%nat := PRunning]> (<[1%nat := PChecking false]> (<[1%nat := PWaiting]> ∅)))
    [EvStart 1 1000].

(** Process 1 runs the command, process 2 waits for the lock. *)
Definition demo_contended : PState :=
  mkPState dw1 (Some 1%nat)
    (<[2%nat := PWaiting]> (<[1%nat := PRunning]> (<[1%nat := PChecking false]>
       (<[1%nat := PWaiting]> ∅)))) [EvStart 1 1000].

(** Process 1 from its arrival to the start of the command. *)
Lemma demo_running_reachable : rtc demo_step demo_state demo_alone.
Proof.
  eapply rtc_l; [apply (st_arrive _ _ _ _ _ 1%nat _ io_good); reflexivity|].
  eapply rtc_l; [apply (st_acquire _ _ _ _ _ 1%nat); reflexivity|].
  eapply rtc_l; [apply (st_stale _ _ _ _ _ 1%nat _ io_good false); reflexivity|].
  apply rtc_refl.
Defined.

Lemma demo_contended_reachable : rtc demo_step demo_state demo_contended.
Proof.
  etrans; [exact demo_running_reachable|].
  apply rtc_once.
  exact (st_arrive simple_to_vec simple_from_slice demo_cfg short_rule "k" 2%nat demo_alone io_good dw1
    eq_refl eq_refl).
Defined.

Lemma lock_mutual_exclusion_witness :
  pcs demo_contended !! 2%nat = Some PWaiting ∧ pcs demo_contended !! 1%nat = Some PRunning
  ∧ ∀ j q, pcs demo_contended !! j = Some q → in_critical q = true → 1%nat = j.
Proof.
  split; [reflexivity|]. split; [reflexivity|]. intros j q Hj Hq.
  apply (lock_mutual_exclusion simple_to_vec simple_from_slice demo_cfg short_rule "k" demo_world
    demo_contended 1%nat j PRunning q demo_contended_reachable); [reflexivity|reflexivity|done|done].
Defined.

(** C2: at most one execution per freshness window. Whatever the interleaving
    and whichever system calls fail, if a run of the command stored its success
    at time [t], the next run of the same key starts no earlier than [t + T],
    for every [T] that no TTL in use on the cache root is below: every caller
    in between is served from the cache or fails. A store, sweep included, is
    one step, and time does not go back. *)
Theorem at_most_one_run_per_ttl to_vec from_slice cfg others key T w s l1 l2 i j start t :
  ttl_floor cfg others T →
  rtc (pstep to_vec from_slice cfg others key) (p_init w) s →
  log s = l1 ++ EvStart j start :: l2 → EvSuccess i t ∈ l2 → t + T ≤ start.
Proof.
  intros HT Hr Heq Hin. eapply runs_spaced_reachable in Hr as (_ & Hsp); [|exact HT].
  by eapply Hsp.
Qed.

Definition dw2 : World := (store simple_to_vec io_good cache_new "k" demo_result dw1).1.
Definition dw3 : World := advance 20000 (p_record Miss dw2).
Definition dw4 : World := (store simple_to_vec io_good (mkCache 10000 0) "z" demo_result dw3).1.
Definition demo_second : PState :=
  mkPState dw4 (Some 2%nat)
    (<[2%nat := PRunning]> (<[2%nat := PChecking false]> (<[2%nat := PWaiting]>
       (<[1%nat := PDone (Ok (demo_result, Miss))]> (<[1%nat := PRunning]>
         (<[1%nat := PChecking false]> (<[1%nat := PWaiting]> ∅)))))))
    [EvStart 2 21000; EvSuccess 1 1000; EvStart 1 1000].

(** Twenty seconds after a success under the five-minute rule, a store under
    the ten-second rule sweeps the entry, and the command runs again. *)
Lemma demo_second_reachable : rtc demo_step demo_state demo_second.
Proof.
  etrans; [exact demo_running_reachable|].
  eapply rtc_l; [apply (st_run_stored _ _ _ _ _ 1%nat _ io_good demo_result dw2);
    [reflexivity|reflexivity|vm_compute; reflexivity]|].
  eapply rtc_l; [apply (st_tick _ _ _ _ _ _ 20000); lia|].
  eapply rtc_l; [apply (st_other_store _ _ _ _ _ _ io_good (mkCache 10000 0) "z" demo_result dw4 (Ok tt));
    [reflexivity|vm_compute; reflexivity]|].
  eapply rtc_l; [apply (st_arrive _ _ _ _ _ 2%nat _ io_good dw4); [reflexivity|vm_compute; reflexivity]|].
  eapply rtc_l; [apply (st_acquire _ _ _ _ _ 2%nat); reflexivity|].
  eapply rtc_l; [apply (st_stale _ _ _ _ _ 2%nat _ io_good false);
    [reflexivity|vm_compute; reflexivity]|].
  apply rtc_refl.
Defined.

Lemma at_most_one_run_per_ttl_witness :
  ttl_floor demo_cfg short_rule 10000
  ∧ log demo_second = [] ++ EvStart 2 21000 :: [EvSuccess 1 1000; EvStart 1 1000]
  ∧ 1000 + 10000 ≤ 21000.
Proof.
  assert (ttl_floor demo_cfg short_rule 10000) as HT.
  { split; [intros i; vm_compute; discriminate|]. intros c' ->. simpl. lia. }
  split; [exact HT|]. split; [reflexivity|].
  apply (at_most_one_run_per_ttl simple_to_vec simple_from_slice demo_cfg short_rule "k" 10000
    demo_world demo_second [] [EvSuccess 1 1000; EvStart 1 1000] 1%nat 2%nat 21000 1000 HT
    demo_second_reachable); [reflexivity|left].
Defined.

(** The TTL of a rule alone promises nothing when a shorter one shares its
    root: both processes have five minutes, and the second run starts after
    twenty seconds. *)
Lemma short_rule_reruns_long_rule :
  ∃ s, rtc demo_step demo_state s
    ∧ log s = [EvStart 2 21000; EvSuccess 1 1000; EvStart 1 1000]
    ∧ 21000 < 1000 + ttl (demo_cfg 2).
Proof. exists demo_second. split; [exact demo_second_reachable|]. by vm_compute. Qed.

(** A sweep reads the age of an entry and then removes it by name: a result
    stored in between is removed although it is new. *)
Lemma sweep_race_removes_new_entry :
  let w := mkWorld 400000 {["k.json" := mkFile 0 []]} coalesce_meters_zero in
  let w1 := (store simple_to_vec io_good cache_new "k" demo_result w).1 in
  (is_fresh io_good cache_new "k.json" w).2 = Ok false
  ∧ (lookup simple_from_slice io_good cache_new "k" w1).2 = Ok (Some demo_result)
  ∧ (lookup simple_from_slice io_good cache_new "k"
       (set_dir (delete "k.json" (dir w1)) w1)).2 = Ok None.
Proof. by vm_compute. Qed.

Lemma advance_0 w : advance 0 w = w.
Proof. destruct w. unfold advance. simpl. by rewrite Z.add_0_r. Qed.

(** C39: a call of [with_lock_detailed] that returns is a path of the protocol
    to a state with the same world, the call's own answer, and the lock not
    held by it. The system calls may fail in any way, the lock may be busy, and
    the closure is arbitrary; what others do while the call waits, sleeps or
    runs the command is itself a path of the protocol. An entry removed between
    the check of its age and its reading is a step of the protocol and not an
    answer of the call's own system calls. *)
Theorem with_lock_refines_protocol to_vec from_slice cfg others key io i s sch f w' res :
  pcs s !! i = None → holder s ≠ Some i → io_read io (entry_path key) ≠ ReadGone →
  waiting_is to_vec from_slice cfg others key io i sch s →
  others_do to_vec from_slice cfg others key i PDebouncing
    (λ w, advance (debounce (cfg i)) (during_debounce sch w)) →
  others_do to_vec from_slice cfg others key i PRunning (λ w, (f w).1) →
  with_lock_detailed to_vec from_slice io (cfg i) sch key f (world s) = (w', res) →
  res ≠ Err StillPolling →
  ∃ s', rtc (pstep to_vec from_slice cfg others key) s s' ∧ ended i w' res s'.
Proof.
  intros Hi Hh Hio Hwait Hdeb Hf Hw Hret.
  unfold with_lock_detailed in Hw.
  assert (∀ X (g : stm World CacheError X),
    (ensure_root io ;;; open_lock io key ;;; g) (world s) = (p_open key io ;;; g) (world s)) as Hassoc.
  { intros X g. unfold p_open, ensure_root, st_bind, st_lift. by destruct (io_check _ _). }
  rewrite Hassoc in Hw. clear Hassoc. unfold st_bind at 1 in Hw.
  destruct (p_open key io (world s)) as [w1 [[]|e]] eqn:Eo.
  2: { injection Hw as <- <-. eexists. split; [apply rtc_once; by eapply (st_arrive_error _ _ _ _ _ i)|].
       split_and!; simpl; [done|by rewrite lookup_insert_eq|done]. }
  destruct (Hwait w1 Eo) as (s2 & H2 & Hi2 & Hw2 & Hn2 & Hfree).
  assert (rtc (pstep to_vec from_slice cfg others key) s s2) as Hpre.
  { etrans; [|exact H2]. apply rtc_once. by eapply (st_arrive _ _ _ _ _ i). }
  clear H2. unfold st_bind at 1 in Hw.
  destruct (acquire sch w1) as [wa [[]|e]] eqn:Ea; simpl in Hw2, Hfree; subst wa.
  - set (s3 := mkPState (world s2) (Some i) (<[i := PChecking false]> (pcs s2)) (log s2)).
    destruct (held_refines to_vec from_slice cfg others key io i s3 sch f w' res) as (s' & H3 & He);
      [done|done|done|apply lookup_insert_eq|done|exact Hw|].
    exists s'. split; [|done]. etrans; [exact Hpre|]. etrans; [|exact H3].
    apply rtc_once, st_acquire; auto.
  - injection Hw as <- <-. apply acquire_error in Ea; [|congruence].
    eexists. split; [etrans; [exact Hpre|]; apply rtc_once; by eapply (st_lock_error _ _ _ _ _ i)|].
    split_and!; simpl; [done|by rewrite lookup_insert_eq|done].
Qed.

(** Process 1 has the lock and runs the command; process 2 calls, finds the
    lock busy three times, and then what process 1 stored. *)
Definition busy_thrice : Schedule :=
  mkSchedule (λ n, if (n <? 3)%nat then WouldBlock else Acquired) slept_before
    (λ w, p_record Miss (store simple_to_vec io_good cache_new "k" demo_result w).1) id.

Lemma busy_thrice_is_a_path :
  waiting_is simple_to_vec simple_from_slice demo_cfg short_rule "k" io_good 2 busy_thrice demo_alone.
Proof.
  intros w1 Ho. assert (w1 = dw1) as -> by (vm_compute in Ho; injection Ho as <-; reflexivity).
  eexists. split.
  { eapply rtc_l; [apply (st_run_stored _ _ _ _ _ 1%nat _ io_good demo_result dw2);
      [reflexivity|reflexivity|vm_compute; reflexivity]|].
    apply rtc_once, (st_tick _ _ _ _ _ _ 35). lia. }
  split; [reflexivity|]. split; [vm_compute; reflexivity|]. split; [discriminate|]. reflexivity.
Defined.

Lemma with_lock_refines_protocol_witness :
  ∃ s', rtc demo_step demo_alone s'
    ∧ ended 2 (p_record LockRecheck (advance 35 (p_record Miss dw2))) (Ok (demo_result, LockRecheck)) s'.
Proof.
  apply (with_lock_refines_protocol simple_to_vec simple_from_slice demo_cfg short_rule "k" io_good
    2%nat demo_alone busy_thrice (demo_run 7));
    [reflexivity|discriminate|discriminate|exact busy_thrice_is_a_path| | |vm_compute; reflexivity|discriminate].
  - intros s1 Hi Hh. exists s1. split; [apply rtc_refl|]. by rewrite advance_0.
  - intros s1 Hi Hh. exists s1. split; [apply rtc_refl|]. done.
Defined.
