(* ===== verification/SlotQueue.v ===== *)
(** The N-slot priority queue of crates/sharecli-ipc/src/queue.rs: priorities,
    waiter tickets, rank ageing, the turn decision and [with_slot].

    One lane is modelled: its waiting directory is a set of file names and its
    slot locks a set of held slot numbers. Other processes act at every point
    where the code looks at the file system; their actions and the outcome of
    every fallible system call are arguments. Times are in milliseconds, and one
    clock serves for both [Instant] and [SystemTime]. *)
From S2P Require Import Prelude FleetGate.

(** * Priorities *)

Inductive QueuePriority : Type := Critical | High | Normal | Low | Background.
#[global] Instance queue_priority_eq_dec : EqDecision QueuePriority.
Proof. solve_decision. Defined.

Definition priority_parse (name : string) : QueuePriority :=
  let s := to_ascii_lowercase (trim name) in
  if bool_decide (s = "critical") then Critical
  else if bool_decide (s = "high") then High
  else if bool_decide (s = "low") then Low
  else if bool_decide (s = "background") then Background
  else Normal.

Definition priority_rank (p : QueuePriority) : Z :=
  match p with Critical => 0 | High => 1 | Normal => 2 | Low => 3 | Background => 4 end.

(** [resolve_operator_queue_priority]: the environment variable, the rule. *)
Definition resolve_operator_queue_priority (env_var rule : option string) : QueuePriority :=
  match env_var with
  | Some raw =>
      if negb (str_is_empty (trim raw)) then priority_parse raw
      else default Normal (priority_parse <$> rule)
  | None => default Normal (priority_parse <$> rule)
  end.

(** * Tickets *)

(** [format!("{:02}.{}.{}.{}", rank, now, pid, seq)]. *)
Definition ticket_name (p : QueuePriority) (now_secs pid seq : Z) : string :=
  show_u02 (priority_rank p) +:+ "." +:+ show_u now_secs +:+ "." +:+ show_u pid
    +:+ "." +:+ show_u seq.

Definition ticket_priority (ticket : string) : Z :=
  match split_on "." ticket with
  | head :: _ => default (priority_rank Normal) (parse_uint u8_max head)
  | [] => priority_rank Normal
  end.

(** The enqueue second of a ticket, [now_secs] when it does not parse. *)
Definition ticket_secs (now_secs : Z) (ticket : string) : Z :=
  match split_on "." ticket !! 1%nat with
  | Some s => default now_secs (parse_uint u64_max s)
  | None => now_secs
  end.

Definition AGING_STEP_MS : Z := 1000.

(** [effective_rank]: note the truncating cast of the number of steps. *)
Definition effective_rank (base : QueuePriority) (waited_ms : Z) : Z :=
  let decay_steps := as_u8 (waited_ms / AGING_STEP_MS) in
  Z.min (saturating_add u8_max (priority_rank base) decay_steps) u8_max.

Definition rank_priority (r : Z) : QueuePriority :=
  if r =? 0 then Critical else if r =? 1 then High else if r =? 2 then Normal
  else if r =? 3 then Low else Background.

Definition peer_waited_ms (now_secs t_secs : Z) : Z :=
  if t_secs <=? now_secs then Z.min ((now_secs - t_secs) * 1000) u64_max else 0.

(** The aged rank of a ticket found in the waiting directory. *)
Definition peer_effective (now_secs : Z) (ticket : string) : Z :=
  effective_rank (rank_priority (ticket_priority ticket))
    (peer_waited_ms now_secs (ticket_secs now_secs ticket)).

(** * The turn decision *)

(** What [read_dir] gave; an entry carries its name and whether it is a file. *)
Inductive WaitingDir : Type :=
| WdMissing
| WdError (msg : string)
| WdEntries (l : list (result (string * bool) string)).

Fixpoint scan_entries (now_secs : Z) (l : list (result (string * bool) string))
    (best : Z) (at_best : list string) : result (Z * list string) string :=
  match l with
  | [] => Ok (best, at_best)
  | Err e :: _ => Err e
  | Ok (ticket, is_file) :: rest =>
      if negb is_file then scan_entries now_secs rest best at_best
      else if starts_with "." ticket then scan_entries now_secs rest best at_best
      else
        let eff := peer_effective now_secs ticket in
        if eff <? best then scan_entries now_secs rest eff [ticket]
        else if eff =? best then scan_entries now_secs rest best (at_best ++ [ticket])
        else scan_entries now_secs rest best at_best
  end.

Definition str_min (a b : string) : string := if String.leb a b then a else b.

(** [tickets.iter().min()]. *)
Definition min_ticket (l : list string) : option string :=
  match l with [] => None | x :: l' => Some (foldl str_min x l') end.

Definition is_my_turn (wd : WaitingDir) (now_secs : Z) (my_priority : QueuePriority)
    (my_ticket : string) (my_elapsed_ms : Z) : result bool string :=
  match wd with
  | WdMissing => Ok true
  | WdError e => Err e
  | WdEntries l =>
      let my_effective := effective_rank my_priority my_elapsed_ms in
      match scan_entries now_secs l u8_max [] with
      | Err e => Err e
      | Ok (best, at_best) =>
          Ok (if best =? u8_max then true
              else if best <? my_effective then false
              else if my_effective <? best then true
              else bool_decide (default my_ticket (min_ticket at_best) = my_ticket))
      end
  end.

(** * with_slot *)

Record QWorld : Type := mkQWorld {
  qnow : Z;
  waiting : gset string;
  held : gset nat;
  qmeters : SlotQueueMeters;
}.

Definition q_waiting (f : gset string → gset string) (w : QWorld) : QWorld :=
  mkQWorld (qnow w) (f (waiting w)) (held w) (qmeters w).
Definition q_held (f : gset nat → gset nat) (w : QWorld) : QWorld :=
  mkQWorld (qnow w) (waiting w) (f (held w)) (qmeters w).
Definition q_meter (f : SlotQueueMeters → SlotQueueMeters) (w : QWorld) : QWorld :=
  mkQWorld (qnow w) (waiting w) (held w) (f (qmeters w)).
Definition q_sleep (ms : Z) (w : QWorld) : QWorld :=
  mkQWorld (qnow w + ms) (waiting w) (held w) (qmeters w).

Record SlotQueue : Type := mkQueue { max_concurrent : nat; timeout : Z; poll : Z }.

Definition queue_with_options (max_conc : nat) (timeout poll : Z) : SlotQueue :=
  mkQueue (Nat.max max_conc 1) timeout poll.
Definition DEFAULT_TIMEOUT : Z := 30000.
Definition DEFAULT_POLL : Z := 100.
Definition queue_new (max_conc : nat) : SlotQueue :=
  queue_with_options (Nat.max max_conc 1) DEFAULT_TIMEOUT DEFAULT_POLL.

Inductive QueueError : Type :=
| QCreateRoot (msg : string)
| QCreateWaiting (msg : string)
| QWriteTicket (msg : string)
| QPublishTicket (msg : string)
| QScan (msg : string)
| QOpenSlot (msg : string)
| QTimeout
| QRun (msg : string).

(** Other processes, and the outcomes of the fallible calls, at the [n]-th point
    where this process looks at the world. *)
Record QueueEnv : Type := mkQueueEnv {
  others : nat → QWorld → QWorld;
  qio_root : option string;
  qio_waiting : option string;
  qio_write : option string;
  qio_publish : option string;
  qio_scan : nat → option string;
  qio_open : nat → option string;
}.

Definition env_quiet : QueueEnv :=
  mkQueueEnv (λ _ w, w) None None None None (λ _, None) (λ _, None).

Definition listing (w : QWorld) : list (result (string * bool) string) :=
  (λ t, Ok (t, true)) <$> elements (waiting w).

Section with_slot.
Variable q : SlotQueue.
Variable env : QueueEnv.
Variable prio : QueuePriority.

(** [enqueue_waiter]: write a dot-file, rename it to the ticket. *)
Definition enqueue_waiter (pid seq : Z) : stm QWorld QueueError string :=
  w <- st_get ;;
  let ticket := ticket_name prio (qnow w / 1000) pid seq in
  let tmp := "." +:+ ticket +:+ ".tmp" in
  match qio_waiting env with
  | Some e => st_err (QCreateWaiting e)
  | None =>
      match qio_write env with
      | Some e => st_err (QWriteTicket e)
      | None =>
          st_mod (q_waiting (λ s, {[tmp]} ∪ s)) ;;;
          match qio_publish env with
          | Some e => st_err (QPublishTicket e)
          | None => st_mod (q_waiting (λ s, {[ticket]} ∪ (s ∖ {[tmp]}))) ;;; st_ret ticket
          end
      end
  end.

Section holding.
Variables (ticket : string) (enqueued_at : Z).
Context {T : Type} (f : stm QWorld QueueError T).

(** [is_my_turn] against the directory as it is at point [n]. *)
Definition turn_at (n : nat) (w : QWorld) : result bool QueueError :=
  match qio_scan env n with
  | Some e => Err (QScan e)
  | None =>
      match is_my_turn (WdEntries (listing w)) (qnow w / 1000) prio ticket
              (qnow w - enqueued_at) with
      | Ok b => Ok b
      | Err e => Err (QScan e)
      end
  end.

(** The slot was taken: drop the ticket, release the guard, run, unlock. *)
Definition run_in_slot (slot : nat) (w : QWorld) : QWorld * result T QueueError :=
  let w1 := q_meter record_slot_acquire (q_waiting (λ s, s ∖ {[ticket]}) w) in
  let '(w2, r) := f w1 in
  (q_held (λ h, h ∖ {[slot]}) w2, r).

(** The outcome of the scan over the slots: a return from the closure, with
    the flag [cleaned] of the ticket guard, or nothing acquired. *)
Inductive scan_result : Type :=
| SlotReturn (w : QWorld) (cleaned : bool) (r : result T QueueError)
| SlotNone (w : QWorld) (n : nat).

(** [for slot in 0..max_concurrent]. *)
Fixpoint try_slots (slots : list nat) (n : nat) (w : QWorld) : scan_result :=
  match slots with
  | [] => SlotNone w n
  | slot :: rest =>
      match qio_open env n with
      | Some e => SlotReturn w false (Err (QOpenSlot e))
      | None =>
          let w1 := others env n w in
          if bool_decide (slot ∈ held w1) then try_slots rest (S n) w1
          else
            let w2 := others env (S n) (q_held (λ h, {[slot]} ∪ h) w1) in
            match turn_at (S n) w2 with
            | Err e => SlotReturn (q_held (λ h, h ∖ {[slot]}) w2) false (Err e)
            | Ok false =>
                try_slots rest (S (S n))
                  (q_sleep (poll q) (q_meter record_slot_wait
                     (q_held (λ h, h ∖ {[slot]}) w2)))
            | Ok true => let '(w3, r) := run_in_slot slot w2 in SlotReturn w3 true r
            end
      end
  end.

(** The waiting loop; [None] means that the fuel ran out. *)
Fixpoint slot_loop (fuel n : nat) (deadline : Z) (w : QWorld)
  : option (QWorld * bool * result T QueueError) :=
  match fuel with
  | O => None
  | S fuel' =>
      let w1 := others env n w in
      if deadline <=? qnow w1
      then Some (q_meter record_slot_timeout w1, false, Err QTimeout)
      else
        match turn_at n w1 with
        | Err e => Some (w1, false, Err e)
        | Ok false =>
            slot_loop fuel' (S n) deadline (q_sleep (poll q) (q_meter record_slot_wait w1))
        | Ok true =>
            match try_slots (seq 0 (max_concurrent q)) (S n) w1 with
            | SlotReturn w2 cleaned r => Some (w2, cleaned, r)
            | SlotNone w2 n2 =>
                slot_loop fuel' n2 deadline (q_sleep (poll q) (q_meter record_slot_wait w2))
            end
        end
  end.
End holding.

(** The drop of [WaiterTicketGuard]: unlinks the ticket unless it was
    released. *)
Definition guard_drop (cleaned : bool) (ticket : string) (w : QWorld) : QWorld :=
  if cleaned then w else q_waiting (λ s, s ∖ {[ticket]}) w.

Definition with_slot {T} (fuel : nat) (pid seq : Z) (f : stm QWorld QueueError T)
    (w : QWorld) : option (QWorld * result T QueueError) :=
  match qio_root env with
  | Some e => Some (w, Err (QCreateRoot e))
  | None =>
      match enqueue_waiter pid seq w with
      | (w1, Err e) => Some (w1, Err e)
      | (w1, Ok ticket) =>
          match slot_loop ticket (qnow w1) f fuel 0 (qnow w1 + timeout q) w1 with
          | None => None
          | Some (w2, cleaned, r) => Some (guard_drop cleaned ticket w2, r)
          end
      end
  end.
End with_slot.

(** * Tickets and ranks *)

Lemma priority_rank_range p : 0 ≤ priority_rank p ≤ 4.
Proof. destruct p; simpl; lia. Qed.

Lemma rank_priority_rank p : rank_priority (priority_rank p) = p.
Proof. by destruct p. Qed.

Lemma split_ticket p secs pid seq :
  split_on "." (ticket_name p secs pid seq) =
  [show_u02 (priority_rank p); show_u secs; show_u pid; show_u seq].
Proof.
  unfold ticket_name. rewrite !str_app_cons, !str_app_nil_l.
  rewrite split_on_app by (by apply has_char_show_u02). f_equal.
  rewrite !split_on_app by (by apply has_char_show_u). do 2 f_equal.
  apply split_on_no_char. by apply has_char_show_u.
Qed.

Lemma ticket_visible p secs pid seq : starts_with "." (ticket_name p secs pid seq) = false.
Proof. by destruct p. Qed.

Lemma ticket_priority_name p secs pid seq :
  ticket_priority (ticket_name p secs pid seq) = priority_rank p.
Proof.
  unfold ticket_priority. rewrite split_ticket.
  rewrite parse_uint_show02; [done|]. pose proof (priority_rank_range p). unfold u8_max. lia.
Qed.

Lemma ticket_secs_name now p secs pid seq :
  0 ≤ secs ≤ u64_max → ticket_secs now (ticket_name p secs pid seq) = secs.
Proof.
  intros H. unfold ticket_secs. rewrite split_ticket. simpl. by rewrite parse_uint_show.
Qed.

#[export] Hint Resolve ticket_visible : rust.

Lemma effective_rank_young p ms :
  0 ≤ ms < 251000 → effective_rank p ms = priority_rank p + ms / 1000.
Proof.
  intros H. unfold effective_rank, saturating_add, as_u8, AGING_STEP_MS, u8_max.
  pose proof (priority_rank_range p).
  assert (0 ≤ ms / 1000 < 251).
  { split; [apply Z.div_pos; lia | apply Z.div_lt_upper_bound; lia]. }
  rewrite (Z.mod_small (ms / 1000)) by lia. lia.
Qed.

(** A waiter as the turn decision sees it: what its ticket says, and for how
    long it has been waiting by its own clock. *)
Record Waiter : Type := mkWaiter {
  w_prio : QueuePriority; w_secs : Z; w_pid : Z; w_seq : Z; w_elapsed : Z }.
#[global] Instance waiter_eq_dec : EqDecision Waiter.
Proof. solve_decision. Defined.
Definition waiter_ticket (w : Waiter) : string :=
  ticket_name (w_prio w) (w_secs w) (w_pid w) (w_seq w).

(** All processes read one clock, in milliseconds: the ticket has the second at
    which the waiter came, and it has waited since then, for less than 250 s. *)
Definition on_one_clock (now_ms : Z) (w : Waiter) : Prop :=
  0 ≤ w_elapsed w < 250000 ∧ w_elapsed w ≤ now_ms ∧ now_ms / 1000 ≤ u64_max ∧
  w_secs w = (now_ms - w_elapsed w) / 1000.

(** The rank a waiter gives itself, from its elapsed time, and the rank its peers
    give it, from the whole seconds between its ticket and now. *)
Definition waiter_rank (w : Waiter) : Z := effective_rank (w_prio w) (w_elapsed w).
Definition seen_rank (now_ms : Z) (w : Waiter) : Z :=
  peer_effective (now_ms / 1000) (waiter_ticket w).

(** The whole seconds between two instants, and the whole part of their distance. *)
Lemma seconds_between a b :
  0 ≤ a ≤ b → b / 1000 - a / 1000 = (b - a) / 1000 ∨ b / 1000 - a / 1000 = (b - a) / 1000 + 1.
Proof.
  intros H. pose proof (Z.div_mod a 1000 ltac:(lia)). pose proof (Z.mod_pos_bound a 1000 eq_refl).
  pose proof (Z.div_mod b 1000 ltac:(lia)). pose proof (Z.mod_pos_bound b 1000 eq_refl).
  pose proof (Z.div_mod (b - a) 1000 ltac:(lia)). pose proof (Z.mod_pos_bound (b - a) 1000 eq_refl).
  lia.
Qed.

Lemma seen_rank_eq now w :
  on_one_clock now w → seen_rank now w = priority_rank (w_prio w) + (now / 1000 - w_secs w).
Proof.
  intros (He & Hn & Hu & Hs). unfold seen_rank, peer_effective, waiter_ticket.
  pose proof (seconds_between (now - w_elapsed w) now ltac:(lia)) as Hd.
  replace (now - (now - w_elapsed w)) with (w_elapsed w) in Hd by lia. rewrite <- Hs in Hd.
  assert (0 ≤ w_elapsed w / 1000 < 250).
  { split; [apply Z.div_pos; lia | apply Z.div_lt_upper_bound; lia]. }
  assert (0 ≤ w_secs w) by (rewrite Hs; apply Z.div_pos; lia).
  rewrite ticket_priority_name, rank_priority_rank, ticket_secs_name by lia.
  unfold peer_waited_ms. rewrite (proj2 (Z.leb_le _ _)) by lia.
  rewrite Z.min_l by (unfold u64_max; lia).
  rewrite effective_rank_young by lia. rewrite Z.div_mul by lia. lia.
Qed.

(** A waiter ranks itself as its peers do, or one better: a second may have ended
    on the clock while less than a second has gone by. *)
Lemma seen_rank_bounds now w :
  on_one_clock now w →
  waiter_rank w ≤ seen_rank now w ≤ waiter_rank w + 1 ∧ seen_rank now w < u8_max.
Proof.
  intros H. rewrite (seen_rank_eq now w H). destruct H as (He & Hn & Hu & Hs).
  unfold waiter_rank. rewrite effective_rank_young by lia.
  pose proof (seconds_between (now - w_elapsed w) now ltac:(lia)) as Hd.
  replace (now - (now - w_elapsed w)) with (w_elapsed w) in Hd by lia. rewrite <- Hs in Hd.
  pose proof (priority_rank_range (w_prio w)).
  assert (0 ≤ w_elapsed w / 1000 < 250).
  { split; [apply Z.div_pos; lia | apply Z.div_lt_upper_bound; lia]. }
  unfold u8_max. lia.
Qed.

(** * The turn decision *)

Definition files (l : list string) : list (result (string * bool) string) :=
  (λ t, Ok (t, true)) <$> l.

Definition visible (t : string) : Prop := starts_with "." t = false.

(** What the scan of the directory computes: the best aged rank and the tickets
    that have it. *)
Lemma scan_entries_spec now l best acc :
  ∃ b a, scan_entries now (files l) best acc = Ok (b, a) ∧ b ≤ best ∧
    (∀ t, t ∈ l → visible t → b ≤ peer_effective now t) ∧
    (b = best ∨ ∃ t, t ∈ l ∧ visible t ∧ peer_effective now t = b) ∧
    (∀ t, t ∈ a ↔ (t ∈ l ∧ visible t ∧ peer_effective now t = b) ∨ (b = best ∧ t ∈ acc)).
Proof.
  unfold visible. revert best acc. induction l as [|x l IH]; intros best acc.
  { exists best, acc. split_and!; [done|lia|by intros ? ?%elem_of_nil|by left|].
    intros t. rewrite elem_of_nil. naive_solver. }
  change (files (x :: l)) with (Ok (x, true) :: files l).
  cbn [scan_entries negb]. cbv zeta.
  destruct (starts_with "." x) eqn:Hx.
  { destruct (IH best acc) as (b & a & ? & ? & Hmin & Hw & Ha). exists b, a. split; [done|].
    split; [done|]. split; [|split].
    - intros t [->|]%elem_of_cons; [congruence|auto].
    - destruct Hw as [?|(t&?&?&?)]; [by left|right; exists t; set_solver].
    - intros t. rewrite Ha, elem_of_cons. naive_solver congruence. }
  destruct (peer_effective now x <? best) eqn:Hlt.
  { apply Z.ltb_lt in Hlt.
    destruct (IH (peer_effective now x) [x]) as (b & a & ? & ? & Hmin & Hw & Ha).
    exists b, a. split; [done|]. split; [lia|]. split; [|split].
    - intros t [->|]%elem_of_cons; auto with lia.
    - right. destruct Hw as [->|(t&?&?&?)]; [exists x; set_solver|exists t; set_solver].
    - intros t. rewrite Ha, list_elem_of_singleton, elem_of_cons.
      split; [naive_solver|].
      intros [([->|Hin] & Hv & He)|[-> _]]; [right; by split|by left|lia]. }
  apply Z.ltb_ge in Hlt.
  destruct (peer_effective now x =? best) eqn:Heq; bool_prop.
  - destruct (IH best (acc ++ [x])) as (b & a & ? & ? & Hmin & Hw & Ha).
    exists b, a. split; [done|]. split; [done|]. split; [|split].
    + intros t [->|]%elem_of_cons; auto with lia.
    + destruct Hw as [?|(t&?&?&?)]; [by left|right; exists t; set_solver].
    + intros t. rewrite Ha, elem_of_app, list_elem_of_singleton, elem_of_cons.
      split; [naive_solver|].
      intros [([->|Hin] & Hv & He)|[-> ?]]; [right; split; [lia|by right]|by left|].
      right. split; [done|by left].
  - destruct (IH best acc) as (b & a & ? & ? & Hmin & Hw & Ha).
    exists b, a. split; [done|]. split; [done|]. split; [|split].
    + intros t [->|]%elem_of_cons; auto with lia.
    + destruct Hw as [?|(t&?&?&?)]; [by left|right; exists t; set_solver].
    + intros t. rewrite Ha, elem_of_cons. split; [naive_solver|].
      intros [([->|Hin] & Hv & He)|?]; [lia|by left|by right].
Qed.

Lemma min_ticket_spec l m :
  min_ticket l = Some m → m ∈ l ∧ ∀ x, x ∈ l → String.le m x.
Proof.
  destruct l as [|x l]; [done|]. simpl. intros [= <-]. revert x.
  induction l as [|y l IH]; intros x; simpl.
  { split; [set_solver|]. intros z ->%list_elem_of_singleton. done. }
  destruct (IH (str_min x y)) as [Hin Hle].
  assert (str_min x y = x ∧ String.le x y ∨ str_min x y = y ∧ String.le y x) as Hc.
  { unfold str_min, String.le. destruct (String.leb x y) eqn:E; [by left|].
    right. split; [done|]. destruct (String.leb_total x y) as [?|Hyx]; [congruence|].
    by rewrite Hyx. }
  split.
  { rewrite !elem_of_cons. apply elem_of_cons in Hin as [Hin|Hin]; [|by auto].
    rewrite Hin. destruct Hc as [[-> _]|[-> _]]; auto. }
  intros z Hz. apply elem_of_cons in Hz as [->|[->|Hz]%elem_of_cons].
  1,2: trans (str_min x y); [apply Hle; by left|]; by destruct Hc as [[-> ?]|[-> ?]].
  apply Hle. by right.
Qed.

(** The decision for a ticket of the directory that its owner ranks as the peers
    do, or one better: it has the turn exactly when no ticket is seen at a better
    rank and either the owner ranks itself better than it is seen, or no ticket
    of that rank has a smaller name. *)
Lemma is_my_turn_spec now l p t e :
  t ∈ l → visible t →
  effective_rank p e ≤ peer_effective now t ≤ effective_rank p e + 1 →
  peer_effective now t < u8_max →
  ∃ b, is_my_turn (WdEntries (files l)) now p t e = Ok b ∧
    (b = true ↔
       (∀ x, x ∈ l → visible x → peer_effective now t ≤ peer_effective now x) ∧
       (effective_rank p e < peer_effective now t ∨
        ∀ x, x ∈ l → visible x → peer_effective now x = peer_effective now t → String.le t x)).
Proof.
  intros Hin Hv Hown Hlt.
  destruct (scan_entries_spec now l u8_max []) as (b & a & Hscan & Hb & Hmin & Hw & Ha).
  pose proof (Hmin t Hin Hv) as Hbt. unfold is_my_turn. rewrite Hscan.
  destruct Hw as [?|(y & Hy & Hvy & Hey)]; [lia|].
  eexists; split; [done|].
  rewrite (proj2 (Z.eqb_neq b u8_max)) by lia.
  destruct (b <? effective_rank p e) eqn:Hbe; bool_prop.
  { split; [done|]. intros [Hall _]. specialize (Hall y Hy Hvy). lia. }
  destruct (effective_rank p e <? b) eqn:Heb; bool_prop.
  { split; [|done]. intros _. split; [intros x Hx Hvx; specialize (Hmin x Hx Hvx); lia|left; lia]. }
  assert (y ∈ a) as Hya by (apply Ha; by left).
  destruct (min_ticket a) as [m|] eqn:Hm; [|by destruct a; [apply elem_of_nil in Hya|]].
  apply min_ticket_spec in Hm as [Hma Hle]. simpl. rewrite bool_decide_eq_true.
  apply Ha in Hma as [(Hml & Hmv & Hme)|[_ []%elem_of_nil]]. split.
  - intros ->. split; [intros x Hx Hvx; specialize (Hmin x Hx Hvx); lia|].
    right. intros x Hx Hvx Hxe. apply Hle, Ha. left. split_and!; [done..|lia].
  - intros [Hall Hor]. specialize (Hall y Hy Hvy).
    assert (t ∈ a) as Hta by (apply Ha; left; split_and!; [done..|lia]).
    destruct Hor as [?|Hor]; [lia|].
    apply (anti_symm String.le); [by apply Hle|]. apply Hor; [done..|lia].
Qed.

(** The order in which waiters are seen. *)
Definition seen_before (now : Z) (w1 w2 : Waiter) : Prop :=
  seen_rank now w1 < seen_rank now w2 ∨
  seen_rank now w1 = seen_rank now w2 ∧ String.le (waiter_ticket w1) (waiter_ticket w2).

#[global] Instance seen_before_total now : Total (seen_before now).
Proof.
  intros x y. unfold seen_before.
  destruct (Z.lt_trichotomy (seen_rank now x) (seen_rank now y)) as [?|[?|?]]; auto.
  destruct (total String.le (waiter_ticket x) (waiter_ticket y)); auto.
Qed.
#[global] Instance seen_before_trans now : Transitive (seen_before now).
Proof.
  unfold seen_before. intros x y z [?|[? H1]] [?|[? H2]]; [left; lia..|].
  right. split; [lia|by trans (waiter_ticket y)].
Qed.

(** What a waiter of the list is told. *)
Definition asks (now_ms : Z) (ws : list Waiter) (w : Waiter) : result bool string :=
  is_my_turn (WdEntries (files (waiter_ticket <$> ws))) (now_ms / 1000) (w_prio w)
    (waiter_ticket w) (w_elapsed w).

Lemma asks_spec now ws w :
  on_one_clock now w → w ∈ ws →
  ∃ b, asks now ws w = Ok b ∧
    (b = true ↔
       (∀ x, x ∈ ws → seen_rank now w ≤ seen_rank now x) ∧
       (waiter_rank w < seen_rank now w ∨ ∀ x, x ∈ ws → seen_before now w x)).
Proof.
  intros Hc Hw. destruct (seen_rank_bounds now w Hc) as [Hown Hlt].
  destruct (is_my_turn_spec (now / 1000) (waiter_ticket <$> ws) (w_prio w) (waiter_ticket w)
              (w_elapsed w)) as (b & Hb & Hiff);
    [by apply list_elem_of_fmap_2|apply ticket_visible|exact Hown|exact Hlt|].
  exists b. split; [done|]. rewrite Hiff. split.
  - intros [Hall Hor].
    assert (∀ x, x ∈ ws → seen_rank now w ≤ seen_rank now x) as Hmin.
    { intros x Hx. apply Hall; [by apply list_elem_of_fmap_2|apply ticket_visible]. }
    split; [done|]. destruct Hor as [?|Hor]; [by left|]. right. intros x Hx.
    specialize (Hmin x Hx). unfold seen_before.
    destruct (decide (seen_rank now w = seen_rank now x)) as [He|]; [right|left; lia].
    split; [done|]. apply Hor; [by apply list_elem_of_fmap_2|apply ticket_visible|by symmetry].
  - intros [Hmin Hor]. split.
    + intros ? (x & -> & Hx)%list_elem_of_fmap _. by apply Hmin.
    + destruct Hor as [?|Hor]; [by left|]. right.
      intros ? (x & -> & Hx)%list_elem_of_fmap _ He.
      destruct (Hor x Hx) as [?|[_ ?]]; [unfold seen_rank in *; lia|done].
Qed.


(** Where every waiter has seen as many seconds go by as its ticket shows,
    exactly one has the turn. *)
Lemma one_turn_in_step (now : Z) (ws : list Waiter) :
  ws ≠ [] → NoDup (waiter_ticket <$> ws) → Forall (on_one_clock now) ws →
  Forall (λ w, waiter_rank w = seen_rank now w) ws →
  ∃ winner, winner ∈ ws ∧ ∀ w, w ∈ ws → asks now ws w = Ok true ↔ w = winner.
Proof.
  intros Hne Hnd Hall Hstep. rewrite Forall_forall in Hall, Hstep.
  destruct (list_least_exists (seen_before now) ws Hne) as (m & Hm & Hmin).
  exists m. split; [done|]. intros w Hw.
  destruct (asks_spec now ws w (Hall w Hw) Hw) as (b & -> & Hiff).
  assert (Ok (E := string) b = Ok true ↔ b = true) as -> by (split; congruence).
  rewrite Hiff. specialize (Hstep w Hw). split.
  - intros [_ [?|Hor]]; [lia|]. apply (NoDup_fmap_inj waiter_ticket ws); [done..|].
    destruct (Hor m Hm) as [?|[? ?]], (Hmin w Hw) as [?|[? ?]]; [lia..|].
    by apply (anti_symm String.le).
  - intros ->. split; [|by right]. intros x Hx. destruct (Hmin x Hx) as [?|[? _]]; lia.
Qed.

(** Three waiters, at second 1000.25: the second one came at 998.95 and the third
    at 999.7, so both have waited for a second less than their tickets show. *)
Definition demo_waiters : list Waiter :=
  [mkWaiter Critical 996 7 0 4200; mkWaiter High 998 8 0 1300; mkWaiter Normal 999 9 4 550].


(** Two turns at once, on one clock: waiters that came at 10.900 and 10.950 s ask
    at 11.100 s. Each finds the other a second old and itself not. *)
Lemma two_turns_at_once :
  let a := mkWaiter Normal 10 7 0 200 in
  let b := mkWaiter Normal 10 8 0 150 in
  Forall (on_one_clock 11100) [a; b]
  ∧ asks 11100 [a; b] a = Ok true ∧ asks 11100 [a; b] b = Ok true.
Proof.
  split; [repeat constructor; vm_compute; congruence|]. by vm_compute.
Qed.

(** Ageing demotes the longest waiter: of two waiters of the same priority, the
    one that enqueued in an earlier second is refused the turn and the later one
    gets it, although the tie-break by ticket name is meant to serve the earlier
    one first. *)
Theorem older_equal_priority_yields (now : Z) (older younger : Waiter) :
  w_prio older = w_prio younger → w_secs older < w_secs younger →
  on_one_clock now older → on_one_clock now younger →
  asks now [older; younger] older = Ok false ∧ asks now [older; younger] younger = Ok true.
Proof.
  intros Hp Hs Ho Hy.
  assert (seen_rank now younger < seen_rank now older) as Hlt.
  { rewrite !seen_rank_eq by done. rewrite Hp. lia. }
  split.
  - destruct (asks_spec now [older; younger] older Ho) as (b & -> & Hiff); [by left|].
    destruct b; [|done]. destruct (proj1 Hiff eq_refl) as [Hmin _].
    specialize (Hmin younger ltac:(right; by left)). lia.
  - destruct (asks_spec now [older; younger] younger Hy) as (b & -> & Hiff); [by right; left|].
    rewrite (proj2 Hiff); [done|]. split.
    + intros x [->|[->|[]%elem_of_nil]%elem_of_cons]%elem_of_cons; lia.
    + right. intros x [->|[->|[]%elem_of_nil]%elem_of_cons]%elem_of_cons; [by left|by right].
Qed.

Lemma older_equal_priority_yields_witness :
  let older := mkWaiter Normal 998 7 0 1900 in
  let younger := mkWaiter Normal 1000 9 0 10 in
  asks 1000010 [older; younger] older = Ok false ∧ asks 1000010 [older; younger] younger = Ok true.
Proof.
  apply (older_equal_priority_yields 1000010 (mkWaiter Normal 998 7 0 1900)
           (mkWaiter Normal 1000 9 0 10)).
  - done.
  - done.
  - vm_compute. intuition congruence.
  - vm_compute. intuition congruence.
Defined.

Lemma effective_rank_period p ms k :
  effective_rank p (ms + k * 256000) = effective_rank p ms.
Proof.
  unfold effective_rank, as_u8, AGING_STEP_MS.
  replace (ms + k * 256000) with (ms + (k * 256) * 1000) by lia.
  rewrite Z.div_add by lia. change (2 ^ 8) with 256. by rewrite Z.mod_add by lia.
Qed.

Lemma peer_effective_orphan now p secs pid seq k :
  0 ≤ secs → now = secs + 256 * k → 0 ≤ k → now * 1000 ≤ u64_max →
  peer_effective now (ticket_name p secs pid seq) = priority_rank p.
Proof.
  intros Hs Hnow Hk Hmx. unfold peer_effective.
  rewrite ticket_priority_name, rank_priority_rank, ticket_secs_name by lia.
  unfold peer_waited_ms. rewrite (proj2 (Z.leb_le _ _)) by lia.
  rewrite Z.min_l by lia.
  replace ((now - secs) * 1000) with (0 + k * 256000) by lia.
  rewrite effective_rank_period, effective_rank_young by lia. rewrite Z.div_0_l; lia.
Qed.

(** Rank ageing is periodic, not monotone: the number of ageing steps is cut to
    eight bits, so a leaked Critical ticket is back at the top rank every 256 s and
    then refuses the turn to every waiter of a lower aged rank, whatever else is
    queued. *)
Theorem orphan_critical_regains_top_rank (now secs pid seq k : Z) (peers : list string)
    (w : Waiter) :
  0 ≤ secs → 0 ≤ k → now = secs + 256 * k → now * 1000 ≤ u64_max →
  ticket_name Critical secs pid seq ∈ peers →
  0 < waiter_rank w →
  is_my_turn (WdEntries (files peers)) now (w_prio w) (waiter_ticket w) (w_elapsed w)
  = Ok false.
Proof.
  intros Hs Hk Hnow Hmx Hin Hw.
  destruct (scan_entries_spec now peers u8_max []) as (b & a & Hscan & _ & Hmin & _).
  specialize (Hmin _ Hin (ticket_visible _ _ _ _)).
  rewrite (peer_effective_orphan now Critical secs pid seq k) in Hmin by done.
  unfold is_my_turn. rewrite Hscan. simpl in Hmin. fold (waiter_rank w).
  rewrite (proj2 (Z.eqb_neq b u8_max)) by (unfold u8_max; lia).
  by rewrite (proj2 (Z.ltb_lt _ _)) by lia.
Qed.

Lemma orphan_critical_regains_top_rank_witness :
  is_my_turn (WdEntries (files [ticket_name Critical 1000 7 0; ticket_name High 1256 8 0]))
    1256 High (waiter_ticket (mkWaiter High 1256 8 0 0)) 0 = Ok false.
Proof.
  apply (orphan_critical_regains_top_rank 1256 1000 7 0 1 _ (mkWaiter High 1256 8 0 0)).
  - done.
  - done.
  - done.
  - vm_compute. congruence.
  - by left.
  - done.
Defined.

(** * with_slot *)

Section with_slot_facts.
Variable q : SlotQueue.
Variable env : QueueEnv.
Variable prio : QueuePriority.
Variables (ticket : string) (enq : Z).
Context {T : Type} (f : stm QWorld QueueError T).

(** The scan over the slots never moves the clock back. *)
Lemma try_slots_clock slots n w w' n' :
  (∀ n w, qnow w ≤ qnow (others env n w)) → 0 ≤ poll q →
  try_slots q env prio ticket enq f slots n w = SlotNone w' n' → qnow w ≤ qnow w'.
Proof.
  intros Hmono Hpoll. revert n w. induction slots as [|s slots IH]; simpl; intros n w.
  { intros [= -> _]. lia. }
  pose proof (Hmono n w).
  destruct (qio_open env n); [done|]. case_bool_decide.
  { intros H'%IH. lia. }
  set (w1 := q_held _ (others env n w)).
  pose proof (Hmono (S n) w1) as Hw1. simpl in Hw1.
  destruct (turn_at _ _ _ _ _ _) as [[]|]; [by destruct run_in_slot| |done].
  intros H'%IH. simpl in H'. lia.
Qed.

Lemma slot_loop_total fuel n deadline w :
  (∀ n w, qnow w ≤ qnow (others env n w)) → 0 < poll q →
  deadline - qnow w ≤ (Z.of_nat fuel - 1) * poll q → (0 < fuel)%nat →
  is_Some (slot_loop q env prio ticket enq f fuel n deadline w).
Proof.
  intros Hmono Hpoll. revert n w. induction fuel as [|fuel IH]; intros n w Hd Hf; [lia|].
  cbn [slot_loop]. cbv zeta. pose proof (Hmono n w) as Hn.
  destruct (deadline <=? qnow (others env n w)) eqn:Hdl; [by eexists|]. bool_prop.
  assert (0 < fuel)%nat by (destruct fuel; lia).
  destruct (turn_at _ _ _ _ _ _) as [[]|]; [|apply IH; simpl; lia|by eexists].
  destruct (try_slots _ _ _ _ _ _ _ _ _) as [? ? ?|w' n'] eqn:Htry; [by eexists|].
  apply try_slots_clock in Htry; [|done|lia]. apply IH; simpl; lia.
Qed.

(** What the world looks like when the closure has returned: either the guard
    still owns the ticket, or it is gone; no slot lock is left. *)
Definition loop_post (H : gset nat) (w : QWorld) (cleaned : bool) : Prop :=
  (cleaned = true → ticket ∉ waiting w) ∧ held w = H.

Hypothesis f_ticket : ∀ w, ticket ∉ waiting w → ticket ∉ waiting (f w).1.
Hypothesis f_held : ∀ w, held (f w).1 = held w.
Hypothesis others_held : ∀ n w, held (others env n w) = held w.

Lemma try_slots_post slots n w :
  match try_slots q env prio ticket enq f slots n w with
  | SlotReturn w' cleaned _ => loop_post (held w) w' cleaned
  | SlotNone w' _ => held w' = held w
  end.
Proof.
  revert n w. induction slots as [|s slots IH]; intros n w; simpl; [done|].
  destruct (qio_open env n); [by split|]. case_bool_decide as Hs.
  { specialize (IH (S n) (others env n w)). by rewrite others_held in IH. }
  rewrite others_held in Hs.
  destruct (turn_at _ _ _ _ _ _) as [[]|].
  - unfold run_in_slot. destruct (f _) as [w2 r] eqn:Hf.
    pose proof (f_held (q_meter record_slot_acquire (q_waiting (λ s, s ∖ {[ticket]})
      (others env (S n) (q_held (λ h, {[s]} ∪ h) (others env n w)))))) as Hh.
    pose proof (f_ticket (q_meter record_slot_acquire (q_waiting (λ s, s ∖ {[ticket]})
      (others env (S n) (q_held (λ h, {[s]} ∪ h) (others env n w)))))) as Ht.
    rewrite Hf in Hh, Ht. simpl in Hh, Ht. split; simpl; [set_solver|].
    rewrite Hh, others_held. simpl. rewrite others_held. set_solver.
  - match goal with |- context [try_slots q env prio ticket enq f slots ?n' ?w'] =>
      specialize (IH n' w'); assert (held w' = held w) as Hw' end.
    { simpl. rewrite others_held. simpl. rewrite others_held. set_solver. }
    by rewrite Hw' in IH.
  - split; [done|]. simpl. rewrite others_held. simpl. rewrite others_held. set_solver.
Qed.

Lemma slot_loop_post fuel n deadline w w' cleaned r :
  slot_loop q env prio ticket enq f fuel n deadline w = Some (w', cleaned, r) →
  loop_post (held w) w' cleaned.
Proof.
  revert n w. induction fuel as [|fuel IH]; intros n w; [done|].
  cbn [slot_loop]. cbv zeta.
  destruct (_ <=? _). { intros [= <- <- _]. by split; [|apply others_held]. }
  destruct (turn_at _ _ _ _ _ _) as [[]|].
  - pose proof (try_slots_post (seq 0 (max_concurrent q)) (S n) (others env n w)) as Hp.
    rewrite others_held in Hp.
    destruct (try_slots _ _ _ _ _ _ _ _ _) as [? ? ?|w1 n1]; [by intros [= <- <- _]|].
    intros H%IH. simpl in H. by rewrite Hp in H.
  - intros H%IH. simpl in H. by rewrite others_held in H.
  - intros [= <- <- _]. by split; [|apply others_held].
Qed.
End with_slot_facts.

(** The worlds in which the protected closure may run: the ticket is withdrawn and
    one of the lane's slot locks is held. *)
Definition in_slot (q : SlotQueue) (ticket : string) (w : QWorld) : Prop :=
  ticket ∉ waiting w ∧ ∃ slot, (slot < max_concurrent q)%nat ∧ slot ∈ held w.

Lemma try_slots_ext {T} q env prio ticket enq (f g : stm QWorld QueueError T) slots n w :
  (∀ n w, held w ⊆ held (others env n w)) →
  (∀ w, in_slot q ticket w → f w = g w) →
  (∀ slot, slot ∈ slots → (slot < max_concurrent q)%nat) →
  try_slots q env prio ticket enq f slots n w = try_slots q env prio ticket enq g slots n w.
Proof.
  intros Hoth Hfg. revert n w. induction slots as [|s slots IH]; intros n w Hs; simpl; [done|].
  assert (∀ x, x ∈ slots → (x < max_concurrent q)%nat) by (intros; apply Hs; by right).
  destruct (qio_open env n); [done|]. case_bool_decide; [by apply IH|].
  destruct (turn_at _ _ _ _ _ _) as [[]|]; [|by apply IH|done].
  unfold run_in_slot. rewrite Hfg; [done|]. split; simpl; [set_solver|].
  exists s. split; [apply Hs; by left|].
  pose proof (Hoth (S n) (q_held (λ h, {[s]} ∪ h) (others env n w))) as Hh.
  simpl in Hh. set_solver.
Qed.

Lemma slot_loop_ext {T} q env prio ticket enq (f g : stm QWorld QueueError T) fuel n d w :
  (∀ n w, held w ⊆ held (others env n w)) →
  (∀ w, in_slot q ticket w → f w = g w) →
  slot_loop q env prio ticket enq f fuel n d w = slot_loop q env prio ticket enq g fuel n d w.
Proof.
  intros Hoth Hfg. revert n w. induction fuel as [|fuel IH]; intros n w; [done|].
  cbn [slot_loop]. cbv zeta. destruct (_ <=? _); [done|].
  destruct (turn_at _ _ _ _ _ _) as [[]|]; [|apply IH|done].
  rewrite (try_slots_ext q env prio ticket enq f g); [|done|done|].
  - destruct (try_slots _ _ _ _ _ _ _ _ _); [done|apply IH].
  - intros s Hs%elem_of_seq. lia.
Qed.

(** C38: [with_slot] terminates: with a positive poll interval and peers that never
    move the clock back, [timeout / poll + 2] rounds of the waiting loop are enough
    for it to return, whatever the peers do to the directory and the locks and
    whichever system call fails. *)
Theorem with_slot_total {T} (q : SlotQueue) (env : QueueEnv) (prio : QueuePriority)
    (fuel : nat) (pid seq : Z) (f : stm QWorld QueueError T) (w : QWorld) :
  0 < poll q → (∀ n w, qnow w ≤ qnow (others env n w)) →
  timeout q / poll q + 2 ≤ Z.of_nat fuel → 0 ≤ timeout q →
  is_Some (with_slot q env prio fuel pid seq f w).
Proof.
  intros Hp Hmono Hfuel Ht. unfold with_slot.
  destruct (qio_root env); [by eexists|].
  destruct (enqueue_waiter _ _ _ _ _) as [w1 [t|]]; [|by eexists].
  pose proof (Z.div_pos (timeout q) (poll q) Ht Hp).
  pose proof (Z.mul_succ_div_gt (timeout q) (poll q) Hp).
  destruct (slot_loop_total q env prio t (qnow w1) f fuel 0 (qnow w1 + timeout q) w1)
    as [[[w2 c] r] ->]; [done|done|nia|lia|by eexists].
Qed.

(** Peers that hold the only slot for good: the waiter times out. *)
Definition demo_queue : SlotQueue := queue_with_options 1 300 100.
Definition demo_qworld : QWorld :=
  mkQWorld 5000 ∅ {[ 0%nat ]} slot_meters_zero.

Lemma with_slot_total_witness :
  is_Some (with_slot demo_queue env_quiet Normal 5 42 0 (st_ret tt) demo_qworld) ∧
  snd <$> with_slot demo_queue env_quiet Normal 5 42 0 (st_ret tt) demo_qworld
  = Some (Err QTimeout).
Proof.
  split; [|by vm_compute].
  apply (with_slot_total demo_queue env_quiet Normal 5 42 0 (st_ret tt) demo_qworld).
  - done.
  - intros n w. simpl. lia.
  - vm_compute. congruence.
  - done.
Defined.

(** [with_slot] leaves nothing behind: on success, time-out, I/O error or failure
    of the closure, the process's ticket is not in the waiting directory and the set of
    held slot locks is what it was, when neither the closure nor a peer takes or drops
    one and the closure does not recreate the ticket. *)
Theorem with_slot_leaves_no_trace {T} (q : SlotQueue) (env : QueueEnv)
    (prio : QueuePriority) (fuel : nat) (pid seq : Z) (f : stm QWorld QueueError T)
    (w w' : QWorld) (r : result T QueueError) :
  let ticket := ticket_name prio (qnow w / 1000) pid seq in
  ticket ∉ waiting w →
  (∀ w, ticket ∉ waiting w → ticket ∉ waiting (f w).1) →
  (∀ w, held (f w).1 = held w) →
  (∀ n w, held (others env n w) = held w) →
  with_slot q env prio fuel pid seq f w = Some (w', r) →
  ticket ∉ waiting w' ∧ held w' = held w.
Proof.
  intros ticket Hfresh Hft Hfh Hoh. unfold with_slot.
  destruct (qio_root env); [by intros [= <- _]|].
  unfold enqueue_waiter, st_bind, st_get, st_mod, st_err, st_ret. fold ticket. cbv zeta.
  assert (ticket ≠ "." +:+ ticket +:+ ".tmp") as Hne.
  { intros Heq. pose proof (ticket_visible prio (qnow w / 1000) pid seq) as Hv.
    fold ticket in Hv. by rewrite Heq in Hv. }
  destruct (qio_waiting env); [by intros [= <- _]|].
  destruct (qio_write env); [by intros [= <- _]|].
  destruct (qio_publish env); [intros [= <- _]; simpl; set_solver|].
  destruct (slot_loop _ _ _ _ _ _ _ _ _ _) as [[[w2 c] r2]|] eqn:Hl; [|done].
  apply slot_loop_post in Hl as [Hc Hheld]; [|done..]. intros [= <- _]. simpl in Hheld.
  destruct c; simpl; [by auto|]. split; [set_solver|done].
Qed.

Lemma with_slot_leaves_no_trace_witness :
  let ticket := ticket_name Normal 5 42 0 in
  ∃ w', with_slot demo_queue env_quiet Normal 5 42 0 (st_ret tt) demo_qworld
        = Some (w', Err QTimeout) ∧ ticket ∉ waiting w' ∧ held w' = {[ 0%nat ]}.
Proof.
  destruct (with_slot demo_queue env_quiet Normal 5 42 0 (st_ret tt) demo_qworld)
    as [[w' r]|] eqn:E; [|by vm_compute in E].
  exists w'. split; [by vm_compute in E |- *; congruence|].
  apply (with_slot_leaves_no_trace demo_queue env_quiet Normal 5 42 0 (st_ret tt)
           demo_qworld w' r); [|done..].
  by apply (bool_decide_unpack _).
Defined.

(** The closure runs only while the process holds one of the lane's
    [max_concurrent] slot locks and has withdrawn its ticket: two closures that agree
    on those worlds are indistinguishable through [with_slot] (peers never drop locks
    held by others). *)
Theorem with_slot_runs_under_slot {T} (q : SlotQueue) (env : QueueEnv)
    (prio : QueuePriority) (fuel : nat) (pid seq : Z) (f g : stm QWorld QueueError T)
    (w : QWorld) :
  (∀ n w, held w ⊆ held (others env n w)) →
  (∀ w', in_slot q (ticket_name prio (qnow w / 1000) pid seq) w' → f w' = g w') →
  with_slot q env prio fuel pid seq f w = with_slot q env prio fuel pid seq g w.
Proof.
  intros Hoth Hfg. unfold with_slot. destruct (qio_root env); [done|].
  unfold enqueue_waiter, st_bind, st_get, st_mod, st_err, st_ret. cbv zeta.
  destruct (qio_waiting env); [done|]. destruct (qio_write env); [done|].
  destruct (qio_publish env); [done|].
  by rewrite (slot_loop_ext q env prio _ _ f g).
Qed.

Definition demo_free : QWorld := mkQWorld 5000 ∅ ∅ slot_meters_zero.

Lemma with_slot_runs_under_slot_witness :
  let f : stm QWorld QueueError nat := λ w, (w, Ok (size (held w))) in
  let g : stm QWorld QueueError nat :=
    λ w, (w, if decide (held w = ∅) then Err QTimeout else Ok (size (held w))) in
  with_slot demo_queue env_quiet Normal 5 42 0 f demo_free =
  with_slot demo_queue env_quiet Normal 5 42 0 g demo_free ∧
  snd <$> with_slot demo_queue env_quiet Normal 5 42 0 f demo_free = Some (Ok 1%nat).
Proof.
  intros f g. split; [|by vm_compute].
  apply (with_slot_runs_under_slot demo_queue env_quiet Normal 5 42 0).
  - done.
  - intros w' (_ & slot & _ & Hs). unfold f, g.
    destruct (decide (held w' = ∅)) as [He|]; [|done].
    rewrite He in Hs. by apply not_elem_of_empty in Hs.
Defined.
