(* ===== verification/Speculation.v ===== *)
(** Speculative execution, crates/sharecli-core/src/speculation.rs: the hit
    tracker, one cycle of the background pre-execution task, and the in-flight
    coalescer, whose callers and spawned tasks interleave and which is therefore
    a step relation. *)
From S2P Require Import Prelude FleetGate CoalesceCache.

(** * The tracker *)

Definition SPECULATION_THRESHOLD : Z := 3.
Definition SPECULATION_WINDOW : Z := 300000.
Definition SPECULATION_MAX_CANDIDATES : nat := 5.
Definition SPECULATION_INTERVAL : Z := 30000.
Definition SPECULATIVE_COALESCE_WINDOW : Z := 100.

Record SpeculationCandidate : Type := mkCandidate {
  cand_key : string;
  cand_argv : list string;
  cand_cwd : string;
  cand_env : list (string * string);
}.

(** Key to (hit count, instant); key to the request to replay. *)
Record SpeculationTracker : Type := mkTracker {
  hits : gmap string (Z * Z);
  requests : gmap string SpeculationCandidate;
}.

Definition tracker_new : SpeculationTracker := mkTracker ∅ ∅.

(** [record_hit] at instant [t]. The counter is a [u32] without overflow check. *)
Definition record_hit (t : Z) (key : string) (argv : list string) (cwd : string)
    (env : list (string * string)) (s : SpeculationTracker) : SpeculationTracker :=
  let entry := default (0, t) (hits s !! key) in
  mkTracker
    (<[key := (wrapping_add u32_max entry.1 1, t)]> (hits s))
    (match requests s !! key with
     | Some _ => requests s
     | None => <[key := mkCandidate key argv cwd env]> (requests s)
     end).

(** The comparison of [scored.sort_by]: count descending, then key. *)
Definition scored_le (x y : Z * string) : Prop :=
  y.1 < x.1 ∨ x.1 = y.1 ∧ String.le x.2 y.2.
#[global] Instance scored_le_dec : RelDecision scored_le.
Proof. intros x y. unfold scored_le. apply _. Defined.

Definition eligible (t : Z) (e : Z * Z) : bool :=
  (SPECULATION_THRESHOLD <=? e.1) && (t - e.2 <=? SPECULATION_WINDOW).

Definition scored (t : Z) (s : SpeculationTracker) : list (Z * string) :=
  merge_sort scored_le
    ((λ x : string * (Z * Z), (x.2.1, x.1)) <$>
       filter (λ x : string * (Z * Z), eligible t x.2 = true) (map_to_list (hits s))).

(** The loop that takes the requests out. *)
Fixpoint take_requests (keys : list string) (s : SpeculationTracker)
  : SpeculationTracker * list SpeculationCandidate :=
  match keys with
  | [] => (s, [])
  | key :: rest =>
      let s' := mkTracker (delete key (hits s)) (delete key (requests s)) in
      let '(s'', cs) := take_requests rest s' in
      (s'', match requests s !! key with Some c => c :: cs | None => cs end)
  end.

Definition drain_candidates (t : Z) (s : SpeculationTracker)
  : SpeculationTracker * list SpeculationCandidate :=
  take_requests (take SPECULATION_MAX_CANDIDATES (scored t s)).*2 s.

(** * One background cycle *)

(** What pre-executing one candidate gave: [spawn_blocking] may panic. *)
Inductive SpecRun : Type :=
| SpecOk (r : CachedResult)
| SpecErr (msg : string)
| SpecPanic (msg : string).

(** [Command::output]: the child could not be spawned, or ended with a code ([None]
    when a signal killed it), standard output and standard error. *)
Inductive ProcOutput : Type :=
| SpawnFailed (msg : string)
| Exited (code : option Z) (out err : list byte).

(** [speculate_execute]; the child process is the function [proc]. *)
Definition speculate_execute (proc : list string → string → list (string * string) → ProcOutput)
    (argv : list string) (cwd : string) (env : list (string * string))
  : result CachedResult string :=
  match argv with
  | [] => Err "speculate: argv is empty"
  | _ :: _ =>
      match proc argv cwd env with
      | SpawnFailed e => Err ("speculate: failed to spawn: " +:+ e)
      | Exited code out err => Ok (mkCached (default (-1) code) out err)
      end
  end.

Section cycle.
Variables (to_vec : CachedResult → option (list byte))
          (from_slice : list byte → option CachedResult).
Variable io : CacheIo.
Variable c : CoalesceCache.
(** Running a candidate: its effect on the world (time passes, other processes
    store and sweep) and its outcome. *)
Variable exec : SpeculationCandidate → World → World * SpecRun.

Definition speculate_one (cand : SpeculationCandidate) (w : World) : World :=
  match lookup from_slice io c (cand_key cand) w with
  | (w1, Ok (Some _)) => w1
  | (w1, Err _) => w1
  | (w1, Ok None) =>
      match exec cand w1 with
      | (w2, SpecOk cached) => (store to_vec io c (cand_key cand) cached w2).1
      | (w2, SpecErr _) | (w2, SpecPanic _) => w2
      end
  end.

Definition speculation_cycle (d : ThermalDecision) (st : SpeculationTracker * World)
  : SpeculationTracker * World :=
  let '(s, w) := st in
  match d with
  | Allow =>
      let '(s', cands) := drain_candidates (now w) s in
      (s', foldl (λ w cand, speculate_one cand w) w cands)
  | Warn | Refuse => (s, w)
  end.
End cycle.

(** * Lemmas: the tracker *)

(** Every tracked key has its request, stored under that key. *)
Definition tracker_ok (s : SpeculationTracker) : Prop :=
  dom (hits s) = dom (requests s) ∧ map_Forall (λ k c, cand_key c = k) (requests s).

Lemma tracker_new_ok : tracker_ok tracker_new.
Proof. split; [done|]. apply map_Forall_empty. Qed.

Lemma record_hit_ok t key argv cwd env s :
  tracker_ok s → tracker_ok (record_hit t key argv cwd env s).
Proof.
  intros [Hd Hk]. unfold record_hit. split; simpl.
  - destruct (requests s !! key) eqn:E; [|set_solver].
    apply elem_of_dom_2 in E. set_solver.
  - destruct (requests s !! key) eqn:E; [done|]. by apply map_Forall_insert_2.
Qed.

#[global] Instance scored_le_total : Total scored_le.
Proof.
  intros [x k] [y l]. unfold scored_le. simpl.
  destruct (Z.lt_trichotomy x y) as [?|[?|?]]; auto.
  destruct (total String.le k l); auto.
Qed.
#[global] Instance scored_le_trans : Transitive scored_le.
Proof.
  intros [x k] [y l] [z m]. unfold scored_le. simpl. intros [?|[? H1]] [?|[? H2]]; [left; lia..|].
  right. split; [lia|by trans l].
Qed.

Lemma elem_of_scored t s n k :
  (n, k) ∈ scored t s ↔ ∃ f, hits s !! k = Some (n, f) ∧ eligible t (n, f) = true.
Proof.
  unfold scored. rewrite merge_sort_Permutation, list_elem_of_fmap. split.
  - intros ([k' [n' f]] & [= -> ->] & [He Hin]%list_elem_of_filter).
    apply elem_of_map_to_list in Hin. by exists f.
  - intros (f & Hin & He). exists (k, (n, f)). split; [done|].
    apply list_elem_of_filter. split; [done|]. by apply elem_of_map_to_list.
Qed.

Lemma scored_keys_NoDup t s : NoDup (scored t s).*2.
Proof.
  unfold scored. rewrite merge_sort_Permutation, <- list_fmap_compose.
  change (NoDup (fst <$> filter (λ x : string * (Z * Z), eligible t x.2 = true)
                   (map_to_list (hits s)))).
  eapply sublist_NoDup; [apply (NoDup_fst_map_to_list (hits s))|].
  apply fmap_sublist, sublist_filter.
Qed.

Lemma scored_sorted t s : StronglySorted scored_le (scored t s).
Proof. apply StronglySorted_merge_sort; apply _. Qed.

Lemma take_requests_spec keys s s' cs :
  NoDup keys → take_requests keys s = (s', cs) →
  cs = omap (λ k, requests s !! k) keys ∧
  (∀ k, hits s' !! k = if decide (k ∈ keys) then None else hits s !! k) ∧
  (∀ k, requests s' !! k = if decide (k ∈ keys) then None else requests s !! k).
Proof.
  intros Hnd. revert s s' cs.
  induction keys as [|key keys IH]; intros s s' cs; cbn [take_requests].
  { intros [= <- <-]. split; [done|].
    split; intros k; rewrite decide_False; done || apply not_elem_of_nil. }
  apply NoDup_cons in Hnd as [Hkey Hnd].
  destruct (take_requests keys _) as [s1 cs1] eqn:E.
  apply IH in E as (-> & Hh & Hr); [|done]. simpl in Hh, Hr. intros [= <- <-]. split.
  - assert (omap (λ k, delete key (requests s) !! k) keys = omap (λ k, requests s !! k) keys)
      as Heq; [|cbn; rewrite Heq; by destruct (requests s !! key)].
    clear -Hkey. induction keys as [|x keys IH]; [done|].
    apply not_elem_of_cons in Hkey as [? ?]. cbn.
    rewrite lookup_delete_ne, IH by done. done.
  - split; intros k; [rewrite Hh|rewrite Hr];
      destruct (decide (k = key)) as [->|Hne].
    1,3: rewrite lookup_delete_eq, (decide_True (P := key ∈ key :: keys)) by (by left);
      by destruct (decide _).
    all: rewrite lookup_delete_ne by done;
      destruct (decide (k ∈ keys)), (decide (k ∈ key :: keys)); try done; set_solver.
Qed.

Lemma length_omap_all {A B} (f : A → option B) (l : list A) :
  (∀ x, x ∈ l → is_Some (f x)) → length (omap f l) = length l.
Proof.
  induction l as [|x l IH]; intros Hall; [done|].
  change (omap f (x :: l)) with (match f x with Some y => y :: omap f l | None => omap f l end).
  destruct (Hall x) as [y ->]; [by left|]. cbn [length]. rewrite IH; [done|].
  intros z Hz. apply Hall. by right.
Qed.

(** What is drained: the keys, and for each its counter and its request. *)
Definition top_keys (t : Z) (s : SpeculationTracker) : list string :=
  (take SPECULATION_MAX_CANDIDATES (scored t s)).*2.

Lemma top_keys_NoDup t s : NoDup (top_keys t s).
Proof.
  unfold top_keys. rewrite fmap_take.
  eapply sublist_NoDup; [apply (scored_keys_NoDup t s)|apply sublist_take].
Qed.

Lemma elem_of_top_keys t s k :
  tracker_ok s → k ∈ top_keys t s →
  ∃ n f c, (n, k) ∈ take SPECULATION_MAX_CANDIDATES (scored t s) ∧
    hits s !! k = Some (n, f) ∧ eligible t (n, f) = true ∧
    requests s !! k = Some c ∧ cand_key c = k.
Proof.
  intros [Hdom Hkey] ([n k'] & Heq & Hin)%list_elem_of_fmap. simpl in Heq. subst k'.
  assert ((n, k) ∈ scored t s) as Hin'.
  { rewrite <- (take_drop SPECULATION_MAX_CANDIDATES (scored t s)). apply elem_of_app. by left. }
  apply elem_of_scored in Hin' as (f & Hf & He).
  assert (k ∈ dom (requests s)) as [c Hc]%elem_of_dom.
  { rewrite <- Hdom. by eapply elem_of_dom_2. }
  exists n, f, c. split_and!; auto.
Qed.

Lemma drain_spec t s s' cs :
  drain_candidates t s = (s', cs) →
  cs = omap (λ k, requests s !! k) (top_keys t s) ∧
  (∀ k, hits s' !! k = if decide (k ∈ top_keys t s) then None else hits s !! k) ∧
  (∀ k, requests s' !! k = if decide (k ∈ top_keys t s) then None else requests s !! k).
Proof. apply take_requests_spec, top_keys_NoDup. Qed.

Lemma drain_ok t s s' cs : tracker_ok s → drain_candidates t s = (s', cs) → tracker_ok s'.
Proof.
  intros [Hdom Hkey] (_ & Hh & Hr)%drain_spec. split.
  - apply set_eq. intros k. rewrite !elem_of_dom, Hh, Hr.
    destruct (decide (k ∈ top_keys t s)); [done|]. by rewrite <- !elem_of_dom, Hdom.
  - intros k c. rewrite Hr. destruct (decide _); [done|]. apply Hkey.
Qed.

(** A drain takes out exactly the best candidates. For a tracker that satisfies
    its invariant: the candidates returned are the requests of the first five eligible
    keys (at least three hits, the last one within the window) in the order count
    descending then key; each is forgotten and everything else is untouched; an
    eligible key that was left behind is ranked after every drained one; the
    invariant is preserved. *)
Theorem drain_takes_the_best (t : Z) (s s' : SpeculationTracker)
    (cs : list SpeculationCandidate) :
  tracker_ok s → drain_candidates t s = (s', cs) →
  tracker_ok s' ∧
  length cs = Nat.min SPECULATION_MAX_CANDIDATES (length (scored t s)) ∧
  (∀ cand, cand ∈ cs → requests s !! cand_key cand = Some cand ∧
     ∃ n f, hits s !! cand_key cand = Some (n, f) ∧ SPECULATION_THRESHOLD ≤ n ∧
            t - f ≤ SPECULATION_WINDOW ∧ hits s' !! cand_key cand = None) ∧
  (∀ k e, hits s' !! k = Some e → hits s !! k = Some e) ∧
  (∀ k n f, hits s' !! k = Some (n, f) → eligible t (n, f) = true →
     ∀ cand n' f', cand ∈ cs → hits s !! cand_key cand = Some (n', f') →
       scored_le (n', cand_key cand) (n, k)).
Proof.
  intros Hok Hdrain. pose proof (drain_ok _ _ _ _ Hok Hdrain) as Hok'.
  apply drain_spec in Hdrain as (-> & Hh & _).
  assert (∀ cand, cand ∈ omap (λ k, requests s !! k) (top_keys t s) →
            cand_key cand ∈ top_keys t s ∧ requests s !! cand_key cand = Some cand) as Hcand.
  { intros cand (k & Hk & Hc)%list_elem_of_omap.
    destruct (elem_of_top_keys t s k Hok Hk) as (? & ? & c & _ & _ & _ & ? & ?).
    assert (c = cand) as <- by congruence. by subst k. }
  split_and!; [done| | | |].
  - rewrite length_omap_all, <- length_take; [apply length_fmap|].
    intros k (? & ? & c & _ & _ & _ & -> & _)%elem_of_top_keys; eauto.
  - intros cand (Hk & Hr)%Hcand. split; [done|].
    destruct (elem_of_top_keys t s _ Hok Hk) as (n & f & c & _ & Hf & He & _).
    unfold eligible in He. simpl in He. bool_prop.
    exists n, f. rewrite Hh, decide_True by done. auto.
  - intros k e. rewrite Hh. by destruct (decide _).
  - intros k n f. rewrite Hh. destruct (decide (k ∈ _)) as [|Hnot]; [done|].
    intros Hf He cand n' f' (Hk & _)%Hcand Hf'.
    destruct (elem_of_top_keys t s _ Hok Hk) as (n2 & f2 & _ & Hin & Hf2 & _).
    assert (n2 = n') as -> by congruence.
    pose proof (scored_sorted t s) as Hs.
    rewrite <- (take_drop SPECULATION_MAX_CANDIDATES (scored t s)) in Hs.
    eapply StronglySorted_app_1_elem_of; [exact Hs|exact Hin|].
    assert ((n, k) ∈ scored t s) as Hall by (apply elem_of_scored; eauto).
    rewrite <- (take_drop SPECULATION_MAX_CANDIDATES (scored t s)) in Hall.
    apply elem_of_app in Hall as [Hbad|]; [|done].
    destruct Hnot. apply list_elem_of_fmap. by exists (n, k).
Qed.

Definition hit (t : Z) (key : string) : SpeculationTracker → SpeculationTracker :=
  record_hit t key ["make"] "/repo" [].

Lemma drain_takes_the_best_witness :
  let s := hit 40 "b" (hit 30 "a" (hit 20 "a" (hit 10 "a" tracker_new))) in
  (drain_candidates 50 s).2 = [mkCandidate "a" ["make"] "/repo" []] ∧
  tracker_ok (drain_candidates 50 s).1.
Proof.
  intros s. split; [by vm_compute|].
  refine (proj1 (drain_takes_the_best 50 s (drain_candidates 50 s).1
    (drain_candidates 50 s).2 _ _)).
  - unfold s. by repeat apply record_hit_ok.
  - by destruct (drain_candidates 50 s).
Defined.

(** The window restarts at every hit and the count is never reset by time: two hits
    however long ago plus one now make an eligible key. *)
Lemma old_hits_still_count t f key argv cwd env s :
  hits s !! key = Some (2, f) →
  ∃ e, hits (record_hit t key argv cwd env s) !! key = Some e ∧ eligible t e = true.
Proof.
  intros Hf. unfold record_hit. rewrite Hf. simpl. rewrite lookup_insert_eq.
  eexists; split; [done|]. unfold eligible. simpl. by rewrite Z.sub_diag.
Qed.

(** * Lemmas: the cycle *)

(** What the background task pre-executed is served to the next caller, and only
    a cold key is executed: if the cache has no fresh entry for a candidate, its run
    returns a result and the store succeeds, then a lookup within the TTL answers that
    result, whatever its exit code; if the cache is warm the cycle leaves the world as
    it is; and under any decision but [Allow] neither the tracker nor the cache
    changes. *)
Theorem speculated_result_is_served to_vec from_slice (c : CoalesceCache)
    (exec : SpeculationCandidate → World → World * SpecRun)
    (cand : SpeculationCandidate) (w w2 w3 : World) (r : CachedResult) (dt : Z) :
  (∀ r b, to_vec r = Some b → from_slice b = Some r) →
  lookup from_slice io_good c (cand_key cand) w = (w, Ok None) →
  exec cand w = (w2, SpecOk r) →
  store to_vec io_good c (cand_key cand) r w2 = (w3, Ok tt) →
  0 ≤ dt < ttl c →
  let step := speculate_one to_vec from_slice io_good c exec cand in
  lookup from_slice io_good c (cand_key cand) (advance dt (step w))
    = (advance dt (step w), Ok (Some r)) ∧
  (∀ r' w', lookup from_slice io_good c (cand_key cand) w' = (w', Ok (Some r')) →
     step w' = w') ∧
  (∀ d st, d ≠ Allow →
     speculation_cycle to_vec from_slice io_good c exec d st = st).
Proof.
  intros Hcodec Hcold Hexec Hstore Hdt step. split_and!.
  - assert (step w = w3) as ->.
    { unfold step, speculate_one. by rewrite Hcold, Hexec, Hstore. }
    apply store_ok in Hstore as (b & Hb & Hn & _ & Hd).
    apply (lookup_fresh from_slice io_good c _ _ _ (mkFile (now w2) b)); [done|done| | |].
    + apply Hd. lia.
    + unfold file_fresh. simpl. lia.
    + by apply Hcodec.
  - intros r' w' Hw. unfold step, speculate_one. by rewrite Hw.
  - intros [] [s' w'] Hd; done.
Qed.

(** A candidate that exits with code 2 is stored and served. *)
Definition demo_exec (cand : SpeculationCandidate) (w : World) : World * SpecRun :=
  (advance 10 w, SpecOk (mkCached 2 [x61] [])).
Definition demo_cand : SpeculationCandidate := mkCandidate "k" ["make"] "/repo" [].

Lemma speculated_result_is_served_witness :
  let w' := advance 5 (speculate_one simple_to_vec simple_from_slice io_good cache_new
                         demo_exec demo_cand demo_world) in
  lookup simple_from_slice io_good cache_new "k" w' = (w', Ok (Some (mkCached 2 [x61] []))).
Proof.
  eapply (speculated_result_is_served simple_to_vec simple_from_slice cache_new demo_exec
            demo_cand demo_world (advance 10 demo_world) _ (mkCached 2 [x61] []) 5 simple_codec).
  - by vm_compute.
  - done.
  - by vm_compute.
  - vm_compute. split; congruence.
Defined.

(** * The in-flight coalescer *)

(** An [anyhow] error as its chain of messages, outermost first; [clone_result]
    re-formats it with [{e}], which keeps the outermost message. *)
Definition clone_result (r : result CachedResult (list string))
  : result CachedResult (list string) :=
  match r with
  | Ok v => Ok v
  | Err e => Err (take 1 e)
  end.

(** Callers are numbered. [pending] is the map under the mutex; a leader's spawned
    task is first asleep, then drained and about to run its executor. [answers] holds
    what each caller's receiver got. Two components record history: [joined] the key
    and the first caller of the group each caller joined, [ran] the leaders whose
    executor ran. *)
Record CState : Type := mkCState {
  c_now : Z;
  pending : gmap string (list nat);
  sleeping : gmap nat (string * Z);
  drained : gmap nat (string * list nat);
  joined : gmap nat (string * nat);
  answers : gmap nat (result CachedResult (list string));
  ran : gmap nat string;
}.

Definition coalescer_new : CState := mkCState 0 ∅ ∅ ∅ ∅ ∅ ∅.

Section coalescer.
Variable window : Z.
(** The executor each caller brings. *)
Variable exec : nat → result CachedResult (list string).

(** The body of [coalesce] up to the await: join the group or lead a new one. *)
Definition c_register (caller : nat) (key : string) (s : CState) : CState :=
  match pending s !! key with
  | Some ws =>
      mkCState (c_now s) (<[key := ws ++ [caller]]> (pending s)) (sleeping s) (drained s)
        (<[caller := (key, hd caller ws)]> (joined s)) (answers s) (ran s)
  | None =>
      mkCState (c_now s) (<[key := [caller]]> (pending s))
        (<[caller := (key, c_now s + window)]> (sleeping s)) (drained s)
        (<[caller := (key, caller)]> (joined s)) (answers s) (ran s)
  end.

(** The spawned task after its sleep: take the group out of the map. *)
Definition c_drain (leader : nat) (key : string) (s : CState) : CState :=
  mkCState (c_now s) (delete key (pending s)) (delete leader (sleeping s))
    (<[leader := (key, default [] (pending s !! key))]> (drained s))
    (joined s) (answers s) (ran s).

(** The executor runs and its result is sent to every waiter; an executor that panics
    or is dropped, whose waiters get an error, is left out. *)
Definition c_broadcast (leader : nat) (key : string) (ws : list nat) (s : CState) : CState :=
  mkCState (c_now s) (pending s) (sleeping s) (delete leader (drained s)) (joined s)
    (foldr (λ w m, <[w := clone_result (exec leader)]> m) (answers s) ws)
    (<[leader := key]> (ran s)).

Inductive cstep : CState → CState → Prop :=
| cstep_register caller key s :
    joined s !! caller = None → cstep s (c_register caller key s)
| cstep_tick dt s :
    0 ≤ dt →
    cstep s (mkCState (c_now s + dt) (pending s) (sleeping s) (drained s) (joined s)
               (answers s) (ran s))
| cstep_drain leader key wake s :
    sleeping s !! leader = Some (key, wake) → wake ≤ c_now s →
    cstep s (c_drain leader key s)
| cstep_broadcast leader key ws s :
    drained s !! leader = Some (key, ws) → cstep s (c_broadcast leader key ws s).

(** * Lemmas: the coalescer *)

(** Groups are led by their first caller, every caller is in its group's list, in
    its drained list, or answered, and an executor that ran will not run again. *)
Record cinv (s : CState) : Prop := mkCInv {
  ci_pending : ∀ key ws, pending s !! key = Some ws → ∃ l rest wake,
    ws = l :: rest ∧ sleeping s !! l = Some (key, wake) ∧
    ∀ w, w ∈ ws → joined s !! w = Some (key, l);
  ci_sleeping : ∀ l key wake, sleeping s !! l = Some (key, wake) →
    ∃ rest, pending s !! key = Some (l :: rest);
  ci_drained : ∀ l key ws, drained s !! l = Some (key, ws) →
    sleeping s !! l = None ∧ joined s !! l = Some (key, l) ∧
    ∀ w, w ∈ ws → joined s !! w = Some (key, l);
  ci_ran : ∀ l key, ran s !! l = Some key →
    sleeping s !! l = None ∧ drained s !! l = None ∧ joined s !! l = Some (key, l);
  ci_answers : ∀ w r, answers s !! w = Some r → ∃ key l,
    joined s !! w = Some (key, l) ∧ ran s !! l = Some key ∧ r = clone_result (exec l);
  ci_all : ∀ w key l, joined s !! w = Some (key, l) →
    (∃ ws, pending s !! key = Some ws ∧ w ∈ ws) ∨
    (∃ ws, drained s !! l = Some (key, ws) ∧ w ∈ ws) ∨ is_Some (answers s !! w);
}.

Lemma cinv_new : cinv coalescer_new.
Proof. split; intros *; simpl; rewrite ?lookup_empty; naive_solver. Qed.

(** A caller that has not joined leads and runs nothing. *)
Lemma cinv_fresh s caller :
  cinv s → joined s !! caller = None →
  sleeping s !! caller = None ∧ drained s !! caller = None ∧ ran s !! caller = None ∧
  ∀ key ws, pending s !! key = Some ws → caller ∉ ws.
Proof.
  intros I Hfresh. split_and!.
  - destruct (sleeping s !! caller) as [[key wake]|] eqn:E; [|done].
    destruct (ci_sleeping s I _ _ _ E) as [rest Hp].
    destruct (ci_pending s I _ _ Hp) as (l & r & ? & [= -> ->] & _ & Hj).
    rewrite Hj in Hfresh; [done|by left].
  - destruct (drained s !! caller) as [[key ws]|] eqn:E; [|done].
    destruct (ci_drained s I _ _ _ E) as (_ & ? & _). congruence.
  - destruct (ran s !! caller) as [key|] eqn:E; [|done].
    destruct (ci_ran s I _ _ E) as (_ & _ & ?). congruence.
  - intros key ws Hp Hin. destruct (ci_pending s I _ _ Hp) as (l & r & ? & _ & _ & Hj).
    rewrite Hj in Hfresh; done.
Qed.

Lemma foldr_insert_lookup {A} (x : A) (ws : list nat) (m : gmap nat A) w :
  foldr (λ w m, <[w := x]> m) m ws !! w = if decide (w ∈ ws) then Some x else m !! w.
Proof.
  induction ws as [|a ws IH]; cbn [foldr].
  { rewrite decide_False; [done|]. apply not_elem_of_nil. }
  destruct (decide (w = a)) as [->|Hne].
  { rewrite lookup_insert_eq, decide_True; [done|by left]. }
  rewrite lookup_insert_ne, IH by done.
  destruct (decide (w ∈ ws)), (decide (w ∈ a :: ws)); try done; set_solver.
Qed.

Lemma cinv_lead s caller key :
  cinv s → joined s !! caller = None → pending s !! key = None →
  cinv (c_register caller key s).
Proof.
  intros I Hfresh Hp. destruct (cinv_fresh s caller I Hfresh) as (Hs & Hd & Hr & Hnot).
  unfold c_register. rewrite Hp. split; simpl.
  - intros k ws. destruct (decide (k = key)) as [->|Hk].
    + rewrite lookup_insert_eq. intros [= <-]. exists caller, [], (c_now s + window).
      rewrite lookup_insert_eq. split_and!; [done|done|].
      intros w ->%list_elem_of_singleton. apply lookup_insert_eq.
    + rewrite lookup_insert_ne by done. intros Hk'.
      destruct (ci_pending s I _ _ Hk') as (l & rest & wake & -> & ? & Hj).
      exists l, rest, wake. rewrite lookup_insert_ne by congruence. split_and!; [done..|].
      intros w Hw. rewrite lookup_insert_ne; [by apply Hj|]. intros ->. by eapply Hnot.
  - intros l k wake. destruct (decide (l = caller)) as [->|Hl].
    + rewrite lookup_insert_eq. intros [= <- <-]. exists []. apply lookup_insert_eq.
    + rewrite lookup_insert_ne by done. intros Hl'.
      destruct (ci_sleeping s I _ _ _ Hl') as [rest Hk]. exists rest.
      rewrite lookup_insert_ne; [done|]. congruence.
  - intros l k ws Hl. destruct (ci_drained s I _ _ _ Hl) as (? & ? & Hj).
    assert (l ≠ caller) by congruence. rewrite !lookup_insert_ne by done. split_and!; [done..|].
    intros w Hw. rewrite lookup_insert_ne; [by apply Hj|]. intros ->. specialize (Hj _ Hw). congruence.
  - intros l k Hl. destruct (ci_ran s I _ _ Hl) as (? & ? & ?).
    assert (l ≠ caller) by congruence. by rewrite !lookup_insert_ne by done.
  - intros w r Hw. destruct (ci_answers s I _ _ Hw) as (k & l & ? & ? & ?).
    exists k, l. rewrite lookup_insert_ne by congruence. done.
  - intros w k l. destruct (decide (w = caller)) as [->|Hw].
    + rewrite lookup_insert_eq. intros [= <- <-]. left. exists [caller].
      rewrite lookup_insert_eq. split; [done|by left].
    + rewrite lookup_insert_ne by done. intros Hj.
      destruct (ci_all s I _ _ _ Hj) as [(ws & ? & ?)|?]; [|by right].
      left. exists ws. rewrite lookup_insert_ne by congruence. done.
Qed.

Lemma cinv_join s caller key ws :
  cinv s → joined s !! caller = None → pending s !! key = Some ws →
  cinv (c_register caller key s).
Proof.
  intros I Hfresh Hp. destruct (cinv_fresh s caller I Hfresh) as (Hs & Hd & Hr & Hnot).
  destruct (ci_pending s I _ _ Hp) as (l0 & rest0 & wake0 & -> & Hsl & Hj0).
  unfold c_register. rewrite Hp. split; simpl.
  - intros k ws. destruct (decide (k = key)) as [->|Hk].
    + rewrite lookup_insert_eq. intros [= <-]. exists l0, (rest0 ++ [caller]), wake0.
      split_and!; [done|done|]. intros w Hw. destruct (decide (w = caller)) as [->|Hne].
      * by rewrite lookup_insert_eq.
      * rewrite lookup_insert_ne by done. apply Hj0. set_solver.
    + rewrite lookup_insert_ne by done. intros Hk'.
      destruct (ci_pending s I _ _ Hk') as (l & rest & wake & -> & ? & Hj).
      exists l, rest, wake. split_and!; [done..|].
      intros w Hw. rewrite lookup_insert_ne; [by apply Hj|]. intros ->. by eapply Hnot.
  - intros l k wake Hl. destruct (ci_sleeping s I _ _ _ Hl) as [rest Hk].
    destruct (decide (k = key)) as [->|Hne].
    + rewrite lookup_insert_eq. exists (rest ++ [caller]). by simplify_eq.
    + exists rest. by rewrite lookup_insert_ne.
  - intros l k ws Hl. destruct (ci_drained s I _ _ _ Hl) as (? & ? & Hj).
    assert (l ≠ caller) by congruence. rewrite !lookup_insert_ne by done. split_and!; [done..|].
    intros w Hw. rewrite lookup_insert_ne; [by apply Hj|]. intros ->. specialize (Hj _ Hw). congruence.
  - intros l k Hl. destruct (ci_ran s I _ _ Hl) as (? & ? & ?).
    assert (l ≠ caller) by congruence. by rewrite !lookup_insert_ne by done.
  - intros w r Hw. destruct (ci_answers s I _ _ Hw) as (k & l & ? & ? & ?).
    exists k, l. rewrite lookup_insert_ne by congruence. done.
  - intros w k l. destruct (decide (w = caller)) as [->|Hw].
    + rewrite lookup_insert_eq. intros [= <- <-]. left. exists (l0 :: rest0 ++ [caller]).
      rewrite lookup_insert_eq. split; [done|]. set_solver.
    + rewrite lookup_insert_ne by done. intros Hj.
      destruct (ci_all s I _ _ _ Hj) as [(ws & Hws & Hin)|?]; [|by right]. left.
      destruct (decide (k = key)) as [->|Hne].
      * exists (l0 :: rest0 ++ [caller]). rewrite lookup_insert_eq. split; [done|].
        simplify_eq. set_solver.
      * exists ws. by rewrite lookup_insert_ne.
Qed.

Lemma cinv_drain s leader key wake :
  cinv s → sleeping s !! leader = Some (key, wake) → cinv (c_drain leader key s).
Proof.
  intros I Hsl. destruct (ci_sleeping s I _ _ _ Hsl) as [rest0 Hp].
  destruct (ci_pending s I _ _ Hp) as (l0 & r0 & wake0 & [= <- <-] & _ & Hj0).
  unfold c_drain. rewrite Hp. split; simpl.
  - intros k ws. destruct (decide (k = key)) as [->|Hk]; [by rewrite lookup_delete_eq|].
    rewrite lookup_delete_ne by done. intros Hk'.
    destruct (ci_pending s I _ _ Hk') as (l & rest & wk & -> & Hl & Hj).
    exists l, rest, wk. rewrite lookup_delete_ne by congruence. done.
  - intros l k wk. destruct (decide (l = leader)) as [->|Hl]; [by rewrite lookup_delete_eq|].
    rewrite lookup_delete_ne by done. intros Hl'.
    destruct (ci_sleeping s I _ _ _ Hl') as [rest Hk]. exists rest.
    rewrite lookup_delete_ne; [done|]. congruence.
  - intros l k ws. destruct (decide (l = leader)) as [->|Hl].
    + rewrite lookup_insert_eq, lookup_delete_eq. simpl. intros [= <- <-].
      split_and!; [done| |done]. apply Hj0. by left.
    + rewrite lookup_insert_ne, lookup_delete_ne by done. apply (ci_drained s I).
  - intros l k Hl. destruct (ci_ran s I _ _ Hl) as (? & ? & ?).
    assert (l ≠ leader) by congruence.
    rewrite lookup_delete_ne, lookup_insert_ne by done. done.
  - apply (ci_answers s I).
  - intros w k l Hj. destruct (ci_all s I _ _ _ Hj) as [(ws & Hws & Hin)|[(ws & Hws & Hin)|?]].
    + destruct (decide (k = key)) as [->|Hne].
      * right; left. simplify_eq. rewrite Hj0 in Hj by done. injection Hj as <-.
        rewrite lookup_insert_eq. eauto.
      * left. exists ws. by rewrite lookup_delete_ne.
    + right; left. destruct (ci_drained s I _ _ _ Hws) as [? _].
      rewrite lookup_insert_ne by congruence. eauto.
    + by right; right.
Qed.

Lemma cinv_broadcast s leader key ws :
  cinv s → drained s !! leader = Some (key, ws) → cinv (c_broadcast leader key ws s).
Proof.
  intros I Hdr. destruct (ci_drained s I _ _ _ Hdr) as (Hsl & Hjl & Hjw).
  unfold c_broadcast. split; simpl.
  - apply (ci_pending s I).
  - apply (ci_sleeping s I).
  - intros l k ws'. destruct (decide (l = leader)) as [->|Hl]; [by rewrite lookup_delete_eq|].
    rewrite lookup_delete_ne by done. apply (ci_drained s I).
  - intros l k. destruct (decide (l = leader)) as [->|Hl].
    + rewrite lookup_insert_eq, lookup_delete_eq. intros [= <-]. done.
    + rewrite lookup_insert_ne, lookup_delete_ne by done. apply (ci_ran s I).
  - intros w r. rewrite foldr_insert_lookup. destruct (decide (w ∈ ws)) as [Hin|].
    + intros [= <-]. exists key, leader. rewrite lookup_insert_eq. auto.
    + intros Hw. destruct (ci_answers s I _ _ Hw) as (k & l & ? & Hr & ?). exists k, l.
      rewrite lookup_insert_ne; [done|]. intros ->.
      destruct (ci_ran s I _ _ Hr) as (_ & ? & _). congruence.
  - intros w k l Hj. rewrite foldr_insert_lookup.
    destruct (ci_all s I _ _ _ Hj) as [?|[(ws' & Hws & Hin)|?]]; [by left| |].
    + right. destruct (decide (l = leader)) as [->|Hne].
      * right. simplify_eq. rewrite decide_True by done. by eexists.
      * left. rewrite lookup_delete_ne by done. eauto.
    + right; right. by destruct (decide (w ∈ ws)).
Qed.

Lemma cinv_step s s' : cinv s → cstep s s' → cinv s'.
Proof.
  intros I Hstep. destruct Hstep as [caller key s Hf|dt s _|l key wake s Hsl _|l key ws s Hd].
  - destruct (pending s !! key) as [ws|] eqn:E; [by eapply cinv_join|by apply cinv_lead].
  - destruct I. by split.
  - by eapply cinv_drain.
  - by apply cinv_broadcast.
Qed.

(** C8: the coalescer runs one executor per group and loses no caller. In every
    reachable state: a caller's answer is the (cloned) result of the executor of the
    caller that opened its group, so callers of one group get the same answer; an
    executor that ran is not scheduled to run again; and once no spawned task is left,
    every caller that joined has its answer. *)
Theorem coalescer_one_run_per_group s :
  rtc cstep coalescer_new s →
  (∀ w key l r, joined s !! w = Some (key, l) → answers s !! w = Some r →
     r = clone_result (exec l) ∧ ran s !! l = Some key) ∧
  (∀ l, is_Some (ran s !! l) → sleeping s !! l = None ∧ drained s !! l = None) ∧
  (sleeping s = ∅ → drained s = ∅ → ∀ w, is_Some (joined s !! w) → is_Some (answers s !! w)).
Proof.
  intros Hr. assert (cinv s) as I.
  { eapply rtc_invariant; [apply cinv_new|apply cinv_step|exact Hr]. }
  split_and!.
  - intros w key l r Hj Ha. destruct (ci_answers s I _ _ Ha) as (k & l' & Hj' & ? & ->).
    by simplify_eq.
  - intros l [key Hl]. destruct (ci_ran s I _ _ Hl) as (? & ? & _). done.
  - intros Hs Hd w [[key l] Hj].
    destruct (ci_all s I _ _ _ Hj) as [(ws & Hp & _)|[(ws & Hp & _)|?]]; [| |done].
    + destruct (ci_pending s I _ _ Hp) as (? & ? & ? & _ & Hsl & _). by rewrite Hs in Hsl.
    + by rewrite Hd in Hp.
Qed.
End coalescer.

Definition demo_ok : result CachedResult (list string) := Ok (mkCached 0 [x61] []).
Definition demo_execs (caller : nat) : result CachedResult (list string) :=
  match caller with O => demo_ok | _ => Err ["late"; "cause"] end.

(** Caller 1 joins the group of caller 0 and gets its result. *)
Definition demo_group : CState :=
  c_broadcast demo_execs 0 "k" [0; 1]%nat
    (c_drain 0 "k"
       (mkCState 100 {[ "k" := [0; 1]%nat ]} {[ 0%nat := ("k", 100) ]} ∅
          {[ 1%nat := ("k", 0%nat); 0%nat := ("k", 0%nat) ]} ∅ ∅)).

Lemma coalescer_one_run_per_group_witness :
  answers demo_group !! 1%nat = Some demo_ok ∧
  (∀ l, is_Some (ran demo_group !! l) →
     sleeping demo_group !! l = None ∧ drained demo_group !! l = None).
Proof.
  split; [by vm_compute|].
  apply (coalescer_one_run_per_group 100 demo_execs demo_group).
  eapply rtc_l; [apply (cstep_register _ _ 0 "k"); reflexivity|].
  eapply rtc_l; [apply (cstep_register _ _ 1 "k"); reflexivity|].
  eapply rtc_l; [apply (cstep_tick _ _ 100); lia|].
  eapply rtc_l; [apply (cstep_drain _ _ 0 "k" 100); [reflexivity|vm_compute; congruence]|].
  eapply rtc_l; [apply (cstep_broadcast _ _ 0 "k" [0; 1]%nat); reflexivity|].
  apply rtc_refl.
Defined.
