(* ===== verification/Hypervisor.v ===== *)
(** The hypervisor engine, crates/sharecli-core/src/{hypervisor,types,fuse_guard}.rs:
    [run] and [run_queued] composed from the thermal gate, the cache key, the coalesce
    cache, the slot queue and the speculation tracker, and the life of the FUSE guard
    around a spawn.

    The child process, the FUSE mount, the resource sampler and the agent detector
    are arguments. *)
From S2P Require Import Prelude FleetGate CacheKey CoalesceCache SlotQueue Speculation.

(** * types.rs *)

Record HypervisorConfig : Type := mkConfig {
  queue_max_concurrent : nat;
  coalesce_ttl : Z;
  coalesce_debounce : Z;
  cache_key_mode : CacheKeyMode;
  semantic : bool;
}.

Record SpawnRequest : Type := mkRequest {
  req_argv : list string;
  req_cwd : string;
  req_env : list (string * string);
  queue_priority : QueuePriority;
}.

(** [from_operator] with the value of the environment variable; [new] has no rule. *)
Definition request_from_operator (env_var : option string) (argv : list string) (cwd : string)
    (env : list (string * string)) (rule : option string) : SpawnRequest :=
  mkRequest argv cwd env (resolve_operator_queue_priority env_var rule).
Definition request_new (env_var : option string) (argv : list string) (cwd : string)
    (env : list (string * string)) : SpawnRequest :=
  request_from_operator env_var argv cwd env None.
Definition with_queue_priority (p : QueuePriority) (r : SpawnRequest) : SpawnRequest :=
  mkRequest (req_argv r) (req_cwd r) (req_env r) p.

(** [ResourceWatchSample] and [DetectedAgent] are carried around untouched. *)
Record SpawnOutcome (Watch Agent : Type) : Type := mkOutcome {
  out_code : Z;
  out_stdout : list byte;
  out_stderr : list byte;
  from_cache : bool;
  resource_watch : option Watch;
  detected_agent : option Agent;
  fuse_session_id : option string;
  fuse_backing : option string;
  fuse_mountpoint : option string;
}.
Arguments mkOutcome {Watch Agent} _ _ _ _ _ _ _ _ _.
Arguments out_code {Watch Agent} _.
Arguments out_stdout {Watch Agent} _.
Arguments out_stderr {Watch Agent} _.
Arguments from_cache {Watch Agent} _.
Arguments resource_watch {Watch Agent} _.
Arguments detected_agent {Watch Agent} _.
Arguments fuse_session_id {Watch Agent} _.
Arguments fuse_backing {Watch Agent} _.
Arguments fuse_mountpoint {Watch Agent} _.

(** The two [From] conversions. *)
#[global] Instance outcome_conv {W A} : CachedConv (SpawnOutcome W A) :=
  {| into_cached := λ o, mkCached (out_code o) (out_stdout o) (out_stderr o);
     from_cached := λ c, mkOutcome (exit_code c) (stdout c) (stderr c) true
                           None None None None None |}.

Definition fuse_intercept_active {W A} (o : SpawnOutcome W A) : bool :=
  match fuse_session_id o with Some _ => true | None => false end.

(** * fuse_guard.rs *)

Definition FUSE_READY_TIMEOUT : Z := 5000.
Definition FUSE_READY_POLL : Z := 50.
Definition FUSE_READY_MARKER : string := ".sharecli-fuse-ready".

Definition fuse_session_id_for_command_key (key : string) : string :=
  let prefix := if (16 <=? String.length key)%nat then String.substring 0 16 key else key in
  "hv-" +:+ prefix.

(** [wait_fuse_mount_ready]: [ready n] and [failed n] are what the [n]-th round sees.
    Returns the outcome and the time waited; [None] means that the fuel ran out. *)
Fixpoint wait_fuse_mount_ready (fuel n : nat) (ready : nat → bool)
    (failed : nat → option string) (timeout poll waited : Z)
  : option (result unit string * Z) :=
  match fuel with
  | O => None
  | S fuel' =>
      if waited <? timeout then
        if ready n then Some (Ok tt, waited)
        else match failed n with
             | Some msg => Some (Err ("sharecli-fuse mount failed: " +:+ msg), waited)
             | None => wait_fuse_mount_ready fuel' (S n) ready failed timeout poll (waited + poll)
             end
      else Some (Err "sharecli-fuse mount readiness timed out", waited)
  end.

(** What mounting meets: the temporary directory, the write of the marker, and what
    each readiness round sees. *)
Record FuseEnv : Type := mkFuseEnv {
  fuse_tempdir : result string string;
  fuse_write_marker : option string;
  fuse_ready : nat → bool;
  fuse_failed : nat → option string;
}.

Record FuseGuard : Type := mkGuard {
  mountpoint : option string;
  readiness_marker : option string;
}.
Definition guard_noop : FuseGuard := mkGuard None None.

Definition marker_path (backing : string) (pid : Z) : string :=
  backing +:+ "/" +:+ FUSE_READY_MARKER +:+ "-" +:+ show_u pid.

(** [FuseGuard::try_mount] on the set of marker files: 101 rounds cover the timeout. *)
Definition try_mount (fe : FuseEnv) (pid : Z) (backing : string) (markers : gset string)
  : gset string * Z * FuseGuard :=
  match fuse_tempdir fe with
  | Err _ => (markers, 0, guard_noop)
  | Ok mp =>
      match fuse_write_marker fe with
      | Some _ => (markers, 0, guard_noop)
      | None =>
          let marker := marker_path backing pid in
          let markers' := {[marker]} ∪ markers in
          match wait_fuse_mount_ready 101 0 (fuse_ready fe) (fuse_failed fe)
                  FUSE_READY_TIMEOUT FUSE_READY_POLL 0 with
          | Some (Ok _, waited) => (markers', waited, mkGuard (Some mp) (Some marker))
          | Some (Err _, waited) => (markers' ∖ {[marker]}, waited, guard_noop)
          | None => (markers', 0, guard_noop)
          end
      end
  end.

(** The part of [Drop for FuseGuard] that touches the backing tree. *)
Definition fuse_guard_drop (g : FuseGuard) (markers : gset string) : gset string :=
  match readiness_marker g with
  | Some m => markers ∖ {[m]}
  | None => markers
  end.

(** * hypervisor.rs *)

Record Hypervisor (G : Type) : Type := mkHypervisor {
  h_cache : CoalesceCache;
  h_queue : SlotQueue;
  h_nocache : list string;
  h_config : HypervisorConfig;
  h_gate : G;
}.
Arguments mkHypervisor {G} _ _ _ _ _.
Arguments h_cache {G} _.
Arguments h_queue {G} _.
Arguments h_nocache {G} _.
Arguments h_config {G} _.
Arguments h_gate {G} _.

Definition with_options {G} (cfg : HypervisorConfig) (gate : G) (nocache : list string)
  : Hypervisor G :=
  mkHypervisor (mkCache (coalesce_ttl cfg) (coalesce_debounce cfg))
    (queue_new (queue_max_concurrent cfg)) nocache cfg gate.

Definition with_thermal_gate {G} (gate : G) : Hypervisor G :=
  with_options (mkConfig 1 DEFAULT_TTL 0 KeyTime false) gate DEFAULT_NOCACHE_ARGS.

Definition from_config_with_gate {G} (cfg : HypervisorConfig) (gate : G) : Hypervisor G :=
  with_options cfg gate [].

Definition set_nocache_args {G} (flags : list string) (h : Hypervisor G) : Hypervisor G :=
  mkHypervisor (h_cache h) (h_queue h) flags (h_config h) (h_gate h).

(** [argv.first().unwrap_or("unknown").rsplit('/').next()]. *)
Definition queue_lane_from_argv (argv : list string) : string :=
  default "unknown" (last (split_on "/" (default "unknown" (head argv)))).

Inductive HError : Type :=
| HThermal
| HWatch (msg : string)
| HCache (e : CacheError)
| HQueue (e : QueueError).

(** The world of one hypervisor: the cache directory with clock and meters, the
    lanes (waiting directory, held slots), the tracker, the readiness markers under
    the backing trees and the number of gate polls so far. *)
Record HWorld : Type := mkHWorld {
  h_world : World;
  h_lanes : gmap string (gset string * gset nat);
  h_slot_meters : SlotQueueMeters;
  h_tracker : SpeculationTracker;
  h_markers : gset string;
  h_polls : nat;
}.

Definition on_world (f : World → World) (w : HWorld) : HWorld :=
  mkHWorld (f (h_world w)) (h_lanes w) (h_slot_meters w) (h_tracker w) (h_markers w) (h_polls w).
Definition on_tracker (f : SpeculationTracker → SpeculationTracker) (w : HWorld) : HWorld :=
  mkHWorld (h_world w) (h_lanes w) (h_slot_meters w) (f (h_tracker w)) (h_markers w) (h_polls w).
Definition on_markers (f : gset string → gset string) (w : HWorld) : HWorld :=
  mkHWorld (h_world w) (h_lanes w) (h_slot_meters w) (h_tracker w) (f (h_markers w)) (h_polls w).

(** A cache operation inside the hypervisor's world. *)
Definition in_cache {A} (m : stm World CacheError A) : stm HWorld HError A := λ w,
  let '(w', r) := m (h_world w) in
  (on_world (λ _, w') w, match r with Ok a => Ok a | Err e => Err (HCache e) end).

(** A slot-queue operation on one lane; the clock is shared. *)
Definition lane_view (lane : string) (w : HWorld) : QWorld :=
  let '(waiting, held) := default (∅, ∅) (h_lanes w !! lane) in
  mkQWorld (now (h_world w)) waiting held (h_slot_meters w).
Definition lane_put (lane : string) (q : QWorld) (w : HWorld) : HWorld :=
  mkHWorld (mkWorld (qnow q) (dir (h_world w)) (meters (h_world w)))
    (<[lane := (waiting q, held q)]> (h_lanes w)) (qmeters q) (h_tracker w) (h_markers w)
    (h_polls w).

Definition slot_fuel (q : SlotQueue) : nat := Z.to_nat (timeout q / poll q + 2).

Section run.
Context {G : Type} `{ThermalGate G} {Watch Agent : Type}.
(** serde_json, SHA-256, git, the file system seen by the path normaliser. *)
Variables (to_vec : CachedResult → option (list byte))
          (from_slice : list byte → option CachedResult)
          (sha256 : string → string)
          (fingerprint : string → string)
          (dir_view : string → string → option (option string)).
(** System calls of the cache and the queue, and what other processes do. *)
Variables (io : CacheIo) (sch : Schedule) (qenv : QueueEnv) (fe : FuseEnv).
(** The child: its output and how long it ran. *)
Variable proc : list string → string → list (string * string) → ProcOutput * Z.
(** [ResourceWatchSample::capture], [detect_caller_agent], process id, ticket number. *)
Variables (capture : HWorld → result Watch string) (agent : HWorld → option Agent).
Variables (pid seq : Z).
Variable h : Hypervisor G.

(** [spawn_process_sync] and the time it took. *)
Definition spawn_process_sync (req : SpawnRequest)
  : result (SpawnOutcome Watch Agent) string * Z :=
  match req_argv req with
  | [] => (Err "spawn_process_sync: argv is empty", 0)
  | _ :: _ =>
      match proc (req_argv req) (req_cwd req) (req_env req) with
      | (SpawnFailed e, t) => (Err ("failed to spawn: " +:+ e), t)
      | (Exited code out err, t) =>
          (Ok (mkOutcome (default (-1) code) out err false None None None None None), t)
      end
  end.

(** The spawn as the closure handed to [with_slot] and to [with_lock_detailed]. *)
Definition spawn_in_slot (req : SpawnRequest)
  : stm QWorld QueueError (SpawnOutcome Watch Agent) := λ q,
  match spawn_process_sync req with
  | (Ok o, t) => (q_sleep t q, Ok o)
  | (Err e, t) => (q_sleep t q, Err (QRun e))
  end.
Definition spawn_in_lock (req : SpawnRequest) : stm World CacheError CachedResult := λ w,
  match spawn_process_sync req with
  | (Ok o, t) => (advance t w, Ok (mkCached (out_code o) (out_stdout o) (out_stderr o)))
  | (Err e, t) => (advance t w, Err (RunFailed e))
  end.

(** [thermal_gate_check], which sleeps between polls. *)
Definition gate_step : stm HWorld HError unit := λ w,
  match thermal_gate_loop 5 (h_gate h) 0 (mkGateTrace (h_polls w) 0) with
  | Some (r, tr) =>
      (mkHWorld (advance (slept_ms tr) (h_world w)) (h_lanes w) (h_slot_meters w)
         (h_tracker w) (h_markers w) (polls tr),
       match r with Ok _ => Ok tt | Err _ => Err HThermal end)
  | None => (w, Err HThermal)
  end.

Definition capture_step : stm HWorld HError (Watch * option Agent) := λ w,
  (w, match capture w with Ok x => Ok (x, agent w) | Err e => Err (HWatch e) end).

Definition slot_step (lane : string) (req : SpawnRequest)
  : stm HWorld HError (SpawnOutcome Watch Agent) := λ w,
  match with_slot (h_queue h) qenv (queue_priority req) (slot_fuel (h_queue h)) pid seq
          (spawn_in_slot req) (lane_view lane w) with
  | Some (q, Ok o) => (lane_put lane q w, Ok o)
  | Some (q, Err e) => (lane_put lane q w, Err (HQueue e))
  | None => (w, Err (HQueue QTimeout))
  end.

Definition run_queued (req : SpawnRequest) (lane : string)
  : stm HWorld HError (SpawnOutcome Watch Agent) :=
  gate_step ;;;
  wa <- capture_step ;;
  st_mod (on_world (λ w, set_meters (record_nocache_run (meters w)) w)) ;;;
  o <- slot_step lane req ;;
  st_ret (mkOutcome (out_code o) (out_stdout o) (out_stderr o) false
            (Some wa.1) wa.2 None None None).

(** The key is taken from the original working directory. *)
Definition request_key (req : SpawnRequest) : string :=
  let argv_for_key :=
    if semantic (h_config h) then semantic_normalize_argv dir_view (req_argv req) (req_cwd req)
    else req_argv req in
  command_key_with_mode sha256 (cache_key_mode (h_config h)) argv_for_key (req_cwd req)
    (req_env req) (fingerprint (req_cwd req)).

Definition note_hit (key : string) (req : SpawnRequest) : stm HWorld HError unit :=
  st_mod (λ w, on_tracker (record_hit (now (h_world w)) key (req_argv req) (req_cwd req)
                             (req_env req)) w).

Definition mount_step (req : SpawnRequest) : stm HWorld HError FuseGuard := λ w,
  let '(ms, waited, g) := try_mount fe pid (req_cwd req) (h_markers w) in
  (on_world (advance waited) (on_markers (λ _, ms) w), Ok g).

Definition effective_request (g : FuseGuard) (req : SpawnRequest) : SpawnRequest :=
  match mountpoint g with
  | Some mp => mkRequest (req_argv req) mp (req_env req) (queue_priority req)
  | None => req
  end.

Definition coalesce_via_lock (key : string) (req : SpawnRequest)
  : stm HWorld HError (CachedResult * CoalesceHitKind) :=
  in_cache (with_lock_detailed to_vec from_slice io (h_cache h) sch key (spawn_in_lock req)).

(** From the mount to the end of [run]; the guard is dropped on every exit. *)
Definition miss_path (key : string) (req : SpawnRequest) (wa : Watch * option Agent)
  : stm HWorld HError (SpawnOutcome Watch Agent) :=
  g <- mount_step req ;;
  λ w,
    let '(w', r) :=
      (ck <- coalesce_via_lock key (effective_request g req) ;;
       let '(cached, kind) := (ck : CachedResult * CoalesceHitKind) in
       (if shared_from_cache kind then note_hit key req else st_ret tt) ;;;
       st_ret (mkOutcome (exit_code cached) (stdout cached) (stderr cached)
                 (shared_from_cache kind) (Some wa.1) wa.2
                 ((λ _, fuse_session_id_for_command_key key) <$> mountpoint g)
                 ((λ _, req_cwd req) <$> mountpoint g)
                 (mountpoint g))) w in
    (on_markers (fuse_guard_drop g) w', r).

Definition run (req : SpawnRequest) : stm HWorld HError (SpawnOutcome Watch Agent) :=
  gate_step ;;;
  wa <- capture_step ;;
  if has_nocache_arg (req_argv req) (h_nocache h)
  then run_queued req (queue_lane_from_argv (req_argv req))
  else
    let key := request_key req in
    cached <- in_cache (lookup from_slice io (h_cache h) key) ;;
    match cached with
    | Some c =>
        st_mod (on_world (λ w, set_meters (record_coalesce_lookup_hit (meters w)) w)) ;;;
        note_hit key req ;;;
        st_ret (mkOutcome (exit_code c) (stdout c) (stderr c) true (Some wa.1) wa.2
                  None None None)
    | None => miss_path key req wa
    end.
End run.

(** * Lemmas: the FUSE guard *)

(** The readiness loop returns, within one poll of the timeout. *)
Lemma wait_fuse_mount_ready_total fuel n ready failed tmo poll waited :
  0 < poll → (0 < fuel)%nat → tmo - waited ≤ (Z.of_nat fuel - 1) * poll →
  ∃ r t, wait_fuse_mount_ready fuel n ready failed tmo poll waited = Some (r, t) ∧
         (t ≤ waited ∨ t < tmo + poll).
Proof.
  intros Hp. revert n waited. induction fuel as [|fuel IH]; intros n waited Hf Hd; [lia|].
  cbn [wait_fuse_mount_ready]. destruct (waited <? tmo) eqn:E; bool_prop.
  - destruct (ready n); [eexists _, _; split; [done|lia]|].
    destruct (failed n); [eexists _, _; split; [done|lia]|].
    destruct (IH (S n) (waited + poll)) as (r & t & -> & Ht); [destruct fuel; lia|lia|].
    exists r, t. split; [done|lia].
  - eexists _, _. split; [done|lia].
Qed.

Lemma wait_fuse_mount_ready_probed fuel n ready failed tmo poll waited t :
  wait_fuse_mount_ready fuel n ready failed tmo poll waited = Some (Ok tt, t) →
  ∃ k, ready k = true.
Proof.
  revert n waited. induction fuel as [|fuel IH]; intros n waited; [done|].
  cbn [wait_fuse_mount_ready]. destruct (_ <? _); [|done].
  destruct (ready n) eqn:Er; [by eauto|]. destruct (failed n); [done|]. apply IH.
Qed.

(** Mounting and dropping leave the backing tree as it was; the mountpoint is only
    handed out for a mount that answered the probe. *)
Lemma try_mount_drop fe pid backing markers ms t g :
  marker_path backing pid ∉ markers →
  try_mount fe pid backing markers = (ms, t, g) →
  fuse_guard_drop g ms = markers ∧
  (is_Some (mountpoint g) → ∃ n, fuse_ready fe n = true).
Proof.
  intros Hm. unfold try_mount.
  destruct (fuse_tempdir fe) as [mp|]; [|intros [= <- _ <-]; by split; [|intros [? [=]]]].
  destruct (fuse_write_marker fe); [intros [= <- _ <-]; by split; [|intros [? [=]]]|].
  destruct (wait_fuse_mount_ready_total 101 0 (fuse_ready fe) (fuse_failed fe)
              FUSE_READY_TIMEOUT FUSE_READY_POLL 0) as (r & t' & E & _);
    [done|lia|vm_compute; congruence|].
  assert (({[marker_path backing pid]} ∪ markers) ∖ {[marker_path backing pid]} = markers)
    as Hdrop by set_solver.
  rewrite E. destruct r as [[]|]; intros [= <- _ <-].
  - split; [exact Hdrop|]. intros _. by eapply wait_fuse_mount_ready_probed.
  - split; [exact Hdrop|by intros [? [=]]].
Qed.

(** * Properties *)

Section properties.
Context {G : Type} `{ThermalGate G} {Watch Agent : Type}.
Variables (to_vec : CachedResult → option (list byte))
          (from_slice : list byte → option CachedResult)
          (sha256 : string → string)
          (fingerprint : string → string)
          (dir_view : string → string → option (option string)).
Variables (io : CacheIo) (sch : Schedule) (qenv : QueueEnv) (fe : FuseEnv).
Variables (capture : HWorld → result Watch string) (agent : HWorld → option Agent).
Variables (pid seq : Z).
Variable h : Hypervisor G.

Local Notation Proc := (list string → string → list (string * string) → ProcOutput * Z).

Lemma run_queued_not_cached (proc : Proc) req lane w w' o :
  run_queued qenv proc capture agent pid seq h req lane w = (w', Ok o) →
  from_cache o = false.
Proof.
  unfold run_queued, st_bind, st_mod, st_ret.
  destruct (gate_step h w) as [w1 [[]|]]; [|done].
  destruct (capture_step capture agent w1) as [w2 [wa|]]; [|done].
  destruct (slot_step _ _ _ _ _ _ _ _) as [w3 [o3|]]; [|done]. by intros [= _ <-].
Qed.

(** C5: a result reported as cached cost no process. Whenever [run] answers with
    [from_cache] set, it answers exactly the same, in the same final world, for any
    other behaviour of child processes: none was consulted. *)
Theorem run_from_cache_spawns_nothing (proc proc' : Proc) req w w' o :
  run to_vec from_slice sha256 fingerprint dir_view io sch qenv fe proc capture agent pid seq h
    req w = (w', Ok o) → from_cache o = true →
  run to_vec from_slice sha256 fingerprint dir_view io sch qenv fe proc' capture agent pid seq h
    req w = (w', Ok o).
Proof.
  unfold run. intros Hrun Hc. rewrite st_bind_run in Hrun |- *.
  destruct (gate_step h w) as [w1 [[]|]]; [|done]. rewrite st_bind_run in Hrun |- *.
  destruct (capture_step capture agent w1) as [w2 [wa|]]; [|done].
  destruct (has_nocache_arg _ _).
  { apply run_queued_not_cached in Hrun. congruence. }
  cbv zeta in Hrun |- *. rewrite st_bind_run in Hrun |- *.
  destruct (in_cache _ _) as [w3 [[c|]|]]; [done| |done].
  unfold miss_path in *. rewrite st_bind_run in Hrun |- *.
  destruct (mount_step _ _ _ _) as [w4 [g|]]; [|done].
  unfold st_bind, coalesce_via_lock, in_cache in *.
  destruct (with_lock_detailed _ _ _ _ _ _ (spawn_in_lock proc _) _) as [w5 [[cr k]|e]] eqn:E;
    [|by injection Hrun].
  assert (shared_from_cache k = true) as Hk.
  { destruct k; simpl in Hrun; injection Hrun as _ <-; done. }
  erewrite with_lock_shared; [exact Hrun|exact E|done].
Qed.

(** An open gate costs one poll and no time. *)
Lemma gate_step_open (hv : Hypervisor G) w :
  gate_check (h_gate hv) (h_polls w) ≠ Refuse →
  gate_step hv w = (mkHWorld (advance 0 (h_world w)) (h_lanes w) (h_slot_meters w)
                     (h_tracker w) (h_markers w) (S (h_polls w)), Ok tt).
Proof.
  intros Hg. unfold gate_step. cbn [thermal_gate_loop polls slept_ms].
  by destruct (gate_check (h_gate hv) (h_polls w)).
Qed.

(** The gate step changes nothing but the clock and the poll count. *)
Lemma gate_step_frame w w' r :
  gate_step h w = (w', r) →
  dir (h_world w') = dir (h_world w) ∧ h_markers w' = h_markers w ∧
  h_tracker w' = h_tracker w.
Proof. unfold gate_step. destruct (thermal_gate_loop _ _ _ _) as [[[] tr]|]; by intros [= <- _]. Qed.

(** What a successful, not cached [run] on the coalescing path left: if the command
    exited with 0, the fresh entry of its result. *)
Lemma run_miss_stores (proc : Proc) req w w' o :
  run to_vec from_slice sha256 fingerprint dir_view io sch qenv fe proc capture agent pid seq h
    req w = (w', Ok o) →
  has_nocache_arg (req_argv req) (h_nocache h) = false →
  from_cache o = false → out_code o = 0 → 0 < ttl (h_cache h) →
  ∃ b, to_vec (mkCached (out_code o) (out_stdout o) (out_stderr o)) = Some b ∧
    dir (h_world w') !! entry_path (request_key sha256 fingerprint dir_view h req)
    = Some (mkFile (now (h_world w')) b).
Proof.
  unfold run. intros Hrun Hnc Hc Ho Httl. rewrite st_bind_run in Hrun.
  destruct (gate_step h w) as [w1 [[]|]]; [|done]. rewrite st_bind_run in Hrun.
  destruct (capture_step capture agent w1) as [w2 [wa|]]; [|done].
  rewrite Hnc in Hrun. cbv zeta in Hrun. rewrite st_bind_run in Hrun.
  destruct (in_cache _ w2) as [w3 [[c|]|]]; [|clear w1 w2|done].
  { injection Hrun as _ <-. done. }
  unfold miss_path in Hrun. rewrite st_bind_run in Hrun.
  destruct (mount_step _ _ _ _) as [w4 [g|]]; [|done].
  unfold st_bind, coalesce_via_lock, in_cache in Hrun.
  destruct (with_lock_detailed _ _ _ _ _ _ _ _) as [w5 [[cr k]|e]] eqn:E;
    [|by injection Hrun].
  destruct (shared_from_cache k) eqn:Hk; injection Hrun as <- <-; simpl in Hc; [done|].
  apply with_lock_ok in E as [(? & ? & Hm & _)|(_ & wf & wf' & ws & value & _ & Hf & -> & -> & Hcase)].
  { by destruct k. }
  simpl in Ho. destruct Hcase as [[? _]|[_ Hst]]; [done|].
  apply store_ok in Hst as (b & Hb & Hn & _ & Hd). exists b. simpl.
  split; [by destruct value|]. rewrite Hn. by apply Hd.
Qed.


(** C9: mutating commands never touch the coalesce cache. When the argument vector has
    one of the no-cache flags, [run] leaves the cache directory, the speculation tracker
    and the FUSE markers exactly as they were, on success and on every error path, and
    never reports a cached result. *)
Theorem run_nocache_bypasses_cache (proc : Proc) req w w' r :
  has_nocache_arg (req_argv req) (h_nocache h) = true →
  run to_vec from_slice sha256 fingerprint dir_view io sch qenv fe proc capture agent pid seq h
    req w = (w', r) →
  dir (h_world w') = dir (h_world w) ∧ h_tracker w' = h_tracker w ∧
  h_markers w' = h_markers w ∧ (∀ o, r = Ok o → from_cache o = false).
Proof.
  unfold run. intros Hnc Hrun. rewrite st_bind_run in Hrun.
  destruct (gate_step h w) as [w1 [[]|]] eqn:Hg; apply gate_step_frame in Hg as (Hd & Hm & Ht).
  2: { injection Hrun as <- <-. split_and!; done. }
  rewrite st_bind_run in Hrun. unfold capture_step at 1 in Hrun.
  destruct (capture w1); [|injection Hrun as <- <-; split_and!; done].
  rewrite Hnc in Hrun.
  assert (∀ o, r = Ok o → from_cache o = false) as Hfc.
  { intros o ->. by eapply run_queued_not_cached. }
  rewrite <- Hd, <- Hm, <- Ht. clear Hd Hm Ht w Hnc.
  unfold run_queued in Hrun. rewrite st_bind_run in Hrun.
  destruct (gate_step h w1) as [w2 [[]|]] eqn:Hg; apply gate_step_frame in Hg as (Hd & Hm & Ht).
  2: { injection Hrun as <- <-. done. }
  rewrite st_bind_run in Hrun. unfold capture_step in Hrun.
  destruct (capture w2); [|injection Hrun as <- <-; done].
  unfold st_bind, st_mod, slot_step in Hrun. rewrite <- Hd, <- Hm, <- Ht.
  destruct (with_slot _ _ _ _ _ _ _ _) as [[q [o|e]]|]; injection Hrun as <- <-; done.
Qed.

(** A gate that stays at Refuse stops the spawn, visibly and without side effects:
    [run] fails with the thermal error after five polls and eight seconds, and the
    cache, lanes, meters, tracker and markers are untouched, whatever the command. *)
Theorem run_refused_has_no_effect (proc : Proc) req w :
  (∀ n, gate_check (h_gate h) n = Refuse) →
  run to_vec from_slice sha256 fingerprint dir_view io sch qenv fe proc capture agent pid seq h
    req w =
    (mkHWorld (advance 8000 (h_world w)) (h_lanes w) (h_slot_meters w) (h_tracker w)
       (h_markers w) (5 + h_polls w), Err HThermal).
Proof.
  intros Hg. unfold run. rewrite st_bind_run. unfold gate_step.
  cbn [thermal_gate_loop polls slept_ms]. by rewrite !Hg.
Qed.

(** The intercept layer leaves no trace in the user's tree and is reported only when
    it was live: on every exit of [run], errors included, the readiness markers are those
    of before (when this process had none there), and an outcome that names a mountpoint
    comes with the session id and the backing directory of the request, from a mount that
    answered the readiness probe. *)
Theorem run_cleans_up_fuse (proc : Proc) req w w' r :
  marker_path (req_cwd req) pid ∉ h_markers w →
  run to_vec from_slice sha256 fingerprint dir_view io sch qenv fe proc capture agent pid seq h
    req w = (w', r) →
  h_markers w' = h_markers w ∧
  ∀ o mp, r = Ok o → fuse_mountpoint o = Some mp →
    fuse_backing o = Some (req_cwd req) ∧ fuse_intercept_active o = true ∧
    ∃ n, fuse_ready fe n = true.
Proof.
  unfold run. intros Hm Hrun. rewrite st_bind_run in Hrun.
  destruct (gate_step h w) as [w1 [[]|]] eqn:Hg; apply gate_step_frame in Hg as (_ & Hm1 & _).
  2: { by injection Hrun as <- <-. }
  rewrite st_bind_run in Hrun. unfold capture_step at 1 in Hrun.
  destruct (capture w1); [|by injection Hrun as <- <-].
  rewrite <- Hm1 in Hm |- *. clear w Hm1.
  destruct (has_nocache_arg _ _).
  { unfold run_queued in Hrun. rewrite st_bind_run in Hrun.
    destruct (gate_step h w1) as [w2 [[]|]] eqn:Hg; apply gate_step_frame in Hg as (_ & Hm2 & _).
    2: { by injection Hrun as <- <-. }
    rewrite st_bind_run in Hrun. unfold capture_step in Hrun.
    destruct (capture w2); [|by injection Hrun as <- <-]. rewrite <- Hm2.
    unfold st_bind, st_mod, slot_step in Hrun.
    destruct (with_slot _ _ _ _ _ _ _ _) as [[q [o|e]]|]; injection Hrun as <- <-;
      (split; [done|]); intros o' mp; [intros [= <-]|..]; done. }
  cbv zeta in Hrun. rewrite st_bind_run in Hrun. unfold in_cache at 1 in Hrun.
  destruct (lookup _ _ _ _ _) as [w2 [[c|]|e]] eqn:El.
  - injection Hrun as <- <-. split; [done|]. by intros o mp [= <-].
  - unfold miss_path in Hrun. rewrite st_bind_run in Hrun. unfold mount_step in Hrun. simpl in Hrun.
    destruct (try_mount _ _ _ _) as [[ms t] g] eqn:Et. apply try_mount_drop in Et as [Hdrop Hready]; [|done].
    unfold coalesce_via_lock, in_cache, st_bind in Hrun.
    destruct (with_lock_detailed _ _ _ _ _ _ _ _) as [w5 [[cr k]|e]];
      [destruct (shared_from_cache k)|]; injection Hrun as <- <-; simpl; (split; [done|]);
      intros o mp; [intros [= <-]|intros [= <-]|done]; simpl; intros Hmp; rewrite Hmp in *;
      (split_and!; [done..|]); by apply Hready.
  - by injection Hrun as <- <-.
Qed.
End properties.

(** * Witnesses *)

Definition demo_hyper (d : ThermalDecision) : Hypervisor FakeThermalGate :=
  with_thermal_gate (mkFakeGate d).
Definition demo_fuse : FuseEnv :=
  mkFuseEnv (Ok "/tmp/mp") None (λ n, (2 <=? n)%nat) (λ _, None).
Definition demo_hworld : HWorld :=
  mkHWorld demo_world ∅ slot_meters_zero tracker_new ∅ 0.
Definition demo_proc (code : Z) :
    list string → string → list (string * string) → ProcOutput * Z :=
  λ _ _ _, (Exited (Some code) [x61] [], 70).
Definition demo_req (argv : list string) : SpawnRequest := request_new None argv "/repo" [].

(** [run] with a concrete serialiser and an identity digest. *)
Definition demo_hrun (d : ThermalDecision) (code : Z) (argv : list string)
  : stm HWorld HError (SpawnOutcome unit unit) :=
  run simple_to_vec simple_from_slice (λ s, s) (λ _, EmptyString) (λ _ _, None)
    io_good quiet env_quiet demo_fuse (demo_proc code) (λ _, Ok tt) (λ _, None) 42 0
    (demo_hyper d) (demo_req argv).

Definition demo_w1 : HWorld := (demo_hrun Allow 0 ["make"] demo_hworld).1.

Lemma run_from_cache_spawns_nothing_witness :
  ∃ w' o, demo_hrun Allow 9 ["make"] demo_w1 = (w', Ok o) ∧ from_cache o = true ∧
          out_code o = 0.
Proof.
  destruct (demo_hrun Allow 0 ["make"] demo_w1) as [w' [o|e]] eqn:E;
    [|vm_compute in E; discriminate E].
  exists w', o.
  assert (from_cache o = true ∧ out_code o = 0) as [Hc Ho].
  { vm_compute in E. injection E as _ <-. split; reflexivity. }
  split; [|split; [exact Hc|exact Ho]]. unfold demo_hrun in *.
  eapply run_from_cache_spawns_nothing; [exact E|exact Hc].
Defined.

(** The same with a key mode, a state of the work tree and a process id of its own. *)
Definition demo_hrun_at (mode : CacheKeyMode) (tree : string) (pid : Z) (code : Z)
  : stm HWorld HError (SpawnOutcome unit unit) :=
  run simple_to_vec simple_from_slice (λ s, s) (λ _, tree) (λ _ _, None)
    io_good quiet env_quiet demo_fuse (demo_proc code) (λ _, Ok tt) (λ _, None) pid 0
    (with_options (mkConfig 1 DEFAULT_TTL 0 mode false) (mkFakeGate Allow) DEFAULT_NOCACHE_ARGS)
    (demo_req ["make"]).


(** In the git mode the same command misses once the tree has changed, and hits
    while it has not. *)
Definition served_from_cache (x : HWorld * result (SpawnOutcome unit unit) HError) : option bool :=
  match x.2 with Ok o => Some (from_cache o) | Err _ => None end.

Lemma git_mode_follows_tree :
  let w := (demo_hrun_at KeyGit "" 42 0 demo_hworld).1 in
  served_from_cache (demo_hrun_at KeyGit "" 43 0 w) = Some true ∧
  served_from_cache (demo_hrun_at KeyGit " M a.rs" 43 0 w) = Some false.
Proof. by vm_compute. Qed.

Lemma run_nocache_bypasses_cache_witness :
  let w' := (demo_hrun Allow 0 ["/usr/bin/ruff"; "--fix"] demo_hworld).1 in
  dir (h_world w') = ∅ ∧ h_lanes w' !! "ruff" = Some (∅, ∅).
Proof.
  intros w'. split; [|by vm_compute].
  refine (proj1 (run_nocache_bypasses_cache simple_to_vec simple_from_slice (λ s, s)
    (λ _, EmptyString) (λ _ _, None) io_good quiet env_quiet demo_fuse (λ _, Ok tt)
    (λ _, None : option unit) 42 0 (demo_hyper Allow) (demo_proc 0)
    (demo_req ["/usr/bin/ruff"; "--fix"]) demo_hworld w'
    (demo_hrun Allow 0 ["/usr/bin/ruff"; "--fix"] demo_hworld).2 _ _)).
  - by vm_compute.
  - unfold w', demo_hrun. by destruct (run _ _ _ _ _ _ _ _ _ _ _ _ _ _ _ _ _).
Defined.

Lemma run_refused_has_no_effect_witness :
  (demo_hrun Refuse 0 ["make"] demo_hworld).2 = Err HThermal.
Proof.
  unfold demo_hrun.
  rewrite (run_refused_has_no_effect simple_to_vec simple_from_slice (λ s, s)
    (λ _, EmptyString) (λ _ _, None) io_good quiet env_quiet demo_fuse (λ _, Ok tt)
    (λ _, None : option unit) 42 0 (demo_hyper Refuse) (demo_proc 0)); [done|].
  intros n. reflexivity.
Defined.

Lemma run_cleans_up_fuse_witness :
  h_markers demo_w1 = ∅ ∧
  (fuse_mountpoint <$> match (demo_hrun Allow 0 ["make"] demo_hworld).2 with
                       | Ok o => Some o | Err _ => None end) = Some (Some "/tmp/mp").
Proof.
  split; [|by vm_compute].
  refine (proj1 (run_cleans_up_fuse simple_to_vec simple_from_slice (λ s, s)
    (λ _, EmptyString) (λ _ _, None) io_good quiet env_quiet demo_fuse (λ _, Ok tt)
    (λ _, None : option unit) 42 0 (demo_hyper Allow) (demo_proc 0)
    (demo_req ["make"]) demo_hworld demo_w1
    (demo_hrun Allow 0 ["make"] demo_hworld).2 _ _)).
  - by apply (bool_decide_unpack _).
  - unfold demo_w1, demo_hrun. by destruct (run _ _ _ _ _ _ _ _ _ _ _ _ _ _ _ _ _).
Defined.
