(* ===== verification/BackingFs.v ===== *)
(** The part of [std::fs] and of extended attributes the FUSE crate calls, as
    operations on a tree of nodes. There are no symbolic links or hard links; every
    call may also fail with an error chosen by the environment, before it has had any
    effect, so that partial writes are left out. *)
From S2P Require Import Prelude.

Inductive Errno : Type :=
| ENOENT | EEXIST | EISDIR | ENOTDIR | ENOTEMPTY | EINVAL | EPERM | EXDEV | EIO
(** [io::Error::other]: an error without a code. *)
| EOTHER.
#[global] Instance errno_eq_dec : EqDecision Errno.
Proof. solve_decision. Defined.


Inductive Content : Type := CFile (data : list byte) | CDir.
#[global] Instance content_eq_dec : EqDecision Content.
Proof. solve_decision. Defined.

Record Node : Type := mkNode {
  content : Content;
  n_mtime : Z;
  n_mode : Z;
  xattrs : gmap string string;
}.

Record Disk : Type := mkDisk { clock : Z; nodes : gmap path Node }.

(** The system calls, to name the one that fails. *)
Inductive Sys : Type :=
| SMeta | SRead | SReadDir | SOpen | SWrite | SLen | SPerm | SCreate | SMkdir | SMkdirAll
| SUnlink | SRmdir | SRename | SCopy | SSetAttr | SGetAttr.
#[global] Instance sys_eq_dec : EqDecision Sys.
Proof. solve_decision. Defined.

Definition Faults : Type := Sys → path → option Errno.
Definition no_faults : Faults := λ _ _, None.

Definition put_node (p : path) (n : Node) (d : Disk) : Disk :=
  mkDisk (clock d) (<[p := n]> (nodes d)).
Definition drop_node (p : path) (d : Disk) : Disk := mkDisk (clock d) (delete p (nodes d)).

Definition is_file (d : Disk) (p : path) : bool :=
  match nodes d !! p with Some (mkNode (CFile _) _ _ _) => true | _ => false end.
Definition is_dir (d : Disk) (p : path) : bool :=
  match nodes d !! p with Some (mkNode CDir _ _ _) => true | _ => false end.

(** [Path::parent]. *)
Definition parent_of (p : path) : option path :=
  match p with
  | [] | [RootDir] => None
  | _ => Some (removelast p)
  end.

(** The error for a path that has no node: a file on the way gives ENOTDIR. *)
Definition missing (d : Disk) (p : path) : Errno :=
  if existsb (λ n, is_file d (take n p)) (seq 0 (length p)) then ENOTDIR else ENOENT.

Definition parent_is_dir (d : Disk) (p : path) : bool :=
  match parent_of p with Some q => is_dir d q | None => true end.

Section calls.
Variable f : Faults.

Definition sys {A} (s : Sys) (p : path) (m : stm Disk Errno A) : stm Disk Errno A :=
  match f s p with Some e => st_err e | None => m end.

Definition fs_node (p : path) : stm Disk Errno Node := λ d,
  (d, match nodes d !! p with Some n => Ok n | None => Err (missing d p) end).

Definition fs_metadata (p : path) : stm Disk Errno Node := sys SMeta p (fs_node p).

Definition fs_read (p : path) : stm Disk Errno (list byte) :=
  sys SRead p (n <- fs_node p ;;
    match content n with CFile b => st_ret b | CDir => st_err EISDIR end).

(** [OpenOptions::new().write(true).open(p)]. *)
Definition fs_open_write (p : path) : stm Disk Errno unit :=
  sys SOpen p (n <- fs_node p ;;
    match content n with CFile _ => st_ret tt | CDir => st_err EISDIR end).

(** [File::set_len]: cut, or extend with zeros. *)
Definition set_len_data (len : nat) (b : list byte) : list byte :=
  take len b ++ replicate (len - length b) x00.

(** [seek] to [off] and [write_all]: a gap is filled with zeros. *)
Definition splice (off : nat) (new b : list byte) : list byte :=
  match new with
  | [] => b
  | _ => set_len_data off b ++ new ++ drop (off + length new) b
  end.

Definition fs_update (p : path) (g : list byte → list byte) : stm Disk Errno unit :=
  n <- fs_node p ;;
  match content n with
  | CFile b =>
      st_mod (λ d, put_node p (mkNode (CFile (g b)) (clock d) (n_mode n) (xattrs n)) d)
  | CDir => st_err EISDIR
  end.
Definition fs_write_at (p : path) (off : nat) (data : list byte) : stm Disk Errno unit :=
  sys SWrite p (fs_update p (splice off data)).
Definition fs_set_len (p : path) (len : nat) : stm Disk Errno unit :=
  sys SLen p (fs_update p (set_len_data len)).

Definition fs_set_mode (p : path) (mode : Z) : stm Disk Errno unit :=
  sys SPerm p (n <- fs_node p ;;
    st_mod (put_node p (mkNode (content n) (n_mtime n) mode (xattrs n)))).

(** [create_new(true).mode(m).open(p)]. *)
Definition fs_create_new (p : path) (mode : Z) : stm Disk Errno unit :=
  sys SCreate p (λ d,
    match nodes d !! p with
    | Some _ => (d, Err EEXIST)
    | None =>
        if parent_is_dir d p
        then (put_node p (mkNode (CFile []) (clock d) mode ∅) d, Ok tt)
        else (d, Err (missing d p))
    end).

Definition fs_create_dir (p : path) : stm Disk Errno unit :=
  sys SMkdir p (λ d,
    match nodes d !! p with
    | Some _ => (d, Err EEXIST)
    | None =>
        if parent_is_dir d p
        then (put_node p (mkNode CDir (clock d) 511 ∅) d, Ok tt)
        else (d, Err (missing d p))
    end).

(** [create_dir_all]: the missing ones, from the top. *)
Fixpoint mkdirs (ps : list path) : stm Disk Errno unit :=
  match ps with
  | [] => st_ret tt
  | p :: rest => λ d,
      match nodes d !! p with
      | Some (mkNode CDir _ _ _) => mkdirs rest d
      | Some _ => (d, Err EEXIST)
      | None => mkdirs rest (put_node p (mkNode CDir (clock d) 511 ∅) d)
      end
  end.
Definition fs_create_dir_all (p : path) : stm Disk Errno unit :=
  sys SMkdirAll p (mkdirs ((λ n, take n p) <$> seq 1 (length p))).

Definition fs_remove_file (p : path) : stm Disk Errno unit :=
  sys SUnlink p (n <- fs_node p ;;
    match content n with CFile _ => st_mod (drop_node p) | CDir => st_err EISDIR end).

Definition has_children (d : Disk) (p : path) : bool :=
  existsb (λ q, bool_decide (removelast q = p ∧ q ≠ [])) (map_to_list (nodes d)).*1.

Definition fs_remove_dir (p : path) : stm Disk Errno unit :=
  sys SRmdir p (n <- fs_node p ;; λ d,
    match content n with
    | CFile _ => (d, Err ENOTDIR)
    | CDir => if has_children d p then (d, Err ENOTEMPTY) else (drop_node p d, Ok tt)
    end).

(** Re-root the subtree at [old] to [new], replacing what was there. *)
Definition move_tree (old new : path) (m : gmap path Node) : gmap path Node :=
  list_to_map ((λ x : path * Node, (new ++ drop (length old) x.1, x.2)) <$>
                 filter (λ x : path * Node, old `prefix_of` x.1) (map_to_list m))
  ∪ filter (λ x : path * Node, ¬ old `prefix_of` x.1 ∧ x.1 ≠ new) m.

Definition fs_rename (old new : path) : stm Disk Errno unit :=
  sys SRename old (n <- fs_node old ;; λ d,
    if bool_decide (old = new) then (d, Ok tt)
    else if bool_decide (old `prefix_of` new) then (d, Err EINVAL)
    else if negb (parent_is_dir d new) then (d, Err (missing d new))
    else
      let move := (mkDisk (clock d) (move_tree old new (nodes d)), Ok tt) in
      match content n, nodes d !! new with
      | CDir, Some (mkNode (CFile _) _ _ _) => (d, Err ENOTDIR)
      | CFile _, Some (mkNode CDir _ _ _) => (d, Err EISDIR)
      | CDir, Some _ => if has_children d new then (d, Err ENOTEMPTY) else move
      | _, _ => move
      end).

(** [xattr::set] and [xattr::get]. *)
Definition set_attr (p : path) (name value : string) : stm Disk Errno unit :=
  sys SSetAttr p (n <- fs_node p ;;
    st_mod (put_node p (mkNode (content n) (n_mtime n) (n_mode n) (<[name := value]> (xattrs n))))).
Definition get_attr (p : path) (name : string) : stm Disk Errno (option string) :=
  sys SGetAttr p (n <- fs_node p ;; st_ret (xattrs n !! name)).

(** [read_dir]: the names under a directory and whether each is a directory. *)
Definition fs_read_dir (p : path) : stm Disk Errno (list (string * bool)) :=
  sys SReadDir p (n <- fs_node p ;; λ d,
    match content n with
    | CFile _ => (d, Err ENOTDIR)
    | CDir =>
        (d, Ok (omap (λ x : path * Node,
                  match last x.1 with
                  | Some (Normal name) =>
                      if bool_decide (removelast x.1 = p)
                      then Some (name, match content x.2 with CDir => true | CFile _ => false end)
                      else None
                  | _ => None
                  end) (map_to_list (nodes d))))
    end).
End calls.

(** * Lemmas *)

Lemma parent_of_prefix p q : parent_of p = Some q → q `prefix_of` p.
Proof.
  intros Hp. assert (q = removelast p) as ->; [|apply removelast_prefix].
  unfold parent_of in Hp. by destruct p as [|[] [|]]; simplify_eq.
Qed.

Section lemmas.
Variable f : Faults.

(** Failing calls have no effect, and queries never have. *)
Lemma fs_node_pure p d : (fs_node p d).1 = d.
Proof. done. Qed.

Lemma fs_node_ok p d d' n : fs_node p d = (d', Ok n) → d' = d ∧ nodes d !! p = Some n.
Proof. unfold fs_node. destruct (nodes d !! p); [|done]. by intros [= <- <-]. Qed.

Lemma fs_metadata_pure p d : (fs_metadata f p d).1 = d.
Proof. unfold fs_metadata, sys. by destruct (f SMeta p). Qed.

Lemma fs_metadata_ok p d d' n : fs_metadata f p d = (d', Ok n) → d' = d ∧ nodes d !! p = Some n.
Proof. unfold fs_metadata, sys. destruct (f SMeta p); [done|]. apply fs_node_ok. Qed.

Lemma fs_read_pure p d : (fs_read f p d).1 = d.
Proof.
  unfold fs_read, sys, st_bind, fs_node, st_ret, st_err. destruct (f SRead p); [done|].
  destruct (nodes d !! p) as [n|]; [|done]. by destruct (content n).
Qed.

Lemma fs_read_ok p d d' b :
  fs_read f p d = (d', Ok b) → d' = d ∧ ∃ n, nodes d !! p = Some n ∧ content n = CFile b.
Proof.
  unfold fs_read, sys, st_bind, fs_node, st_ret, st_err. destruct (f SRead p); [done|].
  destruct (nodes d !! p) as [n|]; [|done]. destruct (content n) eqn:E; [|done].
  intros [= <- <-]. eauto.
Qed.

(** A write changes one file: its contents and its modification time. *)
Lemma fs_update_ok p g d d' :
  fs_update p g d = (d', Ok tt) →
  ∃ n b, nodes d !! p = Some n ∧ content n = CFile b ∧
    d' = put_node p (mkNode (CFile (g b)) (clock d) (n_mode n) (xattrs n)) d.
Proof.
  unfold fs_update, st_bind, fs_node, st_mod, st_err.
  destruct (nodes d !! p) as [n|]; [|done]. destruct (content n) as [b|] eqn:E; [|done].
  intros [= <-]. eauto 10.
Qed.
Lemma fs_update_err p g d d' e : fs_update p g d = (d', Err e) → d' = d.
Proof.
  unfold fs_update, st_bind, fs_node, st_mod, st_err.
  destruct (nodes d !! p) as [n|]; [|by intros [= <-]].
  destruct (content n); [done|by intros [= <-]].
Qed.

(** Creating missing directories keeps every node there was. *)
Lemma mkdirs_keeps ps d d' r :
  mkdirs ps d = (d', r) →
  clock d' = clock d ∧
  (∀ q n, nodes d !! q = Some n → nodes d' !! q = Some n) ∧
  (∀ q, nodes d' !! q = nodes d !! q ∨ nodes d' !! q = Some (mkNode CDir (clock d) 511 ∅) ∧ q ∈ ps).
Proof.
  revert d. induction ps as [|p ps IH]; intros d; cbn [mkdirs].
  { intros [= <- _]. auto. }
  destruct (nodes d !! p) as [[[b|] t m xs]|] eqn:E.
  - intros [= <- _]. auto.
  - intros (Hc & Hk & Hn)%IH. split_and!; [done..|].
    intros q. destruct (Hn q) as [?|[? ?]]; [by left|right]. split; [done|by right].
  - intros (Hc & Hk & Hn)%IH. simpl in *. split; [done|]. split.
    + intros q n Hq. apply Hk. rewrite lookup_insert_ne; [done|congruence].
    + intros q. destruct (Hn q) as [Hq|[? ?]].
      * destruct (decide (q = p)) as [->|Hne].
        -- rewrite lookup_insert_eq in Hq. right. split; [done|by left].
        -- rewrite lookup_insert_ne in Hq by done. by left.
      * right. split; [done|by right].
Qed.

Lemma fs_create_dir_all_keeps p d d' r :
  fs_create_dir_all f p d = (d', r) →
  clock d' = clock d ∧
  (∀ q n, nodes d !! q = Some n → nodes d' !! q = Some n) ∧
  (∀ q, nodes d' !! q = nodes d !! q ∨
     nodes d' !! q = Some (mkNode CDir (clock d) 511 ∅) ∧ q `prefix_of` p).
Proof.
  unfold fs_create_dir_all, sys. destruct (f SMkdirAll p); [intros [= <- _]; auto|].
  intros (Hc & Hk & Hn)%mkdirs_keeps. split_and!; [done..|].
  intros q. destruct (Hn q) as [?|[? Hin]]; [by left|right]. split; [done|].
  apply list_elem_of_fmap in Hin as (n & -> & _). apply prefix_take.
Qed.

(** Moving a tree, seen from a path. *)
Lemma move_tree_outside old new m q :
  ¬ old `prefix_of` q → ¬ new `prefix_of` q → move_tree old new m !! q = m !! q.
Proof.
  intros Ho Hn. unfold move_tree. rewrite lookup_union_r.
  - destruct (m !! q) as [n|] eqn:E.
    + apply map_lookup_filter_Some. split; [done|]. simpl. split; [done|]. by intros ->.
    + apply map_lookup_filter_None. by left.
  - apply not_elem_of_list_to_map. intros Hin. apply list_elem_of_fmap in Hin as ([p n] & -> & Hin).
    apply list_elem_of_fmap in Hin as ([p' n'] & [= -> ->] & _). apply Hn. by eexists.
Qed.

Lemma move_tree_gone old new m q :
  old `prefix_of` q → ¬ new `prefix_of` q → move_tree old new m !! q = None.
Proof.
  intros Ho Hn. unfold move_tree. apply lookup_union_None. split.
  - apply not_elem_of_list_to_map. intros Hin. apply list_elem_of_fmap in Hin as ([p n] & -> & Hin).
    apply list_elem_of_fmap in Hin as ([p' n'] & [= -> ->] & _). apply Hn. by eexists.
  - apply map_lookup_filter_None. right. intros n _. naive_solver.
Qed.

Lemma move_tree_root old new m n :
  m !! old = Some n → move_tree old new m !! new = Some n.
Proof.
  intros Hold. unfold move_tree. apply lookup_union_Some_l.
  apply elem_of_list_to_map_1'.
  - intros y ([p n'] & [= Heq ->] & [Hp Hin]%list_elem_of_filter)%list_elem_of_fmap.
    simpl in Hp. destruct Hp as [k ->]. rewrite drop_app_length in Heq.
    assert (k = []) as ->.
    { apply (f_equal length) in Heq. rewrite length_app in Heq. by destruct k; simpl in *; [|lia]. }
    rewrite app_nil_r in Hin. apply elem_of_map_to_list in Hin. congruence.
  - apply list_elem_of_fmap. exists (old, n). split.
    + simpl. by rewrite drop_all, app_nil_r.
    + apply list_elem_of_filter. split; [done|]. by apply elem_of_map_to_list.
Qed.

Lemma fs_rename_ok old new d d' :
  fs_rename f old new d = (d', Ok tt) →
  ∃ n, nodes d !! old = Some n ∧
    (old = new ∧ d' = d ∨
     ¬ old `prefix_of` new ∧ d' = mkDisk (clock d) (move_tree old new (nodes d)) ∧
     ∀ b, content n = CFile b → ∀ m, nodes d !! new = Some m → content m ≠ CDir).
Proof.
  unfold fs_rename, sys, st_bind, fs_node. destruct (f SRename old); [done|].
  destruct (nodes d !! old) as [n|]; [|done]. intros H. exists n. split; [done|].
  case_bool_decide; [left; by injection H as <-|]. case_bool_decide; [done|].
  destruct (negb (parent_is_dir d new)); [done|]. right.
  destruct (content n) as [b|] eqn:En.
  - destruct (nodes d !! new) as [[[b'|] ? ? ?]|]; [|done|]; injection H as <-;
      (split_and!; [done..|]); intros b'' _ m ?; simplify_eq/=; done.
  - destruct (nodes d !! new) as [[[b'|] ? ? ?]|]; [done| |];
      [destruct (has_children d new); [done|]|]; injection H as <-; by split_and!.
Qed.
Lemma fs_rename_err old new d d' e : fs_rename f old new d = (d', Err e) → d' = d.
Proof.
  unfold fs_rename, sys, st_bind, fs_node. destruct (f SRename old); [by intros [= <-]|].
  destruct (nodes d !! old) as [n|]; [|by intros [= <-]]. cbv zeta. intros H. rust_cases.
Qed.
End lemmas.
