(* ===== verification/FuseStores.v ===== *)
(** The in-process tables of crates/sharecli-fuse: the inode map (inode_map.rs), the
    negative-dentry cache (neg_dentry.rs), the read-content cache (read_cache.rs), the
    mount-to-backing path map (path_remap.rs), agent ids (agents_conf.rs) and write
    provenance (provenance.rs). *)
From S2P Require Import Prelude FleetGate BackingFs.

(** * inode_map.rs *)

Definition ROOT_INO : Z := 1.

Record InodeMap : Type := mkInodes {
  next_ino : Z;
  ino_to_rel : gmap Z path;
  rel_to_ino : gmap path Z;
}.

Definition inode_map_new : InodeMap :=
  mkInodes (ROOT_INO + 1) {[ROOT_INO := []]} {[[] := ROOT_INO]}.

Definition resolve (ino : Z) (m : InodeMap) : option path := ino_to_rel m !! ino.

Definition alloc_or_get (rel : path) (m : InodeMap) : InodeMap * Z :=
  match rel_to_ino m !! rel with
  | Some ino => (m, ino)
  | None =>
      let ino := next_ino m in
      (mkInodes (saturating_add u64_max ino 1) (<[ino := rel]> (ino_to_rel m))
         (<[rel := ino]> (rel_to_ino m)), ino)
  end.

(** [join_rel]; a directory entry name is one normal component. *)
Definition join_rel (parent_rel : path) (name : string) : path :=
  match parent_rel with
  | [] => [Normal name]
  | _ => path_join parent_rel [Normal name]
  end.

Definition abs_under (backing rel : path) : path :=
  match rel with [] => backing | _ => path_join backing rel end.

Definition child_rel (parent : Z) (name : string) (m : InodeMap) : option path :=
  (λ p, join_rel p name) <$> resolve parent m.

Definition lookup_or_alloc (parent : Z) (name : string) (m : InodeMap)
  : InodeMap * option (Z * path) :=
  match child_rel parent name m with
  | None => (m, None)
  | Some rel => let '(m', ino) := alloc_or_get rel m in (m', Some (ino, rel))
  end.

Definition remove_rel (rel : path) (m : InodeMap) : InodeMap :=
  match rel_to_ino m !! rel with
  | Some ino => mkInodes (next_ino m) (delete ino (ino_to_rel m)) (delete rel (rel_to_ino m))
  | None => m
  end.

Definition rename_rel (old new : path) (m : InodeMap) : InodeMap :=
  match rel_to_ino m !! old with
  | None => m
  | Some ino =>
      mkInodes (next_ino m) (<[ino := new]> (ino_to_rel m))
        (<[new := ino]> (delete old (rel_to_ino m)))
  end.

Definition abs_path (backing : path) (ino : Z) (m : InodeMap) : option path :=
  abs_under backing <$> resolve ino m.

(** * path_remap.rs *)

(** The zip of the two component lists: every pair must agree. *)
Definition strip_mount_prefix (mount p : path) : option path :=
  if bool_decide (length p < length mount)%nat
  then if bool_decide (p = mount) then Some [] else None
  else if forallb (λ x, bool_decide (x.1 = x.2)) (zip mount p)
       then Some (drop (length mount) p) else None.

Definition remap_mount_to_backing (mount backing p : path) : option path :=
  let abs := if is_absolute p then p else path_join mount p in
  abs_under backing <$> strip_mount_prefix mount abs.

(** * neg_dentry.rs *)

Definition DEFAULT_NEG_TTL : Z := 1000.

(** Expiry instants by relative path. *)
Record NegativeDentryCache : Type := mkNeg {
  neg_entries : gmap path Z;
  neg_ttl : Z;
  neg_hits : Z;
  neg_misses : Z;
}.
Definition neg_with_ttl (ttl : Z) : NegativeDentryCache := mkNeg ∅ ttl 0 0.
Definition neg_new : NegativeDentryCache := neg_with_ttl DEFAULT_NEG_TTL.

Definition is_negative (t : Z) (rel : path) (c : NegativeDentryCache)
  : NegativeDentryCache * bool :=
  match neg_entries c !! rel with
  | Some expires =>
      if t <? expires
      then (mkNeg (neg_entries c) (neg_ttl c) (bump (neg_hits c)) (neg_misses c), true)
      else (mkNeg (delete rel (neg_entries c)) (neg_ttl c) (neg_hits c) (neg_misses c), false)
  | None => (c, false)
  end.
Definition remember_miss (t : Z) (rel : path) (c : NegativeDentryCache) : NegativeDentryCache :=
  mkNeg (<[rel := t + neg_ttl c]> (neg_entries c)) (neg_ttl c) (neg_hits c) (bump (neg_misses c)).
Definition neg_invalidate (rel : path) (c : NegativeDentryCache) : NegativeDentryCache :=
  mkNeg (delete rel (neg_entries c)) (neg_ttl c) (neg_hits c) (neg_misses c).

(** * read_cache.rs *)

Record ReadContentCache : Type := mkReadCache {
  rc_entries : gmap path (Z * list byte);
  rc_hits : Z;
  rc_misses : Z;
}.
Definition read_cache_new : ReadContentCache := mkReadCache ∅ 0 0.

Definition rc_get (p : path) (mtime : Z) (c : ReadContentCache)
  : ReadContentCache * option (list byte) :=
  match rc_entries c !! p with
  | Some (m, data) =>
      if m =? mtime
      then (mkReadCache (rc_entries c) (bump (rc_hits c)) (rc_misses c), Some data)
      else (mkReadCache (delete p (rc_entries c)) (rc_hits c) (rc_misses c), None)
  | None => (c, None)
  end.
Definition put_miss (p : path) (mtime : Z) (data : list byte) (c : ReadContentCache)
  : ReadContentCache :=
  mkReadCache (<[p := (mtime, data)]> (rc_entries c)) (rc_hits c) (bump (rc_misses c)).
Definition rc_invalidate (p : path) (c : ReadContentCache) : ReadContentCache :=
  mkReadCache (delete p (rc_entries c)) (rc_hits c) (rc_misses c).

Section read.
Variable f : Faults.

Definition read_coalesced (p : path)
  : stm (Disk * ReadContentCache) Errno (list byte) := λ '(d, c),
  match fs_metadata f p d with
  | (d1, Err e) => ((d1, c), Err e)
  | (d1, Ok meta) =>
      match rc_get p (n_mtime meta) c with
      | (c1, Some data) => ((d1, c1), Ok data)
      | (c1, None) =>
          match fs_read f p d1 with
          | (d2, Err e) => ((d2, c1), Err e)
          | (d2, Ok data) => ((d2, put_miss p (n_mtime meta) data c1), Ok data)
          end
      end
  end.

(** [data[start..min(start + size, len)]], empty past the end. *)
Definition slice_at (offset size : nat) (data : list byte) : list byte :=
  if (length data <=? offset)%nat then []
  else
    let stop := Nat.min (offset + size) (length data) in
    take (stop - offset) (drop offset data).

Definition read_slice (p : path) (offset size : nat)
  : stm (Disk * ReadContentCache) Errno (list byte) :=
  data <- read_coalesced p ;; st_ret (slice_at offset size data).
End read.

(** * agents_conf.rs *)

Definition is_alnum (c : ascii) : bool :=
  let n := nat_of_ascii c in
  ((48 <=? n) && (n <=? 57) || (65 <=? n) && (n <=? 90) || (97 <=? n) && (n <=? 122))%nat.
Definition agent_char (c : ascii) : bool :=
  is_alnum c || bool_decide (c = "_"%char) || bool_decide (c = "-"%char).


Definition is_valid_agent_id (agent : string) : bool :=
  negb (str_is_empty agent) && str_all agent_char agent.

Definition sanitize_agent_id (agent : string) : string :=
  let trimmed := trim agent in
  if str_is_empty trimmed then "default"
  else
    let out := str_map (λ c, if agent_char c then c else "_"%char) trimmed in
    if str_is_empty out then "default" else out.

(** [text.lines()]: split at newlines, one trailing carriage return dropped, no last
    empty line. *)
Fixpoint strip_cr (s : string) : string :=
  match s with
  | EmptyString => EmptyString
  | String "013" EmptyString => EmptyString
  | String c s' => String c (strip_cr s')
  end.
Definition drop_last_empty (l : list string) : list string :=
  match last l with Some EmptyString => removelast l | _ => l end.
Definition lines (text : string) : list string :=
  strip_cr <$> drop_last_empty (split_on "010" text).

Record AgentsConf : Type := mkAgentsConf { patterns : list string }.
Definition agents_conf_parse (text : string) : AgentsConf :=
  mkAgentsConf (filter (λ l, l ≠ EmptyString ∧ starts_with "#" l = false) (trim <$> lines text)).
Definition matches_name (c : AgentsConf) (name : string) : bool :=
  existsb (λ p, contains p name) (patterns c).

(** * provenance.rs *)

Definition ATTR_SESSION : string := "user.sharecli.session".
Definition ATTR_WRITTEN_AT : string := "user.sharecli.written_at".
Definition default_session_id (pid : Z) : string := "sharecli-" +:+ show_u pid.

Record WriteProvenance : Type := mkProv { prov_session : string; prov_written_at : Z }.

Definition annotate_write_at (f : Faults) (p : path) (session : string) (at_unix : Z)
  : stm Disk Errno unit :=
  if str_is_empty session then st_err EINVAL
  else
    set_attr f p ATTR_SESSION session ;;;
    set_attr f p ATTR_WRITTEN_AT (show_u at_unix).

(** [annotate_write]: the wall clock in seconds. *)
Definition annotate_write (f : Faults) (p : path) (session : string) : stm Disk Errno unit :=
  λ d, annotate_write_at f p session (clock d / 1000) d.

(** [read_provenance]; an unreadable attribute is an error. *)
Definition read_provenance (f : Faults) (p : path) : stm Disk Errno (option WriteProvenance) :=
  s <- get_attr f p ATTR_SESSION ;;
  match s with
  | None => st_ret None
  | Some session =>
      w <- get_attr f p ATTR_WRITTEN_AT ;;
      match w with
      | None => st_ret None
      | Some raw =>
          match parse_uint u64_max raw with
          | Some t => st_ret (Some (mkProv session t))
          | None => st_err EINVAL
          end
      end
  end.

(** * Lemmas: the inode map *)

(** Every path has its own inode, which resolves back to it; the root is inode 1. *)
Record inodes_ok (m : InodeMap) : Prop := mkInodesOk {
  io_back : ∀ rel ino, rel_to_ino m !! rel = Some ino → ino_to_rel m !! ino = Some rel;
  io_fresh : ∀ ino rel, ino_to_rel m !! ino = Some rel → 0 < ino < next_ino m;
  io_root : rel_to_ino m !! [] = Some ROOT_INO;
}.

Lemma inodes_ok_new : inodes_ok inode_map_new.
Proof.
  split; simpl; [| |done].
  - intros rel ino [<- <-]%lookup_singleton_Some. apply lookup_singleton_eq.
  - intros ino rel [<- <-]%lookup_singleton_Some. unfold ROOT_INO. lia.
Qed.

Lemma rel_to_ino_inj m r1 r2 ino :
  inodes_ok m → rel_to_ino m !! r1 = Some ino → rel_to_ino m !! r2 = Some ino → r1 = r2.
Proof. intros Hok H1%(io_back m Hok) H2%(io_back m Hok). congruence. Qed.

Lemma alloc_or_get_ok rel m :
  inodes_ok m → next_ino m < u64_max →
  inodes_ok (alloc_or_get rel m).1 ∧
  rel_to_ino (alloc_or_get rel m).1 !! rel = Some (alloc_or_get rel m).2.
Proof.
  intros [Hb Hf Hr] Hn. unfold alloc_or_get, saturating_add.
  destruct (rel_to_ino m !! rel) as [ino|] eqn:E; [done|]. simpl.
  pose proof (Hf _ _ (Hb _ _ Hr)) as Hroot.
  split; [|apply lookup_insert_eq]. split; simpl.
  - intros r i. destruct (decide (r = rel)) as [->|Hne].
    + rewrite lookup_insert_eq. intros [= <-]. apply lookup_insert_eq.
    + rewrite lookup_insert_ne by done. intros Hi%Hb.
      rewrite lookup_insert_ne; [done|]. apply Hf in Hi. lia.
  - intros i r. destruct (decide (i = next_ino m)) as [->|Hne]; [lia|].
    rewrite lookup_insert_ne by done. intros Hi%Hf. lia.
  - rewrite lookup_insert_ne; congruence.
Qed.

Lemma remove_rel_ok rel m : inodes_ok m → rel ≠ [] → inodes_ok (remove_rel rel m).
Proof.
  intros Hok Hne. unfold remove_rel. destruct (rel_to_ino m !! rel) as [ino|] eqn:E; [|done].
  pose proof Hok as [Hb Hf Hr]. split; simpl.
  - intros r i. destruct (decide (r = rel)) as [->|Hd]; [by rewrite lookup_delete_eq|].
    rewrite lookup_delete_ne by done. intros Hi. rewrite lookup_delete_ne; [by apply Hb|].
    intros <-. apply Hd. by eapply rel_to_ino_inj.
  - intros i r Hi%lookup_delete_Some. by eapply Hf, Hi.
  - by rewrite lookup_delete_ne.
Qed.

Lemma rename_rel_ok old new m :
  inodes_ok m → old ≠ [] → new ≠ [] → inodes_ok (rename_rel old new m).
Proof.
  intros Hok Hne Hne'. unfold rename_rel. destruct (rel_to_ino m !! old) as [ino|] eqn:E; [|done].
  pose proof Hok as [Hb Hf Hr]. split; simpl.
  - intros r i. destruct (decide (r = new)) as [->|Hd].
    + rewrite lookup_insert_eq. intros [= <-]. apply lookup_insert_eq.
    + rewrite lookup_insert_ne by done. intros [Ho Hi]%lookup_delete_Some.
      rewrite lookup_insert_ne; [by apply Hb|]. intros <-. apply Ho. by eapply rel_to_ino_inj.
  - intros i r. destruct (decide (i = ino)) as [->|Hi].
    + intros _. by eapply Hf, Hb.
    + rewrite lookup_insert_ne by done. apply Hf.
  - rewrite lookup_insert_ne, lookup_delete_ne by done. done.
Qed.

(** Renaming onto a path that has an inode leaves that inode behind: it still resolves,
    to the file that replaced its own. *)
Lemma rename_onto_mapped_aliases old new i j m :
  inodes_ok m → rel_to_ino m !! old = Some i → rel_to_ino m !! new = Some j → old ≠ new →
  i ≠ j ∧ resolve i (rename_rel old new m) = Some new ∧
  resolve j (rename_rel old new m) = Some new.
Proof.
  intros Hok Hi Hj Hne. assert (i ≠ j) as Hij.
  { intros <-. apply Hne. by eapply rel_to_ino_inj. }
  unfold resolve, rename_rel. rewrite Hi. simpl. split; [done|].
  rewrite lookup_insert_eq, lookup_insert_ne by done. split; [done|]. by apply (io_back m Hok).
Qed.

Lemma join_rel_nonempty p name : join_rel p name ≠ [].
Proof. destruct p; [done|]. unfold join_rel, path_join. simpl. done. Qed.

(** * Lemmas: path_remap *)

Lemma zip_all_eq (l k : path) :
  (length l ≤ length k)%nat →
  forallb (λ x, bool_decide (x.1 = x.2)) (zip l k) = true ↔ l `prefix_of` k.
Proof.
  revert k. induction l as [|x l IH]; intros [|y k] Hlen; simpl in *; try lia.
  - split; [intros _; apply prefix_nil|done].
  - split; [intros _; apply prefix_nil|done].
  - rewrite andb_true_iff, bool_decide_eq_true, IH by lia. split.
    + intros [-> H]. by apply prefix_cons.
    + intros H. split; [by eapply prefix_cons_inv_1|by eapply prefix_cons_inv_2].
Qed.

Lemma strip_mount_prefix_spec mount p rel :
  strip_mount_prefix mount p = Some rel ↔ p = mount ++ rel.
Proof.
  unfold strip_mount_prefix. case_bool_decide as Hlen.
  { split; [|intros ->; rewrite length_app in Hlen; lia].
    case_bool_decide; [subst; lia|done]. }
  destruct (forallb _ _) eqn:E.
  - apply zip_all_eq in E as [k ->]; [|lia]. rewrite drop_app_length. naive_solver.
  - split; [done|]. intros ->. exfalso.
    assert (mount `prefix_of` mount ++ rel) as Hp%zip_all_eq by (by eexists);
      [congruence|rewrite length_app; lia].
Qed.

(** What [Path::components] guarantees: a root or [.] component can only be the first. *)
Definition wf_path (p : path) : Prop := Forall (λ c, c ≠ RootDir ∧ c ≠ CurDir) (tail p).

Lemma abs_under_app backing rel :
  backing ≠ [] → Forall (λ c, c ≠ RootDir ∧ c ≠ CurDir) rel → abs_under backing rel = backing ++ rel.
Proof.
  intros Hb Hrel. unfold abs_under, path_join.
  destruct rel as [|c rel]; [by rewrite app_nil_r|].
  apply Forall_cons in Hrel as [[Hc1 Hc2] _]. destruct c; try done; by destruct backing.
Qed.

(** Path remapping is exact on the mount subtree. A path is remapped iff its
    component list extends the mountpoint's (so a sibling whose name merely starts with the
    mountpoint's never is), the result is the backing directory extended by the same
    components, and a relative path is read as one under the mountpoint. *)
Theorem remap_exact (mount backing p out : path) :
  is_absolute mount = true → backing ≠ [] → wf_path p →
  (remap_mount_to_backing mount backing p = Some out ↔
   ∃ rel, (if is_absolute p then p else path_join mount p) = mount ++ rel ∧
          out = backing ++ rel).
Proof.
  intros Hm Hb Hp. unfold remap_mount_to_backing. rewrite fmap_Some.
  assert (∀ rel, (if is_absolute p then p else path_join mount p) = mount ++ rel →
            Forall (λ c, c ≠ RootDir ∧ c ≠ CurDir) rel) as Hrel.
  { intros rel. destruct mount as [|[] mount]; try done. unfold wf_path in Hp.
    destruct (is_absolute p) eqn:Ha; intros Heq.
    - rewrite Heq in Hp. simpl in Hp. by apply Forall_app in Hp as [_ ?].
    - unfold path_join in Heq. rewrite Ha in Heq. apply app_inv_head in Heq as <-.
      destruct p as [|[] p]; simpl in *; [done|done|done|..]; apply Forall_cons; done. }
  split.
  - intros (rel & Hs%strip_mount_prefix_spec & ->). exists rel. split; [done|].
    apply abs_under_app; [done|]. by apply Hrel.
  - intros (rel & Hs & ->). exists rel. split; [by apply strip_mount_prefix_spec|].
    symmetry. apply abs_under_app; [done|]. by apply Hrel.
Qed.

Lemma remap_exact_witness :
  let mount := [RootDir; Normal "tmp"; Normal "mount"] in
  let backing := [RootDir; Normal "repo"] in
  remap_mount_to_backing mount backing [Normal "src"; Normal "a.rs"]
    = Some [RootDir; Normal "repo"; Normal "src"; Normal "a.rs"] ∧
  remap_mount_to_backing mount backing [RootDir; Normal "tmp"; Normal "mountextra"] = None.
Proof.
  intros mount backing. split.
  - apply (remap_exact mount backing [Normal "src"; Normal "a.rs"]).
    + done.
    + done.
    + unfold wf_path. simpl. repeat constructor; done.
    + exists [Normal "src"; Normal "a.rs"]. done.
  - reflexivity.
Defined.

(** A [..] in the path is not resolved: a path that names something outside the mount is
    remapped to one outside the backing directory. *)
Lemma remap_keeps_dotdot :
  remap_mount_to_backing [RootDir; Normal "mnt"] [RootDir; Normal "repo"]
    [RootDir; Normal "mnt"; ParentDir; Normal "etc"]
  = Some [RootDir; Normal "repo"; ParentDir; Normal "etc"].
Proof. reflexivity. Qed.

(** * Lemmas: reads *)

Lemma slice_at_spec offset size data : slice_at offset size data = take size (drop offset data).
Proof.
  unfold slice_at. destruct (Nat.leb_spec (length data) offset) as [Hle|Hlt].
  - rewrite drop_ge by lia. by rewrite take_nil.
  - destruct (le_lt_dec (offset + size) (length data)).
    + f_equal. lia.
    + rewrite (take_ge _ size) by (rewrite length_drop; lia).
      rewrite take_ge; [done|]. rewrite length_drop. lia.
Qed.

(** * Lemmas: agent ids *)

Lemma str_all_map g h s : (∀ c, g (h c) = true) → str_all g (str_map h s) = true.
Proof. intros H. induction s as [|c s IH]; [done|]. simpl. by rewrite H. Qed.

Lemma str_map_id h s : (∀ c, has_char c s = true → h c = c) → str_map h s = s.
Proof.
  induction s as [|c s IH]; intros H; [done|]. simpl. f_equal.
  - apply H. simpl. by rewrite bool_decide_true.
  - apply IH. intros c' Hc'. apply H. simpl. by rewrite Hc', orb_true_r.
Qed.

Lemma agent_char_not_ws c : agent_char c = true → is_ws c = false.
Proof. by destruct c as [[] [] [] [] [] [] [] []]. Qed.

Lemma agent_text_trimmed s : str_all agent_char s = true → trim s = s.
Proof. intros H. by apply (trim_no_ws agent_char); [apply agent_char_not_ws|]. Qed.

(** An agent id is always a safe directory name: sanitizing yields a non-empty string
    of ASCII letters, digits, [_] and [-] (so no separator and no [..]), leaves a valid id
    unchanged, and is idempotent. *)
Theorem sanitize_agent_id_safe (agent : string) :
  is_valid_agent_id (sanitize_agent_id agent) = true ∧
  (is_valid_agent_id agent = true → sanitize_agent_id agent = agent) ∧
  sanitize_agent_id (sanitize_agent_id agent) = sanitize_agent_id agent.
Proof.
  assert (∀ a, is_valid_agent_id a = true → sanitize_agent_id a = a) as Hid.
  { intros a [He Ha]%andb_true_iff. unfold sanitize_agent_id. rewrite agent_text_trimmed by done.
    apply negb_true_iff in He. rewrite He. rewrite str_map_id; [by rewrite He|].
    intros c Hc. by rewrite (str_all_has_char agent_char c a). }
  assert (is_valid_agent_id (sanitize_agent_id agent) = true) as Hv.
  { unfold sanitize_agent_id. destruct (trim agent) as [|c s]; [done|].
    cbn [str_is_empty str_map]. unfold is_valid_agent_id. cbn [str_is_empty negb].
    rewrite andb_true_l. apply (str_all_map agent_char (λ c, if agent_char c then c else "_"%char) (String c s)).
    intros x. by destruct (agent_char x) eqn:E. }
  split_and!; [done|apply Hid|by apply Hid].
Qed.

Lemma sanitize_agent_id_safe_witness :
  sanitize_agent_id " ../agent 7 " = "___agent_7" ∧
  sanitize_agent_id (sanitize_agent_id "../x") = sanitize_agent_id "../x".
Proof.
  split; [reflexivity|]. apply (sanitize_agent_id_safe "../x").
Defined.

(** * Lemmas: provenance *)

Lemma set_attr_ok f p name value d d' :
  set_attr f p name value d = (d', Ok tt) →
  ∃ n, nodes d !! p = Some n ∧
    d' = put_node p (mkNode (content n) (n_mtime n) (n_mode n) (<[name := value]> (xattrs n))) d.
Proof.
  unfold set_attr, sys, st_bind, fs_node, st_mod, st_err.
  destruct (f SSetAttr p); [done|]. destruct (nodes d !! p) as [n|]; [|done].
  intros [= <-]. by exists n.
Qed.

(** What a successful annotation does: it adds the two attributes and nothing else. *)
Lemma annotate_write_ok f p session d d' :
  annotate_write f p session d = (d', Ok tt) →
  session ≠ EmptyString ∧ ∃ n, nodes d !! p = Some n ∧ clock d' = clock d ∧
    nodes d' = <[p := mkNode (content n) (n_mtime n) (n_mode n)
                 (<[ATTR_WRITTEN_AT := show_u (clock d / 1000)]>
                    (<[ATTR_SESSION := session]> (xattrs n)))]> (nodes d).
Proof.
  unfold annotate_write, annotate_write_at.
  destruct session as [|c s]; [done|]. cbn [str_is_empty]. intros H. split; [done|].
  rewrite st_bind_run in H.
  destruct (set_attr f p ATTR_SESSION (String c s) d) as [d1 [[]|]] eqn:E1; [|done].
  apply set_attr_ok in E1 as (n & Hn & ->).
  apply set_attr_ok in H as (n' & Hn' & ->). simpl in *.
  rewrite lookup_insert_eq in Hn'. injection Hn' as <-. simpl.
  exists n. split_and!; [done|done|]. by rewrite insert_insert_eq.
Qed.

Lemma get_attr_node p name n d :
  nodes d !! p = Some n → get_attr no_faults p name d = (d, Ok (xattrs n !! name)).
Proof. intros Hn. unfold get_attr, sys, st_bind, fs_node, st_ret. cbn. by rewrite Hn. Qed.

(** Provenance round trip: after a successful annotation of a path, reading the
    provenance back gives exactly the session and the second of the write, for every
    non-empty session id, and the file's content is unchanged. *)
Theorem provenance_roundtrip (f : Faults) (p : path) (session : string) (d d' : Disk) :
  annotate_write f p session d = (d', Ok tt) →
  0 ≤ clock d / 1000 ≤ u64_max →
  read_provenance no_faults p d' = (d', Ok (Some (mkProv session (clock d / 1000)))) ∧
  (content <$> nodes d' !! p) = (content <$> nodes d !! p).
Proof.
  intros (_ & n & Hn & Hc & Hd)%annotate_write_ok Ht.
  rewrite Hd, Hn, lookup_insert_eq. split; [|done].
  unfold read_provenance. rewrite st_bind_run.
  erewrite get_attr_node by (rewrite Hd; apply lookup_insert_eq).
  cbn [xattrs]. rewrite lookup_insert_ne, lookup_insert_eq by done.
  rewrite st_bind_run.
  erewrite get_attr_node by (rewrite Hd; apply lookup_insert_eq).
  cbn [xattrs]. rewrite lookup_insert_eq. by rewrite parse_uint_show.
Qed.

Definition demo_disk : Disk :=
  mkDisk 5000 {[ [RootDir; Normal "f"] := mkNode (CFile [x61]) 10 420 ∅;
                 [RootDir] := mkNode CDir 0 511 ∅ ]}.

Lemma provenance_roundtrip_witness :
  let d' := (annotate_write no_faults [RootDir; Normal "f"] "hv-1" demo_disk).1 in
  read_provenance no_faults [RootDir; Normal "f"] d' = (d', Ok (Some (mkProv "hv-1" 5))).
Proof.
  intros d'.
  apply (provenance_roundtrip no_faults [RootDir; Normal "f"] "hv-1" demo_disk d').
  - by vm_compute.
  - vm_compute. split; congruence.
Defined.
