(* ===== verification/CowStore.v ===== *)
(** Copy-on-write staging of crates/sharecli-fuse: write_serialize.rs (one staging area),
    its meters, and agent_cow.rs (one staging area per agent).

    Staging files live on the same disk as the backing tree. The 64-bit hash that names
    them is an argument. Lock poisoning, which needs a panic under a lock, is left out. *)
From S2P Require Import Prelude FleetGate BackingFs FuseStores.

(** * write_serialize_meters.rs *)

Record WriteSerializeMeters : Type := mkWsMeters {
  passthrough_writes : Z; stages : Z; commits : Z; discards : Z }.
Definition ws_meters_zero : WriteSerializeMeters := mkWsMeters 0 0 0 0.
Definition record_passthrough_write (m : WriteSerializeMeters) : WriteSerializeMeters :=
  mkWsMeters (bump (passthrough_writes m)) (stages m) (commits m) (discards m).
Definition record_stage (m : WriteSerializeMeters) : WriteSerializeMeters :=
  mkWsMeters (passthrough_writes m) (bump (stages m)) (commits m) (discards m).
Definition record_commit (m : WriteSerializeMeters) : WriteSerializeMeters :=
  mkWsMeters (passthrough_writes m) (stages m) (bump (commits m)) (discards m).
Definition record_discard (m : WriteSerializeMeters) : WriteSerializeMeters :=
  mkWsMeters (passthrough_writes m) (stages m) (commits m) (bump (discards m)).

(** * write_serialize.rs *)

Inductive WriteSerializeError : Type :=
| Io (e : Errno)
| NoPending (p : path).

Record WriteSerialize : Type := mkWs {
  staging_root : path;
  ws_locks : gset path;
  ws_pending : gmap path path;
}.
Definition with_staging_root (root : path) : WriteSerialize := mkWs root ∅ ∅.

Record WsState : Type := mkWsState {
  ws_disk : Disk;
  ws_store : WriteSerialize;
  ws_meters : WriteSerializeMeters;
}.

Definition on_disk {A} (m : stm Disk Errno A) : stm WsState WriteSerializeError A := λ s,
  let '(d, r) := m (ws_disk s) in
  (mkWsState d (ws_store s) (ws_meters s),
   match r with Ok a => Ok a | Err e => Err (Io e) end).
Definition on_pending (g : gmap path path → gmap path path) (s : WsState) : WsState :=
  mkWsState (ws_disk s)
    (mkWs (staging_root (ws_store s)) (ws_locks (ws_store s)) (g (ws_pending (ws_store s))))
    (ws_meters s).
Definition on_ws_meters (g : WriteSerializeMeters → WriteSerializeMeters) (s : WsState)
  : WsState := mkWsState (ws_disk s) (ws_store s) (g (ws_meters s)).

Section calls.
Variable f : Faults.

(** [File::create]: create or truncate. *)
Definition fs_create (p : path) : stm Disk Errno unit :=
  sys f SCreate p (λ d,
    match nodes d !! p with
    | Some n =>
        match content n with
        | CFile _ => (put_node p (mkNode (CFile []) (clock d) (n_mode n) (xattrs n)) d, Ok tt)
        | CDir => (d, Err EISDIR)
        end
    | None =>
        if parent_is_dir d p
        then (put_node p (mkNode (CFile []) (clock d) 438 ∅) d, Ok tt)
        else (d, Err (missing d p))
    end).

(** [fs::copy]: contents and permission bits. *)
Definition fs_copy (src dst : path) : stm Disk Errno unit :=
  sys f SCopy src (b <- fs_read no_faults src ;; n <- fs_node src ;; λ d,
    match nodes d !! dst with
    | Some m =>
        match content m with
        | CFile _ => (put_node dst (mkNode (CFile b) (clock d) (n_mode n) (xattrs m)) d, Ok tt)
        | CDir => (d, Err EISDIR)
        end
    | None =>
        if parent_is_dir d dst
        then (put_node dst (mkNode (CFile b) (clock d) (n_mode n) ∅) d, Ok tt)
        else (d, Err (missing d dst))
    end).

(** [Path::exists]: any error counts as absent. *)
Definition path_exists (p : path) : stm WsState WriteSerializeError bool := λ s,
  (s, Ok (is_ok (fs_metadata f p (ws_disk s)).2)).

Definition create_parent (p : path) : stm Disk Errno unit :=
  match parent_of p with Some q => fs_create_dir_all f q | None => st_ret tt end.
End calls.

Section write_serialize.
Variable digest : path → string.
Variable f : Faults.

Definition lock_arc (p : path) : stm WsState WriteSerializeError unit :=
  st_mod (λ s, mkWsState (ws_disk s)
    (mkWs (staging_root (ws_store s)) ({[p]} ∪ ws_locks (ws_store s)) (ws_pending (ws_store s)))
    (ws_meters s)).

Definition staging_path_for (root backing : path) : path :=
  path_join root [Normal (digest backing +:+ ".staging")].

Definition stage_bytes (backing : path) (contents : list byte)
  : stm WsState WriteSerializeError unit :=
  s0 <- st_get ;;
  let staging := staging_path_for (staging_root (ws_store s0)) backing in
  lock_arc backing ;;;
  on_disk (create_parent f staging) ;;;
  on_disk (fs_create f staging) ;;;
  on_disk (fs_write_at f staging 0 contents) ;;;
  st_mod (on_pending (<[backing := staging]>)) ;;;
  st_mod (on_ws_meters record_stage).

(** The rename, with its fall-back across file systems. *)
Definition promote (staging backing : path) : stm Disk Errno unit := λ d,
  match fs_rename f staging backing d with
  | (d1, Ok _) => (d1, Ok tt)
  | (d1, Err EXDEV) =>
      match fs_copy f staging backing d1 with
      | (d2, Ok _) => ((fs_remove_file f staging d2).1, Ok tt)
      | (d2, Err e) => (d2, Err e)
      end
  | (d1, Err e) => (d1, Err e)
  end.

Definition commit_pending (backing : path) : stm WsState WriteSerializeError unit :=
  lock_arc backing ;;;
  s <- st_get ;;
  match ws_pending (ws_store s) !! backing with
  | None => st_err (NoPending backing)
  | Some staging =>
      ex <- path_exists f staging ;;
      if negb ex
      then st_mod (on_pending (delete backing)) ;;; st_err (NoPending backing)
      else
        on_disk (create_parent f backing) ;;;
        on_disk (promote staging backing) ;;;
        st_mod (on_pending (delete backing)) ;;;
        st_mod (on_ws_meters record_commit)
  end.

Definition discard_pending (backing : path) : stm WsState WriteSerializeError unit :=
  lock_arc backing ;;;
  s <- st_get ;;
  match ws_pending (ws_store s) !! backing with
  | None => st_err (NoPending backing)
  | Some staging =>
      st_mod (on_pending (delete backing)) ;;;
      ex <- path_exists f staging ;;
      (if (ex : bool) then on_disk (fs_remove_file f staging) else st_ret tt) ;;;
      st_mod (on_ws_meters record_discard)
  end.

Definition has_pending (backing : path) (w : WriteSerialize) : bool :=
  bool_decide (is_Some (ws_pending w !! backing)).
Definition pending_backing_paths (w : WriteSerialize) : list path :=
  (map_to_list (ws_pending w)).*1.
End write_serialize.

(** * agent_cow.rs *)

Record AgentCowStore : Type := mkCow {
  cow_root : path;
  default_agent : string;
  cow_serialize : bool;
  agents : gmap string WriteSerialize;
}.
Definition cow_new (root : path) (agent : string) (serialize : bool) : AgentCowStore :=
  mkCow root (sanitize_agent_id agent) serialize ∅.

Record CowState : Type := mkCowState {
  cow_disk : Disk;
  cow_store : AgentCowStore;
  cow_meters : WriteSerializeMeters;
}.

Definition agent_key (c : AgentCowStore) (agent : option string) : string :=
  sanitize_agent_id (default (default_agent c) agent).

(** [store_for]: the agent's staging area, created on first use. *)
Definition store_for (c : AgentCowStore) (key : string) : WriteSerialize :=
  default (with_staging_root (path_join (cow_root c) [Normal key])) (agents c !! key).

(** Run an operation of one staging area inside the store. *)
Definition with_agent {A} (agent : option string)
    (m : stm WsState WriteSerializeError A) : stm CowState WriteSerializeError A := λ s,
  let key := agent_key (cow_store s) agent in
  let '(w, r) := m (mkWsState (cow_disk s) (store_for (cow_store s) key) (cow_meters s)) in
  (mkCowState (ws_disk w)
     (mkCow (cow_root (cow_store s)) (default_agent (cow_store s)) (cow_serialize (cow_store s))
        (<[key := ws_store w]> (agents (cow_store s))))
     (ws_meters w), r).

Section agent_cow.
Variable digest : path → string.
Variable f : Faults.

Definition cow_stage_bytes (agent : option string) (backing : path) (contents : list byte)
  : stm CowState WriteSerializeError unit :=
  with_agent agent (stage_bytes digest f backing contents).
Definition cow_commit_pending (agent : option string) (backing : path)
  : stm CowState WriteSerializeError unit :=
  with_agent agent (commit_pending f backing).
Definition cow_discard_pending (agent : option string) (backing : path)
  : stm CowState WriteSerializeError unit :=
  with_agent agent (discard_pending f backing).

(** The paths of an agent, in the enumeration order of the map. *)
Definition pending_for_agent (agent : option string)
  : stm CowState WriteSerializeError (list path) :=
  with_agent agent (λ w, (w, Ok (pending_backing_paths (ws_store w)))).

Fixpoint for_each (op : path → stm CowState WriteSerializeError unit) (ps : list path)
  : stm CowState WriteSerializeError (list path) :=
  match ps with
  | [] => st_ret []
  | p :: rest => op p ;;; done <- for_each op rest ;; st_ret (p :: done)
  end.

Definition cow_commit_all_for_agent (agent : option string)
  : stm CowState WriteSerializeError (list path) :=
  s <- st_get ;;
  let key := agent_key (cow_store s) agent in
  ps <- pending_for_agent agent ;;
  for_each (cow_commit_pending (Some key)) ps.
Definition cow_discard_all_for_agent (agent : option string)
  : stm CowState WriteSerializeError (list path) :=
  s <- st_get ;;
  let key := agent_key (cow_store s) agent in
  ps <- pending_for_agent agent ;;
  for_each (cow_discard_pending (Some key)) ps.

(** [with_locked_path]: the lock is taken only when serialization is on. *)
Definition cow_with_locked_path {A} (agent : option string) (p : path) (m : stm Disk Errno A)
  : stm CowState WriteSerializeError (result A Errno) := λ s,
  if cow_serialize (cow_store s)
  then with_agent agent
         (lock_arc p ;;;
          λ w, let '(d, r) := m (ws_disk w) in (mkWsState d (ws_store w) (ws_meters w), Ok r)) s
  else let '(d, r) := m (cow_disk s) in (mkCowState d (cow_store s) (cow_meters s), Ok r).

(** [list_agent_pending]: sorted by agent id. *)
Definition list_agent_pending (c : AgentCowStore) : list (string * list path) :=
  (λ x : string * WriteSerialize, (x.1, pending_backing_paths x.2)) <$> btree_entries (agents c).
End agent_cow.

(** * Lemmas: one staging area *)

Section ws_lemmas.
Variable digest : path → string.

Lemma create_parent_keeps f p d d' r :
  create_parent f p d = (d', r) →
  clock d' = clock d ∧ (∀ q n, nodes d !! q = Some n → nodes d' !! q = Some n).
Proof.
  unfold create_parent. destruct (parent_of p); [|by intros [= <- _]].
  intros (? & ? & _)%fs_create_dir_all_keeps. done.
Qed.

Lemma fs_create_ok f p d d' :
  fs_create f p d = (d', Ok tt) →
  ∃ n, content n = CFile [] ∧ d' = put_node p n d.
Proof.
  unfold fs_create, sys. destruct (f SCreate p); [done|].
  destruct (nodes d !! p) as [n|].
  - destruct (content n); [|done]. intros [= <-]. eexists; split; [|reflexivity]. done.
  - destruct (parent_is_dir d p); [|done]. intros [= <-]. eexists; split; [|reflexivity]. done.
Qed.
Lemma fs_create_other f p d d' r q :
  fs_create f p d = (d', r) → q ≠ p → nodes d' !! q = nodes d !! q.
Proof.
  unfold fs_create, sys. intros H Hq.
  destruct (f SCreate p); [by injection H as <- _|].
  destruct (nodes d !! p) as [n|]; [destruct (content n)|destruct (parent_is_dir d p)];
    injection H as <- _; simpl; try done; by apply lookup_insert_ne.
Qed.

Lemma fs_write_at_ok f p off b d d' :
  fs_write_at f p off b d = (d', Ok tt) →
  ∃ n old, nodes d !! p = Some n ∧ content n = CFile old ∧
    d' = put_node p (mkNode (CFile (splice off b old)) (clock d) (n_mode n) (xattrs n)) d.
Proof. unfold fs_write_at, sys. destruct (f SWrite p); [done|]. apply fs_update_ok. Qed.
Lemma fs_write_at_err f p off b d d' e : fs_write_at f p off b d = (d', Err e) → d' = d.
Proof.
  unfold fs_write_at, sys. destruct (f SWrite p); [by intros [= <-]|]. apply fs_update_err.
Qed.

Lemma splice_0_nil b : splice 0 b [] = b.
Proof. destruct b; [done|]. unfold splice. rewrite drop_nil, app_nil_r. done. Qed.

Lemma stage_bytes_ok f backing contents s s' :
  stage_bytes digest f backing contents s = (s', Ok tt) →
  let staging := staging_path_for digest (staging_root (ws_store s)) backing in
  ws_pending (ws_store s') = <[backing := staging]> (ws_pending (ws_store s)) ∧
  (∃ n, nodes (ws_disk s') !! staging = Some n ∧ content n = CFile contents) ∧
  (∀ q n, q ≠ staging → nodes (ws_disk s) !! q = Some n → nodes (ws_disk s') !! q = Some n).
Proof.
  intros H staging. unfold stage_bytes, st_bind, st_get, lock_arc, st_mod, on_disk in H.
  simpl in H. fold staging in H.
  destruct (create_parent f staging (ws_disk s)) as [d1 [[]|]] eqn:E1; simpl in H; [|done].
  apply create_parent_keeps in E1 as [_ Hk].
  destruct (fs_create f staging d1) as [d2 [[]|]] eqn:E2; simpl in H; [|done].
  pose proof E2 as (n & Hn & ->)%fs_create_ok.
  destruct (fs_write_at f staging 0 contents _) as [d3 [[]|]] eqn:E3; simpl in H; [|done].
  apply fs_write_at_ok in E3 as (n' & old & Hn' & Hold & ->).
  injection H as <-. simpl in *. rewrite lookup_insert_eq in Hn'. simplify_eq.
  rewrite lookup_insert_eq. split_and!; [done| |].
  - eexists; split; [done|]. simpl. rewrite Hn in Hold. injection Hold as <-.
    by rewrite splice_0_nil.
  - intros q m Hq Hm. rewrite !lookup_insert_ne by done. by apply Hk.
Qed.

Lemma promote_ok f staging backing d d' n b :
  promote f staging backing d = (d', Ok tt) → staging ≠ backing →
  nodes d !! staging = Some n → content n = CFile b →
  ∃ n', nodes d' !! backing = Some n' ∧ content n' = CFile b.
Proof.
  unfold promote. intros H Hne Hn Hb.
  destruct (fs_rename f staging backing d) as [d1 [[]|e]] eqn:E.
  - injection H as <-. apply fs_rename_ok in E as (n' & Hn' & [[? _]|(_ & -> & _)]); [done|].
    simplify_eq. exists n'. split; [|done]. by apply move_tree_root.
  - apply fs_rename_err in E as ->.
    destruct (fs_copy f staging backing d) as [d2 [[]|e']] eqn:E2; [|by destruct e].
    assert (nodes d' !! backing = nodes d2 !! backing) as ->.
    { destruct e; try done. injection H as <-.
      unfold fs_remove_file, sys, st_bind, fs_node, st_mod, st_err.
      destruct (f SUnlink staging); [done|].
      destruct (nodes d2 !! staging) as [m|]; [|done]. destruct (content m); [|done].
      simpl. by rewrite lookup_delete_ne. }
    unfold fs_copy, sys, st_bind in E2. destruct (f SCopy staging); [done|].
    unfold fs_read, sys, no_faults, st_bind, fs_node, st_ret in E2. rewrite Hn, Hb, Hn in E2.
    destruct (nodes d !! backing) as [m|]; [destruct (content m); [|done]|
      destruct (parent_is_dir d backing); [|done]];
      injection E2 as <-; simpl; rewrite lookup_insert_eq; by eexists.
Qed.

(** A successful commit publishes what its staging file holds. *)
Lemma commit_pending_ok f backing s s' staging n b :
  commit_pending f backing s = (s', Ok tt) →
  ws_pending (ws_store s) !! backing = Some staging → staging ≠ backing →
  nodes (ws_disk s) !! staging = Some n → content n = CFile b →
  (∃ n', nodes (ws_disk s') !! backing = Some n' ∧ content n' = CFile b) ∧
  ws_pending (ws_store s') = delete backing (ws_pending (ws_store s)).
Proof.
  intros H Hp Hne Hn Hb.
  unfold commit_pending, lock_arc, st_bind, st_get, st_mod, st_err in H. simpl in H.
  rewrite Hp in H. unfold path_exists in H. simpl in H.
  destruct (is_ok _); simpl in H; [|done]. unfold on_disk in H. simpl in H.
  destruct (create_parent f backing (ws_disk s)) as [d1 [[]|]] eqn:E1; simpl in H; [|done].
  apply create_parent_keeps in E1 as [_ Hk].
  destruct (promote f staging backing d1) as [d2 [[]|]] eqn:E2; simpl in H; [|done].
  injection H as <-. simpl. split; [|done]. eapply promote_ok; [exact E2|done| |exact Hb].
  by apply Hk.
Qed.
End ws_lemmas.

(** Copy-on-write staging is atomic. Staging bytes for a file leaves every existing
    file but the staging file as it was (the backing file in particular); if the commit then
    succeeds, by rename or by the cross-device copy, the backing file holds exactly the
    staged bytes and nothing is pending for it; and no prior content survives. *)
Theorem stage_commit_publishes (digest : path → string) (f f' : Faults) (backing : path)
    (contents : list byte) (s s1 s2 : WsState) :
  let staging := staging_path_for digest (staging_root (ws_store s)) backing in
  staging ≠ backing →
  stage_bytes digest f backing contents s = (s1, Ok tt) →
  commit_pending f' backing s1 = (s2, Ok tt) →
  (∀ q n, q ≠ staging → nodes (ws_disk s) !! q = Some n → nodes (ws_disk s1) !! q = Some n) ∧
  (content <$> nodes (ws_disk s2) !! backing) = Some (CFile contents) ∧
  has_pending backing (ws_store s1) = true ∧ has_pending backing (ws_store s2) = false.
Proof.
  intros staging Hne (Hp & (n & Hn & Hb) & Hk)%stage_bytes_ok Hc.
  pose proof Hp as Hp'. fold staging in Hp, Hn, Hk.
  eapply commit_pending_ok in Hc as [(n' & Hn' & Hb') Hd];
    [|rewrite Hp; apply lookup_insert_eq|done|exact Hn|exact Hb].
  split_and!; [done| | |].
  - rewrite Hn'. simpl. by rewrite Hb'.
  - unfold has_pending. rewrite Hp, lookup_insert_eq. by apply bool_decide_eq_true_2.
  - unfold has_pending. rewrite Hd, lookup_delete_eq. apply bool_decide_eq_false_2. by intros [].
Qed.

Definition demo_backing : path := [RootDir; Normal "f"].
Definition demo_digest (p : path) : string := show_u (Z.of_nat (length p)).
Definition demo_ws : WsState :=
  mkWsState demo_disk (with_staging_root [RootDir; Normal "cow"]) ws_meters_zero.
Definition demo_staged : WsState :=
  (stage_bytes demo_digest no_faults demo_backing [x62; x63] demo_ws).1.

Lemma stage_commit_publishes_witness :
  (content <$> nodes (ws_disk (commit_pending no_faults demo_backing demo_staged).1)
     !! demo_backing) = Some (CFile [x62; x63]).
Proof.
  apply (stage_commit_publishes demo_digest no_faults no_faults demo_backing [x62; x63]
           demo_ws demo_staged).
  - vm_compute. congruence.
  - by vm_compute.
  - by vm_compute.
Defined.

(** A failed re-stage destroys what was staged: the staging file is truncated before the
    new bytes are written and the earlier pending entry is kept, so when the write fails the
    next commit succeeds and replaces the backing file by an empty one. *)
Lemma failed_restage_commits_empty :
  let no_space : Faults := λ c _, match c with SWrite => Some EIO | _ => None end in
  let s2 := (stage_bytes demo_digest no_space demo_backing [x64] demo_staged).1 in
  let '(s3, r) := commit_pending no_faults demo_backing s2 in
  r = Ok tt ∧ (content <$> nodes (ws_disk s3) !! demo_backing) = Some (CFile []).
Proof. by vm_compute. Qed.
