(* ===== verification/InterceptFs.v ===== *)
(** The passthrough FUSE file system of crates/sharecli-fuse/src/lib.rs: [InterceptFs]
    with its caches, the operations of the [Filesystem] trait and the no-mount helpers.

    Every operation takes the faults its system calls meet. Attributes that a reply
    copies from [stat] are represented by the node itself. *)
From S2P Require Import Prelude FleetGate BackingFs FuseStores CowStore.

Record InterceptFsOptions : Type := mkOptions {
  opt_session : string;
  opt_cow : bool;
  opt_cow_dir : option path;
  opt_agent : option string;
  opt_serialize : bool;
}.
Definition options_default : InterceptFsOptions := mkOptions "default" false None None true.

Record InterceptFs : Type := mkFs {
  i_disk : Disk;
  backing : path;
  session_id : string;
  cow_enabled : bool;
  inodes : InodeMap;
  read_cache : ReadContentCache;
  neg_dentry : NegativeDentryCache;
  cow : AgentCowStore;
  i_meters : WriteSerializeMeters;
  neg_global : Z * Z;
}.

Definition with_options (pid : Z) (d : Disk) (back : path) (o : InterceptFsOptions)
  : InterceptFs :=
  let session := if str_is_empty (opt_session o) then default_session_id pid else opt_session o in
  let agent := default session (opt_agent o) in
  let root := default (path_join back [Normal (if opt_cow o then ".sharecli-cow"
                                               else ".sharecli-cow-staging")]) (opt_cow_dir o) in
  mkFs d back session (opt_cow o) inode_map_new read_cache_new (neg_with_ttl DEFAULT_NEG_TTL)
    (cow_new root agent (opt_serialize o)) ws_meters_zero (0, 0).

Definition with_session (pid : Z) (d : Disk) (back : path) (session : string) : InterceptFs :=
  with_options pid d back (mkOptions session false None None true).

(** ** Access to the components of the state *)

Definition set_disk (d : Disk) (s : InterceptFs) : InterceptFs :=
  mkFs d (backing s) (session_id s) (cow_enabled s) (inodes s) (read_cache s) (neg_dentry s)
    (cow s) (i_meters s) (neg_global s).
Definition on_inodes (g : InodeMap → InodeMap) (s : InterceptFs) : InterceptFs :=
  mkFs (i_disk s) (backing s) (session_id s) (cow_enabled s) (g (inodes s)) (read_cache s)
    (neg_dentry s) (cow s) (i_meters s) (neg_global s).
Definition on_cache (g : ReadContentCache → ReadContentCache) (s : InterceptFs) : InterceptFs :=
  mkFs (i_disk s) (backing s) (session_id s) (cow_enabled s) (inodes s) (g (read_cache s))
    (neg_dentry s) (cow s) (i_meters s) (neg_global s).
Definition on_neg (g : NegativeDentryCache → NegativeDentryCache) (s : InterceptFs)
  : InterceptFs :=
  mkFs (i_disk s) (backing s) (session_id s) (cow_enabled s) (inodes s) (read_cache s)
    (g (neg_dentry s)) (cow s) (i_meters s) (neg_global s).
Definition on_meters (g : WriteSerializeMeters → WriteSerializeMeters) (s : InterceptFs)
  : InterceptFs :=
  mkFs (i_disk s) (backing s) (session_id s) (cow_enabled s) (inodes s) (read_cache s)
    (neg_dentry s) (cow s) (g (i_meters s)) (neg_global s).
Definition on_neg_global (g : Z * Z → Z * Z) (s : InterceptFs) : InterceptFs :=
  mkFs (i_disk s) (backing s) (session_id s) (cow_enabled s) (inodes s) (read_cache s)
    (neg_dentry s) (cow s) (i_meters s) (g (neg_global s)).

Definition on_i_disk {A} (m : stm Disk Errno A) : stm InterceptFs Errno A := λ s,
  let '(d, r) := m (i_disk s) in (set_disk d s, r).
Definition on_cow {A} (m : stm CowState WriteSerializeError A)
  : stm InterceptFs WriteSerializeError A := λ s,
  let '(c, r) := m (mkCowState (i_disk s) (cow s) (i_meters s)) in
  (mkFs (cow_disk c) (backing s) (session_id s) (cow_enabled s) (inodes s) (read_cache s)
     (neg_dentry s) (cow_store c) (cow_meters c) (neg_global s), r).
(** The outcome of a system call as a value. *)
Definition try_disk {E A} (m : stm Disk Errno A) : stm InterceptFs E (result A Errno) := λ s,
  let '(d, r) := m (i_disk s) in (set_disk d s, Ok r).
Definition lift_io {A} (r : result A Errno) : result A WriteSerializeError :=
  match r with Ok a => Ok a | Err e => Err (Io e) end.

(** [neg.is_negative] with the process-wide meter. *)
Definition check_negative {E} (rel : path) : stm InterceptFs E bool := λ s,
  let '(n, b) := is_negative (clock (i_disk s)) rel (neg_dentry s) in
  let s1 := on_neg (λ _, n) s in
  (if b then on_neg_global (λ g, (bump g.1, g.2)) s1 else s1, Ok b).
Definition note_missing (rel : path) (s : InterceptFs) : InterceptFs :=
  on_neg_global (λ g, (g.1, bump g.2))
    (on_neg (remember_miss (clock (i_disk s)) rel) s).

Section helpers.
Variable digest : path → string.
Variable f : Faults.

Definition exists_rel (rel : path) : stm InterceptFs Errno bool :=
  neg <- check_negative rel ;;
  if (neg : bool) then st_ret false
  else
    s <- st_get ;;
    r <- try_disk (fs_metadata f (abs_under (backing s) rel)) ;;
    match r with
    | Ok _ => st_mod (on_neg (neg_invalidate rel)) ;;; st_ret true
    | Err ENOENT => st_mod (note_missing rel) ;;; st_ret false
    | Err e => st_err e
    end.

Definition read_coalesced_rel (rel : path) : stm InterceptFs Errno (list byte) := λ s,
  let '((d, c), r) := read_coalesced f (abs_under (backing s) rel) (i_disk s, read_cache s) in
  (on_cache (λ _, c) (set_disk d s), r).

Definition stage_rel_for_agent (agent : option string) (rel : path) (contents : list byte)
  : stm InterceptFs WriteSerializeError unit := λ s,
  on_cow (cow_stage_bytes digest f agent (abs_under (backing s) rel) contents) s.

(** Provenance and cache invalidation of a committed path. *)
Definition after_commit (abs : path) : stm InterceptFs WriteSerializeError unit :=
  s <- st_get ;;
  r <- try_disk (annotate_write f abs (session_id s)) ;;
  st_lift (lift_io r) ;;;
  st_mod (on_cache (rc_invalidate abs)).

Definition commit_rel_for_agent (agent : option string) (rel : path)
  : stm InterceptFs WriteSerializeError unit :=
  s <- st_get ;;
  let abs := abs_under (backing s) rel in
  on_cow (cow_commit_pending f agent abs) ;;;
  after_commit abs.

Fixpoint after_commits (ps : list path) : stm InterceptFs WriteSerializeError unit :=
  match ps with [] => st_ret tt | p :: rest => after_commit p ;;; after_commits rest end.

(** [abs.strip_prefix(&self.backing)]. *)
Definition strip_backing (back abs : path) : option path :=
  if bool_decide (back `prefix_of` abs) then Some (drop (length back) abs) else None.

Definition commit_all_for_agent (agent : option string)
  : stm InterceptFs WriteSerializeError (list path) :=
  ps <- on_cow (cow_commit_all_for_agent f agent) ;;
  after_commits ps ;;;
  s <- st_get ;;
  st_ret (omap (strip_backing (backing s)) ps).

Definition discard_rel_for_agent (agent : option string) (rel : path)
  : stm InterceptFs WriteSerializeError unit := λ s,
  on_cow (cow_discard_pending f agent (abs_under (backing s) rel)) s.

Definition discard_all_for_agent (agent : option string)
  : stm InterceptFs WriteSerializeError (list path) :=
  ps <- on_cow (cow_discard_all_for_agent f agent) ;;
  s <- st_get ;;
  st_ret (omap (strip_backing (backing s)) ps).

Definition pending_rel_paths : stm InterceptFs WriteSerializeError (list path) :=
  ps <- on_cow (pending_for_agent None) ;;
  s <- st_get ;;
  st_ret (omap (strip_backing (backing s)) ps).

(** [pending_by_agent]: agents with nothing pending are left out. *)
Definition pending_by_agent (s : InterceptFs) : list (string * list path) :=
  filter (λ x : string * list path, x.2 ≠ [])
    ((λ x : string * list path, (x.1, omap (strip_backing (backing s)) x.2)) <$>
       list_agent_pending (cow s)).

(** The closure of [write_rel] and of [write]: write, then stamp. *)
Definition write_stamped (abs : path) (offset : nat) (data : list byte) (session : string)
  : stm Disk Errno Z :=
  fs_open_write f abs ;;;
  fs_write_at f abs offset data ;;;
  annotate_write f abs session ;;;
  st_ret (Z.of_nat (length data) mod 2 ^ 32).

(** [write_rel] and the body of [write] after the path is known. *)
Definition write_abs (abs : path) (offset : nat) (data : list byte)
  : stm InterceptFs Errno Z := λ s,
  match on_cow (cow_with_locked_path None abs
                  (write_stamped abs offset data (session_id s))) s with
  | (s1, Ok (Ok n)) => (on_cache (rc_invalidate abs) (on_meters record_passthrough_write s1), Ok n)
  | (s1, Ok (Err e)) => (s1, Err e)
  | (s1, Err _) => (s1, Err EIO)
  end.
Definition write_rel (rel : path) (offset : nat) (data : list byte)
  : stm InterceptFs Errno Z := λ s, write_abs (abs_under (backing s) rel) offset data s.

Definition after_create_at (rel abs : path) : stm InterceptFs Errno unit :=
  s <- st_get ;;
  on_i_disk (annotate_write f abs (session_id s)) ;;;
  st_mod (on_neg (neg_invalidate rel)) ;;;
  st_mod (on_cache (rc_invalidate abs)).

Definition create_rel (rel : path) (mode : Z) : stm InterceptFs Errno unit :=
  s <- st_get ;;
  let abs := abs_under (backing s) rel in
  on_i_disk (create_parent f abs) ;;;
  on_i_disk (fs_create_new f abs mode) ;;;
  after_create_at rel abs.
End helpers.

(** * The Filesystem trait *)

Inductive Reply : Type :=
| REntry (ino : Z) (meta : Node)
| RAttr (ino : Z) (meta : Node)
| ROpened (fh : Z)
| RCreated (ino : Z) (meta : Node) (fh : Z)
| RData (buf : list byte)
| RWritten (n : Z)
| RDir (entries : list (Z * Z * bool * string))
| ROk.

Definition S_IFREG : Z := 32768.
Definition S_IFMT : Z := 61440.

Section filesystem.
Variable f : Faults.

Definition with_child (parent : Z) (name : string)
    (k : path → stm InterceptFs Errno Reply) : stm InterceptFs Errno Reply := λ s,
  match child_rel parent name (inodes s) with
  | None => (s, Err ENOENT)
  | Some rel => k rel s
  end.
Definition with_ino (ino : Z) (k : path → stm InterceptFs Errno Reply)
  : stm InterceptFs Errno Reply := λ s,
  match abs_path (backing s) ino (inodes s) with
  | None => (s, Err ENOENT)
  | Some p => k p s
  end.
(** [map.alloc_or_get]. *)
Definition alloc {E} (rel : path) : stm InterceptFs E Z := λ s,
  let '(m, ino) := alloc_or_get rel (inodes s) in (on_inodes (λ _, m) s, Ok ino).

Definition lookup (parent : Z) (name : string) : stm InterceptFs Errno Reply :=
  with_child parent name (λ rel,
    neg <- check_negative rel ;;
    if (neg : bool) then st_err ENOENT
    else
      ino <- alloc rel ;;
      s <- st_get ;;
      r <- try_disk (fs_metadata f (abs_under (backing s) rel)) ;;
      match r with
      | Ok meta => st_mod (on_neg (neg_invalidate rel)) ;;; st_ret (REntry ino meta)
      | Err e =>
          (if bool_decide (e = ENOENT) then st_mod (note_missing rel) else st_ret tt) ;;;
          st_mod (on_inodes (remove_rel rel)) ;;;
          st_err e
      end).

Definition getattr (ino : Z) : stm InterceptFs Errno Reply :=
  with_ino ino (λ p, meta <- on_i_disk (fs_metadata f p) ;; st_ret (RAttr ino meta)).

Definition setattr (ino : Z) (mode : option Z) (size : option nat)
  : stm InterceptFs Errno Reply :=
  with_ino ino (λ p,
    match size with
    | Some n => on_i_disk (fs_open_write f p ;;; fs_set_len f p n)
    | None => st_ret tt
    end ;;;
    match mode with
    | Some m => on_i_disk (fs_set_mode f p m)
    | None => st_ret tt
    end ;;;
    meta <- on_i_disk (fs_metadata f p) ;;
    st_mod (on_cache (rc_invalidate p)) ;;;
    st_ret (RAttr ino meta)).

Definition open (ino : Z) : stm InterceptFs Errno Reply :=
  with_ino ino (λ p,
    meta <- on_i_disk (fs_metadata f p) ;;
    match content meta with CFile _ => st_ret (ROpened ino) | CDir => st_err EISDIR end).

Definition read (ino : Z) (offset size : nat) : stm InterceptFs Errno Reply :=
  with_ino ino (λ p s,
    let '((d, c), r) := read_slice f p offset size (i_disk s, read_cache s) in
    (on_cache (λ _, c) (set_disk d s), match r with Ok b => Ok (RData b) | Err e => Err e end)).

Definition write (ino : Z) (offset : nat) (data : list byte) : stm InterceptFs Errno Reply :=
  with_ino ino (λ p, n <- write_abs f p offset data ;; st_ret (RWritten n)).

Fixpoint alloc_children (rel : path) (names : list (string * bool))
  : stm InterceptFs Errno (list (Z * bool * string)) :=
  match names with
  | [] => st_ret []
  | (name, isdir) :: rest =>
      ino <- alloc (join_rel rel name) ;;
      l <- alloc_children rel rest ;;
      st_ret ((ino, isdir, name) :: l)
  end.

(** [room] is how many entries the reply buffer takes. *)
Definition readdir (ino : Z) (offset room : nat) : stm InterceptFs Errno Reply := λ s,
  match resolve ino (inodes s) with
  | None => (s, Err ENOENT)
  | Some rel =>
      (parent_ino <- (if bool_decide (ino = ROOT_INO) then st_ret ROOT_INO
                      else if (length rel <=? 1)%nat then alloc []
                      else match parent_of rel with
                           | Some q => alloc q
                           | None => st_ret ROOT_INO
                           end) ;;
       names <- on_i_disk (fs_read_dir f (abs_under (backing s) rel)) ;;
       children <- alloc_children rel names ;;
       let entries := (ino, true, ".") :: (parent_ino, true, "..") :: children in
       let numbered := zip_with (λ i (e : Z * bool * string),
                         (e.1.1, Z.of_nat i + 1, e.1.2, e.2)) (seq 0 (length entries)) entries in
       st_ret (RDir (take room (drop offset numbered)))) s
  end.

Definition mkdir (parent : Z) (name : string) (mode : Z) : stm InterceptFs Errno Reply :=
  with_child parent name (λ rel,
    s <- st_get ;;
    let p := abs_under (backing s) rel in
    on_i_disk (fs_create_dir f p) ;;;
    try_disk (fs_set_mode f p mode) ;;;
    st_mod (on_neg (neg_invalidate rel)) ;;;
    ino <- alloc rel ;;
    meta <- on_i_disk (fs_metadata f p) ;;
    st_ret (REntry ino meta)).

(** The common part of [create] and [mknod]. *)
Definition create_file (parent : Z) (name : string) (mode umask : Z)
    (k : path → path → stm InterceptFs Errno Reply) : stm InterceptFs Errno Reply :=
  with_child parent name (λ rel,
    s <- st_get ;;
    let p := abs_under (backing s) rel in
    made <- try_disk (create_parent f p) ;;
    if negb (is_ok made) then st_err EIO
    else
      on_i_disk (fs_create_new f p (Z.ldiff mode umask)) ;;;
      λ s1,
        match after_create_at f rel p s1 with
        | (s2, Ok _) => k rel p s2
        | (s2, Err e) => ((try_disk (E := Errno) (fs_remove_file f p) s2).1, Err e)
        end).

Definition create (parent : Z) (name : string) (mode umask : Z)
  : stm InterceptFs Errno Reply :=
  create_file parent name mode umask (λ rel p,
    ino <- alloc rel ;; meta <- on_i_disk (fs_metadata f p) ;; st_ret (RCreated ino meta ino)).
Definition mknod (parent : Z) (name : string) (mode umask : Z)
  : stm InterceptFs Errno Reply :=
  if negb (Z.land mode S_IFMT =? S_IFREG) then st_err EPERM
  else create_file parent name mode umask (λ rel p,
    ino <- alloc rel ;; meta <- on_i_disk (fs_metadata f p) ;; st_ret (REntry ino meta)).

Definition unlink (parent : Z) (name : string) : stm InterceptFs Errno Reply :=
  with_child parent name (λ rel,
    s <- st_get ;;
    let p := abs_under (backing s) rel in
    on_i_disk (fs_remove_file f p) ;;;
    st_mod (on_cache (rc_invalidate p)) ;;;
    st_mod (note_missing rel) ;;;
    st_mod (on_inodes (remove_rel rel)) ;;;
    st_ret ROk).

Definition rmdir (parent : Z) (name : string) : stm InterceptFs Errno Reply :=
  with_child parent name (λ rel,
    s <- st_get ;;
    on_i_disk (fs_remove_dir f (abs_under (backing s) rel)) ;;;
    st_mod (note_missing rel) ;;;
    st_mod (on_inodes (remove_rel rel)) ;;;
    st_ret ROk).

Definition rename (parent : Z) (name : string) (newparent : Z) (newname : string)
  : stm InterceptFs Errno Reply :=
  with_child parent name (λ old_rel, with_child newparent newname (λ new_rel,
    s <- st_get ;;
    let old_path := abs_under (backing s) old_rel in
    let new_path := abs_under (backing s) new_rel in
    on_i_disk (fs_rename f old_path new_path) ;;;
    st_mod (on_cache (rc_invalidate old_path)) ;;;
    st_mod (on_cache (rc_invalidate new_path)) ;;;
    st_mod (note_missing old_rel) ;;;
    st_mod (on_neg (neg_invalidate new_rel)) ;;;
    st_mod (on_inodes (rename_rel old_rel new_rel)) ;;;
    st_ret ROk)).
End filesystem.

(** * Reasoning about operations *)

(** [triple P m Q R]: from a state that satisfies [P], [m] ends in [Q] with its value or,
    with an error, in [R]. *)
Definition triple {E A} (P : InterceptFs → Prop) (m : stm InterceptFs E A)
    (Q : A → InterceptFs → Prop) (R : InterceptFs → Prop) : Prop :=
  ∀ s, P s → match m s with (s', Ok a) => Q a s' | (s', Err _) => R s' end.

(** [m] keeps [P] whatever happens. *)
Definition keeps {E A} (P : InterceptFs → Prop) (m : stm InterceptFs E A) : Prop :=
  triple P m (λ _, P) P.

Section triples.
Context {E A B : Type}.
Implicit Types P R : InterceptFs → Prop.

Lemma triple_bind P (m : stm InterceptFs E A) (k : A → stm InterceptFs E B) Q1 Q R :
  triple P m Q1 R → (∀ a, triple (Q1 a) (k a) Q R) → triple P (st_bind k m) Q R.
Proof.
  intros Hm Hk s Hs. rewrite st_bind_run. specialize (Hm s Hs).
  destruct (m s) as [s' [a|e]]; [|done]. by apply Hk.
Qed.
Lemma triple_ret P (a : A) Q R : (∀ s, P s → Q a s) → triple (E := E) P (st_ret a) Q R.
Proof. intros H s Hs. by apply H. Qed.
Lemma triple_err P (e : E) (Q : A → InterceptFs → Prop) R :
  (∀ s, P s → R s) → triple P (st_err e) Q R.
Proof. intros H s Hs. by apply H. Qed.
Lemma triple_mod P g Q R : (∀ s, P s → Q tt (g s)) → triple (E := E) P (st_mod g) Q R.
Proof. intros H s Hs. by apply H. Qed.
Lemma triple_get P (Q : InterceptFs → InterceptFs → Prop) R :
  (∀ s, P s → Q s s) → triple (E := E) P st_get Q R.
Proof. intros H s Hs. by apply H. Qed.
End triples.

(** ** The inode map *)

(** The map is consistent as long as inode numbers last. *)
Definition inodes_inv (s : InterceptFs) : Prop :=
  next_ino (inodes s) = u64_max ∨ next_ino (inodes s) < u64_max ∧ inodes_ok (inodes s).

Lemma inodes_inv_alloc {E} rel : keeps (E := E) inodes_inv (alloc rel).
Proof.
  intros s [Hx|[Hlt Hok]]; unfold alloc.
  - destruct (alloc_or_get rel (inodes s)) as [m ino] eqn:Ea. left. simpl.
    unfold alloc_or_get, saturating_add in Ea. destruct (rel_to_ino (inodes s) !! rel);
      injection Ea as <- _; [done|]. simpl. lia.
  - destruct (alloc_or_get_ok rel (inodes s) Hok Hlt) as [Hok' _].
    destruct (alloc_or_get rel (inodes s)) as [m ino] eqn:Ea. simpl in Hok'. unfold inodes_inv. simpl.
    assert (next_ino m ≤ u64_max).
    { unfold alloc_or_get, saturating_add in Ea. destruct (rel_to_ino (inodes s) !! rel);
        injection Ea as <- _; simpl; lia. }
    destruct (decide (next_ino m = u64_max)); [by left|right; split; [lia|done]].
Qed.

Lemma remove_rel_next rel m : next_ino (remove_rel rel m) = next_ino m.
Proof. unfold remove_rel. by destruct (rel_to_ino m !! rel). Qed.
Lemma rename_rel_next old new m : next_ino (rename_rel old new m) = next_ino m.
Proof. unfold rename_rel. by destruct (rel_to_ino m !! old). Qed.

Lemma inodes_inv_remove rel s :
  rel ≠ [] → inodes_inv s → inodes_inv (on_inodes (remove_rel rel) s).
Proof.
  intros Hne. unfold inodes_inv. simpl. rewrite remove_rel_next.
  intros [?|[? ?]]; [by left|right]. split; [done|by apply remove_rel_ok].
Qed.
Lemma inodes_inv_rename old new s :
  old ≠ [] → new ≠ [] → inodes_inv s → inodes_inv (on_inodes (rename_rel old new) s).
Proof.
  intros Ho Hn. unfold inodes_inv. simpl. rewrite rename_rel_next.
  intros [?|[? ?]]; [by left|right]. split; [done|by apply rename_rel_ok].
Qed.

(** Operations that do not name the inode map keep the invariant. *)
Lemma inodes_inv_disk {A} (m : stm Disk Errno A) : keeps inodes_inv (on_i_disk m).
Proof. intros s Hs. unfold on_i_disk. by destruct (m (i_disk s)) as [d [a|e]]. Qed.
Lemma inodes_inv_try {E A} (m : stm Disk Errno A) : keeps (E := E) inodes_inv (try_disk m).
Proof. intros s Hs. unfold try_disk. by destruct (m (i_disk s)). Qed.
Lemma inodes_inv_check {E} rel : keeps (E := E) inodes_inv (check_negative rel).
Proof. intros s Hs. unfold check_negative. by destruct (is_negative _ _ _) as [n []]. Qed.
Lemma inodes_inv_write f p off b : keeps inodes_inv (write_abs f p off b).
Proof.
  intros s Hs. unfold write_abs, on_cow. by destruct (cow_with_locked_path _ _ _ _) as [c [[n|e]|e]].
Qed.
Lemma inodes_inv_child parent name (k : path → stm InterceptFs Errno Reply) :
  (∀ rel, rel ≠ [] → keeps inodes_inv (k rel)) → keeps inodes_inv (with_child parent name k).
Proof.
  intros Hk s Hs. unfold with_child, child_rel.
  destruct (resolve parent (inodes s)) as [p|]; [|done]. simpl. apply Hk; [|done].
  apply join_rel_nonempty.
Qed.
Lemma inodes_inv_ino ino (k : path → stm InterceptFs Errno Reply) :
  (∀ p, keeps inodes_inv (k p)) → keeps inodes_inv (with_ino ino k).
Proof.
  intros Hk s Hs. unfold with_ino. destruct (abs_path _ _ _); [|done]. by apply Hk.
Qed.

#[export] Hint Resolve inodes_inv_alloc inodes_inv_disk inodes_inv_try inodes_inv_check
  inodes_inv_write inodes_inv_remove inodes_inv_rename : rust.

(** Walk through an operation, keeping an invariant at every step. *)
Ltac keep_step :=
  match goal with
  | |- keeps _ (st_bind _ _) => eapply triple_bind; [|intros ?]
  | |- triple _ (st_bind _ _) _ _ => eapply triple_bind; [|intros ?]
  | |- keeps _ (st_ret _) => apply triple_ret; by intros
  | |- triple ?P (st_ret _) _ _ => apply (triple_ret P _ (λ _, P)); by intros
  | |- keeps _ (st_err _) => apply triple_err; by intros
  | |- triple _ (st_err _) _ _ => apply triple_err; by intros
  | |- keeps _ st_get => apply (triple_get _ (λ _, _)); by intros
  | |- triple ?P st_get _ _ => apply (triple_get P (λ _, P)); by intros
  | |- keeps _ (st_mod _) => apply triple_mod; intros; by eauto with rust
  | |- triple ?P (st_mod _) _ _ => apply (triple_mod P _ (λ _, P)); intros; by eauto with rust
  | |- keeps _ (if ?b then _ else _) => destruct b
  | |- triple _ (if ?b then _ else _) _ _ => destruct b
  | |- keeps _ (match ?x with _ => _ end) => destruct x
  | |- triple _ (match ?x with _ => _ end) _ _ => destruct x
  end.

Section inode_props.
Variable f : Faults.

Lemma keeps_triple {E A} P (m : stm InterceptFs E A) : keeps P m → triple P m (λ _, P) P.
Proof. done. Qed.

(** Every call of the trait. *)
Inductive fuse_op : Type :=
| OLookup (parent : Z) (name : string)
| OGetattr (ino : Z)
| OSetattr (ino : Z) (mode : option Z) (size : option nat)
| OOpen (ino : Z)
| ORead (ino : Z) (offset size : nat)
| OWrite (ino : Z) (offset : nat) (data : list byte)
| OReaddir (ino : Z) (offset room : nat)
| OMkdir (parent : Z) (name : string) (mode : Z)
| OCreate (parent : Z) (name : string) (mode umask : Z)
| OMknod (parent : Z) (name : string) (mode umask : Z)
| OUnlink (parent : Z) (name : string)
| ORmdir (parent : Z) (name : string)
| ORename (parent : Z) (name : string) (newparent : Z) (newname : string).

Definition fuse_exec (o : fuse_op) : stm InterceptFs Errno Reply :=
  match o with
  | OLookup p n => lookup f p n
  | OGetattr i => getattr f i
  | OSetattr i m z => setattr f i m z
  | OOpen i => open f i
  | ORead i o z => read f i o z
  | OWrite i o b => write f i o b
  | OReaddir i o r => readdir f i o r
  | OMkdir p n m => mkdir f p n m
  | OCreate p n m u => create f p n m u
  | OMknod p n m u => mknod f p n m u
  | OUnlink p n => unlink f p n
  | ORmdir p n => rmdir f p n
  | ORename p n p' n' => rename f p n p' n'
  end.

Ltac keep_all := repeat (keep_step || (apply keeps_triple; by eauto with rust)).

Lemma keeps_read p off size :
  keeps inodes_inv (λ s,
    let '((d, c), r) := read_slice f p off size (i_disk s, read_cache s) in
    (on_cache (λ _, c) (set_disk d s), match r with Ok b => Ok (RData b) | Err e => Err e end)).
Proof. intros s Hs. by destruct (read_slice _ _ _ _ _) as [[d c] [b|e]]. Qed.

Lemma keeps_children rel names : keeps inodes_inv (alloc_children rel names).
Proof. induction names as [|[name isdir] names IH]; cbn [alloc_children]; keep_all. Qed.

Lemma keeps_readdir ino off room : keeps inodes_inv (readdir f ino off room).
Proof.
  intros s Hs. unfold readdir. destruct (resolve ino (inodes s)) as [rel|]; [|done].
  match goal with |- match ?m s with _ => _ end => enough (keeps inodes_inv m) as Hm end.
  { by apply Hm. }
  pose proof keeps_children. cbv zeta. keep_all.
Qed.

Lemma keeps_after_create rel p : keeps inodes_inv (after_create_at f rel p).
Proof. unfold after_create_at. keep_all. Qed.

Lemma keeps_create_file parent name mode umask k :
  (∀ rel p, keeps inodes_inv (k rel p)) →
  keeps inodes_inv (create_file f parent name mode umask k).
Proof.
  intros Hk. apply inodes_inv_child. intros rel Hrel. cbv zeta. keep_all.
  intros s1 Hs1. pose proof (keeps_after_create rel (abs_under (backing a) rel) s1 Hs1) as H.
  destruct (after_create_at _ _ _ _) as [s2 [u|e]]; [by apply Hk|].
  unfold try_disk. by destruct (fs_remove_file _ _ _).
Qed.

Lemma fuse_exec_keeps_inodes o : keeps inodes_inv (fuse_exec o).
Proof.
  destruct o; cbn [fuse_exec].
  - apply inodes_inv_child. intros rel Hrel. keep_all.
  - apply inodes_inv_ino. intros p. keep_all.
  - apply inodes_inv_ino. intros p. keep_all.
  - apply inodes_inv_ino. intros p. keep_all.
  - apply inodes_inv_ino. intros p. apply keeps_read.
  - apply inodes_inv_ino. intros p. keep_all.
  - apply keeps_readdir.
  - apply inodes_inv_child. intros rel Hrel. cbv zeta. keep_all.
  - apply keeps_create_file. intros rel p. keep_all.
  - unfold mknod. destruct (negb _); [apply triple_err; by intros|].
    apply keeps_create_file. intros rel p. keep_all.
  - apply inodes_inv_child. intros rel Hrel. cbv zeta. keep_all.
  - apply inodes_inv_child. intros rel Hrel. cbv zeta. keep_all.
  - apply inodes_inv_child. intros old Hold. apply inodes_inv_child. intros new Hnew.
    cbv zeta. keep_all.
Qed.
End inode_props.

(** ** What the disk operations keep *)

(** Every file outside [X] is still there with its contents and modification time. *)
Definition kept (X : path → Prop) (d d' : Disk) : Prop :=
  clock d' = clock d ∧
  ∀ q n b, ¬ X q → nodes d !! q = Some n → content n = CFile b →
    ∃ n', nodes d' !! q = Some n' ∧ content n' = CFile b ∧ n_mtime n' = n_mtime n.

Lemma kept_refl X d : kept X d d.
Proof. split; [done|]. eauto. Qed.
Lemma kept_trans X d1 d2 d3 : kept X d1 d2 → kept X d2 d3 → kept X d1 d3.
Proof.
  intros [Hc1 H1] [Hc2 H2]. split; [congruence|]. intros q n b Hq Hn Hb.
  destruct (H1 q n b Hq Hn Hb) as (n1 & Hn1 & Hb1 & Hm1).
  destruct (H2 q n1 b Hq Hn1 Hb1) as (n2 & ? & ? & ?). exists n2. split_and!; congruence.
Qed.
Lemma kept_weaken (X Y : path → Prop) d d' : (∀ q, X q → Y q) → kept X d d' → kept Y d d'.
Proof. intros HXY [Hc H]. split; [done|]. intros q n b Hq. apply H. auto. Qed.

Definition only (p : path) : path → Prop := λ q, q = p.
Definition nowhere : path → Prop := λ _, False.

Lemma kept_put p n d : kept (only p) d (put_node p n d).
Proof.
  split; [done|]. intros q m b Hq Hm Hb. exists m. simpl. by rewrite lookup_insert_ne by auto.
Qed.
(** A node that is rewritten with the same contents and time. *)
Lemma kept_same p n n' d :
  nodes d !! p = Some n → content n' = content n → n_mtime n' = n_mtime n →
  kept nowhere d (put_node p n' d).
Proof.
  intros Hn Hc Ht. split; [done|]. intros q m b _ Hm Hb. simpl.
  destruct (decide (q = p)) as [->|Hne].
  - rewrite lookup_insert_eq. simplify_eq. exists n'. split_and!; congruence.
  - rewrite lookup_insert_ne by done. eauto.
Qed.
(** A node that is new. *)
Lemma kept_new p n d : nodes d !! p = None → kept nowhere d (put_node p n d).
Proof.
  intros Hp. split; [done|]. intros q m b _ Hm Hb. simpl.
  rewrite lookup_insert_ne by congruence. eauto.
Qed.

Lemma kept_nowhere X d d' : kept nowhere d d' → kept X d d'.
Proof. apply kept_weaken. by intros q []. Qed.

Section kept_calls.
Variable f : Faults.

Lemma fs_update_kept p g d : kept (only p) d (fs_update p g d).1.
Proof.
  destruct (fs_update p g d) as [d' [[]|e]] eqn:E; simpl.
  - apply fs_update_ok in E as (n & b & _ & _ & ->). apply kept_put.
  - apply fs_update_err in E as ->. apply kept_refl.
Qed.
Lemma fs_write_at_kept p off b d : kept (only p) d (fs_write_at f p off b d).1.
Proof. unfold fs_write_at, sys. destruct (f SWrite p); [apply kept_refl|apply fs_update_kept]. Qed.

Lemma fs_set_mode_kept p m d : kept nowhere d (fs_set_mode f p m d).1.
Proof.
  unfold fs_set_mode, sys, st_bind, fs_node, st_mod, st_err.
  destruct (f SPerm p); [apply kept_refl|].
  destruct (nodes d !! p) as [n|] eqn:E; [|apply kept_refl]. by eapply kept_same.
Qed.

Lemma set_attr_kept p name v d : kept nowhere d (set_attr f p name v d).1.
Proof.
  unfold set_attr, sys, st_bind, fs_node, st_mod, st_err.
  destruct (f SSetAttr p); [apply kept_refl|].
  destruct (nodes d !! p) as [n|] eqn:E; [|apply kept_refl]. by eapply kept_same.
Qed.
Lemma annotate_write_kept p session d : kept nowhere d (annotate_write f p session d).1.
Proof.
  unfold annotate_write, annotate_write_at. destruct (str_is_empty session); [apply kept_refl|].
  rewrite st_bind_run.
  pose proof (set_attr_kept p ATTR_SESSION session d) as H1.
  destruct (set_attr f p ATTR_SESSION session d) as [d1 [[]|e]]; [|done].
  eapply kept_trans; [exact H1|apply set_attr_kept].
Qed.

Lemma fs_create_new_kept p m d : kept nowhere d (fs_create_new f p m d).1.
Proof.
  unfold fs_create_new, sys, st_err. destruct (f SCreate p); [apply kept_refl|].
  destruct (nodes d !! p) eqn:E; [apply kept_refl|].
  destruct (parent_is_dir d p); [by apply kept_new|apply kept_refl].
Qed.
Lemma fs_create_dir_kept p d : kept nowhere d (fs_create_dir f p d).1.
Proof.
  unfold fs_create_dir, sys, st_err. destruct (f SMkdir p); [apply kept_refl|].
  destruct (nodes d !! p) eqn:E; [apply kept_refl|].
  destruct (parent_is_dir d p); [by apply kept_new|apply kept_refl].
Qed.
Lemma create_parent_kept p d : kept nowhere d (create_parent f p d).1.
Proof.
  destruct (create_parent f p d) as [d' r] eqn:E. apply create_parent_keeps in E as [Hc Hk].
  split; [done|]. simpl. eauto.
Qed.
Lemma fs_remove_file_kept p d : kept (only p) d (fs_remove_file f p d).1.
Proof.
  unfold fs_remove_file, sys, st_bind, fs_node, st_mod, st_err.
  destruct (f SUnlink p); [apply kept_refl|].
  destruct (nodes d !! p) as [n|]; [|apply kept_refl]. destruct (content n); [|apply kept_refl].
  split; [done|]. intros q m b Hq Hm Hb. exists m. simpl. by rewrite lookup_delete_ne by auto.
Qed.
Lemma fs_remove_dir_kept p d : kept nowhere d (fs_remove_dir f p d).1.
Proof.
  unfold fs_remove_dir, sys, st_bind, fs_node, st_mod, st_err.
  destruct (f SRmdir p); [apply kept_refl|].
  destruct (nodes d !! p) as [n|] eqn:E; [|apply kept_refl].
  destruct (content n) eqn:Ec; [apply kept_refl|].
  destruct (has_children d p); [apply kept_refl|].
  split; [done|]. intros q m b _ Hm Hb. exists m. simpl.
  rewrite lookup_delete_ne; [done|]. intros ->. simplify_eq. congruence.
Qed.

(** A well-formed tree: whatever lies below a node lies below a directory. *)
Definition tree_ok (d : Disk) : Prop :=
  ∀ p q n, nodes d !! q = Some n → p `prefix_of` q → p ≠ q → p ≠ [] → is_dir d p = true.

Lemma tree_ok_leaf d p q n :
  tree_ok d → is_dir d p = false → p ≠ [] → nodes d !! q = Some n → p `prefix_of` q → q = p.
Proof.
  intros Ht Hd Hne Hn Hp. destruct (decide (p = q)) as [|Hpq]; [done|].
  rewrite (Ht p q n) in Hd; done.
Qed.

Lemma fs_rename_kept old new d :
  tree_ok d → is_dir d old = false → old ≠ [] → new ≠ [] →
  kept (λ q, q = old ∨ q = new) d (fs_rename f old new d).1.
Proof.
  intros Ht Hfile Ho Hw. destruct (fs_rename f old new d) as [d' [[]|e]] eqn:E; simpl.
  2: { apply fs_rename_err in E as ->. apply kept_refl. }
  apply fs_rename_ok in E as (n & Hn & [[_ ->]|(Hnp & -> & Hnew)]); [apply kept_refl|].
  assert (∃ b, content n = CFile b) as [bo Hbo].
  { unfold is_dir in Hfile. rewrite Hn in Hfile. destruct n as [[] ? ? ?]; [by eexists|done]. }
  assert (is_dir d new = false) as Hnd.
  { unfold is_dir. destruct (nodes d !! new) as [[[] ? ? ?]|] eqn:Em; try done.
    by destruct (Hnew bo Hbo _ eq_refl). }
  split; [done|]. intros q m b Hq Hm Hb. exists m. simpl. split; [|done].
  rewrite move_tree_outside; [done| |]; intros Hp; apply Hq;
    [left|right]; by eapply tree_ok_leaf.
Qed.
End kept_calls.

(** ** The staging area is apart *)

Definition under (root : path) : path → Prop := λ q, root `prefix_of` q.

Definition ws_wf (root : path) (w : WriteSerialize) : Prop :=
  root `prefix_of` staging_root w ∧ map_Forall (λ _ st, root `prefix_of` st) (ws_pending w).
Definition cow_wf (c : AgentCowStore) : Prop :=
  cow_root c ≠ [] ∧ map_Forall (λ _ w, ws_wf (cow_root c) w) (agents c).

Lemma path_join_prefix root p name : root ≠ [] → root `prefix_of` p → root `prefix_of` path_join p [Normal name].
Proof.
  intros Hr [k ->]. unfold path_join. simpl.
  destruct (root ++ k) as [|c l] eqn:E; [by destruct root|].
  rewrite <- E, <- app_assoc. by eexists.
Qed.

Lemma store_for_wf c key : cow_wf c → ws_wf (cow_root c) (store_for c key).
Proof.
  intros [Hr Hall]. unfold store_for. destruct (agents c !! key) as [w|] eqn:E; [by apply (Hall key)|].
  split; simpl; [by apply path_join_prefix|apply map_Forall_empty].
Qed.

(** An operation of one staging area that keeps it apart, lifted to the store. *)
Lemma with_agent_wf {A} agent (m : stm WsState WriteSerializeError A) s (X : path → Prop) :
  cow_wf (cow_store s) →
  (∀ w, ws_disk w = cow_disk s → ws_wf (cow_root (cow_store s)) (ws_store w) →
     kept X (cow_disk s) (ws_disk (m w).1) ∧ ws_wf (cow_root (cow_store s)) (ws_store (m w).1)) →
  kept X (cow_disk s) (cow_disk (with_agent agent m s).1) ∧
  cow_wf (cow_store (with_agent agent m s).1) ∧
  cow_root (cow_store (with_agent agent m s).1) = cow_root (cow_store s).
Proof.
  intros Hwf Hm. unfold with_agent.
  set (w0 := mkWsState (cow_disk s) (store_for (cow_store s) (agent_key (cow_store s) agent)) (cow_meters s)).
  destruct (Hm w0) as [Hk Hw]; [done|by apply store_for_wf|].
  destruct (m w0) as [w r]. simpl in *. split_and!; [done| |done].
  split; [apply Hwf|]. simpl. apply map_Forall_insert_2; [done|]. apply Hwf.
Qed.

Section cow_kept.
Variable digest : path → string.
Variable f : Faults.

Lemma fs_create_kept p d : kept (only p) d (fs_create f p d).1.
Proof.
  unfold fs_create, sys, st_err. destruct (f SCreate p); [apply kept_refl|].
  destruct (nodes d !! p) as [n|]; [destruct (content n)|destruct (parent_is_dir d p)];
    simpl; apply kept_put || apply kept_refl.
Qed.

Lemma stage_bytes_kept root p b w :
  root ≠ [] → ws_wf root (ws_store w) →
  kept (under root) (ws_disk w) (ws_disk (stage_bytes digest f p b w).1) ∧
  ws_wf root (ws_store (stage_bytes digest f p b w).1).
Proof.
  intros Hr [Hroot Hpend].
  unfold stage_bytes, st_bind, st_get, lock_arc, st_mod, on_disk. simpl.
  set (st := staging_path_for digest _ p).
  assert (root `prefix_of` st) as Hst by (by apply path_join_prefix).
  assert (∀ q, only st q → under root q) as Hsub by (intros q ->; done).
  pose proof (create_parent_kept f st (ws_disk w)) as K1.
  destruct (create_parent f st (ws_disk w)) as [d1 [[]|e]]; simpl in *;
    [|split; [by apply kept_nowhere|done]].
  pose proof (fs_create_kept st d1) as K2.
  destruct (fs_create f st d1) as [d2 [[]|e]]; simpl in *.
  2: { split; [|done]. eapply kept_trans; [apply kept_nowhere; exact K1|by eapply kept_weaken]. }
  pose proof (fs_write_at_kept f st 0 b d2) as K3.
  assert (kept (under root) (ws_disk w) (fs_write_at f st 0 b d2).1) as K.
  { eapply kept_trans; [apply kept_nowhere; exact K1|].
    eapply kept_trans; eapply kept_weaken; eauto. }
  destruct (fs_write_at f st 0 b d2) as [d3 [[]|e]]; simpl in *; (split; [done|]); [|done].
  split; [done|]. simpl. by apply map_Forall_insert_2.
Qed.

Lemma discard_pending_kept root p w :
  ws_wf root (ws_store w) →
  kept (under root) (ws_disk w) (ws_disk (discard_pending f p w).1) ∧
  ws_wf root (ws_store (discard_pending f p w).1).
Proof.
  intros [Hroot Hpend].
  unfold discard_pending, st_bind, st_get, lock_arc, st_mod, path_exists, st_err. simpl.
  destruct (ws_pending (ws_store w) !! p) as [st|] eqn:E; simpl; [|split; [apply kept_refl|done]].
  assert (map_Forall (λ _ st, root `prefix_of` st) (delete p (ws_pending (ws_store w))))
    by (by apply map_Forall_delete).
  destruct (is_ok _); simpl; [|split; [apply kept_refl|done]]. unfold on_disk. simpl.
  pose proof (fs_remove_file_kept f st (ws_disk w)) as K.
  destruct (fs_remove_file f st (ws_disk w)) as [d [[]|e]]; simpl in *;
    (split; [|done]); eapply kept_weaken; try exact K; intros q ->; by apply (Hpend p).
Qed.

Lemma promote_kept root st p d :
  root `prefix_of` st → (∀ q n, nodes d !! q = Some n → p `prefix_of` q → q = p) →
  kept (λ q, under root q ∨ q = p) d (promote f st p d).1.
Proof.
  intros Hst Hleaf. unfold promote.
  destruct (fs_rename f st p d) as [d1 [[]|e]] eqn:E; simpl.
  - apply fs_rename_ok in E as (n & Hn & [[_ ->]|(_ & -> & _)]); [apply kept_refl|].
    split; [done|]. intros q m b Hq Hm Hb. exists m. simpl. split; [|done].
    rewrite move_tree_outside; [done| |]; intros Hp; apply Hq; [left|right].
    + unfold under. by trans st.
    + by eapply Hleaf.
  - apply fs_rename_err in E as ->.
    assert (kept (only p) d (fs_copy f st p d).1) as K.
    { unfold fs_copy, sys, st_bind, st_err. destruct (f SCopy st); [apply kept_refl|].
      pose proof (fs_read_pure no_faults st d) as Hp.
      destruct (fs_read no_faults st d) as [d2 [b|]]; simpl in Hp; subst d2; [|apply kept_refl].
      unfold fs_node. destruct (nodes d !! st) as [n|]; [|apply kept_refl].
      destruct (nodes d !! p) as [m|]; [destruct (content m)|destruct (parent_is_dir d p)];
        simpl; apply kept_put || apply kept_refl. }
    assert (kept (λ q, under root q ∨ q = p) d (fs_copy f st p d).1) as K'
      by (eapply kept_weaken; [|exact K]; intros q ->; by right).
    destruct e; try apply kept_refl.
    destruct (fs_copy f st p d) as [d2 [[]|e]]; simpl in *; [|done].
    eapply kept_trans; [exact K'|]. eapply kept_weaken; [|apply fs_remove_file_kept].
    intros q ->. by left.
Qed.

Lemma commit_pending_kept root p w :
  ws_wf root (ws_store w) → tree_ok (ws_disk w) → is_dir (ws_disk w) p = false → p ≠ [] →
  kept (λ q, under root q ∨ q = p) (ws_disk w) (ws_disk (commit_pending f p w).1) ∧
  ws_wf root (ws_store (commit_pending f p w).1).
Proof.
  intros [Hroot Hpend] Ht Hd Hp.
  unfold commit_pending, st_bind, st_get, lock_arc, st_mod, path_exists, st_err. simpl.
  destruct (ws_pending (ws_store w) !! p) as [st|] eqn:E; simpl; [|split; [apply kept_refl|done]].
  assert (map_Forall (λ _ st, root `prefix_of` st) (delete p (ws_pending (ws_store w))))
    by (by apply map_Forall_delete).
  destruct (is_ok _); simpl; [|split; [apply kept_refl|done]]. unfold on_disk. simpl.
  pose proof (create_parent_kept f p (ws_disk w)) as K1.
  assert (∀ q n, nodes (create_parent f p (ws_disk w)).1 !! q = Some n → p `prefix_of` q → q = p) as Hleaf.
  { intros q n Hq Hpq.
    assert (nodes (ws_disk w) !! q = Some n ∨ q `prefix_of` p) as [Hq'|Hqp].
    { unfold create_parent in Hq. destruct (parent_of p) as [pp|] eqn:Epp; [|by left].
      destruct (fs_create_dir_all f pp (ws_disk w)) as [d1 r] eqn:Ec.
      apply fs_create_dir_all_keeps in Ec as (_ & _ & Hc). destruct (Hc q) as [?|[_ ?]]; simpl in *.
      - left. congruence.
      - right. etrans; [done|]. by apply parent_of_prefix. }
    - by eapply tree_ok_leaf.
    - by apply (anti_symm prefix). }
  destruct (create_parent f p (ws_disk w)) as [d1 [[]|e]]; simpl in *;
    [|split; [by apply kept_nowhere|done]].
  pose proof (promote_kept root st p d1 (Hpend p st E) Hleaf) as K2.
  assert (kept (λ q, under root q ∨ q = p) (ws_disk w) (promote f st p d1).1) as K.
  { eapply kept_trans; [apply kept_nowhere; exact K1|exact K2]. }
  destruct (promote f st p d1) as [d2 [[]|e]]; simpl in *; by split.
Qed.
End cow_kept.
