(* ===== verification/InterceptCoherence.v ===== *)
(** Correctness of the FUSE file system of InterceptFs.v: consistency of the inode map and
    coherence of the read cache over every sequence of operations, visibility of created
    files, and the situations in which the code falls short of it. *)
From S2P Require Import Prelude FleetGate BackingFs FuseStores CowStore InterceptFs.

(** * Coherence of the read cache *)

(** Every cached file outside [X] and outside the staging area is on the disk, with the
    cached bytes if its modification time is the cached one. *)
Definition coherent (X : path → Prop) (s : InterceptFs) : Prop :=
  ∀ q m b, ¬ X q → ¬ under (cow_root (cow s)) q → rc_entries (read_cache s) !! q = Some (m, b) →
    ∃ n b', nodes (i_disk s) !! q = Some n ∧ content n = CFile b' ∧ (n_mtime n = m → b' = b).

Definition Inv (X : path → Prop) (s : InterceptFs) : Prop :=
  session_id s ≠ EmptyString ∧ cow_wf (cow s) ∧ coherent X s.

Lemma Inv_weaken (X Y : path → Prop) s : (∀ q, X q → Y q) → Inv X s → Inv Y s.
Proof. intros H (? & ? & Hc). split_and!; [done..|]. intros q m b Hq. apply Hc. auto. Qed.

(** Changing the disk, and the store along with it. *)
Lemma Inv_kept (X Y : path → Prop) s s' :
  Inv X s → session_id s' = session_id s → read_cache s' = read_cache s →
  cow_root (cow s') = cow_root (cow s) → cow_wf (cow s') →
  kept (λ q, under (cow_root (cow s)) q ∨ Y q) (i_disk s) (i_disk s') →
  Inv (λ q, X q ∨ Y q) s'.
Proof.
  intros (Hs & _ & Hc) Hs' Hr Hroot Hwf [_ Hk]. split_and!; [congruence|done|].
  intros q m b Hq Hu Hrc. rewrite Hr in Hrc. rewrite Hroot in Hu.
  destruct (Hc q m b) as (n & b' & Hn & Hb & Hm); [by auto..|].
  destruct (Hk q n b') as (n' & ? & ? & ?); [|done..|].
  - intros [?|?]; auto.
  - exists n', b'. split_and!; [done..|]. intros <-. auto.
Qed.
Lemma Inv_disk X s d : Inv X s → kept nowhere (i_disk s) d → Inv X (set_disk d s).
Proof.
  intros HI Hk. eapply (Inv_weaken (λ q, X q ∨ nowhere q)); [by intros q [?|[]]|].
  eapply Inv_kept; [exact HI|done..|apply HI|]. eapply kept_weaken; [|exact Hk]. by intros q [].
Qed.
Lemma Inv_disk_only X s d p :
  Inv X s → kept (only p) (i_disk s) d → Inv (λ q, X q ∨ q = p) (set_disk d s).
Proof.
  intros HI Hk. eapply Inv_kept; [exact HI|done..|apply HI|].
  eapply kept_weaken; [|exact Hk]. intros q ->. by right.
Qed.

Lemma Inv_invalidate X p s : Inv (λ q, X q ∨ q = p) s → Inv X (on_cache (rc_invalidate p) s).
Proof.
  intros (Hs & Hw & Hc). split_and!; [done..|]. intros q m b Hq Hu. simpl.
  intros [Hne Hrc]%lookup_delete_Some. apply Hc; [|done..]. intros [?|?]; auto.
Qed.

Lemma Inv_meta (g : InterceptFs → InterceptFs) X s :
  i_disk (g s) = i_disk s → session_id (g s) = session_id s → read_cache (g s) = read_cache s →
  cow (g s) = cow s → Inv X s → Inv X (g s).
Proof. unfold Inv, coherent. intros -> -> -> ->. done. Qed.

#[export] Hint Extern 1 (Inv _ (on_neg _ _)) => (apply Inv_meta; done) : rust.
#[export] Hint Extern 1 (Inv _ (on_inodes _ _)) => (apply Inv_meta; done) : rust.
#[export] Hint Extern 1 (Inv _ (note_missing _ _)) => (apply (Inv_meta (note_missing _)); done) : rust.

Section keeps.
Variable f : Faults.

Lemma Inv_on_disk {A} X (m : stm Disk Errno A) :
  (∀ d, kept nowhere d (m d).1) → keeps (Inv X) (on_i_disk m).
Proof.
  intros Hm s Hs. unfold on_i_disk. specialize (Hm (i_disk s)).
  destruct (m (i_disk s)) as [d [a|e]]; by apply Inv_disk.
Qed.
Lemma Inv_try_disk {E A} X (m : stm Disk Errno A) :
  (∀ d, kept nowhere d (m d).1) → keeps (E := E) (Inv X) (try_disk m).
Proof.
  intros Hm s Hs. unfold try_disk. specialize (Hm (i_disk s)).
  destruct (m (i_disk s)) as [d r]. by apply Inv_disk.
Qed.
Lemma metadata_kept p d : kept nowhere d (fs_metadata f p d).1.
Proof. rewrite fs_metadata_pure. apply kept_refl. Qed.
Lemma read_dir_kept p d : kept nowhere d (fs_read_dir f p d).1.
Proof.
  unfold fs_read_dir, sys, st_bind, fs_node, st_err. destruct (f SReadDir p); [apply kept_refl|].
  destruct (nodes d !! p) as [n|]; [|apply kept_refl]. destruct (content n); apply kept_refl.
Qed.
Lemma Inv_alloc {E} X rel : keeps (E := E) (Inv X) (alloc rel).
Proof. intros s Hs. unfold alloc. by destruct (alloc_or_get _ _). Qed.
Lemma Inv_check {E} X rel : keeps (E := E) (Inv X) (check_negative rel).
Proof. intros s Hs. unfold check_negative. by destruct (is_negative _ _ _) as [n []]. Qed.
Lemma Inv_child X parent name (k : path → stm InterceptFs Errno Reply) :
  (∀ rel, rel ≠ [] → keeps (Inv X) (k rel)) → keeps (Inv X) (with_child parent name k).
Proof.
  intros Hk s Hs. unfold with_child, child_rel.
  destruct (resolve parent (inodes s)) as [p|]; [|done]. simpl. apply Hk; [|done].
  apply join_rel_nonempty.
Qed.
Lemma Inv_ino X ino (k : path → stm InterceptFs Errno Reply) :
  (∀ p, keeps (Inv X) (k p)) → keeps (Inv X) (with_ino ino k).
Proof. intros Hk s Hs. unfold with_ino. destruct (abs_path _ _ _); [|done]. by apply Hk. Qed.
End keeps.

#[export] Hint Resolve Inv_on_disk Inv_try_disk metadata_kept read_dir_kept Inv_alloc Inv_check
  fs_set_mode_kept annotate_write_kept fs_create_new_kept fs_create_dir_kept create_parent_kept
  fs_remove_dir_kept : rust.

Ltac keep_all := repeat (keep_step || (apply keeps_triple; by eauto with rust)).

(** The calls whose failure comes after the file was changed do not fail. *)
Definition late_ok (f : Faults) : Prop :=
  ∀ p, f SSetAttr p = None ∧ f SPerm p = None ∧ f SMeta p = None.

Section operations.
Variable f : Faults.
Hypothesis Hlate : late_ok f.

(** ** Reads *)
Lemma read_coalesced_inv X p s d c r :
  Inv X s → read_coalesced f p (i_disk s, read_cache s) = ((d, c), r) →
  d = i_disk s ∧ Inv X (on_cache (λ _, c) s) ∧
  ∀ b, r = Ok b → ¬ X p → ¬ under (cow_root (cow s)) p →
    content <$> nodes (i_disk s) !! p = Some (CFile b).
Proof.
  intros (Hs & Hw & Hc). unfold read_coalesced.
  destruct (fs_metadata f p (i_disk s)) as [d1 [meta|e]] eqn:Em.
  2: { pose proof (fs_metadata_pure f p (i_disk s)) as Hp. rewrite Em in Hp. simpl in Hp. subst d1.
       intros [= <- <- <-]. split; [done|]. split; [by split_and!|done]. }
  apply fs_metadata_ok in Em as [-> Hn]. unfold rc_get.
  assert (∀ c', (∀ q m b, ¬ X q → ¬ under (cow_root (cow s)) q → rc_entries c' !! q = Some (m, b) →
            rc_entries (read_cache s) !! q = Some (m, b) ∨
            q = p ∧ m = n_mtime meta ∧ content meta = CFile b) →
          Inv X (on_cache (λ _, c') s)) as Hstep.
  { intros c' Hc'. split_and!; [done..|]. intros q m b Hq Hu Hrc. simpl in *.
    destruct (Hc' q m b Hq Hu Hrc) as [?|(-> & -> & ?)]; [by apply Hc|]. eauto 10. }
  assert (∀ c' b, (fs_read f p (i_disk s)) = (i_disk s, Ok b) → rc_entries c' ⊆ rc_entries (read_cache s) →
            Inv X (on_cache (λ _, put_miss p (n_mtime meta) b c') s) ∧
            content <$> nodes (i_disk s) !! p = Some (CFile b)) as Hmiss.
  { intros c' b (_ & n & Hn' & Hb)%fs_read_ok Hsub. simplify_eq. rewrite Hn. simpl. rewrite Hb.
    split; [|done]. apply Hstep. intros q m b0 _ _ Hrc. simpl in Hrc.
    destruct (decide (q = p)) as [->|Hne].
    - rewrite lookup_insert_eq in Hrc. simplify_eq. auto.
    - rewrite lookup_insert_ne in Hrc by done. left. by eapply lookup_weaken. }
  assert (∀ c', rc_entries c' ⊆ rc_entries (read_cache s) → Inv X (on_cache (λ _, c') s)) as Hsub.
  { intros c' Hsub. apply Hstep. intros q m b _ _ Hrc. left. by eapply lookup_weaken. }
  pose proof (fs_read_pure f p (i_disk s)) as Hpure.
  destruct (rc_entries (read_cache s) !! p) as [[m data]|] eqn:Ep; [destruct (m =? n_mtime meta) eqn:Et|].
  - intros [= <- <- <-]. split; [done|]. split; [by apply Hsub|].
    intros b [= <-] Hx Hu. apply Z.eqb_eq in Et. subst m.
    destruct (Hc p _ _ Hx Hu Ep) as (n & b' & Hn' & Hb & Hm). simplify_eq.
    rewrite Hn. simpl. rewrite Hb. by rewrite Hm.
  - destruct (fs_read f p (i_disk s)) as [d2 [b|e]] eqn:Er; simpl in Hpure; subst d2;
      intros [= <- <- <-]; (split; [done|]).
    + destruct (Hmiss (mkReadCache (delete p (rc_entries (read_cache s))) (rc_hits (read_cache s))
        (rc_misses (read_cache s))) b) as [? ?]; [done|apply delete_subseteq|].
      split; [done|]. by intros b0 [= <-].
    + split; [|done]. apply Hsub. simpl. apply delete_subseteq.
  - destruct (fs_read f p (i_disk s)) as [d2 [b|e]] eqn:Er; simpl in Hpure; subst d2;
      intros [= <- <- <-]; (split; [done|]).
    + destruct (Hmiss (read_cache s) b) as [? ?]; [done..|]. split; [done|]. by intros b0 [= <-].
    + split; [|done]. by apply Hsub.
Qed.

Lemma read_inv X ino off size : keeps (Inv X) (read f ino off size).
Proof.
  apply Inv_ino. intros p s Hs. unfold read_slice. rewrite st_bind_run.
  destruct (read_coalesced f p (i_disk s, read_cache s)) as [[d c] r] eqn:E.
  apply (read_coalesced_inv X) in E as (-> & HI & _); [|done].
  destruct r; simpl; exact HI || (destruct s; exact HI).
Qed.

(** ** Writes *)
Lemma annotate_total p session d n :
  session ≠ EmptyString → nodes d !! p = Some n → (annotate_write f p session d).2 = Ok tt.
Proof.
  intros Hs Hn. unfold annotate_write, annotate_write_at.
  destruct session as [|c t]; [done|]. cbn [str_is_empty]. rewrite st_bind_run.
  unfold set_attr, sys, st_bind, fs_node, st_mod. destruct (Hlate p) as [-> _]. rewrite Hn. simpl.
  by rewrite lookup_insert_eq.
Qed.

Lemma fs_open_write_pure p d : (fs_open_write f p d).1 = d.
Proof.
  unfold fs_open_write, sys, st_bind, fs_node, st_ret, st_err. destruct (f SOpen p); [done|].
  destruct (nodes d !! p) as [n|]; [|done]. by destruct (content n).
Qed.

(** The stamped write either changes one file or nothing. *)
Lemma write_stamped_spec p off b session d d' r :
  session ≠ EmptyString → write_stamped f p off b session d = (d', r) →
  if is_ok r then kept (only p) d d' else d' = d.
Proof.
  intros Hs. unfold write_stamped. rewrite st_bind_run.
  pose proof (fs_open_write_pure p d) as Ho.
  destruct (fs_open_write f p d) as [d1 [[]|e]]; simpl in Ho; subst d1;
    [|by intros [= <- <-]]. rewrite st_bind_run.
  destruct (fs_write_at f p off b d) as [d2 [[]|e]] eqn:Ew.
  2: { apply fs_write_at_err in Ew as ->. by intros [= <- <-]. }
  pose proof (fs_write_at_kept f p off b d) as K1. rewrite Ew in K1. simpl in K1.
  apply fs_write_at_ok in Ew as (n & old & _ & _ & Hd2). rewrite st_bind_run.
  pose proof (annotate_write_kept f p session d2) as K2.
  pose proof (annotate_total p session d2 (mkNode (CFile (splice off b old)) (clock d) (n_mode n) (xattrs n)) Hs) as Ha.
  destruct (annotate_write f p session d2) as [d3 [[]|e]]; simpl in *.
  - intros [= <- <-]. simpl. eapply kept_trans; [exact K1|by apply kept_nowhere].
  - discriminate Ha. rewrite Hd2. apply lookup_insert_eq.
Qed.

Lemma locked_path_frame {A} agent p (m : stm Disk Errno A) c :
  cow_wf (cow_store c) →
  let c' := (cow_with_locked_path agent p m c).1 in
  cow_disk c' = (m (cow_disk c)).1 ∧ (cow_with_locked_path agent p m c).2 = Ok (m (cow_disk c)).2 ∧
  cow_wf (cow_store c') ∧ cow_root (cow_store c') = cow_root (cow_store c).
Proof.
  intros Hwf. unfold cow_with_locked_path. destruct (cow_serialize (cow_store c)).
  - unfold with_agent, st_bind, lock_arc, st_mod. simpl.
    pose proof (store_for_wf (cow_store c) (agent_key (cow_store c) agent) Hwf) as Hst.
    destruct (m (cow_disk c)) as [d r]. simpl. split_and!; [done..| |done].
    split; [apply Hwf|]. simpl. apply map_Forall_insert_2; [done|apply Hwf].
  - by destruct (m (cow_disk c)).
Qed.

Lemma write_abs_inv p off b : keeps (Inv nowhere) (write_abs f p off b).
Proof.
  intros s (Hs & Hw & Hc). unfold write_abs, on_cow.
  set (c := mkCowState (i_disk s) (cow s) (i_meters s)).
  destruct (locked_path_frame None p (write_stamped f p off b (session_id s)) c Hw)
    as (Hd & Hr & Hwf & Hroot).
  destruct (cow_with_locked_path None p _ c) as [c' r]. simpl in *. subst r.
  destruct (write_stamped f p off b (session_id s) (i_disk s)) as [d' r] eqn:E. simpl in *.
  pose proof (write_stamped_spec _ _ _ _ _ _ _ Hs E) as Hk.
  assert (Inv (λ q, nowhere q ∨ match r with Ok _ => q = p | Err _ => nowhere q end)
    (mkFs (cow_disk c') (backing s) (session_id s) (cow_enabled s) (inodes s) (read_cache s)
       (neg_dentry s) (cow_store c') (cow_meters c') (neg_global s))) as HI.
  { apply (Inv_kept nowhere _ s); simpl; try done. rewrite Hd.
    destruct r; simpl in Hk; [|rewrite Hk; apply kept_refl].
    eapply kept_weaken; [|exact Hk]. intros q ->. by right. }
  destruct r as [n|e].
  - apply Inv_invalidate. apply (Inv_meta (on_meters record_passthrough_write)); [done..|exact HI].
  - eapply Inv_weaken; [|exact HI]. by intros q [[]|[]].
Qed.

Lemma triple_disk_only {A} p (m : stm Disk Errno A) :
  (∀ d, kept (only p) d (m d).1) → (∀ d d' e, m d = (d', Err e) → d' = d) →
  triple (Inv nowhere) (on_i_disk m) (λ _, Inv (λ q, nowhere q ∨ q = p)) (Inv nowhere).
Proof.
  intros Hk He s Hs. unfold on_i_disk. specialize (Hk (i_disk s)).
  destruct (m (i_disk s)) as [d [a|e]] eqn:E.
  - by apply Inv_disk_only.
  - apply He in E as ->. by apply Inv_disk; [|apply kept_refl].
Qed.

Lemma fs_set_len_kept p n d : kept (only p) d ((fs_open_write f p ;;; fs_set_len f p n) d).1.
Proof.
  rewrite st_bind_run. pose proof (fs_open_write_pure p d) as Ho.
  destruct (fs_open_write f p d) as [d1 [[]|e]]; simpl in Ho; subst d1; [|apply kept_refl].
  unfold fs_set_len, sys. destruct (f SLen p); [apply kept_refl|apply fs_update_kept].
Qed.
Lemma fs_set_len_err p n d d' e :
  (fs_open_write f p ;;; fs_set_len f p n) d = (d', Err e) → d' = d.
Proof.
  rewrite st_bind_run. pose proof (fs_open_write_pure p d) as Ho.
  destruct (fs_open_write f p d) as [d1 [[]|e1]]; simpl in Ho; subst d1; [|by intros [= <- _]].
  unfold fs_set_len, sys. destruct (f SLen p); [by intros [= <- _]|apply fs_update_err].
Qed.

(** After the length was changed nothing fails any more. *)
Lemma setattr_inv ino mode size : keeps (Inv nowhere) (setattr f ino mode size).
Proof.
  apply Inv_ino. intros p s Hs. rewrite st_bind_run.
  assert (∀ s0 : InterceptFs, is_Some (nodes (i_disk s0) !! p) → Inv (λ q, nowhere q ∨ q = p) s0 →
    match (match mode with Some m => on_i_disk (fs_set_mode f p m) | None => st_ret tt end ;;;
      (meta <- on_i_disk (fs_metadata f p) ;;
       st_mod (on_cache (rc_invalidate p)) ;;; st_ret (RAttr ino meta))) s0 with
    | (s', Ok _) => Inv nowhere s' | (s', Err _) => Inv nowhere s' end) as Hrest.
  { intros s0 [n Hn] HI. destruct (Hlate p) as (_ & Hperm & Hmeta).
    unfold fs_set_mode, fs_metadata, sys. rewrite Hperm, Hmeta.
    destruct mode as [m|]; unfold st_bind, on_i_disk, fs_node, st_mod, st_ret; rewrite Hn; simpl.
    - rewrite lookup_insert_eq. apply Inv_invalidate. apply Inv_disk; [|by apply kept_refl].
      apply (Inv_disk _ s0); [done|]. by eapply kept_same.
    - apply Inv_invalidate. by apply Inv_disk; [|apply kept_refl]. }
  destruct size as [n|].
  - unfold on_i_disk at 1.
    pose proof (fs_set_len_kept p n (i_disk s)) as K.
    destruct ((fs_open_write f p ;;; fs_set_len f p n) (i_disk s)) as [d [[]|e]] eqn:E.
    + apply Hrest.
      * rewrite st_bind_run in E. pose proof (fs_open_write_pure p (i_disk s)) as Ho.
        destruct (fs_open_write f p (i_disk s)) as [d1 [[]|e1]]; simpl in Ho; subst d1; [|done].
        unfold fs_set_len, sys in E. destruct (f SLen p); [done|].
        apply fs_update_ok in E as (m & b & _ & _ & ->). simpl. rewrite lookup_insert_eq. by eexists.
      * by apply Inv_disk_only.
    + apply fs_set_len_err in E as ->. by apply Inv_disk; [|apply kept_refl].
  - change (st_ret () s) with (s, Ok () : result unit Errno). cbv beta iota.
    destruct (nodes (i_disk s) !! p) as [n|] eqn:E.
    + apply Hrest; [by eexists|]. eapply Inv_weaken; [|exact Hs]. by left.
    + destruct (Hlate p) as (_ & Hperm & Hmeta).
      unfold fs_set_mode, fs_metadata, sys. rewrite Hperm, Hmeta.
      destruct mode; unfold st_bind, on_i_disk, fs_node, st_ret; rewrite E; simpl;
        by apply Inv_disk; [|apply kept_refl].
Qed.

(** ** Creation, removal, renaming *)
Lemma after_create_inv rel p s n :
  Inv nowhere s → nodes (i_disk s) !! p = Some n →
  ∃ s', after_create_at f rel p s = (s', Ok tt) ∧ Inv nowhere s'.
Proof.
  intros HI Hn. unfold after_create_at, st_bind, st_get, on_i_disk, st_mod.
  pose proof (annotate_total p (session_id s) (i_disk s) n (proj1 HI) Hn) as Ha.
  pose proof (annotate_write_kept f p (session_id s) (i_disk s)) as K.
  destruct (annotate_write f p (session_id s) (i_disk s)) as [d r]. simpl in *. subst r.
  eexists; split; [reflexivity|]. apply Inv_invalidate.
  apply (Inv_meta (on_neg (neg_invalidate rel))); [done..|].
  eapply Inv_weaken; [|by apply Inv_disk]. by left.
Qed.

Lemma create_file_inv parent name mode umask k :
  (∀ rel p, keeps (Inv nowhere) (k rel p)) →
  keeps (Inv nowhere) (create_file f parent name mode umask k).
Proof.
  intros Hk. apply Inv_child. intros rel _ s Hs. rewrite st_bind_run. cbn [st_get].
  cbv zeta. rewrite st_bind_run. set (p := abs_under (backing s) rel).
  pose proof (Inv_try_disk (E := Errno) nowhere (create_parent f p) (create_parent_kept f p) s Hs) as H1.
  destruct (try_disk (create_parent f p) s) as [s1 [made|]]; [|done].
  destruct (negb (is_ok made)); [done|]. rewrite st_bind_run.
  pose proof (Inv_on_disk nowhere (fs_create_new f p (Z.ldiff mode umask)) (fs_create_new_kept f p _) s1 H1) as H2.
  destruct (on_i_disk (fs_create_new f p (Z.ldiff mode umask)) s1) as [s2 [[]|]] eqn:E; [|done].
  assert (is_Some (nodes (i_disk s2) !! p)) as [n Hn].
  { unfold on_i_disk, fs_create_new, sys in E. destruct (f SCreate p); [done|].
    destruct (nodes (i_disk s1) !! p); [done|]. destruct (parent_is_dir (i_disk s1) p); [|done].
    injection E as <-. simpl. rewrite lookup_insert_eq. by eexists. }
  destruct (after_create_inv rel p s2 n H2 Hn) as (s3 & -> & H3). by apply Hk.
Qed.

Lemma fs_remove_file_err p d d' e : fs_remove_file f p d = (d', Err e) → d' = d.
Proof.
  unfold fs_remove_file, sys, st_bind, fs_node, st_mod, st_err.
  destruct (f SUnlink p); [by intros [= <- _]|].
  destruct (nodes d !! p) as [n|]; [|by intros [= <- _]].
  destruct (content n); [done|by intros [= <- _]].
Qed.

Lemma unlink_inv parent name : keeps (Inv nowhere) (unlink f parent name).
Proof.
  apply Inv_child. intros rel _.
  eapply triple_bind; [apply (triple_get _ (λ _, Inv nowhere)); by intros|]. intros s0. cbv zeta.
  eapply triple_bind; [apply (triple_disk_only (abs_under (backing s0) rel));
    [apply fs_remove_file_kept|apply fs_remove_file_err]|]. intros [].
  eapply (triple_bind _ _ _ (λ _, Inv nowhere)).
  { apply triple_mod. intros s Hs. by apply Inv_invalidate. }
  intros []. keep_all.
Qed.

Lemma rename_inv parent name np nn s :
  Inv nowhere s → tree_ok (i_disk s) →
  (∀ rel, child_rel parent name (inodes s) = Some rel → is_dir (i_disk s) (abs_under (backing s) rel) = false) →
  Inv nowhere (rename f parent name np nn s).1.
Proof.
  intros HI Ht Hfile. unfold rename, with_child.
  destruct (child_rel parent name (inodes s)) as [old|] eqn:Eo; [|done].
  destruct (child_rel np nn (inodes s)) as [new|] eqn:En; [|done].
  unfold st_bind, st_get, on_i_disk, st_mod, st_ret.
  assert (∀ a b rel, child_rel a b (inodes s) = Some rel → abs_under (backing s) rel ≠ []) as Hne.
  { intros a b rel. unfold child_rel. destruct (resolve a (inodes s)) as [q|]; [|done].
    cbn. intros Heq. injection Heq as <-. unfold abs_under.
    pose proof (join_rel_nonempty q b) as Hj. destruct (join_rel q b) as [|c l]; [done|].
    unfold path_join. destruct (is_absolute _); [done|]. by destruct (backing s). }
  pose proof (fs_rename_kept f (abs_under (backing s) old) (abs_under (backing s) new) (i_disk s)
    Ht (Hfile old eq_refl) (Hne _ _ _ Eo) (Hne _ _ _ En)) as K.
  destruct (fs_rename f _ _ (i_disk s)) as [d [[]|e]] eqn:E; simpl in *.
  2: { apply fs_rename_err in E as ->. by apply Inv_disk; [|apply kept_refl]. }
  apply (Inv_meta (on_inodes (rename_rel old new))); [done..|].
  apply (Inv_meta (on_neg (neg_invalidate new))); [done..|].
  apply (Inv_meta (note_missing old)); [done..|].
  apply Inv_invalidate, Inv_invalidate.
  eapply Inv_weaken; [|apply (Inv_kept nowhere (λ q, q = abs_under (backing s) old ∨
    q = abs_under (backing s) new) s (set_disk d s)); [exact HI|done..|apply HI|]].
  - intros q [[]|[?|?]]; auto.
  - eapply kept_weaken; [|exact K]. by right.
Qed.
End operations.

(** ** Copy-on-write operations *)

Section cow_operations.
Variable digest : path → string.
Variable f : Faults.
Hypothesis Hlate : late_ok f.

(** A failed promotion changes nothing; a successful one leaves the file in place. *)
Lemma fs_copy_cases st p d d' r :
  fs_copy f st p d = (d', r) → if is_ok r then is_Some (nodes d' !! p) else d' = d.
Proof.
  unfold fs_copy, sys, st_bind, st_err. destruct (f SCopy st); [by intros [= <- <-]|].
  pose proof (fs_read_pure no_faults st d) as Hp.
  destruct (fs_read no_faults st d) as [d2 [b|]]; simpl in Hp; subst d2; [|by intros [= <- <-]].
  unfold fs_node. destruct (nodes d !! st) as [n|]; [|by intros [= <- <-]].
  destruct (nodes d !! p) as [m|]; [destruct (content m)|destruct (parent_is_dir d p)];
    intros [= <- <-]; simpl; rewrite ?lookup_insert_eq; by eauto.
Qed.

Lemma promote_cases st p d d' r :
  st ≠ p → promote f st p d = (d', r) → if is_ok r then is_Some (nodes d' !! p) else d' = d.
Proof.
  intros Hne. unfold promote. destruct (fs_rename f st p d) as [d1 [[]|e]] eqn:E.
  - apply fs_rename_ok in E as (n & Hn & [[? _]|(_ & -> & _)]); [done|].
    intros [= <- <-]. simpl. erewrite move_tree_root by done. by eexists.
  - apply fs_rename_err in E as ->. destruct e; try by intros [= <- <-].
    destruct (fs_copy f st p d) as [d2 r2] eqn:E2. apply fs_copy_cases in E2.
    destruct r2 as [[]|e]; simpl in E2; [|subst; by intros [= <- <-]].
    intros [= <- <-]. simpl.
    unfold fs_remove_file, sys, st_bind, fs_node, st_mod, st_err.
    destruct (f SUnlink st); [done|]. destruct (nodes d2 !! st) as [n|]; [|done].
    destruct (content n); [|done]. simpl. by rewrite lookup_delete_ne.
Qed.

Lemma commit_pending_cases root p w w' r :
  ws_wf root (ws_store w) → ¬ under root p → commit_pending f p w = (w', r) →
  if is_ok r then is_Some (nodes (ws_disk w') !! p) else kept nowhere (ws_disk w) (ws_disk w').
Proof.
  intros [_ Hpend] Hp.
  unfold commit_pending, st_bind, st_get, lock_arc, st_mod, path_exists, st_err. simpl.
  destruct (ws_pending (ws_store w) !! p) as [st|] eqn:E; [|by intros [= <- <-]; apply kept_refl].
  assert (st ≠ p) as Hne. { intros ->. apply Hp. by apply (Hpend p). }
  destruct (is_ok _); simpl; [|by intros [= <- <-]; apply kept_refl]. unfold on_disk. simpl.
  pose proof (create_parent_kept f p (ws_disk w)) as K1.
  destruct (create_parent f p (ws_disk w)) as [d1 [[]|e]]; simpl in *; [|by intros [= <- <-]].
  destruct (promote f st p d1) as [d2 r2] eqn:E2. apply promote_cases in E2; [|done].
  destruct r2 as [[]|e]; simpl in *; intros [= <- <-]; [done|]. by subst.
Qed.

Lemma on_cow_inv {A} (m : stm CowState WriteSerializeError A) (Y : path → Prop) s :
  Inv nowhere s →
  (let c := mkCowState (i_disk s) (cow s) (i_meters s) in
   kept (λ q, under (cow_root (cow s)) q ∨ Y q) (i_disk s) (cow_disk (m c).1) ∧
   cow_wf (cow_store (m c).1) ∧ cow_root (cow_store (m c).1) = cow_root (cow s)) →
  Inv Y (on_cow m s).1.
Proof.
  intros HI (Hk & Hwf & Hroot). unfold on_cow.
  destruct (m (mkCowState (i_disk s) (cow s) (i_meters s))) as [c r]. simpl in *.
  eapply Inv_weaken; [|by eapply (Inv_kept nowhere Y s)]. by intros q [[]|?].
Qed.

Lemma stage_inv agent rel b s :
  Inv nowhere s → Inv nowhere (stage_rel_for_agent digest f agent rel b s).1.
Proof.
  intros HI. pose proof HI as (_ & Hw & _). apply on_cow_inv; [done|]. cbv zeta.
  apply (with_agent_wf agent _ (mkCowState (i_disk s) (cow s) (i_meters s))); [done|].
  simpl. intros w Hd Hws. rewrite <- Hd.
  destruct (stage_bytes_kept digest f (cow_root (cow s)) (abs_under (backing s) rel) b w) as [K ?];
    [apply Hw|done|]. split; [|done]. eapply kept_weaken; [|exact K]. by left.
Qed.

Lemma discard_inv agent rel s :
  Inv nowhere s → Inv nowhere (discard_rel_for_agent f agent rel s).1.
Proof.
  intros HI. pose proof HI as (_ & Hw & _). apply on_cow_inv; [done|]. cbv zeta.
  apply (with_agent_wf agent _ (mkCowState (i_disk s) (cow s) (i_meters s))); [done|].
  simpl. intros w Hd Hws. rewrite <- Hd.
  destruct (discard_pending_kept f (cow_root (cow s)) (abs_under (backing s) rel) w) as [K ?];
    [done|]. split; [|done]. eapply kept_weaken; [|exact K]. by left.
Qed.

(** The state in which an operation of an agent's staging area leaves the file system. *)
Definition agent_result (agent : option string) (w : WsState) (s : InterceptFs) : InterceptFs :=
  mkFs (ws_disk w) (backing s) (session_id s) (cow_enabled s) (inodes s) (read_cache s)
    (neg_dentry s)
    (mkCow (cow_root (cow s)) (default_agent (cow s)) (cow_serialize (cow s))
       (<[agent_key (cow s) agent := ws_store w]> (agents (cow s))))
    (ws_meters w) (neg_global s).

Lemma agent_result_inv agent w Y s :
  Inv nowhere s → ws_wf (cow_root (cow s)) (ws_store w) →
  kept (λ q, under (cow_root (cow s)) q ∨ Y q) (i_disk s) (ws_disk w) →
  Inv Y (agent_result agent w s).
Proof.
  intros HI Hws Hk. pose proof HI as (_ & [Hr Hag] & _).
  eapply Inv_weaken; [|eapply (Inv_kept nowhere Y s); [exact HI|done|done|done| |exact Hk]].
  - by intros q [[]|?].
  - split; [done|]. simpl. by apply map_Forall_insert_2.
Qed.

Lemma commit_inv agent rel s :
  let p := abs_under (backing s) rel in
  Inv nowhere s → tree_ok (i_disk s) → is_dir (i_disk s) p = false → p ≠ [] →
  ¬ under (cow_root (cow s)) p → Inv nowhere (commit_rel_for_agent f agent rel s).1.
Proof.
  intros p HI Ht Hd Hp Hu. pose proof HI as (Hs & Hw & _).
  unfold commit_rel_for_agent. rewrite st_bind_run. cbn [st_get]. cbv zeta. fold p.
  rewrite st_bind_run. unfold on_cow at 1, cow_commit_pending, with_agent.
  set (w0 := mkWsState (i_disk s) (store_for (cow s) (agent_key (cow s) agent)) (i_meters s)).
  assert (ws_wf (cow_root (cow s)) (ws_store w0)) as Hst by (by apply store_for_wf).
  destruct (commit_pending_kept f (cow_root (cow s)) p w0) as [K Hws]; [done..|].
  cbn [cow_disk cow_store cow_meters]. fold w0.
  destruct (commit_pending f p w0) as [w' r] eqn:Ec.
  apply (commit_pending_cases (cow_root (cow s))) in Ec; [|done..].
  cbn [fst] in K, Hws. cbn [cow_disk cow_store cow_meters]. fold (agent_result agent w' s).
  destruct r as [[]|e]; cbn [is_ok] in Ec.
  2: { apply agent_result_inv; [done..|]. by apply kept_nowhere. }
  pose proof (agent_result_inv agent w' (λ q, q = p) s HI Hws K) as H1.
  destruct Ec as [n Hn].
  unfold after_commit, st_bind, st_get, try_disk, st_lift, st_mod.
  pose proof (annotate_total f Hlate p (session_id s) (ws_disk w') n Hs Hn) as Ha.
  pose proof (annotate_write_kept f p (session_id s) (ws_disk w')) as K2.
  cbn [i_disk session_id agent_result] in *.
  destruct (annotate_write f p (session_id s) (ws_disk w')) as [d2 r]. simpl in Ha. subst r.
  cbn [lift_io fst]. apply Inv_invalidate. apply (Inv_disk _ (agent_result agent w' s)); [|done].
  eapply Inv_weaken; [|exact H1]. by right.
Qed.
End cow_operations.

(** * Properties *)

(** The helpers called without a mount. *)
Inductive helper_op : Type :=
| HStage (agent : option string) (rel : path) (b : list byte)
| HCommit (agent : option string) (rel : path)
| HDiscard (agent : option string) (rel : path)
| HExists (rel : path)
| HReadRel (rel : path)
| HWriteRel (rel : path) (off : nat) (b : list byte).

Definition helper_exec (digest : path → string) (f : Faults) (o : helper_op) (s : InterceptFs)
  : InterceptFs :=
  match o with
  | HStage a r b => (stage_rel_for_agent digest f a r b s).1
  | HCommit a r => (commit_rel_for_agent f a r s).1
  | HDiscard a r => (discard_rel_for_agent f a r s).1
  | HExists r => (exists_rel f r s).1
  | HReadRel r => (read_coalesced_rel f r s).1
  | HWriteRel r off b => (write_rel f r off b s).1
  end.

(** When an operation is covered: a rename moves no directory; a commit targets a file
    outside the staging area. *)
Definition fuse_covered (s : InterceptFs) (o : fuse_op) : Prop :=
  match o with
  | ORename p n _ _ => ∀ rel, child_rel p n (inodes s) = Some rel →
      is_dir (i_disk s) (abs_under (backing s) rel) = false
  | _ => True
  end.
Definition helper_covered (s : InterceptFs) (o : helper_op) : Prop :=
  match o with
  | HCommit _ rel =>
      let p := abs_under (backing s) rel in
      is_dir (i_disk s) p = false ∧ p ≠ [] ∧ ¬ under (cow_root (cow s)) p
  | _ => True
  end.

(** One operation, or time passing. The disk is a tree before each operation. *)
Inductive fstep (digest : path → string) : InterceptFs → InterceptFs → Prop :=
| fstep_fuse f o s :
    late_ok f → tree_ok (i_disk s) → fuse_covered s o → fstep digest s (fuse_exec f o s).1
| fstep_helper f o s :
    late_ok f → tree_ok (i_disk s) → helper_covered s o →
    fstep digest s (helper_exec digest f o s)
| fstep_tick dt s :
    0 ≤ dt → fstep digest s (set_disk (mkDisk (clock (i_disk s) + dt) (nodes (i_disk s))) s).

Lemma keeps_fst {E A} P (m : stm InterceptFs E A) s : keeps P m → P s → P (m s).1.
Proof. intros Hm Hs. specialize (Hm s Hs). by destruct (m s) as [s' []]. Qed.

Lemma children_inv X rel names : keeps (Inv X) (alloc_children rel names).
Proof. induction names as [|[name isdir] names IH]; cbn [alloc_children]; keep_all. Qed.

Lemma readdir_inv f X ino off room : keeps (Inv X) (readdir f ino off room).
Proof.
  intros s Hs. unfold readdir. destruct (resolve ino (inodes s)) as [rel|]; [|done].
  match goal with |- match ?m s with _ => _ end => enough (keeps (Inv X) m) as Hm end.
  { by apply Hm. }
  pose proof children_inv. cbv zeta. keep_all.
Qed.

Lemma fuse_exec_inv f o s :
  late_ok f → tree_ok (i_disk s) → fuse_covered s o → Inv nowhere s →
  Inv nowhere (fuse_exec f o s).1.
Proof.
  intros Hl Ht Hc HI. destruct o; cbn [fuse_exec].
  13: by apply rename_inv.
  all: apply keeps_fst; [|done].
  - apply Inv_child. intros rel _. keep_all.
  - apply Inv_ino. intros p. keep_all.
  - by apply setattr_inv.
  - apply Inv_ino. intros p. keep_all.
  - apply read_inv.
  - apply Inv_ino. intros p. eapply triple_bind; [by apply write_abs_inv|]. intros n. keep_all.
  - apply readdir_inv.
  - apply Inv_child. intros rel _. cbv zeta. keep_all.
  - apply create_file_inv; [done|]. intros rel p. keep_all.
  - unfold mknod. destruct (negb _); [apply triple_err; by intros|].
    apply create_file_inv; [done|]. intros rel p. keep_all.
  - by apply unlink_inv.
  - apply Inv_child. intros rel _. cbv zeta. keep_all.
Qed.

Lemma helper_exec_inv digest f o s :
  late_ok f → tree_ok (i_disk s) → helper_covered s o → Inv nowhere s →
  Inv nowhere (helper_exec digest f o s).
Proof.
  intros Hl Ht Hc HI. destruct o as [a r b|a r|a r|r|r|r off b]; cbn [helper_exec].
  - by apply stage_inv.
  - destruct Hc as (? & ? & ?). by apply commit_inv.
  - by apply discard_inv.
  - apply keeps_fst; [|done]. unfold exists_rel. keep_all.
  - unfold read_coalesced_rel.
    destruct (read_coalesced f _ (i_disk s, read_cache s)) as [[d c] x] eqn:E.
    apply (read_coalesced_inv f nowhere) in E as (-> & H & _); [|done]. by destruct s.
  - unfold write_rel. by apply (keeps_fst _ (write_abs f (abs_under (backing s) r) off b) s (write_abs_inv f Hl _ off b)).
Qed.

Lemma fstep_inv digest s s' : fstep digest s s' → Inv nowhere s → Inv nowhere s'.
Proof.
  intros [f o s0 Hl Ht Hc|f o s0 Hl Ht Hc|dt s0 _] HI.
  - by apply fuse_exec_inv.
  - by apply helper_exec_inv.
  - done.
Qed.

(** The initial state, and what never changes. *)
Lemma with_options_inv pid d back o :
  (∀ dir, opt_cow_dir o = Some dir → dir ≠ []) → Inv nowhere (with_options pid d back o).
Proof.
  intros Hdir. unfold with_options. split_and!; simpl.
  - destruct (opt_session o) as [|c t]; [|done]. done.
  - split; simpl; [|apply map_Forall_empty]. destruct (opt_cow_dir o) as [dir|]; simpl; [by apply Hdir|].
    unfold path_join. simpl. by destruct back.
  - intros q m b _ _ Hrc. simpl in Hrc. by rewrite lookup_empty in Hrc.
Qed.

(** C3: a read through the file system always returns what is on the disk. From a fresh
    mount, after any sequence of trait operations and helpers (lookups, reads, writes,
    truncations, creations, removals, renames of files, staging, commits, discards) with any
    time in between, possibly none, so that modification times may not distinguish two
    versions, a successful read of an inode whose file is outside the staging area returns
    exactly the requested range of the file's current bytes. Covered are operations in which
    the calls made after a file was changed succeed (see the two lemmas below). *)
Theorem reads_are_coherent (digest : path → string) (pid : Z) (d : Disk) (back : path)
    (o : InterceptFsOptions) (s : InterceptFs) (f : Faults) (ino : Z) (off size : nat)
    (s' : InterceptFs) (buf : list byte) (p : path) :
  (∀ dir, opt_cow_dir o = Some dir → dir ≠ []) →
  rtc (fstep digest) (with_options pid d back o) s →
  abs_path (backing s) ino (inodes s) = Some p → ¬ under (cow_root (cow s)) p →
  read f ino off size s = (s', Ok (RData buf)) →
  ∃ b, (content <$> nodes (i_disk s) !! p) = Some (CFile b) ∧ buf = take size (drop off b).
Proof.
  intros Hdir Hr Hp Hu Hread.
  assert (Inv nowhere s) as HI.
  { eapply rtc_invariant; [by apply with_options_inv|by eauto using fstep_inv|exact Hr]. }
  unfold read, with_ino in Hread. rewrite Hp in Hread. unfold read_slice in Hread.
  rewrite st_bind_run in Hread.
  destruct (read_coalesced f p (i_disk s, read_cache s)) as [[d1 c] [b|e]] eqn:E; [|done].
  apply (read_coalesced_inv f nowhere) in E as (-> & _ & Hb); [|done].
  injection Hread as _ <-. exists b. split; [|apply slice_at_spec].
  apply Hb; [done|by intros []|done].
Qed.

(** ** A concrete mount *)

Definition repo : path := [RootDir; Normal "repo"].
Definition repo_f : path := [RootDir; Normal "repo"; Normal "f"].
Definition mount_disk : Disk :=
  mkDisk 5000 {[ repo_f := mkNode (CFile [x61; x62; x63]) 10 420 ∅;
                 repo := mkNode CDir 0 511 ∅; [RootDir] := mkNode CDir 0 511 ∅ ]}.
Definition demo_fs : InterceptFs :=
  with_options 42 mount_disk repo (mkOptions "s1" false (Some [RootDir; Normal "cow"]) None true).

(** Two operations in one tick: look the file up, read it, overwrite its first byte. *)
Definition fs1 : InterceptFs := (lookup no_faults ROOT_INO "f" demo_fs).1.
Definition fs2 : InterceptFs := (read no_faults 2 0 10 fs1).1.
Definition fs3 : InterceptFs := (write no_faults 2 0 [x7a] fs2).1.

Lemma tree_ok_dec (d : Disk) :
  forallb (λ q, forallb (λ n, is_dir d (take n q)) (seq 1 (length q - 1)))
    (map_to_list (nodes d)).*1 = true → tree_ok d.
Proof.
  intros Hall p q n Hq [k ->] Hne Hp. rewrite forallb_forall in Hall.
  assert (In (p ++ k) (map_to_list (nodes d)).*1) as Hin.
  { apply list_elem_of_In, list_elem_of_fmap. exists (p ++ k, n). split; [done|].
    by apply elem_of_map_to_list. }
  specialize (Hall _ Hin). rewrite forallb_forall in Hall.
  specialize (Hall (length p)). rewrite take_app_length in Hall. apply Hall.
  apply in_seq. rewrite length_app. destruct p; [done|]. destruct k; [by rewrite app_nil_r in Hne|].
  simpl. lia.
Qed.

Lemma reads_are_coherent_witness :
  ∃ b, (content <$> nodes (i_disk fs3) !! repo_f) = Some (CFile b) ∧
       [x7a; x62] = take 2 (drop 0 b).
Proof.
  assert (late_ok no_faults) as Hl by (intros p; repeat split; reflexivity).
  eapply (reads_are_coherent demo_digest 42 mount_disk repo
            (mkOptions "s1" false (Some [RootDir; Normal "cow"]) None true) fs3 no_faults
            2 0 2 (read no_faults 2 0 2 fs3).1 [x7a; x62] repo_f).
  - intros dir [= <-]. discriminate.
  - eapply rtc_l; [apply (fstep_fuse _ no_faults (OLookup ROOT_INO "f")); [exact Hl| |exact I]|].
    { apply tree_ok_dec. vm_compute. reflexivity. }
    eapply rtc_l; [apply (fstep_fuse _ no_faults (ORead 2 0 10)); [exact Hl| |exact I]|].
    { apply tree_ok_dec. vm_compute. reflexivity. }
    eapply rtc_l; [apply (fstep_fuse _ no_faults (OWrite 2 0 [x7a])); [exact Hl| |exact I]|].
    { apply tree_ok_dec. vm_compute. reflexivity. }
    apply rtc_refl.
  - vm_compute. reflexivity.
  - intros [k Hk]. vm_compute in Hk. discriminate Hk.
  - vm_compute. reflexivity.
Defined.

(** C37: inode numbers are stable names. From a fresh mount, under any sequence of trait
    operations with any failures of system calls, as long as fewer than 2^64 - 1 numbers were
    handed out: the path an inode was given for resolves back to that path, two paths never
    share an inode, every known inode is below the next one to hand out, and the root keeps
    inode 1. *)
Theorem inode_map_consistent (pid : Z) (d : Disk) (back : path) (o : InterceptFsOptions)
    (ops : list (Faults * fuse_op)) :
  let s := foldl (λ s x, (fuse_exec x.1 x.2 s).1) (with_options pid d back o) ops in
  next_ino (inodes s) = u64_max ∨
  (∀ rel ino, rel_to_ino (inodes s) !! rel = Some ino → resolve ino (inodes s) = Some rel) ∧
  (∀ r1 r2 ino, rel_to_ino (inodes s) !! r1 = Some ino → rel_to_ino (inodes s) !! r2 = Some ino →
     r1 = r2) ∧
  (∀ ino rel, resolve ino (inodes s) = Some rel → 0 < ino < next_ino (inodes s)) ∧
  resolve ROOT_INO (inodes s) = Some [].
Proof.
  intros s. assert (inodes_inv s) as [?|[_ Hok]]; [|by left|right].
  { unfold s. assert (inodes_inv (with_options pid d back o)) as H0.
    { right. split; [done|]. apply inodes_ok_new. }
    clear s. revert H0. generalize (with_options pid d back o). clear.
    induction ops as [|[f op] ops IH]; intros s Hs; [done|]. simpl. apply IH.
    apply keeps_fst; [apply fuse_exec_keeps_inodes|done]. }
  pose proof Hok as [Hb Hf Hr]. split_and!; [done| |done|by apply Hb].
  intros r1 r2 ino. by apply rel_to_ino_inj.
Qed.

(** ** Where coherence ends *)

(** Renaming a directory leaves the cached contents and the inodes of what is below it: with
    equal modification times, swapping two directories makes a read return the bytes of the
    other directory's file. *)
Definition swap_disk : Disk :=
  mkDisk 5000 {[ repo ++ [Normal "a"; Normal "x"] := mkNode (CFile [x61]) 10 420 ∅;
                 repo ++ [Normal "b"; Normal "x"] := mkNode (CFile [x62]) 10 420 ∅;
                 repo ++ [Normal "a"] := mkNode CDir 0 511 ∅;
                 repo ++ [Normal "b"] := mkNode CDir 0 511 ∅;
                 repo := mkNode CDir 0 511 ∅; [RootDir] := mkNode CDir 0 511 ∅ ]}.
Lemma directory_rename_serves_stale_bytes :
  let run := λ o s, (fuse_exec no_faults o s).1 in
  let s := foldl (λ s o, run o s) (with_session 42 swap_disk repo "s1")
    [OLookup 1 "a"; OLookup 2 "x"; ORead 3 0 9;
     ORename 1 "a" 1 "c"; ORename 1 "b" 1 "a"] in
  (content <$> nodes (i_disk s) !! (repo ++ [Normal "a"; Normal "x"])) = Some (CFile [x62]) ∧
  (fuse_exec no_faults (ORead 3 0 9) s).2 = Ok (RData [x61]).
Proof. vm_compute. split; reflexivity. Qed.

(** A failed permission change after a successful truncation leaves the cache as it was. *)
Lemma failed_setattr_serves_stale_bytes :
  let no_chmod : Faults := λ c _, match c with SPerm => Some EPERM | _ => None end in
  let d := mkDisk 10 (nodes mount_disk) in
  let s0 := (lookup no_faults ROOT_INO "f" (with_session 42 d repo "s1")).1 in
  let s1 := (read no_faults 2 0 9 s0).1 in
  let s2 := (setattr no_chmod 2 (Some 420) (Some 0%nat) s1).1 in
  (content <$> nodes (i_disk s2) !! repo_f) = Some (CFile []) ∧
  (read no_faults 2 0 9 s2).2 = Ok (RData [x61; x62; x63]).
Proof. vm_compute. split; reflexivity. Qed.

(** A commit does not drop the negative entry of its path: a file that was probed before it
    was committed is reported missing until the entry expires. *)
Lemma commit_hidden_by_negative_entry :
  let g : path := [Normal "new"] in
  let s0 := with_session 42 mount_disk repo "s1" in
  let s1 := (exists_rel no_faults g s0).1 in
  let s2 := (stage_rel_for_agent demo_digest no_faults None g [x61] s1).1 in
  let '(s3, r) := commit_rel_for_agent no_faults None g s2 in
  r = Ok tt ∧ is_file (i_disk s3) (repo ++ g) = true ∧
  (exists_rel no_faults g s3).2 = Ok false.
Proof. vm_compute. split_and!; reflexivity. Qed.
