(* ===== verification/SurfaceEvents.v ===== *)
(** The surface event broker of the session crate ([sharecli-session/src/events.rs]):
    subscriptions with bounded queues, publishing in chunks, overflow markers and
    draining.  The base64 engine is a parameter. *)
From S2P Require Import Prelude.

(** * Data *)

(** [usize] quantities that never leave the range checked by [subscribe]. *)
Definition MAX_EVENT_CHUNK_BYTES : N := 64 * 1024.
Definition MAX_EVENT_QUEUE_CAPACITY : N := 256.

Inductive SurfaceEventKind : Type := Output | Resize | Exit | Title | Cwd | Dropped.

Record SurfaceEventParams : Type := mkParams {
  p_subscription_id : Z;
  p_surface_id : string;
  p_seq : Z;
  p_kind : SurfaceEventKind;
  p_timestamp : option string;
  p_bytes : option string;
  p_dropped : option Z;
  p_resync : option bool;
}.

Record SurfaceEventNotification : Type := mkNotification {
  jsonrpc : string;
  method : string;
  params : SurfaceEventParams;
}.

Inductive SurfaceEventError : Type :=
| InvalidChunkBytes
| InvalidQueueCapacity
| UnknownSubscription.

Record SurfaceSubscribeRequest : Type := mkRequest {
  rq_surface_id : option string;
  rq_from_seq : option Z;
  rq_max_chunk_bytes : N;
  rq_queue_capacity : N;
}.

(** [SurfaceSubscribeRequest::new]. *)
Definition request_new (surface_id : string) : SurfaceSubscribeRequest :=
  mkRequest (Some surface_id) None MAX_EVENT_CHUNK_BYTES 64.
Definition with_queue_capacity (cap : N) (r : SurfaceSubscribeRequest)
  : SurfaceSubscribeRequest :=
  mkRequest (rq_surface_id r) (rq_from_seq r) (rq_max_chunk_bytes r) cap.

Record SurfaceSubscribeAck : Type := mkAck {
  ack_subscription_id : Z;
  ack_next_seq : Z;
  ack_max_chunk_bytes : N;
  ack_queue_capacity : N;
  ack_replay : bool;
}.

Record SubscriptionState : Type := mkSubscription {
  sub_surface_id : option string;
  from_seq : Z;
  max_chunk_bytes : N;
  queue_capacity : N;
  queue : list SurfaceEventNotification;
  dropped : Z;
}.

Record HubState : Type := mkHub {
  next_subscription : Z;
  next_seq : Z;
  subscriptions : gmap Z SubscriptionState;
}.

Definition hub_new : HubState := mkHub 0 0 ∅.

Definition set_queue (q : list SurfaceEventNotification) (d : Z) (s : SubscriptionState)
  : SubscriptionState :=
  mkSubscription (sub_surface_id s) (from_seq s) (max_chunk_bytes s) (queue_capacity s) q d.

(** * Operations *)

Definition subscribe (request : SurfaceSubscribeRequest)
  : stm HubState SurfaceEventError SurfaceSubscribeAck := λ h,
  if ((rq_max_chunk_bytes request =? 0) || (MAX_EVENT_CHUNK_BYTES <? rq_max_chunk_bytes request))%N
  then (h, Err InvalidChunkBytes)
  else if ((rq_queue_capacity request =? 0)
           || (MAX_EVENT_QUEUE_CAPACITY <? rq_queue_capacity request))%N
  then (h, Err InvalidQueueCapacity)
  else
    let subscription_id := saturating_add u64_max (next_subscription h) 1 in
    let next := Z.max (saturating_add u64_max (next_seq h) 1)
                      (default 1 (rq_from_seq request)) in
    (mkHub subscription_id (next_seq h)
       (<[subscription_id :=
            mkSubscription (rq_surface_id request) next (rq_max_chunk_bytes request)
              (rq_queue_capacity request) [] 0]> (subscriptions h)),
     Ok (mkAck subscription_id next (rq_max_chunk_bytes request)
           (rq_queue_capacity request) false)).

Definition unsubscribe (subscription_id : Z) : stm HubState SurfaceEventError bool := λ h,
  (mkHub (next_subscription h) (next_seq h) (delete subscription_id (subscriptions h)),
   Ok (bool_decide (is_Some (subscriptions h !! subscription_id)))).

Definition drop_marker (event : SurfaceEventNotification) (d : Z) : SurfaceEventNotification :=
  mkNotification "2.0" "surface.io.event"
    (mkParams (p_subscription_id (params event)) (p_surface_id (params event))
       (saturating_sub (p_seq (params event)) 1) Dropped (p_timestamp (params event))
       None (Some d) (Some true)).

(** The free function [enqueue]. *)
Definition enqueue (event : SurfaceEventNotification) (s : SubscriptionState)
  : SubscriptionState :=
  if (N.of_nat (length (queue s)) <? queue_capacity s)%N
  then set_queue (queue s ++ [event]) (dropped s) s
  else
    let q := tail (queue s) in
    let d := saturating_add u64_max (dropped s) 1 in
    let marker := drop_marker event d in
    if (queue_capacity s =? 1)%N then set_queue [marker] d s
    else
      let q' := if (queue_capacity s <? N.of_nat (length q) + 2)%N then tail q else q in
      set_queue (q' ++ [marker; event]) d s.

(** [subscription.surface_id.as_deref().is_none_or(|id| id == surface_id)]. *)
Definition wants (surface_id : string) (s : SubscriptionState) : bool :=
  match sub_surface_id s with
  | None => true
  | Some id => bool_decide (id = surface_id)
  end.

Definition chunk_limit (surface_id : string) (subs : gmap Z SubscriptionState) : N :=
  match max_chunk_bytes <$> List.filter (wants surface_id) (map_to_list subs).*2 with
  | [] => MAX_EVENT_CHUNK_BYTES
  | n :: ns => foldl N.min n ns
  end.

(** [if bytes.is_empty() { vec![&[]] } else { bytes.chunks(..) }]. *)
Definition chunks_of (n : nat) (l : list byte) : list (list byte) :=
  match l with [] => [[]] | _ => slice_chunks n l end.

Section publish.
Variable encode : list byte → string.

Definition event_for (id : Z) (surface_id : string) (kind : SurfaceEventKind)
    (timestamp : option string) (seq : Z) (chunk : list byte) : SurfaceEventNotification :=
  mkNotification "2.0" "surface.io.event"
    (mkParams id surface_id seq kind timestamp
       (match chunk with [] => None | _ => Some (encode chunk) end) None None).

(** One round of the chunk loop: number the chunk and offer it to every subscription
    that wants it. *)
Definition publish_chunk (surface_id : string) (kind : SurfaceEventKind)
    (timestamp : option string) (h : HubState) (chunk : list byte) : HubState :=
  let seq := saturating_add u64_max (next_seq h) 1 in
  mkHub (next_subscription h) seq
    (map_imap (λ id s, Some (
       if wants surface_id s && (from_seq s <=? seq)
       then enqueue (event_for id surface_id kind timestamp seq chunk) s else s))
     (subscriptions h)).

Definition publish (surface_id : string) (kind : SurfaceEventKind) (bytes : list byte)
    (timestamp : option string) : stm HubState SurfaceEventError Z := λ h,
  let limit := chunk_limit surface_id (subscriptions h) in
  let h' := foldl (publish_chunk surface_id kind timestamp) h
              (chunks_of (N.to_nat limit) bytes) in
  (h', Ok (next_seq h')).

Definition publish_output (surface_id : string) (bytes : list byte)
    (timestamp : option string) : stm HubState SurfaceEventError Z :=
  publish surface_id Output bytes timestamp.

Definition drain (subscription_id : Z) (max_events : nat)
  : stm HubState SurfaceEventError (list SurfaceEventNotification) := λ h,
  match subscriptions h !! subscription_id with
  | None => (h, Err UnknownSubscription)
  | Some s =>
      let count := (max_events `min` length (queue s))%nat in
      (mkHub (next_subscription h) (next_seq h)
         (<[subscription_id := set_queue (drop count (queue s)) (dropped s) s]>
            (subscriptions h)),
       Ok (take count (queue s)))
  end.

(** * Histories of the hub *)

Inductive hub_op : Type :=
| HSubscribe (r : SurfaceSubscribeRequest)
| HUnsubscribe (id : Z)
| HPublish (surface_id : string) (kind : SurfaceEventKind) (bytes : list byte)
    (timestamp : option string)
| HDrain (id : Z) (max_events : nat).

Definition hub_exec (o : hub_op) (h : HubState) : HubState :=
  match o with
  | HSubscribe r => (subscribe r h).1
  | HUnsubscribe id => (unsubscribe id h).1
  | HPublish sid k b t => (publish sid k b t h).1
  | HDrain id n => (drain id n h).1
  end.

Definition hub_run (ops : list hub_op) (h : HubState) : HubState :=
  foldl (λ h o, hub_exec o h) h ops.

(** The events one publication offers to a subscription, were nothing dropped. *)
Fixpoint offered (id : Z) (s : SubscriptionState) (surface_id : string)
    (kind : SurfaceEventKind) (timestamp : option string) (n : Z) (cs : list (list byte))
  : list SurfaceEventNotification :=
  match cs with
  | [] => []
  | c :: cs' =>
      let seq := saturating_add u64_max n 1 in
      (if wants surface_id s && (from_seq s <=? seq)
       then [event_for id surface_id kind timestamp seq c] else []) ++
      offered id s surface_id kind timestamp seq cs'
  end.

Definition publish_offered (id : Z) (h : HubState) (surface_id : string)
    (kind : SurfaceEventKind) (bytes : list byte) (timestamp : option string)
  : list SurfaceEventNotification :=
  match subscriptions h !! id with
  | None => []
  | Some s =>
      offered id s surface_id kind timestamp (next_seq h)
        (chunks_of (N.to_nat (chunk_limit surface_id (subscriptions h))) bytes)
  end.

(** What a history offers to subscription [id], and what its drains return. *)
Fixpoint offers (id : Z) (ops : list hub_op) (h : HubState)
  : list SurfaceEventNotification :=
  match ops with
  | [] => []
  | o :: ops' =>
      match o with
      | HPublish sid k b t => publish_offered id h sid k b t
      | _ => []
      end ++ offers id ops' (hub_exec o h)
  end.

Fixpoint received (id : Z) (ops : list hub_op) (h : HubState)
  : list SurfaceEventNotification :=
  match ops with
  | [] => []
  | o :: ops' =>
      match o with
      | HDrain i n =>
          if bool_decide (i = id)
          then match (drain i n h).2 with Ok l => l | Err _ => [] end else []
      | _ => []
      end ++ received id ops' (hub_exec o h)
  end.
End publish.

(** * Invariants *)

Definition seqs (q : list SurfaceEventNotification) : list Z := (λ e, p_seq (params e)) <$> q.

(** The limits [subscribe] checked hold, and the queue stays within its capacity. *)
Record sub_ok (id : Z) (s : SubscriptionState) : Prop := mkSubOk {
  so_capacity : (0 < queue_capacity s ≤ MAX_EVENT_QUEUE_CAPACITY)%N;
  so_chunk : (0 < max_chunk_bytes s ≤ MAX_EVENT_CHUNK_BYTES)%N;
  so_bounded : (N.of_nat (length (queue s)) ≤ queue_capacity s)%N;
  so_own : Forall (λ e, p_subscription_id (params e) = id ∧
                        wants (p_surface_id (params e)) s = true) (queue s);
  so_dropped : 0 ≤ dropped s ≤ u64_max;
}.

(** The queue is in sequence order and not ahead of the hub. *)
Definition in_order (n : Z) (s : SubscriptionState) : Prop :=
  StronglySorted Z.le (seqs (queue s)) ∧ Forall (λ x, x ≤ n) (seqs (queue s)).

Record hub_ok (h : HubState) : Prop := mkHubOk {
  ho_subs : map_Forall sub_ok (subscriptions h);
  ho_ids : map_Forall (λ id _, id ≤ next_subscription h) (subscriptions h);
  ho_seq : 0 ≤ next_seq h ≤ u64_max;
  ho_sub : 0 ≤ next_subscription h ≤ u64_max;
  ho_order : next_seq h < u64_max → map_Forall (λ _ s, in_order (next_seq h) s) (subscriptions h);
}.

(** * Lemmas: queues *)

Lemma seqs_app q q' : seqs (q ++ q') = seqs q ++ seqs q'.
Proof. apply fmap_app. Qed.

Lemma seqs_tail q : seqs (tail q) = tail (seqs q).
Proof. by destruct q. Qed.

Lemma tail_length {A} (l : list A) : length (tail l) = (length l - 1)%nat.
Proof. destruct l; simpl; lia. Qed.

Lemma tail_Forall {A} (P : A → Prop) l : Forall P l → Forall P (tail l).
Proof. destruct 1; simpl; auto. Qed.

Lemma tail_sorted l : StronglySorted Z.le l → StronglySorted Z.le (tail l).
Proof. destruct 1; simpl; [constructor|done]. Qed.

Lemma sorted_snoc l x :
  StronglySorted Z.le l → Forall (λ y, y ≤ x) l → StronglySorted Z.le (l ++ [x]).
Proof.
  induction 1 as [|y l Hs IH Hy]; intros Hx; simpl; [repeat constructor|].
  apply Forall_cons in Hx as [? ?]. constructor; [auto|].
  apply Forall_app; auto.
Qed.

Lemma enqueue_ok id e s :
  sub_ok id s → p_subscription_id (params e) = id → wants (p_surface_id (params e)) s = true →
  sub_ok id (enqueue e s).
Proof.
  intros [Hc Hm Hb Ho Hd] Hid Hw. unfold enqueue.
  assert (0 ≤ saturating_add u64_max (dropped s) 1 ≤ u64_max).
  { unfold saturating_add. lia. }
  destruct (_ <? _)%N eqn:E1; [|destruct (_ =? _)%N eqn:E2;
    [|destruct (_ <? _ + 2)%N eqn:E3]];
    rewrite ?N.ltb_lt, ?N.ltb_ge, ?N.eqb_eq, ?N.eqb_neq in *;
    split; try done; cbn [queue set_queue queue_capacity];
    rewrite ?length_app; simpl length; rewrite ?tail_length in *; try lia;
    rewrite ?Forall_app, ?Forall_cons, ?Forall_nil; split_and?; try apply tail_Forall;
    try apply tail_Forall; done.
Qed.

Lemma enqueue_order n e s :
  in_order n s → 0 ≤ n → p_seq (params e) = n + 1 → in_order (n + 1) (enqueue e s).
Proof.
  intros [Hs Hf] Hn He.
  assert (∀ q, StronglySorted Z.le (seqs q) → Forall (λ x, x ≤ n) (seqs q) →
    in_order (n + 1) (set_queue (q ++ [e]) 0 s) ∧
    ∀ d, in_order (n + 1) (set_queue (q ++ [drop_marker e d; e]) 0 s)) as Hq.
  { intros q Hq Hle. unfold in_order, set_queue; simpl.
    assert (Forall (λ x, x ≤ n + 1) (seqs q)) by (eapply Forall_impl; [done|simpl; lia]).
    split; [|intros d].
    - rewrite seqs_app; simpl. rewrite He. split; [by apply sorted_snoc|].
      apply Forall_app; split; [done|repeat constructor; lia].
    - change [drop_marker e d; e] with ([drop_marker e d] ++ [e]). rewrite (assoc _), !seqs_app.
      simpl. unfold saturating_sub. rewrite !He.
      replace (Z.max 0 (n + 1 - 1)) with n by lia. split.
      + apply sorted_snoc; [by apply sorted_snoc|apply Forall_app; split; [done|]].
        repeat constructor; lia.
      + rewrite !Forall_app. split_and!; [done|repeat constructor; lia..]. }
  unfold enqueue. destruct (_ <? _)%N; [by apply Hq|].
  destruct (_ =? _)%N.
  { split; simpl; unfold saturating_sub; repeat constructor; lia. }
  destruct (_ <? _)%N; apply Hq; rewrite ?seqs_tail; auto using tail_sorted, tail_Forall.
Qed.

(** * Lemmas: publishing *)

Lemma chunks_of_spec n l :
  (0 < n)%nat → concat (chunks_of n l) = l ∧ Forall (λ c, length c ≤ n)%nat (chunks_of n l).
Proof.
  intros Hn. destruct l as [|b l]; [by repeat constructor; simpl; lia|].
  destruct (slice_chunks_spec n (b :: l)) as [Hc Hf]; [done|].
  split; [done|]. eapply Forall_impl; [done|simpl; lia].
Qed.

Lemma foldl_min_le (l : list N) n :
  (foldl N.min n l ≤ n)%N ∧ Forall (λ x, foldl N.min n l ≤ x)%N l.
Proof.
  revert n. induction l as [|y l IH]; intros n; simpl; [split; [lia|constructor]|].
  destruct (IH (N.min n y)) as [H1 H2]. split; [lia|constructor; [lia|done]].
Qed.

Lemma foldl_min_pos (l : list N) n :
  (0 < n)%N → Forall (λ x, 0 < x)%N l → (0 < foldl N.min n l)%N.
Proof.
  revert n. induction l as [|y l IH]; intros n Hn Hl; simpl; [done|].
  apply Forall_cons in Hl as [? ?]. apply IH; [lia|done].
Qed.

(** The chunk size is positive and no interested subscription's limit is exceeded. *)
Lemma chunk_limit_spec sid subs :
  map_Forall sub_ok subs →
  (0 < chunk_limit sid subs)%N ∧
  (∀ id s, subs !! id = Some s → wants sid s = true →
    (chunk_limit sid subs ≤ max_chunk_bytes s)%N).
Proof.
  intros Hok. unfold chunk_limit.
  set (l := max_chunk_bytes <$> List.filter (wants sid) (map_to_list subs).*2).
  assert (∀ x, x ∈ l → (0 < x)%N) as Hpos.
  { intros x (s & -> & Hs)%list_elem_of_fmap.
    apply list_elem_of_In, filter_In in Hs as [Hs _].
    apply list_elem_of_In, list_elem_of_fmap in Hs as ([id s'] & -> & Hs).
    apply elem_of_map_to_list in Hs. by apply (so_chunk _ _ (Hok _ _ Hs)). }
  assert (∀ id s, subs !! id = Some s → wants sid s = true → max_chunk_bytes s ∈ l) as Hin.
  { intros id s Hs Hw. apply list_elem_of_fmap_2, list_elem_of_In, filter_In. split; [|done].
    apply list_elem_of_In, list_elem_of_fmap. exists (id, s). split; [done|].
    by apply elem_of_map_to_list. }
  clearbody l. destruct l as [|n ns].
  { split; [done|]. intros id s Hs Hw. by apply (Hin id s) in Hs; [apply not_elem_of_nil in Hs|]. }
  destruct (foldl_min_le ns n) as [H1 H2]. split.
  - apply foldl_min_pos; [apply Hpos; set_solver|]. apply Forall_forall. set_solver.
  - intros id s Hs Hw. apply (Hin id s) in Hs; [|done].
    apply elem_of_cons in Hs as [->|Hs]; [done|]. by eapply Forall_forall in H2.
Qed.

Section hub.
Variable encode : list byte → string.

Lemma enqueue_same e s :
  sub_surface_id (enqueue e s) = sub_surface_id s ∧ from_seq (enqueue e s) = from_seq s.
Proof. unfold enqueue. repeat case_match; done. Qed.

Lemma wants_enqueue sid e s : wants sid (enqueue e s) = wants sid s.
Proof. unfold wants. by rewrite (proj1 (enqueue_same e s)). Qed.

Lemma publish_chunk_ok sid kind ts h c :
  hub_ok h → hub_ok (publish_chunk encode sid kind ts h c).
Proof.
  intros [Hs Hi Hq Hn Ho].
  split; cbn [subscriptions next_seq next_subscription publish_chunk]; try done.
  - apply map_Forall_lookup. intros id s' Hl. rewrite map_lookup_imap in Hl.
    apply bind_Some in Hl as (s & Hl & [= <-]). specialize (Hs _ _ Hl).
    destruct (wants sid s) eqn:Hw; simpl; [|done]. destruct (_ <=? _); [|done].
    by apply enqueue_ok.
  - intros id s' Hl. rewrite map_lookup_imap in Hl. apply bind_Some in Hl as (s & Hl & _). eauto.
  - unfold saturating_add. lia.
  - intros Hlt. assert (next_seq h < u64_max) as Hlt' by (unfold saturating_add in Hlt; lia).
    assert (saturating_add u64_max (next_seq h) 1 = next_seq h + 1) as ->
      by (unfold saturating_add in *; lia).
    intros id s' Hl. rewrite map_lookup_imap in Hl.
    apply bind_Some in Hl as (s & Hl & [= <-]). specialize (Ho Hlt' _ _ Hl).
    destruct (_ && _); [apply enqueue_order; [done|lia|done]|].
    destruct Ho as [? ?]. split; [done|]. eapply Forall_impl; [done|simpl; lia].
Qed.

Lemma publish_chunks_ok sid kind ts cs h :
  hub_ok h → hub_ok (foldl (publish_chunk encode sid kind ts) h cs).
Proof. revert h. induction cs; simpl; auto using publish_chunk_ok. Qed.

Lemma subscribe_ok r h : hub_ok h → hub_ok (subscribe r h).1.
Proof.
  intros [Hs Hi Hq Hn Ho]. unfold subscribe.
  destruct (_ || _)%N eqn:E1; [done|]. destruct (_ || _)%N eqn:E2 in |- *; [done|].
  apply orb_false_iff in E1 as [?%N.eqb_neq ?%N.ltb_ge], E2 as [?%N.eqb_neq ?%N.ltb_ge].
  unfold saturating_add. split; cbn [subscriptions next_seq next_subscription fst].
  - apply map_Forall_insert_2; [|done]. split; simpl; try done; lia.
  - apply map_Forall_insert_2; [simpl; lia|]. intros id s Hl. specialize (Hi _ _ Hl). simpl in *. lia.
  - done.
  - lia.
  - intros Hlt. apply map_Forall_insert_2; [|by apply Ho]. split; constructor.
Qed.

Lemma hub_drain_ok id n h : hub_ok h → hub_ok (drain id n h).1.
Proof.
  intros Hok. pose proof Hok as [Hs Hi Hq Hn Ho]. unfold drain.
  destruct (subscriptions h !! id) as [s|] eqn:E; [|done].
  split; cbn [subscriptions next_seq next_subscription fst]; try done.
  - apply map_Forall_insert_2; [|done]. destruct (Hs _ _ E) as [? ? ? Hown ?].
    split; try done; cbn [queue set_queue queue_capacity].
    + rewrite length_drop. lia.
    + by apply Forall_drop.
  - apply map_Forall_insert_2; [|done]. by apply Hi in E.
  - intros Hlt. apply map_Forall_insert_2; [|by apply Ho]. destruct (Ho Hlt _ _ E) as [Hsrt Hle].
    unfold in_order, seqs in *. cbn [queue set_queue]. rewrite fmap_drop.
    split; [|by apply Forall_drop].
    rewrite <- (take_drop (n `min` length (queue s))%nat) in Hsrt. revert Hsrt.
    generalize (take (n `min` length (queue s))%nat ((λ e, p_seq (params e)) <$> queue s)) as l.
    induction l; [done|]. inversion 1; auto.
Qed.

Lemma hub_exec_ok o h : hub_ok h → hub_ok (hub_exec encode o h).
Proof.
  destruct o as [r|id|sid k b t|id n]; simpl.
  - apply subscribe_ok.
  - intros [Hs Hi Hq Hn Ho]. split; simpl; try done; intros; apply map_Forall_delete; auto.
  - apply publish_chunks_ok.
  - apply hub_drain_ok.
Qed.

Lemma hub_run_ok ops h : hub_ok h → hub_ok (hub_run encode ops h).
Proof. revert h. induction ops; simpl; auto using hub_exec_ok. Qed.

Lemma hub_new_ok : hub_ok hub_new.
Proof. split; simpl; try done; intros; apply map_Forall_empty. Qed.

(** Publishing is, for each subscription, enqueueing what is offered to it. *)
Lemma publish_chunks_lookup id sid kind ts cs h :
  subscriptions (foldl (publish_chunk encode sid kind ts) h cs) !! id =
  (λ s, foldl (λ s e, enqueue e s) s (offered encode id s sid kind ts (next_seq h) cs)) <$>
    subscriptions h !! id.
Proof.
  revert h. induction cs as [|c cs IH]; intros h; simpl.
  { by destruct (subscriptions h !! id). }
  rewrite IH. cbn [subscriptions next_seq publish_chunk]. rewrite map_lookup_imap.
  destruct (subscriptions h !! id) as [s|]; [|done]. simpl. f_equal.
  destruct (wants sid s && _) eqn:E; [|done]. rewrite foldl_app. simpl. f_equal.
  generalize (event_for encode id sid kind ts (saturating_add u64_max (next_seq h) 1) c) as e.
  intros e. generalize (saturating_add u64_max (next_seq h) 1) as n. clear E IH.
  induction cs as [|c' cs IH']; intros n; simpl; [done|].
  by rewrite wants_enqueue, (proj2 (enqueue_same e s)), IH'.
Qed.
End hub.

(** * Theorems *)

(** Bounded, ordered queues. After any history of subscriptions, cancellations,
    publications and drains, every subscription's queue holds at most its capacity (itself
    at most 256), only events of a surface it asked for, addressed to it, and, until the
    64-bit sequence is exhausted, in non-decreasing sequence order and not ahead of the
    hub's counter: publishing never blocks on a slow subscriber and never grows without
    bound. *)
Theorem hub_queues_bounded (encode : list byte → string) (ops : list hub_op) id s :
  let h := hub_run encode ops hub_new in
  subscriptions h !! id = Some s →
  (N.of_nat (length (queue s)) ≤ queue_capacity s ≤ MAX_EVENT_QUEUE_CAPACITY)%N ∧
  (∀ e, e ∈ queue s → p_subscription_id (params e) = id ∧
                      wants (p_surface_id (params e)) s = true) ∧
  (next_seq h = u64_max ∨
   StronglySorted Z.le (seqs (queue s)) ∧ ∀ x, x ∈ seqs (queue s) → x ≤ next_seq h).
Proof.
  intros h Hs. destruct (hub_run_ok encode ops _ hub_new_ok) as [Hok _ [_ Hq] _ Ho].
  fold h in Hok, Hq, Ho. destruct (Hok _ _ Hs) as [? _ ? Hown _].
  split; [lia|split; [by apply Forall_forall|]].
  destruct (decide (next_seq h = u64_max)); [by left|right].
  destruct (Ho ltac:(lia) _ _ Hs) as [? Hf]. split; [done|]. by apply Forall_forall.
Qed.

Definition demo_encode (l : list byte) : string := string_of_list_byte l.
Definition demo_decode (t : string) : option (list byte) := Some (list_byte_of_string t).

Definition demo_bytes : list byte := [x61; x62; x63].

Definition demo_request (chunk cap : N) : SurfaceSubscribeRequest :=
  mkRequest (Some "s") None chunk cap.

Lemma hub_queues_bounded_witness :
  ∃ s, subscriptions (hub_run demo_encode
         [HSubscribe (demo_request 1 2); HPublish "s" Output demo_bytes None] hub_new) !! 1 = Some s
    ∧ (N.of_nat (length (queue s)) ≤ queue_capacity s ≤ MAX_EVENT_QUEUE_CAPACITY)%N.
Proof.
  eexists. split; [by vm_compute|].
  eapply (hub_queues_bounded demo_encode
    [HSubscribe (demo_request 1 2); HPublish "s" Output demo_bytes None] 1).
  by vm_compute.
Defined.

(** ** Delivery *)

Lemma enqueue_room l s :
  (N.of_nat (length (queue s) + length l) ≤ queue_capacity s)%N →
  foldl (λ s e, enqueue e s) s l = set_queue (queue s ++ l) (dropped s) s.
Proof.
  revert s. induction l as [|e l IH]; intros s Hl; simpl in *.
  { rewrite app_nil_r. by destruct s. }
  unfold enqueue at 2. rewrite (proj2 (N.ltb_lt _ _)) by lia.
  rewrite IH; cbn [queue set_queue queue_capacity dropped].
  - by rewrite <- (assoc _).
  - rewrite length_app. simpl. lia.
Qed.

Lemma offered_all encode id s sid kind ts n cs :
  wants sid s = true → from_seq s ≤ n + 1 → n + Z.of_nat (length cs) ≤ u64_max →
  offered encode id s sid kind ts n cs =
  imap (λ i c, event_for encode id sid kind ts (n + 1 + Z.of_nat i) c) cs.
Proof.
  intros Hw. revert n. induction cs as [|c cs IH]; intros n Hf Hl; simpl in *; [done|].
  assert (saturating_add u64_max n 1 = n + 1) as -> by (unfold saturating_add; lia).
  rewrite Hw, (proj2 (Z.leb_le _ _)) by lia. simpl.
  rewrite Z.add_0_r, IH by lia. f_equal. apply imap_ext. intros i x _. simpl. f_equal. lia.
Qed.

Lemma publish_chunks_seq encode sid kind ts cs h :
  0 ≤ next_seq h → next_seq h + Z.of_nat (length cs) ≤ u64_max →
  next_seq (foldl (publish_chunk encode sid kind ts) h cs) =
  next_seq h + Z.of_nat (length cs).
Proof.
  revert h. induction cs as [|c cs IH]; intros h H0 Hl; simpl in *; [lia|].
  assert (saturating_add u64_max (next_seq h) 1 = next_seq h + 1) as Hs
    by (unfold saturating_add; lia).
  rewrite IH; cbn [next_seq publish_chunk]; rewrite Hs; lia.
Qed.

(** The bytes a notification carries. *)
Definition payload (decode : string → option (list byte)) (e : SurfaceEventNotification)
  : list byte :=
  match p_bytes (params e) with None => [] | Some t => default [] (decode t) end.

Lemma payload_event_for encode decode id sid kind ts n c :
  (∀ b, decode (encode b) = Some b) →
  payload decode (event_for encode id sid kind ts n c) = c.
Proof. intros Hd. unfold payload. destruct c; simpl; [done|]. by rewrite Hd. Qed.

(** Delivery. For a subscription that asked for the surface, with room in its queue,
    publishing appends notifications whose payloads, decoded and concatenated, are exactly
    the published bytes; each payload respects the subscription's chunk limit, their
    sequence numbers are consecutive from the hub's counter, the returned number is the last
    of them, and nothing else of the subscription changes. *)
Theorem publish_delivers (encode : list byte → string) decode ops id s sid kind bytes ts :
  let h := hub_run encode ops hub_new in
  let n := length (chunks_of (N.to_nat (chunk_limit sid (subscriptions h))) bytes) in
  (∀ b, decode (encode b) = Some b) →
  subscriptions h !! id = Some s → wants sid s = true → from_seq s ≤ next_seq h + 1 →
  next_seq h + Z.of_nat n ≤ u64_max →
  (N.of_nat (length (queue s) + n) ≤ queue_capacity s)%N →
  ∃ evs h', publish encode sid kind bytes ts h = (h', Ok (next_seq h + Z.of_nat n)) ∧
    subscriptions h' !! id = Some (set_queue (queue s ++ evs) (dropped s) s) ∧
    concat (payload decode <$> evs) = bytes ∧
    ∀ i e, evs !! i = Some e →
      p_seq (params e) = next_seq h + 1 + Z.of_nat i ∧ p_kind (params e) = kind ∧
      p_surface_id (params e) = sid ∧ p_subscription_id (params e) = id ∧
      (N.of_nat (length (payload decode e)) ≤ max_chunk_bytes s)%N.
Proof.
  intros h n Hdec Hs Hw Hf Hsat Hroom.
  destruct (hub_run_ok encode ops _ hub_new_ok) as [Hok _ [H0 _] _ _]. fold h in Hok, H0.
  destruct (chunk_limit_spec sid _ Hok) as [Hpos Hlim]. specialize (Hlim _ _ Hs Hw).
  unfold publish. subst n.
  set (cs := chunks_of (N.to_nat (chunk_limit sid (subscriptions h))) bytes) in *.
  destruct (chunks_of_spec (N.to_nat (chunk_limit sid (subscriptions h))) bytes)
    as [Hcat Hlen]; [lia|]. fold cs in Hcat, Hlen.
  exists (imap (λ i c, event_for encode id sid kind ts (next_seq h + 1 + Z.of_nat i) c) cs).
  eexists. split_and!.
  - by rewrite publish_chunks_seq.
  - rewrite publish_chunks_lookup, Hs. simpl. rewrite offered_all by done. f_equal.
    apply enqueue_room. by rewrite length_imap.
  - rewrite <- Hcat. f_equal. apply list_eq. intros i.
    rewrite list_lookup_fmap, list_lookup_imap. destruct (cs !! i); simpl; [|done].
    by rewrite payload_event_for.
  - intros i e He. rewrite list_lookup_imap in He.
    apply fmap_Some in He as (c & Hc & ->). rewrite payload_event_for by done.
    split_and!; try done. eapply Forall_lookup_1 in Hlen; [|done]. simpl in *. lia.
Qed.

Lemma demo_codec b : demo_decode (demo_encode b) = Some b.
Proof. unfold demo_decode, demo_encode. by rewrite list_byte_of_string_of_list_byte. Qed.

Lemma publish_delivers_witness :
  ∃ evs h', publish demo_encode "s" Output demo_bytes None
              (hub_run demo_encode [HSubscribe (demo_request 2 4)] hub_new) = (h', Ok 2) ∧
    concat (payload demo_decode <$> evs) = demo_bytes.
Proof.
  destruct (publish_delivers demo_encode demo_decode [HSubscribe (demo_request 2 4)] 1
    (mkSubscription (Some "s") 1 2 4 [] 0) "s" Output demo_bytes None demo_codec)
    as (evs & h' & E & _ & Hc & _); [vm_compute; done..|].
  exists evs, h'. split; [exact E|exact Hc].
Defined.

(** ** Losses are announced *)

Definition is_marker (d : Z) (e : SurfaceEventNotification) : Prop :=
  p_kind (params e) = Dropped ∧ p_dropped (params e) = Some d ∧ p_resync (params e) = Some true.

(** Either nothing was lost, or the stream has the marker of the latest loss. *)
Definition announced (got sent : list SurfaceEventNotification) (s : SubscriptionState) : Prop :=
  (dropped s = 0 ∧ got ++ queue s = sent) ∨
  (0 < dropped s ∧ ∃ m, m ∈ got ++ queue s ∧ is_marker (dropped s) m).

Lemma announced_enqueue got sent e s :
  0 ≤ dropped s → announced got sent s → announced got (sent ++ [e]) (enqueue e s).
Proof.
  intros Hd Ha. unfold enqueue. destruct (_ <? _)%N.
  { destruct Ha as [[H0 <-]|(H0 & m & Hm & Hk)]; [left|right]; cbn [dropped queue set_queue].
    - by rewrite (assoc _).
    - split; [done|]. exists m. set_solver. }
  right. set (d := saturating_add u64_max (dropped s) 1).
  assert (0 < d) by (unfold d, saturating_add, u64_max; lia).
  destruct (_ =? _)%N; (split; [done|]); exists (drop_marker e d);
    (split; [|done]); simpl; rewrite !elem_of_app, ?list_elem_of_singleton; set_solver.
Qed.

Lemma announced_enqueues got l : ∀ sent s,
  0 ≤ dropped s → announced got sent s →
  announced got (sent ++ l) (foldl (λ s e, enqueue e s) s l).
Proof.
  induction l as [|e l IH]; intros sent s Hd Ha; simpl; [by rewrite app_nil_r|].
  rewrite cons_middle, (assoc _). apply IH; [|by apply announced_enqueue].
  unfold enqueue, saturating_add, u64_max. repeat case_match; simpl; lia.
Qed.

Lemma announced_drain got sent n s :
  announced got sent s →
  announced (got ++ take n (queue s)) sent (set_queue (drop n (queue s)) (dropped s) s).
Proof.
  unfold announced. cbn [queue set_queue dropped].
  by rewrite <- (app_assoc got), take_drop.
Qed.

Section stream.
Variable encode : list byte → string.

(** A history that neither cancels [id] nor exhausts the identifiers keeps the
    subscription and its stream. *)
Lemma announced_run id ops : ∀ h s got sent,
  hub_ok h → subscriptions h !! id = Some s → announced got sent s →
  HUnsubscribe id ∉ ops → next_subscription h + Z.of_nat (length ops) ≤ u64_max →
  ∃ s', subscriptions (hub_run encode ops h) !! id = Some s' ∧
    announced (got ++ received encode id ops h) (sent ++ offers encode id ops h) s'.
Proof.
  induction ops as [|o ops IH]; intros h s got sent Hok Hs Ha Hn Hl.
  { exists s. split; [done|]. simpl. by rewrite !app_nil_r. }
  apply not_elem_of_cons in Hn as [Hne Hn]. cbn [length] in Hl.
  pose proof (hub_exec_ok encode o h Hok) as Hok'.
  pose proof (ho_ids _ Hok _ _ Hs) as Hid. pose proof (so_dropped _ _ (ho_subs _ Hok _ _ Hs)) as Hd.
  simpl. rewrite !app_assoc.
  destruct o as [r|i|sid k b t|i n]; simpl in *; rewrite ?app_nil_r.
  - apply (IH _ s); try done; revert Hid Hl; unfold subscribe; repeat case_match; simpl;
      try done; unfold saturating_add; try lia.
    intros. rewrite lookup_insert_ne; [done|simpl in *; lia].
  - apply (IH _ s); try done; [|simpl; lia]. simpl. rewrite lookup_delete_ne; [done|congruence].
  - unfold publish_offered. rewrite Hs. eapply IH; [done| | |done|].
    + simpl. rewrite publish_chunks_lookup, Hs. done.
    + apply announced_enqueues; [lia|done].
    + clear - Hl. enough (∀ cs h, next_subscription
        (foldl (publish_chunk encode sid k t) h cs) = next_subscription h) as E by (simpl; rewrite E; lia).
      clear. induction cs as [|c cs IH]; intros h; simpl; [done|by rewrite IH].
  - unfold drain in *. destruct (decide (i = id)) as [->|Hi].
    + rewrite bool_decide_true by done. rewrite Hs in *. simpl in *.
      eapply IH; [done|apply lookup_insert_eq| |done|simpl; lia]. by apply announced_drain.
    + rewrite bool_decide_false, app_nil_r by done.
      destruct (subscriptions h !! i) eqn:E; apply (IH _ s); try done; simpl; try lia.
      by rewrite lookup_insert_ne.
Qed.
End stream.

(** C36: no silent loss. Follow a subscription from its creation through any history that does
    not cancel it: what it received so far followed by what is still queued is either exactly
    what was published for it, in order, or contains the overflow notification that carries
    the current count of the subscription and asks for a resynchronisation. *)
Theorem no_silent_loss (encode : list byte → string) ops0 req ack h1 ops :
  subscribe req (hub_run encode ops0 hub_new) = (h1, Ok ack) →
  HUnsubscribe (ack_subscription_id ack) ∉ ops →
  next_subscription h1 + Z.of_nat (length ops) ≤ u64_max →
  let id := ack_subscription_id ack in
  let stream s := received encode id ops h1 ++ queue s in
  ∃ s, subscriptions (hub_run encode ops h1) !! id = Some s ∧
    ((dropped s = 0 ∧ stream s = offers encode id ops h1) ∨
     (0 < dropped s ∧ ∃ m, m ∈ stream s ∧ is_marker (dropped s) m)).
Proof.
  intros Hsub Hn Hl id stream.
  pose proof (hub_run_ok encode ops0 _ hub_new_ok) as Hok.
  pose proof (subscribe_ok req _ Hok) as Hok1. rewrite Hsub in Hok1.
  assert (∃ s, subscriptions h1 !! id = Some s ∧ announced [] [] s) as (s & Hs & Ha).
  { revert Hsub. unfold subscribe. repeat case_match; try done. intros [= <- Hack].
    subst id. rewrite <- Hack. eexists. split; [apply lookup_insert_eq|]. by left. }
  by apply (announced_run encode id ops h1 s [] []).
Qed.

Definition demo_ops : list hub_op :=
  [HPublish "s" Output demo_bytes None; HDrain 1 1; HPublish "s" Exit [] None].

Lemma no_silent_loss_witness :
  ∃ s, subscriptions (hub_run demo_encode demo_ops
         (subscribe (demo_request 1 2) hub_new).1) !! 1 = Some s ∧ 0 < dropped s ∧
    ∃ m, m ∈ received demo_encode 1 demo_ops (subscribe (demo_request 1 2) hub_new).1 ++ queue s ∧
         is_marker (dropped s) m.
Proof.
  destruct (no_silent_loss demo_encode [] (demo_request 1 2) (mkAck 1 1 1 2 false)
    (subscribe (demo_request 1 2) hub_new).1 demo_ops) as (s & Hs & H).
  - by vm_compute.
  - vm_compute. set_solver.
  - by vm_compute.
  - exists s. split; [exact Hs|]. destruct H as [[H0 _]|H]; [|exact H].
    exfalso. revert Hs. vm_compute. intros [= <-]. vm_compute in H0. done.
Defined.

(** The counter the marker carries is one per overflow, not one per lost event: a full
    queue gives up two places at once. Of four events offered to a queue of three, the
    first two are gone and the marker says one. *)
Lemma overflow_loses_more_than_it_counts :
  let h := hub_run demo_encode
    [HSubscribe (demo_request 1 3); HPublish "s" Output [x61; x62; x63; x64] None] hub_new in
  ∃ s, subscriptions h !! 1 = Some s ∧ dropped s = 1 ∧
    (λ e, (p_seq (params e), p_kind (params e))) <$> queue s =
      [(3, Output); (3, Dropped); (4, Output)].
Proof. eexists. split_and!; by vm_compute. Qed.

(** With capacity one, an overflow replaces the queue by the marker, the new event included. *)
Lemma capacity_one_keeps_only_the_marker e s :
  queue_capacity s = 1%N → queue s ≠ [] →
  queue (enqueue e s) = [drop_marker e (saturating_add u64_max (dropped s) 1)].
Proof.
  intros Hc Hq. unfold enqueue. rewrite Hc, N.eqb_refl.
  rewrite (proj2 (N.ltb_ge _ _)); [done|]. destruct (queue s); simpl in *; [done|lia].
Qed.
