(* ===== verification/Sessions.v ===== *)
(** Agent sessions ([sharecli-session/src/lib.rs], [resolver.rs], [recovery.rs],
    [state.rs], [ledger.rs]): the session and surface records, resolving a harness session
    from evidence, the launch-time sidecar, and the recovery executor.  Paths are their
    text. *)
From S2P Require Import Prelude.

(** * Data *)

Record ResumeRecipe : Type := mkRecipe {
  rr_harness : string;
  rr_session_id : string;
  rr_cwd : string;
  rr_argv : list string;
}.

Inductive ResolutionConfidence : Type := Exact | Corroborated | Heuristic | Unavailable.
Inductive SessionState : Type := Pending | Active | Exited | Unknown.

Record ProcessEvidence : Type := mkEvidence {
  pe_pid : option Z;
  pe_tty : option string;
  pe_cwd : string;
  pe_argv : list string;
  pe_started_at : option string;
}.

Record SurfaceRecord : Type := mkSurface {
  sf_id : string;
  sf_terminal : string;
  sf_title : option string;
  sf_cwd : string;
  sf_process : option ProcessEvidence;
}.

Record AgentSession : Type := mkSession {
  as_id : string;
  as_harness : string;
  as_session_id : string;
  as_cwd : string;
  as_resume : ResumeRecipe;
  as_confidence : ResolutionConfidence;
  as_state : SessionState;
}.

Record SurfaceCapabilities : Type := mkCaps {
  cap_read : bool;
  cap_write : bool;
  cap_resize : bool;
  cap_layout : bool;
  cap_durable_pty : bool;
}.

Inductive ObservationKind : Type := Discovered | Updated | ObsExited | Recovered.

#[global] Instance observation_kind_eq_dec : EqDecision ObservationKind.
Proof. solve_decision. Defined.

Record SessionObservation : Type := mkObservation {
  ob_seq : Z;
  ob_observed_at : string;
  ob_surface : SurfaceRecord;
  ob_session : option AgentSession;
  ob_capabilities : SurfaceCapabilities;
  ob_kind : ObservationKind;
}.

#[global] Instance resume_recipe_eq_dec : EqDecision ResumeRecipe.
Proof. solve_decision. Defined.
#[global] Instance confidence_eq_dec : EqDecision ResolutionConfidence.
Proof. solve_decision. Defined.
#[global] Instance session_state_eq_dec : EqDecision SessionState.
Proof. solve_decision. Defined.
#[global] Instance evidence_eq_dec : EqDecision ProcessEvidence.
Proof. solve_decision. Defined.
#[global] Instance surface_eq_dec : EqDecision SurfaceRecord.
Proof. solve_decision. Defined.
#[global] Instance session_eq_dec : EqDecision AgentSession.
Proof. solve_decision. Defined.
#[global] Instance capabilities_eq_dec : EqDecision SurfaceCapabilities.
Proof. solve_decision. Defined.

(** [SessionObservation::new]. *)
Definition observation_new (observed_at : string) (surface : SurfaceRecord)
    (session : option AgentSession) (capabilities : SurfaceCapabilities)
    (kind : ObservationKind) : SessionObservation :=
  mkObservation 0 observed_at surface session capabilities kind.

Definition auto_resumable (s : AgentSession) : bool :=
  match as_confidence s with Exact | Corroborated => true | _ => false end
  && negb (str_is_empty (rr_session_id (as_resume s)))
  && match rr_argv (as_resume s) with [] => false | _ => true end.

(** * Recipes *)

(** [AgentSession::new]. *)
Definition session_new (harness session_id cwd : string) : AgentSession :=
  mkSession (harness +:+ ":" +:+ session_id) harness session_id cwd
    (mkRecipe harness session_id cwd [harness; "resume"; session_id]) Exact Active.

Definition with_recipe (harness session_id cwd : string) (build : string → list string)
  : AgentSession :=
  mkSession (harness +:+ ":" +:+ session_id) harness session_id cwd
    (mkRecipe harness session_id cwd (build session_id)) Exact Active.

Definition forge (id cwd : string) : AgentSession :=
  with_recipe "forge" id cwd (λ id, ["forge"; "--conversation-id"; id]).
Definition codex (id cwd : string) : AgentSession :=
  with_recipe "codex" id cwd (λ id, ["codex"; "resume"; id]).
Definition opencode (id cwd : string) : AgentSession :=
  with_recipe "opencode" id cwd (λ id, ["opencode"; "--session"; id]).
Definition kilo (id cwd : string) : AgentSession :=
  with_recipe "kilo" id cwd (λ id, ["kilo"; "--session"; id]).
Definition cursor (id cwd : string) : AgentSession :=
  with_recipe "cursor-agent" id cwd (λ id, ["cursor-agent"; "--resume"; id]).

(** * resolver.rs *)

Inductive EvidenceSource : Type := SrcAdapter | SrcStateFile | SrcArgv | SrcUnavailable.

Record Resolution : Type := mkResolution {
  rs_session : option AgentSession;
  rs_confidence : ResolutionConfidence;
  rs_source : EvidenceSource;
}.

Definition unresolved : Resolution := mkResolution None Unavailable SrcUnavailable.

Definition set_confidence (c : ResolutionConfidence) (s : AgentSession) : AgentSession :=
  mkSession (as_id s) (as_harness s) (as_session_id s) (as_cwd s) (as_resume s) c (as_state s).

(** The constructor [recipe] chooses by harness name. *)
Definition harness_session (harness : string) : option (string → string → AgentSession) :=
  if bool_decide (harness = "forge") then Some forge
  else if bool_decide (harness = "codex") then Some codex
  else if bool_decide (harness = "opencode") then Some opencode
  else if bool_decide (harness = "kilo") then Some kilo
  else if bool_decide (harness = "cursor" ∨ harness = "cursor-agent") then Some cursor
  else None.

Definition recipe (harness id cwd : string) (confidence : ResolutionConfidence)
    (source : EvidenceSource) : Resolution :=
  match harness_session harness with
  | Some build =>
      mkResolution (Some (set_confidence confidence (build id cwd))) confidence source
  | None => unresolved
  end.

Definition argv_mentions_id (argv : list string) (id : string) : bool :=
  bool_decide (id ∈ argv).

Definition resume_flags (harness : string) : option (list string) :=
  if bool_decide (harness = "forge") then Some ["--conversation-id"]
  else if bool_decide (harness = "codex") then Some ["resume"]
  else if bool_decide (harness = "opencode" ∨ harness = "kilo") then Some ["--session"]
  else if bool_decide (harness = "cursor" ∨ harness = "cursor-agent") then Some ["--resume"]
  else None.

(** The first flag decides, whatever follows it. *)
Fixpoint id_after_flag (names argv : list string) : option string :=
  match argv with
  | [] => None
  | value :: rest =>
      if bool_decide (value ∈ names)
      then match rest with
           | id :: _ => if str_is_empty id then None else Some id
           | [] => None
           end
      else id_after_flag names rest
  end.

Definition session_id_from_argv (harness : string) (argv : list string) : option string :=
  match resume_flags harness with
  | None => None
  | Some names => id_after_flag names argv
  end.

Definition non_empty (o : option string) : option string :=
  match o with
  | Some id => if str_is_empty id then None else Some id
  | None => None
  end.

(** [resolve]: the adapter's word, then the state file's, then the command line. *)
Definition resolve (harness cwd : string) (argv : list string)
    (state_session_id adapter_session_id : option string) : Resolution :=
  match non_empty adapter_session_id with
  | Some id => recipe harness id cwd Exact SrcAdapter
  | None =>
      match non_empty state_session_id with
      | Some id =>
          recipe harness id cwd (if argv_mentions_id argv id then Corroborated else Exact)
            SrcStateFile
      | None =>
          match session_id_from_argv harness argv with
          | Some id => recipe harness id cwd Exact SrcArgv
          | None => unresolved
          end
      end
  end.

(** * recovery.rs *)

Inductive RecoveryOutcome : Type :=
| Resumed
| DryRun
| SkippedAmbiguous
| UnsupportedSurface
| LaunchFailed (msg : string).

Record RecoveryResult : Type := mkRecovery {
  rv_session_id : string;
  rv_outcome : RecoveryOutcome;
}.

(** [RecoveryExecutor::new]. *)
Definition executor_new (max_parallel : nat) : nat := (max_parallel `max` 1)%nat.

Definition dry_run (sessions : list AgentSession) : list RecoveryResult :=
  (λ s, mkRecovery (as_id s) (if auto_resumable s then DryRun else SkippedAmbiguous))
    <$> sessions.

Definition validate_recipe (r : ResumeRecipe) : result unit string :=
  if match rr_argv r with [] => true | _ => false end
     || existsb (has_char "000") (rr_argv r)
  then Err "resume recipe has no safe argv"
  else if negb (starts_with "/" (rr_cwd r))
  then Err "resume recipe cwd must be absolute"
  else Ok tt.

(** [spawn] is the outcome of starting the program with its arguments and directory. *)
Definition Spawner : Type := string → list string → string → result unit string.

Definition launch (spawn : Spawner) (s : AgentSession) : RecoveryOutcome :=
  if negb (auto_resumable s) then SkippedAmbiguous
  else if match as_state s with Active | Exited | Pending => false | Unknown => true end
  then UnsupportedSurface
  else match validate_recipe (as_resume s) with
  | Err e => LaunchFailed e
  | Ok _ =>
      match spawn (default EmptyString (head (rr_argv (as_resume s))))
              (tail (rr_argv (as_resume s))) (rr_cwd (as_resume s)) with
      | Ok _ => Resumed
      | Err e => LaunchFailed e
      end
  end.

(** [execute]: each batch runs in parallel threads and is joined in order. A worker
    panics when [panics] says so. *)
Definition execute (max_parallel : nat) (spawn : Spawner) (panics : AgentSession → bool)
    (sessions : list AgentSession) : list RecoveryResult :=
  let join s :=
    if panics s then mkRecovery "unknown" (LaunchFailed "worker panicked")
    else mkRecovery (as_id s) (launch spawn s) in
  concat ((λ batch : list AgentSession, join <$> batch) <$>
          slice_chunks max_parallel sessions).

(** * state.rs *)

Record SidecarRecord : Type := mkSidecar {
  sc_surface_id : string;
  sc_harness : string;
  sc_session_id : string;
  sc_pid : option Z;
}.

(** serde_json for one type: [to_string] and [from_str]. *)
Class Json (A : Type) : Type := mkJson {
  to_json : A → option string;
  from_json : string → option A;
}.
(** Reading back what was written, which is one line. *)
Class JsonLaws (A : Type) {J : Json A} : Prop := mkJsonLaws {
  json_roundtrip : ∀ (a : A) t, to_json a = Some t → from_json t = Some a;
  json_one_line : ∀ (a : A) t, to_json a = Some t →
    has_char nl t = false ∧ has_char cr t = false ∧ str_is_empty (trim t) = false;
}.

(** [append_record] on the text of the sidecar, which is empty when the file is new;
    [Err] when the record cannot be serialized. *)
Definition append_record `{Json SidecarRecord} (r : SidecarRecord)
  : stm string string unit := λ text,
  match to_json r with
  | None => (text, Err "serialize sidecar record")
  | Some line => (text +:+ line +:+ String nl EmptyString, Ok tt)
  end.

(** [records]: the first unparsable line fails the read with its number. *)
Fixpoint parse_records `{Json SidecarRecord} (n : Z) (lines : list string)
  : result (list SidecarRecord) Z :=
  match lines with
  | [] => Ok []
  | line :: rest =>
      if str_is_empty (trim line) then parse_records (n + 1) rest
      else match from_json line with
      | None => Err (n + 1)
      | Some r => result_bind (λ rs, Ok (r :: rs)) (parse_records (n + 1) rest)
      end
  end.
Definition records `{Json SidecarRecord} (text : string) : result (list SidecarRecord) Z :=
  parse_records 0 (str_lines text).

(** [session_id] over the records read from the file, in file order. *)
Definition sidecar_session_id (records : list SidecarRecord) (surface : SurfaceRecord)
    (harness : string) : option string :=
  let pid := sf_process surface ≫= pe_pid in
  match foldl (λ m r,
          if bool_decide (sc_surface_id r ≠ sf_id surface ∨ sc_harness r ≠ harness)
          then m else Some r) None records with
  | None => None
  | Some r =>
      if bool_decide (is_Some (sc_pid r) ∧ sc_pid r ≠ pid) then None
      else if str_is_empty (trim (sc_session_id r)) then None else Some (sc_session_id r)
  end.

(** * Lemmas *)

Lemma non_empty_Some o id : non_empty o = Some id → str_is_empty id = false.
Proof. destruct o as [s|]; simpl; [destruct (str_is_empty s) eqn:E; congruence|done]. Qed.

Lemma id_after_flag_nonempty names argv id :
  id_after_flag names argv = Some id → str_is_empty id = false.
Proof.
  induction argv as [|v rest IH]; simpl; [done|]. case_bool_decide; [|done].
  destruct rest as [|x ?]; [done|]. destruct (str_is_empty x) eqn:E; congruence.
Qed.

(** Whatever the evidence, a resolved session comes from the harness's constructor with a
    non-empty identifier. *)
Lemma resolve_session_spec harness cwd argv st ad s :
  rs_session (resolve harness cwd argv st ad) = Some s →
  ∃ build id c, harness_session harness = Some build ∧ str_is_empty id = false ∧
    s = set_confidence c (build id cwd) ∧ (c = Exact ∨ c = Corroborated).
Proof.
  unfold resolve, recipe. intros Hs.
  destruct (non_empty ad) as [id|] eqn:E1.
  { apply non_empty_Some in E1. destruct (harness_session harness) as [b|]; [|done].
    injection Hs as <-. eauto 10. }
  destruct (non_empty st) as [id|] eqn:E2.
  { apply non_empty_Some in E2. destruct (harness_session harness) as [b|]; [|done].
    injection Hs as <-. destruct (argv_mentions_id argv id); eauto 10. }
  unfold session_id_from_argv in Hs. destruct (resume_flags harness); [|done].
  destruct (id_after_flag _ _) as [id|] eqn:E3; [|done]. apply id_after_flag_nonempty in E3.
  destruct (harness_session harness) as [b|]; [|done]. injection Hs as <-. eauto 10.
Qed.

(** The constructor belongs to a canonical harness name, whose flag finds the identifier in
    the constructed command line again. *)
Lemma harness_session_argv harness build id cwd :
  harness_session harness = Some build → str_is_empty id = false →
  harness_session (as_harness (build id cwd)) = Some build ∧
  session_id_from_argv (as_harness (build id cwd)) (rr_argv (as_resume (build id cwd))) = Some id.
Proof.
  unfold harness_session. intros Hb Hid.
  repeat (destruct (bool_decide _) in Hb; [injection Hb as <-; split; [done|];
    unfold session_id_from_argv; simpl; by rewrite Hid|]). done.
Qed.

Lemma build_frame harness build id cwd :
  harness_session harness = Some build →
  as_cwd (build id cwd) = cwd ∧ as_confidence (build id cwd) = Exact ∧
  rr_session_id (as_resume (build id cwd)) = id ∧ rr_argv (as_resume (build id cwd)) ≠ [].
Proof.
  unfold harness_session. intros Hb.
  repeat (destruct (bool_decide _) in Hb; [by injection Hb as <-|]). done.
Qed.

(** * Theorems *)

(** Resuming is stable. A session resolved from any evidence can be resumed unattended,
    and the command line its recipe runs is itself sufficient evidence: resolving the
    resumed process from its arguments alone gives the same durable identity and the same
    recipe. *)
Theorem resolve_resume_roundtrip harness cwd argv st ad s :
  rs_session (resolve harness cwd argv st ad) = Some s →
  auto_resumable s = true ∧
  ∃ s', rs_session (resolve (as_harness s) (as_cwd s) (rr_argv (as_resume s)) None None) = Some s' ∧
    as_id s' = as_id s ∧ as_resume s' = as_resume s.
Proof.
  intros (build & id & c & Hb & Hid & -> & Hc)%resolve_session_spec.
  destruct (harness_session_argv _ _ id cwd Hb Hid) as [Hb' Ha].
  destruct (build_frame _ _ id cwd Hb) as (Hcwd & Hx & Hr & Hne). split.
  - unfold auto_resumable. simpl. rewrite Hr, Hid.
    destruct (rr_argv _); [done|]. by destruct Hc as [-> | ->].
  - unfold resolve. simpl. rewrite Ha, Hcwd. unfold recipe. rewrite Hb'. simpl. eauto.
Qed.

Lemma resolve_resume_roundtrip_witness :
  auto_resumable (cursor "7" "/w") = true ∧
  ∃ s', rs_session (resolve "cursor-agent" "/w" ["cursor-agent"; "--resume"; "7"] None None) = Some s' ∧
    as_id s' = "cursor-agent:7".
Proof.
  destruct (resolve_resume_roundtrip "cursor" "/w" ["cursor"] (Some EmptyString) (Some "7")
    (cursor "7" "/w")) as [Ha (s' & Hr & Hi & _)]; [reflexivity|].
  split; [exact Ha|]. exists s'. split; [exact Hr|exact Hi].
Defined.

Lemma fmap_concat {A B} (g : A → B) (ll : list (list A)) :
  concat ((λ l : list A, g <$> l) <$> ll) = g <$> concat ll.
Proof. induction ll as [|l ll IH]; simpl; [done|]. by rewrite fmap_app, <- IH. Qed.

(** Recovery is safe and complete. The batch size never changes the results: with at
    least one worker there is one result per session, in order. A session is started only
    if its evidence is exact or corroborated, it has an identifier, its command line has no
    NUL byte and its directory is absolute, and then exactly with its recipe; every other
    session is reported without starting anything. *)
Theorem execute_starts_only_safe n (spawn : Spawner) sessions :
  execute (executor_new n) spawn (λ _, false) sessions =
    (λ s, mkRecovery (as_id s) (launch spawn s)) <$> sessions ∧
  (∀ spawn' : Spawner, ∀ s,
    auto_resumable s = false ∨ validate_recipe (as_resume s) ≠ Ok tt →
    launch spawn s = launch spawn' s) ∧
  (∀ s, launch spawn s = Resumed →
    auto_resumable s = true ∧ as_state s ≠ Unknown ∧ starts_with "/" (rr_cwd (as_resume s)) = true ∧
    ∃ prog args, rr_argv (as_resume s) = prog :: args ∧
      Forall (λ a, has_char "000" a = false) (prog :: args) ∧
      spawn prog args (rr_cwd (as_resume s)) = Ok tt).
Proof.
  split_and!.
  - unfold execute, executor_new. rewrite fmap_concat.
    destruct (slice_chunks_spec (n `max` 1)%nat sessions) as [-> _]; [lia|done].
  - intros spawn' s Hs. unfold launch. destruct (auto_resumable s); [|done]. simpl.
    destruct (as_state s); [..|done];
      (destruct (validate_recipe _) as [[]|]; [destruct Hs; congruence|done]).
  - intros s. unfold launch, validate_recipe. destruct (auto_resumable s); [|done].
    destruct (starts_with "/" (rr_cwd (as_resume s))) eqn:Habs;
      [|destruct (as_state s); simpl; by repeat case_match]. cbn [negb].
    destruct (rr_argv (as_resume s)) as [|prog args]; [by destruct (as_state s)|]. simpl.
    destruct (has_char "000" prog || _) eqn:Hz; [by destruct (as_state s)|].
    apply orb_false_iff in Hz as [Hp Hz].
    assert (Forall (λ a, has_char "000" a = false) (prog :: args)).
    { constructor; [done|]. apply Forall_forall. intros a Ha.
      destruct (has_char "000" a) eqn:E; [|done].
      assert (existsb (has_char "000") args = true); [|congruence].
      apply existsb_exists. exists a. split; [by apply list_elem_of_In|done]. }
    destruct (as_state s); try done;
      (destruct (spawn _ _ _) as [[]|] eqn:Hsp; [|done]); intros _; split_and!; eauto.
Qed.

(** ** The sidecar *)

Definition sidecar_register `{Json SidecarRecord} (rs : list SidecarRecord) (text : string)
  : string := foldl (λ t r, (append_record r t).1) text rs.

Lemma sidecar_register_block `{JsonLaws SidecarRecord} rs ls :
  Forall2 (λ r l, to_json r = Some l) rs ls →
  ∀ text, sidecar_register rs text = text +:+ line_block ls.
Proof.
  unfold sidecar_register, line_block.
  induction 1 as [|r l rs ls Hl _ IH]; intros text; simpl; [by rewrite str_app_nil_r|].
  rewrite IH. unfold append_record. rewrite Hl. simpl. by rewrite !str_app_assoc.
Qed.

Lemma parse_records_block `{JsonLaws SidecarRecord} rs ls :
  Forall2 (λ r l, to_json r = Some l) rs ls → ∀ n, parse_records n ls = Ok rs.
Proof.
  induction 1 as [|r l rs ls Hl _ IH]; intros n; simpl; [done|].
  destruct (json_one_line _ _ Hl) as (_ & _ & ->). by rewrite (json_roundtrip _ _ Hl), IH.
Qed.

Lemma sidecar_fold_last surface harness rs m :
  Forall (λ r, sc_surface_id r ≠ sf_id surface ∨ sc_harness r ≠ harness) rs →
  foldl (λ m r, if bool_decide (sc_surface_id r ≠ sf_id surface ∨ sc_harness r ≠ harness)
                then m else Some r) m rs = m.
Proof.
  intros Hr. induction Hr as [|r rs Hr _ IH]; simpl; [done|]. by rewrite bool_decide_true.
Qed.

(** The newest registration decides. The records appended to an empty sidecar are read
    back exactly, in order; and the session of a surface and harness is that of the last
    record for them, provided the record has no process id or the surface's: a newer record
    with another process id hides the older ones instead of falling back to them. *)
Theorem sidecar_newest_decides `{JsonLaws SidecarRecord} rs r rs' ls surface harness :
  Forall2 (λ r l, to_json r = Some l) (rs ++ r :: rs') ls →
  sc_surface_id r = sf_id surface → sc_harness r = harness →
  Forall (λ r, sc_surface_id r ≠ sf_id surface ∨ sc_harness r ≠ harness) rs' →
  records (sidecar_register (rs ++ r :: rs') EmptyString) = Ok (rs ++ r :: rs') ∧
  sidecar_session_id (rs ++ r :: rs') surface harness =
    (if bool_decide (is_Some (sc_pid r) ∧ sc_pid r ≠ sf_process surface ≫= pe_pid) then None
     else if str_is_empty (trim (sc_session_id r)) then None else Some (sc_session_id r)).
Proof.
  intros Hl Hs Hh Hr. split.
  - rewrite (sidecar_register_block _ _ Hl), str_app_nil_l. unfold records.
    rewrite str_lines_block; [by apply parse_records_block|].
    eapply Forall2_Forall_r; [done|]. apply Forall_forall.
    intros r' _ l' Hj. destruct (json_one_line _ _ Hj); tauto.
  - unfold sidecar_session_id. rewrite foldl_app. simpl.
    rewrite (bool_decide_false (_ ∨ _)) by tauto. by rewrite sidecar_fold_last.
Qed.

(** A codec given by a table, for concrete inputs. *)
Definition table_json {A} `{EqDecision A} (tbl : list (A * string)) : Json A := {|
  to_json a := snd <$> head (filter (λ p, p.1 = a) tbl);
  from_json t := fst <$> head (filter (λ p, p.2 = t) tbl);
|}.

Lemma table_json_laws {A} `{EqDecision A} (tbl : list (A * string)) :
  NoDup tbl.*2 →
  Forall (λ p, has_char nl p.2 = false ∧ has_char cr p.2 = false ∧
               str_is_empty (trim p.2) = false) tbl →
  @JsonLaws A (table_json tbl).
Proof.
  intros Hnd Hall.
  assert (∀ (a : A) t, @to_json A (table_json tbl) a = Some t → (a, t) ∈ tbl) as Hin.
  { intros a t. simpl. destruct (filter _ tbl) as [|p l] eqn:E; [done|].
    simpl. intros [= <-]. assert (p ∈ p :: l) as Hp by set_solver. rewrite <- E in Hp.
    apply list_elem_of_filter in Hp as [<- Hp]. by destruct p. }
  split.
  - intros a t Hj%Hin. simpl. destruct (filter _ tbl) as [|p l] eqn:E.
    + assert ((a, t) ∈ filter (λ p, p.2 = t) tbl) as Hf by by apply list_elem_of_filter.
      rewrite E in Hf. set_solver.
    + assert (p ∈ p :: l) as Hp by set_solver. rewrite <- E in Hp.
      apply list_elem_of_filter in Hp as [Hpt Hp]. simpl. f_equal.
      by rewrite (NoDup_fmap_inj snd tbl p (a, t)).
  - intros a t Hj%Hin. exact (proj1 (Forall_forall _ _) Hall _ Hj).
Qed.

#[global] Instance sidecar_record_eq_dec : EqDecision SidecarRecord.
Proof. solve_decision. Defined.

Definition demo_old : SidecarRecord := mkSidecar "s" "codex" "old" None.
Definition demo_new : SidecarRecord := mkSidecar "s" "codex" "new" (Some 9).
Definition demo_table : list (SidecarRecord * string) := [(demo_old, "o"); (demo_new, "n")].

Definition demo_surface : SurfaceRecord :=
  mkSurface "s" "zmx" None "/w" (Some (mkEvidence (Some 9) None "/w" ["codex"] None)).

Lemma sidecar_newest_decides_witness :
  sidecar_session_id [demo_old; demo_new] demo_surface "codex" = Some "new".
Proof.
  refine (proj2 (@sidecar_newest_decides (table_json demo_table) (table_json_laws _ _ _)
    [demo_old] demo_new [] ["o"; "n"] demo_surface "codex" _ _ _ _)).
  - vm_compute. repeat constructor; set_solver.
  - repeat constructor; by vm_compute.
  - repeat constructor; by vm_compute.
  - reflexivity.
  - reflexivity.
  - constructor.
Defined.
