(* ===== verification/SessionLedger.v ===== *)
(** The session store ([sharecli-session/src/lib.rs], [layout.rs], [discovery.rs]): an
    append-only ledger of observations with a materialized session table in SQLite, its
    compaction, the recovery plan computed from it, layout snapshots, and the discovery
    pass that fills the ledger.  The tables are state, each SQL statement of the source is
    translated, and a transaction that does not commit leaves no trace; serde_json, the
    clock and timestamp parsing are parameters. *)
From S2P Require Import Prelude Sessions.

(** * Tables *)

Record SessionRow : Type := mkSessionRow {
  row_harness : string;
  row_session_id : string;
  row_cwd : string;
  row_resume_json : string;
  row_confidence : string;
  row_state : string;
}.

Record ObservationRow : Type := mkObsRow {
  or_seq : Z;
  or_observed_at : string;
  or_surface_id : string;
  or_surface_json : string;
  or_session_json : option string;
  or_capabilities_json : string;
  or_kind : string;
}.

(** * layout.rs *)

Inductive LayoutAxis : Type := Horizontal | Vertical.

Inductive LayoutNode : Type :=
| Pane (surface_id : string)
| Split (axis : LayoutAxis) (ratio_millis : Z) (children : list LayoutNode).

Record LayoutSnapshot : Type := mkSnapshot {
  ly_id : string;
  ly_terminal : string;
  ly_captured_at : string;
  ly_root : LayoutNode;
}.

Record LayoutRow : Type := mkLayoutRow {
  lr_terminal : string;
  lr_captured_at : string;
  lr_snapshot_json : string;
}.

(** [db_seq] is SQLite's record of the largest key an [AUTOINCREMENT] column ever had. *)
Record Db : Type := mkDb {
  sessions : gmap string SessionRow;
  observations_table : list ObservationRow;
  db_seq : Z;
  layouts : gmap string LayoutRow;
}.

Definition db_new : Db := mkDb ∅ [] 0 ∅.

(** [HashSet::insert] while walking the tree; [Err] carries the message. *)
Fixpoint validate_node (node : LayoutNode) (surfaces : gset string)
  : result (gset string) string :=
  match node with
  | Pane surface_id =>
      if str_is_empty (trim surface_id) then Err "layout surface id must not be empty"
      else if bool_decide (surface_id ∈ surfaces)
      then Err ("layout surface id appears more than once: " +:+ surface_id)
      else Ok ({[surface_id]} ∪ surfaces)
  | Split _ ratio_millis children =>
      if negb ((1 <=? ratio_millis) && (ratio_millis <=? 999))
      then Err "layout split ratio must be between 1 and 999"
      else match children with
      | [a; b] => result_bind (validate_node b) (validate_node a surfaces)
      | _ => Err "layout split must contain exactly two children"
      end
  end.

Definition validate (s : LayoutSnapshot) : result unit string :=
  if str_is_empty (trim (ly_id s)) then Err "layout id must not be empty"
  else if str_is_empty (trim (ly_terminal s)) then Err "layout terminal must not be empty"
  else result_bind (λ _, Ok tt) (validate_node (ly_root s) ∅).

(** * Transactions *)

(** Which statements fail, with their message. *)
Record SqlFaults : Type := mkSqlFaults {
  fail_begin : option string;
  fail_insert : option string;
  fail_upsert : option string;
  fail_delete : option string;
  fail_commit : option string;
  fail_query : option string;
}.
Definition sql_ok : SqlFaults := mkSqlFaults None None None None None None.

Definition sql_try {S} (o : option string) : stm S string unit := λ s,
  match o with Some e => (s, Err e) | None => (s, Ok tt) end.

(** A transaction dropped before [commit] rolls back. *)
Definition transaction {A} (f : SqlFaults) (body : stm Db string A) : stm Db string A := λ db,
  match fail_begin f with
  | Some e => (db, Err e)
  | None =>
      match body db with
      | (_, Err e) => (db, Err e)
      | (db', Ok a) =>
          match fail_commit f with
          | Some e => (db, Err e)
          | None => (db', Ok a)
          end
      end
  end.

Definition i64_max : Z := 2 ^ 63 - 1.

Definition json_or {A} (e : string) (o : option A) : result A string := ok_or e o.

Section store.
Context `{Json ResumeRecipe, Json ResolutionConfidence, Json SessionState, Json SurfaceRecord,
          Json AgentSession, Json SurfaceCapabilities, Json ObservationKind,
          Json LayoutSnapshot}.
Variable f : SqlFaults.

(** ** Sessions *)

Definition session_row (s : AgentSession) : result SessionRow string :=
  match to_json (as_resume s), to_json (as_confidence s), to_json (as_state s) with
  | Some r, Some c, Some st =>
      Ok (mkSessionRow (as_harness s) (as_session_id s) (as_cwd s) r c st)
  | _, _, _ => Err "serialize session"
  end.

Definition upsert_locked (s : AgentSession) : stm Db string unit :=
  row <- st_lift (session_row s) ;;
  sql_try (fail_upsert f) ;;;
  st_mod (λ db, mkDb (<[as_id s := row]> (sessions db)) (observations_table db) (db_seq db)
                  (layouts db)).

Definition upsert (s : AgentSession) : stm Db string unit := upsert_locked s.

(** [SessionStore::row]. *)
Definition session_of_row (id : string) (r : SessionRow) : result AgentSession string :=
  match from_json (row_resume_json r), from_json (row_confidence r), from_json (row_state r) with
  | Some rec, Some c, Some st =>
      Ok (mkSession id (row_harness r) (row_session_id r) (row_cwd r) rec c st)
  | _, _, _ => Err "decode session row"
  end.

(** [collect::<Result<Vec<_>>>]. *)
Fixpoint collect {A B E} (g : A → result B E) (l : list A) : result (list B) E :=
  match l with
  | [] => Ok []
  | a :: l' =>
      match g a with
      | Err e => Err e
      | Ok b => result_bind (λ bs, Ok (b :: bs)) (collect g l')
      end
  end.

Definition list_sessions : stm Db string (list AgentSession) :=
  sql_try (fail_query f) ;;;
  db <- st_get ;;
  st_lift (collect (λ p, session_of_row p.1 p.2) (btree_entries (sessions db))).

Definition get (id : string) : stm Db string (option AgentSession) :=
  sql_try (fail_query f) ;;;
  db <- st_get ;;
  match sessions db !! id with
  | None => st_ret None
  | Some r => s <- st_lift (session_of_row id r) ;; st_ret (Some s)
  end.

(** ** Observations *)

Definition observation_row (seq : Z) (o : SessionObservation) : result ObservationRow string :=
  match to_json (ob_surface o),
        match ob_session o with None => Some None | Some s => Some <$> to_json s end,
        to_json (ob_capabilities o), to_json (ob_kind o) with
  | Some sf, Some ss, Some c, Some k =>
      Ok (mkObsRow seq (ob_observed_at o) (sf_id (ob_surface o)) sf ss c k)
  | _, _, _, _ => Err "serialize observation"
  end.

(** [INSERT INTO session_observations ...] and [last_insert_rowid]; SQLite refuses the
    insert when the largest key has been used. *)
Definition insert_observation (o : SessionObservation) : stm Db string Z :=
  db <- st_get ;;
  let seq := db_seq db + 1 in
  row <- st_lift (observation_row seq o) ;;
  sql_try (fail_insert f) ;;;
  if i64_max <=? db_seq db then st_err "database or disk is full"
  else
    st_put (mkDb (sessions db) (observations_table db ++ [row]) seq (layouts db)) ;;;
    st_ret seq.

Definition append_observation (o : SessionObservation) : stm Db string Z :=
  transaction f (
    seq <- insert_observation o ;;
    match ob_session o with Some s => upsert_locked s | None => st_ret tt end ;;;
    st_ret seq).

(** [SessionStore::observation_row]. *)
Definition observation_of_row (r : ObservationRow) : result SessionObservation string :=
  match from_json (or_surface_json r),
        match or_session_json r with None => Some None | Some t => Some <$> from_json t end,
        from_json (or_capabilities_json r), from_json (or_kind r) with
  | Some sf, Some ss, Some c, Some k => Ok (mkObservation (or_seq r) (or_observed_at r) sf ss c k)
  | _, _, _, _ => Err "decode observation row"
  end.

(** The table is in key order; [WHERE surface_id=?1] selects on the column. *)
Definition observations (surface_id : option string)
  : stm Db string (list SessionObservation) :=
  sql_try (fail_query f) ;;;
  db <- st_get ;;
  st_lift (collect observation_of_row
    (match surface_id with
     | None => observations_table db
     | Some sid => filter (λ r, or_surface_id r = sid) (observations_table db)
     end)).

(** [SELECT MAX(seq) ... GROUP BY surface_id] for the group of [sid]. *)
Definition max_seq (sid : string) (rows : list ObservationRow) : Z :=
  foldr Z.max (-1) (or_seq <$> filter (λ r, or_surface_id r = sid) rows).

Definition is_latest (rows : list ObservationRow) (r : ObservationRow) : Prop :=
  or_seq r ∈ (λ r', max_seq (or_surface_id r') rows) <$> rows.
#[global] Instance is_latest_dec rows r : Decision (is_latest rows r).
Proof. unfold is_latest. apply _. Defined.

Definition compact_observations : stm Db string nat :=
  transaction f (
    sql_try (fail_delete f) ;;;
    db <- st_get ;;
    let kept := filter (is_latest (observations_table db)) (observations_table db) in
    st_put (mkDb (sessions db) kept (db_seq db) (layouts db)) ;;;
    st_ret (length (observations_table db) - length kept)%nat).

(** ** Recovery plan *)

Section plan.
(** [DateTime::parse_from_rfc3339] as an instant, the clock, and the age limit. *)
Variable parse_ts : string → option Z.
Variable now max_age : Z.

Definition fresh_at (o : SessionObservation) : option Z :=
  match parse_ts (ob_observed_at o) with
  | None => None
  | Some t => if now <? t then None else if t <? now - max_age then None else Some t
  end.

(** Tuple order on (timestamp, seq). *)
Definition newer (t q t' q' : Z) : bool := (t' <? t) || ((t' =? t) && (q' <? q)).

Definition latest_step (m : gmap string (Z * SessionObservation)) (o : SessionObservation)
  : gmap string (Z * SessionObservation) :=
  match fresh_at o with
  | None => m
  | Some t =>
      let sid := sf_id (ob_surface o) in
      match m !! sid with
      | None => <[sid := (t, o)]> m
      | Some (t', o') =>
          if newer t (ob_seq o) t' (ob_seq o') then <[sid := (t, o)]> m else m
      end
  end.

Definition latest (l : list SessionObservation) : gmap string (Z * SessionObservation) :=
  foldl latest_step ∅ l.

Definition recoverable (o : SessionObservation) : option AgentSession :=
  if bool_decide (ob_kind o = ObsExited) then None
  else match ob_session o with
  | None => None
  | Some s => if auto_resumable s then Some s else None
  end.

Definition plan_add (acc : gmap string AgentSession) (x : Z * SessionObservation)
  : gmap string AgentSession :=
  match recoverable x.2 with
  | Some s => <[as_id s := s]> acc
  | None => acc
  end.

Definition plan_of (m : gmap string (Z * SessionObservation)) : gmap string AgentSession :=
  foldl plan_add ∅ (btree_values m).

Definition recovery_plan : stm Db string (list AgentSession) :=
  if max_age <=? 0 then st_err "recovery max age must be positive"
  else
    l <- observations None ;;
    st_ret (btree_values (plan_of (latest l))).
End plan.

(** ** Layouts *)

Definition save_layout (s : LayoutSnapshot) : stm Db string unit :=
  st_lift (validate s) ;;;
  transaction f (
    t <- st_lift (json_or "serialize layout" (to_json s)) ;;
    sql_try (fail_upsert f) ;;;
    st_mod (λ db, mkDb (sessions db) (observations_table db) (db_seq db)
      (<[ly_id s := mkLayoutRow (ly_terminal s) (ly_captured_at s) t]> (layouts db)))).

Definition layout_of_row (r : LayoutRow) : result LayoutSnapshot string :=
  json_or "decode layout snapshot" (from_json (lr_snapshot_json r)).

Definition get_layout (id : string) : stm Db string (option LayoutSnapshot) :=
  sql_try (fail_query f) ;;;
  db <- st_get ;;
  match layouts db !! id with
  | None => st_ret None
  | Some r => s <- st_lift (layout_of_row r) ;; st_ret (Some s)
  end.

Definition list_layouts : stm Db string (list LayoutSnapshot) :=
  sql_try (fail_query f) ;;;
  db <- st_get ;;
  st_lift (collect layout_of_row (btree_values (layouts db))).
End store.

(** * The abstract ledger *)

(** What the store promises: the observations in order, the current session per identity,
    and the last number given out. *)
Record Ledger : Type := mkLedger {
  lg_obs : list SessionObservation;
  lg_sessions : gmap string AgentSession;
  lg_last : Z;
}.
Definition ledger_new : Ledger := mkLedger [] ∅ 0.

Definition numbered (n : Z) (o : SessionObservation) : SessionObservation :=
  mkObservation n (ob_observed_at o) (ob_surface o) (ob_session o) (ob_capabilities o) (ob_kind o).

Definition surface_of (o : SessionObservation) : string := sf_id (ob_surface o).

(** No other observation of the surface has a larger number. *)
Definition is_last (l : list SessionObservation) (o : SessionObservation) : Prop :=
  Forall (λ o', surface_of o' = surface_of o → ob_seq o' ≤ ob_seq o) l.
#[global] Instance is_last_dec l o : Decision (is_last l o).
Proof. unfold is_last. apply _. Defined.

Inductive ledger_op : Type :=
| LAppend (o : SessionObservation)
| LUpsert (s : AgentSession)
| LCompact
| LSaveLayout (s : LayoutSnapshot).

Definition ledger_step (op : ledger_op) (a : Ledger) : Ledger :=
  match op with
  | LAppend o =>
      mkLedger (lg_obs a ++ [numbered (lg_last a + 1) o])
        (match ob_session o with Some s => <[as_id s := s]> (lg_sessions a) | None => lg_sessions a end)
        (lg_last a + 1)
  | LUpsert s => mkLedger (lg_obs a) (<[as_id s := s]> (lg_sessions a)) (lg_last a)
  | LCompact => mkLedger (filter (is_last (lg_obs a)) (lg_obs a)) (lg_sessions a) (lg_last a)
  | LSaveLayout _ => a
  end.

(** Numbers increase strictly and are at most the last one given out. *)
Record ledger_ok (a : Ledger) : Prop := mkLedgerOk {
  lo_sorted : StronglySorted Z.lt (ob_seq <$> lg_obs a);
  lo_bound : Forall (λ o, 0 < ob_seq o ≤ lg_last a) (lg_obs a);
  lo_last : 0 ≤ lg_last a ≤ i64_max;
}.

Section refinement.
Context `{JResume : Json ResumeRecipe, JConf : Json ResolutionConfidence, JState : Json SessionState,
          JSurface : Json SurfaceRecord, JSession : Json AgentSession,
          JCaps : Json SurfaceCapabilities, JKind : Json ObservationKind,
          JLayout : Json LayoutSnapshot}.
Context `{!JsonLaws ResumeRecipe, !JsonLaws ResolutionConfidence, !JsonLaws SessionState,
          !JsonLaws SurfaceRecord, !JsonLaws AgentSession, !JsonLaws SurfaceCapabilities,
          !JsonLaws ObservationKind}.

(** One operation of the store under given faults; [true] when it returned [Ok]. *)
Definition store_exec (f : SqlFaults) (op : ledger_op) (db : Db) : Db * bool :=
  match op with
  | LAppend o => let '(db', r) := append_observation f o db in (db', is_ok r)
  | LUpsert s => let '(db', r) := upsert f s db in (db', is_ok r)
  | LCompact => let '(db', r) := compact_observations f db in (db', is_ok r)
  | LSaveLayout s => let '(db', r) := save_layout f s db in (db', is_ok r)
  end.

(** The tables represent the ledger. *)
Record represents (db : Db) (a : Ledger) : Prop := mkRepresents {
  rp_obs : Forall2 (λ o r, observation_row (ob_seq o) o = Ok r) (lg_obs a) (observations_table db);
  rp_seq : db_seq db = lg_last a;
  rp_sessions : map_relation (λ _ s r, session_row s = Ok r) (λ _ _, False) (λ _ _, False)
                  (lg_sessions a) (sessions db);
  rp_ids : map_Forall (λ id s, as_id s = id) (lg_sessions a);
  rp_ok : ledger_ok a;
}.

(** ** Rows *)

Lemma observation_row_decode n o r :
  observation_row n o = Ok r →
  observation_of_row r = Ok (numbered n o) ∧ or_seq r = n ∧ or_surface_id r = surface_of o.
Proof.
  unfold observation_row, observation_of_row. intros Hr.
  destruct (to_json (ob_surface o)) as [sf|] eqn:E1; [|done].
  destruct (to_json (ob_capabilities o)) as [c|] eqn:E3; [|by repeat case_match].
  destruct (to_json (ob_kind o)) as [k|] eqn:E4; [|by repeat case_match].
  apply json_roundtrip in E1, E3, E4.
  destruct (ob_session o) as [s|] eqn:Es; simpl in Hr.
  - destruct (to_json s) as [t|] eqn:E2; [|done]. apply json_roundtrip in E2.
    injection Hr as <-. simpl. rewrite E1, E3, E4, E2. simpl. unfold numbered. by rewrite Es.
  - injection Hr as <-. simpl. rewrite E1, E3, E4. unfold numbered. by rewrite Es.
Qed.

Lemma numbered_same o : numbered (ob_seq o) o = o.
Proof. by destruct o. Qed.

Lemma observation_row_numbered n o : observation_row n (numbered n o) = observation_row n o.
Proof. done. Qed.

Lemma session_row_decode s r : session_row s = Ok r → session_of_row (as_id s) r = Ok s.
Proof.
  unfold session_row, session_of_row. intros Hr.
  destruct (to_json (as_resume s)) eqn:E1; [|done].
  destruct (to_json (as_confidence s)) eqn:E2; [|done].
  destruct (to_json (as_state s)) eqn:E3; [|done].
  injection Hr as <-. simpl. apply json_roundtrip in E1, E2, E3.
  rewrite E1, E2, E3. by destruct s.
Qed.

Lemma collect_rows os rows :
  Forall2 (λ o r, observation_row (ob_seq o) o = Ok r) os rows →
  collect observation_of_row rows = Ok os.
Proof.
  induction 1 as [|o r os rows Ho _ IH]; simpl; [done|].
  destruct (observation_row_decode _ _ _ Ho) as [-> _]. by rewrite IH, numbered_same.
Qed.

Lemma max_seq_ge sid rows r : r ∈ rows → or_surface_id r = sid → or_seq r ≤ max_seq sid rows.
Proof.
  intros Hr Hs. unfold max_seq. assert (r ∈ filter (λ r, or_surface_id r = sid) rows) as Hf
    by by apply list_elem_of_filter.
  clear Hr Hs. induction (filter _ rows) as [|x l IH]; [by apply not_elem_of_nil in Hf|].
  rewrite fmap_cons. cbn [foldr]. apply elem_of_cons in Hf as [->|Hf]; [lia|].
  specialize (IH Hf). lia.
Qed.

Lemma max_seq_attained sid rows r :
  r ∈ rows → or_surface_id r = sid → 0 ≤ or_seq r →
  ∃ r', r' ∈ rows ∧ or_surface_id r' = sid ∧ or_seq r' = max_seq sid rows.
Proof.
  intros Hr Hs H0. unfold max_seq.
  assert (0 ≤ foldr Z.max (-1) (or_seq <$> filter (λ r, or_surface_id r = sid) rows)) as Hpos.
  { pose proof (max_seq_ge sid rows r Hr Hs) as H1. unfold max_seq in H1. lia. }
  assert (∀ l, 0 ≤ foldr Z.max (-1) (or_seq <$> l) →
    ∃ r', r' ∈ l ∧ or_seq r' = foldr Z.max (-1) (or_seq <$> l)) as Hm.
  { induction l as [|x l IH]; [simpl; lia|]. rewrite fmap_cons. cbn [foldr]. intros Hp.
    destruct (Z.max_spec (or_seq x) (foldr Z.max (-1) (or_seq <$> l))) as [[? E]|[? E]];
      rewrite E in *.
    - destruct (IH Hp) as (r' & ? & ?). exists r'. split; [by right|done].
    - exists x. split; [left|done]. }
  destruct (Hm _ Hpos) as (r' & Hr' & E). apply list_elem_of_filter in Hr' as [? ?]. eauto.
Qed.

(** On rows with distinct positive keys, the rows compaction keeps are the last of their
    surface. *)
Lemma is_latest_last os rows o r :
  Forall2 (λ o r, observation_row (ob_seq o) o = Ok r) os rows →
  StronglySorted Z.lt (ob_seq <$> os) → Forall (λ o, 0 < ob_seq o) os →
  o ∈ os → r ∈ rows → observation_row (ob_seq o) o = Ok r →
  is_last os o ↔ is_latest rows r.
Proof.
  intros Hrep Hsrt Hpos Ho Hr Hor.
  assert (∀ o', o' ∈ os → ∃ r', r' ∈ rows ∧ or_seq r' = ob_seq o' ∧
            or_surface_id r' = surface_of o') as Hto.
  { intros o' Hin. apply list_elem_of_lookup in Hin as [i Hi].
    destruct (Forall2_lookup_l _ _ _ _ _ Hrep Hi) as (r' & Hr' & E).
    exists r'. split; [by eapply list_elem_of_lookup_2|].
    by apply observation_row_decode in E as (_ & ? & ?). }
  assert (∀ r', r' ∈ rows → ∃ o', o' ∈ os ∧ or_seq r' = ob_seq o' ∧
            or_surface_id r' = surface_of o') as Hfrom.
  { intros r' Hin. apply list_elem_of_lookup in Hin as [i Hi].
    destruct (Forall2_lookup_r _ _ _ _ _ Hrep Hi) as (o' & Ho' & E).
    exists o'. split; [by eapply list_elem_of_lookup_2|].
    by apply observation_row_decode in E as (_ & ? & ?). }
  assert (∀ o1 o2, o1 ∈ os → o2 ∈ os → ob_seq o1 = ob_seq o2 → o1 = o2) as Hinj.
  { intros o1 o2. by apply (NoDup_fmap_inj ob_seq), StronglySorted_NoDup. }
  apply observation_row_decode in Hor as (_ & Hseq & Hsid).
  rewrite Forall_forall in Hpos.
  unfold is_latest, is_last. rewrite list_elem_of_fmap, Forall_forall. split.
  - intros Hlast. exists r. split; [|done].
    destruct (max_seq_attained (or_surface_id r) rows r Hr eq_refl) as (r' & Hr' & Es & Em).
    { rewrite Hseq. specialize (Hpos _ Ho). lia. }
    destruct (Hfrom _ Hr') as (o' & Ho' & E1 & E2).
    assert (ob_seq o' ≤ ob_seq o) by (apply Hlast; [done|congruence]).
    pose proof (max_seq_ge _ _ r Hr eq_refl). rewrite Hsid in *. lia.
  - intros (r1 & Em & Hr1) o' Ho' Hs'.
    destruct (max_seq_attained (or_surface_id r1) rows r1 Hr1 eq_refl) as (r2 & Hr2 & Es & E2).
    { destruct (Hfrom _ Hr1) as (x & Hx & -> & _). specialize (Hpos _ Hx). lia. }
    destruct (Hfrom _ Hr2) as (o2 & Ho2 & Ea & Eb).
    assert (o2 = o) as -> by (apply Hinj; [done..|congruence]).
    destruct (Hto _ Ho') as (r' & Hr' & <- & Ec).
    rewrite <- Hseq, Em. apply max_seq_ge; [done|congruence].
Qed.

(** ** Operations *)

Lemma upsert_represents f s db a :
  represents db a →
  (∃ e, upsert_locked f s db = (db, Err e)) ∨
  ∃ db', upsert_locked f s db = (db', Ok tt) ∧ represents db' (ledger_step (LUpsert s) a) ∧
         observations_table db' = observations_table db.
Proof.
  intros [Ho Hs Hm Hi Hok]. unfold upsert_locked. rewrite st_bind_run. unfold st_lift.
  destruct (session_row s) as [row|] eqn:Er; [|by left; eauto].
  rewrite st_bind_run. unfold sql_try. destruct (fail_upsert f); [by left; eauto|].
  right. eexists. split; [done|]. split; [|done]. split; simpl; try done.
  - intros id. destruct (decide (id = as_id s)) as [->|Hne].
    + by rewrite !lookup_insert_eq.
    + rewrite !lookup_insert_ne by done. apply Hm.
  - by apply map_Forall_insert_2.
  - by destruct Hok.
Qed.

Lemma ledger_ok_append o a :
  ledger_ok a → lg_last a < i64_max → ledger_ok (ledger_step (LAppend o) a).
Proof.
  intros [Hs Hb Hl] Hlt. split; simpl; [|apply Forall_app; split|lia].
  - rewrite fmap_app. simpl.
    assert (Forall (λ x, x < lg_last a + 1) (ob_seq <$> lg_obs a)) as Hlt'.
    { apply Forall_fmap. eapply Forall_impl; [done|simpl; lia]. }
    clear -Hs Hlt'. induction Hs as [|x l _ IH Hx]; simpl; [repeat constructor|].
    apply Forall_cons in Hlt' as [? ?]. constructor; [auto|]. apply Forall_app; auto.
  - eapply Forall_impl; [done|simpl; lia].
  - repeat constructor; simpl; lia.
Qed.

Lemma append_represents f o db a :
  represents db a →
  (∃ e, append_observation f o db = (db, Err e)) ∨
  ∃ db', append_observation f o db = (db', Ok (lg_last a + 1)) ∧
         represents db' (ledger_step (LAppend o) a).
Proof.
  intros Hrep. pose proof Hrep as [Ho Hs Hm Hi Hok].
  unfold append_observation, transaction, insert_observation, st_bind, st_get, st_lift, sql_try,
    st_put, st_ret, st_err.
  destruct (fail_begin f); [by left; eauto|].
  destruct (observation_row _ o) as [row|] eqn:Er; [|by left; eauto].
  destruct (fail_insert f); [by left; eauto|].
  destruct (i64_max <=? db_seq db) eqn:Ei; [by left; eauto|]. bool_prop.
  assert (represents (mkDb (sessions db) (observations_table db ++ [row]) (db_seq db + 1) (layouts db))
            (mkLedger (lg_obs a ++ [numbered (lg_last a + 1) o]) (lg_sessions a) (lg_last a + 1)))
    as Hrep1.
  { split; simpl; try done.
    - apply Forall2_app; [done|]. constructor; [|constructor]. simpl. by rewrite <- Hs.
    - lia.
    - destruct (ledger_ok_append o a Hok) as [? ? ?]; [lia|]. by split. }
  destruct (ob_session o) as [s|] eqn:Es.
  - destruct (upsert_represents f s _ _ Hrep1) as [[e ->]|(db' & -> & Hr' & _)];
      [by left; eauto|]. destruct (fail_commit f); [by left; eauto|].
    right. exists db'. cbn [ledger_step]. rewrite Hs, Es. split; [done|exact Hr'].
  - destruct (fail_commit f); [by left; eauto|]. right.
    eexists. cbn [ledger_step]. rewrite Es, Hs in *. split; [done|exact Hrep1].
Qed.

Lemma compact_represents f db a :
  represents db a →
  (∃ e, compact_observations f db = (db, Err e)) ∨
  ∃ db' n, compact_observations f db = (db', Ok n) ∧ represents db' (ledger_step LCompact a) ∧
    n = (length (lg_obs a) - length (lg_obs (ledger_step LCompact a)))%nat.
Proof.
  intros [Ho Hs Hm Hi Hok]. unfold compact_observations, transaction.
  destruct (fail_begin f); [by left; eauto|].
  rewrite st_bind_run. unfold sql_try. destruct (fail_delete f); [by left; eauto|].
  rewrite st_bind_run. cbn [st_get]. rewrite st_bind_run. cbn [st_put st_ret].
  destruct (fail_commit f); [by left; eauto|]. right.
  assert (Forall2 (λ o r, observation_row (ob_seq o) o = Ok r)
    (filter (is_last (lg_obs a)) (lg_obs a))
    (filter (is_latest (observations_table db)) (observations_table db))) as Hf.
  { destruct Hok as [Hsrt Hb _]. apply Forall2_filter; [done|].
    intros o r Hin Hr Hor. eapply is_latest_last; try done.
    eapply Forall_impl; [done|simpl; lia]. }
  eexists _, _. split; [done|]. split.
  - split; simpl; try done. destruct Hok as [Hsrt Hb Hl]. split; cbn [ledger_step lg_obs lg_last];
      [by apply strongly_sorted_filter| |done].
    apply Forall_forall. intros x [_ Hx]%list_elem_of_filter. exact (proj1 (Forall_forall _ _) Hb x Hx).
  - cbn [ledger_step lg_obs]. by rewrite (Forall2_length _ _ _ Hf), (Forall2_length _ _ _ Ho).
Qed.

Lemma save_layout_frame f s db :
  (∃ e, save_layout f s db = (db, Err e)) ∨
  ∃ l, save_layout f s db = (mkDb (sessions db) (observations_table db) (db_seq db) l, Ok tt) ∧
    validate s = Ok tt ∧ ∃ t, to_json s = Some t ∧
    l = <[ly_id s := mkLayoutRow (ly_terminal s) (ly_captured_at s) t]> (layouts db).
Proof.
  unfold save_layout, transaction, json_or, ok_or, st_bind, st_lift, sql_try, st_mod.
  destruct (validate s) as [[]|]; [|by left; eauto]. destruct (fail_begin f); [by left; eauto|].
  destruct (to_json s) as [t|]; [|by left; eauto]. destruct (fail_upsert f); [by left; eauto|].
  destruct (fail_commit f); [by left; eauto|]. right. eauto 10.
Qed.

(** One operation: refused without a trace, or the abstract step. *)
Lemma store_exec_represents f op db a :
  represents db a →
  (store_exec f op db = (db, false)) ∨
  ∃ db', store_exec f op db = (db', true) ∧ represents db' (ledger_step op a).
Proof.
  intros Hrep. destruct op as [o|s| |s]; simpl.
  - destruct (append_represents f o _ _ Hrep) as [[e ->]|(db' & -> & ?)]; [by left|].
    right. eauto.
  - unfold upsert. destruct (upsert_represents f s _ _ Hrep) as [[e ->]|(db' & -> & ? & _)];
      [by left|]. right. eauto.
  - destruct (compact_represents f _ _ Hrep) as [[e ->]|(db' & n & -> & ? & _)]; [by left|].
    right. eauto.
  - destruct (save_layout_frame f s db) as [[e ->]|(l & -> & _)]; [by left|].
    right. eexists. split; [done|]. destruct Hrep as [? ? ? ? ?]. by split.
Qed.

(** A history of operations with the faults each of them met; the ledger takes the step
    exactly when the store reported success. *)
Fixpoint replay (hist : list (SqlFaults * ledger_op)) (x : Db * Ledger) : Db * Ledger :=
  match hist with
  | [] => x
  | (f, op) :: hist' =>
      let '(db', ok) := store_exec f op x.1 in
      replay hist' (db', if ok then ledger_step op x.2 else x.2)
  end.

Lemma represents_new : represents db_new ledger_new.
Proof.
  split; [constructor|done| |apply map_Forall_empty|split; [constructor|constructor|done]].
  intros id. cbn [lg_sessions ledger_new sessions db_new]. by rewrite !lookup_empty.
Qed.

Lemma replay_represents hist db a :
  represents db a → represents (replay hist (db, a)).1 (replay hist (db, a)).2.
Proof.
  revert db a. induction hist as [|[f op] hist IH]; intros db a Hr; [done|]. cbn [replay fst snd].
  destruct (store_exec_represents f op db a Hr) as [->|(db' & -> & Hr')]; by apply IH.
Qed.

Lemma observations_represents sid db a :
  represents db a →
  observations sql_ok sid db =
    (db, Ok (match sid with None => lg_obs a | Some i => filter (λ o, surface_of o = i) (lg_obs a) end)).
Proof.
  intros [Ho _ _ _ _]. unfold observations, st_bind, sql_try, st_get, st_lift. simpl. f_equal.
  destruct sid as [sid|]; apply collect_rows; [|done].
  apply Forall2_filter; [done|]. intros o r _ _ (_ & _ & E)%observation_row_decode.
  by rewrite E.
Qed.

Lemma get_represents id db a :
  represents db a → get sql_ok id db = (db, Ok (lg_sessions a !! id)).
Proof.
  intros [_ _ Hm Hi _]. unfold get. simpl. unfold st_bind, sql_try, st_get. simpl.
  specialize (Hm id). destruct (lg_sessions a !! id) as [s|] eqn:E, (sessions db !! id) as [r|];
    simpl in Hm; try done.
  apply Hi in E. subst id. unfold st_lift. by rewrite (session_row_decode _ _ Hm).
Qed.
End refinement.

(** C16: the store implements the ledger. Start from an empty database and let any sequence of
    appends, upserts, compactions and layout saves meet any failures of SQL statements,
    commits or serialization: an operation that reports an error has left the tables as they
    were, and after every prefix reading the observations of all or of one surface, and looking
    a session up, give exactly what the abstract ledger, which took only the successful
    steps, holds. *)
Theorem store_refines_ledger
    `{JsonLaws ResumeRecipe, JsonLaws ResolutionConfidence, JsonLaws SessionState,
      JsonLaws SurfaceRecord, JsonLaws AgentSession, JsonLaws SurfaceCapabilities,
      JsonLaws ObservationKind, Json LayoutSnapshot} hist f op sid id :
  let '(db, a) := replay hist (db_new, ledger_new) in
  observations sql_ok sid db =
    (db, Ok (match sid with None => lg_obs a | Some i => filter (λ o, surface_of o = i) (lg_obs a) end)) ∧
  get sql_ok id db = (db, Ok (lg_sessions a !! id)) ∧
  (store_exec f op db = (db, false) ∨ (store_exec f op db).2 = true) ∧
  StronglySorted Z.lt (ob_seq <$> lg_obs a) ∧ Forall (λ o, ob_seq o ≤ lg_last a) (lg_obs a).
Proof.
  pose proof (replay_represents hist _ _ represents_new) as Hrep.
  destruct (replay hist _) as [db a]. simpl in Hrep. split_and!.
  - by apply observations_represents.
  - by apply get_represents.
  - destruct (store_exec_represents f op db a Hrep) as [?|(db' & -> & _)]; [by left|by right].
  - by destruct Hrep as [_ _ _ _ [? _ _]].
  - destruct Hrep as [_ _ _ _ [_ Hb _]]. eapply Forall_impl; [done|simpl; lia].
Qed.

(** * The recovery plan *)

Section planning.
Variable parse_ts : string → option Z.
Variable now max_age : Z.
Local Notation fresh_at := (fresh_at parse_ts now max_age).
Local Notation latest := (latest parse_ts now max_age).

(** [o] is the newest fresh observation of its surface in [l]. *)
Definition newest (l : list SessionObservation) (t : Z) (o : SessionObservation) : Prop :=
  o ∈ l ∧ fresh_at o = Some t ∧
  ∀ o' t', o' ∈ l → surface_of o' = surface_of o → fresh_at o' = Some t' →
    t' < t ∨ (t' = t ∧ ob_seq o' ≤ ob_seq o).

Lemma latest_snoc l o : latest (l ++ [o]) = latest_step parse_ts now max_age (latest l) o.
Proof. unfold SessionLedger.latest. by rewrite foldl_app. Qed.

Lemma newest_keep l x t o :
  newest l t o →
  (fresh_at x = None ∨ surface_of x ≠ surface_of o ∨ ∃ t', fresh_at x = Some t' ∧ t' < t) →
  newest (l ++ [x]) t o.
Proof.
  intros (Hin & Hf & Hmax) Hcase. split; [set_solver|split; [done|]].
  intros o' t' [Ho'|Ho'%list_elem_of_singleton]%elem_of_app Hs' Hf'; [by apply Hmax|].
  subst o'.
  destruct Hcase as [?|[?|(t'' & ? & ?)]]; [congruence..|].
  left. assert (t' = t'') by congruence. lia.
Qed.

Lemma newest_new l x t :
  fresh_at x = Some t → (∀ o, o ∈ l → ob_seq o < ob_seq x) →
  (∀ o' t', o' ∈ l → surface_of o' = surface_of x → fresh_at o' = Some t' → t' ≤ t) →
  newest (l ++ [x]) t x.
Proof.
  intros Hf Hx Hall. split; [set_solver|split; [done|]].
  intros o' t' [Ho'|Ho'%list_elem_of_singleton]%elem_of_app Hs' Hf';
    [|subst o'; right; split; [congruence|lia]].
  specialize (Hx _ Ho'). specialize (Hall _ _ Ho' Hs' Hf'). lia.
Qed.

Lemma latest_step_other m x sid :
  surface_of x ≠ sid → latest_step parse_ts now max_age m x !! sid = m !! sid.
Proof.
  intros Hne. unfold latest_step. fold (surface_of x).
  repeat case_match; try done; by rewrite lookup_insert_ne.
Qed.

(** With a larger number, being newer is having a timestamp at least as large. *)
Lemma newer_leb t q t' q' : q' < q → newer t q t' q' = (t' <=? t).
Proof.
  intros Hq. unfold newer. destruct (Z.ltb_spec t' t), (Z.eqb_spec t' t), (Z.leb_spec t' t),
    (Z.ltb_spec q' q); simpl; lia || done.
Qed.

(** What the map says of one surface. *)
Definition latest_says (l : list SessionObservation) (sid : string)
    (v : option (Z * SessionObservation)) : Prop :=
  match v with
  | None => ∀ o, o ∈ l → surface_of o = sid → fresh_at o = None
  | Some (t, o) => surface_of o = sid ∧ newest l t o
  end.

Lemma latest_says_step l m x :
  (∀ o, o ∈ l → ob_seq o < ob_seq x) → latest_says l (surface_of x) (m !! surface_of x) →
  latest_says (l ++ [x]) (surface_of x) (latest_step parse_ts now max_age m x !! surface_of x).
Proof.
  intros Hx IH. unfold latest_step. fold (surface_of x).
  destruct (fresh_at x) as [t|] eqn:Hf, (m !! surface_of x) as [[t' o']|] eqn:E; simpl in IH.
  - destruct IH as [Hso Hn]. pose proof Hn as (Hin & Hfo & Hmax).
    rewrite newer_leb by auto. destruct (t' <=? t) eqn:Et; bool_prop.
    + rewrite lookup_insert_eq. split; [done|]. apply newest_new; [done..|].
      intros o2 t2 Ho2 Hs2 Hf2. destruct (Hmax o2 t2 Ho2) as [?|[? ?]]; [congruence|done|lia..].
    + rewrite E. split; [done|]. apply newest_keep; [done|]. eauto.
  - rewrite lookup_insert_eq. split; [done|]. apply newest_new; [done..|].
    intros o2 t2 Ho2 Hs2 Hf2. rewrite (IH o2) in Hf2; done.
  - destruct IH. split; [done|]. apply newest_keep; auto.
  - intros o [Ho|Ho%list_elem_of_singleton]%elem_of_app Hso; [by apply IH|by subst o].
Qed.

(** Later observations have larger numbers, so the fold keeps the newest. *)
Lemma latest_lookup l sid :
  StronglySorted Z.lt (ob_seq <$> l) → latest_says l sid (latest l !! sid).
Proof.
  induction l as [|x l IH] using rev_ind; intros Hs.
  { unfold SessionLedger.latest. cbn [foldl]. rewrite lookup_empty. intros o []%not_elem_of_nil. }
  rewrite fmap_app in Hs. apply sorted_snoc_inv in Hs as [Hl Hx]. specialize (IH Hl).
  rewrite latest_snoc. destruct (decide (surface_of x = sid)) as [<-|Hne].
  - apply latest_says_step; [|done]. intros o Ho.
    apply (proj1 (Forall_forall _ _) Hx). by apply list_elem_of_fmap_2.
  - rewrite latest_step_other by done. destruct (latest l !! sid) as [[t o]|]; simpl in *.
    + destruct IH as [<- ?]. split; [done|]. apply newest_keep; auto.
    + intros o [Ho|Ho%list_elem_of_singleton]%elem_of_app Hso; [by apply IH|by subst o].
Qed.

(** ** From the newest observations to the plan *)

Lemma plan_fold_lookup (l : list (Z * SessionObservation)) acc id x :
  map_Forall (λ i s, as_id s = i) acc →
  foldl plan_add acc l !! id = Some x →
  as_id x = id ∧ (acc !! id = Some x ∨ ∃ y, y ∈ l ∧ recoverable y.2 = Some x).
Proof.
  revert acc. induction l as [|y l IH]; intros acc Hacc Hx; simpl in Hx.
  { split; [by apply Hacc in Hx|by left]. }
  unfold plan_add at 2 in Hx. destruct (recoverable y.2) as [s|] eqn:Ey.
  - destruct (IH (<[as_id s := s]> acc)) as [Hid [Hl|(z & ? & ?)]]; [by apply map_Forall_insert_2|done|..].
    + split; [done|]. destruct (decide (as_id s = id)) as [<-|Hne].
      * rewrite lookup_insert_eq in Hl. injection Hl as ->. right. exists y. set_solver.
      * rewrite lookup_insert_ne in Hl by done. by left.
    + split; [done|right]. exists z. set_solver.
  - destruct (IH acc Hacc Hx) as [Hid [Hl|(z & ? & ?)]]; [by auto|]. split; [done|right].
    exists z. set_solver.
Qed.

Lemma plan_fold_has (l : list (Z * SessionObservation)) acc id :
  is_Some (acc !! id) ∨ (∃ y s, y ∈ l ∧ recoverable y.2 = Some s ∧ as_id s = id) →
  is_Some (foldl plan_add acc l !! id).
Proof.
  revert acc. induction l as [|y l IH]; intros acc Hc; simpl.
  { destruct Hc as [?|(y & s & []%not_elem_of_nil & _)]. done. }
  apply IH. destruct Hc as [Ha|(z & s & [->|Hz]%elem_of_cons & Hr & Hid)].
  - left. unfold plan_add. destruct (recoverable y.2) as [s|]; [|done].
    destruct (decide (as_id s = id)) as [<-|?]; [by rewrite lookup_insert_eq|by rewrite lookup_insert_ne].
  - left. unfold plan_add. rewrite Hr, Hid. by rewrite lookup_insert_eq.
  - right. eauto.
Qed.

Lemma elem_of_plan m x :
  x ∈ btree_values (plan_of m) ↔ plan_of m !! as_id x = Some x.
Proof.
  rewrite elem_of_btree_values. split; [|eauto]. intros [id Hid].
  destruct (plan_fold_lookup (btree_values m) ∅ id x) as [-> _]; [apply map_Forall_empty|done..].
Qed.

(** The plan of a map of newest observations. *)
Lemma plan_of_sound m x :
  x ∈ btree_values (plan_of m) → ∃ sid t o, m !! sid = Some (t, o) ∧ recoverable o = Some x.
Proof.
  intros Hx%elem_of_plan.
  destruct (plan_fold_lookup (btree_values m) ∅ _ _ (map_Forall_empty _) Hx) as [_ [He|([t o] & Hy & Hr)]].
  - by rewrite lookup_empty in He.
  - apply elem_of_btree_values in Hy as [sid ?]. eauto.
Qed.

Lemma plan_of_complete m sid t o x :
  m !! sid = Some (t, o) → recoverable o = Some x →
  ∃ y, y ∈ btree_values (plan_of m) ∧ as_id y = as_id x.
Proof.
  intros Hm Hr. destruct (plan_fold_has (btree_values m) ∅ (as_id x)) as [y Hy].
  { right. exists (t, o), x. split; [|done]. apply elem_of_btree_values. eauto. }
  destruct (plan_fold_lookup (btree_values m) ∅ _ _ (map_Forall_empty _) Hy) as [Hid _].
  exists y. split; [|done]. apply elem_of_plan. by rewrite Hid.
Qed.

Lemma plan_ids_NoDup m : NoDup (as_id <$> btree_values (plan_of m)).
Proof.
  assert (as_id <$> btree_values (plan_of m) = (btree_entries (plan_of m)).*1) as ->.
  { unfold btree_values. rewrite <- list_fmap_compose. apply list_fmap_ext. intros i [id x] Hx.
    apply list_elem_of_lookup_2 in Hx. rewrite btree_entries_perm in Hx.
    apply elem_of_map_to_list in Hx.
    by destruct (plan_fold_lookup (btree_values m) ∅ id x (map_Forall_empty _) Hx). }
  rewrite btree_entries_perm. apply NoDup_fst_map_to_list.
Qed.

(** ** Compaction *)

(** Every timestamp parses, none is in the future, and time does not run backwards along
    the observations of a surface. *)
Definition timely (l : list SessionObservation) : Prop :=
  (∀ o, o ∈ l → ∃ t, parse_ts (ob_observed_at o) = Some t ∧ t ≤ now) ∧
  (∀ o o' t t', o ∈ l → o' ∈ l → surface_of o = surface_of o' → ob_seq o ≤ ob_seq o' →
     parse_ts (ob_observed_at o) = Some t → parse_ts (ob_observed_at o') = Some t' → t ≤ t').

Lemma fresh_at_Some o t :
  fresh_at o = Some t ↔ parse_ts (ob_observed_at o) = Some t ∧ now - max_age ≤ t ≤ now.
Proof.
  unfold SessionLedger.fresh_at. destruct (parse_ts _) as [t'|]; [|naive_solver].
  destruct (now <? t') eqn:E1; [|destruct (t' <? now - max_age) eqn:E2]; bool_prop;
    split; try done; try (intros [[= ->] ?]; lia).
  - intros [= ->]. split; [done|lia].
  - by intros [[= ->] _].
Qed.

Lemma newest_is_last l t o : timely l → newest l t o → is_last l o.
Proof.
  intros [Hparse Hmono] (Hin & Hf & Hmax). apply Forall_forall. intros o' Ho' Hs.
  destruct (Hparse _ Ho') as (t' & Hp' & Hn').
  destruct (Z.le_gt_cases (ob_seq o') (ob_seq o)) as [?|Hgt]; [done|].
  pose proof (proj1 (fresh_at_Some o t) Hf) as [Hp [Hc _]].
  pose proof (Hmono o o' t t' Hin Ho' (eq_sym Hs) ltac:(lia) Hp Hp') as Hle.
  destruct (Hmax o' t' Ho' Hs) as [?|[_ ?]]; [apply fresh_at_Some; split; [done|lia]|lia..].
Qed.

Lemma latest_compact l :
  StronglySorted Z.lt (ob_seq <$> l) → timely l →
  latest (filter (is_last l) l) = latest l.
Proof.
  intros Hsrt Ht. apply map_eq. intros sid.
  pose proof (latest_lookup _ sid Hsrt) as H1.
  pose proof (latest_lookup _ sid (strongly_sorted_filter ob_seq (is_last l) l Hsrt)) as H2.
  destruct (latest l !! sid) as [[t o]|], (latest (filter _ l) !! sid) as [[t2 o2]|]; simpl in *;
    [| | |done].
  - destruct H1 as [Hs1 Hn1], H2 as [Hs2 ([Hl2 Hin2]%list_elem_of_filter & Hf2 & _)].
    pose proof (newest_is_last _ _ _ Ht Hn1) as Hl1. destruct Hn1 as (Hin1 & Hf1 & _).
    pose proof (proj1 (Forall_forall _ _) Hl1 _ Hin2 ltac:(congruence)).
    pose proof (proj1 (Forall_forall _ _) Hl2 _ Hin1 ltac:(congruence)).
    assert (o2 = o) as ->.
    { apply (NoDup_fmap_inj ob_seq l); [by apply StronglySorted_NoDup|done..|lia]. }
    congruence.
  - destruct H1 as [Hs1 Hn1]. pose proof (newest_is_last _ _ _ Ht Hn1).
    destruct Hn1 as (Hin1 & Hf1 & _). rewrite (H2 o) in Hf1; [done|by apply list_elem_of_filter|done].
  - destruct H2 as [Hs2 ([_ Hin2]%list_elem_of_filter & Hf2 & _)]. by rewrite (H1 o2) in Hf2.
Qed.
End planning.

Lemma recovery_plan_represents
    `{JsonLaws ResumeRecipe, JsonLaws ResolutionConfidence, JsonLaws SessionState,
      JsonLaws SurfaceRecord, JsonLaws AgentSession, JsonLaws SurfaceCapabilities,
      JsonLaws ObservationKind} parse_ts now max_age db a :
  represents db a → 0 < max_age →
  recovery_plan sql_ok parse_ts now max_age db =
    (db, Ok (btree_values (plan_of (latest parse_ts now max_age (lg_obs a))))).
Proof.
  intros Hrep Ha. unfold recovery_plan. rewrite (proj2 (Z.leb_gt _ _)) by lia.
  rewrite st_bind_run. by rewrite (observations_represents None _ _ Hrep).
Qed.

(** The recovery plan. For a positive age limit, the plan of a store with any history has
    distinct session identities; each of its sessions comes from the newest observation of a
    surface among those with a well-formed timestamp that is neither in the future nor older
    than the limit, that observation is no exit, and the session can be resumed unattended;
    and no such session is missing, up to another surface showing the same identity. *)
Theorem recovery_plan_exact
    `{JsonLaws ResumeRecipe, JsonLaws ResolutionConfidence, JsonLaws SessionState,
      JsonLaws SurfaceRecord, JsonLaws AgentSession, JsonLaws SurfaceCapabilities,
      JsonLaws ObservationKind, Json LayoutSnapshot} parse_ts now max_age hist db a :
  replay hist (db_new, ledger_new) = (db, a) → 0 < max_age →
  ∃ plan, recovery_plan sql_ok parse_ts now max_age db = (db, Ok plan) ∧
    NoDup (as_id <$> plan) ∧
    (∀ s, s ∈ plan → ∃ t o, newest parse_ts now max_age (lg_obs a) t o ∧
       ob_kind o ≠ ObsExited ∧ ob_session o = Some s ∧ auto_resumable s = true) ∧
    (∀ t o s, newest parse_ts now max_age (lg_obs a) t o → ob_kind o ≠ ObsExited →
       ob_session o = Some s → auto_resumable s = true → ∃ s', s' ∈ plan ∧ as_id s' = as_id s).
Proof.
  intros Hr Ha. pose proof (replay_represents hist _ _ represents_new) as Hrep. rewrite Hr in Hrep.
  simpl in Hrep. pose proof (lo_sorted _ (rp_ok _ _ Hrep)) as Hsrt.
  eexists. split; [by apply recovery_plan_represents|].
  split; [apply plan_ids_NoDup|]. split.
  - intros s (sid & t & o & Hl & Hrc)%plan_of_sound.
    pose proof (latest_lookup parse_ts now max_age _ sid Hsrt) as Hn. rewrite Hl in Hn.
    destruct Hn as [_ Hn]. exists t, o. split; [done|]. unfold recoverable in Hrc.
    repeat case_match; bool_prop; naive_solver.
  - intros t o s Hn Hk Hs Hres.
    pose proof (latest_lookup parse_ts now max_age _ (surface_of o) Hsrt) as Hl.
    destruct (latest _ _ _ _ !! surface_of o) as [[t' o']|] eqn:E; simpl in Hl.
    + destruct Hl as [Hso (Hin' & Hf' & Hmax')]. destruct Hn as (Hin & Hf & Hmax).
      assert (o' = o) as ->.
      { apply (NoDup_fmap_inj ob_seq (lg_obs a)); [by apply StronglySorted_NoDup|done..|].
        specialize (Hmax _ _ Hin' Hso Hf'). specialize (Hmax' _ _ Hin (eq_sym Hso) Hf). lia. }
      eapply plan_of_complete; [done|]. unfold recoverable.
      by rewrite bool_decide_false, Hs, Hres.
    + destruct Hn as (Hin & Hf & _). by rewrite (Hl o) in Hf.
Qed.

(** Compaction does not change what is recovered, as long as the recorded timestamps
    parse, are not in the future and do not decrease along a surface: the plan for any age
    limit is the same before and after. *)
Theorem compaction_preserves_plan
    `{JsonLaws ResumeRecipe, JsonLaws ResolutionConfidence, JsonLaws SessionState,
      JsonLaws SurfaceRecord, JsonLaws AgentSession, JsonLaws SurfaceCapabilities,
      JsonLaws ObservationKind, Json LayoutSnapshot} parse_ts now max_age f hist db a db' n :
  replay hist (db_new, ledger_new) = (db, a) → timely parse_ts now (lg_obs a) → 0 < max_age →
  compact_observations f db = (db', Ok n) →
  ∃ plan, recovery_plan sql_ok parse_ts now max_age db = (db, Ok plan) ∧
          recovery_plan sql_ok parse_ts now max_age db' = (db', Ok plan).
Proof.
  intros Hr Ht Ha Hc. pose proof (replay_represents hist _ _ represents_new) as Hrep.
  rewrite Hr in Hrep. simpl in Hrep. pose proof (lo_sorted _ (rp_ok _ _ Hrep)) as Hsrt.
  destruct (compact_represents f _ _ Hrep) as [[e He]|(db2 & m & He & Hrep2 & _)];
    rewrite Hc in He; [done|]. injection He as <- <-.
  eexists. split; [by apply recovery_plan_represents|].
  rewrite (recovery_plan_represents _ _ _ _ _ Hrep2 Ha). cbn [ledger_step lg_obs].
  by rewrite latest_compact.
Qed.

(** * Layouts *)

Definition non_blank (s : string) : Prop := str_is_empty (trim s) = false.

(** A pane tree: binary splits with a ratio in thousandths strictly between 0 and 1000. *)
Inductive layout_tree : LayoutNode → Prop :=
| tree_pane sid : non_blank sid → layout_tree (Pane sid)
| tree_split ax r a b : 1 ≤ r ≤ 999 → layout_tree a → layout_tree b → layout_tree (Split ax r [a; b]).

Fixpoint panes (n : LayoutNode) : list string :=
  match n with
  | Pane sid => [sid]
  | Split _ _ children => flat_map panes children
  end.

(** Induction with the hypothesis for every child. *)
Fixpoint layout_node_ind' (P : LayoutNode → Prop) (Hp : ∀ sid, P (Pane sid))
    (Hs : ∀ ax r cs, Forall P cs → P (Split ax r cs)) (n : LayoutNode) : P n :=
  match n with
  | Pane sid => Hp sid
  | Split ax r cs =>
      Hs ax r cs ((fix go l : Forall P l :=
        match l with
        | [] => Forall_nil_2 P
        | c :: l' => Forall_cons_2 P c l' (layout_node_ind' P Hp Hs c) (go l')
        end) cs)
  end.

Lemma validate_node_spec n : ∀ used used',
  validate_node n used = Ok used' ↔
  layout_tree n ∧ NoDup (panes n) ∧ (∀ x, x ∈ panes n → x ∉ used) ∧
  used' = list_to_set (panes n) ∪ used.
Proof.
  induction n as [sid|ax r cs IHs] using layout_node_ind'; intros used used'.
  - simpl. unfold non_blank. destruct (str_is_empty (trim sid)) eqn:E1.
    { split; [done|]. intros (Ht & _). inversion Ht. unfold non_blank in *. congruence. }
    case_bool_decide as Hin.
    { split; [done|]. intros (_ & _ & Hu & _). by destruct (Hu sid ltac:(left)). }
    split.
    + intros [= <-]. split_and!; [by constructor|apply NoDup_singleton|set_solver|set_solver].
    + intros (_ & _ & _ & ->). f_equal. set_solver.
  - cbn [validate_node]. destruct ((1 <=? r) && (r <=? 999)) eqn:Er; simpl.
    2: { split; [done|]. intros (Ht & _). inversion Ht; subst. apply andb_false_iff in Er.
         destruct Er; bool_prop; lia. }
    bool_prop. destruct cs as [|a [|b [|c cs]]].
    1,2,4: split; [done|]; intros (Ht & _); inversion Ht.
    apply Forall_cons in IHs as [IHa [IHb _]%Forall_cons].
    simpl. rewrite app_nil_r. destruct (validate_node a used) as [u1|] eqn:Ea; simpl.
    + apply IHa in Ea as (Ha & Hna & Hua & ->). rewrite IHb, NoDup_app, list_to_set_app_L. split.
      * intros (Hb & Hnb & Hub & ->).
        split_and!; [by constructor|done|set_solver|done|set_solver|set_solver].
      * intros (Ht & (_ & Hd & Hnb) & Hu & ->). inversion Ht; subst.
        split_and!; [done|done|set_solver|set_solver].
    + split; [done|]. intros (Ht & (Hna & _)%NoDup_app & Hu & ->). inversion Ht; subst.
      assert (validate_node a used = Ok (list_to_set (panes a) ∪ used)); [|congruence].
      apply IHa. split_and!; [done..|set_solver|done].
Qed.

(** Only well-formed layouts are stored, and they come back. A snapshot passes validation
    exactly when its identifier and terminal are not blank and its tree consists of binary
    splits with ratios in range over distinct non-blank panes; a successful save is then
    read back unchanged under its identifier, and a refused one leaves the store as it was. *)
Theorem layout_saved_iff_valid `{JsonLaws LayoutSnapshot} f s db :
  (validate s = Ok tt ↔
     non_blank (ly_id s) ∧ non_blank (ly_terminal s) ∧
     layout_tree (ly_root s) ∧ NoDup (panes (ly_root s))) ∧
  ((∃ e, save_layout f s db = (db, Err e)) ∨
   ∃ db', save_layout f s db = (db', Ok tt) ∧ validate s = Ok tt ∧
     get_layout sql_ok (ly_id s) db' = (db', Ok (Some s))).
Proof.
  split.
  - unfold validate, non_blank. destruct (str_is_empty (trim (ly_id s))); [naive_solver|].
    destruct (str_is_empty (trim (ly_terminal s))); [naive_solver|].
    destruct (validate_node (ly_root s) ∅) as [u|] eqn:E; simpl.
    + apply validate_node_spec in E. naive_solver.
    + split; [done|]. intros (_ & _ & Ht & Hn).
      assert (validate_node (ly_root s) ∅ = Ok (list_to_set (panes (ly_root s)) ∪ ∅)); [|congruence].
      apply validate_node_spec. split_and!; [done..|set_solver|done].
  - destruct (save_layout_frame f s db) as [He|(l & Hs & Hv & t & Ht & ->)]; [by left|right].
    eexists. split; [done|]. split; [done|]. unfold get_layout, st_bind, sql_try, st_get. simpl.
    rewrite lookup_insert_eq. unfold st_lift, layout_of_row, json_or. simpl.
    by rewrite (json_roundtrip _ _ Ht).
Qed.

(** * Concrete stores *)

Module Demo.
Definition session : AgentSession := codex "7" "/w".
Definition caps : SurfaceCapabilities := mkCaps true true true false true.

(** Tables that serialize the values used below. *)
#[export] Instance j_resume : Json ResumeRecipe := table_json [(as_resume session, "r")].
#[export] Instance j_conf : Json ResolutionConfidence :=
  table_json [(Exact, "e"); (Corroborated, "c"); (Heuristic, "h"); (Unavailable, "u")].
#[export] Instance j_state : Json SessionState :=
  table_json [(Pending, "p"); (Active, "a"); (Exited, "e"); (Unknown, "u")].
#[export] Instance j_surface : Json SurfaceRecord := table_json [(demo_surface, "s")].
#[export] Instance j_session : Json AgentSession := table_json [(session, "s")].
#[export] Instance j_caps : Json SurfaceCapabilities := table_json [(caps, "c")].
#[export] Instance j_kind : Json ObservationKind :=
  table_json [(Discovered, "d"); (Updated, "u"); (ObsExited, "e"); (Recovered, "r")].

Ltac table_laws := apply table_json_laws; [vm_compute; repeat constructor; set_solver
                                          |repeat constructor; by vm_compute].
#[export] Instance l_resume : JsonLaws ResumeRecipe.
Proof. table_laws. Qed.
#[export] Instance l_conf : JsonLaws ResolutionConfidence.
Proof. table_laws. Qed.
#[export] Instance l_state : JsonLaws SessionState.
Proof. table_laws. Qed.
#[export] Instance l_surface : JsonLaws SurfaceRecord.
Proof. table_laws. Qed.
#[export] Instance l_session : JsonLaws AgentSession.
Proof. table_laws. Qed.
#[export] Instance l_caps : JsonLaws SurfaceCapabilities.
Proof. table_laws. Qed.
#[export] Instance l_kind : JsonLaws ObservationKind.
Proof. table_laws. Qed.

Definition obs (at_ : string) (k : ObservationKind) : SessionObservation :=
  observation_new at_ demo_surface (Some session) caps k.

(** Timestamps as decimal instants. *)
Definition parse (s : string) : option Z := parse_uint u64_max s.

Definition append (at_ : string) : SqlFaults * ledger_op := (sql_ok, LAppend (obs at_ Updated)).
Definition lost : SqlFaults * ledger_op :=
  (mkSqlFaults None None None None (Some "disk I/O error") None, LAppend (obs "5" Updated)).
End Demo.

Section demo.
Import Demo.
#[local] Instance j_layout : Json LayoutSnapshot := mkJson _ (λ _, None) (λ _, None).

Lemma store_refines_ledger_witness :
  let '(db, a) := replay [append "3"; lost; append "4"] (db_new, ledger_new) in
  observations sql_ok None db = (db, Ok (lg_obs a)) ∧ length (lg_obs a) = 2%nat.
Proof.
  exact (conj (proj1 (store_refines_ledger [append "3"; lost; append "4"] sql_ok LCompact None "x"))
              eq_refl).
Defined.

Definition demo_state : Db * Ledger := replay [append "3"; append "4"] (db_new, ledger_new).

Lemma recovery_plan_exact_witness :
  ∃ plan, recovery_plan sql_ok parse 9 5 demo_state.1 = (demo_state.1, Ok plan) ∧
    NoDup (as_id <$> plan).
Proof.
  destruct (recovery_plan_exact parse 9 5 [append "3"; append "4"] demo_state.1 demo_state.2)
    as (plan & Hp & Hn & _).
  - apply surjective_pairing.
  - done.
  - exists plan. split; [exact Hp|exact Hn].
Defined.

Lemma demo_timely : timely parse 9 (lg_obs demo_state.2).
Proof.
  assert (lg_obs demo_state.2 = [numbered 1 (obs "3" Updated); numbered 2 (obs "4" Updated)]) as ->
    by by vm_compute.
  split.
  - intros o [->|[->|[]%not_elem_of_nil]%elem_of_cons]%elem_of_cons; eexists; (split; [by vm_compute|lia]).
  - intros o o' t t' [->|[->|[]%not_elem_of_nil]%elem_of_cons]%elem_of_cons
      [->|[->|[]%not_elem_of_nil]%elem_of_cons]%elem_of_cons _ Hle;
      vm_compute; intros [= <-] [= <-]; try done; by vm_compute in Hle.
Qed.

Lemma compaction_preserves_plan_witness :
  let db' := (compact_observations sql_ok demo_state.1).1 in
  ∃ plan, recovery_plan sql_ok parse 9 5 demo_state.1 = (demo_state.1, Ok plan) ∧
          recovery_plan sql_ok parse 9 5 db' = (db', Ok plan).
Proof.
  intros db'. apply (compaction_preserves_plan parse 9 5 sql_ok [append "3"; append "4"]
    demo_state.1 demo_state.2 db' 1%nat).
  - apply surjective_pairing.
  - apply demo_timely.
  - done.
  - rewrite (surjective_pairing (compact_observations sql_ok demo_state.1)).
    by f_equal.
Defined.

(** When a later observation carries an older timestamp, compaction, which keeps the largest
    number, discards the observation the plan was built on. *)
Lemma compaction_can_lose_a_session :
  let db := (replay [append "8"; append "1"] (db_new, ledger_new)).1 in
  let db' := (compact_observations sql_ok db).1 in
  (recovery_plan sql_ok parse 9 5 db).2 = Ok [session] ∧
  (recovery_plan sql_ok parse 9 5 db').2 = Ok [].
Proof. split; by vm_compute. Qed.
End demo.

Definition demo_layout : LayoutSnapshot :=
  mkSnapshot "l" "zmx" "now" (Split Vertical 500 [Pane "a"; Split Horizontal 1 [Pane "b"; Pane "c"]]).

(** A snapshot's JSON is fixed text here; decoding recognises it. *)
Definition demo_layout_json : Json LayoutSnapshot := {|
  to_json s := match ly_root s with
               | Split Vertical 500 [Pane "a"; Split Horizontal 1 [Pane "b"; Pane "c"]] =>
                   if bool_decide (ly_id s = "l" ∧ ly_terminal s = "zmx" ∧ ly_captured_at s = "now")
                   then Some "x" else None
               | _ => None
               end;
  from_json t := if bool_decide (t = "x") then Some demo_layout else None;
|}.

Lemma demo_layout_laws : @JsonLaws LayoutSnapshot demo_layout_json.
Proof.
  assert (∀ s t, @to_json _ demo_layout_json s = Some t → s = demo_layout ∧ t = "x") as Hs.
  { intros [i te c r] t. simpl. repeat case_match; try done. case_bool_decide; [|done].
    intros [= <-]. subst. naive_solver. }
  split; intros s t [-> ->]%Hs; by vm_compute.
Qed.

Lemma layout_saved_iff_valid_witness :
  ∃ db', @save_layout demo_layout_json sql_ok demo_layout db_new = (db', Ok tt) ∧
    @get_layout demo_layout_json sql_ok "l" db' = (db', Ok (Some demo_layout)).
Proof.
  destruct (proj2 (@layout_saved_iff_valid demo_layout_json demo_layout_laws sql_ok demo_layout db_new))
    as [[e He]|(db' & Hs & _ & Hg)].
  - exfalso. by vm_compute in He.
  - exists db'. split; [exact Hs|exact Hg].
Defined.
