(* ===== verification/SessionDiscovery.v ===== *)
(** The discovery pass ([sharecli-session/src/discovery.rs], [adapter.rs]): the surfaces an
    adapter reports are resolved against the state provider and their command lines and
    appended to the ledger, one observation each. *)
From S2P Require Import Prelude Sessions SessionLedger.

(** * Interfaces and their implementations *)

Class SurfaceAdapter (A : Type) : Type := mkAdapter {
  capabilities : A → SurfaceRecord → result SurfaceCapabilities string;
  discover : A → result (list SurfaceRecord) string;
}.

Class SessionStateProvider (S : Type) : Type :=
  session_id : S → SurfaceRecord → string → result (option string) string.

Record GhosttySurfaceAdapter : Type := mkGhostty { native_rpc : bool; apple_events : bool }.

#[global] Instance ghostty_adapter : SurfaceAdapter GhosttySurfaceAdapter := {
  capabilities g _ :=
    Ok (mkCaps (native_rpc g) (native_rpc g || apple_events g) (native_rpc g || apple_events g)
          (native_rpc g || apple_events g) false);
  discover g :=
    if negb (native_rpc g) && negb (apple_events g)
    then Err "Ghostty surface discovery unavailable: native transport not configured"
    else Ok [];
}.

Record ZmxSurfaceAdapter : Type := mkZmx { available : bool; surfaces : list SurfaceRecord }.

#[global] Instance zmx_adapter : SurfaceAdapter ZmxSurfaceAdapter := {
  capabilities z _ := Ok (mkCaps (available z) (available z) (available z) false (available z));
  discover z := Ok (surfaces z);
}.

Inductive NoStateProvider : Type := NoState.
#[global] Instance no_state_provider : SessionStateProvider NoStateProvider :=
  λ _ _ _, Ok None.

Record MapStateProvider : Type := mkMapState { ids : gmap string string }.
Definition map_state_insert (surface_id session_id : string) (m : MapStateProvider)
  : MapStateProvider := mkMapState (<[surface_id := session_id]> (ids m)).
#[global] Instance map_state_provider : SessionStateProvider MapStateProvider :=
  λ m surface _, Ok (ids m !! sf_id surface).

(** The sidecar file as its text. *)
Record SidecarStateProvider : Type := mkSidecarState { sidecar_text : string }.
#[global] Instance sidecar_state_provider `{Json SidecarRecord}
  : SessionStateProvider SidecarStateProvider :=
  λ p surface harness,
    match records (sidecar_text p) with
    | Err n => Err ("parse sidecar line " +:+ show_u n)
    | Ok rs => Ok (sidecar_session_id rs surface harness)
    end.

(** * The pass *)

Record DiscoveryFailure : Type := mkFailure { df_surface_id : string; df_error : string }.

Record DiscoveryResult : Type := mkResult {
  dr_surface_id : string;
  dr_harness : option string;
  dr_session_id : option string;
  dr_kind : ObservationKind;
  dr_capabilities : SurfaceCapabilities;
  dr_session : option AgentSession;
}.

Record DiscoveryReport : Type := mkReport {
  scanned : nat;
  recorded : nat;
  failures : list DiscoveryFailure;
  results : list DiscoveryResult;
}.

Definition surface_harness (s : SurfaceRecord) : option string :=
  p ← sf_process s; executable ← head (pe_argv p);
  name ← to_ascii_lowercase <$> file_name executable;
  if bool_decide (name ∈ ["forge"; "codex"; "opencode"; "kilo"; "cursor"; "cursor-agent"])
  then Some name else None.

Definition surface_process_cwd (s : SurfaceRecord) : string :=
  match sf_process s with Some p => pe_cwd p | None => sf_cwd s end.

Definition surface_process_argv (s : SurfaceRecord) : list string :=
  match sf_process s with Some p => pe_argv p | None => [] end.

Section scan.
Context `{Json ResumeRecipe, Json ResolutionConfidence, Json SessionState, Json SurfaceRecord,
          Json AgentSession, Json SurfaceCapabilities, Json ObservationKind}.
Context {A S : Type} `{SurfaceAdapter A, SessionStateProvider S}.
Variable adapter : A.
Variable state : S.
(** The faults the store meets at each surface, by position. *)
Variable f : nat → SqlFaults.
Variable observed_at : string.

Definition resolution_of (s : SurfaceRecord) : result Resolution string :=
  match surface_harness s with
  | None => Ok unresolved
  | Some h =>
      match session_id state s h with
      | Err e => Err ("read session state for surface " +:+ sf_id s +:+ ": " +:+ e)
      | Ok state_id => Ok (resolve h (surface_process_cwd s) (surface_process_argv s) state_id None)
      end
  end.

(** One surface whose capabilities were read. *)
Definition record_surface (n : nat) (s : SurfaceRecord) (caps : SurfaceCapabilities)
  : stm Db string DiscoveryResult :=
  resolution <- st_lift (resolution_of s) ;;
  earlier <- observations (f n) (Some (sf_id s)) ;;
  let kind := match earlier with [] => Discovered | _ => Updated end in
  let session := rs_session resolution in
  append_observation (f n) (observation_new observed_at s session caps kind) ;;;
  st_ret (mkResult (sf_id s) (surface_harness s) (as_session_id <$> session) kind caps session).

Fixpoint scan_surfaces (n : nat) (l : list SurfaceRecord) (r : DiscoveryReport)
  : stm Db string DiscoveryReport :=
  match l with
  | [] => st_ret r
  | s :: l' =>
      match capabilities adapter s with
      | Err e =>
          scan_surfaces (Datatypes.S n) l'
            (mkReport (scanned r) (recorded r) (failures r ++ [mkFailure (sf_id s) e]) (results r))
      | Ok caps =>
          res <- record_surface n s caps ;;
          scan_surfaces (Datatypes.S n) l'
            (mkReport (scanned r) (recorded r + 1) (failures r) (results r ++ [res]))
      end
  end.

Definition scan_and_record : stm Db string DiscoveryReport :=
  if str_is_empty (trim observed_at) then st_err "observed_at must not be empty"
  else
    l <- st_lift (discover adapter) ;;
    scan_surfaces 0 l (mkReport (length l) 0 [] []).
End scan.

(** * What a pass records *)

Section scan_facts.
Context `{JsonLaws ResumeRecipe, JsonLaws ResolutionConfidence, JsonLaws SessionState,
          JsonLaws SurfaceRecord, JsonLaws AgentSession, JsonLaws SurfaceCapabilities,
          JsonLaws ObservationKind}.
Context {A S : Type} `{SurfaceAdapter A, SessionStateProvider S}.
Variable adapter : A.
Variable state : S.
Variable f : nat → SqlFaults.
Variable observed_at : string.

Definition readable (s : SurfaceRecord) : Prop := is_ok (capabilities adapter s) = true.
#[global] Instance readable_dec s : Decision (readable s).
Proof. unfold readable. apply _. Defined.

Definition seen (sid : string) (l : list SessionObservation) : Prop := ∃ o, o ∈ l ∧ surface_of o = sid.

(** Each observation of [os], appended after [before]: when it was taken, and whether its
    surface was known. *)
Fixpoint pass_of (before os : list SessionObservation) : Prop :=
  match os with
  | [] => True
  | o :: os' =>
      ob_observed_at o = observed_at ∧
      (seen (surface_of o) before → ob_kind o = Updated) ∧
      (¬ seen (surface_of o) before → ob_kind o = Discovered) ∧
      pass_of (before ++ [o]) os'
  end.

Lemma observations_found g sid db db' l a :
  represents db a → observations g (Some sid) db = (db', Ok l) →
  db' = db ∧ l = filter (λ o, surface_of o = sid) (lg_obs a).
Proof.
  intros Hrep. pose proof (observations_represents (Some sid) _ _ Hrep) as Hs. revert Hs.
  unfold observations, st_bind, sql_try, st_get, st_lift. simpl. destruct (fail_query g); [done|].
  intros [= ->] [= <- <-]. done.
Qed.

Lemma record_surface_spec n s caps db db' res a :
  represents db a → record_surface state f observed_at n s caps db = (db', Ok res) →
  ∃ o, represents db' (ledger_step (LAppend o) a) ∧ ob_surface o = s ∧ ob_observed_at o = observed_at ∧
    (seen (sf_id s) (lg_obs a) → ob_kind o = Updated) ∧
    (¬ seen (sf_id s) (lg_obs a) → ob_kind o = Discovered) ∧
    dr_surface_id res = sf_id s ∧ dr_session res = ob_session o.
Proof.
  intros Hrep. unfold record_surface. rewrite st_bind_run. unfold st_lift at 1.
  destruct (resolution_of state s) as [rs|]; [|done]. rewrite st_bind_run.
  destruct (observations (f n) (Some (sf_id s)) db) as [db1 [earlier|]] eqn:Eo; [|done].
  destruct (observations_found _ _ _ _ _ _ Hrep Eo) as [-> ->].
  set (k := match filter _ _ with [] => Discovered | _ => Updated end). rewrite st_bind_run.
  set (o := observation_new observed_at s (rs_session rs) caps k).
  destruct (append_represents (f n) o _ _ Hrep) as [[e ->]|(db2 & -> & Hrep2)]; [done|].
  intros [= <- <-]. exists o. split_and!; try done; simpl; subst k.
  - intros (o' & Hin & Hs). assert (o' ∈ filter (λ o, surface_of o = sf_id s) (lg_obs a)) as Hf
      by by apply list_elem_of_filter.
    destruct (filter _ _); [by apply not_elem_of_nil in Hf|done].
  - intros Hns. destruct (filter _ _) as [|o' l] eqn:E; [done|]. exfalso. apply Hns. exists o'.
    assert (o' ∈ o' :: l) as Hin by left. rewrite <- E in Hin.
    by apply list_elem_of_filter in Hin as [? ?].
Qed.

Lemma scan_surfaces_spec l : ∀ n r db db' r' a,
  represents db a → scan_surfaces adapter state f observed_at n l r db = (db', Ok r') →
  ∃ os a', represents db' a' ∧ lg_obs a' = lg_obs a ++ os ∧
    ob_surface <$> os = filter readable l ∧ pass_of (lg_obs a) os ∧
    scanned r' = scanned r ∧ recorded r' = (recorded r + length os)%nat ∧
    (length (failures r') + length os = length (failures r) + length l)%nat ∧
    (dr_session <$> results r') = (dr_session <$> results r) ++ (ob_session <$> os).
Proof.
  induction l as [|s l IH]; intros n r db db' r' a Hrep; simpl.
  { intros [= <- <-]. exists [], a. simpl. rewrite !app_nil_r. split_and!; try done; lia. }
  rewrite filter_cons. destruct (capabilities adapter s) as [caps|e] eqn:Ec.
  - rewrite decide_True by (unfold readable; by rewrite Ec). rewrite st_bind_run.
    destruct (record_surface _ _ _ n s caps db) as [db1 [res|]] eqn:Er; [|done].
    destruct (record_surface_spec _ _ _ _ _ _ _ Hrep Er)
      as (o & Hrep1 & Hsf & Hat & Hup & Hdi & _ & Hses).
    intros Hs. destruct (IH _ _ _ _ _ _ Hrep1 Hs)
      as (os & a' & Hrep' & Ho & Hfs & Hp & Hsc & Hrc & Hfl & Hrs).
    simpl in *. exists (numbered (lg_last a + 1) o :: os), a'.
    rewrite fmap_cons, Hfs. simpl. rewrite Hsf. split_and!; try done.
    + by rewrite Ho, <- (assoc_L (++)).
    + unfold surface_of. simpl. rewrite Hsf. auto.
    + unfold surface_of. simpl. rewrite Hsf. auto.
    + simpl in *. lia.
    + lia.
    + rewrite Hrs, fmap_app, <- (assoc_L (++)). simpl. by rewrite Hses.
  - rewrite decide_False by (unfold readable; by rewrite Ec).
    intros Hs. destruct (IH _ _ _ _ _ _ Hrep Hs)
      as (os & a' & Hrep' & Ho & Hfs & Hp & Hsc & Hrc & Hfl & Hrs).
    exists os, a'. simpl in *. rewrite length_app in Hfl. simpl in Hfl. split_and!; try done; lia.
Qed.
End scan_facts.

(** A discovery pass. From a store with any history, a pass that succeeds accounts for every
    surface the adapter reported, as recorded or as failed; it appends exactly one observation
    per surface whose capabilities could be read, in the adapter's order, with the given time,
    as [Discovered] when the ledger had no observation of the surface yet and as [Updated]
    otherwise, and reports the sessions it recorded. *)
Theorem scan_records_every_surface
    `{JsonLaws ResumeRecipe, JsonLaws ResolutionConfidence, JsonLaws SessionState,
      JsonLaws SurfaceRecord, JsonLaws AgentSession, JsonLaws SurfaceCapabilities,
      JsonLaws ObservationKind, Json LayoutSnapshot}
    {A St : Type} `{SurfaceAdapter A, SessionStateProvider St} (adapter : A) (state : St) f
    observed_at hist db a db' r :
  replay hist (db_new, ledger_new) = (db, a) →
  scan_and_record adapter state f observed_at db = (db', Ok r) →
  ∃ l os, discover adapter = Ok l ∧
    observations sql_ok None db' = (db', Ok (lg_obs a ++ os)) ∧
    ob_surface <$> os = filter (readable adapter) l ∧ pass_of observed_at (lg_obs a) os ∧
    scanned r = length l ∧ recorded r = length os ∧ (recorded r + length (failures r) = scanned r)%nat ∧
    dr_session <$> results r = ob_session <$> os.
Proof.
  intros Hr. pose proof (replay_represents hist _ _ represents_new) as Hrep. rewrite Hr in Hrep.
  simpl in Hrep. unfold scan_and_record. destruct (str_is_empty _); [done|].
  rewrite st_bind_run. unfold st_lift. destruct (discover adapter) as [l|]; [|done]. intros Hs.
  destruct (scan_surfaces_spec adapter state f observed_at l _ _ _ _ _ _ Hrep Hs)
    as (os & a' & Hrep' & Ho & Hfs & Hp & Hsc & Hrc & Hfl & Hrs). simpl in *.
  exists l, os. rewrite (observations_represents None _ _ Hrep'), Ho. split_and!; try done. lia.
Qed.

(** A managed terminal that reports one surface twice. *)
Definition demo_zmx : ZmxSurfaceAdapter := mkZmx true [demo_surface; demo_surface].

Section demo.
Import Demo.
#[local] Instance j_layout : Json LayoutSnapshot := mkJson _ (λ _, None) (λ _, None).
Definition demo_states : MapStateProvider := mkMapState {["s" := "7"]}.

Lemma scan_records_every_surface_witness :
  ∃ os, observations sql_ok None (scan_and_record demo_zmx demo_states (λ _, sql_ok) "3" db_new).1 =
      ((scan_and_record demo_zmx demo_states (λ _, sql_ok) "3" db_new).1, Ok os) ∧
    ob_surface <$> os = [demo_surface; demo_surface] ∧ pass_of "3" [] os.
Proof.
  destruct (scan_records_every_surface demo_zmx demo_states (λ _, sql_ok) "3" [] db_new ledger_new
    (scan_and_record demo_zmx demo_states (λ _, sql_ok) "3" db_new).1
    (mkReport 2 2 []
       [mkResult "s" (Some "codex") (Some "7") Discovered caps (Some session);
        mkResult "s" (Some "codex") (Some "7") Updated caps (Some session)]))
    as (l & os & Hl & Ho & Hs & Hp & _).
  - reflexivity.
  - rewrite (surjective_pairing (scan_and_record _ _ _ _ _)). f_equal.
  - exists os. injection Hl as <-. split; [exact Ho|]. split; [|exact Hp].
    rewrite Hs. reflexivity.
Defined.
End demo.
