(* ===== verification/RespCodec.v ===== *)
(** The RESP2 codec of the gateway ([gateway/src/redis_resp.rs]).  The parser's cursor is
    the part of the input still to be read; whether the allocator grants the capacity an
    array header asks for is a parameter, and a refusal ends the process. *)
From S2P Require Import Prelude.

(** * Data *)

Inductive RespValue : Type :=
| SimpleString (s : string)
| RespErrorValue (s : string)
| Integer (n : Z)
| BulkString (b : option (list byte))
| Array (items : option (list RespValue)).

Inductive RespFailure : Type :=
| RespError (msg : string)
| Aborted
| OutOfFuel.

(** * Encoding *)

Definition CR : byte := x0d.
Definition LF : byte := x0a.
Definition crlf : list byte := [CR; LF].

Definition as_bytes (s : string) : list byte := list_byte_of_string s.

Definition len_bytes {A} (l : list A) : list byte := as_bytes (show_u (Z.of_nat (length l))).

Fixpoint encode (v : RespValue) : list byte :=
  match v with
  | SimpleString s => x2b :: as_bytes s ++ crlf
  | RespErrorValue s => x2d :: as_bytes s ++ crlf
  | Integer n => x3a :: as_bytes (show_i n) ++ crlf
  | BulkString None => as_bytes "$-1" ++ crlf
  | BulkString (Some bytes) => x24 :: len_bytes bytes ++ crlf ++ bytes ++ crlf
  | Array None => as_bytes "*-1" ++ crlf
  | Array (Some items) => x2a :: len_bytes items ++ crlf ++ flat_map encode items
  end.

Definition format_bulk (s : string) : list byte := encode (BulkString (Some (as_bytes s))).
Definition format_array (items : list RespValue) : list byte := encode (Array (Some items)).

(** * UTF-8, as [core::str::from_utf8] checks it *)

Definition in_range (lo hi : N) (b : byte) : bool :=
  ((lo <=? Byte.to_N b) && (Byte.to_N b <=? hi))%N.
Definition cont : byte → bool := in_range 128 191.

Fixpoint utf8_valid (l : list byte) : bool :=
  match l with
  | [] => true
  | a :: l1 =>
      if in_range 0 127 a then utf8_valid l1
      else match l1 with
      | [] => false
      | b :: l2 =>
          if in_range 194 223 a then cont b && utf8_valid l2
          else match l2 with
          | [] => false
          | c :: l3 =>
              if (in_range 224 224 a && in_range 160 191 b)
                 || (in_range 225 236 a && cont b)
                 || (in_range 237 237 a && in_range 128 159 b)
                 || (in_range 238 239 a && cont b)
              then cont c && utf8_valid l3
              else match l3 with
              | [] => false
              | d :: l4 =>
                  ((in_range 240 240 a && in_range 144 191 b)
                   || (in_range 241 243 a && cont b)
                   || (in_range 244 244 a && in_range 128 143 b))
                  && cont c && cont d && utf8_valid l4
              end
          end
      end
  end.

(** * Parsing *)

(** The bytes up to the first carriage return, and what follows from it. *)
Fixpoint until_cr (l : list byte) : list byte * list byte :=
  match l with
  | [] => ([], [])
  | b :: l' =>
      if bool_decide (b = CR) then ([], l)
      else let '(p, r) := until_cr l' in (b :: p, r)
  end.

Definition read_line : stm (list byte) RespFailure string := λ l,
  let '(p, r) := until_cr l in
  match r with
  | _ :: c :: rest =>
      if bool_decide (c = LF)
      then if utf8_valid p then (rest, Ok (string_of_list_byte p))
           else (l, Err (RespError "line not utf-8"))
      else (l, Err (RespError "bad CRLF"))
  | _ => (l, Err (RespError "missing CRLF"))
  end.

(** [s.parse::<isize>()] with the message of the caller. *)
Definition parse_len (what : string) (s : string) : stm (list byte) RespFailure Z :=
  match parse_i64 s with
  | Some n => st_ret n
  | None => st_err (RespError ("bad " +:+ what))
  end.

Section parse.
(** Whether [Vec::with_capacity] succeeds for this many elements. *)
Variable capacity_ok : Z → bool.

Fixpoint repeat_parse {A} (n : nat) (p : stm (list byte) RespFailure A)
  : stm (list byte) RespFailure (list A) :=
  match n with
  | O => st_ret []
  | S n' => v <- p ;; vs <- repeat_parse n' p ;; st_ret (v :: vs)
  end.

(** [fuel] bounds the nesting; every array level reads at least its type byte. *)
Fixpoint parse_one (fuel : nat) : stm (list byte) RespFailure RespValue := λ l,
  match fuel with
  | O => (l, Err OutOfFuel)
  | S fuel' =>
      match l with
      | [] => (l, Err (RespError "unexpected eof"))
      | ty :: l1 =>
          if bool_decide (ty = x2b) then (s <- read_line ;; st_ret (SimpleString s)) l1
          else if bool_decide (ty = x2d) then (s <- read_line ;; st_ret (RespErrorValue s)) l1
          else if bool_decide (ty = x3a) then
            (s <- read_line ;; n <- parse_len "int" s ;; st_ret (Integer n)) l1
          else if bool_decide (ty = x24) then
            (s <- read_line ;; n <- parse_len "bulk len" s ;;
             if n =? -1 then st_ret (BulkString None)
             else if n <? 0 then st_err (RespError "bad bulk len")
             else λ l2,
               if Z.of_nat (length l2) <? n + 2 then (l2, Err (RespError "bulk truncated"))
               else (drop (Z.to_nat n + 2) l2, Ok (BulkString (Some (take (Z.to_nat n) l2))))) l1
          else if bool_decide (ty = x2a) then
            (s <- read_line ;; n <- parse_len "array len" s ;;
             if n =? -1 then st_ret (Array None)
             else if n <? 0 then st_err (RespError "bad array len")
             else if negb (capacity_ok n) then st_err Aborted
             else items <- repeat_parse (Z.to_nat n) (parse_one fuel') ;;
                  st_ret (Array (Some items))) l1
          else (l1, Err (RespError "unsupported RESP type byte"))
      end
  end.

(** [parse]: the value and the number of bytes consumed. *)
Definition parse (input : list byte) : result (RespValue * nat) RespFailure :=
  match parse_one (S (length input)) input with
  | (rest, Ok v) => Ok (v, length input - length rest)%nat
  | (_, Err e) => Err e
  end.
End parse.

(** * Lemmas: text *)

Lemma as_bytes_has_char b s : b ∈ as_bytes s → has_char (ascii_of_byte b) s = true.
Proof.
  induction s as [|c s IH]; simpl; [by intros []%not_elem_of_nil|].
  change (as_bytes (String c s)) with (byte_of_ascii c :: as_bytes s). intros [->|Hb]%elem_of_cons; [|by rewrite IH, orb_true_r].
  by rewrite ascii_of_byte_of_ascii, bool_decide_true.
Qed.

Lemma string_of_as_bytes s : string_of_list_byte (as_bytes s) = s.
Proof. apply string_of_list_byte_of_string. Qed.

(** Digits and signs, all a number is written with, are one-byte characters and no line end. *)
Definition plain (b : byte) : Prop := b ≠ CR ∧ in_range 0 127 b = true.

Lemma utf8_plain l : Forall plain l → utf8_valid l = true.
Proof. induction 1 as [|b l [_ Hb] _ IH]; simpl; [done|]. by rewrite Hb. Qed.

Lemma show_u_plain n : Forall plain (as_bytes (show_u n)).
Proof.
  apply Forall_forall. intros b Hb%as_bytes_has_char.
  destruct (digit_val (ascii_of_byte b)) as [d|] eqn:Ed; [|by rewrite has_char_show_u in Hb].
  clear Hb. revert Ed. unfold plain. destruct b; vm_compute; try done.
Qed.

Lemma show_i_plain n : Forall plain (as_bytes (show_i n)).
Proof.
  unfold show_i. destruct (n <? 0); [|apply show_u_plain].
  change (as_bytes (String "-" (show_u (- n)))) with (x2d :: as_bytes (show_u (- n))).
  constructor; [done|apply show_u_plain].
Qed.

Lemma parse_i64_show n : - 2 ^ 63 ≤ n < 2 ^ 63 → parse_i64 (show_i n) = Some n.
Proof.
  intros Hn. unfold show_i. destruct (n <? 0) eqn:E; bool_prop.
  - unfold parse_i64. destruct (show_u (- n)) as [|c s] eqn:Es; [by destruct (show_u_nonempty (- n))|].
    cbn [str_is_empty]. rewrite <- Es, parse_digits_show by lia. simpl. f_equal. lia.
  - assert (parse_i64 (show_u n) = parse_uint (2 ^ 63 - 1) (show_u n)) as ->.
    { destruct (show_u n) as [|c s] eqn:Es; [by destruct (show_u_nonempty n)|].
      assert (c ≠ "-"%char) as Hc.
      { intros ->. pose proof (has_char_show_u "-" n eq_refl) as H. rewrite Es in H. done. }
      unfold parse_i64. by repeat case_match. }
    apply parse_uint_show. lia.
Qed.

Lemma until_cr_app p r : CR ∉ p → until_cr (p ++ CR :: r) = (p, CR :: r).
Proof.
  induction p as [|b p IH]; simpl; [done|]. intros [Hb Hp]%not_elem_of_cons.
  rewrite bool_decide_false by congruence. by rewrite IH.
Qed.

Lemma read_line_app s rest :
  CR ∉ as_bytes s → utf8_valid (as_bytes s) = true →
  read_line (as_bytes s ++ crlf ++ rest) = (rest, Ok s).
Proof.
  intros Hc Hu. unfold read_line, crlf. cbn [app]. rewrite until_cr_app by done. simpl.
  by rewrite Hu, string_of_as_bytes.
Qed.

Lemma read_line_number n rest :
  read_line (as_bytes (show_i n) ++ crlf ++ rest) = (rest, Ok (show_i n)).
Proof.
  pose proof (show_i_plain n) as Hp. apply read_line_app; [|by apply utf8_plain].
  intros Hin. by destruct (proj1 (Forall_forall _ _) Hp _ Hin).
Qed.

Lemma len_bytes_show {A} (l : list A) : len_bytes l = as_bytes (show_i (Z.of_nat (length l))).
Proof. unfold len_bytes, show_i. by rewrite (proj2 (Z.ltb_ge _ _)) by lia. Qed.

(** * Round trip *)

Fixpoint resp_ind' (P : RespValue → Prop)
    (Hs : ∀ s, P (SimpleString s)) (He : ∀ s, P (RespErrorValue s)) (Hi : ∀ n, P (Integer n))
    (Hb : ∀ b, P (BulkString b)) (Hn : P (Array None))
    (Ha : ∀ items, Forall P items → P (Array (Some items))) (v : RespValue) : P v :=
  match v with
  | SimpleString s => Hs s
  | RespErrorValue s => He s
  | Integer n => Hi n
  | BulkString b => Hb b
  | Array None => Hn
  | Array (Some items) =>
      Ha items ((fix go l : Forall P l :=
        match l with
        | [] => Forall_nil_2 P
        | c :: l' => Forall_cons_2 P c l' (resp_ind' P Hs He Hi Hb Hn Ha c) (go l')
        end) items)
  end.

Fixpoint depth (v : RespValue) : nat :=
  match v with
  | Array (Some items) => S (foldr max 0%nat (depth <$> items))
  | _ => 0
  end.

Lemma depth_le v : (depth v < length (encode v))%nat.
Proof.
  induction v as [s|s|n|[b|]| |items IH] using resp_ind'; try (simpl; lia).
  cbn [depth encode]. rewrite length_cons, !length_app.
  assert (foldr max 0%nat (depth <$> items) ≤ length (flat_map encode items))%nat; [|simpl; lia].
  induction IH as [|v items Hv _ IHl]; [simpl; lia|].
  rewrite fmap_cons. cbn [foldr flat_map]. rewrite length_app. lia.
Qed.

(** The text of a line is UTF-8 without carriage return, a number fits 64 bits, a length can
    be printed and an array's capacity can be allocated. *)
Fixpoint resp_ok (capacity_ok : Z → bool) (v : RespValue) : Prop :=
  match v with
  | SimpleString s | RespErrorValue s => CR ∉ as_bytes s ∧ utf8_valid (as_bytes s) = true
  | Integer n => - 2 ^ 63 ≤ n < 2 ^ 63
  | BulkString (Some b) => Z.of_nat (length b) < 2 ^ 63
  | Array (Some items) =>
      Z.of_nat (length items) < 2 ^ 63 ∧ capacity_ok (Z.of_nat (length items)) = true ∧
      foldr and True (resp_ok capacity_ok <$> items)
  | _ => True
  end.

Section roundtrip.
Variable capacity_ok : Z → bool.

Lemma repeat_parse_encode items p rest :
  Forall (λ v, ∀ r, p (encode v ++ r) = (r, Ok v)) items →
  repeat_parse (length items) p (flat_map encode items ++ rest) = (rest, Ok items).
Proof.
  induction 1 as [|v items Hv _ IH]; [done|]. cbn [length repeat_parse flat_map].
  rewrite <- (assoc_L (++)), st_bind_run, Hv, st_bind_run, IH. done.
Qed.

Lemma parse_one_encode v : resp_ok capacity_ok v → ∀ fuel rest, (depth v < fuel)%nat →
  parse_one capacity_ok fuel (encode v ++ rest) = (rest, Ok v).
Proof.
  induction v as [s|s|n|[b|]| |items IH] using resp_ind'; intros Hok [|fuel] rest Hd;
    try lia; cbn [resp_ok encode depth] in *.
  - destruct Hok. cbn [parse_one app]. rewrite <- (assoc_L (++)). simpl bool_decide. cbv iota.
    by rewrite st_bind_run, read_line_app.
  - destruct Hok. cbn [parse_one app]. rewrite <- (assoc_L (++)). simpl bool_decide. cbv iota.
    by rewrite st_bind_run, read_line_app.
  - cbn [parse_one app]. rewrite <- (assoc_L (++)). simpl bool_decide. cbv iota.
    rewrite st_bind_run, read_line_number, st_bind_run. unfold parse_len.
    by rewrite parse_i64_show.
  - cbn [parse_one app]. rewrite len_bytes_show, <- !(assoc_L (++)). simpl bool_decide. cbv iota.
    rewrite st_bind_run, read_line_number, st_bind_run. unfold parse_len.
    rewrite parse_i64_show by lia. cbn [st_ret].
    rewrite (proj2 (Z.eqb_neq _ _)), (proj2 (Z.ltb_ge (Z.of_nat _) 0)) by lia.
    rewrite !length_app. rewrite (proj2 (Z.ltb_ge _ _)) by (unfold crlf; simpl length; lia).
    rewrite Nat2Z.id, take_app_length. f_equal. rewrite (assoc_L (++)).
    rewrite <- (drop_app_length (b ++ crlf) rest) at 2. f_equal. rewrite length_app. done.
  - done.
  - done.
  - destruct Hok as (Hlen & Hcap & Hitems).
    cbn [parse_one app]. rewrite len_bytes_show, <- !(assoc_L (++)). simpl bool_decide. cbv iota.
    rewrite st_bind_run, read_line_number, st_bind_run. unfold parse_len.
    rewrite parse_i64_show by lia. cbn [st_ret].
    rewrite (proj2 (Z.eqb_neq _ _)), (proj2 (Z.ltb_ge (Z.of_nat _) 0)), Hcap by lia. cbn [negb].
    rewrite st_bind_run, Nat2Z.id, repeat_parse_encode; [done|].
    clear Hlen Hcap. induction IH as [|v items Hv _ IHl]; [constructor|].
    rewrite !fmap_cons in *. cbn [foldr] in *. destruct Hitems as [Hv' Hitems].
    constructor; [intros r; apply Hv; [done|lia]|apply IHl; [done|lia]].
Qed.
End roundtrip.

(** * Totality *)

Section total.
Variable capacity_ok : Z → bool.

(** A parser that consumes at least [k] bytes when it succeeds and fails only with allowed
    failures. *)
Definition parses (k : nat) (ok : RespFailure → Prop) {A} (p : stm (list byte) RespFailure A)
    (l : list byte) : Prop :=
  match p l with
  | (rest, Ok _) => (length rest + k ≤ length l)%nat
  | (_, Err e) => ok e
  end.

Definition tolerated (e : RespFailure) : Prop :=
  match e with
  | OutOfFuel => False
  | Aborted => ∃ n, capacity_ok n = false
  | RespError _ => True
  end.

Lemma until_cr_length l : (length (until_cr l).2 ≤ length l)%nat.
Proof.
  induction l as [|b l IH]; simpl; [done|]. case_bool_decide; [done|].
  destruct (until_cr l). simpl in *. lia.
Qed.

Lemma parses_read_line l : parses 1 tolerated read_line l.
Proof.
  unfold parses, read_line. pose proof (until_cr_length l) as Hl.
  destruct (until_cr l) as [p [|a [|c rest]]]; simpl in *; [done..|].
  destruct (bool_decide _); [|done]. destruct (utf8_valid p); simpl; [lia|done].
Qed.

Lemma parses_bind {A B} k k' (p : stm (list byte) RespFailure A)
    (q : A → stm (list byte) RespFailure B) l :
  parses k tolerated p l →
  (∀ a l', (length l' + k ≤ length l)%nat → parses k' tolerated (q a) l') →
  parses (k + k') tolerated (st_bind q p) l.
Proof.
  unfold parses. rewrite st_bind_run. destruct (p l) as [l1 [a|e]]; [|done].
  intros Hp Hq. specialize (Hq a l1 Hp). destruct (q a l1) as [l2 [b|e]]; [lia|done].
Qed.

Lemma parses_ret {A} (a : A) l : parses 0 tolerated (st_ret a) l.
Proof. unfold parses. simpl. lia. Qed.

Lemma parses_len what s l : parses 0 tolerated (parse_len what s) l.
Proof. unfold parse_len. destruct (parse_i64 s); [apply parses_ret|done]. Qed.

Lemma parses_repeat {A} n (p : stm (list byte) RespFailure A) m :
  (∀ l, (length l ≤ m)%nat → parses 0 tolerated p l) →
  ∀ l, (length l ≤ m)%nat → parses 0 tolerated (repeat_parse n p) l.
Proof.
  intros Hp. induction n as [|n IH]; intros l Hl; [apply parses_ret|]. cbn [repeat_parse].
  apply (parses_bind 0 0); [by apply Hp|]. intros a l' Hl'.
  apply (parses_bind 0 0); [apply IH; lia|]. intros. apply parses_ret.
Qed.

Lemma parses_weaken {A} k k' (p : stm (list byte) RespFailure A) l :
  (k' ≤ k)%nat → parses k tolerated p l → parses k' tolerated p l.
Proof. unfold parses. destruct (p l) as [l1 [a|e]]; [lia|done]. Qed.

Lemma parses_cons {A} (p : stm (list byte) RespFailure A) ty l :
  parses 0 tolerated p l → match p l with
                           | (rest, Ok _) => (length rest + 1 ≤ length (ty :: l))%nat
                           | (_, Err e) => tolerated e end.
Proof. unfold parses. destruct (p l) as [l1 [a|e]]; simpl; [lia|done]. Qed.

Lemma parses_one fuel : ∀ l, (length l < fuel)%nat → parses 1 tolerated (parse_one capacity_ok fuel) l.
Proof.
  induction fuel as [|fuel IH]; intros [|ty l] Hl; [simpl in *; lia..|done|].
  unfold parses. cbn [parse_one]. simpl in Hl.
  assert (∀ {A} (q : string → stm (list byte) RespFailure A),
    (∀ a l', (length l' ≤ length l)%nat → parses 0 tolerated (q a) l') →
    parses 0 tolerated (s <- read_line ;; q s) l) as Hline.
  { intros A q Hq. apply (parses_weaken 1); [lia|]. apply (parses_bind 1 0); [apply parses_read_line|].
    intros. apply Hq. lia. }
  destruct (bool_decide (ty = x2b)); [apply parses_cons, Hline; intros; apply parses_ret|].
  destruct (bool_decide (ty = x2d)); [apply parses_cons, Hline; intros; apply parses_ret|].
  destruct (bool_decide (ty = x3a)).
  { apply parses_cons, Hline. intros s l' Hl'. apply (parses_bind 0 0); [apply parses_len|].
    intros. apply parses_ret. }
  destruct (bool_decide (ty = x24)).
  { apply parses_cons, Hline. intros s l' Hl'. apply (parses_bind 0 0); [apply parses_len|].
    intros n l2 Hl2. destruct (n =? -1); [apply parses_ret|]. destruct (n <? 0); [done|].
    unfold parses. destruct (_ <? n + 2); [done|]. rewrite length_drop. lia. }
  destruct (bool_decide (ty = x2a)); [|done].
  apply parses_cons, Hline. intros s l' Hl'. apply (parses_bind 0 0); [apply parses_len|].
  intros n l2 Hl2. destruct (n =? -1); [apply parses_ret|]. destruct (n <? 0); [done|].
  destruct (capacity_ok n) eqn:Hc; cbn [negb]; [|by exists n].
  apply (parses_bind 0 0); [|intros; apply parses_ret].
  apply (parses_repeat _ _ (length l)); [|lia]. intros l3 Hl3. apply (parses_weaken 1); [lia|].
  apply IH. lia.
Qed.
End total.

(** * Theorems *)

(** C15: RESP round trip. Any value whose lines are UTF-8 without carriage return, whose numbers
    fit 64 bits and whose arrays can be allocated, nested to any depth, is parsed back from
    its encoding, whatever bytes follow, consuming exactly the encoding. *)
Theorem resp_roundtrip capacity_ok v rest :
  resp_ok capacity_ok v → parse capacity_ok (encode v ++ rest) = Ok (v, length (encode v)).
Proof.
  intros Hok. unfold parse. rewrite parse_one_encode; [|done|].
  - rewrite length_app. do 2 f_equal. lia.
  - pose proof (depth_le v). rewrite length_app. lia.
Qed.

Definition demo_resp : RespValue :=
  Array (Some [BulkString (Some [x0d; x0a]); Array (Some [Integer (-7); Array None]);
               SimpleString "OK"; BulkString None]).

Lemma resp_roundtrip_witness :
  parse (λ _, true) (encode demo_resp ++ [x2b]) = Ok (demo_resp, length (encode demo_resp)).
Proof.
  refine (resp_roundtrip (λ _, true) demo_resp [x2b] _).
  vm_compute. repeat split; try congruence.
  intros H. repeat (apply elem_of_cons in H as [H|H]; [discriminate H|]).
  by apply not_elem_of_nil in H.
Defined.

(** Parsing is total. On every input the parser returns: a value, having consumed at least
    one byte and no more than there are, or an error; it gives up otherwise only if the
    allocator refuses the capacity some array header announced. *)
Theorem resp_parse_total capacity_ok input :
  match parse capacity_ok input with
  | Ok (_, n) => (0 < n ≤ length input)%nat
  | Err (RespError _) => True
  | Err Aborted => ∃ n, capacity_ok n = false
  | Err OutOfFuel => False
  end.
Proof.
  pose proof (parses_one capacity_ok (S (length input)) input ltac:(lia)) as Hp.
  unfold parses, parse in *. destruct (parse_one _ _ _) as [rest [v|e]]; [lia|].
  by destruct e.
Qed.

(** The capacity is taken from the header before any element is read: a short message can ask
    for more memory than there is. *)
Lemma array_header_can_abort :
  parse (λ n, n <? 2 ^ 58) (as_bytes "*9223372036854775807" ++ crlf) = Err Aborted.
Proof. by vm_compute. Qed.

(** The two bytes after a bulk string are skipped without being looked at. *)
Lemma bulk_terminator_not_checked :
  parse (λ _, true) (as_bytes "$1" ++ crlf ++ [x61; x62; x63]) = Ok (BulkString (Some [x61]), 7%nat).
Proof. by vm_compute. Qed.
