(* ===== verification/GatewayCodecs.v ===== *)
(** The other codecs of the gateway crate: PKCS#7 padding, TLS records, DNS questions,
    chunked transfer, JSON patches of flat documents and HS256 tokens
    ([gateway/src/{pkcs7_padding,tls_record,dns_message_parser,chunked_transfer,json_patch,
    jwt_hs256}.rs]).  SHA-256 and base64 are parameters. *)
From S2P Require Import Prelude RespCodec.

(** [n as u8]. *)
Definition byte_of (n : Z) : byte :=
  default x00 (Byte.of_N (Z.to_N (n mod 256))).
(** [b as usize]. *)
Definition val (b : byte) : Z := Z.of_N (Byte.to_N b).

Lemma val_range b : 0 ≤ val b < 256.
Proof. unfold val. pose proof (Byte.to_N_bounded b). lia. Qed.

Lemma val_byte_of n : val (byte_of n) = n mod 256.
Proof.
  unfold val, byte_of. pose proof (Z.mod_pos_bound n 256 ltac:(lia)) as Hr.
  destruct (Byte.of_N (Z.to_N (n mod 256))) as [b|] eqn:E; simpl.
  - apply Byte.to_of_N in E. rewrite E. lia.
  - apply Byte.of_N_None_iff in E. lia.
Qed.

Lemma byte_of_val b : byte_of (val b) = b.
Proof.
  unfold val, byte_of. pose proof (Byte.to_N_bounded b). rewrite Z.mod_small by lia.
  by rewrite N2Z.id, Byte.of_to_N.
Qed.

(** * pkcs7_padding.rs *)

Section pkcs7.
Implicit Types (data : list byte) (block : nat).

Definition required_padding_len (len block : nat) : nat :=
  let rem := (len mod block)%nat in
  if (rem =? 0)%nat then block else (block - rem)%nat.

(** [None] when the assertion [block > 0] fails. *)
Definition pad data block : option (list byte) :=
  if (block =? 0)%nat then None
  else
    let n := required_padding_len (length data) block in
    Some (data ++ replicate n (byte_of (Z.of_nat n))).

Definition PKCS7_ERR : string := "invalid PKCS#7 padding".

Definition unpad data block : result (list byte) string :=
  match last data with
  | None => Err PKCS7_ERR
  | Some b =>
      if (block =? 0)%nat then Err PKCS7_ERR
      else if negb (length data mod block =? 0)%nat then Err PKCS7_ERR
      else
        let n := Z.to_nat (val b) in
        if ((n =? 0) || (block <? n) || (length data <? n))%nat then Err PKCS7_ERR
        else if bool_decide (drop (length data - n) data = replicate n (byte_of (Z.of_nat n)))
        then Ok (take (length data - n) data)
        else Err PKCS7_ERR
  end.

Definition validate_pkcs7 data block : bool := is_ok (unpad data block).

Lemma required_padding_spec len block :
  (0 < block)%nat →
  (0 < required_padding_len len block ≤ block)%nat ∧
  ((len + required_padding_len len block) mod block = 0)%nat ∧
  ∀ n, (0 < n ≤ block)%nat → ((len + n) mod block = 0)%nat → n = required_padding_len len block.
Proof.
  intros Hb. unfold required_padding_len.
  pose proof (Nat.mod_upper_bound len block ltac:(lia)) as Hm.
  pose proof (Nat.div_mod_eq len block) as Hd.
  destruct (len mod block =? 0)%nat eqn:E; [apply Nat.eqb_eq in E|apply Nat.eqb_neq in E].
  - split; [lia|]. split.
    + rewrite Nat.Div0.add_mod, E, Nat.Div0.mod_same. simpl. apply Nat.Div0.mod_0_l.
    + intros n Hn Hz. apply Nat.Div0.mod_divides in Hz as [c Hc].
      set (q := (len / block)%nat) in *. assert (c = S q) by nia. nia.
  - split; [lia|]. split.
    + apply Nat.Div0.mod_divides. exists (S (len / block)). lia.
    + intros n Hn Hz. apply Nat.Div0.mod_divides in Hz as [c Hc].
      set (q := (len / block)%nat) in *. assert (c = S q) by nia. nia.
Qed.
End pkcs7.

(** PKCS#7 padding is a bijection. For block sizes the format allows (1 to 255), padding
    always succeeds and gives a whole number of blocks; stripping it gives the data back; and
    whatever is accepted for stripping is the padding of what is returned, so no two byte
    strings are accepted for the same data. *)
Theorem pkcs7_bijection (block : nat) :
  (0 < block ≤ 255)%nat →
  (∀ data, ∃ p, pad data block = Some p ∧ (length p mod block = 0)%nat ∧ unpad p block = Ok data) ∧
  (∀ p data, unpad p block = Ok data → pad data block = Some p).
Proof.
  intros Hb. split.
  - intros data. destruct (required_padding_spec (length data) block) as (Hn & Hm & _); [lia|].
    unfold pad. rewrite (proj2 (Nat.eqb_neq _ _)) by lia. eexists. split; [done|].
    set (n := required_padding_len (length data) block) in *.
    rewrite length_app, length_replicate. split; [done|]. unfold unpad.
    assert (last (data ++ replicate n (byte_of (Z.of_nat n))) = Some (byte_of (Z.of_nat n))) as ->.
    { destruct n as [|m]; [lia|]. rewrite replicate_S_end, (assoc_L (++)). apply last_snoc. }
    rewrite (proj2 (Nat.eqb_neq _ _)) by lia. rewrite length_app, length_replicate, Hm. simpl negb.
    cbv iota zeta. rewrite val_byte_of, Z.mod_small, Nat2Z.id by lia.
    rewrite (proj2 (Nat.eqb_neq n 0)), (proj2 (Nat.ltb_ge block n)),
      (proj2 (Nat.ltb_ge (length data + n) n)) by lia. cbn [orb].
    rewrite Nat.add_sub, drop_app_length, take_app_length. by rewrite bool_decide_true.
  - intros p data. unfold unpad, pad. destruct (last p) as [b|] eqn:El; [|done].
    rewrite (proj2 (Nat.eqb_neq _ _)) by lia. destruct (length p mod block =? 0)%nat eqn:Em; [|done].
    apply Nat.eqb_eq in Em. cbn [negb]. set (n := Z.to_nat (val b)).
    destruct (n =? 0)%nat eqn:E0; [done|]. apply Nat.eqb_neq in E0.
    destruct (block <? n)%nat eqn:E1; [done|]. apply Nat.ltb_ge in E1.
    destruct (length p <? n)%nat eqn:E2; [done|]. apply Nat.ltb_ge in E2. cbn [orb].
    case_bool_decide as Hd; [|done]. intros [= <-].
    destruct (required_padding_spec (length p - n) block) as (_ & _ & Hu); [lia|].
    rewrite length_take, Nat.min_l by lia.
    rewrite <- (Hu n); [|lia|by rewrite Nat.sub_add]. by rewrite <- Hd, take_drop.
Qed.

Lemma pkcs7_bijection_witness :
  ∃ p, pad [x61; x62; x63] 4 = Some p ∧ unpad p 4 = Ok [x61; x62; x63].
Proof.
  destruct (proj1 (pkcs7_bijection 4 ltac:(lia)) [x61; x62; x63]) as (p & H1 & _ & H2).
  exists p. split; [exact H1|exact H2].
Defined.

(** With a block of 256 bytes the count no longer fits the padding byte, and whole blocks
    cannot be unpadded. *)
Lemma pkcs7_block_256_not_invertible :
  ∃ p, pad [] 256 = Some p ∧ unpad p 256 = Err PKCS7_ERR.
Proof. eexists. split; by vm_compute. Qed.

(** * tls_record.rs *)

Inductive ContentType : Type := ChangeCipherSpec | Alert | Handshake | ApplicationData.

Definition content_type_from_byte (b : byte) : option ContentType :=
  if val b =? 20 then Some ChangeCipherSpec
  else if val b =? 21 then Some Alert
  else if val b =? 22 then Some Handshake
  else if val b =? 23 then Some ApplicationData
  else None.

Definition content_type_to_byte (c : ContentType) : byte :=
  byte_of (match c with ChangeCipherSpec => 20 | Alert => 21 | Handshake => 22
                      | ApplicationData => 23 end).

Record ProtocolVersion : Type := mkVersion { major : byte; minor : byte }.

Inductive TlsError : Type :=
| TooShort (need got : Z)
| UnknownContentType (b : byte)
| BadLength (declared available : Z).

Record TlsRecord : Type := mkTlsRecord {
  content_type : ContentType;
  version : ProtocolVersion;
  payload : list byte;
}.

(** [u16::to_be_bytes] and [u16::from_be_bytes]. *)
Definition to_be (n : Z) : list byte := [byte_of (n / 256); byte_of n].
Definition from_be (a b : byte) : Z := val a * 256 + val b.

Definition parse_record (buf : list byte) : result TlsRecord TlsError :=
  match buf with
  | b0 :: b1 :: b2 :: b3 :: b4 :: rest =>
      match content_type_from_byte b0 with
      | None => Err (UnknownContentType b0)
      | Some ct =>
          let len := from_be b3 b4 in
          if Z.of_nat (length buf) <? 5 + len
          then Err (BadLength len (Z.of_nat (length buf) - 5))
          else Ok (mkTlsRecord ct (mkVersion b1 b2) (take (Z.to_nat len) rest))
      end
  | _ => Err (TooShort 5 (Z.of_nat (length buf)))
  end.

Definition write_record (kind : ContentType) (v : ProtocolVersion) (data buf : list byte)
  : list byte :=
  buf ++ [content_type_to_byte kind; major v; minor v]
      ++ to_be (Z.of_nat (length data) mod 2 ^ 16) ++ data.

Lemma from_to_be n : 0 ≤ n < 2 ^ 16 → from_be (byte_of (n / 256)) (byte_of n) = n.
Proof.
  intros Hn. unfold from_be. rewrite !val_byte_of.
  rewrite (Z.mod_small (n / 256)) by (split; [apply Z.div_pos; lia|apply Z.div_lt_upper_bound; lia]).
  pose proof (Z.div_mod n 256 ltac:(lia)). lia.
Qed.

(** TLS records. What is written is parsed back with its type and version and, when the
    payload has fewer than 65536 bytes, with its payload, whatever follows; a longer payload
    is cut without an error to its length modulo 65536. *)
Theorem tls_record_roundtrip kind v data rest :
  parse_record (write_record kind v data [] ++ rest) =
    Ok (mkTlsRecord kind v (take (Z.to_nat (Z.of_nat (length data) mod 2 ^ 16)) data)) ∧
  (Z.of_nat (length data) < 2 ^ 16 →
   parse_record (write_record kind v data [] ++ rest) = Ok (mkTlsRecord kind v data)).
Proof.
  assert (parse_record (write_record kind v data [] ++ rest) =
    Ok (mkTlsRecord kind v (take (Z.to_nat (Z.of_nat (length data) mod 2 ^ 16)) data))) as Hp.
  { pose proof (Z.mod_pos_bound (Z.of_nat (length data)) (2 ^ 16) ltac:(lia)) as Hm.
    pose proof (Z.mod_le (Z.of_nat (length data)) (2 ^ 16) ltac:(lia) ltac:(lia)) as Hle.
    unfold write_record, to_be. cbn [app]. unfold parse_record.
    rewrite from_to_be by done.
    assert (content_type_from_byte (content_type_to_byte kind) = Some kind) as ->
      by by destruct kind.
    rewrite (proj2 (Z.ltb_ge _ _)).
    - rewrite take_app_le by lia. by destruct v.
    - simpl length. rewrite length_app. lia. }
  split; [done|]. intros Hlt. rewrite Hp, Z.mod_small, Nat2Z.id by lia.
  by rewrite firstn_all.
Qed.

Lemma tls_record_roundtrip_witness :
  parse_record (write_record Alert (mkVersion x03 x03) [x02; x28] [] ++ [x00]) =
    Ok (mkTlsRecord Alert (mkVersion x03 x03) [x02; x28]).
Proof.
  exact (proj2 (tls_record_roundtrip Alert (mkVersion x03 x03) [x02; x28] [x00]) eq_refl).
Defined.

(** * dns_message_parser.rs *)

Record DnsHeader : Type := mkDnsHeader {
  dns_id : Z; dns_flags : Z; qd_count : Z; an_count : Z; ns_count : Z; ar_count : Z }.

Record Question : Type := mkQuestion { qname : string; qtype : Z; qclass : Z }.

Inductive DnsError : Type := DnsTooShort (need got : Z) | BadLabel (at_ : nat).

Definition parse_header (buf : list byte) : result DnsHeader DnsError :=
  match buf with
  | a0 :: a1 :: b0 :: b1 :: c0 :: c1 :: d0 :: d1 :: e0 :: e1 :: f0 :: f1 :: _ =>
      Ok (mkDnsHeader (from_be a0 a1) (from_be b0 b1) (from_be c0 c1) (from_be d0 d1)
            (from_be e0 e1) (from_be f0 f1))
  | _ => Err (DnsTooShort 12 (Z.of_nat (length buf)))
  end.

(** The label loop at position [i], where [l] is what remains of the buffer from there. Each
    round reads at least the length byte. *)
Fixpoint parse_labels (fuel i : nat) (l : list byte)
  : option (result (list string * nat * list byte) DnsError) :=
  match fuel with
  | O => None
  | S fuel' =>
      match l with
      | [] => Some (Err (BadLabel i))
      | b :: l1 =>
          let len := Z.to_nat (val b) in
          if (len =? 0)%nat then Some (Ok ([], S i, l1))
          else if (length l1 <? len)%nat then Some (Err (BadLabel (S i)))
          else if negb (utf8_valid (take len l1)) then Some (Err (BadLabel (S i)))
          else match parse_labels fuel' (S i + len) (drop len l1) with
          | Some (Ok (ls, j, rest)) =>
              Some (Ok (string_of_list_byte (take len l1) :: ls, j, rest))
          | r => r
          end
      end
  end.

Definition parse_question (buf : list byte) (offset : nat)
  : option (result (Question * nat) DnsError) :=
  match parse_labels (S (length buf)) offset (drop offset buf) with
  | None => None
  | Some (Err e) => Some (Err e)
  | Some (Ok (labels, i, rest)) =>
      Some (match rest with
      | t0 :: t1 :: c0 :: c1 :: _ =>
          Ok (mkQuestion (join_with "." labels) (from_be t0 t1) (from_be c0 c1), i + 4 - offset)%nat
      | _ => Err (BadLabel i)
      end)
  end.

Definition encode_label (label : string) : list byte :=
  byte_of (Z.of_nat (length (as_bytes label))) :: as_bytes label.

Definition encode_question (q : Question) : list byte :=
  flat_map encode_label (split_on "." (qname q)) ++ [x00] ++ to_be (qtype q) ++ to_be (qclass q).

Lemma join_split_on c s : join_with (String c EmptyString) (split_on c s) = s.
Proof.
  induction s as [|a s IH]; [done|]. cbn [split_on].
  destruct (split_on c s) as [|w ws] eqn:E; [by destruct (split_on_nonempty c s)|].
  case_bool_decide as Ha.
  - subst a. rewrite <- IH. done.
  - rewrite <- IH. by destruct ws.
Qed.

(** A label of one to 255 bytes. *)
Definition label_ok (l : string) : Prop :=
  (0 < length (as_bytes l) ≤ 255)%nat ∧ utf8_valid (as_bytes l) = true.

Lemma parse_labels_encode ls : Forall label_ok ls → ∀ fuel i rest,
  (length (flat_map encode_label ls) < fuel)%nat →
  parse_labels fuel i (flat_map encode_label ls ++ x00 :: rest) =
    Some (Ok (ls, (i + length (flat_map encode_label ls) + 1)%nat, rest)).
Proof.
  induction 1 as [|l ls [Hl Hu] _ IH]; intros [|fuel] i rest Hf; try (simpl in Hf; lia).
  { simpl. do 4 f_equal. lia. }
  cbn [flat_map] in *. unfold encode_label at 1 in Hf. unfold encode_label at 1 3.
  rewrite !length_app, !length_cons in *. cbn [app parse_labels].
  rewrite val_byte_of, Z.mod_small, Nat2Z.id by lia.
  rewrite (proj2 (Nat.eqb_neq _ _)) by lia. rewrite <- (assoc_L (++)).
  rewrite (proj2 (Nat.ltb_ge _ _)) by (rewrite length_app; lia).
  rewrite take_app_length, drop_app_length, Hu. cbn [negb].
  rewrite IH by lia. rewrite string_of_as_bytes. do 4 f_equal. lia.
Qed.

(** DNS questions. A name made of non-empty labels of at most 255 bytes is parsed back from
    its encoding at any offset of any packet, with its type and class, consuming exactly the
    encoding. *)
Theorem dns_question_roundtrip q pre post :
  Forall label_ok (split_on "." (qname q)) →
  0 ≤ qtype q < 2 ^ 16 → 0 ≤ qclass q < 2 ^ 16 →
  parse_question (pre ++ encode_question q ++ post) (length pre) =
    Some (Ok (q, length (encode_question q))).
Proof.
  intros Hl Ht Hc. unfold parse_question, encode_question. rewrite drop_app_length.
  rewrite <- !(assoc_L (++)). cbn [app]. rewrite parse_labels_encode; [|done|].
  - unfold to_be. cbn [app]. rewrite !from_to_be, join_split_on by done.
    do 3 f_equal; [by destruct q|]. rewrite length_app. simpl. lia.
  - rewrite !length_app. lia.
Qed.

Lemma dns_question_roundtrip_witness :
  parse_question ([x00] ++ encode_question (mkQuestion "a.io" 1 1) ++ []) 1 =
    Some (Ok (mkQuestion "a.io" 1 1, 10%nat)).
Proof.
  refine (dns_question_roundtrip (mkQuestion "a.io" 1 1) [x00] [] _ _ _); [|done..].
  repeat constructor; vm_compute; lia.
Defined.

(** The root name is written as an empty label and the terminator, two zero bytes, and read
    back with another type and class. *)
Lemma dns_root_not_roundtrip :
  parse_question (encode_question (mkQuestion EmptyString 255 3)) 0 =
    Some (Ok (mkQuestion EmptyString 0 65280, 5%nat)).
Proof. by vm_compute. Qed.

Lemma parse_labels_total fuel : ∀ i l, (length l < fuel)%nat → parse_labels fuel i l ≠ None.
Proof.
  induction fuel as [|fuel IH]; intros i l Hl; [lia|]. destruct l as [|b l1]; [done|].
  cbn [parse_labels]. destruct (_ =? 0)%nat; [done|]. destruct (_ <? _)%nat; [done|].
  destruct (negb _); [done|].
  specialize (IH (S i + Z.to_nat (val b))%nat (drop (Z.to_nat (val b)) l1)).
  rewrite length_drop in IH. simpl in Hl.
  destruct (parse_labels fuel _ _) as [[[[? ?] ?]|]|]; try done. intros _. by apply IH; [lia|].
Qed.

(** The label loop always ends. *)
Lemma parse_question_total buf offset : parse_question buf offset ≠ None.
Proof.
  unfold parse_question.
  pose proof (parse_labels_total (S (length buf)) offset (drop offset buf)) as H.
  rewrite length_drop in H. destruct (parse_labels _ _ _) as [[[[? ?] ?]|]|]; try done.
  intros _. apply H; [lia|done].
Qed.

(** * chunked_transfer.rs *)

Definition encode_chunks (data : list byte) (chunk : nat) : list (list byte) :=
  if (chunk =? 0)%nat then [data] else slice_chunks chunk data.

Definition decode_chunks (cs : list (list byte)) : list byte := concat cs.

(** [format!("{:x}", n)] for a [usize]: at most 16 digits. *)
Fixpoint show_hex_go (fuel : nat) (n : Z) (acc : string) : string :=
  match fuel with
  | O => acc
  | S fuel' =>
      let acc' := String (hex_digit (Z.to_nat (n mod 16))) acc in
      if n / 16 =? 0 then acc' else show_hex_go fuel' (n / 16) acc'
  end.
Definition show_hex (n : Z) : string := show_hex_go 16 n EmptyString.

Definition hex_chunk_header (n : Z) : string := if n =? 0 then "0" else show_hex n.

Definition last_zero_chunk : string :=
  String "0" (String cr (String nl (String cr (String nl EmptyString)))).

Definition hex_val (c : ascii) : option Z :=
  let n := Z.of_nat (nat_of_ascii c) in
  if (48 <=? n) && (n <=? 57) then Some (n - 48)
  else if (97 <=? n) && (n <=? 102) then Some (n - 87)
  else if (65 <=? n) && (n <=? 70) then Some (n - 55)
  else None.

(** The [ParseIntError] kinds that [from_str_radix] can return for an unsigned type. *)
Inductive ParseIntError := IntEmpty | InvalidDigit | PosOverflow.

Definition show_parse_int_error (e : ParseIntError) : string :=
  match e with
  | IntEmpty => "cannot parse integer from empty string"
  | InvalidDigit => "invalid digit found in string"
  | PosOverflow => "number too large to fit in target type"
  end.

Fixpoint parse_hex_digits (acc : Z) (s : string) : result Z ParseIntError :=
  match s with
  | EmptyString => Ok acc
  | String c s' =>
      match hex_val c with
      | Some d => let v := acc * 16 + d in
                  if v <=? u64_max then parse_hex_digits v s' else Err PosOverflow
      | None => Err InvalidDigit
      end
  end.

(** [usize::from_str_radix(s, 16)]. *)
Definition parse_hex (s : string) : result Z ParseIntError :=
  match s with
  | EmptyString => Err IntEmpty
  | String "+" EmptyString => Err InvalidDigit
  | String "+" s' => parse_hex_digits 0 s'
  | _ => parse_hex_digits 0 s
  end.

(** [line[..line.find(';')]]. *)
Definition before_semicolon (s : string) : option string :=
  match split_on ";" s with
  | w :: _ :: _ => Some w
  | _ => None
  end.

Definition parse_chunk_size (line : string) : result Z string :=
  let line := trim line in
  if str_is_empty line then Err "empty chunk size line"
  else
    let end_ := match before_semicolon line with Some w => trim w | None => line end in
    match parse_hex end_ with
    | Ok n => Ok n
    | Err e => Err ("bad hex size `" +:+ end_ +:+ "`: " +:+ show_parse_int_error e)
    end.

Definition hex_char (c : ascii) : bool :=
  negb (is_ws c) && bool_decide (c ≠ ";"%char) && bool_decide (c ≠ "+"%char).

Lemma hex_digit_val d : 0 ≤ d < 16 →
  hex_val (hex_digit (Z.to_nat d)) = Some d ∧ hex_char (hex_digit (Z.to_nat d)) = true.
Proof.
  intros Hd. assert (∃ k, (k < 16)%nat ∧ d = Z.of_nat k) as (k & Hk & ->).
  { exists (Z.to_nat d). lia. }
  rewrite Nat2Z.id. do 16 (destruct k as [|k]; [by vm_compute|]). lia.
Qed.

Lemma hex_char_not_ws c : hex_char c = true → is_ws c = false.
Proof. unfold hex_char. by destruct (is_ws c). Qed.

(** With enough fuel the loop prepends exactly the digits of the value. *)
Lemma show_hex_go_parse fuel : ∀ n acc, 0 ≤ n < 16 ^ Z.of_nat fuel → n ≤ u64_max → (0 < fuel)%nat →
  str_all hex_char acc = true →
  let r := show_hex_go fuel n acc in
  r ≠ EmptyString ∧ str_all hex_char r = true ∧ parse_hex_digits 0 r = parse_hex_digits n acc.
Proof.
  induction fuel as [|fuel IH]; intros n acc Hn Hu Hf Ha; [lia|]. cbn [show_hex_go].
  pose proof (Z.mod_pos_bound n 16 ltac:(lia)) as Hm.
  destruct (hex_digit_val _ Hm) as [Hv Hc]. set (c := hex_digit _) in *.
  assert (n / 16 * 16 + n mod 16 = n) as Hsplit by (pose proof (Z.div_mod n 16); lia).
  assert (str_all hex_char (String c acc) = true) as Hca by (simpl; by rewrite Hc).
  assert (parse_hex_digits (n / 16) (String c acc) = parse_hex_digits n acc) as Hstep.
  { cbn [parse_hex_digits]. rewrite Hv. cbv zeta. rewrite Hsplit.
    by destruct (Z.leb_spec n u64_max); [|lia]. }
  destruct (Z.eqb_spec (n / 16) 0) as [E|E]; [by rewrite E in Hstep|].
  assert (fuel ≠ 0%nat) by (intros ->; simpl in Hn; apply E, Z.div_small; lia).
  destruct (IH (n / 16) (String c acc)) as (Hne & Hall & Hp); [|lia..|done|].
  { split; [apply Z.div_pos; lia|]. apply Z.div_lt_upper_bound; [lia|].
    rewrite Nat2Z.inj_succ, Z.pow_succ_r in Hn; lia. }
  split_and!; [done..|]. by rewrite Hp.
Qed.

Lemma parse_hex_text s : s ≠ EmptyString → str_all hex_char s = true →
  parse_hex s = parse_hex_digits 0 s.
Proof.
  destruct s as [|c s]; [done|]. simpl. intros _ [Hc _]%andb_true_iff.
  unfold hex_char in Hc. repeat (apply andb_true_iff in Hc as [Hc ?]).
  destruct c as [[] [] [] [] [] [] [] []]; done.
Qed.

Lemma before_semicolon_hex s : str_all hex_char s = true → before_semicolon s = None.
Proof.
  intros H. unfold before_semicolon. rewrite split_on_no_char; [done|].
  apply not_true_iff_false. intros Hc. by pose proof (str_all_has_char _ _ _ H Hc).
Qed.

Lemma trim_end_after s c t : is_ws c = false →
  trim_end (s +:+ String c t) = s +:+ String c (trim_end t).
Proof.
  intros Hc. induction s as [|a s IH].
  - rewrite !str_app_nil_l. cbn [trim_end]. rewrite Hc. by destruct (trim_end t).
  - rewrite !str_app_cons. cbn [trim_end]. rewrite IH. by destruct s.
Qed.

Lemma trim_start_hex s t : s ≠ EmptyString → str_all hex_char s = true →
  trim_start (s +:+ t) = s +:+ t.
Proof.
  destruct s as [|c s]; [done|]. simpl. intros _ [Hc _]%andb_true_iff.
  by rewrite hex_char_not_ws.
Qed.

(** A size line that starts with hexadecimal text is read as that text, whether or not an
    extension follows. *)
Lemma parse_chunk_size_hex h : h ≠ EmptyString → str_all hex_char h = true → ∀ n ext,
  parse_hex_digits 0 h = Ok n →
  parse_chunk_size h = Ok n ∧ parse_chunk_size (h +:+ String ";" ext) = Ok n.
Proof.
  intros Hne Hall n ext Hp.
  assert (trim h = h) as Ht by (by apply (trim_no_ws hex_char); [apply hex_char_not_ws|]).
  assert (str_is_empty h = false) as He by (by destruct h).
  unfold parse_chunk_size. split.
  - rewrite Ht, He, before_semicolon_hex, parse_hex_text, Hp by done. done.
  - assert (trim (h +:+ String ";" ext) = h +:+ String ";" (trim_end ext)) as ->.
    { unfold trim. by rewrite trim_start_hex, trim_end_after. }
    replace (str_is_empty (h +:+ _)) with false by (by destruct h).
    unfold before_semicolon. rewrite split_on_app.
    + destruct (split_on ";" (trim_end ext)) eqn:E; [by apply split_on_nonempty in E|].
      by rewrite Ht, parse_hex_text, Hp.
    + apply not_true_iff_false. intros Hc. by pose proof (str_all_has_char _ _ _ Hall Hc).
Qed.

(** Chunked transfer coding. Cutting a payload into chunks of any size and joining them
    gives it back (the degenerate size 0 included), every chunk but the degenerate one is
    non-empty and within the size, and each chunk's size line, alone or followed by a chunk
    extension, is read back as the size. *)
Theorem chunked_roundtrip data chunk n ext :
  0 ≤ n ≤ u64_max →
  decode_chunks (encode_chunks data chunk) = data ∧
  (chunk = 0%nat ∨ Forall (λ c, 0 < length c ≤ chunk)%nat (encode_chunks data chunk)) ∧
  parse_chunk_size (hex_chunk_header n) = Ok n ∧
  parse_chunk_size (hex_chunk_header n +:+ String ";" ext) = Ok n.
Proof.
  intros Hn. unfold encode_chunks, decode_chunks. apply and_assoc. split.
  - destruct (Nat.eqb_spec chunk 0) as [->|Hc].
    + split; [|by left]. simpl. apply app_nil_r.
    + destruct (slice_chunks_spec chunk data) as [H1 H2]; [lia|]. auto.
  - destruct (show_hex_go_parse 16 n EmptyString) as (Hne & Hall & Hp); [|lia..|done|].
    { change (16 ^ Z.of_nat 16) with (u64_max + 1). lia. }
    assert (hex_chunk_header n = show_hex_go 16 n EmptyString) as ->.
    { unfold hex_chunk_header. by destruct (Z.eqb_spec n 0) as [->|]. }
    by apply parse_chunk_size_hex.
Qed.

Lemma chunked_roundtrip_witness :
  decode_chunks (encode_chunks [x01; x02; x03] 2) = [x01; x02; x03] ∧
  (2%nat = 0%nat ∨ Forall (λ c, 0 < length c ≤ 2)%nat (encode_chunks [x01; x02; x03] 2)) ∧
  parse_chunk_size (hex_chunk_header 4095) = Ok 4095 ∧
  parse_chunk_size (hex_chunk_header 4095 +:+ String ";" " a=b ") = Ok 4095.
Proof. apply (chunked_roundtrip [x01; x02; x03] 2 4095 " a=b "). vm_compute; split; congruence. Defined.

Example chunk_size_errors :
  hex_chunk_header 4095 = "fff" ∧
  parse_chunk_size " " = Err "empty chunk size line" ∧
  parse_chunk_size "+" = Err "bad hex size `+`: invalid digit found in string" ∧
  parse_chunk_size ";x" = Err "bad hex size ``: cannot parse integer from empty string" ∧
  parse_chunk_size "10000000000000000" =
    Err "bad hex size `10000000000000000`: number too large to fit in target type".
Proof. by vm_compute. Qed.
