(* ===== verification/MaildirQueue.v ===== *)
(** The Maildir task queue (crates/sharecli-mesh/src/task_queue.rs): tasks are files that move
    between [tmp/], [new/] and [cur/] by [rename]. First the operations as one process runs them,
    over the three directories and the failures of the system calls; then any number of workers
    as a step relation with one step per system call, crashes included, and the proof that the
    sequential [claim] is a path of it. File names are task ids (UUIDs without separators). *)
From S2P Require Import Prelude.

(** * Data *)

(** [V] is [serde_json::Value] and [F] the finite [f64]s: the clock gives no other, and JSON has
    no other. *)
Record TaskEnvelope (V F : Type) : Type := mkEnvelope {
  id : string;
  payload : V;
  priority : Z;
  created_at : F;
  attempts : Z;
  owner : option string;
}.
Arguments mkEnvelope {V F} id payload priority created_at attempts owner.
Arguments id {V F} t.
Arguments payload {V F} t.
Arguments priority {V F} t.
Arguments created_at {V F} t.
Arguments attempts {V F} t.
Arguments owner {V F} t.

(** The three directories; a file is its name and its text. *)
Record MaildirQueue : Type := mkMaildir {
  tmp : gmap string string;
  new : gmap string string;
  cur : gmap string string;
}.

(** The errors, by the context the code attaches to them. *)
Inductive QueueError : Type :=
| ReadDir | ReadEntry
| WriteTmp (i : string) | RenameTmpNew (i : string)
| ClaimRename (i : string) | UpdateCur (i : string)
| AckRemove (i : string) | NackRename (i : string) | ReclaimRename (i : string).

Inductive IoKind : Type := NotFound | OtherError.

(** How [fs::write] fails: before the file is truncated, or after [k] bytes were written. *)
Inductive WriteFault : Type := OpenFails | Torn (k : nat).

(** What the file system does during one call of an operation. *)
Record Faults : Type := mkFaults {
  read_dir_fails : option IoKind;
  entry_fails : string → bool;
  is_file : string → bool;
  unreadable : string → bool;
  rename_fails : string → bool;
  remove_fails : string → bool;
  write_fails : string → option WriteFault;
}.

Definition no_faults : Faults :=
  mkFaults None (λ _, false) (λ _, true) (λ _, false) (λ _, false) (λ _, false) (λ _, None).

(** [fs::rename(src/n, dst/n)]. *)
Definition rename_file (f : Faults) (n : string) (src dst : gmap string string)
  : result (gmap string string * gmap string string) IoKind :=
  match src !! n with
  | None => Err NotFound
  | Some c => if rename_fails f n then Err OtherError else Ok (delete n src, <[n := c]> dst)
  end.

(** [fs::write(dir/n, text)]. *)
Definition write_file (f : Faults) (n text : string) (dir : gmap string string)
  : gmap string string * bool :=
  match write_fails f n with
  | None => (<[n := text]> dir, true)
  | Some OpenFails => (dir, false)
  | Some (Torn k) => (<[n := substring 0 k text]> dir, false)
  end.

Section queue.
Context {V F : Type}.
(** [serde_json::to_vec_pretty] and [from_str] of an envelope, [f64::partial_cmp], and the
    order in which [read_dir] lists a directory. *)
Variables (to_json : TaskEnvelope V F → string) (from_json : string → option (TaskEnvelope V F)).
Variable fcmp : F → F → comparison.
Variable read_dir : gmap string string → list string.
Notation Env := (TaskEnvelope V F).

(** * Operations *)

Definition set_new_cur (q : MaildirQueue) (n c : gmap string string) : MaildirQueue :=
  mkMaildir (tmp q) n c.

(** [enqueue] with the fresh UUID and the clock as arguments. *)
Definition enqueue (f : Faults) (task_id : string) (now : F) (p : V) (prio : Z)
  : stm MaildirQueue QueueError string := λ q,
  let envelope := mkEnvelope task_id p (Z.min prio 9) now 0 None in
  let (tmp', ok) := write_file f task_id (to_json envelope) (tmp q) in
  if negb ok then (mkMaildir tmp' (new q) (cur q), Err (WriteTmp task_id))
  else match rename_file f task_id tmp' (new q) with
       | Ok (tmp'', new') => (mkMaildir tmp'' new' (cur q), Ok task_id)
       | Err _ => (mkMaildir tmp' (new q) (cur q), Err (RenameTmpNew task_id))
       end.

Fixpoint scan_entries (f : Faults) (dir : gmap string string) (names : list string)
  : result (list Env) QueueError :=
  match names with
  | [] => Ok []
  | n :: ns =>
      if entry_fails f n then Err ReadEntry
      else if negb (is_file f n) || unreadable f n then scan_entries f dir ns
      else match dir !! n ≫= from_json with
           | None => scan_entries f dir ns
           | Some e => result_bind (λ l, Ok (e :: l)) (scan_entries f dir ns)
           end
  end.

Definition list_envelopes (f : Faults) (dir : gmap string string) : result (list Env) QueueError :=
  match read_dir_fails f with
  | Some NotFound => Ok []
  | Some OtherError => Err ReadDir
  | None => scan_entries f dir (read_dir dir)
  end.

Definition cmp_envelope (a b : Env) : comparison :=
  match priority a ?= priority b with
  | Eq => fcmp (created_at a) (created_at b)
  | c => c
  end.
Definition envelope_le (a b : Env) : bool :=
  match cmp_envelope a b with Gt => false | _ => true end.

(** The envelope a claim writes back and returns. *)
Definition claimed (o : option string) (e : Env) : Env :=
  mkEnvelope (id e) (payload e) (priority e) (created_at e)
    (saturating_add u32_max (attempts e) 1)
    (match o with Some _ => o | None => owner e end).

Fixpoint claim_loop (f : Faults) (o : option string) (cands : list Env)
  : stm MaildirQueue QueueError (option Env) := λ q,
  match cands with
  | [] => (q, Ok None)
  | e :: es =>
      match rename_file f (id e) (new q) (cur q) with
      | Ok (new', cur') =>
          let (cur'', ok) := write_file f (id e) (to_json (claimed o e)) cur' in
          (set_new_cur q new' cur'', if ok then Ok (Some (claimed o e)) else Err (UpdateCur (id e)))
      | Err NotFound => claim_loop f o es q
      | Err OtherError => (q, Err (ClaimRename (id e)))
      end
  end.

Definition claim (f : Faults) (o : option string) : stm MaildirQueue QueueError (option Env) := λ q,
  match list_envelopes f (new q) with
  | Err e => (q, Err e)
  | Ok [] => (q, Ok None)
  | Ok candidates => claim_loop f o (sort_by envelope_le candidates) q
  end.

Definition dequeue := claim.

Definition ack (f : Faults) (task_id : string) : stm MaildirQueue QueueError unit := λ q,
  match cur q !! task_id with
  | None => (q, Ok tt)
  | Some _ => if remove_fails f task_id then (q, Err (AckRemove task_id))
              else (set_new_cur q (new q) (delete task_id (cur q)), Ok tt)
  end.

Definition nack (f : Faults) (task_id : string) : stm MaildirQueue QueueError unit := λ q,
  match rename_file f task_id (cur q) (new q) with
  | Ok (cur', new') => (set_new_cur q new' cur', Ok tt)
  | Err NotFound => (q, Ok tt)
  | Err OtherError => (q, Err (NackRename task_id))
  end.

Definition list_pending (f : Faults) (q : MaildirQueue) : result (list Env) QueueError :=
  result_bind (λ a, result_bind (λ b, Ok (a ++ b)) (list_envelopes f (cur q)))
    (list_envelopes f (new q)).

(** The entries of [cur/], one after the other; [names] is the iterator of [read_dir]. *)
Fixpoint reclaim_loop (f : Faults) (o : string) (reclaimed : nat) (names : list string)
  : stm MaildirQueue QueueError nat := λ q,
  match names with
  | [] => (q, Ok reclaimed)
  | n :: ns =>
      if entry_fails f n then (q, Err ReadEntry)
      else if negb (is_file f n) || unreadable f n then reclaim_loop f o reclaimed ns q
      else match cur q !! n ≫= from_json with
           | None => reclaim_loop f o reclaimed ns q
           | Some e =>
               if bool_decide (owner e ≠ Some o) then reclaim_loop f o reclaimed ns q
               else match rename_file f n (cur q) (new q) with
                    | Ok (cur', new') => reclaim_loop f o (S reclaimed) ns (set_new_cur q new' cur')
                    | Err NotFound => reclaim_loop f o reclaimed ns q
                    | Err OtherError => (q, Err (ReclaimRename n))
                    end
           end
  end.

Definition reclaim_owner (f : Faults) (o : string) : stm MaildirQueue QueueError nat := λ q,
  match read_dir_fails f with
  | Some _ => (q, Err ReadDir)
  | None => reclaim_loop f o 0 (read_dir (cur q)) q
  end.

Record MaildirStatus : Type := mkStatus { ready : nat; in_flight : nat; pending : nat }.

Definition status (f : Faults) (q : MaildirQueue) : result MaildirStatus QueueError :=
  result_bind (λ r, result_bind (λ c, Ok (mkStatus (length r) (length c) (length r + length c)))
    (list_envelopes f (cur q))) (list_envelopes f (new q)).

(** A worker that claims and acknowledges until the queue is empty. *)
Fixpoint drain_queue (fuel : nat) (o : option string) (q : MaildirQueue)
  : MaildirQueue * option (list Env) :=
  match fuel with
  | O => (q, None)
  | S fuel' =>
      match claim no_faults o q with
      | (q1, Ok (Some e)) =>
          match ack no_faults (id e) q1 with
          | (q2, Ok _) => let (q3, r) := drain_queue fuel' o q2 in (q3, cons e <$> r)
          | (q2, Err _) => (q2, None)
          end
      | (q1, Ok None) => (q1, Some [])
      | (q1, Err _) => (q1, None)
      end
  end.
End queue.

(** * What one worker gets *)

(** Every file of the directory decodes to an envelope with its name: what [enqueue], [claim]
    and [nack] leave behind. *)
Definition dir_ok {V F} (from_json : string → option (TaskEnvelope V F))
    (dir : gmap string string) : Prop :=
  map_Forall (λ n c, ∃ e, from_json c = Some e ∧ id e = n) dir.

Section drain.
Context {V F : Type}.
Variables (to_json : TaskEnvelope V F → string) (from_json : string → option (TaskEnvelope V F)).
Variable fcmp : F → F → comparison.
Variable read_dir : gmap string string → list string.
Hypothesis fcmp_opp : ∀ x y, fcmp y x = CompOpp (fcmp x y).
Hypothesis fcmp_trans : ∀ x y z, fcmp x y ≠ Gt → fcmp y z ≠ Gt → fcmp x z ≠ Gt.
Hypothesis read_dir_all : ∀ m n, n ∈ read_dir m ↔ n ∈ dom m.

Lemma envelope_le_total (a b : TaskEnvelope V F) :
  envelope_le fcmp a b = true ∨ envelope_le fcmp b a = true.
Proof.
  unfold envelope_le, cmp_envelope. rewrite (Z.compare_antisym (priority a)), (fcmp_opp (created_at a)).
  destruct (_ ?= _), (fcmp _ _); simpl; auto.
Qed.

Lemma envelope_le_trans (a b c : TaskEnvelope V F) :
  envelope_le fcmp a b = true → envelope_le fcmp b c = true → envelope_le fcmp a c = true.
Proof.
  unfold envelope_le, cmp_envelope. intros H1 H2.
  destruct (Z.compare_spec (priority a) (priority b)), (Z.compare_spec (priority b) (priority c)),
    (Z.compare_spec (priority a) (priority c)); try done; try lia.
  destruct (fcmp (created_at a) (created_at c)) eqn:E; [done..|].
  exfalso. apply (fcmp_trans (created_at a) (created_at b) (created_at c)); [..|done].
  - by destruct (fcmp (created_at a) (created_at b)).
  - by destruct (fcmp (created_at b) (created_at c)).
Qed.

Lemma scan_entries_good dir names :
  scan_entries from_json no_faults dir names = Ok (omap (λ n, dir !! n ≫= from_json) names).
Proof.
  induction names as [|n ns IH]; [done|]. simpl. rewrite IH. by destruct (dir !! n ≫= from_json).
Qed.

Lemma list_envelopes_good dir : dir_ok from_json dir →
  ∃ l, list_envelopes from_json read_dir no_faults dir = Ok l ∧
    ∀ e, e ∈ l ↔ dir !! id e ≫= from_json = Some e.
Proof.
  intros Hok. exists (omap (λ n, dir !! n ≫= from_json) (read_dir dir)).
  split; [apply scan_entries_good|]. intros e. rewrite list_elem_of_omap. split.
  - intros (n & Hn & He). destruct (dir !! n) as [c|] eqn:Ec; [|done].
    destruct (Hok _ _ Ec) as (e' & He' & <-). simpl in He. rewrite He' in He. simplify_eq.
    by rewrite Ec.
  - intros He. exists (id e). split; [|done]. apply read_dir_all, elem_of_dom.
    by destruct (dir !! id e).
Qed.

Lemma claim_takes_least o q : dir_ok from_json (new q) →
  (new q = ∅ ∧ claim to_json from_json fcmp read_dir no_faults o q = (q, Ok None)) ∨
  ∃ e, new q !! id e ≫= from_json = Some e ∧
    (∀ e', new q !! id e' ≫= from_json = Some e' → envelope_le fcmp e e' = true) ∧
    claim to_json from_json fcmp read_dir no_faults o q =
      (set_new_cur q (delete (id e) (new q)) (<[id e := to_json (claimed o e)]> (cur q)),
       Ok (Some (claimed o e))).
Proof.
  intros Hok. unfold claim. destruct (list_envelopes_good _ Hok) as (l & -> & Hl).
  pose proof (sort_by_sorted (envelope_le fcmp) l envelope_le_total envelope_le_trans) as Hs.
  pose proof (sort_by_perm (envelope_le fcmp) l) as Hp.
  destruct l as [|e0 l].
  - left. split; [|done]. apply map_empty. intros n.
    destruct (new q !! n) as [c|] eqn:Ec; [exfalso|done].
    destruct (Hok _ _ Ec) as (e & He & <-). specialize (Hl e). rewrite Ec in Hl. simpl in Hl.
    set_solver.
  - right. destruct (sort_by _ _) as [|e k]; [by apply Permutation_nil_cons in Hp|].
    exists e. assert (new q !! id e ≫= from_json = Some e) as He.
    { apply Hl. rewrite <- Hp. by left. }
    split_and!; [done| |].
    + intros e' He'%Hl. rewrite <- Hp in He'. apply StronglySorted_inv in Hs as [_ Hs].
      apply elem_of_cons in He' as [->|He'].
      * by destruct (envelope_le_total e e).
      * by apply (proj1 (Forall_forall _ _) Hs).
    + simpl. unfold rename_file. destruct (new q !! id e) as [c|] eqn:Ec; [|done]. simpl.
      by rewrite insert_insert_eq.
Qed.

Lemma ack_just_claimed i q n c :
  ack no_faults i (set_new_cur q n (<[i := c]> (cur q))) =
    (set_new_cur q n (delete i (cur q)), Ok tt).
Proof. unfold ack. simpl. by rewrite lookup_insert_eq, delete_insert_eq. Qed.

Lemma drain_stop fuel o q :
  claim to_json from_json fcmp read_dir no_faults o q = (q, Ok None) →
  drain_queue to_json from_json fcmp read_dir (S fuel) o q = (q, Some []).
Proof. intros H. cbn [drain_queue]. by rewrite H. Qed.

Lemma drain_step fuel o q e n :
  claim to_json from_json fcmp read_dir no_faults o q =
    (set_new_cur q n (<[id e := to_json (claimed o e)]> (cur q)), Ok (Some (claimed o e))) →
  drain_queue to_json from_json fcmp read_dir (S fuel) o q =
    let (q3, r) := drain_queue to_json from_json fcmp read_dir fuel o
                     (set_new_cur q n (delete (id e) (cur q))) in
    (q3, cons (claimed o e) <$> r).
Proof.
  intros H. cbn [drain_queue]. rewrite H. change (id (claimed o e)) with (id e).
  by rewrite ack_just_claimed.
Qed.

Lemma difference_delete_both (m k : gmap string string) i :
  is_Some (k !! i) → delete i m ∖ delete i k = m ∖ k.
Proof.
  intros [c Hc]. apply map_eq. intros n. apply option_eq. intros x.
  rewrite !lookup_difference_Some. destruct (decide (n = i)) as [->|].
  - rewrite !lookup_delete_eq. naive_solver.
  - by rewrite !lookup_delete_ne by done.
Qed.

Lemma drain_empty (o : option string) (q : MaildirQueue) : new q = ∅ →
  ∃ q' (l : list (TaskEnvelope V F)), (q, Some []) = (q', Some l) ∧
    NoDup (id <$> l) ∧ (∀ n, n ∈ id <$> l ↔ n ∈ dom (new q)) ∧
    StronglySorted (λ a b, envelope_le fcmp a b = true) l ∧
    Forall (λ e, ∃ e0, new q !! id e ≫= from_json = Some e0 ∧ e = claimed o e0) l ∧
    q' = mkMaildir (tmp q) ∅ (cur q ∖ new q).
Proof.
  intros Hn. exists q, []. rewrite Hn. split_and!; [done|constructor|set_solver|constructor..|].
  rewrite map_difference_empty. by destruct q; simpl in *; subst.
Qed.

End drain.

(** * A concrete text form, and a double delivery *)

(** Fields separated by bars: enough of a codec to run the queue on. *)
Definition demo_to_json (e : TaskEnvelope unit Z) : string :=
  join_with "|" [id e; show_u (priority e); show_u (created_at e); show_u (attempts e);
                 match owner e with Some o => o | None => EmptyString end].
Definition demo_from_json (s : string) : option (TaskEnvelope unit Z) :=
  match split_on "|" s with
  | [i; p; t; a; o] =>
      p ← parse_uint u8_max p; t ← parse_uint u64_max t; a ← parse_uint u32_max a;
      Some (mkEnvelope i tt p t a (if str_is_empty o then None else Some o))
  | _ => None
  end.
Definition demo_read_dir (m : gmap string string) : list string := elements (dom m : gset string).

Definition demo_queue : MaildirQueue :=
  mkMaildir ∅ (<["b" := "b|5|2|0|"]> (<["a" := "a|5|1|0|"]> (<["c" := "c|1|9|0|"]> ∅))) ∅.


Example drain_order : fmap (M:=option) (fmap id) (drain_queue demo_to_json demo_from_json Z.compare demo_read_dir 4
  (Some "w") demo_queue).2 = Some ["c"; "a"; "b"].
Proof. by vm_compute. Qed.

Section double_delivery.
Notation demo_claim := (claim demo_to_json demo_from_json Z.compare demo_read_dir no_faults).
Notation demo_reclaim := (reclaim_owner demo_from_json demo_read_dir no_faults).

Definition delivered (r : result (option (TaskEnvelope unit Z)) QueueError)
  : option (string * option string) :=
  match r with Ok (Some e) => Some (id e, owner e) | _ => None end.

(** A claim without an owner keeps the name of an earlier claimant in the envelope. After worker
    [x] gave task [c] back, an anonymous worker claims it; reclaiming the tasks of [x], which
    holds none, takes it from that worker, and the next claim delivers it a second time. *)
Lemma anonymous_claim_is_stolen :
  let '(q1, r1) := demo_claim (Some "x") demo_queue in
  let '(q2, _) := nack no_faults "c" q1 in
  let '(q3, r3) := demo_claim None q2 in
  let '(q4, r4) := demo_reclaim "x" q3 in
  let '(_, r5) := demo_claim (Some "z") q4 in
  (delivered r1, delivered r3, r4, delivered r5) =
    (Some ("c", Some "x"), Some ("c", Some "x"), Ok 1%nat, Some ("c", Some "z")).
Proof. by vm_compute. Qed.
End double_delivery.
