(* ===== verification/MaildirProtocol.v ===== *)
(** Any number of workers on one Maildir queue (crates/sharecli-mesh/src/task_queue.rs): each step
    of the relation is one system call of [enqueue], [claim], [ack], [nack] or [reclaim_owner],
    a failure of one, or a crash. *)
From S2P Require Import Prelude MaildirQueue.

Section protocol.
Context {V F : Type}.
Notation Env := (TaskEnvelope V F).
Variables (to_json : Env → string) (from_json : string → option Env).
Variable fcmp : F → F → comparison.
(** The owner each worker passes to [claim]. *)
Variable lab : nat → option string.

(** Where a worker is. *)
Inductive wpc : Type :=
| Idle
| EnqTmp (n : string)                        (* [tmp/n] written, before the rename to [new/] *)
| Scan (names : list string) (acc : list Env)  (* inside [list_envelopes] *)
| Try (cands : list Env)                     (* inside the candidate loop *)
| Renamed (e : Env)                          (* renamed to [cur/], before or inside [fs::write] *)
| Held (e : Env)                             (* [claim] returned [e]; not yet settled *)
| Dead.

(** [used]: ids given out by [enqueue]; [acked]: ids whose [ack] succeeded. *)
Record sys : Type := mkSys {
  queue : MaildirQueue;
  pcs : gmap nat wpc;
  used : gset string;
  acked : gset string;
}.

Definition init : sys := mkSys (mkMaildir ∅ ∅ ∅) ∅ ∅ ∅.

Definition searching (p : wpc) : bool :=
  match p with Scan _ _ | Try _ => true | _ => false end.

Definition goto (w : nat) (p : wpc) (s : sys) : sys :=
  mkSys (queue s) (<[w := p]> (pcs s)) (used s) (acked s).
Definition with_queue (q : MaildirQueue) (s : sys) : sys :=
  mkSys q (pcs s) (used s) (acked s).
Definition use_id (n : string) (s : sys) : sys :=
  mkSys (queue s) (pcs s) ({[n]} ∪ used s) (acked s).
Definition mark_acked (n : string) (s : sys) : sys :=
  mkSys (queue s) (pcs s) (used s) ({[n]} ∪ acked s).
Definition put_tmp (n c : string) (q : MaildirQueue) : MaildirQueue :=
  mkMaildir (<[n := c]> (tmp q)) (new q) (cur q).
Definition put_cur (n c : string) (q : MaildirQueue) : MaildirQueue :=
  mkMaildir (tmp q) (new q) (<[n := c]> (cur q)).

(** [may_reclaim s o]: the circumstances in which [reclaim_owner(o)] is run. One step of it is
    the reading and the renaming of one file. *)
Inductive mstep (may_reclaim : sys → string → Prop) : sys → sys → Prop :=
| m_arrive w s : pcs s !! w = None → mstep may_reclaim s (goto w Idle s)
| m_enq_write w s n now p prio :
    pcs s !! w = Some Idle → n ∉ used s →
    mstep may_reclaim s (goto w (EnqTmp n) (use_id n (with_queue
      (put_tmp n (to_json (mkEnvelope n p (Z.min prio 9) now 0 None)) (queue s)) s)))
| m_enq_torn w s n now p prio k :
    pcs s !! w = Some Idle → n ∉ used s →
    mstep may_reclaim s (use_id n (with_queue
      (put_tmp n (substring 0 k (to_json (mkEnvelope n p (Z.min prio 9) now 0 None))) (queue s)) s))
| m_enq_rename w s n t' n' :
    pcs s !! w = Some (EnqTmp n) →
    rename_file no_faults n (tmp (queue s)) (new (queue s)) = Ok (t', n') →
    mstep may_reclaim s (goto w Idle (with_queue (mkMaildir t' n' (cur (queue s))) s))
| m_enq_fails w s n : pcs s !! w = Some (EnqTmp n) → mstep may_reclaim s (goto w Idle s)
| m_list w s names : pcs s !! w = Some Idle → mstep may_reclaim s (goto w (Scan names []) s)
| m_read w s n names acc e :
    pcs s !! w = Some (Scan (n :: names) acc) →
    new (queue s) !! n ≫= from_json = Some e →
    mstep may_reclaim s (goto w (Scan names (acc ++ [e])) s)
| m_read_skip w s n names acc :
    pcs s !! w = Some (Scan (n :: names) acc) → mstep may_reclaim s (goto w (Scan names acc) s)
| m_sort w s acc :
    pcs s !! w = Some (Scan [] acc) →
    mstep may_reclaim s (goto w (Try (sort_by (envelope_le fcmp) acc)) s)
| m_rename w s e es n' c' :
    pcs s !! w = Some (Try (e :: es)) →
    rename_file no_faults (id e) (new (queue s)) (cur (queue s)) = Ok (n', c') →
    mstep may_reclaim s
      (goto w (Renamed (claimed (lab w) e)) (with_queue (set_new_cur (queue s) n' c') s))
| m_gone w s e es :
    pcs s !! w = Some (Try (e :: es)) → new (queue s) !! id e = None →
    mstep may_reclaim s (goto w (Try es) s)
| m_none w s : pcs s !! w = Some (Try []) → mstep may_reclaim s (goto w Idle s)
| m_claim_fails w s p :
    pcs s !! w = Some p → searching p = true → mstep may_reclaim s (goto w Idle s)
| m_write_part w s e k :
    pcs s !! w = Some (Renamed e) →
    mstep may_reclaim s (with_queue (put_cur (id e) (substring 0 k (to_json e)) (queue s)) s)
| m_write w s e :
    pcs s !! w = Some (Renamed e) →
    mstep may_reclaim s
      (goto w (Held e) (with_queue (put_cur (id e) (to_json e) (queue s)) s))
| m_write_fails w s e : pcs s !! w = Some (Renamed e) → mstep may_reclaim s (goto w Idle s)
| m_ack w s e q' :
    pcs s !! w = Some (Held e) → ack no_faults (id e) (queue s) = (q', Ok tt) →
    mstep may_reclaim s (goto w Idle (mark_acked (id e) (with_queue q' s)))
| m_nack w s e q' :
    pcs s !! w = Some (Held e) → nack no_faults (id e) (queue s) = (q', Ok tt) →
    mstep may_reclaim s (goto w Idle (with_queue q' s))
| m_crash w s p : pcs s !! w = Some p → mstep may_reclaim s (goto w Dead s)
| m_reclaim s o n e c' n' :
    may_reclaim s o →
    cur (queue s) !! n ≫= from_json = Some e → owner e = Some o →
    rename_file no_faults n (cur (queue s)) (new (queue s)) = Ok (c', n') →
    mstep may_reclaim s (with_queue (set_new_cur (queue s) n' c') s).

(** Nobody is between the rename and the write of a claim, and no worker holds a task that is
    recorded under [o]. *)
Definition quiescent (s : sys) (o : string) : Prop :=
  ∀ w, match pcs s !! w with
       | Some (Renamed _) => False
       | Some (Held e) => owner e ≠ Some o
       | _ => True
       end.

(** Every worker that claims as [o] has crashed: when an operator would reclaim. *)
Definition owner_stopped (s : sys) (o : string) : Prop :=
  ∀ w p, lab w = Some o → pcs s !! w = Some p → p = Dead.

Definition in_charge (p : wpc) : option string :=
  match p with Renamed e | Held e => Some (id e) | _ => None end.
Definition staging (p : wpc) : option string :=
  match p with EnqTmp n => Some n | _ => None end.

Definition here (m : gmap string string) (n : string) : nat :=
  match m !! n with Some _ => 1 | None => 0 end.
Definition mem (X : gset string) (n : string) : nat := if decide (n ∈ X) then 1 else 0.
(** In how many of the four places task [n] is. *)
Definition places (s : sys) (n : string) : nat :=
  here (tmp (queue s)) n + here (new (queue s)) n + here (cur (queue s)) n + mem (acked s) n.

(** * Invariant *)

Hypothesis json_owner : ∀ e e', from_json (to_json e) = Some e' → owner e' = owner e.

(** Tags of workers (the task in charge, the file being staged) point to files of a directory,
    one worker per file. *)
Definition tagged (tag : wpc → option string) (m : gmap string string) (ps : gmap nat wpc) : Prop :=
  (∀ w p n, ps !! w = Some p → tag p = Some n → is_Some (m !! n)) ∧
  (∀ w w' p p' n, ps !! w = Some p → ps !! w' = Some p' → tag p = Some n → tag p' = Some n → w = w').

Lemma tagged_clear tag m ps w p : tag p = None → tagged tag m ps → tagged tag m (<[w := p]> ps).
Proof.
  intros Hp [H1 H2]. split.
  - intros w' p' n [[<- <-]|[_ H]]%lookup_insert_Some; [congruence|eauto].
  - intros a b p' p'' n [[<- <-]|[_ Ha]]%lookup_insert_Some [[<- <-]|[_ Hb]]%lookup_insert_Some;
      try congruence; eauto.
Qed.

(** A worker takes a file nobody has. *)
Lemma tagged_take tag m ps w p n : tag p = Some n → is_Some (m !! n) →
  (∀ w' p', w' ≠ w → ps !! w' = Some p' → tag p' ≠ Some n) →
  tagged tag m ps → tagged tag m (<[w := p]> ps).
Proof.
  intros Hp Hm Hfree [H1 H2]. split.
  - intros w' p' k [[<- <-]|[_ H]]%lookup_insert_Some; [by intros; simplify_eq|eauto].
  - intros a b p' p'' k [[<- <-]|[Ha' Ha]]%lookup_insert_Some [[<- <-]|[Hb' Hb]]%lookup_insert_Some
      Hta Htb; simplify_eq; [done|..|eauto].
    + by destruct (Hfree b p'').
    + by destruct (Hfree a p').
Qed.

Lemma tagged_grow tag (m m' : gmap string string) ps :
  (∀ n, is_Some (m !! n) → is_Some (m' !! n)) → tagged tag m ps → tagged tag m' ps.
Proof. intros Hm [H1 H2]. split; eauto. Qed.

(** A file nobody has goes away. *)
Lemma tagged_drop tag m ps n :
  (∀ w p, ps !! w = Some p → tag p ≠ Some n) → tagged tag m ps → tagged tag (delete n m) ps.
Proof.
  intros Hfree [H1 H2]. split; [|done]. intros w p k Hw Hk. destruct (decide (k = n)) as [->|].
  - by destruct (Hfree w p).
  - rewrite lookup_delete_ne by done. eauto.
Qed.

Definition held_ok (m : gmap string string) (ps : gmap nat wpc) : Prop :=
  ∀ w e, ps !! w = Some (Held e) → m !! id e = Some (to_json e).

Definition Inv (s : sys) : Prop :=
  (∀ n, places s n = mem (used s) n) ∧ tagged in_charge (cur (queue s)) (pcs s) ∧
  tagged staging (tmp (queue s)) (pcs s) ∧ held_ok (cur (queue s)) (pcs s).

Lemma held_clear m ps w p : (∀ e, p ≠ Held e) → held_ok m ps → held_ok m (<[w := p]> ps).
Proof. intros Hp H w' e [[_ ->]|[_ ?]]%lookup_insert_Some; [by destruct (Hp e)|eauto]. Qed.

(** A step after which the worker has nothing in hand keeps the invariant of the rest. *)
Lemma inv_free s w p : in_charge p = None → staging p = None → Inv s → Inv (goto w p s).
Proof.
  unfold Inv. intros Hc Hs (H1 & H2 & H3 & H4). simpl.
  split_and!; [done|by apply tagged_clear..|]. apply held_clear; [|done]. by intros e ->.
Qed.

Lemma mem_le X n : (mem X n ≤ 1)%nat.
Proof. unfold mem. destruct (decide _); lia. Qed.

Lemma mem_not X n : n ∉ X → mem X n = 0%nat.
Proof. intros H. unfold mem. by rewrite decide_False. Qed.

Lemma mem_add X k n : mem ({[k]} ∪ X) n = if decide (n = k) then 1%nat else mem X n.
Proof. unfold mem. repeat destruct (decide _); set_solver. Qed.

Lemma here_insert m k c n : here (<[k := c]> m) n = if decide (n = k) then 1%nat else here m n.
Proof.
  unfold here. destruct (decide (n = k)) as [->|]; [by rewrite lookup_insert_eq|].
  by rewrite lookup_insert_ne.
Qed.

Lemma here_delete m k n : here (delete k m) n = if decide (n = k) then 0%nat else here m n.
Proof.
  unfold here. destruct (decide (n = k)) as [->|]; [by rewrite lookup_delete_eq|].
  by rewrite lookup_delete_ne.
Qed.

Lemma here_some m n : is_Some (m !! n) → here m n = 1%nat.
Proof. intros [c H]. unfold here. by rewrite H. Qed.

Lemma rename_file_ok n src dst s' d' : rename_file no_faults n src dst = Ok (s', d') →
  ∃ c, src !! n = Some c ∧ s' = delete n src ∧ d' = <[n := c]> dst.
Proof. unfold rename_file. destruct (src !! n) as [c|]; [|done]. simpl. intros. simplify_eq. eauto. Qed.

(** The bookkeeping of one moved file. *)
Ltac count_places k :=
  let n := fresh "n" in
  let Hn := fresh "Hn" in
  match goal with H : ∀ x, places _ x = mem _ x |- _ =>
    intros n; pose proof (H n) as Hn; unfold places in Hn |- *; simpl in Hn |- *;
    rewrite ?mem_add, ?here_insert, ?here_delete;
    destruct (decide (n = k)) as [->|]; [|done];
    repeat match goal with
    | Hl : is_Some (_ !! k) |- _ => apply here_some in Hl
    end;
    match type of Hn with _ = mem ?X _ => pose proof (mem_le X k) end; lia
  end.

Lemma inv_enq_write s n c : n ∉ used s → Inv s →
  Inv (use_id n (with_queue (put_tmp n c (queue s)) s)).
Proof.
  intros Hn (H1 & H2 & H3 & H4). split_and!; simpl; [|done| |done].
  - apply mem_not in Hn. count_places n.
  - apply (tagged_grow _ (tmp (queue s))); [|done]. intros k Hk.
    destruct (decide (k = n)) as [->|]; [by rewrite lookup_insert_eq|by rewrite lookup_insert_ne].
Qed.

(** A worker settles its file: the file goes and nobody has it. *)
Lemma tagged_release tag m ps w p0 p n :
  ps !! w = Some p0 → tag p0 = Some n → tag p = None →
  tagged tag m ps → tagged tag (delete n m) (<[w := p]> ps).
Proof.
  intros Hw Ht Hp H. apply tagged_drop; [|by apply tagged_clear].
  intros w' p' [[<- <-]|[Hne Hw']]%lookup_insert_Some; [congruence|].
  intros Ht'. apply Hne. eapply (proj2 H); eauto.
Qed.

(** Nobody has a file that is not there. *)
Lemma tagged_absent tag m ps n w p :
  tagged tag m ps → m !! n = None → ps !! w = Some p → tag p ≠ Some n.
Proof. intros [H _] Hn Hw Ht. destruct (H w p n Hw Ht) as [c Hc]. congruence. Qed.

Lemma is_some_insert (m : gmap string string) k c n :
  is_Some (m !! n) → is_Some (<[k := c]> m !! n).
Proof. rewrite lookup_insert_is_Some'. auto. Qed.

(** Writing the file [w] is in charge of leaves what the others hold. *)
Lemma held_write m ps w p n c :
  tagged in_charge m ps → ps !! w = Some p → in_charge p = Some n → (∀ e, p ≠ Held e) →
  held_ok m ps → held_ok (<[n := c]> m) ps.
Proof.
  intros Ht Hw Hp Hnh H w' e He. rewrite lookup_insert_ne; [by eapply H|]. intros ->.
  assert (w = w') as <- by (by eapply (proj2 Ht)). simplify_eq. by apply (Hnh e).
Qed.

Lemma held_drop m ps n :
  (∀ w p, ps !! w = Some p → in_charge p ≠ Some n) → held_ok m ps → held_ok (delete n m) ps.
Proof.
  intros Hf H w e He. rewrite lookup_delete_ne; [by eapply H|]. intros ->. by apply (Hf _ _ He).
Qed.

Lemma held_release m ps w p0 p n :
  tagged in_charge m ps → ps !! w = Some p0 → in_charge p0 = Some n → in_charge p = None →
  held_ok m ps → held_ok (delete n m) (<[w := p]> ps).
Proof.
  intros Ht Hw Hp0 Hp H. apply held_drop.
  - intros w' p' [[<- <-]|[Hne Hw']]%lookup_insert_Some; [congruence|].
    intros Ht'. apply Hne. eapply (proj2 Ht); eauto.
  - apply held_clear; [|done]. by intros e ->.
Qed.

Lemma inv_enq_staged s w n c : n ∉ used s → Inv s →
  Inv (goto w (EnqTmp n) (use_id n (with_queue (put_tmp n c (queue s)) s))).
Proof.
  intros Hn HI. pose proof (inv_enq_write s n c Hn HI) as (H1 & H2 & H3 & H4). simpl in *.
  split_and!; simpl; [done|by apply tagged_clear| |by apply held_clear].
  apply (tagged_take _ _ _ _ _ n); [done|by rewrite lookup_insert_eq| |done].
  intros w' p' _ Hw'. destruct HI as (HI1 & _ & HI3 & _). eapply tagged_absent; [exact HI3| |exact Hw'].
  specialize (HI1 n). unfold places, here at 1 in HI1. rewrite (mem_not (used s)) in HI1 by done.
  destruct (tmp (queue s) !! n); [lia|done].
Qed.

Lemma inv_enq_rename s w n t' n' : pcs s !! w = Some (EnqTmp n) →
  rename_file no_faults n (tmp (queue s)) (new (queue s)) = Ok (t', n') → Inv s →
  Inv (goto w Idle (with_queue (mkMaildir t' n' (cur (queue s))) s)).
Proof.
  intros Hw (c & Hc & -> & ->)%rename_file_ok (H1 & H2 & H3 & H4).
  assert (is_Some (tmp (queue s) !! n)) as Hs by eauto.
  split_and!; simpl; [|by apply tagged_clear|by eapply tagged_release|by apply held_clear].
  count_places n.
Qed.

Lemma inv_rename s w p e n' c' : pcs s !! w = Some p →
  rename_file no_faults (id e) (new (queue s)) (cur (queue s)) = Ok (n', c') → Inv s →
  Inv (goto w (Renamed (claimed (lab w) e)) (with_queue (set_new_cur (queue s) n' c') s)).
Proof.
  intros Hw (c & Hc & -> & ->)%rename_file_ok (H1 & H2 & H3 & H4).
  assert (is_Some (new (queue s) !! id e)) as Hs by eauto.
  assert (cur (queue s) !! id e = None) as Hcur.
  { pose proof (H1 (id e)) as Hp. unfold places in Hp. rewrite (here_some (new _)) in Hp by done.
    pose proof (mem_le (used s) (id e)). unfold here at 2 in Hp.
    destruct (cur (queue s) !! id e); [lia|done]. }
  split_and!; simpl; [count_places (id e)| |by apply tagged_clear|].
  - eapply tagged_take; [done|by rewrite lookup_insert_eq| |].
    + intros w' p' _ Hw'. by eapply tagged_absent.
    + eapply tagged_grow; [|done]. apply is_some_insert.
  - apply held_clear; [done|]. intros w' e' He'. rewrite lookup_insert_ne; [by eapply H4|].
    intros E. by eapply (tagged_absent _ _ _ _ _ _ H2 Hcur He'); simpl; f_equal.
Qed.

Lemma inv_write_part s w e c : pcs s !! w = Some (Renamed e) → Inv s →
  Inv (with_queue (put_cur (id e) c (queue s)) s).
Proof.
  intros Hw (H1 & H2 & H3 & H4).
  assert (is_Some (cur (queue s) !! id e)) as Hs by (by eapply (proj1 H2)).
  split_and!; simpl; [count_places (id e)| |done|].
  - eapply tagged_grow; [|done]. apply is_some_insert.
  - by eapply held_write.
Qed.

Lemma inv_write s w e : pcs s !! w = Some (Renamed e) → Inv s →
  Inv (goto w (Held e) (with_queue (put_cur (id e) (to_json e) (queue s)) s)).
Proof.
  intros Hw HI. destruct (inv_write_part s w e (to_json e) Hw HI) as (H1 & H2 & H3 & H4).
  split_and!; simpl in *; [done| |by apply tagged_clear|].
  - eapply tagged_take; [done|by rewrite lookup_insert_eq| |done].
    intros w' p' Hne Hw' Ht. apply Hne. symmetry. by eapply (proj2 H2).
  - intros w' e' [[<- ?]|[_ ?]]%lookup_insert_Some; [|eauto].
    simplify_eq. by rewrite lookup_insert_eq.
Qed.

Lemma inv_ack s w e q' : pcs s !! w = Some (Held e) →
  ack no_faults (id e) (queue s) = (q', Ok tt) → Inv s →
  Inv (goto w Idle (mark_acked (id e) (with_queue q' s))).
Proof.
  intros Hw Ha (H1 & H2 & H3 & H4).
  assert (is_Some (cur (queue s) !! id e)) as Hs by (by eapply (proj1 H2)).
  unfold ack in Ha. destruct Hs as [c Hc]. rewrite Hc in Ha. simpl in Ha. simplify_eq.
  assert (is_Some (cur (queue s) !! id e)) as Hs by eauto.
  split_and!; simpl; [count_places (id e)|by eapply tagged_release|by apply tagged_clear|].
  by eapply held_release.
Qed.

Lemma inv_nack s w e q' : pcs s !! w = Some (Held e) →
  nack no_faults (id e) (queue s) = (q', Ok tt) → Inv s → Inv (goto w Idle (with_queue q' s)).
Proof.
  intros Hw Ha (H1 & H2 & H3 & H4).
  assert (is_Some (cur (queue s) !! id e)) as Hs by (by eapply (proj1 H2)).
  unfold nack, rename_file in Ha. destruct (cur (queue s) !! id e) as [c|] eqn:Hc; [|by destruct Hs].
  simpl in Ha. simplify_eq.
  assert (is_Some (cur (queue s) !! id e)) as Hs' by eauto.
  split_and!; simpl; [count_places (id e)|by eapply tagged_release|by apply tagged_clear|].
  by eapply held_release.
Qed.

Lemma inv_reclaim s o n e c' n' : quiescent s o →
  cur (queue s) !! n ≫= from_json = Some e → owner e = Some o →
  rename_file no_faults n (cur (queue s)) (new (queue s)) = Ok (c', n') → Inv s →
  Inv (with_queue (set_new_cur (queue s) n' c') s).
Proof.
  intros Hq He Ho (c & Hc & -> & ->)%rename_file_ok (H1 & H2 & H3 & H4).
  assert (∀ w p, pcs s !! w = Some p → in_charge p ≠ Some n) as Hfree.
  { intros w p Hw Hp. specialize (Hq w). rewrite Hw in Hq. destruct p; try done.
    injection Hp as <-. pose proof (H4 _ _ Hw) as Hf. rewrite Hc in Hf. simplify_eq.
    rewrite Hc in He. simpl in He. apply json_owner in He. congruence. }
  assert (is_Some (cur (queue s) !! n)) as Hs by eauto.
  split_and!; simpl; [count_places n|by apply tagged_drop|done|by apply held_drop].
Qed.

Lemma inv_mstep s s' : Inv s → mstep quiescent s s' → Inv s'.
Proof.
  intros HI. destruct 1; try (by apply inv_free).
  - by apply inv_enq_staged.
  - by apply inv_enq_write.
  - by eapply inv_enq_rename.
  - by eapply inv_rename.
  - by eapply inv_write_part.
  - by eapply inv_write.
  - by eapply inv_ack.
  - by eapply inv_nack.
  - by eapply inv_reclaim.
Qed.

Lemma inv_reachable s : rtc (mstep quiescent) init s → Inv s.
Proof.
  intros H. eapply rtc_invariant; [|exact inv_mstep|exact H].
  split_and!; [done|by split|by split|done].
Qed.

(** C11: A task has one claimant. In every interleaving of any number of workers with any failures
    and crashes, with [reclaim_owner] run only while no claim is between its rename and its write
    and nobody holds a task of that owner: two workers that are in charge of the same task are
    the same worker, the task is then not offered in [new/], and a worker that holds a task finds
    in [cur/] the envelope its claim returned. *)
Theorem one_claimant s w w' p p' n :
  rtc (mstep quiescent) init s →
  pcs s !! w = Some p → pcs s !! w' = Some p' → in_charge p = Some n → in_charge p' = Some n →
  w = w' ∧ new (queue s) !! n = None ∧
  (∀ e, p = Held e → cur (queue s) !! n = Some (to_json e)).
Proof.
  intros (H1 & H2 & _ & H4)%inv_reachable Hw Hw' Hp Hp'. split_and!.
  - by eapply (proj2 H2).
  - assert (is_Some (cur (queue s) !! n)) as Hs%here_some by (by eapply (proj1 H2)).
    pose proof (H1 n) as Hn. unfold places, here at 2 in Hn. pose proof (mem_le (used s) n).
    destruct (new (queue s) !! n); [lia|done].
  - intros e ->. simpl in Hp. simplify_eq. eauto.
Qed.

(** C12: No task is lost or duplicated. In every such interleaving, an id that [enqueue] gave out
    is in exactly one of [tmp/], [new/], [cur/] and the acknowledged ones, and no other id is
    anywhere. *)
Theorem no_task_lost s n :
  rtc (mstep quiescent) init s → places s n = if decide (n ∈ used s) then 1%nat else 0%nat.
Proof. intros (H & _)%inv_reachable. apply H. Qed.
End protocol.

(** * The sequential claim is a path of the protocol *)

Section refinement.
Context {V F : Type}.
Notation Env := (TaskEnvelope V F).
Variables (to_json : Env → string) (from_json : string → option Env).
Variable fcmp : F → F → comparison.
Variable read_dir : gmap string string → list string.
Variable lab : nat → option string.
Variable R : sys (V:=V) (F:=F) → string → Prop.
Notation step := (mstep to_json from_json fcmp lab R).

Lemma goto_goto w p p' (s : sys (V:=V) (F:=F)) : goto w p (goto w p' s) = goto w p s.
Proof. unfold goto. simpl. by rewrite insert_insert_eq. Qed.

Lemma pc_goto w p (s : sys (V:=V) (F:=F)) : pcs (goto w p s) !! w = Some p.
Proof. simpl. by rewrite lookup_insert_eq. Qed.

Lemma scan_path f w s names : ∀ acc l,
  scan_entries from_json f (new (queue s)) names = Ok l →
  rtc step (goto w (Scan names acc) s) (goto w (Scan [] (acc ++ l)) s).
Proof.
  induction names as [|n ns IH]; intros acc l; simpl.
  { intros. simplify_eq. by rewrite app_nil_r. }
  destruct (entry_fails f n); [done|].
  assert (∀ l', scan_entries from_json f (new (queue s)) ns = Ok l' →
    rtc step (goto w (Scan (n :: ns) acc) s) (goto w (Scan [] (acc ++ l')) s)) as Hskip.
  { intros l' H. eapply rtc_l; [by eapply m_read_skip, pc_goto|]. rewrite goto_goto. auto. }
  destruct (_ || _); [apply Hskip|]. destruct (_ ≫= from_json) as [e|] eqn:He; [|apply Hskip].
  destruct (scan_entries _ _ _ ns) as [l'|] eqn:Hs; simpl; [|done]. intros. simplify_eq.
  eapply rtc_l; [by eapply m_read; [apply pc_goto|]|]. rewrite goto_goto.
  specialize (IH (acc ++ [e]) l' eq_refl). by rewrite <- (assoc_L (++)) in IH.
Qed.

(** Where a worker is when [claim] has returned. *)
Definition after_claim (r : result (option Env) QueueError) : wpc (V:=V) (F:=F) :=
  match r with Ok (Some e) => Held e | _ => Idle end.

Lemma with_queue_goto q w p (s : sys (V:=V) (F:=F)) :
  with_queue q (goto w p s) = goto w p (with_queue q s).
Proof. done. Qed.

Lemma with_queue_id (s : sys (V:=V) (F:=F)) : with_queue (queue s) s = s.
Proof. by destruct s. Qed.

(** The write of a claim, with its faults. *)
Lemma claim_write_path f w e (s : sys (V:=V) (F:=F)) c ok :
  write_file f (id e) (to_json e) (cur (queue s)) = (c, ok) →
  rtc step (goto w (Renamed e) s)
    (goto w (if ok then Held e else Idle) (with_queue (set_new_cur (queue s) (new (queue s)) c) s)).
Proof.
  unfold write_file. destruct (write_fails f (id e)) as [[|k]|]; intros; simplify_eq.
  - eapply rtc_l; [by eapply m_write_fails, pc_goto|]. rewrite goto_goto. by destruct s as [[]].
  - eapply rtc_l; [by eapply m_write_part, pc_goto|]. rewrite with_queue_goto.
    eapply rtc_l; [by eapply m_write_fails, pc_goto|]. rewrite goto_goto. apply rtc_refl.
  - eapply rtc_l; [by eapply m_write, pc_goto|]. rewrite with_queue_goto, goto_goto.
    apply rtc_refl.
Qed.

Lemma claim_loop_path f w cands : ∀ s q' r,
  claim_loop to_json f (lab w) cands (queue s) = (q', r) →
  rtc step (goto w (Try cands) s) (goto w (after_claim r) (with_queue q' s)).
Proof.
  induction cands as [|e es IH]; intros s q' r; simpl.
  { intros. simplify_eq. eapply rtc_l; [by eapply m_none, pc_goto|].
    by rewrite goto_goto, with_queue_id. }
  unfold rename_file. destruct (new (queue s) !! id e) as [c|] eqn:Hc.
  2: { intros H. eapply rtc_l; [by eapply m_gone; [apply pc_goto|]|]. rewrite goto_goto. auto. }
  destruct (rename_fails f (id e)).
  { intros. simplify_eq. eapply rtc_l; [by eapply m_claim_fails; [apply pc_goto|]|].
    by rewrite goto_goto, with_queue_id. }
  destruct (write_file _ _ _ _) as [c' ok] eqn:Hwr. intros. simplify_eq. eapply rtc_l.
  { eapply m_rename; [apply pc_goto|]. unfold rename_file. simpl. by rewrite Hc. }
  rewrite with_queue_goto, goto_goto. pose proof (claim_write_path f w (claimed (lab w) e)
    (with_queue (set_new_cur (queue s) (delete (id e) (new (queue s)))
       (<[id e := c]> (cur (queue s)))) s) c' ok Hwr) as Hp.
  by destruct ok.
Qed.

(** C14: The sequential [claim] is a path of the protocol: whatever the faults, it takes its
    worker from idle to holding exactly the envelope it returns, or back to idle when it returns
    nothing or an error, and changes the directories as the steps do. *)
Theorem claim_refines_protocol f w (s : sys (V:=V) (F:=F)) q' r :
  pcs s !! w = Some Idle →
  claim to_json from_json fcmp read_dir f (lab w) (queue s) = (q', r) →
  rtc (mstep to_json from_json fcmp lab R) s (goto w (after_claim r) (with_queue q' s)).
Proof.
  intros Hw. unfold claim, list_envelopes.
  assert (goto w Idle s = s) as Hid by (unfold goto; rewrite insert_id by done; by destruct s).
  destruct (read_dir_fails f) as [[|]|];
    [intros; simplify_eq; simpl; by rewrite with_queue_id, Hid..|].
  destruct (scan_entries _ _ _ _) as [l|] eqn:Hs.
  2: { intros. simplify_eq. simpl. by rewrite with_queue_id, Hid. }
  intros H. eapply rtc_l; [by apply (m_list _ _ _ _ _ w s (read_dir (new (queue s))))|].
  etrans; [by eapply (scan_path f w s _ [])|]. simpl.
  eapply rtc_l; [by eapply m_sort, pc_goto|]. rewrite goto_goto.
  apply (claim_loop_path f). destruct l; [|done]. by simplify_eq.
Qed.
End refinement.

(** * Runs on a queue with one task *)

Module OneTask.
(** A codec for the queue whose only task is [t]: the text records the owner. *)
Definition to_json (e : TaskEnvelope unit unit) : string :=
  match owner e with None => "n" | Some o => String "s" o end.
Definition from_json (s : string) : option (TaskEnvelope unit unit) :=
  match s with
  | String "s" o => Some (mkEnvelope "t" tt 0 tt 0 (Some o))
  | String "n" EmptyString => Some (mkEnvelope "t" tt 0 tt 0 None)
  | _ => None
  end.
Definition fcmp (_ _ : unit) : comparison := Eq.
Definition lab (w : nat) : option string :=
  match w with 1%nat => Some "x" | 2%nat => Some "y" | 3%nat => Some "z" | _ => None end.
Definition ls (m : gmap string string) : list string := elements (dom m : gset string).

Lemma owner_kept e e' : from_json (to_json e) = Some e' → owner e' = owner e.
Proof. unfold to_json. destruct (owner e); simpl; by intros; simplify_eq. Qed.

Notation sys1 := (sys (V:=unit) (F:=unit)).
Notation wpc1 := (wpc (V:=unit) (F:=unit)).

Definition claim1 (w : nat) (s : sys1) : sys1 :=
  let '(q', r) := claim to_json from_json fcmp ls no_faults (lab w) (queue s) in
  goto w (after_claim r) (with_queue q' s).
(** The claim of [w] up to and including the rename. *)
Definition take1 (w : nat) (e : TaskEnvelope unit unit) (s : sys1) : sys1 :=
  goto w (Renamed (claimed (lab w) e)) (with_queue (set_new_cur (queue s)
    (delete "t" (new (queue s)))
    (<["t" := default EmptyString (new (queue s) !! "t")]> (cur (queue s)))) s).
Definition back1 (s : sys1) : sys1 :=
  with_queue (set_new_cur (queue s)
    (<["t" := default EmptyString (cur (queue s) !! "t")]> (new (queue s)))
    (delete "t" (cur (queue s)))) s.

Section runs.
Variable R : sys1 → string → Prop.
Notation step := (mstep to_json from_json fcmp lab R).

Lemma claim_path w s : pcs s !! w = Some Idle → rtc step s (claim1 w s).
Proof.
  intros Hw. unfold claim1. destruct (claim _ _ _ _ _ _ _) as [q' r] eqn:E.
  by apply (claim_refines_protocol to_json from_json fcmp ls lab R no_faults).
Qed.

Lemma take_path w e s : pcs s !! w = Some Idle → id e = "t" →
  new (queue s) !! "t" ≫= from_json = Some e → rtc step s (take1 w e s).
Proof.
  intros Hw Ht He. eapply rtc_l; [by apply (m_list _ _ _ _ _ w s ["t"])|].
  eapply rtc_l; [by eapply m_read; [apply pc_goto|]|]. rewrite goto_goto.
  eapply rtc_l; [by eapply m_sort, pc_goto|]. rewrite goto_goto. simpl.
  destruct (new (queue s) !! "t") as [c|] eqn:Ec; [|done]. eapply rtc_l.
  { eapply m_rename; [apply pc_goto|]. unfold rename_file. rewrite Ht. simpl. by rewrite Ec. }
  rewrite with_queue_goto, goto_goto. unfold take1. rewrite Ec. apply rtc_refl.
Qed.

Lemma enqueue_path w s : pcs s !! w = Some Idle → "t" ∉ used s → tmp (queue s) = ∅ →
  rtc step s (goto w Idle (use_id "t" (with_queue (mkMaildir ∅ (<["t" := "n"]> (new (queue s)))
    (cur (queue s))) s))).
Proof.
  intros Hw Hu Ht. eapply rtc_l; [by apply (m_enq_write _ _ _ _ _ w s "t" tt tt 0)|].
  eapply rtc_l.
  - eapply (m_enq_rename _ _ _ _ _ w); [apply pc_goto|]. unfold rename_file. simpl.
    by rewrite lookup_insert_eq.
  - rewrite with_queue_goto, goto_goto. unfold with_queue, goto, use_id. simpl. rewrite Ht.
    rewrite delete_insert_eq, delete_empty. by apply rtc_refl.
Qed.

Lemma nack_path w s e c : pcs s !! w = Some (Held e) → id e = "t" → cur (queue s) !! "t" = Some c →
  rtc step s (goto w Idle (back1 s)).
Proof.
  intros Hw Ht Hc. eapply rtc_once, m_nack; [done|]. unfold nack, rename_file.
  by rewrite Ht, Hc.
Qed.
End runs.

Definition arrived : sys1 := goto 3 Idle (goto 2 Idle (goto 1 Idle init)).
Definition ready1 : sys1 := goto 1 Idle (use_id "t" (with_queue
  (mkMaildir ∅ (<["t" := "n"]> ∅) ∅) arrived)).

Lemma ready_path R : rtc (mstep to_json from_json fcmp lab R) init ready1.
Proof.
  eapply rtc_l; [by apply (m_arrive _ _ _ _ _ 1)|]. eapply rtc_l; [by apply (m_arrive _ _ _ _ _ 2)|].
  eapply rtc_l; [by apply (m_arrive _ _ _ _ _ 3)|]. by apply (enqueue_path R 1 arrived).
Qed.

(** Worker 1 (as [x]) claims the task, gives it back and stops; worker 2 claims it and is
    interrupted after its rename. *)
Definition e_x : TaskEnvelope unit unit := mkEnvelope "t" tt 0 tt 0 (Some "x").
Definition held1 : sys1 := claim1 1 ready1.
Definition stopped : sys1 := goto 1 Dead (goto 1 Idle (back1 held1)).
Definition taken : sys1 := take1 2 e_x stopped.
(** The tasks of [x] are reclaimed, worker 2 finishes its claim, worker 3 claims. *)
Definition resumed : sys1 :=
  goto 2 (Held (claimed (lab 2) e_x)) (with_queue
    (put_cur "t" (to_json (claimed (lab 2) e_x)) (queue (back1 taken))) (back1 taken)).
Definition both : sys1 := claim1 3 resumed.

Lemma taken_path R : rtc (mstep to_json from_json fcmp lab R) init taken.
Proof.
  etrans; [apply ready_path|]. etrans; [by apply (claim_path R 1)|].
  etrans; [by eapply (nack_path R 1 held1); vm_compute|].
  eapply rtc_l; [by eapply (m_crash _ _ _ _ _ 1), pc_goto|]. by apply take_path.
Qed.

(** Between its rename and its write a claim shows the previous owner's name in [cur/]. When the
    tasks of that owner, which has stopped, are reclaimed in that window, the task goes back to
    [new/] and the write creates it again in [cur/]: two workers hold it. *)
Lemma racing_reclaim_double_claim :
  ∃ s e e', rtc (mstep to_json from_json fcmp lab (owner_stopped lab)) init s ∧
    pcs s !! 2%nat = Some (Held e) ∧ pcs s !! 3%nat = Some (Held e') ∧ id e = id e'.
Proof.
  exists both, (claimed (lab 2) e_x), (claimed (lab 3) e_x). split; [|by vm_compute].
  etrans; [apply taken_path|]. eapply rtc_l.
  { eapply (m_reclaim _ _ _ _ _ taken "x" "t" e_x); [|by vm_compute..].
    intros w p Hl Hw. do 4 (destruct w as [|w]; [by vm_compute in Hl, Hw; simplify_eq|]). done. }
  change (with_queue _ _) with (back1 taken).
  eapply rtc_l; [by apply (m_write _ _ _ _ _ 2 (back1 taken) (claimed (lab 2) e_x))|].
  by apply (claim_path _ 3 resumed).
Qed.

(** A worker that crashes between the rename and the write leaves a task in [cur/] without an
    owner, and no call of [reclaim_owner] ever brings it back. *)
Lemma crash_strands_task o :
  let s := goto 1 Dead (take1 1 (mkEnvelope "t" tt 0 tt 0 None) ready1) in
  rtc (mstep to_json from_json fcmp lab quiescent) init s ∧
  reclaim_owner from_json ls no_faults o (queue s) = (queue s, Ok 0%nat) ∧
  cur (queue s) !! "t" = Some "n".
Proof.
  split_and!; [|by vm_compute|by vm_compute].
  etrans; [apply ready_path|]. etrans; [by apply (take_path quiescent 1 (mkEnvelope "t" tt 0 tt 0 None) ready1)|].
  eapply rtc_once, m_crash, pc_goto.
Qed.

Lemma held1_path R : rtc (mstep to_json from_json fcmp lab R) init held1.
Proof. etrans; [apply ready_path|]. by apply (claim_path R 1). Qed.

Lemma one_claimant_witness :
  1%nat = 1%nat ∧ new (queue held1) !! "t" = None ∧
  (∀ e, Held (claimed (lab 1) (mkEnvelope "t" tt 0 tt 0 None)) = Held e →
        cur (queue held1) !! "t" = Some (to_json e)).
Proof.
  apply (one_claimant to_json from_json fcmp lab owner_kept held1 1 1 _
    (Held (claimed (lab 1) (mkEnvelope "t" tt 0 tt 0 None)))); [apply held1_path|by vm_compute..].
Defined.

Lemma no_task_lost_witness :
  places held1 "t" = if decide ("t" ∈ used held1) then 1%nat else 0%nat.
Proof. apply (no_task_lost to_json from_json fcmp lab owner_kept), held1_path. Defined.

Lemma claim_refines_protocol_witness :
  rtc (mstep to_json from_json fcmp lab quiescent) ready1
    (goto 1 (after_claim (Ok (Some (claimed (Some "x") (mkEnvelope "t" tt 0 tt 0 None)))))
      (with_queue (mkMaildir ∅ ∅ {["t" := "sx"]}) ready1)).
Proof.
  apply (claim_refines_protocol to_json from_json fcmp ls lab quiescent no_faults 1 ready1);
    by vm_compute.
Defined.
End OneTask.
