(* ===== verification/LogBuffer.v ===== *)
(** The daemon's log ring buffer (crates/sharecli-ipc/src/log_buffer.rs): [push], [tail] and the
    formatting of a tracing event into an entry. A client follows the log by calling [tail] with
    the watermark the last call returned. *)
From S2P Require Import Prelude.

(** * Data and operations *)

Record LogEntry : Type := mkEntry {
  id : Z;
  ts : Z;
  level : string;
  subsystem : string;
  msg : string;
}.

Record Inner : Type := mkInner {
  entries : list LogEntry;
  next_id : Z;
  last_id : Z;
}.

Definition CAPACITY : nat := 1000.

Definition log_new : Inner := mkInner [] 1 0.

(** [push] with the clock as an argument; the counter is a [u64]. *)
Definition push (now : Z) (lv sub text : string) (b : Inner) : Inner * Z :=
  let i := next_id b in
  let kept := if (length (entries b) =? CAPACITY)%nat then tail (entries b) else entries b in
  (mkInner (kept ++ [mkEntry i now lv sub text]) (as_u64 (next_id b + 1)) i, i).

Definition tail_since (since_id : Z) (max : nat) (b : Inner) : list LogEntry * Z :=
  let cap := Nat.min max CAPACITY in
  (take cap (filter (λ e, since_id < id e) (entries b)), last_id b).

(** [subsystem_for]. *)
Definition subsystem_for (module_path : string) : string :=
  if contains "sharecli_ipc" module_path || contains "sharecli-ipc" module_path then "ipc"
  else if contains "pool" module_path then "pool"
  else if contains "gate" module_path || contains "thermal" module_path then "gate"
  else if contains "health" module_path || contains "monitoring" module_path then "health"
  else if contains "config" module_path then "config"
  else if contains "fleet" module_path then "pool"
  else "core".

(** The visitor of an event's fields; [shown] is the [Debug] text of a value. *)
Definition dquote : ascii := ascii_of_nat 34.
Definition unquote (s : string) : string :=
  let n := String.length s in
  if bool_decide (String.get 0 s = Some dquote) && bool_decide (String.get (n - 1) s = Some dquote)
     && (2 <=? n)%nat
  then substring 1 (n - 2) s else s.
Definition record_field (field shown sofar : string) : string :=
  (if str_is_empty sofar then sofar else sofar +:+ " ") +:+ field +:+ "=" +:+ shown.
Definition record_debug (field shown sofar : string) : string :=
  if bool_decide (field = "message") then unquote shown else record_field field shown sofar.
Definition record_str (field value sofar : string) : string :=
  if bool_decide (field = "message") then value else record_field field value sofar.

(** A tracing event: its level, its module path and its fields in order, each recorded by
    [record_debug] or [record_str]. *)
Inductive Level : Type := ERROR | WARN | INFO | DEBUG | TRACE.
Inductive FieldValue : Type := AsDebug (shown : string) | AsStr (value : string).
Record Event : Type := mkEvent {
  ev_level : Level;
  module_path : option string;
  fields : list (string * FieldValue);
}.

Definition level_name (l : Level) : string :=
  match l with
  | ERROR => "ERROR" | WARN => "WARN" | INFO => "INFO" | DEBUG => "DEBUG" | TRACE => "TRACE"
  end.
Definition record (fv : string * FieldValue) (sofar : string) : string :=
  match fv.2 with
  | AsDebug shown => record_debug fv.1 shown sofar
  | AsStr value => record_str fv.1 value sofar
  end.
Definition on_event (now : Z) (ev : Event) (b : Inner) : Inner * Z :=
  push now (level_name (ev_level ev)) (subsystem_for (default "core" (module_path ev)))
    (foldl (λ acc fv, record fv acc) EmptyString (fields ev)) b.

(** * The buffer after a history of pushes *)

(** One call of [push]. *)
Record Call : Type := mkCall { c_now : Z; c_level : string; c_sub : string; c_msg : string }.
Definition push_call (b : Inner) (c : Call) : Inner :=
  (push (c_now c) (c_level c) (c_sub c) (c_msg c) b).1.
Definition entry_of (i : Z) (c : Call) : LogEntry :=
  mkEntry i (c_now c) (c_level c) (c_sub c) (c_msg c).

(** Everything ever logged, numbered from [i]. *)
Fixpoint numbered (i : Z) (cs : list Call) : list LogEntry :=
  match cs with [] => [] | c :: cs' => entry_of i c :: numbered (i + 1) cs' end.

Lemma numbered_app i cs ds :
  numbered i (cs ++ ds) = numbered i cs ++ numbered (i + Z.of_nat (length cs)) ds.
Proof.
  revert i. induction cs as [|c cs IH]; intros i; simpl; [by rewrite Z.add_0_r|].
  rewrite IH. do 3 f_equal. lia.
Qed.

Lemma length_numbered i cs : length (numbered i cs) = length cs.
Proof. revert i. induction cs; intros i; simpl; auto. Qed.

Lemma numbered_ids i cs : Forall (λ e, i ≤ id e < i + Z.of_nat (length cs)) (numbered i cs).
Proof.
  revert i. induction cs as [|c cs IH]; intros i; constructor; simpl; [lia|].
  eapply Forall_impl; [apply IH|]. simpl. lia.
Qed.

Lemma drop_numbered k i cs : (k ≤ length cs)%nat →
  drop k (numbered i cs) = numbered (i + Z.of_nat k) (drop k cs).
Proof.
  intros Hk. rewrite <- (take_drop k cs) at 1. rewrite numbered_app, drop_app_length'.
  - by rewrite length_take_le.
  - by rewrite length_numbered, length_take_le.
Qed.

(** The entries above a watermark are a suffix of everything logged. *)
Lemma filter_numbered w k cs : (w ≤ length cs)%nat → (k ≤ length cs)%nat →
  filter (λ e, Z.of_nat w < id e) (drop k (numbered 1 cs)) = drop (w `max` k) (numbered 1 cs).
Proof.
  intros Hw Hk. destruct (decide (w ≤ k)%nat) as [H|H].
  - rewrite Nat.max_r by done. apply filter_all. rewrite drop_numbered by done.
    eapply Forall_impl; [apply numbered_ids|]. simpl. lia.
  - rewrite Nat.max_l by lia. rewrite <- (take_drop (w - k) (drop k _)), drop_drop, filter_app.
    replace (k + (w - k))%nat with w by lia. rewrite filter_none, filter_all; [done|..].
    + rewrite drop_numbered by done. eapply Forall_impl; [apply numbered_ids|]. simpl. lia.
    + rewrite drop_numbered by done. rewrite <- (take_drop (w - k) (drop k cs)), numbered_app.
      rewrite take_app_length' by (rewrite length_numbered, length_take, length_drop; lia).
      eapply Forall_impl; [apply numbered_ids|]. simpl. intros e. rewrite length_take. lia.
Qed.

(** The counter stays below its width. *)
Definition fits (cs : list Call) : Prop := Z.of_nat (length cs) < 2 ^ 64 - 1.

Lemma push_history cs : fits cs →
  foldl push_call log_new cs =
    mkInner (drop (length cs - CAPACITY) (numbered 1 cs))
            (Z.of_nat (length cs) + 1) (Z.of_nat (length cs)).
Proof.
  unfold fits. induction cs as [|c cs IH] using rev_ind; [done|]. rewrite length_app. cbn [length].
  intros Hf. rewrite foldl_app, IH by lia. cbn [foldl]. unfold push_call, push.
  cbn [entries next_id last_id fst]. rewrite numbered_app, length_drop, length_numbered.
  unfold as_u64. rewrite Z.mod_small by lia. f_equal; [|lia..].
  replace (1 + Z.of_nat (length cs)) with (Z.of_nat (length cs) + 1) by lia. cbn [numbered].
  destruct (Nat.eqb_spec (length cs - (length cs - CAPACITY)) CAPACITY) as [E|E].
  - replace (length cs + 1 - CAPACITY)%nat with (length cs - CAPACITY + 1)%nat by lia.
    rewrite drop_app_le by (rewrite length_numbered; unfold CAPACITY in *; lia).
    by rewrite <- drop_drop.
  - replace (length cs + 1 - CAPACITY)%nat with 0%nat by lia.
    by replace (length cs - CAPACITY)%nat with 0%nat by lia.
Qed.

(** The ring buffer after any history holds the last thousand entries, numbered from 1 in
    order of arrival, and [tail] returns, of everything logged, the entries after both the
    watermark and the ones pushed out, the oldest ones up to the limit; with the number of the
    last entry. *)
Theorem tail_exact cs w max :
  fits cs → (w ≤ length cs)%nat →
  tail_since (Z.of_nat w) max (foldl push_call log_new cs) =
    (take (max `min` CAPACITY) (drop (w `max` (length cs - CAPACITY)) (numbered 1 cs)),
     Z.of_nat (length cs)).
Proof.
  intros Hf Hw. rewrite push_history by done. unfold tail_since. cbn [entries last_id].
  by rewrite filter_numbered by lia.
Qed.
Lemma tail_exact_witness :
  tail_since (Z.of_nat 1) 5 (foldl push_call log_new [mkCall 7 "INFO" "ipc" "a"; mkCall 8 "WARN" "core" "b"]) =
    ([mkEntry 2 8 "WARN" "core" "b"], 2).
Proof.
  refine (tail_exact [mkCall 7 "INFO" "ipc" "a"; mkCall 8 "WARN" "core" "b"] 1 5 _ _); [done|].
  vm_compute. lia.
Defined.

(** * A client that follows the log *)

(** Batches of pushes with a poll after each; the client asks with the watermark it was last
    given. Returns the buffer, the watermark and what was received. *)
Fixpoint follow (max : nat) (batches : list (list Call)) (b : Inner) (w : Z)
  : list (list LogEntry) :=
  match batches with
  | [] => []
  | cs :: bs =>
      let b' := foldl push_call b cs in
      let '(got, w') := tail_since w max b' in
      got :: follow max bs b' w'
  end.

Lemma follow_from max bs : ∀ seen,
  fits (seen ++ concat bs) → Forall (λ cs, length cs ≤ max ∧ length cs ≤ CAPACITY)%nat bs →
  concat (follow max bs (foldl push_call log_new seen) (Z.of_nat (length seen))) =
    numbered (1 + Z.of_nat (length seen)) (concat bs).
Proof.
  induction bs as [|cs bs IH]; intros seen Hf Hb; [done|]. inversion_clear Hb as [|?? [H1 H2] Hb'].
  cbn [follow concat] in *. rewrite <- foldl_app. unfold fits in *.
  rewrite tail_exact by (unfold fits; rewrite ?length_app in *; lia). cbn [concat].
  rewrite IH, (numbered_app _ cs) by (rewrite <- ?(assoc_L (++)); done). f_equal.
  - rewrite Nat.max_l by (rewrite length_app; lia).
    rewrite drop_numbered, drop_app_length by (rewrite length_app; lia).
    apply take_ge. rewrite length_numbered. lia.
  - f_equal. rewrite length_app. lia.
Qed.

(** A client that polls with the returned watermark receives every entry exactly once and
    in order, as long as no more entries arrive between two polls than the poll's limit and the
    buffer's capacity. *)
Theorem follow_complete max bs :
  fits (concat bs) → Forall (λ cs, length cs ≤ max ∧ length cs ≤ CAPACITY)%nat bs →
  concat (follow max bs log_new 0) = numbered 1 (concat bs).
Proof. intros Hf Hb. by apply (follow_from max bs []). Qed.

Lemma follow_complete_witness :
  concat (follow 2 [[mkCall 7 "INFO" "ipc" "a"; mkCall 8 "WARN" "core" "b"]; [mkCall 9 "INFO" "ipc" "c"]]
    log_new 0) =
  [mkEntry 1 7 "INFO" "ipc" "a"; mkEntry 2 8 "WARN" "core" "b"; mkEntry 3 9 "INFO" "ipc" "c"].
Proof.
  refine (follow_complete 2 [[mkCall 7 "INFO" "ipc" "a"; mkCall 8 "WARN" "core" "b"];
    [mkCall 9 "INFO" "ipc" "c"]] _ _); [done|]. repeat constructor; vm_compute; lia.
Defined.

(** When a poll finds more entries than its limit, it returns the oldest and the watermark of
    the newest: the client never receives the ones in between, although they are in the buffer. *)
Lemma follow_skips_beyond_limit :
  concat (follow 1 [[mkCall 7 "INFO" "ipc" "a"; mkCall 8 "ERROR" "core" "b"]; []; []] log_new 0) =
  [mkEntry 1 7 "INFO" "ipc" "a"].
Proof. by vm_compute. Qed.
