(* ===== verification/ServeLock.v ===== *)
(** The single-instance guard of [serve] (crates/sharecli-ipc/src/serve_lock.rs, and the CLI's
    copy src/serve_lock.rs): a pidfile under an advisory lock. The model keeps the directory
    entry apart from the inode it names, since [drop] unlinks the file and a second process may
    have it open; a handle is one open file. Calls are modelled whole, and again as the
    interleaved system calls of any number of callers. *)
From S2P Require Import Prelude.

(** * Data *)

Record ServeInfo : Type := mkInfo {
  pid : Z;
  service : string;
  url : string;
  started_at_unix : Z;
}.

Inductive ServeState : Type := Free | Running (info : ServeInfo) (stale : bool).
Inductive OnConflict : Type := Prompt | AttachTo | ReplaceIt | AbortIt.
Inductive Decision : Type := Serve | Attach | Replace | Abort_.

Definition decide_serve (st : ServeState) (policy : OnConflict) : Decision :=
  match st with
  | Free => Serve
  | Running _ true => Serve
  | Running _ false =>
      match policy with
      | AttachTo => Attach
      | ReplaceIt => Replace
      | AbortIt => Abort_
      | Prompt => Abort_
      end
  end.

(** The file name under the lock directory. *)
Definition safe_char (c : ascii) : ascii :=
  if bool_decide (c = "/"%char) || bool_decide (c = "\"%char) || bool_decide (c = ":"%char)
  then "_"%char else c.
Definition pidfile_name (svc : string) : string := str_map safe_char svc +:+ ".serve.lock".

(** The file system as the guard of one service sees it. [entry] is the inode the pidfile name
    points to, [locks] the handle that holds the exclusive lock of an inode, [alive] the
    processes that exist. *)
Record Fs : Type := mkFs {
  entry : option nat;
  inodes : gmap nat string;
  locks : gmap nat nat;
  sidecar : option string;
  alive : gset Z;
}.

(** An open file: its number and its inode. *)
Record Handle : Type := mkHandle { hid : nat; ino : nat }.

(** [libc::pid_t::try_from], then [kill(pid, 0)] succeeding or failing with [EPERM]. *)
Definition pid_alive (fs : Fs) (p : Z) : bool :=
  (p <=? 2 ^ 31 - 1) && (0 <? p) && bool_decide (p ∈ alive fs).

Inductive ServeError : Type := OpenPidfile | ReadPidfile | ParsePidfile | Truncate | WritePidfile.

(** The faults of one call. *)
Record Faults : Type := mkFaults {
  open_fails : bool;
  read_fails : bool;
  set_len_fails : bool;
  write_fails : option nat;   (* bytes written before the error *)
  sidecar_fails : bool;
}.
Definition no_faults : Faults := mkFaults false false false None false.

Definition NUL : ascii := ascii_of_nat 0.
Fixpoint zeros (n : nat) : string :=
  match n with O => EmptyString | S n' => String NUL (zeros n') end.

Section guard.
(** [serde_json] of a [ServeInfo]. *)
Variables (to_json : ServeInfo → string) (from_json : string → option ServeInfo).

(** * probe *)

Definition contents (fs : Fs) (i : nat) : string := default EmptyString (inodes fs !! i).

Definition probe (f : Faults) (fs : Fs) : result ServeState ServeError :=
  match entry fs with
  | None => Ok Free
  | Some i =>
      if open_fails f then Err OpenPidfile
      else
        let exclusively_held := bool_decide (is_Some (locks fs !! i)) in
        let read :=
          if read_fails f
          then if exclusively_held then ok_or ReadPidfile (sidecar fs) else Err ReadPidfile
          else Ok (contents fs i) in
        match read with
        | Err e => Err e
        | Ok buf =>
            match from_json (trim buf) with
            | Some info => Ok (Running info (negb (exclusively_held || pid_alive fs (pid info))))
            | None => if exclusively_held then Err ParsePidfile else Ok Free
            end
        end
  end.

(** * try_acquire *)

Definition set_inode (i : nat) (c : string) (fs : Fs) : Fs :=
  mkFs (entry fs) (<[i := c]> (inodes fs)) (locks fs) (sidecar fs) (alive fs).
Definition set_locks (l : gmap nat nat) (fs : Fs) : Fs :=
  mkFs (entry fs) (inodes fs) l (sidecar fs) (alive fs).
Definition set_sidecar (c : option string) (fs : Fs) : Fs :=
  mkFs (entry fs) (inodes fs) (locks fs) c (alive fs).

(** [OpenOptions::new().read(true).write(true).create(true)]; [h] numbers the handle. *)
Definition open_pidfile (h : nat) (fs : Fs) : Handle * Fs :=
  match entry fs with
  | Some i => (mkHandle h i, fs)
  | None =>
      let i := fresh (dom (inodes fs)) in
      (mkHandle h i, mkFs (Some i) (<[i := EmptyString]> (inodes fs)) (locks fs) (sidecar fs) (alive fs))
  end.

(** A handle is closed: its lock goes. *)
Definition close (h : Handle) (fs : Fs) : Fs :=
  if bool_decide (locks fs !! ino h = Some (hid h)) then set_locks (delete (ino h) (locks fs)) fs
  else fs.

(** [set_len(0)], then [write_all] at the cursor. *)
Definition truncate_write (cursor : nat) (bytes : string) : string := zeros cursor +:+ bytes.

(** What [try_acquire] does with the file it opened: [check] is the reading of an existing
    record, which only the crate's version does and which moves the cursor. *)
Definition acquire_opened (check : bool) (f : Faults) (info : ServeInfo) (h : Handle) (fs : Fs)
  : Fs * result (option (Handle * ServeInfo)) ServeError :=
  match locks fs !! ino h with
  | Some _ => (fs, Ok None)
  | None =>
      let fs1 := set_locks (<[ino h := hid h]> (locks fs)) fs in
      let existing := contents fs1 (ino h) in
      let live := check && negb (read_fails f) &&
        match from_json (trim existing) with
        | Some prev => pid_alive fs1 (pid prev)
        | None => false
        end in
      if live then (close h fs1, Ok None)
      else if set_len_fails f then (close h fs1, Err Truncate)
      else
        let cursor := if check && negb (read_fails f) then String.length existing else 0%nat in
        match write_fails f with
        | Some k =>
            (close h (set_inode (ino h) (if (k =? 0)%nat then EmptyString
               else truncate_write cursor (substring 0 k (to_json info))) fs1), Err WritePidfile)
        | None =>
            let fs2 := set_inode (ino h) (truncate_write cursor (to_json info)) fs1 in
            (if sidecar_fails f then fs2 else set_sidecar (Some (to_json info)) fs2,
             Ok (Some (h, info)))
        end
  end.

Definition try_acquire (check : bool) (f : Faults) (h : nat) (info : ServeInfo) (fs : Fs)
  : Fs * result (option (Handle * ServeInfo)) ServeError :=
  if open_fails f then (fs, Err OpenPidfile)
  else let '(hd, fs1) := open_pidfile h fs in acquire_opened check f info hd fs1.

(** The CLI's copy does not read the existing record. *)
Definition cli_try_acquire := try_acquire false.

(** * drop, and the end of a process *)

Definition drop_lock (h : Handle) (fs : Fs) : Fs :=
  let fs1 := close h fs in
  mkFs None (inodes fs1) (locks fs1) None (alive fs1).

(** The process [p] ends without running [drop]; the kernel closes its handles. *)
Definition die (p : Z) (hs : list Handle) (fs : Fs) : Fs :=
  let fs1 := foldr close fs hs in
  mkFs (entry fs1) (inodes fs1) (locks fs1) (sidecar fs1) (alive fs1 ∖ {[p]}).

(** * Servers over time *)

(** Whole calls of any processes, one after the other. [next] numbers the handles. *)
Record World : Type := mkWorld { fsys : Fs; servers : list (Handle * ServeInfo); next : nat }.

Inductive Op : Type :=
| OAcquire (f : Faults) (info : ServeInfo)
| ODrop (k : nat)
| ODie (p : Z).

Definition run_op (check : bool) (w : World) (o : Op) : World :=
  match o with
  | OAcquire f info =>
      let fs0 := fsys w in
      let fs := mkFs (entry fs0) (inodes fs0) (locks fs0) (sidecar fs0) ({[pid info]} ∪ alive fs0) in
      let '(fs', r) := try_acquire check f (next w) info fs in
      mkWorld fs' (match r with Ok (Some s) => s :: servers w | _ => servers w end) (S (next w))
  | ODrop k =>
      match servers w !! k with
      | Some (h, _) => mkWorld (drop_lock h (fsys w)) (delete k (servers w)) (next w)
      | None => w
      end
  | ODie p =>
      let mine := filter (λ s, pid s.2 = p) (servers w) in
      mkWorld (die p mine.*1 (fsys w)) (filter (λ s, pid s.2 ≠ p) (servers w)) (next w)
  end.

Definition held_by_server (w : World) : Prop :=
  match servers w with
  | [] => locks (fsys w) = ∅
  | [(h, _)] => locks (fsys w) = {[ino h := hid h]} ∧ entry (fsys w) = Some (ino h)
  | _ => False
  end.

Lemma close_own h fs : locks fs = {[ino h := hid h]} → locks (close h fs) = ∅.
Proof.
  intros H. unfold close. rewrite H, lookup_singleton_eq, bool_decide_true by done. simpl.
  apply delete_singleton_eq.
Qed.

Lemma close_entry h fs : entry (close h fs) = entry fs.
Proof. unfold close. by case_bool_decide. Qed.

(** Taking the lock and closing the handle again changes nothing of the locks. *)
Lemma close_after_lock h fs fs1 : locks fs !! ino h = None →
  locks fs1 = <[ino h := hid h]> (locks fs) → locks (close h fs1) = locks fs.
Proof.
  intros H H1. unfold close. rewrite H1, lookup_insert_eq, bool_decide_true by done. simpl.
  by rewrite delete_insert_id.
Qed.

Lemma acquire_opened_locks check f info h fs :
  let '(fs', r) := acquire_opened check f info h fs in
  entry fs' = entry fs ∧
  match r with
  | Ok (Some s) => s = (h, info) ∧ locks fs !! ino h = None ∧
                   locks fs' = <[ino h := hid h]> (locks fs)
  | _ => locks fs' = locks fs
  end.
Proof.
  unfold acquire_opened. destruct (locks fs !! ino h) eqn:Hl; [done|].
  destruct (check && _ && _); [by rewrite close_entry; split; [|eapply close_after_lock]|].
  destruct (set_len_fails f); [by rewrite close_entry; split; [|eapply close_after_lock]|].
  destruct (write_fails f) as [k|];
    [by rewrite close_entry; split; [|eapply close_after_lock]|].
  by destruct (sidecar_fails f).
Qed.

(** With the lock held, [try_acquire] refuses and leaves everything as it is. *)
Lemma try_acquire_refused check f h info fs i : open_fails f = false →
  entry fs = Some i → is_Some (locks fs !! i) → try_acquire check f h info fs = (fs, Ok None).
Proof.
  intros Hf He [x Hx]. unfold try_acquire, open_pidfile, acquire_opened.
  rewrite Hf, He. simpl. by rewrite Hx.
Qed.

Lemma try_acquire_locks check f h info fs :
  let '(fs', r) := try_acquire check f h info fs in
  match r with
  | Ok (Some (hd, info')) => info' = info ∧ entry fs' = Some (ino hd) ∧
      locks fs !! ino hd = None ∧ locks fs' = <[ino hd := hid hd]> (locks fs)
  | _ => locks fs' = locks fs ∧ (entry fs = None ∨ entry fs' = entry fs)
  end.
Proof.
  unfold try_acquire. destruct (open_fails f); [by auto|].
  unfold open_pidfile. destruct (entry fs) as [i|] eqn:He.
  - pose proof (acquire_opened_locks check f info (mkHandle h i) fs) as H.
    destruct (acquire_opened _ _ _ _ _) as [fs' [[[hd info']|]|e]]; destruct H as [H1 H];
      rewrite ?H1; naive_solver.
  - set (fs1 := mkFs _ _ _ _ _). set (hd0 := mkHandle _ _).
    pose proof (acquire_opened_locks check f info hd0 fs1) as H.
    destruct (acquire_opened _ _ _ _ _) as [fs' [[[hd info']|]|e]]; destruct H as [H1 H];
      rewrite ?H1; naive_solver.
Qed.

Lemma acquire_held check f info w :
  held_by_server w → held_by_server (run_op check w (OAcquire f info)).
Proof.
  unfold held_by_server. destruct w as [fs srv n]. simpl.
  set (fs1 := mkFs _ _ _ _ ({[pid info]} ∪ _)). intros H. destruct srv as [|[h i] [|]]; [..|done].
  - pose proof (try_acquire_locks check f n info fs1) as Ht.
    destruct (try_acquire _ _ _ _ _) as [fs' [[[hd info']|]|e]]; simpl in *;
      [|by destruct Ht; congruence..].
    destruct Ht as (_ & -> & _ & ->). by rewrite H.
  - destruct H as [Hl He]. destruct (open_fails f) eqn:Hf.
    + unfold try_acquire. rewrite Hf. done.
    + rewrite (try_acquire_refused _ _ _ _ _ (ino h)); [done..|]. simpl. rewrite Hl.
      by rewrite lookup_singleton_eq.
Qed.

Lemma drop_held k check w : held_by_server w → held_by_server (run_op check w (ODrop k)).
Proof.
  unfold held_by_server. destruct w as [fs srv n]. simpl. intros H.
  destruct srv as [|[h i] [|]]; [done| |done]. destruct k as [|k]; [|done]. simpl.
  apply close_own. tauto.
Qed.

Lemma die_held p check w : held_by_server w → held_by_server (run_op check w (ODie p)).
Proof.
  unfold held_by_server. destruct w as [fs srv n]. simpl. intros H.
  destruct srv as [|[h i] [|]]; [done| |done].
  destruct (decide (pid i = p)) as [E|E].
  - rewrite filter_cons_False, filter_cons_True by (simpl; congruence). simpl.
    apply close_own. tauto.
  - rewrite filter_cons_True, filter_cons_False by (simpl; congruence). done.
Qed.

(** One server at a time when whole calls follow one another: from any leftover pidfile that nobody
    holds, after any sequence of acquisitions (with any faults), releases and process deaths, at
    most one [ServeLock] exists; while it does, every further [try_acquire] that can open the
    pidfile is refused and changes nothing. *)
Theorem whole_calls_single_server check ops w0 :
  servers w0 = [] → locks (fsys w0) = ∅ →
  let w := foldl (run_op check) w0 ops in
  (length (servers w) ≤ 1)%nat ∧
  (∀ f h info, servers w ≠ [] → open_fails f = false →
     try_acquire check f h info (fsys w) = (fsys w, Ok None)).
Proof.
  intros Hs Hl w. assert (held_by_server w) as H.
  { assert (held_by_server w0) as H0 by (unfold held_by_server; by rewrite Hs). clear Hs Hl.
    subst w. revert w0 H0. induction ops as [|o ops IH]; intros w0 H0; [done|]. simpl. apply IH.
    destruct o; [by apply acquire_held|by apply drop_held|by apply die_held]. }
  unfold held_by_server in H. destruct (servers w) as [|[hd i] [|]]; simpl; [..|done].
  - split; [lia|done].
  - split; [lia|]. intros f h info _ Hf. destruct H as [Hlk He].
    apply (try_acquire_refused _ _ _ _ _ (ino hd)); [done..|]. rewrite Hlk.
    by rewrite lookup_singleton_eq.
Qed.

(** * System calls of several processes, interleaved *)

(** Where the caller with handle [n] is: the pidfile open and not yet locked, serving, unlocked on
    the way out with the sidecar still there or already removed, or gone. *)
Inductive SPc : Type :=
| SOpened (h : Handle) (info : ServeInfo)
| SServing (h : Handle) (info : ServeInfo)
| SUnlocked (sidecar_gone : bool)
| SGone.

Record SState : Type := mkSState { sfs : Fs; callers : gmap nat SPc }.

(** The caller has the pidfile open, to lock it or to serve. *)
Definition has_open (p : SPc) : option Handle :=
  match p with SOpened h _ | SServing h _ => Some h | _ => None end.

Definition set_alive (a : gset Z) (fs : Fs) : Fs :=
  mkFs (entry fs) (inodes fs) (locks fs) (sidecar fs) a.

(** [sstep alone]: with [alone] the pidfile is unlinked only while nobody has it open. *)
Inductive sstep (check alone : bool) : SState → SState → Prop :=
| ss_open n info hd fs s :
    callers s !! n = None → open_pidfile n (set_alive ({[pid info]} ∪ alive (sfs s)) (sfs s)) = (hd, fs) →
    sstep check alone s (mkSState fs (<[n := SOpened hd info]> (callers s)))
| ss_lock n f info hd fs x s :
    callers s !! n = Some (SOpened hd info) →
    acquire_opened check f info hd (sfs s) = (fs, Ok (Some x)) →
    sstep check alone s (mkSState fs (<[n := SServing hd info]> (callers s)))
| ss_refused n f info hd fs r s :
    callers s !! n = Some (SOpened hd info) →
    acquire_opened check f info hd (sfs s) = (fs, r) → (∀ x, r ≠ Ok (Some x)) →
    sstep check alone s (mkSState fs (<[n := SGone]> (callers s)))
| ss_unlock n hd info s :
    callers s !! n = Some (SServing hd info) →
    sstep check alone s (mkSState (close hd (sfs s)) (<[n := SUnlocked false]> (callers s)))
| ss_remove_sidecar n s :
    callers s !! n = Some (SUnlocked false) →
    sstep check alone s (mkSState (set_sidecar None (sfs s)) (<[n := SUnlocked true]> (callers s)))
| ss_unlink n s :
    callers s !! n = Some (SUnlocked true) →
    (alone = true → ∀ m p, callers s !! m = Some p → has_open p = None) →
    sstep check alone s
      (mkSState (mkFs None (inodes (sfs s)) (locks (sfs s)) (sidecar (sfs s)) (alive (sfs s)))
         (<[n := SGone]> (callers s)))
| ss_die n p fs s :
    (* the kernel closes what the process had open *)
    callers s !! n = Some p →
    fs = match has_open p with Some hd => close hd (sfs s) | None => sfs s end →
    ∀ gone, sstep check alone s (mkSState (set_alive (alive fs ∖ gone) fs) (<[n := SGone]> (callers s))).

(** Every lock is that of a server, and the name of the pidfile is that of the file everybody has
    open. *)
Record serve_inv (s : SState) : Prop := {
  si_locks : ∀ i n, locks (sfs s) !! i = Some n ↔
    ∃ hd info, callers s !! n = Some (SServing hd info) ∧ ino hd = i;
  si_entry : ∀ n p hd, callers s !! n = Some p → has_open p = Some hd →
    hid hd = n ∧ entry (sfs s) = Some (ino hd);
}.

Lemma close_locks hd fs :
  locks fs !! ino hd = Some (hid hd) → locks (close hd fs) = delete (ino hd) (locks fs).
Proof. intros H. unfold close. by rewrite bool_decide_true. Qed.

Lemma close_other hd fs :
  locks fs !! ino hd ≠ Some (hid hd) → close hd fs = fs.
Proof. intros H. unfold close. by rewrite bool_decide_false. Qed.

(** A caller ends that is not serving, or goes on without the pidfile: the invariant for the rest. *)
Lemma serve_inv_leave s n p q fs :
  serve_inv s → callers s !! n = Some p → has_open q = None →
  entry fs = entry (sfs s) →
  locks fs = match p with SServing hd _ => delete (ino hd) (locks (sfs s)) | _ => locks (sfs s) end →
  serve_inv (mkSState fs (<[n := q]> (callers s))).
Proof.
  intros [Hl He] Hn Hq Hent Hloc. split; simpl.
  - intros i m. rewrite Hloc. destruct (decide (m = n)) as [->|Hne].
    + rewrite lookup_insert_eq. split.
      * intros H. exfalso.
        assert (locks (sfs s) !! i = Some n) as H'.
        { destruct p; try done. by apply lookup_delete_Some in H as [_ H]. }
        apply Hl in H' as (hd & info & H' & Hi). rewrite Hn in H'. injection H' as ->.
        subst i. by rewrite lookup_delete_eq in H.
      * intros (hd & info & [= ->] & _). done.
    + rewrite lookup_insert_ne by done. rewrite <- Hl. destruct p as [| hd info | |]; try done.
      destruct (decide (ino hd = i)) as [<-|]; [|by rewrite lookup_delete_ne].
      rewrite lookup_delete_eq. split; [done|]. intros H. exfalso.
      assert (locks (sfs s) !! ino hd = Some n) as H' by (apply Hl; eauto). congruence.
  - intros m x hd Hm Hx. destruct (decide (m = n)) as [->|Hne].
    + rewrite lookup_insert_eq in Hm. simplify_eq.
    + rewrite lookup_insert_ne in Hm by done. rewrite Hent. by eapply He.
Qed.

(** The file a caller opened is the one the name points to from then on. *)
Lemma serve_inv_open s n info hd fs a :
  serve_inv s → callers s !! n = None → open_pidfile n (set_alive a (sfs s)) = (hd, fs) →
  serve_inv (mkSState fs (<[n := SOpened hd info]> (callers s))).
Proof.
  intros [Hl He] Hn Ho.
  assert (locks fs = locks (sfs s) ∧ hid hd = n ∧ entry fs = Some (ino hd) ∧
    (entry (sfs s) = None ∨ entry (sfs s) = entry fs)) as (Hlk & Hh & Hent & Hor).
  { unfold open_pidfile in Ho. simpl in Ho. destruct (entry (sfs s)) as [i|] eqn:E;
      injection Ho as <- <-; simpl; auto. }
  split; simpl.
  - intros i m. rewrite Hlk, Hl. destruct (decide (m = n)) as [->|Hne].
    + rewrite lookup_insert_eq, Hn. split; intros (? & ? & ? & ?); simplify_eq.
    + by rewrite lookup_insert_ne.
  - intros m p hd' Hm Hp. destruct (decide (m = n)) as [->|Hne].
    + rewrite lookup_insert_eq in Hm. simplify_eq/=. done.
    + rewrite lookup_insert_ne in Hm by done. destruct (He m p hd' Hm Hp) as [? H].
      split; [done|]. destruct Hor; congruence.
Qed.

Lemma serve_inv_lock check s n f info hd fs x :
  serve_inv s → callers s !! n = Some (SOpened hd info) →
  acquire_opened check f info hd (sfs s) = (fs, Ok (Some x)) →
  serve_inv (mkSState fs (<[n := SServing hd info]> (callers s))).
Proof.
  intros [Hl He] Hn Ha. pose proof (acquire_opened_locks check f info hd (sfs s)) as H.
  rewrite Ha in H. destruct H as (Hent & _ & Hfree & Hlk).
  destruct (He n _ hd Hn eq_refl) as [Hh Hentry]. split; simpl.
  - intros i m. rewrite Hlk. destruct (decide (m = n)) as [->|Hne].
    + rewrite lookup_insert_eq. destruct (decide (i = ino hd)) as [->|Hi].
      * rewrite lookup_insert_eq. split; [eauto|by rewrite Hh].
      * rewrite lookup_insert_ne, Hl, Hn by done. split; intros (? & ? & ? & ?); simplify_eq.
    + rewrite (lookup_insert_ne (callers s)) by done. rewrite <- Hl.
      destruct (decide (i = ino hd)) as [->|Hi]; [|by rewrite lookup_insert_ne].
      rewrite lookup_insert_eq, Hfree. split; [|done]. intros [= <-]. done.
  - intros m p hd' Hm Hp. rewrite Hent. destruct (decide (m = n)) as [->|Hne].
    + rewrite lookup_insert_eq in Hm. simplify_eq/=. done.
    + rewrite lookup_insert_ne in Hm by done. by eapply He.
Qed.

Lemma serving_locked s n hd info :
  serve_inv s → callers s !! n = Some (SServing hd info) →
  locks (sfs s) !! ino hd = Some (hid hd).
Proof.
  intros [Hl He] Hn. destruct (He n _ hd Hn eq_refl) as [-> _]. apply Hl. eauto.
Qed.

Lemma opened_not_locked s n hd info :
  serve_inv s → callers s !! n = Some (SOpened hd info) →
  locks (sfs s) !! ino hd ≠ Some (hid hd).
Proof.
  intros [Hl He] Hn H. destruct (He n _ hd Hn eq_refl) as [Hh _].
  apply Hl in H as (hd' & info' & H & _). rewrite Hh in H. congruence.
Qed.

Lemma serve_inv_step check s s' : serve_inv s → sstep check true s s' → serve_inv s'.
Proof.
  intros Hinv Hs. inv Hs.
  - by eapply serve_inv_open.
  - by eapply serve_inv_lock.
  - pose proof (acquire_opened_locks check f info hd (sfs s)) as H2. rewrite H0 in H2.
    destruct H2 as [Hent Hlk]. eapply serve_inv_leave; [done|exact H|done|done|].
    destruct r as [[x|]|]; [by destruct (H1 x)|done|done].
  - eapply serve_inv_leave; [done|exact H|done|apply close_entry|].
    by eapply close_locks, serving_locked.
  - by eapply serve_inv_leave.
  - destruct Hinv as [Hl He]. specialize (H0 eq_refl). split; simpl.
    + intros i m. rewrite Hl. destruct (decide (m = n)) as [->|Hne]; [|by rewrite lookup_insert_ne].
      rewrite lookup_insert_eq, H. split; intros (? & ? & ? & ?); simplify_eq.
    + intros m p hd Hm Hp. destruct (decide (m = n)) as [->|Hne].
      * rewrite lookup_insert_eq in Hm. simplify_eq.
      * rewrite lookup_insert_ne in Hm by done. rewrite (H0 m p Hm) in Hp. done.
  - eapply serve_inv_leave; [done|exact H|done|..]; destruct p as [hd i|hd i|b|]; simpl; try done.
    + by rewrite close_entry.
    + by rewrite close_entry.
    + by rewrite close_other by (by eapply opened_not_locked).
    + by eapply close_locks, serving_locked.
Qed.

(** C19: One server at a time, whatever the interleaving of the system calls of any number of
    callers (opening the pidfile, locking and writing it, unlocking, removing the sidecar,
    unlinking), their faults and deaths, as long as the pidfile is unlinked only while nobody has
    it open: at most one caller serves, and while it does every further [try_acquire] that can open
    the pidfile is refused and changes nothing. *)
Theorem single_server check fs0 s :
  locks fs0 = ∅ → rtc (sstep check true) (mkSState fs0 ∅) s →
  (∀ n m hd hd' info info', callers s !! n = Some (SServing hd info) →
     callers s !! m = Some (SServing hd' info') → n = m) ∧
  (∀ n hd info f h other, callers s !! n = Some (SServing hd info) → open_fails f = false →
     try_acquire check f h other (sfs s) = (sfs s, Ok None)).
Proof.
  intros Hl Hr. assert (serve_inv s) as Hinv.
  { eapply (rtc_invariant (sstep check true) serve_inv); [| |exact Hr].
    - split; simpl; [|done]. intros i n. rewrite Hl, lookup_empty. split; [done|].
      by intros (? & ? & ? & _).
    - intros x y. apply serve_inv_step. }
  split.
  - intros n m hd hd' info info' Hn Hm.
    destruct (si_entry s Hinv n _ hd Hn eq_refl) as [Hh He].
    destruct (si_entry s Hinv m _ hd' Hm eq_refl) as [Hh' He'].
    pose proof (serving_locked s n hd info Hinv Hn) as H1.
    pose proof (serving_locked s m hd' info' Hinv Hm) as H2.
    assert (ino hd = ino hd') as Hi by congruence. rewrite Hi in H1. congruence.
  - intros n hd info f h other Hn Hf. destruct (si_entry s Hinv n _ hd Hn eq_refl) as [_ He].
    apply (try_acquire_refused _ _ _ _ _ (ino hd)); [done..|].
    rewrite (serving_locked s n hd info Hinv Hn). done.
Qed.

(** * What others see *)

(** The records of two servers are read back. *)
Variables info info2 : ServeInfo.
Hypothesis json_roundtrip : from_json (trim (to_json info)) = Some info.
Hypothesis json_roundtrip2 : from_json (trim (to_json info2)) = Some info2.
Hypothesis json_empty : from_json EmptyString = None.
(** No JSON text starts with a NUL byte. *)
Hypothesis json_nul : ∀ s, from_json (String NUL s) = None.

Lemma to_json_nonempty : to_json info ≠ EmptyString.
Proof.
  intros H. pose proof json_roundtrip as Hr. rewrite H in Hr.
  change (trim EmptyString) with EmptyString in Hr. congruence. Qed.

Lemma trim_nul s : ∃ s', trim (String NUL s) = String NUL s'.
Proof. unfold trim. simpl. destruct (trim_end s); eauto. Qed.

(** A record written at a cursor other than the start cannot be read. *)
Lemma shifted_unreadable n s : n ≠ 0%nat → from_json (trim (truncate_write n s)) = None.
Proof.
  destruct n as [|n]; [done|]. intros _. unfold truncate_write. simpl.
  destruct (trim_nul (zeros n +:+ s)) as [s' H].
  change (String NUL (zeros n) +:+ s) with (String NUL (zeros n +:+ s)). rewrite H. apply json_nul.
Qed.

(** The pidfile after a successful acquisition without faults: where it was, what it holds. *)
Lemma acquire_clean (check : bool) h new_info fs i :
  entry fs = Some i → locks fs !! i = None →
  (∀ prev, from_json (trim (contents fs i)) = Some prev → pid_alive fs (pid prev) = false) →
  let cursor := if check then String.length (contents fs i) else 0%nat in
  try_acquire check no_faults h new_info fs =
    (mkFs (Some i) (<[i := truncate_write cursor (to_json new_info)]> (inodes fs))
       (<[i := h]> (locks fs)) (Some (to_json new_info)) (alive fs), Ok (Some (mkHandle h i, new_info))).
Proof.
  intros He Hl Hdead. unfold try_acquire, open_pidfile, acquire_opened. rewrite He. simpl.
  rewrite Hl. unfold contents in *. simpl. rewrite !andb_true_r.
  assert (match from_json (trim (default EmptyString (inodes fs !! i))) with
    | Some prev => pid_alive (set_locks (<[i:=h]> (locks fs)) fs) (pid prev)
    | None => false end = false) as ->.
  { destruct (from_json (trim (default _ _))) as [prev|] eqn:E; [|done].
    exact (Hdead prev eq_refl). }
  rewrite andb_false_r. unfold set_sidecar, set_inode, set_locks. simpl. by rewrite He.
Qed.

Lemma probe_record fs i found :
  entry fs = Some i → from_json (trim (contents fs i)) = Some found →
  probe no_faults fs = Ok (Running found
    (negb (bool_decide (is_Some (locks fs !! i)) || pid_alive fs (pid found)))).
Proof. intros He Hc. unfold probe. rewrite He. simpl. by rewrite Hc. Qed.

Lemma pid_alive_dead fs p : p ∉ alive fs → pid_alive fs p = false.
Proof. intros H. unfold pid_alive. rewrite (bool_decide_false _ H). by rewrite andb_false_r. Qed.

(** The world in which [info] serves on inode [i] with a readable record. *)
Definition serving (h i : nat) (fs : Fs) : Fs :=
  mkFs (Some i) (<[i := to_json info]> (inodes fs)) {[i := h]} (Some (to_json info)) (alive fs).

Lemma serving_contents h i fs : contents (serving h i fs) i = to_json info.
Proof. unfold contents. simpl. by rewrite lookup_insert_eq. Qed.

Lemma acquire_absent (check : bool) h fs :
  entry fs = None → locks fs = ∅ →
  let i := fresh (dom (inodes fs)) in
  try_acquire check no_faults h info fs = (serving h i fs, Ok (Some (mkHandle h i, info))).
Proof.
  intros He Hl i.
  set (fs0 := mkFs (Some i) (<[i := EmptyString]> (inodes fs)) (locks fs) (sidecar fs) (alive fs)).
  assert (try_acquire check no_faults h info fs = try_acquire check no_faults h info fs0) as ->.
  { unfold try_acquire, open_pidfile. by rewrite He. }
  assert (contents fs0 i = EmptyString) as Hc by (unfold contents; simpl; by rewrite lookup_insert_eq).
  rewrite (acquire_clean check h info fs0 i); [|done|simpl; by rewrite Hl, lookup_empty|].
  - rewrite Hc. unfold serving. simpl. rewrite insert_insert_eq, Hl. by destruct check.
  - rewrite Hc. change (trim EmptyString) with EmptyString. by rewrite json_empty.
Qed.

(** The server of [serving] crashes. *)
Definition crashed (i : nat) (fs : Fs) : Fs :=
  mkFs (Some i) (<[i := to_json info]> (inodes fs)) ∅ (Some (to_json info)) (alive fs ∖ {[pid info]}).

Lemma die_serving h i fs :
  die (pid info) [mkHandle h i] (serving h i fs) = crashed i fs.
Proof.
  unfold die, crashed. simpl. unfold close. simpl.
  rewrite lookup_singleton_eq, bool_decide_true by done. simpl. by rewrite delete_singleton_eq.
Qed.

Lemma acquire_crashed (check : bool) h2 i fs :
  let cursor := if check then String.length (to_json info) else 0%nat in
  try_acquire check no_faults h2 info2 (crashed i fs) =
    (mkFs (Some i) (<[i := truncate_write cursor (to_json info2)]> (inodes fs)) {[i := h2]}
       (Some (to_json info2)) (alive fs ∖ {[pid info]}), Ok (Some (mkHandle h2 i, info2))).
Proof.
  assert (contents (crashed i fs) i = to_json info) as Hc.
  { unfold contents. simpl. by rewrite lookup_insert_eq. }
  rewrite (acquire_clean check h2 info2 _ i); [|done|done|].
  - rewrite Hc. simpl. by rewrite insert_insert_eq.
  - rewrite Hc, json_roundtrip. intros ? [= <-]. apply pid_alive_dead. simpl. set_solver.
Qed.

(** A served deployment is visible and goes away. Acquiring where no pidfile exists succeeds
    and every probe then reports this server as live, so that no policy serves twice; after
    [drop] the service is free again; after a crash it is reported stale, every policy decides to
    serve, and the next acquisition succeeds. *)
Theorem served_is_visible check h h2 fs policy :
  entry fs = None → locks fs = ∅ →
  ∃ hd fs', try_acquire check no_faults h info fs = (fs', Ok (Some (hd, info))) ∧
    probe no_faults fs' = Ok (Running info false) ∧
    decide_serve (Running info false) policy ≠ Serve ∧
    probe no_faults (drop_lock hd fs') = Ok Free ∧
    probe no_faults (die (pid info) [hd] fs') = Ok (Running info true) ∧
    decide_serve (Running info true) policy = Serve ∧
    ∃ hd2 fs2, try_acquire check no_faults h2 info2 (die (pid info) [hd] fs') =
      (fs2, Ok (Some (hd2, info2))).
Proof.
  intros He Hl. set (i := fresh (dom (inodes fs))).
  exists (mkHandle h i), (serving h i fs). rewrite die_serving. split_and!.
  - by apply acquire_absent.
  - rewrite (probe_record _ i info); [|done|by rewrite serving_contents].
    simpl. by rewrite lookup_singleton_eq.
  - by destruct policy.
  - done.
  - rewrite (probe_record _ i info); [|done|unfold contents; simpl; by rewrite lookup_insert_eq].
    rewrite (pid_alive_dead _ (pid info)); [done|]. simpl. set_solver.
  - done.
  - eexists _, _. apply acquire_crashed.
Qed.

(** Taking over from a crashed server. The CLI's [try_acquire] leaves a record that every
    probe reads; the crate's, which reads the old record first, writes its own behind a gap of
    NUL bytes as long as the old one, and every probe fails to parse it while the server runs. *)
Theorem takeover_record check h2 i fs :
  let '(fs2, r) := try_acquire check no_faults h2 info2 (crashed i fs) in
  r = Ok (Some (mkHandle h2 i, info2)) ∧
  probe no_faults fs2 = if check then Err ParsePidfile else Ok (Running info2 false).
Proof.
  rewrite acquire_crashed. split; [done|]. destruct check.
  - unfold probe. simpl. unfold contents. simpl. rewrite lookup_insert_eq, lookup_singleton_eq. simpl.
    rewrite shifted_unreadable; [done|]. pose proof to_json_nonempty.
    by destruct (to_json info).
  - rewrite (probe_record _ i info2); [simpl; by rewrite lookup_singleton_eq|done|].
    unfold contents. simpl. rewrite lookup_insert_eq. apply json_roundtrip2.
Qed.

End guard.

(** * A concrete record format, and a race *)

Module Demo.
(** Three bar-separated fields, the pid first. *)
Definition to_json (i : ServeInfo) : string :=
  String "{" (join_with "|" [show_u (pid i); service i; url i; show_u (started_at_unix i)]).
Definition from_json (s : string) : option ServeInfo :=
  match s with
  | String "{" s' =>
      match split_on "|" s' with
      | [p; v; u; t] =>
          p ← parse_uint u32_max p; t ← parse_uint u64_max t; Some (mkInfo p v u t)
      | _ => None
      end
  | _ => None
  end.
Definition info (p : Z) : ServeInfo := mkInfo p "svc" "u" 7.

Definition fs0 : Fs := mkFs None ∅ ∅ None {[10; 20; 30]}.
Definition outcome (r : result (option (Handle * ServeInfo)) ServeError) : option Z :=
  match r with Ok (Some (_, i)) => Some (pid i) | _ => None end.

(** [open] and [flock] are two system calls. Process 20 opens the pidfile of 10, which drops it
    and exits; 20 then locks the unlinked file, and 30 creates and locks a new one: both serve. *)
Lemma unlinked_pidfile_double_serve check :
  let '(fs1, r1) := try_acquire to_json from_json check no_faults 1 (info 10) fs0 in
  let '(hd2, fs2) := open_pidfile 2 fs1 in
  let fs3 := die 10 [] (drop_lock (mkHandle 1 (ino hd2)) fs2) in
  let '(fs4, r2) := acquire_opened to_json from_json check no_faults (info 20) hd2 fs3 in
  let '(fs5, r3) := try_acquire to_json from_json check no_faults 3 (info 30) fs4 in
  (outcome r1, outcome r2, outcome r3, size (locks fs5)) = (Some 10, Some 20, Some 30, 2%nat).
Proof. by destruct check; vm_compute. Qed.

Lemma whole_calls_single_server_witness :
  let w := foldl (run_op to_json from_json true) (mkWorld fs0 [] 1)
    [OAcquire no_faults (info 10); OAcquire no_faults (info 20)] in
  (length (servers w) ≤ 1)%nat ∧
  (∀ f h i, servers w ≠ [] → open_fails f = false →
     try_acquire to_json from_json true f h i (fsys w) = (fsys w, Ok None)).
Proof. by apply (whole_calls_single_server to_json from_json true _ (mkWorld fs0 [] 1)). Defined.

(** Process 10 serves on inode 0, and 20 has opened the pidfile meanwhile. *)
Definition fs_opened : Fs := (open_pidfile 1 fs0).2.
Definition fs_served : Fs :=
  (acquire_opened to_json from_json false no_faults (info 10) (mkHandle 1 0) fs_opened).1.
Definition one_serving : SState :=
  mkSState fs_served (<[1%nat := SServing (mkHandle 1 0) (info 10)]>
    (<[1%nat := SOpened (mkHandle 1 0) (info 10)]> ∅)).
Definition both_open : SState :=
  mkSState fs_served (<[2%nat := SOpened (mkHandle 2 0) (info 20)]> (callers one_serving)).

Lemma both_open_reachable alone :
  rtc (sstep to_json from_json false alone) (mkSState fs0 ∅) both_open.
Proof.
  eapply rtc_l; [eapply (ss_open _ _ _ _ 1%nat (info 10) (mkHandle 1 0) fs_opened); vm_compute; reflexivity|].
  eapply rtc_l; [eapply (ss_lock _ _ _ _ 1%nat no_faults (info 10) (mkHandle 1 0) fs_served);
    vm_compute; reflexivity|].
  apply rtc_once. cbn [callers]. fold one_serving.
  apply (ss_open to_json from_json false alone 2%nat (info 20) (mkHandle 2 0) fs_served one_serving);
    vm_compute; reflexivity.
Defined.

(** Without the condition two servers are reachable: 10 leaves after 20 has opened its pidfile. *)
Lemma unlinked_pidfile_two_servers :
  ∃ s, rtc (sstep to_json from_json false false) (mkSState fs0 ∅) s ∧
    (∃ hd, callers s !! 2%nat = Some (SServing hd (info 20))) ∧
    (∃ hd, callers s !! 3%nat = Some (SServing hd (info 30))).
Proof.
  eexists. split.
  { etrans; [apply both_open_reachable|].
    eapply rtc_l; [eapply (ss_unlock _ _ _ _ 1%nat); reflexivity|].
    eapply rtc_l; [eapply (ss_remove_sidecar _ _ _ _ 1%nat); reflexivity|].
    eapply rtc_l; [eapply (ss_unlink _ _ _ _ 1%nat); [reflexivity|discriminate]|].
    eapply rtc_l; [eapply (ss_lock _ _ _ _ 2%nat no_faults); [reflexivity|vm_compute; reflexivity]|].
    eapply rtc_l; [eapply (ss_open _ _ _ _ 3%nat (info 30)); [reflexivity|vm_compute; reflexivity]|].
    apply rtc_once. eapply (ss_lock _ _ _ _ 3%nat no_faults); [reflexivity|vm_compute; reflexivity]. }
  split; eexists; reflexivity.
Qed.

Lemma single_server_witness :
  callers both_open !! 2%nat = Some (SOpened (mkHandle 2 0) (info 20)) ∧
  (∀ n hd i, callers both_open !! n = Some (SServing hd i) → n = 1%nat) ∧
  ∀ f h other, open_fails f = false →
    try_acquire to_json from_json false f h other (sfs both_open) = (sfs both_open, Ok None).
Proof.
  split; [reflexivity|].
  destruct (single_server to_json from_json false fs0 both_open eq_refl (both_open_reachable true))
    as [H1 H2]. split.
  - intros n hd i Hn. by eapply (H1 n 1%nat).
  - intros f h other Hf. by apply (H2 1%nat (mkHandle 1 0) (info 10)).
Defined.

Lemma served_is_visible_witness : ∃ hd fs',
  try_acquire to_json from_json true no_faults 1 (info 10) fs0 = (fs', Ok (Some (hd, info 10))) ∧
  probe from_json no_faults fs' = Ok (Running (info 10) false) ∧
  decide_serve (Running (info 10) false) Prompt ≠ Serve ∧
  probe from_json no_faults (drop_lock hd fs') = Ok Free ∧
  probe from_json no_faults (die 10 [hd] fs') = Ok (Running (info 10) true) ∧
  decide_serve (Running (info 10) true) Prompt = Serve ∧
  ∃ hd2 fs2, try_acquire to_json from_json true no_faults 2 (info 20) (die 10 [hd] fs') =
    (fs2, Ok (Some (hd2, info 20))).
Proof.
  by apply (served_is_visible to_json from_json (info 10) (info 20)); vm_compute.
Defined.

Lemma takeover_record_witness :
  let '(fs2, r) := try_acquire to_json from_json true no_faults 2 (info 20)
    (crashed to_json (info 10) 4 fs0) in
  r = Ok (Some (mkHandle 2 4, info 20)) ∧ probe from_json no_faults fs2 = Err ParsePidfile.
Proof.
  by apply (takeover_record to_json from_json (info 10) (info 20)); vm_compute.
Defined.
End Demo.

