(* ===== verification/JsonValue.v ===== *)
(** [serde_json::Value] and the derived (de)serialization of structs, as the configuration and
    the IPC handler use them. A codec is a pair of functions with its round-trip law. *)
From S2P Require Import Prelude.

Inductive Number : Type := PosInt (n : Z) | NegInt (n : Z) | Float (text : string).

(** An object is the list of its entries, keys distinct. *)
Inductive Value : Type :=
| Null
| Bool (b : bool)
| Num (n : Number)
| Str (s : string)
| Arr (l : list Value)
| Obj (m : list (string * Value)).

(** [Map::get]. *)
Fixpoint obj_get (k : string) (m : list (string * Value)) : option Value :=
  match m with
  | [] => None
  | (k', v) :: m' => if bool_decide (k' = k) then Some v else obj_get k m'
  end.

(** The entry of [k] replaced, or added when there is none. *)
Fixpoint obj_set (k : string) (v : Value) (m : list (string * Value)) : list (string * Value) :=
  match m with
  | [] => [(k, v)]
  | (k', v') :: m' => if bool_decide (k' = k) then (k, v) :: m' else (k', v') :: obj_set k v m'
  end.

(** [Value::get] and the [as_] accessors. *)
Definition value_get (k : string) (v : Value) : option Value :=
  match v with Obj m => obj_get k m | _ => None end.
Definition as_str (v : Value) : option string := match v with Str s => Some s | _ => None end.
Definition as_u64 (v : Value) : option Z := match v with Num (PosInt n) => Some n | _ => None end.
Definition as_bool (v : Value) : option bool := match v with Bool b => Some b | _ => None end.
(** [value[k]]: [Null] when absent. *)
Definition value_index (k : string) (v : Value) : Value := default Null (value_get k v).

Lemma obj_get_set k k' v m :
  obj_get k (obj_set k' v m) = if bool_decide (k = k') then Some v else obj_get k m.
Proof.
  induction m as [|[k2 v2] m IH]; cbn [obj_set obj_get]; [by repeat case_bool_decide; simplify_eq|].
  repeat (case_bool_decide; cbn [obj_get]; rewrite ?IH); by simplify_eq.

Qed.

(** * Codecs *)

Record Codec (A : Type) : Type := mkCodec {
  enc : A → Value;
  dec : Value → option A;
  cok : A → Prop;
  codec_law : ∀ a, cok a → dec (enc a) = Some a;
}.
Arguments enc {A} c a.
Arguments dec {A} c v.
Arguments cok {A} c a.
Arguments codec_law {A} c a _.

Lemma bool_codec_law (b : bool) : True → as_bool (Bool b) = Some b.
Proof. done. Qed.
Definition bool_codec : Codec bool := mkCodec _ Bool as_bool (λ _, True) bool_codec_law.

Lemma str_codec_law (s : string) : True → as_str (Str s) = Some s.
Proof. done. Qed.
Definition str_codec : Codec string := mkCodec _ Str as_str (λ _, True) str_codec_law.

(** An unsigned integer of the given maximum. *)
Definition uint_dec (mx : Z) (v : Value) : option Z :=
  n ← as_u64 v; if n <=? mx then Some n else None.
Lemma uint_codec_law mx n : 0 ≤ n ≤ mx → uint_dec mx (Num (PosInt n)) = Some n.
Proof. intros H. unfold uint_dec. simpl. by rewrite (proj2 (Z.leb_le _ _)) by lia. Qed.
Definition uint_codec (mx : Z) : Codec Z :=
  mkCodec _ (λ n, Num (PosInt n)) (uint_dec mx) (λ n, 0 ≤ n ≤ mx) (uint_codec_law mx).
Definition u8_codec : Codec Z := uint_codec u8_max.
Definition u16_codec : Codec Z := uint_codec (2 ^ 16 - 1).
Definition u32_codec : Codec Z := uint_codec u32_max.
Definition u64_codec : Codec Z := uint_codec u64_max.

Section option_codec.
Context {A : Type} (c : Codec A).
Definition opt_enc (o : option A) : Value := match o with Some a => enc c a | None => Null end.
Definition opt_dec (v : Value) : option (option A) :=
  match v with Null => Some None | _ => Some <$> dec c v end.
Definition opt_ok (o : option A) : Prop :=
  match o with Some a => cok c a ∧ enc c a ≠ Null | None => True end.
Lemma opt_codec_law o : opt_ok o → opt_dec (opt_enc o) = Some o.
Proof.
  destruct o as [a|]; [|done]. intros [Ha Hn]. unfold opt_dec, opt_enc.
  rewrite codec_law by done. by destruct (enc c a).
Qed.
Definition opt_codec : Codec (option A) := mkCodec _ opt_enc opt_dec opt_ok opt_codec_law.
End option_codec.

Section containers.
Context {A : Type} (c : Codec A).
Definition list_dec (v : Value) : option (list A) :=
  match v with Arr l => mapM (dec c) l | _ => None end.
Lemma list_codec_law l : Forall (cok c) l → list_dec (Arr (enc c <$> l)) = Some l.
Proof.
  intros H. simpl. apply mapM_Some, Forall2_fmap_l. induction H; constructor; [|done].
  by apply codec_law.
Qed.
Definition list_codec : Codec (list A) :=
  mkCodec _ (λ l, Arr (enc c <$> l)) list_dec (Forall (cok c)) list_codec_law.

(** A [HashMap<String, A>]. *)
Definition entry_dec (kv : string * Value) : option (string * A) := (λ a, (kv.1, a)) <$> dec c kv.2.
Definition map_dec (v : Value) : option (gmap string A) :=
  match v with Obj m => list_to_map <$> mapM entry_dec m | _ => None end.
Lemma map_codec_law m : map_Forall (λ _, cok c) m →
  map_dec (Obj (prod_map id (enc c) <$> map_to_list m)) = Some m.
Proof.
  intros H. simpl. assert (mapM entry_dec (prod_map id (enc c) <$> map_to_list m) =
    Some (map_to_list m)) as ->; [|simpl; by rewrite list_to_map_to_list].
  apply mapM_Some, Forall2_fmap_l, Forall_Forall2_diag, Forall_forall. intros [k a] Hk.
  unfold entry_dec. simpl. rewrite codec_law; [done|].
  eapply H. by apply elem_of_map_to_list.
Qed.
Definition map_codec : Codec (gmap string A) :=
  mkCodec _ (λ m, Obj (prod_map id (enc c) <$> map_to_list m)) map_dec
    (map_Forall (λ _, cok c)) map_codec_law.
End containers.

(** * Derived structs *)

(** The values a derived [Deserialize] finds for the fields of a struct: by name in an object
    (unknown names are ignored), by position in an array that is not too long. *)
Definition struct_fields (names : list string) (v : Value) : option (string → option Value) :=
  match v with
  | Obj m => Some (λ k, obj_get k m)
  | Arr l =>
      if (length l <=? length names)%nat
      then Some (λ k, '(i, _) ← list_find (.= k) names; l !! i)
      else None
  | _ => None
  end.

(** A field that must be present; one with a default (an [Option] in an object, or any field
    under [#[serde(default)]]). *)
Definition req {A} (c : Codec A) (g : string → option Value) (k : string) : option A :=
  v ← g k; dec c v.
Definition dflt {A} (c : Codec A) (d : A) (g : string → option Value) (k : string) : option A :=
  match g k with Some v => dec c v | None => Some d end.
(** An [Option] field of a struct without a default: absent means [None] in an object and is an
    error in an array. *)
Definition optf {A} (c : Codec A) (v : Value) (g : string → option Value) (k : string)
  : option (option A) :=
  match v with Obj _ => dflt (opt_codec c) None g k | _ => req (opt_codec c) g k end.

Lemma req_found {A} (c : Codec A) g k a : g k = Some (enc c a) → cok c a → req c g k = Some a.
Proof. intros H Ha. unfold req. rewrite H. by apply codec_law. Qed.

Lemma dflt_found {A} (c : Codec A) d g k a :
  g k = Some (enc c a) → cok c a → dflt c d g k = Some a.
Proof. intros H Ha. unfold dflt. rewrite H. by apply codec_law. Qed.

Lemma optf_found {A} (c : Codec A) v g k a :
  g k = Some (enc (opt_codec c) a) → cok (opt_codec c) a → optf c v g k = Some a.
Proof. intros H Ha. destruct v; simpl; by (apply dflt_found || apply req_found). Qed.

(** * The text of a value *)

(** [serde_json]: a printed value is read back, has no blanks around it and is not empty. *)
Class JsonText : Type := {
  text_of : Value → string;
  value_of : string → option Value;
  value_of_text v : value_of (text_of v) = Some v;
  text_trim v : trim (text_of v) = text_of v;
  text_not_empty v : text_of v ≠ EmptyString }.

(** ** A concrete text *)

Module DemoText.
(** Values as trees, to have a text for each. *)
Definition Leaf : Type := bool + (Z + string).
Fixpoint tree_of (v : Value) : gen_tree Leaf :=
  match v with
  | Null => GenNode 0 []
  | Bool b => GenNode 1 [GenLeaf (inl b)]
  | Num (PosInt n) => GenNode 2 [GenLeaf (inr (inl n))]
  | Num (NegInt n) => GenNode 3 [GenLeaf (inr (inl n))]
  | Num (Float t) => GenNode 4 [GenLeaf (inr (inr t))]
  | Str t => GenNode 5 [GenLeaf (inr (inr t))]
  | Arr l => GenNode 6 (map tree_of l)
  | Obj m => GenNode 7 (map (λ kv : string * Value, let '(k, v) := kv in GenNode 8 [GenLeaf (inr (inr k)); tree_of v]) m)
  end.
Fixpoint of_tree (t : gen_tree Leaf) : Value :=
  match t with
  | GenNode 1 [GenLeaf (inl b)] => Bool b
  | GenNode 2 [GenLeaf (inr (inl n))] => Num (PosInt n)
  | GenNode 3 [GenLeaf (inr (inl n))] => Num (NegInt n)
  | GenNode 4 [GenLeaf (inr (inr t))] => Num (Float t)
  | GenNode 5 [GenLeaf (inr (inr t))] => Str t
  | GenNode 6 l => Arr (map of_tree l)
  | GenNode 7 l => Obj (map (λ t, match t with GenNode 8 [GenLeaf (inr (inr k)); v] => (k, of_tree v) | _ => (EmptyString, Null) end) l)
  | _ => Null
  end.
Lemma of_tree_of : ∀ v, of_tree (tree_of v) = v.
Proof.
  fix IH 1. intros [|b|[n|n|t]|t|l|m]; [reflexivity..| |]; cbn; apply f_equal.
  - induction l as [|v l IHl]; [reflexivity|]. cbn. rewrite (IH v). apply f_equal. exact IHl.
  - induction m as [|[k v] m IHm]; [reflexivity|]. cbn. rewrite (IH v). apply f_equal. exact IHm.
Qed.
Definition text (v : Value) : string := String "{" (countable_text (tree_of v)).
Definition untext (s : string) : option Value := match s with String _ t => of_tree <$> text_countable t | EmptyString => None end.
Lemma untext_text v : untext (text v) = Some v.
Proof. unfold untext, text. rewrite countable_text_roundtrip. cbn. by rewrite of_tree_of. Qed.
Lemma text_no_blank v : trim (text v) = text v.
Proof.
  apply (trim_no_ws (λ c, negb (is_ws c))); [intros c; by rewrite negb_true_iff|]. unfold text, countable_text. cbn.
  induction (encode (tree_of v)) as [p IH|p IH|]; [exact IH|exact IH|done].
Qed.
#[export] Instance demo_text : JsonText := {| text_of := text; value_of := untext; value_of_text := untext_text; text_trim := text_no_blank; text_not_empty := λ v, ltac:(done) |}.
End DemoText.
