(* ===== verification/Config.v ===== *)
(** The configuration (src/config.rs) with its derived serialization, its validation
    (src/config_validator.rs) and its editing by dotted path, from the command line
    (src/commands/config_edit.rs, config_cmd.rs) and over IPC
    (crates/sharecli-ipc/src/handler.rs, [config.set]). *)
From S2P Require Import Prelude JsonValue.

(** * The structs *)

(** A struct read back from its own object: each field is found under its name. *)
Ltac struct_law ok_fn dec_fn enc_fn :=
  let c := fresh "c" in
  let Hok := fresh "Hok" in
  intros Hok; unfold ok_fn in Hok;
  repeat match goal with H : _ ∧ _ |- _ => destruct H end;
  unfold dec_fn, enc_fn; cbn [struct_fields mbind option_bind];
  repeat (first [ erewrite req_found by (reflexivity || eassumption)
                | erewrite dflt_found by (reflexivity || eassumption)
                | erewrite optf_found by (reflexivity || eassumption) ];
          cbn [mbind option_bind]);
  match goal with c0 : _ |- _ = Some ?c0' => by destruct c0' end.

Record HealthCheckConfig : Type := mkHealthCheckConfig {
  hc_interval_secs : Z;
  hc_timeout_secs : Z;
  hc_failure_threshold : Z;
  hc_endpoints : list string;
}.
Definition HealthCheckConfig_default : HealthCheckConfig :=
  mkHealthCheckConfig 30 5 3 [].
Definition HealthCheckConfig_names : list string :=
  ["interval_secs";
   "timeout_secs";
   "failure_threshold";
   "endpoints"].
Definition HealthCheckConfig_enc (c : HealthCheckConfig) : Value :=
  Obj [
    ("interval_secs", enc u64_codec (hc_interval_secs c));
    ("timeout_secs", enc u64_codec (hc_timeout_secs c));
    ("failure_threshold", enc u32_codec (hc_failure_threshold c));
    ("endpoints", enc (list_codec str_codec) (hc_endpoints c))].
Definition HealthCheckConfig_dec (v : Value) : option HealthCheckConfig :=
  g ← struct_fields HealthCheckConfig_names v;
  interval_secs ← dflt u64_codec (hc_interval_secs HealthCheckConfig_default) g "interval_secs";
  timeout_secs ← dflt u64_codec (hc_timeout_secs HealthCheckConfig_default) g "timeout_secs";
  failure_threshold ← dflt u32_codec (hc_failure_threshold HealthCheckConfig_default) g "failure_threshold";
  endpoints ← dflt (list_codec str_codec) (hc_endpoints HealthCheckConfig_default) g "endpoints";
  Some (mkHealthCheckConfig interval_secs timeout_secs failure_threshold endpoints).
Definition HealthCheckConfig_ok (c : HealthCheckConfig) : Prop :=
  cok u64_codec (hc_interval_secs c) ∧
  cok u64_codec (hc_timeout_secs c) ∧
  cok u32_codec (hc_failure_threshold c) ∧
  cok (list_codec str_codec) (hc_endpoints c).
Lemma HealthCheckConfig_law c :
  HealthCheckConfig_ok c → HealthCheckConfig_dec (HealthCheckConfig_enc c) = Some c.
Proof. struct_law HealthCheckConfig_ok HealthCheckConfig_dec HealthCheckConfig_enc. Qed.
Definition HealthCheckConfig_codec : Codec HealthCheckConfig :=
  mkCodec _ HealthCheckConfig_enc HealthCheckConfig_dec HealthCheckConfig_ok HealthCheckConfig_law.

Record NotifierConfig : Type := mkNotifierConfig {
  nc_desktop : bool;
  nc_webhooks : list string;
}.
Definition NotifierConfig_default : NotifierConfig :=
  mkNotifierConfig true [].
Definition NotifierConfig_names : list string :=
  ["desktop";
   "webhooks"].
Definition NotifierConfig_enc (c : NotifierConfig) : Value :=
  Obj [
    ("desktop", enc bool_codec (nc_desktop c));
    ("webhooks", enc (list_codec str_codec) (nc_webhooks c))].
Definition NotifierConfig_dec (v : Value) : option NotifierConfig :=
  g ← struct_fields NotifierConfig_names v;
  desktop ← dflt bool_codec (nc_desktop NotifierConfig_default) g "desktop";
  webhooks ← dflt (list_codec str_codec) (nc_webhooks NotifierConfig_default) g "webhooks";
  Some (mkNotifierConfig desktop webhooks).
Definition NotifierConfig_ok (c : NotifierConfig) : Prop :=
  cok bool_codec (nc_desktop c) ∧
  cok (list_codec str_codec) (nc_webhooks c).
Lemma NotifierConfig_law c :
  NotifierConfig_ok c → NotifierConfig_dec (NotifierConfig_enc c) = Some c.
Proof. struct_law NotifierConfig_ok NotifierConfig_dec NotifierConfig_enc. Qed.
Definition NotifierConfig_codec : Codec NotifierConfig :=
  mkCodec _ NotifierConfig_enc NotifierConfig_dec NotifierConfig_ok NotifierConfig_law.

Record ServeJwtConfig : Type := mkServeJwtConfig {
  jc_issuer : string;
  jc_audience : string;
  jc_jwks_path : option string;
  jc_jwks : option string;
}.
Definition ServeJwtConfig_default : ServeJwtConfig :=
  mkServeJwtConfig empty_str empty_str None None.
Definition ServeJwtConfig_names : list string :=
  ["issuer";
   "audience";
   "jwks_path";
   "jwks"].
Definition ServeJwtConfig_enc (c : ServeJwtConfig) : Value :=
  Obj [
    ("issuer", enc str_codec (jc_issuer c));
    ("audience", enc str_codec (jc_audience c));
    ("jwks_path", enc (opt_codec str_codec) (jc_jwks_path c));
    ("jwks", enc (opt_codec str_codec) (jc_jwks c))].
Definition ServeJwtConfig_dec (v : Value) : option ServeJwtConfig :=
  g ← struct_fields ServeJwtConfig_names v;
  issuer ← dflt str_codec (jc_issuer ServeJwtConfig_default) g "issuer";
  audience ← dflt str_codec (jc_audience ServeJwtConfig_default) g "audience";
  jwks_path ← dflt (opt_codec str_codec) (jc_jwks_path ServeJwtConfig_default) g "jwks_path";
  jwks ← dflt (opt_codec str_codec) (jc_jwks ServeJwtConfig_default) g "jwks";
  Some (mkServeJwtConfig issuer audience jwks_path jwks).
Definition ServeJwtConfig_ok (c : ServeJwtConfig) : Prop :=
  cok str_codec (jc_issuer c) ∧
  cok str_codec (jc_audience c) ∧
  cok (opt_codec str_codec) (jc_jwks_path c) ∧
  cok (opt_codec str_codec) (jc_jwks c).
Lemma ServeJwtConfig_law c :
  ServeJwtConfig_ok c → ServeJwtConfig_dec (ServeJwtConfig_enc c) = Some c.
Proof. struct_law ServeJwtConfig_ok ServeJwtConfig_dec ServeJwtConfig_enc. Qed.
Definition ServeJwtConfig_codec : Codec ServeJwtConfig :=
  mkCodec _ ServeJwtConfig_enc ServeJwtConfig_dec ServeJwtConfig_ok ServeJwtConfig_law.

Record ServeConfig : Type := mkServeConfig {
  sc_bearer_token : option string;
  sc_auth_mode : option string;
  sc_jwt : option ServeJwtConfig;
  sc_rate_limit_max : option Z;
  sc_rate_limit_window_secs : option Z;
}.
Definition ServeConfig_default : ServeConfig :=
  mkServeConfig None None None None None.
Definition ServeConfig_names : list string :=
  ["bearer_token";
   "auth_mode";
   "jwt";
   "rate_limit_max";
   "rate_limit_window_secs"].
Definition ServeConfig_enc (c : ServeConfig) : Value :=
  Obj [
    ("bearer_token", enc (opt_codec str_codec) (sc_bearer_token c));
    ("auth_mode", enc (opt_codec str_codec) (sc_auth_mode c));
    ("jwt", enc (opt_codec ServeJwtConfig_codec) (sc_jwt c));
    ("rate_limit_max", enc (opt_codec u64_codec) (sc_rate_limit_max c));
    ("rate_limit_window_secs", enc (opt_codec u64_codec) (sc_rate_limit_window_secs c))].
Definition ServeConfig_dec (v : Value) : option ServeConfig :=
  g ← struct_fields ServeConfig_names v;
  bearer_token ← dflt (opt_codec str_codec) (sc_bearer_token ServeConfig_default) g "bearer_token";
  auth_mode ← dflt (opt_codec str_codec) (sc_auth_mode ServeConfig_default) g "auth_mode";
  jwt ← dflt (opt_codec ServeJwtConfig_codec) (sc_jwt ServeConfig_default) g "jwt";
  rate_limit_max ← dflt (opt_codec u64_codec) (sc_rate_limit_max ServeConfig_default) g "rate_limit_max";
  rate_limit_window_secs ← dflt (opt_codec u64_codec) (sc_rate_limit_window_secs ServeConfig_default) g "rate_limit_window_secs";
  Some (mkServeConfig bearer_token auth_mode jwt rate_limit_max rate_limit_window_secs).
Definition ServeConfig_ok (c : ServeConfig) : Prop :=
  cok (opt_codec str_codec) (sc_bearer_token c) ∧
  cok (opt_codec str_codec) (sc_auth_mode c) ∧
  cok (opt_codec ServeJwtConfig_codec) (sc_jwt c) ∧
  cok (opt_codec u64_codec) (sc_rate_limit_max c) ∧
  cok (opt_codec u64_codec) (sc_rate_limit_window_secs c).
Lemma ServeConfig_law c :
  ServeConfig_ok c → ServeConfig_dec (ServeConfig_enc c) = Some c.
Proof. struct_law ServeConfig_ok ServeConfig_dec ServeConfig_enc. Qed.
Definition ServeConfig_codec : Codec ServeConfig :=
  mkCodec _ ServeConfig_enc ServeConfig_dec ServeConfig_ok ServeConfig_law.

Record RuntimeConfig : Type := mkRuntimeConfig {
  rc_node_path : option string;
  rc_bun_path : option string;
  rc_max_memory_mb : option Z;
  rc_max_processes : option Z;
}.
Definition RuntimeConfig_default : RuntimeConfig :=
  mkRuntimeConfig None None (Some 4096) (Some 100).
Definition RuntimeConfig_names : list string :=
  ["node_path";
   "bun_path";
   "max_memory_mb";
   "max_processes"].
Definition RuntimeConfig_enc (c : RuntimeConfig) : Value :=
  Obj [
    ("node_path", enc (opt_codec str_codec) (rc_node_path c));
    ("bun_path", enc (opt_codec str_codec) (rc_bun_path c));
    ("max_memory_mb", enc (opt_codec u64_codec) (rc_max_memory_mb c));
    ("max_processes", enc (opt_codec u64_codec) (rc_max_processes c))].
Definition RuntimeConfig_dec (v : Value) : option RuntimeConfig :=
  g ← struct_fields RuntimeConfig_names v;
  node_path ← optf str_codec v g "node_path";
  bun_path ← optf str_codec v g "bun_path";
  max_memory_mb ← optf u64_codec v g "max_memory_mb";
  max_processes ← optf u64_codec v g "max_processes";
  Some (mkRuntimeConfig node_path bun_path max_memory_mb max_processes).
Definition RuntimeConfig_ok (c : RuntimeConfig) : Prop :=
  cok (opt_codec str_codec) (rc_node_path c) ∧
  cok (opt_codec str_codec) (rc_bun_path c) ∧
  cok (opt_codec u64_codec) (rc_max_memory_mb c) ∧
  cok (opt_codec u64_codec) (rc_max_processes c).
Lemma RuntimeConfig_law c :
  RuntimeConfig_ok c → RuntimeConfig_dec (RuntimeConfig_enc c) = Some c.
Proof. struct_law RuntimeConfig_ok RuntimeConfig_dec RuntimeConfig_enc. Qed.
Definition RuntimeConfig_codec : Codec RuntimeConfig :=
  mkCodec _ RuntimeConfig_enc RuntimeConfig_dec RuntimeConfig_ok RuntimeConfig_law.

Record PoolConfig : Type := mkPoolConfig {
  pc_enabled : bool;
  pc_max_per_type : Z;
  pc_idle_timeout_secs : Z;
  pc_max_age_secs : Z;
  pc_spawn_delay_ms : Z;
}.
Definition PoolConfig_default : PoolConfig :=
  mkPoolConfig true 5 300 3600 100.
Definition PoolConfig_names : list string :=
  ["enabled";
   "max_per_type";
   "idle_timeout_secs";
   "max_age_secs";
   "spawn_delay_ms"].
Definition PoolConfig_enc (c : PoolConfig) : Value :=
  Obj [
    ("enabled", enc bool_codec (pc_enabled c));
    ("max_per_type", enc u64_codec (pc_max_per_type c));
    ("idle_timeout_secs", enc u64_codec (pc_idle_timeout_secs c));
    ("max_age_secs", enc u64_codec (pc_max_age_secs c));
    ("spawn_delay_ms", enc u64_codec (pc_spawn_delay_ms c))].
Definition PoolConfig_dec (v : Value) : option PoolConfig :=
  g ← struct_fields PoolConfig_names v;
  enabled ← req bool_codec g "enabled";
  max_per_type ← req u64_codec g "max_per_type";
  idle_timeout_secs ← req u64_codec g "idle_timeout_secs";
  max_age_secs ← req u64_codec g "max_age_secs";
  spawn_delay_ms ← req u64_codec g "spawn_delay_ms";
  Some (mkPoolConfig enabled max_per_type idle_timeout_secs max_age_secs spawn_delay_ms).
Definition PoolConfig_ok (c : PoolConfig) : Prop :=
  cok bool_codec (pc_enabled c) ∧
  cok u64_codec (pc_max_per_type c) ∧
  cok u64_codec (pc_idle_timeout_secs c) ∧
  cok u64_codec (pc_max_age_secs c) ∧
  cok u64_codec (pc_spawn_delay_ms c).
Lemma PoolConfig_law c :
  PoolConfig_ok c → PoolConfig_dec (PoolConfig_enc c) = Some c.
Proof. struct_law PoolConfig_ok PoolConfig_dec PoolConfig_enc. Qed.
Definition PoolConfig_codec : Codec PoolConfig :=
  mkCodec _ PoolConfig_enc PoolConfig_dec PoolConfig_ok PoolConfig_law.

Record MonitoringConfig : Type := mkMonitoringConfig {
  mc_health_check_interval_secs : Z;
  mc_idle_threshold_secs : Z;
  mc_high_memory_threshold_mb : Z;
  mc_idle_process_threshold : Z;
  mc_per_process_warn_memory_bytes : Z;
}.
Definition MonitoringConfig_default : MonitoringConfig :=
  mkMonitoringConfig 30 300 4096 5 1073741824.
Definition MonitoringConfig_names : list string :=
  ["health_check_interval_secs";
   "idle_threshold_secs";
   "high_memory_threshold_mb";
   "idle_process_threshold";
   "per_process_warn_memory_bytes"].
Definition MonitoringConfig_enc (c : MonitoringConfig) : Value :=
  Obj [
    ("health_check_interval_secs", enc u64_codec (mc_health_check_interval_secs c));
    ("idle_threshold_secs", enc u64_codec (mc_idle_threshold_secs c));
    ("high_memory_threshold_mb", enc u64_codec (mc_high_memory_threshold_mb c));
    ("idle_process_threshold", enc u64_codec (mc_idle_process_threshold c));
    ("per_process_warn_memory_bytes", enc u64_codec (mc_per_process_warn_memory_bytes c))].
Definition MonitoringConfig_dec (v : Value) : option MonitoringConfig :=
  g ← struct_fields MonitoringConfig_names v;
  health_check_interval_secs ← req u64_codec g "health_check_interval_secs";
  idle_threshold_secs ← req u64_codec g "idle_threshold_secs";
  high_memory_threshold_mb ← req u64_codec g "high_memory_threshold_mb";
  idle_process_threshold ← req u64_codec g "idle_process_threshold";
  per_process_warn_memory_bytes ← req u64_codec g "per_process_warn_memory_bytes";
  Some (mkMonitoringConfig health_check_interval_secs idle_threshold_secs
    high_memory_threshold_mb idle_process_threshold per_process_warn_memory_bytes).
Definition MonitoringConfig_ok (c : MonitoringConfig) : Prop :=
  cok u64_codec (mc_health_check_interval_secs c) ∧
  cok u64_codec (mc_idle_threshold_secs c) ∧
  cok u64_codec (mc_high_memory_threshold_mb c) ∧
  cok u64_codec (mc_idle_process_threshold c) ∧
  cok u64_codec (mc_per_process_warn_memory_bytes c).
Lemma MonitoringConfig_law c :
  MonitoringConfig_ok c → MonitoringConfig_dec (MonitoringConfig_enc c) = Some c.
Proof. struct_law MonitoringConfig_ok MonitoringConfig_dec MonitoringConfig_enc. Qed.
Definition MonitoringConfig_codec : Codec MonitoringConfig :=
  mkCodec _ MonitoringConfig_enc MonitoringConfig_dec MonitoringConfig_ok MonitoringConfig_law.

Record PortConfig : Type := mkPortConfig {
  po_sharewei_port : Z;
}.
Definition PortConfig_default : PortConfig :=
  mkPortConfig 3100.
Definition PortConfig_names : list string :=
  ["sharewei_port"].
Definition PortConfig_enc (c : PortConfig) : Value :=
  Obj [
    ("sharewei_port", enc u16_codec (po_sharewei_port c))].
Definition PortConfig_dec (v : Value) : option PortConfig :=
  g ← struct_fields PortConfig_names v;
  sharewei_port ← req u16_codec g "sharewei_port";
  Some (mkPortConfig sharewei_port).
Definition PortConfig_ok (c : PortConfig) : Prop :=
  cok u16_codec (po_sharewei_port c).
Lemma PortConfig_law c :
  PortConfig_ok c → PortConfig_dec (PortConfig_enc c) = Some c.
Proof. struct_law PortConfig_ok PortConfig_dec PortConfig_enc. Qed.
Definition PortConfig_codec : Codec PortConfig :=
  mkCodec _ PortConfig_enc PortConfig_dec PortConfig_ok PortConfig_law.

Record PathsConfig : Type := mkPathsConfig {
  pa_discovery_path : string;
  pa_default_compose_output : string;
}.
Definition PathsConfig_default : PathsConfig :=
  mkPathsConfig "~/CodeProjects/Phenotype/repos" "process-compose.yml".
Definition PathsConfig_names : list string :=
  ["discovery_path";
   "default_compose_output"].
Definition PathsConfig_enc (c : PathsConfig) : Value :=
  Obj [
    ("discovery_path", enc str_codec (pa_discovery_path c));
    ("default_compose_output", enc str_codec (pa_default_compose_output c))].
Definition PathsConfig_dec (v : Value) : option PathsConfig :=
  g ← struct_fields PathsConfig_names v;
  discovery_path ← req str_codec g "discovery_path";
  default_compose_output ← req str_codec g "default_compose_output";
  Some (mkPathsConfig discovery_path default_compose_output).
Definition PathsConfig_ok (c : PathsConfig) : Prop :=
  cok str_codec (pa_discovery_path c) ∧
  cok str_codec (pa_default_compose_output c).
Lemma PathsConfig_law c :
  PathsConfig_ok c → PathsConfig_dec (PathsConfig_enc c) = Some c.
Proof. struct_law PathsConfig_ok PathsConfig_dec PathsConfig_enc. Qed.
Definition PathsConfig_codec : Codec PathsConfig :=
  mkCodec _ PathsConfig_enc PathsConfig_dec PathsConfig_ok PathsConfig_law.

Record DefaultHarnessConfig : Type := mkDefaultHarnessConfig {
  dh_enabled : bool;
  dh_max_instances : Z;
  dh_memory_limit_mb : Z;
}.
Definition DefaultHarnessConfig_default : DefaultHarnessConfig :=
  mkDefaultHarnessConfig true 10 256.
Definition DefaultHarnessConfig_names : list string :=
  ["enabled";
   "max_instances";
   "memory_limit_mb"].
Definition DefaultHarnessConfig_enc (c : DefaultHarnessConfig) : Value :=
  Obj [
    ("enabled", enc bool_codec (dh_enabled c));
    ("max_instances", enc u64_codec (dh_max_instances c));
    ("memory_limit_mb", enc u64_codec (dh_memory_limit_mb c))].
Definition DefaultHarnessConfig_dec (v : Value) : option DefaultHarnessConfig :=
  g ← struct_fields DefaultHarnessConfig_names v;
  enabled ← req bool_codec g "enabled";
  max_instances ← req u64_codec g "max_instances";
  memory_limit_mb ← req u64_codec g "memory_limit_mb";
  Some (mkDefaultHarnessConfig enabled max_instances memory_limit_mb).
Definition DefaultHarnessConfig_ok (c : DefaultHarnessConfig) : Prop :=
  cok bool_codec (dh_enabled c) ∧
  cok u64_codec (dh_max_instances c) ∧
  cok u64_codec (dh_memory_limit_mb c).
Lemma DefaultHarnessConfig_law c :
  DefaultHarnessConfig_ok c → DefaultHarnessConfig_dec (DefaultHarnessConfig_enc c) = Some c.
Proof. struct_law DefaultHarnessConfig_ok DefaultHarnessConfig_dec DefaultHarnessConfig_enc. Qed.
Definition DefaultHarnessConfig_codec : Codec DefaultHarnessConfig :=
  mkCodec _ DefaultHarnessConfig_enc DefaultHarnessConfig_dec DefaultHarnessConfig_ok DefaultHarnessConfig_law.

Record ProjectLimitsConfig : Type := mkProjectLimitsConfig {
  pl_memory_limit_mb : Z;
  pl_max_processes : Z;
}.
Definition ProjectLimitsConfig_default : ProjectLimitsConfig :=
  mkProjectLimitsConfig 1024 10.
Definition ProjectLimitsConfig_names : list string :=
  ["memory_limit_mb";
   "max_processes"].
Definition ProjectLimitsConfig_enc (c : ProjectLimitsConfig) : Value :=
  Obj [
    ("memory_limit_mb", enc u64_codec (pl_memory_limit_mb c));
    ("max_processes", enc u64_codec (pl_max_processes c))].
Definition ProjectLimitsConfig_dec (v : Value) : option ProjectLimitsConfig :=
  g ← struct_fields ProjectLimitsConfig_names v;
  memory_limit_mb ← req u64_codec g "memory_limit_mb";
  max_processes ← req u64_codec g "max_processes";
  Some (mkProjectLimitsConfig memory_limit_mb max_processes).
Definition ProjectLimitsConfig_ok (c : ProjectLimitsConfig) : Prop :=
  cok u64_codec (pl_memory_limit_mb c) ∧
  cok u64_codec (pl_max_processes c).
Lemma ProjectLimitsConfig_law c :
  ProjectLimitsConfig_ok c → ProjectLimitsConfig_dec (ProjectLimitsConfig_enc c) = Some c.
Proof. struct_law ProjectLimitsConfig_ok ProjectLimitsConfig_dec ProjectLimitsConfig_enc. Qed.
Definition ProjectLimitsConfig_codec : Codec ProjectLimitsConfig :=
  mkCodec _ ProjectLimitsConfig_enc ProjectLimitsConfig_dec ProjectLimitsConfig_ok ProjectLimitsConfig_law.

Record SpawnConfig : Type := mkSpawnConfig {
  sp_default_harness : string;
  sp_prune_idle_seconds : Z;
}.
Definition SpawnConfig_default : SpawnConfig :=
  mkSpawnConfig "claude" 300.
Definition SpawnConfig_names : list string :=
  ["default_harness";
   "prune_idle_seconds"].
Definition SpawnConfig_enc (c : SpawnConfig) : Value :=
  Obj [
    ("default_harness", enc str_codec (sp_default_harness c));
    ("prune_idle_seconds", enc u64_codec (sp_prune_idle_seconds c))].
Definition SpawnConfig_dec (v : Value) : option SpawnConfig :=
  g ← struct_fields SpawnConfig_names v;
  default_harness ← req str_codec g "default_harness";
  prune_idle_seconds ← req u64_codec g "prune_idle_seconds";
  Some (mkSpawnConfig default_harness prune_idle_seconds).
Definition SpawnConfig_ok (c : SpawnConfig) : Prop :=
  cok str_codec (sp_default_harness c) ∧
  cok u64_codec (sp_prune_idle_seconds c).
Lemma SpawnConfig_law c :
  SpawnConfig_ok c → SpawnConfig_dec (SpawnConfig_enc c) = Some c.
Proof. struct_law SpawnConfig_ok SpawnConfig_dec SpawnConfig_enc. Qed.
Definition SpawnConfig_codec : Codec SpawnConfig :=
  mkCodec _ SpawnConfig_enc SpawnConfig_dec SpawnConfig_ok SpawnConfig_law.

Record SpawnPolicyConfig : Type := mkSpawnPolicyConfig {
  py_nice_level : Z;
  py_max_concurrent_builds : Z;
  py_use_sccache : bool;
}.
Definition SpawnPolicyConfig_default : SpawnPolicyConfig :=
  mkSpawnPolicyConfig 10 2 false.
Definition SpawnPolicyConfig_names : list string :=
  ["nice_level";
   "max_concurrent_builds";
   "use_sccache"].
Definition SpawnPolicyConfig_enc (c : SpawnPolicyConfig) : Value :=
  Obj [
    ("nice_level", enc u8_codec (py_nice_level c));
    ("max_concurrent_builds", enc u64_codec (py_max_concurrent_builds c));
    ("use_sccache", enc bool_codec (py_use_sccache c))].
Definition SpawnPolicyConfig_dec (v : Value) : option SpawnPolicyConfig :=
  g ← struct_fields SpawnPolicyConfig_names v;
  nice_level ← dflt u8_codec (py_nice_level SpawnPolicyConfig_default) g "nice_level";
  max_concurrent_builds ← dflt u64_codec (py_max_concurrent_builds SpawnPolicyConfig_default) g "max_concurrent_builds";
  use_sccache ← dflt bool_codec (py_use_sccache SpawnPolicyConfig_default) g "use_sccache";
  Some (mkSpawnPolicyConfig nice_level max_concurrent_builds use_sccache).
Definition SpawnPolicyConfig_ok (c : SpawnPolicyConfig) : Prop :=
  cok u8_codec (py_nice_level c) ∧
  cok u64_codec (py_max_concurrent_builds c) ∧
  cok bool_codec (py_use_sccache c).
Lemma SpawnPolicyConfig_law c :
  SpawnPolicyConfig_ok c → SpawnPolicyConfig_dec (SpawnPolicyConfig_enc c) = Some c.
Proof. struct_law SpawnPolicyConfig_ok SpawnPolicyConfig_dec SpawnPolicyConfig_enc. Qed.
Definition SpawnPolicyConfig_codec : Codec SpawnPolicyConfig :=
  mkCodec _ SpawnPolicyConfig_enc SpawnPolicyConfig_dec SpawnPolicyConfig_ok SpawnPolicyConfig_law.

Record CastConfig : Type := mkCastConfig {
  ca_default_transport : string;
  ca_pane_map_path : option string;
  ca_handshake_timeout_ms : Z;
  ca_max_retry_attempts : Z;
  ca_retry_backoff_ms : Z;
}.
Definition CastConfig_default : CastConfig :=
  mkCastConfig "wezterm" None 250 3 200.
Definition CastConfig_names : list string :=
  ["default_transport";
   "pane_map_path";
   "handshake_timeout_ms";
   "max_retry_attempts";
   "retry_backoff_ms"].
Definition CastConfig_enc (c : CastConfig) : Value :=
  Obj [
    ("default_transport", enc str_codec (ca_default_transport c));
    ("pane_map_path", enc (opt_codec str_codec) (ca_pane_map_path c));
    ("handshake_timeout_ms", enc u64_codec (ca_handshake_timeout_ms c));
    ("max_retry_attempts", enc u32_codec (ca_max_retry_attempts c));
    ("retry_backoff_ms", enc u64_codec (ca_retry_backoff_ms c))].
Definition CastConfig_dec (v : Value) : option CastConfig :=
  g ← struct_fields CastConfig_names v;
  default_transport ← dflt str_codec (ca_default_transport CastConfig_default) g "default_transport";
  pane_map_path ← dflt (opt_codec str_codec) (ca_pane_map_path CastConfig_default) g "pane_map_path";
  handshake_timeout_ms ← dflt u64_codec (ca_handshake_timeout_ms CastConfig_default) g "handshake_timeout_ms";
  max_retry_attempts ← dflt u32_codec (ca_max_retry_attempts CastConfig_default) g "max_retry_attempts";
  retry_backoff_ms ← dflt u64_codec (ca_retry_backoff_ms CastConfig_default) g "retry_backoff_ms";
  Some (mkCastConfig default_transport pane_map_path handshake_timeout_ms max_retry_attempts
    retry_backoff_ms).
Definition CastConfig_ok (c : CastConfig) : Prop :=
  cok str_codec (ca_default_transport c) ∧
  cok (opt_codec str_codec) (ca_pane_map_path c) ∧
  cok u64_codec (ca_handshake_timeout_ms c) ∧
  cok u32_codec (ca_max_retry_attempts c) ∧
  cok u64_codec (ca_retry_backoff_ms c).
Lemma CastConfig_law c :
  CastConfig_ok c → CastConfig_dec (CastConfig_enc c) = Some c.
Proof. struct_law CastConfig_ok CastConfig_dec CastConfig_enc. Qed.
Definition CastConfig_codec : Codec CastConfig :=
  mkCodec _ CastConfig_enc CastConfig_dec CastConfig_ok CastConfig_law.

Record Config : Type := mkConfig {
  cf_projects : gmap string string;
  cf_runtime : RuntimeConfig;
  cf_defaults : gmap string DefaultHarnessConfig;
  cf_pool : PoolConfig;
  cf_monitoring : MonitoringConfig;
  cf_port : PortConfig;
  cf_paths : PathsConfig;
  cf_project_limits : ProjectLimitsConfig;
  cf_spawn : SpawnConfig;
  cf_spawn_policy : SpawnPolicyConfig;
  cf_cast : CastConfig;
  cf_health_checks : gmap string HealthCheckConfig;
  cf_notifications : NotifierConfig;
  cf_serve : ServeConfig;
  cf_agent_patterns_path : option string;
}.

Definition home_repo (name : string) : string := "~/CodeProjects/Phenotype/repos/" +:+ name.
Definition default_projects : gmap string string :=
  list_to_map [("helios-cli", home_repo "helios-cli"); ("portage", home_repo "portage");
               ("agentapi", home_repo "agentapi-plusplus");
               ("cliproxy", home_repo "cliproxyapi-plusplus"); ("colab", home_repo "colab")].
Definition default_harness_configs : gmap string DefaultHarnessConfig :=
  list_to_map [("claude", mkDefaultHarnessConfig true 11 512);
               ("forge", mkDefaultHarnessConfig true 20 256);
               ("node", mkDefaultHarnessConfig true 30 256);
               ("bun", mkDefaultHarnessConfig true 10 384)].

Definition Config_default : Config :=
    mkConfig default_projects RuntimeConfig_default default_harness_configs PoolConfig_default
    MonitoringConfig_default PortConfig_default PathsConfig_default ProjectLimitsConfig_default
    SpawnConfig_default SpawnPolicyConfig_default CastConfig_default ∅ NotifierConfig_default
    ServeConfig_default None.
Definition Config_names : list string :=
  ["projects";
   "runtime";
   "defaults";
   "pool";
   "monitoring";
   "port";
   "paths";
   "project_limits";
   "spawn";
   "spawn_policy";
   "cast";
   "health_checks";
   "notifications";
   "serve";
   "agent_patterns_path"].
Definition Config_enc (c : Config) : Value :=
  Obj [
    ("projects", enc (map_codec str_codec) (cf_projects c));
    ("runtime", enc RuntimeConfig_codec (cf_runtime c));
    ("defaults", enc (map_codec DefaultHarnessConfig_codec) (cf_defaults c));
    ("pool", enc PoolConfig_codec (cf_pool c));
    ("monitoring", enc MonitoringConfig_codec (cf_monitoring c));
    ("port", enc PortConfig_codec (cf_port c));
    ("paths", enc PathsConfig_codec (cf_paths c));
    ("project_limits", enc ProjectLimitsConfig_codec (cf_project_limits c));
    ("spawn", enc SpawnConfig_codec (cf_spawn c));
    ("spawn_policy", enc SpawnPolicyConfig_codec (cf_spawn_policy c));
    ("cast", enc CastConfig_codec (cf_cast c));
    ("health_checks", enc (map_codec HealthCheckConfig_codec) (cf_health_checks c));
    ("notifications", enc NotifierConfig_codec (cf_notifications c));
    ("serve", enc ServeConfig_codec (cf_serve c));
    ("agent_patterns_path", enc (opt_codec str_codec) (cf_agent_patterns_path c))].
Definition Config_dec (v : Value) : option Config :=
  g ← struct_fields Config_names v;
  projects ← dflt (map_codec str_codec) (cf_projects Config_default) g "projects";
  runtime ← dflt RuntimeConfig_codec (cf_runtime Config_default) g "runtime";
  defaults ← dflt (map_codec DefaultHarnessConfig_codec) (cf_defaults Config_default) g "defaults";
  pool ← dflt PoolConfig_codec (cf_pool Config_default) g "pool";
  monitoring ← dflt MonitoringConfig_codec (cf_monitoring Config_default) g "monitoring";
  port ← dflt PortConfig_codec (cf_port Config_default) g "port";
  paths ← dflt PathsConfig_codec (cf_paths Config_default) g "paths";
  project_limits ← dflt ProjectLimitsConfig_codec (cf_project_limits Config_default) g "project_limits";
  spawn ← dflt SpawnConfig_codec (cf_spawn Config_default) g "spawn";
  spawn_policy ← dflt SpawnPolicyConfig_codec (cf_spawn_policy Config_default) g "spawn_policy";
  cast ← dflt CastConfig_codec (cf_cast Config_default) g "cast";
  health_checks ← dflt (map_codec HealthCheckConfig_codec) ∅ g "health_checks";
  notifications ← dflt NotifierConfig_codec (cf_notifications Config_default) g "notifications";
  serve ← dflt ServeConfig_codec (cf_serve Config_default) g "serve";
  agent_patterns_path ← dflt (opt_codec str_codec) None g "agent_patterns_path";
  Some (mkConfig projects runtime defaults pool monitoring port paths project_limits spawn
    spawn_policy cast health_checks notifications serve agent_patterns_path).
Definition Config_ok (c : Config) : Prop :=
  cok (map_codec str_codec) (cf_projects c) ∧
  cok RuntimeConfig_codec (cf_runtime c) ∧
  cok (map_codec DefaultHarnessConfig_codec) (cf_defaults c) ∧
  cok PoolConfig_codec (cf_pool c) ∧
  cok MonitoringConfig_codec (cf_monitoring c) ∧
  cok PortConfig_codec (cf_port c) ∧
  cok PathsConfig_codec (cf_paths c) ∧
  cok ProjectLimitsConfig_codec (cf_project_limits c) ∧
  cok SpawnConfig_codec (cf_spawn c) ∧
  cok SpawnPolicyConfig_codec (cf_spawn_policy c) ∧
  cok CastConfig_codec (cf_cast c) ∧
  cok (map_codec HealthCheckConfig_codec) (cf_health_checks c) ∧
  cok NotifierConfig_codec (cf_notifications c) ∧
  cok ServeConfig_codec (cf_serve c) ∧
  cok (opt_codec str_codec) (cf_agent_patterns_path c).
Lemma Config_law c :
  Config_ok c → Config_dec (Config_enc c) = Some c.
Proof. struct_law Config_ok Config_dec Config_enc. Qed.
Definition Config_codec : Codec Config :=
  mkCodec _ Config_enc Config_dec Config_ok Config_law.
(** * Validation *)

Record ValidationError : Type := mkError { field : string; message : string }.
Definition show_error (e : ValidationError) : string := field e +:+ ": " +:+ message e.

Definition GT0 : string := "must be greater than 0".
Definition NONEMPTY : string := "must not be empty".
(** [if violated { errors.push(..) }]. *)
Definition check (violated : bool) (f m : string) : list ValidationError :=
  if violated then [mkError f m] else [].

Definition validate_pool (p : PoolConfig) : list ValidationError :=
  check (pc_max_per_type p =? 0) "config.pool.max_per_type" GT0 ++
  check (pc_idle_timeout_secs p =? 0) "config.pool.idle_timeout_secs" GT0 ++
  check (3600 <? pc_idle_timeout_secs p) "config.pool.idle_timeout_secs" "must be <= 3600 seconds" ++
  check (pc_max_age_secs p =? 0) "config.pool.max_age_secs" GT0 ++
  check (86400 <? pc_max_age_secs p) "config.pool.max_age_secs" "must be <= 86400 seconds (24 h)" ++
  check (pc_spawn_delay_ms p =? 0) "config.pool.spawn_delay_ms" GT0.

Definition validate_monitoring (m : MonitoringConfig) : list ValidationError :=
  check (mc_health_check_interval_secs m =? 0) "config.monitoring.health_check_interval_secs" GT0 ++
  check (3600 <? mc_health_check_interval_secs m)
    "config.monitoring.health_check_interval_secs" "must be <= 3600 seconds" ++
  check (mc_idle_threshold_secs m =? 0) "config.monitoring.idle_threshold_secs" GT0 ++
  check (mc_high_memory_threshold_mb m =? 0) "config.monitoring.high_memory_threshold_mb" GT0.

Definition validate_port (p : PortConfig) : list ValidationError :=
  check (po_sharewei_port p =? 0) "config.port.sharewei_port" GT0.

Definition validate_paths (p : PathsConfig) : list ValidationError :=
  check (str_is_empty (trim (pa_discovery_path p))) "config.paths.discovery_path" NONEMPTY ++
  check (str_is_empty (trim (pa_default_compose_output p)))
    "config.paths.default_compose_output" NONEMPTY.

Definition validate_project_limits (l : ProjectLimitsConfig) : list ValidationError :=
  check (pl_memory_limit_mb l =? 0) "config.project_limits.memory_limit_mb" GT0 ++
  check (pl_max_processes l =? 0) "config.project_limits.max_processes" GT0.

Definition validate_runtime (r : RuntimeConfig) : list ValidationError :=
  check (bool_decide (rc_max_memory_mb r = Some 0)) "config.runtime.max_memory_mb" GT0 ++
  check (bool_decide (rc_max_processes r = Some 0)) "config.runtime.max_processes" GT0.

Definition validate_spawn (s : SpawnConfig) : list ValidationError :=
  check (str_is_empty (trim (sp_default_harness s))) "config.spawn.default_harness" NONEMPTY ++
  check (sp_prune_idle_seconds s =? 0) "config.spawn.prune_idle_seconds" GT0.

Definition validate_spawn_policy (p : SpawnPolicyConfig) : list ValidationError :=
  check (py_max_concurrent_builds p =? 0) "config.spawn_policy.max_concurrent_builds" GT0.

Definition validate_cast (c : CastConfig) : list ValidationError :=
  check (str_is_empty (trim (ca_default_transport c))) "config.cast.default_transport" NONEMPTY ++
  check (ca_handshake_timeout_ms c =? 0) "config.cast.handshake_timeout_ms" GT0 ++
  check (ca_retry_backoff_ms c =? 0) "config.cast.retry_backoff_ms" GT0.

Definition validate_default (kv : string * DefaultHarnessConfig) : list ValidationError :=
  check (dh_max_instances kv.2 =? 0) ("config.defaults." +:+ kv.1 +:+ ".max_instances") GT0 ++
  check (dh_memory_limit_mb kv.2 =? 0) ("config.defaults." +:+ kv.1 +:+ ".memory_limit_mb") GT0.
(** The iteration order of the [HashMap] is unspecified; here, that of the map. *)
Definition validate_defaults (m : gmap string DefaultHarnessConfig) : list ValidationError :=
  flat_map validate_default (map_to_list m).

Definition validate_config (c : Config) : list ValidationError :=
  validate_pool (cf_pool c) ++ validate_monitoring (cf_monitoring c) ++
  validate_port (cf_port c) ++ validate_paths (cf_paths c) ++
  validate_project_limits (cf_project_limits c) ++ validate_runtime (cf_runtime c) ++
  validate_spawn (cf_spawn c) ++ validate_spawn_policy (cf_spawn_policy c) ++
  validate_cast (cf_cast c) ++ validate_defaults (cf_defaults c).

(** * Editing by path *)

(** handler.rs. *)
Fixpoint set_nested (path : list string) (new val : Value) : result Value string :=
  match path with
  | [] => Ok new
  | k :: ks =>
      match val with
      | Obj m =>
          match set_nested ks new (default (Obj []) (obj_get k m)) with
          | Ok v => Ok (Obj (obj_set k v m))
          | Err e => Err e
          end
      | _ => Err ("expected object at segment '" +:+ k +:+ "'")
      end
  end.

(** config_edit.rs. *)
Definition split_path (key : string) : result (list string) string :=
  let parts := split_on "." key in
  if existsb (λ p, str_is_empty (trim p)) parts then Err ("invalid configuration key: " +:+ key)
  else Ok parts.

Fixpoint lookup_path (path : list string) (root : Value) : option Value :=
  match path with
  | [] => Some root
  | k :: ks => value_get k root ≫= lookup_path ks
  end.

Fixpoint assign (path : list string) (new root : Value) : result Value string :=
  match path with
  | [] => Ok new
  | k :: ks =>
      match root with
      | Obj m =>
          match assign ks new (default (Obj []) (obj_get k m)) with
          | Ok v => Ok (Obj (obj_set k v m))
          | Err e => Err e
          end
      | _ => Err ("'" +:+ k +:+ "' is not a table")
      end
  end.

Definition value_of_i64 (n : Z) : Value := Num (if 0 <=? n then PosInt n else NegInt n).

Section edit.
(** [str::parse::<f64>] followed by [Value::from], and [serde_json::from_str]. *)
Variables (parse_f64 parse_json : string → option Value).

Definition coerce (existing : option Value) (raw : string) : Value :=
  match existing with
  | Some (Bool _) =>
      if bool_decide (raw = "true") then Bool true
      else if bool_decide (raw = "false") then Bool false else Str raw
  | Some (Num _) =>
      match parse_i64 raw with
      | Some n => value_of_i64 n
      | None =>
          match parse_uint u64_max raw with
          | Some n => Num (PosInt n)
          | None => default (Str raw) (parse_f64 raw)
          end
      end
  | Some (Str _) => Str raw
  | _ => default (Str raw) (parse_json raw)
  end.

(** * Setting a value *)

(** The file, and the configuration the daemon holds. *)
Record Store : Type := mkStore { mem : Config; file : option string }.

(** How [save] fails: before the file is touched, or after [k] bytes. *)
Inductive SaveFault : Type := BeforeWrite | TornWrite (k : nat).

(** [toml::to_string_pretty] and [toml::from_str]. *)
Variables (to_toml : Config → option string) (from_toml : string → option Config).

Definition save (f : option SaveFault) (c : Config) : stm (option string) string unit := λ file,
  match f with
  | Some BeforeWrite => (file, Err "config path")
  | _ =>
      match to_toml c with
      | None => (file, Err "toml")
      | Some text =>
          match f with
          | Some (TornWrite k) => (Some (substring 0 k text), Err "write")
          | _ => (Some text, Ok tt)
          end
      end
  end.

Definition load (file : option string) : result Config string :=
  match file with
  | None => Ok Config_default
  | Some text => ok_or "toml" (from_toml text)
  end.

(** [Handler::apply_config_patch]. *)
Definition apply_config_patch (f : option SaveFault) (key : string) (value : Value)
  : stm Store string unit := λ s,
  match set_nested (split_on "." key) value (Config_enc (mem s)) with
  | Err e => (s, Err ("config.set " +:+ key +:+ ": " +:+ e))
  | Ok raw =>
      match Config_dec raw with
      | None => (s, Err "deserialize")
      | Some candidate =>
          match validate_config candidate with
          | [] =>
              match save f candidate (file s) with
              | (file', Ok _) => (mkStore candidate file', Ok tt)
              | (file', Err e) => (mkStore (mem s) file', Err e)
              end
          | errors =>
              (s, Err ("config.set " +:+ key +:+ " rejected: " +:+
                       join_with "; " (map show_error errors)))
          end
      end
  end.

(** [sharecli config set]; the errors of [report_and_exit] end the process. *)
Definition cli_config_set (f : option SaveFault) (key raw : string)
  : stm (option string) string unit := λ file,
  match load file with
  | Err e => (file, Err e)
  | Ok cfg =>
      let root := Config_enc cfg in
      match split_path key with
      | Err e => (file, Err e)
      | Ok parts =>
          let new := coerce (lookup_path parts root) raw in
          match assign parts new root with
          | Err e => (file, Err e)
          | Ok root' =>
              match Config_dec root' with
              | None => (file, Err "deserialize")
              | Some candidate =>
                  match validate_config candidate with
                  | [] => save f candidate file
                  | _ => (file, Err "config validation failed")
                  end
              end
          end
      end
  end.

(** [sharecli config get]. *)
Definition cli_config_get (key : string) (file : option string) : result Value string :=
  match load file with
  | Err e => Err e
  | Ok cfg =>
      match split_path key with
      | Err e => Err e
      | Ok parts => ok_or ("unknown configuration key: " +:+ key) (lookup_path parts (Config_enc cfg))
      end
  end.
End edit.

(** * Lemmas *)

Lemma check_nil b f m : check b f m = [] ↔ b = false.
Proof. by destruct b. Qed.

(** What a valid configuration is. *)
Definition valid (c : Config) : Prop :=
  let p := cf_pool c in let m := cf_monitoring c in let r := cf_runtime c in
  (pc_max_per_type p ≠ 0 ∧ pc_idle_timeout_secs p ≠ 0 ∧ pc_idle_timeout_secs p ≤ 3600 ∧
   pc_max_age_secs p ≠ 0 ∧ pc_max_age_secs p ≤ 86400 ∧ pc_spawn_delay_ms p ≠ 0) ∧
  (mc_health_check_interval_secs m ≠ 0 ∧ mc_health_check_interval_secs m ≤ 3600 ∧
   mc_idle_threshold_secs m ≠ 0 ∧ mc_high_memory_threshold_mb m ≠ 0) ∧
  po_sharewei_port (cf_port c) ≠ 0 ∧
  (trim (pa_discovery_path (cf_paths c)) ≠ EmptyString ∧
   trim (pa_default_compose_output (cf_paths c)) ≠ EmptyString) ∧
  (pl_memory_limit_mb (cf_project_limits c) ≠ 0 ∧ pl_max_processes (cf_project_limits c) ≠ 0) ∧
  (rc_max_memory_mb r ≠ Some 0 ∧ rc_max_processes r ≠ Some 0) ∧
  (trim (sp_default_harness (cf_spawn c)) ≠ EmptyString ∧ sp_prune_idle_seconds (cf_spawn c) ≠ 0) ∧
  py_max_concurrent_builds (cf_spawn_policy c) ≠ 0 ∧
  (trim (ca_default_transport (cf_cast c)) ≠ EmptyString ∧
   ca_handshake_timeout_ms (cf_cast c) ≠ 0 ∧ ca_retry_backoff_ms (cf_cast c) ≠ 0) ∧
  map_Forall (λ _ d, dh_max_instances d ≠ 0 ∧ dh_memory_limit_mb d ≠ 0) (cf_defaults c).

Lemma validate_default_nil kv :
  validate_default kv = [] ↔ dh_max_instances kv.2 ≠ 0 ∧ dh_memory_limit_mb kv.2 ≠ 0.
Proof. unfold validate_default. by rewrite app_nil, !check_nil, !Z.eqb_neq. Qed.

Lemma validate_defaults_nil m : validate_defaults m = [] ↔
  map_Forall (λ _ d, dh_max_instances d ≠ 0 ∧ dh_memory_limit_mb d ≠ 0) m.
Proof.
  unfold validate_defaults. rewrite map_Forall_to_list.
  induction (map_to_list m) as [|[k d] l IH]; simpl; [done|].
  by rewrite app_nil, Forall_cons, IH, validate_default_nil.
Qed.

(** The validator accepts exactly the valid configurations. *)
Lemma validate_config_nil c : validate_config c = [] ↔ valid c.
Proof.
  unfold validate_config, valid, validate_pool, validate_monitoring, validate_port, validate_paths,
    validate_project_limits, validate_runtime, validate_spawn, validate_spawn_policy, validate_cast.
  rewrite !app_nil, !check_nil, !Z.eqb_neq, !Z.ltb_ge, !str_is_empty_false, validate_defaults_nil,
    !bool_decide_eq_false. tauto.
Qed.

Lemma default_valid : validate_config Config_default = [].
Proof. by vm_compute. Qed.

(** Reading the value back, and nothing else changed. *)
Lemma set_nested_lookup p v : ∀ r r', set_nested p v r = Ok r' →
  lookup_path p r' = Some v ∧
  ∀ q, ¬ p `prefix_of` q → ¬ q `prefix_of` p → lookup_path q r' = lookup_path q r.
Proof.
  induction p as [|k ks IH]; intros r r' H; simpl in H.
  { simplify_eq. split; [done|]. intros q Hq. by destruct Hq; apply prefix_nil. }
  destruct r as [| | | | |m]; try done.
  destruct (set_nested ks v _) as [w|] eqn:E; [|done]. simplify_eq.
  destruct (IH _ _ E) as [H1 H2]. split.
  { simpl. by rewrite obj_get_set, bool_decide_true. }
  intros [|j qs] Hp Hq; [by destruct Hq; apply prefix_nil|]. simpl. rewrite obj_get_set.
  destruct (decide (j = k)) as [->|Hne]; [|by rewrite bool_decide_false].
  rewrite bool_decide_true by done. simpl.
  assert (¬ ks `prefix_of` qs) by (contradict Hp; by apply prefix_cons).
  assert (¬ qs `prefix_of` ks) as Hqs by (contradict Hq; by apply prefix_cons).
  rewrite H2 by done. destruct (obj_get k m) as [u|]; [done|]. simpl.
  destruct qs; [by destruct Hqs; apply prefix_nil|done].
Qed.

Lemma set_nested_fresh p v : ∃ w, set_nested p v (Obj []) = Ok w.
Proof. induction p as [|k ks [w IH]]; simpl; [eauto|]. rewrite IH. eauto. Qed.

(** The command line and the daemon edit alike: [assign] and [set_nested] succeed on the
    same paths with the same result; after it the path holds the value and every path that is
    neither above nor below it is unchanged. *)
Theorem assign_set_nested p v r :
  match set_nested p v r, assign p v r with
  | Ok r1, Ok r2 => r1 = r2 ∧ lookup_path p r1 = Some v ∧
      ∀ q, ¬ p `prefix_of` q → ¬ q `prefix_of` p → lookup_path q r1 = lookup_path q r
  | Err _, Err _ => True
  | _, _ => False
  end.
Proof.
  assert (match set_nested p v r, assign p v r with
    | Ok r1, Ok r2 => r1 = r2 | Err _, Err _ => True | _, _ => False end) as H.
  { revert r. induction p as [|k ks IH]; intros r; [done|]. simpl. destruct r; try done.
    specialize (IH (default (Obj []) (obj_get k m))).
    destruct (set_nested ks v _), (assign ks v _); try done. by subst. }
  destruct (set_nested p v r) as [r1|] eqn:E, (assign p v r); try done.
  split; [done|]. by apply set_nested_lookup.
Qed.

(** Every configuration within the integer widths survives serialization: reading back the
    written object gives the same configuration. *)
Theorem config_roundtrip c : Config_ok c → Config_dec (Config_enc c) = Some c.
Proof. apply Config_law. Qed.

Lemma harness_default_ok :
  map_Forall (λ _, DefaultHarnessConfig_ok) default_harness_configs.
Proof.
  unfold default_harness_configs.
  repeat (apply map_Forall_insert_2; [repeat split; vm_compute; congruence|]).
  apply map_Forall_empty.
Qed.

Lemma Config_default_ok : Config_ok Config_default.
Proof.
  unfold Config_ok. split_and!.
  - by intros k s _.
  - repeat split; vm_compute; congruence.
  - exact harness_default_ok.
  - repeat split; vm_compute; congruence.
  - repeat split; vm_compute; congruence.
  - split; vm_compute; congruence.
  - done.
  - repeat split; vm_compute; congruence.
  - repeat split; vm_compute; congruence.
  - repeat split; vm_compute; congruence.
  - repeat split; vm_compute; congruence.
  - apply map_Forall_empty.
  - repeat split. constructor.
  - repeat split; vm_compute; congruence.
  - done.
Qed.

Lemma config_roundtrip_witness : Config_dec (Config_enc Config_default) = Some Config_default.
Proof. apply config_roundtrip, Config_default_ok. Defined.

(** * config.set *)

Section set.
Variables (to_toml : Config → option string) (from_toml : string → option Config).
Notation patch := (apply_config_patch to_toml).

(** The outcomes of a patch. *)
Lemma patch_cases f key v s :
  let '(s', r) := patch f key v s in
  match r with
  | Ok _ =>
      valid (mem s') ∧ file s' = to_toml (mem s') ∧
      ∃ raw, set_nested (split_on "." key) v (Config_enc (mem s)) = Ok raw ∧
        Config_dec raw = Some (mem s') ∧ lookup_path (split_on "." key) raw = Some v
  | Err _ => mem s' = mem s ∧ (file s' = file s ∨ ∃ k, f = Some (TornWrite k))
  end.
Proof.
  unfold apply_config_patch. destruct (set_nested _ _ _) as [raw|e] eqn:Hs; [|by auto].
  destruct (Config_dec raw) as [c|] eqn:Hd; [|by auto].
  destruct (validate_config c) as [|e l] eqn:Hv; [|by auto]. unfold save.
  destruct f as [[|k]|]; [by auto|..]; destruct (to_toml c) as [t|] eqn:Ht; simpl; eauto.
  split_and!; [by apply validate_config_nil|done|].
  exists raw. split_and!; [done..|]. by destruct (set_nested_lookup _ _ _ _ Hs).
Qed.

(** [config.set] is all or nothing. On success the new configuration is valid, it is the old
    one with the value at the path (as far as the configuration has the path), memory and file
    agree; on an error the configuration in memory is the old one, and so is the file unless
    writing it failed half way. *)
Theorem config_set_atomic f key v s :
  let '(s', r) := patch f key v s in
  match r with
  | Ok _ =>
      valid (mem s') ∧ file s' = to_toml (mem s') ∧
      ∃ raw, set_nested (split_on "." key) v (Config_enc (mem s)) = Ok raw ∧
        Config_dec raw = Some (mem s') ∧ lookup_path (split_on "." key) raw = Some v
  | Err _ => mem s' = mem s ∧ (file s' = file s ∨ ∃ k, f = Some (TornWrite k))
  end.
Proof. apply patch_cases. Qed.

(** The configuration with another memory cap. *)
Definition with_max_memory (n : Z) (c : Config) : Config :=
  let r := cf_runtime c in
  mkConfig (cf_projects c)
    (mkRuntimeConfig (rc_node_path r) (rc_bun_path r) (Some n) (rc_max_processes r))
    (cf_defaults c) (cf_pool c) (cf_monitoring c) (cf_port c) (cf_paths c) (cf_project_limits c)
    (cf_spawn c) (cf_spawn_policy c) (cf_cast c) (cf_health_checks c) (cf_notifications c)
    (cf_serve c) (cf_agent_patterns_path c).

Lemma with_max_memory_ok n c : 0 ≤ n ≤ u64_max → Config_ok c → Config_ok (with_max_memory n c).
Proof.
  intros Hn (H1 & (R1 & R2 & _ & R4) & H3). split; [exact H1|split; [|exact H3]].
  split_and!; [exact R1|exact R2|by split|exact R4].
Qed.

Lemma set_max_memory_raw n c :
  set_nested ["runtime"; "max_memory_mb"] (Num (PosInt n)) (Config_enc c) =
    Ok (Config_enc (with_max_memory n c)).
Proof. reflexivity. Qed.

Lemma valid_max_memory n c : valid c → (valid (with_max_memory n c) ↔ n ≠ 0).
Proof.
  unfold valid. simpl. intros Hv. split; [intros Hv' ->; tauto|]. intros Hn.
  split_and!; try tauto. congruence.
Qed.

(** The memory cap over IPC: a positive cap is stored, in memory and in the file, and nothing
    else of the configuration changes; the cap zero is refused and nothing changes at all. *)
Theorem set_max_memory n s text :
  0 ≤ n ≤ u64_max → Config_ok (mem s) → valid (mem s) →
  to_toml (with_max_memory n (mem s)) = Some text →
  patch None "runtime.max_memory_mb" (Num (PosInt n)) s =
    if n =? 0 then (s, Err ("config.set runtime.max_memory_mb rejected: " +:+
                            "config.runtime.max_memory_mb: must be greater than 0"))
    else (mkStore (with_max_memory n (mem s)) (Some text), Ok tt).
Proof.
  intros Hn Hok Hv Ht. unfold apply_config_patch.
  change (split_on "." "runtime.max_memory_mb") with ["runtime"; "max_memory_mb"].
  rewrite set_max_memory_raw, Config_law by (by apply with_max_memory_ok).
  destruct (Z.eqb_spec n 0) as [->|Hne].
  - assert (validate_config (with_max_memory 0 (mem s)) =
      [mkError "config.runtime.max_memory_mb" GT0]) as ->; [|done].
    apply validate_config_nil in Hv. unfold validate_config in *. rewrite !app_nil in Hv.
    destruct Hv as (V1 & V2 & V3 & V4 & V5 & V6 & V7 & V8 & V9 & V10).
    unfold with_max_memory. cbn [cf_pool cf_monitoring cf_port cf_paths cf_project_limits cf_runtime
      cf_spawn cf_spawn_policy cf_cast cf_defaults].
    rewrite V1, V2, V3, V4, V5, V7, V8, V9, V10. unfold validate_runtime in *.
    apply app_nil in V6 as [_ V6]. cbn [rc_max_memory_mb rc_max_processes]. by rewrite V6.
  - rewrite (proj2 (validate_config_nil _)) by (by apply valid_max_memory).
    unfold save. by rewrite Ht.
Qed.

(** Decoding looks only at the names it knows. *)
Lemma Config_dec_ext m m' : (∀ k, k ∈ Config_names → obj_get k m = obj_get k m') →
  Config_dec (Obj m) = Config_dec (Obj m').
Proof.
  intros H. unfold Config_dec. cbn [struct_fields mbind option_bind]. unfold dflt.
  do 15 (rewrite H by (by apply (bool_decide_unpack _))). done.
Qed.

(** A key whose first segment is not a field of the configuration is accepted: [config.set]
    reports success, rewrites the file and changes nothing. *)
Theorem unknown_key_accepted key k ks v s text :
  split_on "." key = k :: ks → k ∉ Config_names →
  Config_ok (mem s) → valid (mem s) → to_toml (mem s) = Some text →
  patch None key v s = (mkStore (mem s) (Some text), Ok tt).
Proof.
  intros Hk Hn Hok Hv Ht. unfold apply_config_patch. rewrite Hk.
  destruct (set_nested_fresh ks v) as [w Hw].
  assert (∃ m, Config_enc (mem s) = Obj m ∧ obj_get k m = None) as (m & Hm & Hg).
  { eexists. split; [reflexivity|]. unfold Config_names in Hn. rewrite !not_elem_of_cons in Hn.
    destruct_and? Hn. cbn [obj_get]. repeat (rewrite bool_decide_false by congruence). done. }
  rewrite Hm. cbn [set_nested]. rewrite Hg. simpl. rewrite Hw.
  rewrite (Config_dec_ext _ m), <- Hm, Config_law by first
    [done | intros j Hj; rewrite obj_get_set, bool_decide_false; [done|by intros ->]].
  rewrite (proj2 (validate_config_nil _)) by done. unfold save. by rewrite Ht.
Qed.
End set.

(** [config set runtime.node_path 123]: the path is unset by default, so the value is read as a
    JSON number and the string field refuses it. *)
Lemma numeric_node_path_refused parse_f64 parse_json to_toml from_toml f :
  parse_json "123" = Some (Num (PosInt 123)) →
  cli_config_set parse_f64 parse_json to_toml from_toml f "runtime.node_path" "123" None =
    (None, Err "deserialize").
Proof. intros H. unfold cli_config_set. simpl. rewrite H. done. Qed.

(** * Witnesses *)

Definition demo_toml (c : Config) : option string := Some "toml".
Definition demo_store : Store := mkStore Config_default None.

Lemma default_is_valid : valid Config_default.
Proof. apply validate_config_nil, default_valid. Qed.

Lemma set_max_memory_witness :
  apply_config_patch demo_toml None "runtime.max_memory_mb" (Num (PosInt 8192)) demo_store =
    (mkStore (with_max_memory 8192 Config_default) (Some "toml"), Ok tt).
Proof.
  apply (set_max_memory demo_toml 8192 demo_store "toml");
    [done|exact Config_default_ok|exact default_is_valid|done].
Defined.

Lemma unknown_key_accepted_witness :
  apply_config_patch demo_toml None "runtimes.max_memory_mb" (Num (PosInt 1)) demo_store =
    (mkStore Config_default (Some "toml"), Ok tt).
Proof.
  apply (unknown_key_accepted demo_toml _ "runtimes" ["max_memory_mb"]);
    [done|by apply (bool_decide_unpack _)|exact Config_default_ok|exact default_is_valid|done].
Defined.
