(* ===== verification/IpcHandler.v ===== *)
(** The request handler of the daemon (crates/sharecli-ipc/src/handler.rs): [dispatch] decodes a
    request, runs the method over the session store, the configuration and the log buffer, and
    answers with the request's id. The state is the composition of [SessionLedger], [Config] and
    [LogBuffer], which also takes the trace events emitted while a request is served; the theorems
    show that clients of the socket see the abstract ledger. *)
From S2P Require Import Prelude JsonValue Config LogBuffer Sessions SessionLedger.

(** * Wire types *)

Record Request : Type := mkRequest { req_id : Z; method : string; params : Value }.

(** What a method passes to [serde_json::to_value]. *)
Inductive Reply : Type :=
| RSessions (l : list AgentSession)
| RSession (s : option AgentSession)
| RObserved (sequence : Z) (surface_id : string)
| RObservations (l : list SessionObservation)
| RCompacted (removed : nat)
| RLayouts (l : list LayoutSnapshot)
| RLayout (s : option LayoutSnapshot)
| RSaved (id : string)
| RRecovery (l : list RecoveryResult)
| RTrue
| RCmdline (cmd : list string)
| RHost (v : Value)
| RConfig (c : Config)
| RLog (lines : list LogEntry) (last_id : Z).

Record Response : Type := mkResponse { resp_id : Z; resp_result : option Reply; resp_error : option string }.
Definition resp_ok (id : Z) (r : Reply) : Response := mkResponse id (Some r) None.
Definition resp_err (id : Z) (msg : string) : Response := mkResponse id None (Some msg).

Inductive Method : Type :=
| SessionList | SessionInspect | SessionObserve | SessionObservations | SessionCompact
| LayoutList | LayoutInspect | LayoutSave
| RecoveryPlan | RecoveryExecute
| ProcessList | ProcessKill | ProcessKillAll | ProcessCmdline
| HealthStatus | PoolStatus | StatusSnapshot | MonitoringReport
| ConfigGet | ConfigSet | LogTail.

#[global] Instance method_eq_dec : EqDecision Method.
Proof. solve_decision. Defined.

Definition methods : list (string * Method) :=
  [("session.list", SessionList); ("session.inspect", SessionInspect);
   ("session.observe", SessionObserve); ("session.observations", SessionObservations);
   ("session.compact", SessionCompact); ("layout.list", LayoutList);
   ("layout.inspect", LayoutInspect); ("layout.save", LayoutSave);
   ("recovery.plan", RecoveryPlan); ("recovery.execute", RecoveryExecute);
   ("process.list", ProcessList); ("process.kill", ProcessKill);
   ("process.kill_all", ProcessKillAll); ("process.cmdline", ProcessCmdline);
   ("health.status", HealthStatus); ("pool.status", PoolStatus);
   ("status.snapshot", StatusSnapshot); ("monitoring.report", MonitoringReport);
   ("config.get", ConfigGet); ("config.set", ConfigSet); ("log.tail", LogTail)].

Definition method_of (s : string) : option Method :=
  snd <$> find (λ p : string * Method, bool_decide (p.1 = s)) methods.

(** * State and environment *)

Record Daemon : Type := mkDaemon { db : Db; conf : Store; logs : Inner }.

(** What the host does during one request: SQL and file faults, the clock, starting and killing
    processes, and the samplers of the operator snapshots. *)
Record Host : Type := mkHost {
  sql : SqlFaults;
  save_fault : option SaveFault;
  clock : Z;
  spawner : Spawner;
  panics : AgentSession → bool;
  kill : Z → result unit string;
  kill_all : result unit string;
  cmdline : Z → option (list string);
  sample : Method → result Value string;
}.

Definition DEFAULT_RECOVERY_MAX_AGE_SECONDS : Z := 4 * 60 * 60.

Definition recovery_max_age_seconds (p : Value) : result Z string :=
  let seconds := default DEFAULT_RECOVERY_MAX_AGE_SECONDS
                   (value_get "max_age_seconds" p ≫= as_u64) in
  if (1 <=? seconds) && (seconds <=? 604800) then Ok seconds
  else Err "max_age_seconds must be between 1 and 604800".

Definition session_database_path (override_path data_root : option string) : result string string :=
  match override_path with
  | Some p => if str_is_empty p then Err "SHARECLI_SESSION_DB must not be empty" else Ok p
  | None => Ok (default "/tmp" data_root +:+ "/sharecli/sessions.sqlite")
  end.

Definition pid_param (who : string) (p : Value) : result Z string :=
  match as_u64 (value_index "pid" p) with
  | None => Err "missing pid"
  | Some n => if n <=? u32_max then Ok n else Err (who +:+ ": pid out of range")
  end.

Definition split_nul_tokens (bytes : string) : list string :=
  filter (λ c, c ≠ EmptyString) (split_on (ascii_of_nat 0) bytes).

Section handler.
Context `{JResume : Json ResumeRecipe, JConf : Json ResolutionConfidence, JState : Json SessionState,
          JSurface : Json SurfaceRecord, JSession : Json AgentSession,
          JCaps : Json SurfaceCapabilities, JKind : Json ObservationKind,
          JLayout : Json LayoutSnapshot}.
(** [serde_json::from_str::<Request>] and [from_value] of the two argument types. *)
Variable de_request : string → result Request string.
Variable de_observation : Value → option SessionObservation.
Variable de_layout : Value → option LayoutSnapshot.
Variable to_toml : Config → option string.
(** Timestamps as instants, and the ticks of an instant in a second. *)
Variable parse_ts : string → option Z.
Variable ticks : Z.

Definition on_db {A} (m : stm Db string A) : stm Daemon string A := λ d,
  let '(db', r) := m (db d) in (mkDaemon db' (conf d) (logs d), r).
Definition on_conf {A} (m : stm Store string A) : stm Daemon string A := λ d,
  let '(c', r) := m (conf d) in (mkDaemon (db d) c' (logs d), r).

Definition str_param (k err : string) (p : Value) : result string string :=
  ok_or err (value_get k p ≫= as_str).
(** The argument under its own key, or the parameters themselves. *)
Definition wrapped (k : string) (p : Value) : Value := default p (value_get k p).

Definition plan (h : Host) (seconds : Z) : stm Db string (list AgentSession) :=
  recovery_plan (sql h) parse_ts (clock h) (seconds * ticks).

Definition handle (h : Host) (req : Request) : stm Daemon string Reply :=
  let p := params req in
  match method_of (method req) with
  | Some SessionList => l <- on_db (list_sessions (sql h)) ;; st_ret (RSessions l)
  | Some SessionInspect =>
      i <- st_lift (str_param "id" "session.inspect: missing id" p) ;;
      s <- on_db (get (sql h) i) ;; st_ret (RSession s)
  | Some SessionObserve =>
      o <- st_lift (ok_or "observation" (de_observation (wrapped "observation" p))) ;;
      n <- on_db (append_observation (sql h) o) ;;
      st_ret (RObserved n (sf_id (ob_surface o)))
  | Some SessionObservations =>
      l <- on_db (observations (sql h) (value_get "surface_id" p ≫= as_str)) ;;
      st_ret (RObservations l)
  | Some SessionCompact => n <- on_db (compact_observations (sql h)) ;; st_ret (RCompacted n)
  | Some LayoutList => l <- on_db (list_layouts (sql h)) ;; st_ret (RLayouts l)
  | Some LayoutInspect =>
      i <- st_lift (str_param "id" "layout.inspect: missing id" p) ;;
      s <- on_db (get_layout (sql h) i) ;; st_ret (RLayout s)
  | Some LayoutSave =>
      s <- st_lift (ok_or "snapshot" (de_layout (wrapped "snapshot" p))) ;;
      on_db (save_layout (sql h) s) ;;; st_ret (RSaved (ly_id s))
  | Some RecoveryPlan =>
      a <- st_lift (recovery_max_age_seconds p) ;;
      l <- on_db (plan h a) ;; st_ret (RSessions l)
  | Some RecoveryExecute =>
      let exec := default false (value_get "execute" p ≫= as_bool) in
      let max_parallel := default 4 (value_get "max_parallel" p ≫= as_u64) in
      a <- st_lift (recovery_max_age_seconds p) ;;
      l <- on_db (plan h a) ;;
      st_ret (RRecovery (if exec
        then execute (executor_new (Z.to_nat max_parallel)) (spawner h) (panics h) l
        else dry_run l))
  | Some ProcessKill =>
      pid <- st_lift (pid_param "process.kill" p) ;;
      st_lift (kill h pid) ;;; st_ret RTrue
  | Some ProcessKillAll => st_lift (kill_all h) ;;; st_ret RTrue
  | Some ProcessCmdline =>
      pid <- st_lift (pid_param "process.cmdline" p) ;;
      st_ret (RCmdline (default [] (cmdline h pid)))
  | Some ((ProcessList | HealthStatus | PoolStatus | StatusSnapshot | MonitoringReport) as m) =>
      v <- st_lift (sample h m) ;; st_ret (RHost v)
  | Some ConfigGet => d <- st_get ;; st_ret (RConfig (mem (conf d)))
  | Some ConfigSet =>
      key <- st_lift (ok_or "missing key" (as_str (value_index "key" p))) ;;
      on_conf (apply_config_patch to_toml (save_fault h) key (value_index "value" p)) ;;;
      st_ret RTrue
  | Some LogTail =>
      let since := default 0 (as_u64 (value_index "since_id" p)) in
      d <- st_get ;;
      let '(lines, last) := tail_since since 200 (logs d) in
      st_ret (RLog lines last)
  | None => st_err ("unknown method: " +:+ method req)
  end.

Definition dispatch (h : Host) (raw : string) (d : Daemon) : Daemon * Response :=
  match de_request raw with
  | Err e => (d, resp_err 0 ("parse error: " +:+ e))
  | Ok req =>
      match handle h req d with
      | (d', Ok r) => (d', resp_ok (req_id req) r)
      | (d', Err e) => (d', resp_err (req_id req) e)
      end
  end.

(** A request as the process serves it: the events that code under [handle] and other tasks emit
    with [tracing], before and after the state is read, go to the log buffer through
    [LogBufferLayer]. Which they are is up to that code: they are arguments, each with its time. *)
Definition log_events (evs : list (Z * Event)) (d : Daemon) : Daemon :=
  mkDaemon (db d) (conf d) (foldl (λ b ev, (on_event ev.1 ev.2 b).1) (logs d) evs).

Definition dispatch_traced (before after : list (Z * Event)) (h : Host) (raw : string) (d : Daemon)
  : Daemon * Response :=
  let '(d', r) := dispatch h raw (log_events before d) in (log_events after d', r).

(** * What a request does to the store *)

Definition ledger_op_of (req : Request) : option ledger_op :=
  match method_of (method req) with
  | Some SessionObserve => LAppend <$> de_observation (wrapped "observation" (params req))
  | Some SessionCompact => Some LCompact
  | Some LayoutSave => LSaveLayout <$> de_layout (wrapped "snapshot" (params req))
  | _ => None
  end.

(** Queries leave the tables alone. *)
Definition queries {A} (m : stm Db string A) : Prop := ∀ d, (m d).1 = d.

Ltac query f := intros d; unfold f, st_bind, sql_try, st_get, st_lift, st_ret;
  by repeat case_match; simplify_eq.
Lemma list_sessions_queries f : queries (list_sessions f).
Proof. query @list_sessions. Qed.
Lemma get_queries f i : queries (get f i).
Proof. query @get. Qed.
Lemma observations_queries f i : queries (observations f i).
Proof. query @observations. Qed.
Lemma list_layouts_queries f : queries (list_layouts f).
Proof. query @list_layouts. Qed.
Lemma get_layout_queries f i : queries (get_layout f i).
Proof. query @get_layout. Qed.
Lemma plan_queries h a : queries (plan h a).
Proof.
  intros d. unfold plan, recovery_plan, st_bind. destruct (_ <=? _); [done|].
  pose proof (observations_queries (sql h) None d) as H.
  destruct (observations _ _ _) as [d' [l|e]]; simpl in *; by subst.
Qed.

Lemma on_db_query {A} (m : stm Db string A) d : queries m → (on_db m d).1 = d.
Proof.
  intros H. unfold on_db. specialize (H (db d)). destruct (m (db d)) as [db' r]. simpl in *.
  subst. by destruct d.
Qed.

(** A reply computed from what a query found. *)
Lemma reply_query {A} (m : stm Db string A) (g : A → Reply) d : queries m →
  (st_bind (λ a, st_ret (g a)) (on_db m) d).1 = d.
Proof.
  intros H%(λ H, on_db_query m d H). unfold st_bind. destruct (on_db m d) as [d' [a|e]]; simpl in *;
    by subst.
Qed.

Lemma lift_bind {S A} (r : result A string) (k : A → stm S string Reply) d :
  st_bind k (st_lift r) d = match r with Ok a => k a d | Err e => (d, Err e) end.
Proof. by destruct r. Qed.

(** A request that is no operation of the ledger leaves the store and the log alone, and all but
    [config.set] the configuration too. *)
Lemma handle_query h req d : ledger_op_of req = None →
  method_of (method req) ≠ Some ConfigSet → (handle h req d).1 = d.
Proof.
  intros Hop Hcs. unfold ledger_op_of in Hop. unfold handle.
  destruct (method_of (method req)) as [m|]; [|done].
  destruct m; simpl in Hop; try done; rewrite ?lift_bind;
    try (by apply reply_query, list_sessions_queries);
    try (by apply reply_query, observations_queries);
    try (by apply reply_query, list_layouts_queries).
  - destruct (str_param _ _ _); [by apply reply_query, get_queries|done].
  - destruct (de_observation _); [done|]. done.
  - destruct (str_param _ _ _); [by apply reply_query, get_layout_queries|done].
  - destruct (de_layout _); [done|]. done.
  - destruct (recovery_max_age_seconds _); [by apply reply_query, plan_queries|done].
  - destruct (recovery_max_age_seconds _); [by apply reply_query, plan_queries|done].
  - by destruct (sample h _).
  - destruct (pid_param _ _) as [pid|]; [|done]. rewrite lift_bind. by destruct (kill h pid).
  - by destruct (kill_all h).
  - by destruct (pid_param _ _).
  - by destruct (sample h _).
  - by destruct (sample h _).
  - by destruct (sample h _).
  - by destruct (sample h _).
Qed.

(** A ledger operation is run on the store, and the reply is a success when it was one. *)
Lemma handle_ledger h req d op : ledger_op_of req = Some op →
  let '(d', r) := handle h req d in
  (db d', is_ok r) = store_exec (sql h) op (db d) ∧ conf d' = conf d ∧ logs d' = logs d.
Proof.
  unfold ledger_op_of, handle. intros Hop.
  destruct (method_of (method req)) as [m|]; [|done]. destruct m; simplify_eq/=.
  - destruct (de_observation _) as [o|]; simplify_eq/=. unfold st_bind, on_db, st_lift, ok_or, st_ret.
    by destruct (append_observation _ _ _) as [? [|]].
  - unfold st_bind, on_db, st_ret. by destruct (compact_observations _ _) as [? [|]].
  - destruct (de_layout _) as [o|]; simplify_eq/=. unfold st_bind, on_db, st_lift, ok_or, st_ret.
    by destruct (save_layout _ _ _) as [? [|]].
Qed.

Lemma handle_config h req d : method_of (method req) = Some ConfigSet →
  let '(d', r) := handle h req d in
  db d' = db d ∧ logs d' = logs d ∧ (is_ok r = false → mem (conf d') = mem (conf d)).
Proof.
  intros Hm. unfold handle. rewrite Hm, lift_bind.
  destruct (ok_or _ _) as [key|e]; [|done]. unfold st_bind, on_conf.
  pose proof (patch_cases to_toml (save_fault h) key (value_index "value" (params req)) (conf d)) as H.
  destruct (apply_config_patch _ _ _ _ _) as [c' [|e]]; simpl; [done|]. by destruct H.
Qed.

(** The requests of a connection, each with what the host does meanwhile; the ledger takes the
    step exactly when the reply is a success. *)
Definition answered (r : Response) : bool := match resp_error r with None => true | Some _ => false end.
Fixpoint serve (script : list (Host * string)) (x : Daemon * Ledger) : Daemon * Ledger :=
  match script with
  | [] => x
  | (h, raw) :: rest =>
      let '(d', r) := dispatch h raw x.1 in
      let a' := match de_request raw with
                | Ok req =>
                    match ledger_op_of req with
                    | Some op => if answered r then ledger_step op x.2 else x.2
                    | None => x.2
                    end
                | Err _ => x.2
                end in
      serve rest (d', a')
  end.

Context `{!JsonLaws ResumeRecipe, !JsonLaws ResolutionConfidence, !JsonLaws SessionState,
          !JsonLaws SurfaceRecord, !JsonLaws AgentSession, !JsonLaws SurfaceCapabilities,
          !JsonLaws ObservationKind}.

Lemma dispatch_answered h raw d req :
  de_request raw = Ok req → answered (dispatch h raw d).2 = is_ok (handle h req d).2 ∧
    (dispatch h raw d).1 = (handle h req d).1 ∧ resp_id (dispatch h raw d).2 = req_id req.
Proof. intros Hr. unfold dispatch. rewrite Hr. by destruct (handle h req d) as [d' [|]]. Qed.

Lemma serve_represents script : ∀ d a, represents (db d) a →
  represents (db (serve script (d, a)).1) (serve script (d, a)).2.
Proof.
  induction script as [|[h raw] rest IH]; intros d a Hrep; [done|]. cbn [serve fst snd].
  destruct (de_request raw) as [req|e] eqn:Hreq.
  2: { unfold dispatch. rewrite Hreq. by apply IH. }
  destruct (dispatch_answered h raw d req Hreq) as (Ha & Hd & _).
  destruct (dispatch h raw d) as [d' r]. simpl in Ha, Hd. rewrite Ha, Hd. apply IH.
  destruct (ledger_op_of req) as [op|] eqn:Hop.
  - pose proof (handle_ledger h req d op Hop) as H. destruct (handle h req d) as [d1 r1].
    destruct H as (H & _ & _). simpl.
    destruct (store_exec_represents (sql h) op (db d) a Hrep) as [E|(db' & E & Hr')];
      rewrite E in H; injection H as -> ->; done.
  - destruct (decide (method_of (method req) = Some ConfigSet)) as [Hc|Hc].
    + pose proof (handle_config h req d Hc) as H. destruct (handle h req d) as [d1 r1]. simpl.
      destruct H as [-> _]. done.
    + by rewrite handle_query.
Qed.

(** C17: Clients of the socket see the ledger. After any requests from any clients, well formed or
    not, with any SQL and file faults: inspecting a session, reading the observations of all or
    one surface, and asking for the recovery plan are answered, under the request's own id, from
    the abstract ledger that took exactly the steps whose replies were successes. *)
Theorem daemon_serves_ledger script c0 l0 h raw i sid seconds :
  let '(d, a) := serve script (mkDaemon db_new c0 l0, ledger_new) in
  sql h = sql_ok → 0 < ticks →
  (de_request raw = Ok (mkRequest i "session.inspect" (Obj [("id", Str sid)])) →
   dispatch h raw d = (d, resp_ok i (RSession (lg_sessions a !! sid)))) ∧
  (de_request raw = Ok (mkRequest i "session.observations" (Obj [("surface_id", Str sid)])) →
   dispatch h raw d = (d, resp_ok i (RObservations (filter (λ o, surface_of o = sid) (lg_obs a))))) ∧
  (1 ≤ seconds ≤ 604800 →
   de_request raw = Ok (mkRequest i "recovery.plan" (Obj [("max_age_seconds", Num (PosInt seconds))])) →
   dispatch h raw d = (d, resp_ok i (RSessions
     (btree_values (plan_of (latest parse_ts (clock h) (seconds * ticks) (lg_obs a))))))).
Proof.
  pose proof (serve_represents script (mkDaemon db_new c0 l0) ledger_new represents_new) as Hrep.
  destruct (serve script _) as [d a]. simpl in Hrep. intros Hsql Ht.
  assert (mkDaemon (db d) (conf d) (logs d) = d) as Hd by (by destruct d).
  split_and!.
  - intros Hr. unfold dispatch. rewrite Hr. unfold handle. simpl. unfold st_bind, on_db. simpl.
    by rewrite Hsql, (get_represents _ _ _ Hrep), Hd.
  - intros Hr. unfold dispatch. rewrite Hr. unfold handle. simpl. unfold st_bind, on_db. simpl.
    by rewrite Hsql, (observations_represents _ _ _ Hrep), Hd.
  - intros Hs Hr. unfold dispatch. rewrite Hr. unfold handle. simpl. rewrite lift_bind.
    unfold recovery_max_age_seconds. simpl.
    rewrite (proj2 (Z.leb_le 1 seconds)), (proj2 (Z.leb_le seconds _)) by lia. simpl.
    unfold st_bind, on_db, plan. rewrite Hsql, (recovery_plan_represents _ _ _ _ _ Hrep) by lia.
    by rewrite Hd.
Qed.

Lemma transaction_failed {A} f (body : stm Db string A) x x' e :
  transaction f body x = (x', Err e) → x' = x.
Proof. unfold transaction. intros. by repeat case_match; simplify_eq. Qed.

(** A refused operation of the store leaves the tables as they were. *)
Lemma store_exec_failed f op x x' : store_exec f op x = (x', false) → x' = x.
Proof.
  destruct op as [o|s| |s]; simpl.
  - unfold append_observation. destruct (transaction _ _ _) as [? [|]] eqn:E; simpl; intros;
      simplify_eq. by apply transaction_failed in E.
  - unfold upsert, upsert_locked, st_bind, st_lift, sql_try, st_mod. intros.
    by repeat case_match; simplify_eq.
  - unfold compact_observations. destruct (transaction _ _ _) as [? [|]] eqn:E; simpl; intros;
      simplify_eq. by apply transaction_failed in E.
  - destruct (save_layout_frame f s x) as [[e E]|(l & E & _)]; rewrite E; intros; by simplify_eq.
Qed.

(** C18: An error reply means nothing happened but tracing: whatever the request, the faults and
    the events emitted meanwhile, when the response carries an error the session store and the
    configuration in memory are what they were before, and the log has got exactly those events, in
    their order; the response carries no result. Every response carries the id of its request, or 0
    when the line could not be decoded. *)
Theorem error_reply_leaves_no_trace h raw before after d :
  let '(d', r) := dispatch_traced before after h raw d in
  (resp_error r ≠ None →
     db d' = db d ∧ mem (conf d') = mem (conf d) ∧ resp_result r = None ∧
     logs d' = foldl (λ b ev, (on_event ev.1 ev.2 b).1) (logs d) (before ++ after)) ∧
  resp_id r = match de_request raw with Ok req => req_id req | Err _ => 0 end.
Proof.
  unfold dispatch_traced, dispatch. rewrite foldl_app.
  destruct (de_request raw) as [req|e]; [|done].
  destruct (handle h req (log_events before d)) as [d' [r|e]] eqn:Hh; simpl; (split; [|done]); [done|].
  intros _. destruct (ledger_op_of req) as [op|] eqn:Hop.
  - pose proof (handle_ledger h req (log_events before d) op Hop) as H. rewrite Hh in H.
    destruct H as (H & -> & ->). simpl in H. symmetry in H. by apply store_exec_failed in H as ->.
  - destruct (decide (method_of (method req) = Some ConfigSet)) as [Hc|Hc].
    + pose proof (handle_config h req (log_events before d) Hc) as H. rewrite Hh in H.
      destruct H as (-> & -> & H). by rewrite H.
    + pose proof (handle_query h req (log_events before d) Hop Hc) as H. rewrite Hh in H. simpl in H.
      by subst.
Qed.

(** Requests that may start or kill processes. *)
Definition touches_processes (req : Request) : bool :=
  match method_of (method req) with
  | Some RecoveryExecute => default false (value_get "execute" (params req) ≫= as_bool)
  | Some (ProcessKill | ProcessKillAll) => true
  | _ => false
  end.

(** The same host, but starting and killing processes goes differently. *)
Definition other_effects (h h' : Host) : Host :=
  mkHost (sql h) (save_fault h) (clock h) (spawner h') (panics h') (kill h') (kill_all h')
    (cmdline h) (sample h).

(** Only an explicit request touches processes. Unless a request is [process.kill],
    [process.kill_all] or [recovery.execute] with [execute] set to true, its response and its
    effect do not depend on what starting or killing a process would do. *)
Theorem processes_touched_only_on_request h h' raw d :
  (∀ req, de_request raw = Ok req → touches_processes req = false) →
  dispatch (other_effects h h') raw d = dispatch h raw d.
Proof.
  intros Hn. unfold dispatch. destruct (de_request raw) as [req|e]; [|done].
  specialize (Hn req eq_refl). unfold touches_processes in Hn.
  replace (handle (other_effects h h') req d) with (handle h req d); [done|].
  unfold handle. destruct (method_of (method req)) as [m|]; [|done]. destruct m; try done.
  by rewrite Hn.
Qed.
End handler.

(** * A concrete daemon *)

Module DemoDaemon.
Import SessionLedger.Demo.
#[local] Instance j_layout : Json LayoutSnapshot := mkJson _ (λ _, None) (λ _, None).

Definition session_key : string := as_id SessionLedger.Demo.session.
Definition de_request (raw : string) : result Request string :=
  if bool_decide (raw = "observe")
  then Ok (mkRequest 1 "session.observe" (Obj [("observation", Str "4")]))
  else if bool_decide (raw = "inspect")
  then Ok (mkRequest 2 "session.inspect" (Obj [("id", Str session_key)]))
  else Err "expected value".
Definition de_observation (v : Value) : option SessionObservation :=
  (λ t, obs t Updated) <$> as_str v.
Definition de_layout (_ : Value) : option LayoutSnapshot := None.
Definition host : Host :=
  mkHost sql_ok None 9 (λ _ _ _, Ok tt) (λ _, false) (λ _, Ok tt) (Ok tt) (λ _, None)
    (λ _, Ok Null).
Definition fresh_daemon : Daemon := mkDaemon db_new demo_store log_new.
Notation dispatch1 :=
  (dispatch de_request de_observation de_layout demo_toml parse 1 host).
Notation serve1 := (serve de_request de_observation de_layout demo_toml parse 1).

Lemma daemon_serves_ledger_witness :
  let '(d, a) := serve1 [(host, "observe"); (host, "?")] (fresh_daemon, ledger_new) in
  dispatch1 "inspect" d = (d, resp_ok 2 (RSession (lg_sessions a !! session_key))).
Proof.
  pose proof (daemon_serves_ledger de_request de_observation de_layout demo_toml parse 1
    [(host, "observe"); (host, "?")] demo_store log_new host "inspect" 2 session_key 1) as H.
  destruct (serve1 _ _) as [d a]. apply H; done.
Defined.

Example observed_session_is_inspected :
  (dispatch1 "inspect" (dispatch1 "observe" fresh_daemon).1).2 =
    resp_ok 2 (RSession (Some SessionLedger.Demo.session)).
Proof. by vm_compute. Qed.

(** A line that cannot be decoded: the answer has id 0, the warning emitted meanwhile is the only
    entry of the log. *)
Example undecodable_line :
  let ev := mkEvent WARN (Some "sharecli_ipc::handler") [("message", AsStr "bad line")] in
  let '(d', r) := dispatch_traced de_request de_observation de_layout demo_toml parse 1
                    [(9, ev)] [] host "{7}" fresh_daemon in
  resp_id r = 0 ∧ resp_error r = Some "parse error: expected value" ∧
  entries (logs d') = [mkEntry 1 9 "WARN" "ipc" "bad line"].
Proof. by vm_compute. Qed.

Lemma processes_touched_only_on_request_witness :
  dispatch de_request de_observation de_layout demo_toml parse 1 (other_effects host host)
    "inspect" fresh_daemon = dispatch1 "inspect" fresh_daemon.
Proof.
  apply (processes_touched_only_on_request de_request de_observation de_layout demo_toml parse 1).
  intros req [= <-]. done.
Defined.
End DemoDaemon.
