(* ===== verification/Harness.v ===== *)
(** The command harness (crates/harness-native): rules.conf, agent detection, the search for the
    real binary, the strategies over the hypervisor and the decision of the dispatcher's [main].
    The strategies are written against an interface, [Lane], of what they use of the hypervisor;
    the hypervisor model is an instance of it. *)
From S2P Require Import Prelude FleetGate CacheKey CoalesceCache SlotQueue Speculation Hypervisor.

(** * rules.conf *)

(** One line of the file: the key and what it maps to. *)
Definition rule_key (cmd sub : string) : string := cmd +:+ "__" +:+ sub.
Definition STAR : string := "STAR".

Definition parse_rule (raw : string) : option (string * string * (string * string)) :=
  let line := trim (default EmptyString (head (split_on "#" raw))) in
  if str_is_empty line || starts_with "equivalence=" line then None
  else
    let '(pattern, rest) := default (line, EmptyString) (split_first is_ws line) in
    let words := split_whitespace (trim rest) in
    let strategy := default "passthrough" (head words) in
    let opts := join_with " " (tail words) in
    let '(pcmd, psub) := default (pattern, "*") (split_once ":" pattern) in
    Some (pcmd, if bool_decide (psub = "*") then STAR else psub, (strategy, opts)).

Definition add_rule (m : gmap string (string * string)) (raw : string)
  : gmap string (string * string) :=
  match parse_rule raw with
  | Some (c, s, v) => <[rule_key c s := v]> m
  | None => m
  end.

Definition sub_or_star (sub : string) : string := if str_is_empty sub then STAR else sub.

(** [content] is [None] when the file cannot be read. *)
Definition get_rule (content : option string) (cmd subcmd : string) : string * string :=
  match content with
  | None => ("passthrough", EmptyString)
  | Some text =>
      let rules := foldl add_rule ∅ (str_lines text) in
      match rules !! rule_key cmd (sub_or_star subcmd) with
      | Some v => v
      | None => default ("passthrough", EmptyString) (rules !! rule_key cmd STAR)
      end
  end.

Section opts.
(** [f64] and its parser, with the default jitter. *)
Context {F : Type} (parse_f64 : string → option F) (f_default : F).

Record RuleOpts : Type := mkOpts {
  ttl : Z; debounce_ms : Z; error_ttl : Z; max_concurrent : Z;
  priority : string; cache_key : string; batch_key : string; causal_domain : string;
  breaker_threshold : Z; breaker_window : Z; breaker_cooldown : Z;
  retry_max : Z; retry_backoff_ms : Z; retry_jitter : F;
  jobserver_auth : string; jobserver_tokens : Z; jobserver_borrow : bool;
  stale_threshold : Z; semantic : bool; nocache_args : option (list string);
}.

Definition opts_initial : RuleOpts :=
  mkOpts 10 0 10 1 "normal" "time" EmptyString EmptyString 0 60 30 3 100 f_default EmptyString 0
    true 0 false None.

Definition u32_or (d : Z) (v : string) : Z := default d (parse_uint u32_max v).
Definition u64_or (d : Z) (v : string) : Z := default d (parse_uint u64_max v).

Definition set_opt (o : RuleOpts) (part : string) : RuleOpts :=
  let 'mkOpts t db et mc p ck bk cd bt bw bc rm rb rj ja jt jb st se na := o in
  match split_once "=" part with
  | None => o
  | Some (k, v) =>
      if bool_decide (k = "ttl") then mkOpts (u64_or 10 v) db et mc p ck bk cd bt bw bc rm rb rj ja jt jb st se na
      else if bool_decide (k = "error_ttl") then mkOpts t db (u64_or 10 v) mc p ck bk cd bt bw bc rm rb rj ja jt jb st se na
      else if bool_decide (k = "debounce_ms") then mkOpts t (u64_or 0 v) et mc p ck bk cd bt bw bc rm rb rj ja jt jb st se na
      else if bool_decide (k = "max_concurrent") then mkOpts t db et (u32_or 1 v) p ck bk cd bt bw bc rm rb rj ja jt jb st se na
      else if bool_decide (k = "priority") then mkOpts t db et mc v ck bk cd bt bw bc rm rb rj ja jt jb st se na
      else if bool_decide (k = "cache_key") then mkOpts t db et mc p v bk cd bt bw bc rm rb rj ja jt jb st se na
      else if bool_decide (k = "batch_key") then mkOpts t db et mc p ck v cd bt bw bc rm rb rj ja jt jb st se na
      else if bool_decide (k = "causal_domain") then mkOpts t db et mc p ck bk v bt bw bc rm rb rj ja jt jb st se na
      else if bool_decide (k = "breaker_threshold") then mkOpts t db et mc p ck bk cd (u32_or 0 v) bw bc rm rb rj ja jt jb st se na
      else if bool_decide (k = "breaker_window") then mkOpts t db et mc p ck bk cd bt (u64_or 60 v) bc rm rb rj ja jt jb st se na
      else if bool_decide (k = "breaker_cooldown") then mkOpts t db et mc p ck bk cd bt bw (u64_or 30 v) rm rb rj ja jt jb st se na
      else if bool_decide (k = "retry_max") then mkOpts t db et mc p ck bk cd bt bw bc (u32_or 3 v) rb rj ja jt jb st se na
      else if bool_decide (k = "retry_backoff_ms") then mkOpts t db et mc p ck bk cd bt bw bc rm (u64_or 100 v) rj ja jt jb st se na
      else if bool_decide (k = "retry_jitter") then mkOpts t db et mc p ck bk cd bt bw bc rm rb (default f_default (parse_f64 v)) ja jt jb st se na
      else if bool_decide (k = "stale") then mkOpts t db et mc p ck bk cd bt bw bc rm rb rj ja jt jb (u64_or 0 v) se na
      else if bool_decide (k = "semantic") then mkOpts t db et mc p ck bk cd bt bw bc rm rb rj ja jt jb st (bool_decide (v = "1")) na
      else if bool_decide (k = "nocache_args") then mkOpts t db et mc p ck bk cd bt bw bc rm rb rj ja jt jb st se (Some (parse_nocache_args_csv v))
      else if bool_decide (k = "jobserver_auth") then mkOpts t db et mc p ck bk cd bt bw bc rm rb rj v jt jb st se na
      else if bool_decide (k = "jobserver_tokens") then mkOpts t db et mc p ck bk cd bt bw bc rm rb rj ja (u32_or 0 v) jb st se na
      else if bool_decide (k = "jobserver_borrow") then mkOpts t db et mc p ck bk cd bt bw bc rm rb rj ja jt (bool_decide (v = "1")) st se na
      else o
  end.

Definition parse_opts (opts_str : string) : RuleOpts :=
  foldl set_opt opts_initial (split_whitespace opts_str).
End opts.
Arguments RuleOpts F : clear implicits.

Definition first_non_flag_arg (args : list string) : string :=
  default EmptyString (find (λ a, negb (starts_with "-" a)) args).
Definition is_cli_mode (invoked : string) : bool :=
  bool_decide (invoked ∈ ["harness"; "helios-shield"; "helios_shield"]).
Definition needs_cache_key (strategy : string) : bool :=
  bool_decide (strategy ∈ ["coalesce"; "cache"; "incremental"; "circuit_breaker"; "speculative";
                           "proactive_warm"]).

(** [panic_mode] on the modification time of the panic file, [None] when it cannot be told: the
    file as it is left and whether the mode is on.  It is on for a minute. *)
Definition panic_mode (now_ms : Z) (mtime : option Z) : option Z * bool :=
  match mtime with
  | None => (None, false)
  | Some t =>
      if now_ms <? t then (mtime, false)
      else if 60 <=? (now_ms - t) / 1000 then (None, false)
      else (mtime, true)
  end.

(** * is_agent.rs *)

Definition classify (content : string) : bool :=
  let trimmed := trim content in
  negb (str_is_empty trimmed) && bool_decide (trimmed ≠ "human").

(** [read] gives the contents of the sentinel file of a process under a root. *)
Definition detect_from_env (read : string → string → option string)
    (harness_var ppid : option string) : bool :=
  match harness_var, ppid with
  | Some root, Some pid =>
      if str_is_empty root || str_is_empty pid then false
      else match read root pid with Some content => classify content | None => false end
  | _, _ => false
  end.

(** [get_agent_name]. *)
Definition get_agent_name (cached : option string) : string :=
  match cached with
  | Some text =>
      let c := trim text in
      if bool_decide (c ≠ "human") && bool_decide (c ≠ "agent") && negb (str_is_empty c) then c
      else "unknown"
  | None => "unknown"
  end.

(** * find_real.rs *)

Section find_real.
(** The file system: the [.real] cache of a command, whether a path is an executable file, and
    [canonicalize]. *)
Variable real_cache : string → option string.
Variable runnable : string → bool.
Variable canonicalize : string → option string.

Definition canonicalize_or (p : string) : string := default p (canonicalize p).

Definition read_real_cached (cmd : string) : option string :=
  match real_cache cmd with
  | None => None
  | Some text =>
      let p := trim text in
      if str_is_empty p then None else if runnable p then Some p else None
  end.

(** [dir.join(cmd)] for a command without separators; an empty directory is the current one. *)
Definition join_cmd (dir cmd : string) : string :=
  if str_is_empty dir then cmd
  else if bool_decide (last (list_ascii_of_string dir) = Some "/"%char) then dir +:+ cmd
  else dir +:+ "/" +:+ cmd.

Fixpoint scan_path (proxy_real : string) (harness_real : option string) (cmd : string)
    (dirs : list string) : option string :=
  match dirs with
  | [] => None
  | dir :: rest =>
      if bool_decide (canonicalize_or dir = proxy_real) then scan_path proxy_real harness_real cmd rest
      else
        let candidate := join_cmd dir cmd in
        if runnable candidate && bool_decide (harness_real ≠ Some (canonicalize_or candidate))
        then Some candidate
        else scan_path proxy_real harness_real cmd rest
  end.

Definition find_real (proxy_dir : string) (harness_bin : option string) (path_var cmd : string)
  : option string :=
  match read_real_cached cmd with
  | Some p => Some p
  | None =>
      let harness_real :=
        match canonicalize_or <$> harness_bin with
        | Some p => if str_is_empty p then None else Some p
        | None => None
        end in
      scan_path (canonicalize_or proxy_dir) harness_real cmd (split_on ":" path_var)
  end.
End find_real.

(** * The hypervisor as the strategies see it *)

(** [W] is the world of the hypervisor; errors are their texts, results exit codes. *)
Class Lane (W : Type) : Type := {
  lane_now_ms : W → Z;
  lane_sleep : Z → W → W;
  lane_run : HypervisorConfig → list string → SpawnRequest → stm W string Z;
  lane_run_queued : HypervisorConfig → list string → SpawnRequest → string → stm W string Z;
}.

(** The production hypervisor: every collaborator of [Hypervisor::run] fixed. *)
Section hypervisor_lane.
Context {G : Type} `{ThermalGate G} {Watch Agent : Type}.
Variables (to_vec : CachedResult → option (list byte)) (from_slice : list byte → option CachedResult)
          (sha256 fingerprint : string → string) (dir_view : string → string → option (option string)).
Variables (io : CacheIo) (sch : Schedule) (qenv : QueueEnv) (fe : FuseEnv).
Variable proc : list string → string → list (string * string) → ProcOutput * Z.
Variables (capture : HWorld → result Watch string) (agent : HWorld → option Agent) (pid seq : Z).
Variables (gate : G) (show_herror : HError → string).

Definition code_of (m : stm HWorld HError (SpawnOutcome Watch Agent)) : stm HWorld string Z := λ w,
  match m w with
  | (w', Ok o) => (w', Ok (out_code o))
  | (w', Err e) => (w', Err (show_herror e))
  end.

Definition hypervisor_lane : Lane HWorld := {|
  lane_now_ms w := now (h_world w);
  lane_sleep d := on_world (advance d);
  lane_run cfg nocache req := code_of (run to_vec from_slice sha256 fingerprint dir_view io sch qenv
    fe proc capture agent pid seq (with_options cfg gate nocache) req);
  lane_run_queued cfg nocache req lane := code_of (run_queued qenv proc capture agent pid seq
    (with_options cfg gate nocache) req lane);
|}.
End hypervisor_lane.

(** * Strategies *)

Section strategies.
Context {W : Type} `{Lane W} {F : Type}.
(** The current directory, the priority variable, and the length of the pause after a failed
    attempt: the back-off with a random share of the jitter, cut to whole milliseconds. *)
Variable cwd : result string string.
Variable priority_var : option string.
Variable pause : Z → F → nat → Z.

Definition config_from_rule_opts (o : RuleOpts F) : HypervisorConfig :=
  mkConfig (if max_concurrent o =? 0 then 1 else Z.to_nat (max_concurrent o))
    (if ttl o =? 0 then DEFAULT_TTL else ttl o * 1000) (debounce_ms o)
    (cache_key_mode_parse (cache_key o)) (semantic o).

(** The flags of [build_hypervisor]. *)
Definition rule_nocache (o : RuleOpts F) : list string := default DEFAULT_NOCACHE_ARGS (nocache_args o).

Definition spawn_request (real_cmd : string) (args : list string) (o : RuleOpts F)
  : result SpawnRequest string :=
  match cwd with
  | Err e => Err ("harness spawn: cwd: " +:+ e)
  | Ok dir => Ok (request_from_operator priority_var (real_cmd :: args) dir [] (Some (priority o)))
  end.

(** [run_with_hypervisor] and [run_once]: the same in each strategy but for the label. *)
Definition run_once (label real_cmd : string) (args : list string) (o : RuleOpts F) : stm W string Z :=
  req <- st_lift (spawn_request real_cmd args o) ;;
  λ w, match lane_run (config_from_rule_opts o) (rule_nocache o) req w with
       | (w', Ok c) => (w', Ok c)
       | (w', Err e) => (w', Err ("harness " +:+ label +:+ ": hypervisor: " +:+ e))
       end.

Definition queue_run (real_cmd cmd_name : string) (args : list string) (o : RuleOpts F)
  : stm W string Z :=
  req <- st_lift (spawn_request real_cmd args o) ;;
  λ w, match lane_run_queued (config_from_rule_opts o) (rule_nocache o) req cmd_name w with
       | (w', Ok c) => (w', Ok c)
       | (w', Err e) => (w', Err ("harness queue: hypervisor: " +:+ e))
       end.

(** ** retry.rs *)

(** The attempts from [attempt] on; [left] counts the rest of [0..=retry_max]. *)
Fixpoint retry_loop (once : stm W string Z) (max backoff : Z) (jitter : F) (left attempt : nat)
  : stm W string Z := λ w,
  match left with
  | O => (w, Ok 1)
  | S left' =>
      match once w with
      | (w', Ok 0) => (w', Ok 0)
      | (w', r) =>
          if Z.of_nat attempt <? max
          then retry_loop once max backoff jitter left' (S attempt)
                 (lane_sleep (pause backoff jitter attempt) w')
          else (w', r)
      end
  end.

Definition retry_run (real_cmd : string) (args : list string) (o : RuleOpts F) : stm W string Z :=
  retry_loop (run_once "retry" real_cmd args o) (retry_max o) (retry_backoff_ms o) (retry_jitter o)
    (S (Z.to_nat (retry_max o))) 0.

(** ** circuit_breaker.rs *)

(** The process-wide statics, with the world. *)
Record Breaker : Type := mkBreaker { failure_count : Z; window_start_ms : Z; b_world : W }.

Definition fetch_add1 (n : Z) : Z := wrapping_add u32_max n 1.

Definition breaker_run (once : stm W string Z) (threshold window_secs : Z) : stm Breaker string Z := λ b,
  let window_ms := saturating_mul u64_max window_secs 1000 in
  let now := lane_now_ms (b_world b) in
  let b1 := if window_ms <=? saturating_sub now (window_start_ms b)
            then mkBreaker 0 now (b_world b) else b in
  if threshold <=? failure_count b1 then (b1, Err "circuit open")
  else
    match once (b_world b1) with
    | (w', Ok 0) => (mkBreaker 0 (window_start_ms b1) w', Ok 0)
    | (w', Ok code) =>
        (mkBreaker (fetch_add1 (failure_count b1)) (window_start_ms b1) w',
         Err ("command failed: exit " +:+ show_i code))
    | (w', Err e) => (mkBreaker (fetch_add1 (failure_count b1)) (window_start_ms b1) w', Err e)
    end.

(** ** mod.rs *)

Definition in_world (m : stm W string Z) : stm Breaker string Z := λ b,
  let '(w', r) := m (b_world b) in (mkBreaker (failure_count b) (window_start_ms b) w', r).

Definition delegating : list string :=
  ["passthrough"; "incremental"; "resource_throttle"; "jobserver"; "load_balance"; "speculative";
   "proactive_warm"; "batch"; "causal_order"].

Definition execute (strategy real_cmd cmd_name : string) (args : list string) (o : RuleOpts F)
  : stm Breaker string Z :=
  if bool_decide (strategy ∈ delegating) then in_world (run_once "process" real_cmd args o)
  else if bool_decide (strategy ∈ ["queue"; "priority_queue"])
  then in_world (queue_run real_cmd cmd_name args o)
  else if bool_decide (strategy = "debounce") then in_world (run_once "debounce" real_cmd args o)
  else if bool_decide (strategy = "retry") then in_world (retry_run real_cmd args o)
  else if bool_decide (strategy = "circuit_breaker")
  then breaker_run (run_once "circuit_breaker" real_cmd args o) (breaker_threshold o)
         (breaker_window o)
  else in_world (run_once "coalesce" real_cmd args o).

(** * dispatcher.rs *)

(** How [main] ends: it replaces itself by the real command or by the bash harness, or exits. *)
Inductive Action : Type :=
| ExecReal (real : string)
| ExecBash (invoked_as : string)
| Exit (code : Z).

(** What [main] finds: the panic file, the [.real] cache, the result of the search, the
    agent detector ([None] when its binary is missing) and rules.conf. *)
Record Invocation : Type := mkInvocation {
  invoked : string;
  in_args : list string;
  panic : bool;
  cached_real : option string;
  found_real : option string;
  agent : option bool;
  rules : option string;
}.

Variables (parse_f64 : string → option F) (f_default : F).

Definition main (i : Invocation) : Breaker → Breaker * Action := λ b,
  if is_cli_mode (invoked i) then (b, ExecBash "harness")
  else
    let resolved := match cached_real i with Some p => Some p | None => found_real i end in
    match panic i, cached_real i with
    | true, Some real => (b, ExecReal real)
    | _, _ =>
        match resolved with
        | None => (b, ExecBash (invoked i))
        | Some real =>
            match agent i with
            | None => (b, ExecBash (invoked i))
            | Some false => (b, ExecReal real)
            | Some true =>
                let '(strategy, opts_str) :=
                  get_rule (rules i) (invoked i) (first_non_flag_arg (in_args i)) in
                let o := parse_opts parse_f64 f_default opts_str in
                if bool_decide (strategy = "passthrough") then (b, ExecReal real)
                else
                  match execute strategy real (invoked i) (in_args i) o b with
                  | (b', Ok code) => (b', Exit code)
                  | (b', Err _) => (b', ExecBash (invoked i))
                  end
            end
        end
    end.
End strategies.

(** * Rules: the table against the list of lines *)

(** The rules of the file in order, and the last of them for a command and a subcommand. *)
Definition rule_list (text : string) : list (string * string * (string * string)) :=
  omap parse_rule (str_lines text).
Definition last_rule (l : list (string * string * (string * string))) (c s : string)
  : option (string * string) :=
  snd <$> last (filter (λ r, r.1 = (c, s)) l).

(** A command name the key can be split after: the separator is not in it, nor begun at its end. *)
Definition plain_cmd (c : string) : bool := negb (contains "__" (c +:+ "_")).

Lemma plain_cmd_tail a c : plain_cmd (String a c) = true → plain_cmd c = true.
Proof.
  unfold plain_cmd. rewrite str_app_cons, !negb_true_iff.
  change (contains "__" (String a (c +:+ "_"))) with
    (starts_with "__" (String a (c +:+ "_")) || contains "__" (c +:+ "_")).
  rewrite orb_false_iff. tauto.
Qed.

Lemma plain_cmd_no_sep a c s t : plain_cmd (String a c) = true →
  rule_key EmptyString t ≠ rule_key (String a c) s.
Proof.
  unfold rule_key. intros Hp [= <- E]. revert Hp. unfold plain_cmd.
  destruct c as [|b c]; [done|]. cbn in E. by simplify_eq.
Qed.

Lemma rule_key_inj c1 c2 s1 s2 : plain_cmd c1 = true → plain_cmd c2 = true →
  rule_key c1 s1 = rule_key c2 s2 → c1 = c2 ∧ s1 = s2.
Proof.
  revert c2. induction c1 as [|a c1 IH]; intros [|b c2] H1 H2 E.
  - unfold rule_key in E. by simplify_eq/=.
  - by apply plain_cmd_no_sep in E.
  - symmetry in E. by apply plain_cmd_no_sep in E.
  - injection E as -> E.
    destruct (IH c2) as [-> ->]; eauto using plain_cmd_tail.
Qed.

Lemma fold_rules_lookup lines m c s : plain_cmd c = true →
  Forall (λ r, plain_cmd r.1.1 = true) (omap parse_rule lines) →
  foldl add_rule m lines !! rule_key c s =
  match last_rule (omap parse_rule lines) c s with
  | Some v => Some v
  | None => m !! rule_key c s
  end.
Proof.
  intros Hc. revert m. induction lines as [|x lines IH] using rev_ind; intros m; [done|].
  rewrite omap_app, Forall_app, foldl_app. intros [Hl Hx]. unfold last_rule.
  rewrite filter_app, last_app. cbn [foldl]. unfold add_rule at 1. cbn in Hx |- *.
  destruct (parse_rule x) as [[[c' s'] v]|] eqn:Ex; [|by apply IH].
  inversion_clear Hx as [|?? Hc' _]. cbn in Hc'. rewrite filter_cons.
  case_decide as Hd; cbn in Hd |- *.
  - simplify_eq. by rewrite lookup_insert_eq.
  - rewrite lookup_insert_ne; [by apply IH|].
    intros [-> ->]%rule_key_inj; done.
Qed.

(** With command names that do not contain the separator, the rule found for a command is the
    last line of rules.conf for it and its subcommand, else the last wildcard line for it, else
    pass-through, whatever the other lines are. *)
Theorem rule_lookup text cmd subcmd :
  plain_cmd cmd = true →
  Forall (λ r, plain_cmd r.1.1 = true) (rule_list text) →
  get_rule (Some text) cmd subcmd =
  default ("passthrough", EmptyString)
    (match last_rule (rule_list text) cmd (sub_or_star subcmd) with
     | Some v => Some v
     | None => last_rule (rule_list text) cmd STAR
     end).
Proof.
  intros Hc Hl. unfold get_rule. rewrite !fold_rules_lookup by done.
  rewrite lookup_empty. fold (rule_list text).
  destruct (last_rule _ _ (sub_or_star subcmd)) as [[]|]; [done|].
  by destruct (last_rule _ _ STAR).
Qed.

Definition demo_rules : string :=
  "# builds" +:+ String nl ("cargo:build coalesce ttl=60 semantic=1" +:+ String nl
  ("cargo queue max_concurrent=2" +:+ String nl ("git:status passthrough"))).

Lemma rule_lookup_witness :
  get_rule (Some demo_rules) "cargo" "build" = ("coalesce", "ttl=60 semantic=1") ∧
  get_rule (Some demo_rules) "cargo" "test" = ("queue", "max_concurrent=2") ∧
  get_rule (Some demo_rules) "git" "log" = ("passthrough", EmptyString).
Proof.
  rewrite !rule_lookup; [vm_compute; done|..]; first [by vm_compute | by repeat constructor].
Defined.

(** Without the hypothesis the flat key confuses commands: a rule for [git__a] with subcommand [b]
    answers for [git] with subcommand [a__b]. *)
Example rule_key_collision :
  get_rule (Some "git__a:b queue") "git" "a__b" = ("queue", EmptyString) ∧
  last_rule (rule_list "git__a:b queue") "git" "a__b" = None ∧
  last_rule (rule_list "git__a:b queue") "git" STAR = None.
Proof. by vm_compute. Qed.

(** * The search for the real binary *)

Section find_real_spec.
Variables (real_cache : string → option string) (runnable : string → bool)
          (canonicalize : string → option string).

(** A directory of the search path gives the command, and not the harness again. *)
Definition offers (proxy_dir : string) (harness_bin : option string) (cmd dir : string) : Prop :=
  canonicalize_or canonicalize dir ≠ canonicalize_or canonicalize proxy_dir ∧
  runnable (join_cmd dir cmd) = true ∧
  ∀ h, harness_bin = Some h → canonicalize_or canonicalize h ≠ EmptyString →
    canonicalize_or canonicalize (join_cmd dir cmd) ≠ canonicalize_or canonicalize h.

Lemma scan_path_first proxy_dir harness_bin cmd dirs :
  let harness_real := match canonicalize_or canonicalize <$> harness_bin with
                      | Some p => if str_is_empty p then None else Some p
                      | None => None
                      end in
  match scan_path runnable canonicalize (canonicalize_or canonicalize proxy_dir) harness_real cmd dirs with
  | Some p => ∃ pre dir post, dirs = pre ++ dir :: post ∧ p = join_cmd dir cmd ∧
      offers proxy_dir harness_bin cmd dir ∧ Forall (λ d, ¬ offers proxy_dir harness_bin cmd d) pre
  | None => Forall (λ d, ¬ offers proxy_dir harness_bin cmd d) dirs
  end.
Proof.
  intros harness_real.
  assert (Hh : ∀ p, harness_real ≠ Some p ↔ ∀ h, harness_bin = Some h →
    canonicalize_or canonicalize h ≠ EmptyString → p ≠ canonicalize_or canonicalize h).
  { intros p. subst harness_real. destruct harness_bin as [h|]; cbn; [|naive_solver].
    destruct (canonicalize_or canonicalize h) eqn:E; cbn; naive_solver congruence. }
  clearbody harness_real. induction dirs as [|d dirs IH]; [constructor|].
  assert (Hskip : ¬ offers proxy_dir harness_bin cmd d →
    match scan_path runnable canonicalize (canonicalize_or canonicalize proxy_dir) harness_real cmd dirs with
    | Some p => ∃ pre dir post, d :: dirs = pre ++ dir :: post ∧ p = join_cmd dir cmd ∧
        offers proxy_dir harness_bin cmd dir ∧ Forall (λ d, ¬ offers proxy_dir harness_bin cmd d) pre
    | None => Forall (λ d, ¬ offers proxy_dir harness_bin cmd d) (d :: dirs)
    end).
  { intros Hd. destruct (scan_path _ _ _ _ _ dirs); [|by constructor].
    destruct IH as (pre & dir & post & -> & -> & ? & ?).
    exists (d :: pre), dir, post. eauto 10 using Forall_cons_2. }
  unfold offers in *. cbn [scan_path]. case_bool_decide; [apply Hskip; naive_solver|].
  destruct (runnable (join_cmd d cmd)) eqn:Er; cbn; [|apply Hskip; naive_solver congruence].
  case_bool_decide as Hd; [|apply Hskip; rewrite <- Hh in *; naive_solver].
  exists [], d, dirs. rewrite Hh in Hd. naive_solver.
Qed.

(** Without a usable cached path, the search returns the command in the first directory of
    the search path that is not the proxy directory and whose file is executable and is not the
    harness itself, and returns nothing exactly when there is no such directory. *)
Theorem find_real_first proxy_dir harness_bin path_var cmd :
  read_real_cached real_cache runnable cmd = None →
  match find_real real_cache runnable canonicalize proxy_dir harness_bin path_var cmd with
  | Some p => ∃ pre dir post, split_on ":" path_var = pre ++ dir :: post ∧
      p = join_cmd dir cmd ∧ offers proxy_dir harness_bin cmd dir ∧
      Forall (λ d, ¬ offers proxy_dir harness_bin cmd d) pre
  | None => Forall (λ d, ¬ offers proxy_dir harness_bin cmd d) (split_on ":" path_var)
  end.
Proof. intros Hc. unfold find_real. rewrite Hc. apply scan_path_first. Qed.
End find_real_spec.

(** The proxy directory, a link to the harness and the real command, in this order. *)
Lemma find_real_first_witness :
  ∃ pre dir post, split_on ":" "/h/proxy:/link:/usr/bin" = pre ++ dir :: post ∧
    "/usr/bin/git" = join_cmd dir "git" ∧ dir = "/usr/bin".
Proof.
  pose proof (find_real_first (λ _, None) (λ _, true)
    (λ p, if bool_decide (p = "/link/git") then Some "/h/bin/shield" else None)
    "/h/proxy" (Some "/h/bin/shield") "/h/proxy:/link:/usr/bin" "git" eq_refl) as H.
  vm_compute in H. destruct H as (pre & dir & post & E & Hp & Ho & _).
  exists pre, dir, post. repeat split; [exact E|exact Hp|].
  destruct pre as [|? [|? [|? [|]]]]; simplify_eq/=; try done.
Defined.

(** * Retry *)

Section retry_spec.
Context {W : Type} `{Lane W} {F : Type}.
Variables (cwd : result string string) (priority_var : option string) (pause : Z → F → nat → Z).

Definition succeeded (r : result Z string) : bool :=
  match r with Ok 0 => true | _ => false end.

(** The world before attempt [k], when every attempt before it failed. *)
Fixpoint before_attempt (once : stm W string Z) (backoff : Z) (jitter : F) (w : W) (k : nat) : W :=
  match k with
  | O => w
  | S k' => lane_sleep (pause backoff jitter k') (once (before_attempt once backoff jitter w k')).1
  end.

Lemma retry_loop_from once max backoff jitter w0 left attempt w :
  w = before_attempt once backoff jitter w0 attempt →
  left = S (Z.to_nat max - attempt) → (attempt ≤ Z.to_nat max)%nat → 0 ≤ max →
  ∃ k, (attempt ≤ k ≤ Z.to_nat max)%nat ∧
    retry_loop pause once max backoff jitter left attempt w =
      once (before_attempt once backoff jitter w0 k) ∧
    (k = Z.to_nat max ∨ succeeded (once (before_attempt once backoff jitter w0 k)).2 = true) ∧
    ∀ j, (attempt ≤ j < k)%nat →
      succeeded (once (before_attempt once backoff jitter w0 j)).2 = false.
Proof.
  revert attempt w. induction left as [|left IH]; intros attempt w -> Hl Ha Hm; [lia|].
  cbn [retry_loop]. destruct (once (before_attempt once backoff jitter w0 attempt)) as [w' r] eqn:Eo.
  destruct (succeeded r) eqn:Er.
  { exists attempt. rewrite Eo. split_and!; [lia..| |by right|intros; lia].
    by destruct r as [[| |]|]. }
  assert (Hr : (match r with Ok 0 => (w', Ok 0) | _ =>
      if Z.of_nat attempt <? max
      then retry_loop pause once max backoff jitter left (S attempt)
             (lane_sleep (pause backoff jitter attempt) w')
      else (w', r) end) =
    (if Z.of_nat attempt <? max
     then retry_loop pause once max backoff jitter left (S attempt)
            (lane_sleep (pause backoff jitter attempt) w')
     else (w', r))) by by destruct r as [[| |]|].
  rewrite Hr. destruct (Z.ltb_spec (Z.of_nat attempt) max) as [Hlt|Hge].
  - destruct (IH (S attempt) (lane_sleep (pause backoff jitter attempt) w'))
      as (k & ? & ? & ? & Hj); [by cbn; rewrite Eo|lia..|].
    exists k. split_and!; [lia..|done|done|].
    intros j Hjk. destruct (decide (j = attempt)) as [->|]; [by rewrite Eo|apply Hj; lia].
  - exists attempt. rewrite Eo. split_and!; [lia..|done|left; lia|intros; lia].
Qed.

(** A command under the retry strategy is attempted at most [retry_max + 1] times, with the
    pause of the rule between attempts; the result is that of the first attempt that exits with 0,
    or of the last attempt, error or exit code as it came. *)
Theorem retry_outcome real_cmd args (o : RuleOpts F) w :
  0 ≤ retry_max o →
  let once := run_once cwd priority_var "retry" real_cmd args o in
  let world k := before_attempt once (retry_backoff_ms o) (retry_jitter o) w k in
  ∃ k, (k ≤ Z.to_nat (retry_max o))%nat ∧
    retry_run cwd priority_var pause real_cmd args o w = once (world k) ∧
    (k = Z.to_nat (retry_max o) ∨ succeeded (once (world k)).2 = true) ∧
    ∀ j, (j < k)%nat → succeeded (once (world j)).2 = false.
Proof.
  intros Hm once world.
  destruct (retry_loop_from once (retry_max o) (retry_backoff_ms o) (retry_jitter o) w
    (S (Z.to_nat (retry_max o))) 0 w) as (k & ? & ? & ? & Hj); [done|lia..|].
  exists k. split_and!; [lia|done|done|]. intros j ?. apply Hj. lia.
Qed.
End retry_spec.

(** * Circuit breaker *)

Section breaker_spec.
Context {W : Type} `{Lane W}.
Variables (threshold window_secs : Z).

Definition window_ms : Z := saturating_mul u64_max window_secs 1000.
Definition in_window (b : Breaker (W:=W)) : Prop :=
  saturating_sub (lane_now_ms (b_world b)) (window_start_ms b) < window_ms.

(** What happens to the breaker of a process: a command under it, or anything else that changes
    the world, the clock included. *)
Inductive breaker_step : Breaker (W:=W) → Breaker (W:=W) → Prop :=
| Guarded once b : breaker_step b (breaker_run once threshold window_secs b).1
| Elsewhere b w : breaker_step b (mkBreaker (failure_count b) (window_start_ms b) w).

(** [n] commands in a row that fail inside the window. *)
Inductive failing : nat → Breaker (W:=W) → Breaker (W:=W) → Prop :=
| FailingNone b : failing 0 b b
| FailingMore n once w b b' :
    let bw := mkBreaker (failure_count b) (window_start_ms b) w in
    in_window bw → succeeded (once w).2 = false →
    failing n (breaker_run once threshold window_secs bw).1 b' →
    failing (S n) b b'.

Lemma breaker_closed once b : in_window b → failure_count b < threshold →
  breaker_run once threshold window_secs b =
  let '(w', r) := once (b_world b) in
  match r with
  | Ok 0 => (mkBreaker 0 (window_start_ms b) w', Ok 0)
  | Ok code => (mkBreaker (fetch_add1 (failure_count b)) (window_start_ms b) w',
                Err ("command failed: exit " +:+ show_i code))
  | Err e => (mkBreaker (fetch_add1 (failure_count b)) (window_start_ms b) w', Err e)
  end.
Proof.
  unfold in_window, window_ms, breaker_run. intros Hw Hc.
  destruct (Z.leb_spec (saturating_mul u64_max window_secs 1000)
    (saturating_sub (lane_now_ms (b_world b)) (window_start_ms b))) as [|_]; [lia|].
  destruct (Z.leb_spec threshold (failure_count b)) as [|_]; [lia|].
  destruct (once (b_world b)) as [? [[| |]|]]; done.
Qed.

Lemma breaker_open once b : in_window b → threshold ≤ failure_count b →
  breaker_run once threshold window_secs b = (b, Err "circuit open").
Proof.
  unfold in_window, window_ms, breaker_run. intros Hw Hc.
  destruct (Z.leb_spec (saturating_mul u64_max window_secs 1000)
    (saturating_sub (lane_now_ms (b_world b)) (window_start_ms b))) as [|_]; [lia|].
  destruct (Z.leb_spec threshold (failure_count b)) as [_|]; [done|lia].
Qed.

Lemma fetch_add1_small n m : 0 ≤ n < m → m ≤ u32_max → fetch_add1 n = n + 1.
Proof. unfold fetch_add1, wrapping_add, u32_max. intros. rewrite Z.mod_small; lia. Qed.

Lemma breaker_count_step b b' : 0 ≤ threshold ≤ u32_max →
  breaker_step b b' → 0 ≤ failure_count b ≤ threshold → 0 ≤ failure_count b' ≤ threshold.
Proof.
  intros Ht [once c|] Hc; [|done]. unfold breaker_run.
  set (b1 := if _ <=? saturating_sub _ _ then _ else _).
  assert (0 ≤ failure_count b1 ≤ threshold) by (subst b1; case_match; cbn; lia).
  destruct (Z.leb_spec threshold (failure_count b1)); [done|].
  destruct (once (b_world b1)) as [? [[| |]|]]; cbn;
    rewrite ?(fetch_add1_small _ threshold) by lia; lia.
Qed.

(** Whatever a process runs under its breaker and whenever, the failure count stays between 0
    and the threshold, so its 32-bit increment never wraps. *)
Theorem breaker_count_bounded w b : 0 ≤ threshold ≤ u32_max →
  rtc breaker_step (mkBreaker 0 0 w) b → 0 ≤ failure_count b ≤ threshold.
Proof.
  intros Ht Hr. apply (rtc_invariant _ (λ b, 0 ≤ failure_count b ≤ threshold) _ _) in Hr; [done|..].
  - cbn. lia.
  - intros ?? Hs ?. by eapply breaker_count_step.
Qed.

Lemma failing_count n b b' : 0 ≤ threshold ≤ u32_max →
  failing n b b' → 0 ≤ failure_count b → failure_count b + Z.of_nat n ≤ threshold →
  failure_count b' = failure_count b + Z.of_nat n ∧ window_start_ms b' = window_start_ms b.
Proof.
  intros Ht Hf. induction Hf as [|n once w b b' bw Hw Hs Hf IH]; intros H0 Hn; [split; [lia|done]|].
  assert (Hrun : (breaker_run once threshold window_secs bw).1 =
    mkBreaker (failure_count b + 1) (window_start_ms b) (once w).1).
  { rewrite breaker_closed by (done || cbn; lia). cbn.
    destruct (once w) as [w' [[| |]|]]; cbn in *; try done;
      by rewrite (fetch_add1_small _ threshold) by lia. }
  rewrite Hrun in *. cbn in *. destruct IH as [IH1 IH2]; lia || (split; [lia|done]).
Qed.

(** [threshold] failures in a row inside the window, from a count of zero, open the circuit:
    the next command inside the window is refused and nothing is run; once the window has passed
    the next command runs again. *)
Theorem breaker_trips b b' w once : 0 ≤ threshold ≤ u32_max →
  failing (Z.to_nat threshold) b b' → failure_count b = 0 →
  let bw := mkBreaker (failure_count b') (window_start_ms b') w in
  (in_window bw → breaker_run once threshold window_secs bw = (bw, Err "circuit open")) ∧
  (¬ in_window bw → 0 < threshold →
     b_world (breaker_run once threshold window_secs bw).1 = (once w).1).
Proof.
  intros Ht Hf H0 bw. apply failing_count in Hf as [Hc Hs]; [|lia..]. split.
  - intros Hw. apply breaker_open; [done|]. cbn. lia.
  - unfold in_window, window_ms, breaker_run. cbn. intros Hw%Z.nlt_ge Hp.
    rewrite (proj2 (Z.leb_le _ _) Hw). cbn.
    destruct (Z.leb_spec threshold 0) as [|_]; [lia|].
    by destruct (once w) as [? [[| |]|]].
Qed.
End breaker_spec.

(** * The dispatcher *)

Section main_spec.
Context {W : Type} `{Lane W} {F : Type}.
Variables (cwd : result string string) (priority_var : option string) (pause : Z → F → nat → Z).
Variables (parse_f64 : string → option F) (f_default : F).

Definition rule_of (i : Invocation) : string * string :=
  get_rule (rules i) (invoked i) (first_non_flag_arg (in_args i)).
Definition opts_of (i : Invocation) : RuleOpts F := parse_opts parse_f64 f_default (rule_of i).2.
Definition resolved (i : Invocation) : option string :=
  match cached_real i with Some p => Some p | None => found_real i end.

(** An agent's proxied command with a rule other than pass-through, outside panic mode. *)
Definition managed (i : Invocation) : bool :=
  negb (is_cli_mode (invoked i)) && negb (panic i && bool_decide (is_Some (cached_real i))) &&
  bool_decide (is_Some (resolved i)) && bool_decide (agent i = Some true) &&
  bool_decide ((rule_of i).1 ≠ "passthrough").

Lemma execute_breaker real name args (o : RuleOpts F) :
  execute cwd priority_var pause "circuit_breaker" real name args o =
  breaker_run (run_once cwd priority_var "circuit_breaker" real args o) (breaker_threshold o)
    (breaker_window o).
Proof. done. Qed.

Lemma main_managed i b real : managed i = true → resolved i = Some real →
  main cwd priority_var pause parse_f64 f_default i b =
  match execute cwd priority_var pause (rule_of i).1 real (invoked i) (in_args i) (opts_of i) b with
  | (b', Ok code) => (b', Exit code)
  | (b', Err _) => (b', ExecBash (invoked i))
  end.
Proof.
  unfold managed, main, opts_of, rule_of, resolved. intros Hm Hr.
  destruct (is_cli_mode (invoked i)); [done|]. destruct (agent i) as [[]|];
    try by rewrite ?andb_false_r in Hm.
  destruct (get_rule _ _ _) as [st os]. cbn in *.
  destruct (bool_decide (st = "passthrough")) eqn:Es.
  { apply bool_decide_eq_true in Es as ->. by rewrite andb_false_r in Hm. }
  destruct (panic i), (cached_real i); cbn in *; try done; simplify_eq; rewrite ?Hr; done.
Qed.

(** The dispatcher goes through the hypervisor only for an agent's proxied command with a rule
    other than pass-through outside panic mode; in every other case it changes nothing and ends in
    the real command or the bash harness. *)
Theorem unmanaged_is_untouched i b : managed i = false →
  (main cwd priority_var pause parse_f64 f_default i b).1 = b ∧
  match (main cwd priority_var pause parse_f64 f_default i b).2 with
  | ExecReal p => resolved i = Some p
  | ExecBash n => n = invoked i ∨ is_cli_mode (invoked i) = true ∧ n = "harness"
  | Exit _ => False
  end.
Proof.
  unfold managed, main, rule_of, resolved. intros Hm.
  destruct (is_cli_mode (invoked i)); [cbn; auto|]. cbn in Hm.
  destruct (panic i), (cached_real i) as [p|]; cbn in Hm |- *; auto;
    (destruct (found_real i) as [q|]; cbn in Hm |- *; auto);
    (destruct (agent i) as [[]|]; cbn in Hm |- *; auto);
    destruct (get_rule _ _ _) as [st os]; cbn in Hm |- *;
    repeat case_bool_decide; naive_solver.
Qed.

Lemma set_opt_threshold (o : RuleOpts F) part :
  (∀ v, split_once "=" part ≠ Some ("breaker_threshold", v)) →
  breaker_threshold (set_opt parse_f64 f_default o part) = breaker_threshold o.
Proof.
  intros Hn. destruct o. unfold set_opt. destruct (split_once "=" part) as [[k v]|]; [|done].
  repeat (case_bool_decide; [by subst; naive_solver|]). done.
Qed.

(** A rule that does not set the threshold has threshold 0. *)
Lemma default_threshold opts_str :
  Forall (λ part, ∀ v, split_once "=" part ≠ Some ("breaker_threshold", v))
    (split_whitespace opts_str) →
  breaker_threshold (parse_opts parse_f64 f_default opts_str) = 0.
Proof.
  unfold parse_opts. change 0 with (breaker_threshold (opts_initial f_default)).
  generalize (opts_initial f_default). intros o Ho. revert o.
  induction Ho as [|p ps Hp Hps IH]; intros o; [done|]. cbn. by rewrite IH, set_opt_threshold.
Qed.

(** The breaker of a dispatcher process starts from zero and sees one command.  With a
    threshold of 0, the default, the command is never run and goes to the bash harness; with any
    other threshold it is always run, however often it has failed in earlier invocations, and a
    failure is run a second time by the bash harness. *)
Theorem breaker_in_dispatcher i w real : managed i = true → resolved i = Some real →
  (rule_of i).1 = "circuit_breaker" → 0 ≤ breaker_threshold (opts_of i) →
  let once := run_once cwd priority_var "circuit_breaker" real (in_args i) (opts_of i) in
  let '(b, action) := main cwd priority_var pause parse_f64 f_default i (mkBreaker 0 0 w) in
  if breaker_threshold (opts_of i) =? 0
  then b_world b = w ∧ action = ExecBash (invoked i)
  else b_world b = (once w).1 ∧
    action = if succeeded (once w).2 then Exit 0 else ExecBash (invoked i).
Proof.
  intros Hm Hr Hs Ht once. rewrite (main_managed i _ real) by done. rewrite Hs, execute_breaker.
  unfold breaker_run. set (b1 := if _ <=? saturating_sub _ _ then _ else _).
  assert (failure_count b1 = 0 ∧ b_world b1 = w) as [-> ->] by (subst b1; by case_match).
  destruct (Z.eqb_spec (breaker_threshold (opts_of i)) 0) as [->|];
    [cbn; split; [subst b1; by case_match|done]|].
  destruct (Z.leb_spec (breaker_threshold (opts_of i)) 0); [lia|]. fold once.
  by destruct (once w) as [w' [[| |]|]].
Qed.
End main_spec.

(** A scripted lane: the clock, the exit codes to come and the commands run. *)
Module Demo.
Record Script : Type := mkScript { s_now : Z; s_codes : list Z; s_ran : list (list string) }.

Definition script_run (cfg : HypervisorConfig) (nocache : list string) (req : SpawnRequest)
  : stm Script string Z := λ w,
  match s_codes w with
  | c :: cs => (mkScript (s_now w + 5) cs (req_argv req :: s_ran w), Ok c)
  | [] => (w, Err "script over")
  end.

#[export] Instance script_lane : Lane Script := {|
  lane_now_ms := s_now;
  lane_sleep d w := mkScript (s_now w + d) (s_codes w) (s_ran w);
  lane_run := script_run;
  lane_run_queued cfg nocache req _ := script_run cfg nocache req;
|}.

Definition demo_pause (backoff _ : Z) (_ : nat) : Z := backoff.
Definition demo_invocation (rules_text : string) : Invocation :=
  mkInvocation "npm" ["test"] false None (Some "/usr/bin/npm") (Some true) (Some rules_text).
Definition demo_main : Invocation → Breaker (W:=Script) → Breaker (W:=Script) * Action :=
  main (Ok "/w") None demo_pause (λ _, None) 0.
Definition demo_breaker (codes : list Z) : Breaker (W:=Script) :=
  mkBreaker 0 0 (mkScript 1000 codes []).

(** Two failures, then a success. *)
Example retry_demo :
  (demo_main (demo_invocation "npm retry retry_backoff_ms=50") (demo_breaker [1; 2; 0; 7])).2 = Exit 0
  ∧ s_now (b_world (demo_main (demo_invocation "npm retry retry_backoff_ms=50")
             (demo_breaker [1; 2; 0; 7])).1) = 1115.
Proof. by vm_compute. Qed.

Lemma retry_outcome_witness :
  ∃ k, (k ≤ 3)%nat ∧
  retry_run (Ok "/w") None demo_pause "/usr/bin/npm" ["test"] (opts_initial 0)
      (mkScript 0 [1; 2; 0; 7] []) =
    run_once (Ok "/w") None "retry" "/usr/bin/npm" ["test"] (opts_initial 0)
      (before_attempt demo_pause (run_once (Ok "/w") None "retry" "/usr/bin/npm" ["test"] (opts_initial 0))
         100 0 (mkScript 0 [1; 2; 0; 7] []) k).
Proof.
  destruct (retry_outcome (Ok "/w") None demo_pause "/usr/bin/npm" ["test"] (opts_initial 0)
    (mkScript 0 [1; 2; 0; 7] [])) as (k & Hk & E & _); [cbn; lia|].
  exists k. split; [exact Hk|exact E].
Defined.

Lemma breaker_count_bounded_witness :
  0 ≤ failure_count (breaker_run (W:=Script) (λ w, (w, Ok 1)) 2 60 (demo_breaker [])).1 ≤ 2.
Proof.
  apply (breaker_count_bounded 2 60 (mkScript 1000 [] [])).
  - by vm_compute.
  - eapply rtc_l; [apply (Guarded 2 60 (λ w, (w, Ok 1)))|apply rtc_refl].
Defined.

Lemma breaker_trips_witness :
  breaker_run (W:=Script) (λ w, (w, Ok 0)) 1 60 (mkBreaker 1 0 (mkScript 2000 [0] [])) =
    (mkBreaker 1 0 (mkScript 2000 [0] []), Err "circuit open") ∧
  b_world (breaker_run (W:=Script) (λ w, (mkScript 1 [] [], Ok 0)) 1 60
     (mkBreaker 1 0 (mkScript 70000 [0] []))).1 = mkScript 1 [] [].
Proof.
  assert (Hf : failing (W:=Script) 1 60 1 (demo_breaker []) (mkBreaker 1 0 (mkScript 1000 [] []))).
  { eapply (FailingMore 1 60 0 (λ w, (w, Ok 1)) (mkScript 1000 [] []));
      [by vm_compute|done|apply FailingNone]. }
  split.
  - apply (proj1 (breaker_trips 1 60 (demo_breaker []) (mkBreaker 1 0 (mkScript 1000 [] []))
      (mkScript 2000 [0] []) (λ w, (w, Ok 0)) ltac:(by vm_compute) Hf eq_refl)). by vm_compute.
  - apply (proj2 (breaker_trips 1 60 (demo_breaker []) (mkBreaker 1 0 (mkScript 1000 [] []))
      (mkScript 70000 [0] []) (λ w, (mkScript 1 [] [], Ok 0)) ltac:(by vm_compute) Hf eq_refl));
      [by vm_compute|lia].
Defined.

Lemma unmanaged_is_untouched_witness :
  (demo_main (mkInvocation "npm" ["test"] false None (Some "/usr/bin/npm") (Some false)
     (Some "npm retry")) (demo_breaker [1])).1 = demo_breaker [1].
Proof.
  apply (unmanaged_is_untouched (Ok "/w") None demo_pause (λ _, None) 0
    (mkInvocation "npm" ["test"] false None (Some "/usr/bin/npm") (Some false) (Some "npm retry"))).
  by vm_compute.
Defined.

Lemma breaker_in_dispatcher_witness :
  (demo_main (demo_invocation "npm circuit_breaker") (demo_breaker [0])).2 = ExecBash "npm" ∧
  (demo_main (demo_invocation "npm circuit_breaker breaker_threshold=3") (demo_breaker [1])).2 =
    ExecBash "npm" ∧
  s_ran (b_world (demo_main (demo_invocation "npm circuit_breaker breaker_threshold=3")
     (demo_breaker [1])).1) = [["/usr/bin/npm"; "test"]].
Proof.
  pose proof (λ r t, breaker_in_dispatcher (Ok "/w") None demo_pause (λ _, None) 0
    (demo_invocation t) (mkScript 1000 r []) "/usr/bin/npm") as H.
  split; [exact (proj2 (H [0] "npm circuit_breaker" eq_refl eq_refl eq_refl (Z.le_refl 0)))|].
  destruct (H [1] "npm circuit_breaker breaker_threshold=3" eq_refl eq_refl eq_refl) as [Hw Ha];
    [by vm_compute|].
  split; [exact Ha|exact (f_equal s_ran Hw)].
Defined.
End Demo.
