(* ===== verification/CliLimits.v ===== *)
(** Limits of the command line and the HTTP service (src/rate_limiter.rs, src/serve_rate_limit.rs,
    src/backoff.rs, src/bounded_queue.rs, src/debounce.rs, src/watchdog.rs).  Each is a small state
    machine; instants and durations are nanoseconds on one monotone clock. *)
From S2P Require Import Prelude.

Definition SEC : Z := 1000000000.
Definition u128_max : Z := 2 ^ 128 - 1.

(** * rate_limiter.rs *)

Record RateLimiter : Type := mkLimiter {
  max_per_window : nat;
  window : Z;
  hits : list Z;
}.

Definition limiter_new (mx : nat) (w : Z) : RateLimiter := mkLimiter mx w [].

Definition live (w now : Z) (hs : list Z) : list Z := filter (λ t, now - w < t) hs.
#[global] Arguments live : simpl never.

Definition limiter_try_acquire (now : Z) (l : RateLimiter) : RateLimiter * bool :=
  let hs := live (window l) now (hits l) in
  if bool_decide (length hs < max_per_window l)%nat
  then (mkLimiter (max_per_window l) (window l) (hs ++ [now]), true)
  else (mkLimiter (max_per_window l) (window l) hs, false).

Definition available (l : RateLimiter) : nat := max_per_window l - length (hits l).
Definition reset (l : RateLimiter) : RateLimiter := mkLimiter (max_per_window l) (window l) [].

Definition min_hit (hs : list Z) : option Z :=
  match hs with [] => None | t :: ts => Some (foldl Z.min t ts) end.

Definition limiter_retry_after_secs (now : Z) (l : RateLimiter) : Z :=
  if bool_decide (length (hits l) < max_per_window l)%nat then 0
  else match min_hit (live (window l) now (hits l)) with
       | Some t => saturating_sub (window l) (now - t) / SEC
       | None => 0
       end.

(** * serve_rate_limit.rs *)

Definition is_probe_path (path : string) : bool := bool_decide (path ∈ ["/healthz"; "/readyz"]).

(** [usize] is 64 bits. *)
Definition serve_limit_from (env_max env_window : option string) (cfg_max cfg_window : option Z)
  : option RateLimiter :=
  let setting env cfg := match env ≫= parse_uint u64_max with Some n => Some n | None => cfg end in
  match setting env_max cfg_max with
  | None => None
  | Some mx =>
      if mx =? 0 then None
      else Some (limiter_new (Z.to_nat mx) (default 60 (setting env_window cfg_window) * SEC))
  end.

Definition serve_retry_after (now : Z) (l : RateLimiter) : Z := Z.max (limiter_retry_after_secs now l) 1.

(** * backoff.rs *)

Inductive BackoffStrategy : Type := Fixed | Linear | Exponential.

(** [base] and [max] in whole milliseconds, as [as_millis] gives them. *)
Record Backoff : Type := mkBackoff { strategy : BackoffStrategy; base_ms : Z; max_ms : Z }.

Definition saturating_pow2 (n : Z) : Z := Z.min u128_max (2 ^ n).

Definition delay_for (b : Backoff) (attempt : Z) : Z :=
  let raw := match strategy b with
             | Fixed => base_ms b
             | Linear => saturating_mul u128_max (base_ms b) (attempt + 1)
             | Exponential => saturating_mul u128_max (base_ms b) (saturating_pow2 attempt)
             end in
  as_u64 (Z.min raw (max_ms b)).

(** * bounded_queue.rs *)

Section bounded.
Context {T : Type}.

Record BoundedQueue : Type := mkQueue { items : list T; capacity : nat }.

(** [new] panics on a capacity of 0. *)
Definition queue_new (c : nat) : option BoundedQueue :=
  match c with O => None | S _ => Some (mkQueue [] c) end.

Definition push (v : T) (q : BoundedQueue) : BoundedQueue * result unit T :=
  if bool_decide (capacity q ≤ length (items q))%nat then (q, Err v)
  else (mkQueue (items q ++ [v]) (capacity q), Ok tt).

Definition pop (q : BoundedQueue) : BoundedQueue * option T :=
  match items q with
  | [] => (q, None)
  | v :: vs => (mkQueue vs (capacity q), Some v)
  end.

Definition is_full (q : BoundedQueue) : bool := bool_decide (capacity q ≤ length (items q))%nat.
End bounded.
Arguments BoundedQueue T : clear implicits.

(** * debounce.rs *)

Record Debouncer : Type := mkDebouncer { last_call : Z; quiet_period : Z }.

Definition debouncer_new (now quiet : Z) : Debouncer := mkDebouncer (now - 60 * 365 * 100 * SEC) quiet.
Definition touch (now : Z) (d : Debouncer) : Debouncer := mkDebouncer now (quiet_period d).
(** [duration_since] saturates at zero. *)
Definition elapsed (now : Z) (d : Debouncer) : Z := saturating_sub now (last_call d).
Definition should_fire (now : Z) (d : Debouncer) : bool := quiet_period d <=? elapsed now d.
Definition remaining (now : Z) (d : Debouncer) : Z :=
  if quiet_period d <=? elapsed now d then 0 else quiet_period d - elapsed now d.

(** * watchdog.rs *)

Inductive WatchdogState : Type := Running | Stopped | MaxRestartsExceeded.
#[export] Instance watchdog_state_eq_dec : EqDecision WatchdogState.
Proof. solve_decision. Defined.

Definition can_restart (s : WatchdogState) : bool :=
  match s with Running | Stopped => true | MaxRestartsExceeded => false end.

Record WatchdogEntry : Type := mkEntry {
  w_name : string; restart_count : Z; max_restarts : Z; w_state : WatchdogState;
}.

Definition entry_new (name : string) (mx : Z) : WatchdogEntry := mkEntry name 0 mx Running.

Definition entry_on_exit (e : WatchdogEntry) : WatchdogEntry * WatchdogState :=
  if max_restarts e <=? restart_count e
  then (mkEntry (w_name e) (restart_count e) (max_restarts e) MaxRestartsExceeded, MaxRestartsExceeded)
  else (mkEntry (w_name e) (saturating_add u32_max (restart_count e) 1) (max_restarts e) Running, Running).

Definition Watchdog : Type := gmap string WatchdogEntry.

Definition register (name : string) (mx : Z) (w : Watchdog) : Watchdog :=
  <[name := entry_new name mx]> w.

Definition on_exit (name : string) (w : Watchdog) : Watchdog * option WatchdogState :=
  match w !! name with
  | None => (w, None)
  | Some e => let '(e', s) := entry_on_exit e in (<[name := e']> w, Some s)
  end.

(** * The sliding window *)

(** The hits admitted by a sequence of attempts, with the limiter after it. *)
Fixpoint admitted (ts : list Z) (l : RateLimiter) : list Z * RateLimiter :=
  match ts with
  | [] => ([], l)
  | t :: ts' =>
      let '(l', ok) := limiter_try_acquire t l in
      let '(as', l'') := admitted ts' l' in
      (if ok then t :: as' else as', l'')
  end.

Definition in_span (w t : Z) (hs : list Z) : list Z := filter (λ a, t - w < a ∧ a ≤ t) hs.

Lemma live_live w n1 n2 hs : n1 ≤ n2 → live w n2 (live w n1 hs) = live w n2 hs.
Proof.
  intros Hn. unfold live. rewrite list_filter_filter. apply list_filter_iff. intros a. lia.
Qed.

Lemma live_app w n h1 h2 : live w n (h1 ++ h2) = live w n h1 ++ live w n h2.
Proof. apply filter_app. Qed.

(** What the limiter keeps about the hits [pre] admitted so far, up to time [now]. *)
Definition window_ok (l : RateLimiter) (now : Z) (pre : list Z) : Prop :=
  live (window l) now (hits l) = live (window l) now pre ∧
  Forall (λ a, a ≤ now) pre ∧
  ∀ t, (length (in_span (window l) t pre) ≤ max_per_window l)%nat.

Lemma window_ok_step l now pre now' : window_ok l now pre → now ≤ now' →
  let '(l', ok) := limiter_try_acquire now' l in
  window_ok l' now' (if ok then pre ++ [now'] else pre).
Proof.
  intros (Hl & Hle & Hs) Hn. unfold limiter_try_acquire.
  assert (Hl' : live (window l) now' (hits l) = live (window l) now' pre).
  { by rewrite <- (live_live _ now), Hl, live_live. }
  assert (Hle' : Forall (λ a, a ≤ now') pre) by (eapply Forall_impl; [done|]; cbn; lia).
  case_bool_decide as Hlen; (split_and!; cbn; [|try done|]).
  - rewrite Hl', !live_app, live_live; done.
  - rewrite Forall_app, Forall_singleton. auto with lia.
  - intros t. unfold in_span. rewrite filter_app, length_app, filter_cons, filter_nil.
    case_decide as Ht; cbn; [|rewrite Nat.add_0_r; apply Hs].
    rewrite Hl' in Hlen. assert ((length (in_span (window l) t pre) ≤
      length (live (window l) now' pre))%nat); [|unfold in_span in *; lia].
    apply filter_length_le. intros a Ha. lia.
  - by rewrite Hl', live_live.
  - apply Hs.
Qed.

(** Whatever the times of the attempts, no span of one window holds more admitted hits than the
    limit. *)
Theorem limiter_window_bound mx w t0 ts : StronglySorted Z.le (t0 :: ts) →
  ∀ t, (length (in_span w t (admitted (t0 :: ts) (limiter_new mx w)).1) ≤ mx)%nat.
Proof.
  assert (Hgen : ∀ ts l now pre, window_ok l now pre → StronglySorted Z.le (now :: ts) →
    ∀ t, (length (in_span (window l) t (pre ++ (admitted ts l).1)) ≤ max_per_window l)%nat).
  { clear. intros ts. induction ts as [|t' ts IH]; intros l now pre Hok Hs t; cbn.
    { rewrite app_nil_r. apply Hok. }
    inversion_clear Hs as [|?? Hs' Hf]. inversion_clear Hf as [|?? Hn _].
    pose proof (window_ok_step l now pre t' Hok Hn) as Hstep.
    assert (Hc : window (limiter_try_acquire t' l).1 = window l ∧
      max_per_window (limiter_try_acquire t' l).1 = max_per_window l)
      by (unfold limiter_try_acquire; by case_bool_decide).
    destruct (limiter_try_acquire t' l) as [l' ok]. cbn in Hc. destruct Hc as [Hw Hm].
    specialize (IH l' t' _ Hstep Hs' t). rewrite Hw, Hm in IH.
    destruct (admitted ts l') as [as' l'']. destruct ok; cbn in *; [by rewrite <- app_assoc in IH|done]. }
  intros Hs t. apply (Hgen (t0 :: ts) (limiter_new mx w) t0 []).
  - split_and!; [done|constructor|intros; cbn; lia].
  - constructor; [done|]. inversion_clear Hs. constructor; [lia|done].
Qed.

Lemma min_hit_spec hs t : min_hit hs = Some t → t ∈ hs ∧ Forall (λ a, t ≤ a) hs.
Proof.
  destruct hs as [|x hs]; [done|]. cbn. intros [= <-]. revert x.
  induction hs as [|y hs IH]; intros x; cbn.
  - split; [set_solver|by repeat constructor].
  - destruct (IH (Z.min x y)) as [Hin Hall]. inversion_clear Hall as [|?? Hm Hr]. split.
    + apply elem_of_cons in Hin as [->|]; [|set_solver]. destruct (Z.min_spec x y) as [[_ ->]|[_ ->]]; set_solver.
    + repeat constructor; [lia|lia|done].
Qed.

(** A client that is refused and comes back one second after the number of seconds it was told
    to wait is admitted, when nobody else was in between. *)
Theorem retry_after_suffices l now now' :
  (0 < max_per_window l)%nat → (length (hits l) ≤ max_per_window l)%nat → 0 ≤ window l →
  Forall (λ t, t ≤ now) (hits l) →
  now + (limiter_retry_after_secs now l + 1) * SEC ≤ now' →
  (limiter_try_acquire now' l).2 = true.
Proof.
  intros Hm Hlen Hw Hle Hn. unfold limiter_try_acquire. rewrite bool_decide_true; [done|].
  assert (Hsub : (length (live (window l) now' (hits l)) ≤ length (hits l))%nat)
    by apply length_filter.
  unfold limiter_retry_after_secs in Hn. case_bool_decide; [lia|].
  destruct (min_hit (live (window l) now (hits l))) as [t|] eqn:Et.
  - apply min_hit_spec in Et as [[Ht Hin]%list_elem_of_filter _].
    assert (t ≤ now) by by eapply Forall_forall in Hle.
    assert (Hexp : t ≤ now' - window l).
    { pose proof (Z.mul_succ_div_gt (saturating_sub (window l) (now - t)) SEC ltac:(done)).
      unfold saturating_sub in *. lia. }
    apply list_elem_of_split in Hin as (h1 & h2 & Eh).
    rewrite Eh in *. unfold live. rewrite filter_app, filter_cons_False by lia.
    rewrite length_app in *. cbn in *.
    pose proof (length_filter (λ a, now' - window l < a) h1).
    pose proof (length_filter (λ a, now' - window l < a) h2). lia.
  - destruct (live (window l) now (hits l)) eqn:El; [|done].
    assert (now ≤ now') by (unfold SEC in *; lia).
    by rewrite <- (live_live _ now), El.
Qed.

(** The seconds are rounded down, so the client that comes back exactly then may be refused. *)
Example retry_after_rounds_down :
  let l := mkLimiter 1 (2 * SEC) [0] in
  serve_retry_after (SEC / 2) l = 1 ∧ (limiter_try_acquire (SEC / 2 + 1 * SEC) l).2 = false.
Proof. by vm_compute. Qed.

Lemma limiter_window_bound_witness :
  (length (in_span 10 12 (admitted [0; 3; 4; 11; 12]%Z (limiter_new 2 10)).1) ≤ 2)%nat ∧
  (admitted [0; 3; 4; 11; 12] (limiter_new 2 10)).1 = [0; 3; 11].
Proof.
  split; [|done]. apply (limiter_window_bound 2 10 0 [3; 4; 11; 12]).
  repeat constructor; lia.
Defined.

Lemma retry_after_suffices_witness :
  (limiter_try_acquire (5 * SEC) (mkLimiter 1 (3 * SEC) [SEC])).2 = true.
Proof.
  apply (retry_after_suffices (mkLimiter 1 (3 * SEC) [SEC]) (2 * SEC));
    [cbn; lia|cbn; lia|by vm_compute|by repeat constructor|by vm_compute].
Defined.

(** * Back-off against unbounded arithmetic *)

Definition exact_delay (b : Backoff) (attempt : Z) : Z :=
  match strategy b with
  | Fixed => base_ms b
  | Linear => base_ms b * (attempt + 1)
  | Exponential => base_ms b * 2 ^ attempt
  end.

Lemma exact_delay_mono b i j : 0 ≤ base_ms b → 0 ≤ i ≤ j → exact_delay b i ≤ exact_delay b j.
Proof.
  intros Hb Hij. unfold exact_delay. destruct (strategy b); [lia|nia|].
  apply Z.mul_le_mono_nonneg_l; [done|]. apply Z.pow_le_mono_r; lia.
Qed.

(** The saturation at 128 bits is never seen: every [Duration] has fewer milliseconds. *)
Lemma delay_for_exact b attempt : 0 ≤ attempt → 0 ≤ base_ms b → 0 ≤ max_ms b ≤ u128_max →
  delay_for b attempt = as_u64 (Z.min (exact_delay b attempt) (max_ms b)).
Proof.
  intros Ha Hb Hm. pose proof (Z.pow_pos_nonneg 2 attempt ltac:(lia) Ha).
  unfold delay_for, exact_delay, saturating_pow2, saturating_mul, u128_max in *. f_equal.
  destruct (strategy b); [lia|lia|].
  destruct (decide (base_ms b = 0)) as [->|]; [lia|].
  destruct (Z.le_gt_cases (2 ^ attempt) (2 ^ 128 - 1)); nia.
Qed.

(** C21: for every attempt number the delay is that of unbounded arithmetic cut at the maximum and
    then to 64 bits of milliseconds. So when the maximum has at most 64 bits of milliseconds, nothing
    overflows: the delay is the smaller of the exact one and the maximum, and it does not decrease
    from attempt to attempt. *)
Theorem backoff_clamped b i j : 0 ≤ i ≤ j → 0 ≤ base_ms b → 0 ≤ max_ms b ≤ u128_max →
  delay_for b i = Z.min (exact_delay b i) (max_ms b) mod 2 ^ 64 ∧
  (max_ms b ≤ u64_max →
     delay_for b i = Z.min (exact_delay b i) (max_ms b) ∧
     0 ≤ delay_for b i ≤ delay_for b j ∧ delay_for b j ≤ max_ms b).
Proof.
  intros Hij Hb Hm. rewrite !delay_for_exact by lia. split; [done|]. intros Hu.
  pose proof (exact_delay_mono b i j Hb Hij).
  assert (0 ≤ exact_delay b i).
  { unfold exact_delay. destruct (strategy b); [done|nia|].
    pose proof (Z.pow_nonneg 2 i ltac:(lia)). nia. }
  unfold as_u64, u64_max in *. rewrite !Z.mod_small by lia. split; [done|]. lia.
Qed.

Lemma backoff_clamped_witness :
  delay_for (mkBackoff Exponential 100 30000) 4294967295 ≤ 30000 ∧
  delay_for (mkBackoff Linear 100 30000) 3 = 400.
Proof.
  split; [|done].
  apply (backoff_clamped (mkBackoff Exponential 100 30000) 0 4294967295);
    cbn; unfold u128_max, u64_max; lia.
Defined.

(** A maximum beyond 64 bits of milliseconds, which [Duration] can hold, is cut instead. *)
Example backoff_truncates : delay_for (mkBackoff Fixed (2 ^ 64) (2 ^ 64)) 0 = 0.
Proof. by vm_compute. Qed.

(** * The bounded queue against a list *)

Section fifo.
Context {T : Type}.

Inductive QueueOp : Type := Push (v : T) | Pop.

(** The queue after the operations, with what was accepted and what was taken out. *)
Fixpoint queue_run (ops : list QueueOp) (q : BoundedQueue T) : BoundedQueue T * list T * list T :=
  match ops with
  | [] => (q, [], [])
  | Push v :: ops' =>
      let '(q1, r) := push v q in
      let '(q2, ins, outs) := queue_run ops' q1 in
      (q2, if is_ok r then v :: ins else ins, outs)
  | Pop :: ops' =>
      let '(q1, r) := pop q in
      let '(q2, ins, outs) := queue_run ops' q1 in
      (q2, ins, match r with Some v => v :: outs | None => outs end)
  end.

(** The queue never holds more than its capacity; what comes out and what is left are, in
    order, exactly what was accepted; and a push is refused only when the queue is full, the value
    handed back. *)
Theorem bounded_fifo ops c q ins outs :
  queue_run ops (mkQueue [] c) = (q, ins, outs) →
  ins = outs ++ items q ∧ (length (items q) ≤ c)%nat ∧
  ∀ v, (push v q).2 = if is_full q then Err v else Ok tt.
Proof.
  assert (Hgen : ∀ ops q0 q ins outs, queue_run ops q0 = (q, ins, outs) →
    (length (items q0) ≤ capacity q0)%nat →
    items q0 ++ ins = outs ++ items q ∧ (length (items q) ≤ capacity q0)%nat ∧ capacity q = capacity q0).
  { clear. induction ops as [|[v|] ops IH]; intros q0 q ins outs; cbn.
    - intros [= <- <- <-]. by rewrite app_nil_r.
    - unfold push. case_bool_decide as Hfull;
        (destruct (queue_run ops _) as [[q2 ins'] outs'] eqn:E; intros [= <- <- <-] Hc;
         apply IH in E as (Heq & ? & ?)); cbn in *; [done|lia..| |rewrite length_app; cbn; lia].
      rewrite <- app_assoc in Heq. done.
    - unfold pop. destruct (items q0) as [|x xs] eqn:Ei;
        (destruct (queue_run ops _) as [[q2 ins'] outs'] eqn:E; intros [= <- <- <-] Hc;
         apply IH in E as (Heq & ? & ?)); cbn in *; rewrite ?Ei in *; cbn in *; try lia;
        [done|split_and!; [by rewrite Heq|lia|done]]. }
  intros (Heq & Hlen & _)%Hgen; [|cbn; lia]. split_and!; [done|done|].
  intros v. unfold push, is_full. by case_bool_decide.
Qed.
End fifo.
Arguments QueueOp T : clear implicits.

Lemma bounded_fifo_witness :
  let r := queue_run [Push 1; Push 2; Push 3; Pop; Push 4] (mkQueue [] 2) in
  [1; 2; 4] = [1] ++ items r.1.1.
Proof.
  destruct (bounded_fifo [Push 1; Push 2; Push 3; Pop; Push 4] 2 _ _ _ eq_refl) as [E _].
  exact E.
Defined.

(** * The watchdog *)

Inductive WatchOp : Type := WRegister (name : string) (mx : Z) | WExit (name : string).

#[export] Instance watch_op_eq_dec : EqDecision WatchOp.
Proof. solve_decision. Defined.

(** The answers to the exits of [name], in order. *)
Fixpoint answers (name : string) (ops : list WatchOp) (w : Watchdog) : list WatchdogState :=
  match ops with
  | [] => []
  | WRegister n mx :: ops' => answers name ops' (register n mx w)
  | WExit n :: ops' =>
      let '(w', r) := on_exit n w in
      match r with
      | Some s => if bool_decide (n = name) then s :: answers name ops' w' else answers name ops' w'
      | None => answers name ops' w'
      end
  end.

Definition exits_of (name : string) (ops : list WatchOp) : nat :=
  length (filter (λ o, o = WExit name) ops).

Lemma answers_from name ops w e : w !! name = Some e →
  0 ≤ restart_count e ≤ max_restarts e → max_restarts e ≤ u32_max →
  Forall (λ o, ∀ mx, o ≠ WRegister name mx) ops →
  answers name ops w =
    let room := Z.to_nat (max_restarts e - restart_count e) in
    replicate (exits_of name ops `min` room) Running ++
    replicate (exits_of name ops - room) MaxRestartsExceeded.
Proof.
  revert w e. induction ops as [|o ops IH]; intros w e He Hc Hm Hf; [done|].
  inversion_clear Hf as [|?? Ho Hf']. unfold exits_of in *. rewrite filter_cons.
  destruct o as [n mx|n].
  - rewrite decide_False by done. apply (IH _ e); [|done..].
    apply lookup_insert_Some. right. split; [|done]. intros ->. by apply (Ho mx).
  - cbn [answers]. unfold on_exit. destruct (decide (n = name)) as [->|Hn].
    + rewrite decide_True by done. rewrite He, bool_decide_true by done. cbn [length].
      unfold entry_on_exit. destruct (Z.leb_spec (max_restarts e) (restart_count e)).
      * rewrite (IH _ (mkEntry (w_name e) (restart_count e) (max_restarts e) MaxRestartsExceeded))
          by (done || apply lookup_insert_eq).
        cbn. replace (Z.to_nat (max_restarts e - restart_count e)) with 0%nat by lia.
        by rewrite !Nat.min_0_r, !Nat.sub_0_r.
      * unfold saturating_add. rewrite Z.min_r by lia.
        rewrite (IH _ (mkEntry (w_name e) (restart_count e + 1) (max_restarts e) Running))
          by (done || apply lookup_insert_eq || cbn; lia).
        cbn. replace (Z.to_nat (max_restarts e - restart_count e))
          with (S (Z.to_nat (max_restarts e - (restart_count e + 1)))) by lia. done.
    + rewrite decide_False by congruence. destruct (w !! n) as [e'|] eqn:En.
      * destruct (entry_on_exit e') as [e'' s]. rewrite bool_decide_false by done.
        apply (IH _ e); [apply lookup_insert_Some; by right|done..].
      * by apply (IH _ e).
Qed.

(** After a registration with [mx] restarts, whatever happens to other entries, the first [mx]
    exits are answered with a restart and every later one with the refusal. *)
Theorem watchdog_restart_budget name mx ops w : 0 ≤ mx ≤ u32_max →
  Forall (λ o, ∀ m, o ≠ WRegister name m) ops →
  answers name ops (register name mx w) =
    replicate (exits_of name ops `min` Z.to_nat mx) Running ++
    replicate (exits_of name ops - Z.to_nat mx) MaxRestartsExceeded.
Proof.
  intros Hm Hf. rewrite (answers_from name ops _ (entry_new name mx)); [|apply lookup_insert_eq|cbn; lia..|done].
  cbn. by rewrite Z.sub_0_r.
Qed.

Lemma watchdog_restart_budget_witness :
  answers "api" [WExit "api"; WRegister "db" 0; WExit "db"; WExit "api"; WExit "api"]
    (register "api" 2 ∅) = [Running; Running; MaxRestartsExceeded].
Proof.
  rewrite watchdog_restart_budget; [done|unfold u32_max; lia|by repeat constructor].
Defined.

(** The state [Stopped] is never taken. *)
Lemma watchdog_never_stopped name w :
  map_Forall (λ _ e, w_state e ≠ Stopped) w → map_Forall (λ _ e, w_state e ≠ Stopped) (on_exit name w).1 ∧
  ∀ n mx, map_Forall (λ _ e, w_state e ≠ Stopped) (register n mx w).
Proof.
  intros Hw. split.
  - unfold on_exit, entry_on_exit. destruct (w !! name) as [e|]; [|done].
    destruct (_ <=? _); apply map_Forall_insert_2; done.
  - intros n mx. by apply map_Forall_insert_2.
Qed.

(** * The debouncer *)

(** A new debouncer fires at once only up to a quiet period of 2190000 seconds. *)
Lemma debouncer_first_fire now quiet :
  should_fire now (debouncer_new now quiet) = (quiet <=? 2190000 * SEC).
Proof.
  unfold should_fire, debouncer_new, elapsed, saturating_sub. cbn.
  replace (Z.max 0 _) with (2190000 * SEC); [done|]. unfold SEC. lia.
Qed.

(** It fires exactly when nothing remains to wait. *)
Lemma debouncer_fires_iff now d : 0 < quiet_period d → should_fire now d = (remaining now d =? 0).
Proof.
  intros Hq. unfold should_fire, remaining.
  destruct (Z.leb_spec (quiet_period d) (elapsed now d)); [done|].
  symmetry. apply Z.eqb_neq. lia.
Qed.
