(* ===== verification/AgentPolicy.v ===== *)
(** Admission of agent calls (src/agent_call_policy.rs): normalization of recursive greps, the
    refusal of host-level roots, and the call, thermal and build limits. *)
From S2P Require Import Prelude.

(** * The policy *)

Inductive PauseCode : Type := HazardousRoot | ProjectLimit | Thermal | BuildSlot.

(** The deadline in seconds. *)
Record AgentCallDecision : Type := mkDecision {
  command : string;
  pause_code : option PauseCode;
  resume_condition : option string;
  deadline : Z;
}.

Record AgentCallPolicy : Type := mkPolicy {
  project_root : string;
  project_limit : Z;
  admitted_calls : Z;
  thermal_headroom : bool;
  build_slots : Z;
  admitted_builds : Z;
}.

Definition policy_new (root : string) : AgentCallPolicy := mkPolicy root u64_max 0 true u64_max 0.
Definition with_project_limit (n : Z) (p : AgentCallPolicy) : AgentCallPolicy :=
  mkPolicy (project_root p) n (admitted_calls p) (thermal_headroom p) (build_slots p) (admitted_builds p).
Definition with_thermal_headroom (b : bool) (p : AgentCallPolicy) : AgentCallPolicy :=
  mkPolicy (project_root p) (project_limit p) (admitted_calls p) b (build_slots p) (admitted_builds p).
Definition with_build_slots (n : Z) (p : AgentCallPolicy) : AgentCallPolicy :=
  mkPolicy (project_root p) (project_limit p) (admitted_calls p) (thermal_headroom p) n (admitted_builds p).

Definition DEFAULT_DEADLINE : Z := 30.

Definition ROOTS : list string :=
  ["/"; "/Applications"; "/Library"; "/System"; "/Users"; "/bin"; "/dev"; "/etc"; "/opt"; "/private";
   "/proc"; "/sys"; "/tmp"; "/usr"; "/var"; "/Volumes"].
Definition is_hazardous_root (word : string) : bool :=
  existsb (λ r, bool_decide (components word = components r)) ROOTS.
Definition targets_hazardous_root (cmd : string) : bool :=
  existsb is_hazardous_root (split_whitespace cmd).

Definition is_build_command (cmd : string) : bool :=
  match split_whitespace cmd with
  | w :: _ => bool_decide (w ∈ ["cargo"; "make"; "just"])
  | [] => false
  end.

Definition has_r (s : string) : bool := has_char "r" s || has_char "R" s.
Definition has_recursive_flag (words : list string) : bool :=
  existsb (λ w, bool_decide (w = "--recursive") ||
                match w with String "-" rest => has_r rest | _ => false end) words.

Definition RG : string := "rg --hidden --glob '!target' --glob '!node_modules' ".

(** The words of a grep that are not flags: the pattern, then the target. *)
Definition positional (words : list string) : list string :=
  filter (λ w, starts_with "-" w = false) words.

Definition rewrite_grep (root : string) (words : list string) : string :=
  let pos := positional words in
  let pattern := default EmptyString (head pos) in
  let target := match tail pos with
                | [] => root
                | t :: _ => if bool_decide (t = ".") then root else t
                end in
  RG +:+ pattern +:+ " " +:+ target.

Definition normalize (p : AgentCallPolicy) (cmd : string) : string :=
  match split_whitespace cmd with
  | [] => cmd
  | program :: words =>
      if bool_decide (program ∈ ["grep"; "egrep"]) && has_recursive_flag words
      then rewrite_grep (project_root p) words
      else cmd
  end.

Definition paused (cmd : string) (code : PauseCode) (resume : string) : AgentCallDecision :=
  mkDecision cmd (Some code) (Some resume) DEFAULT_DEADLINE.

Definition admit_call (p : AgentCallPolicy) (cmd : string) : AgentCallPolicy * AgentCallDecision :=
  let normalized := normalize p cmd in
  let build := is_build_command normalized in
  if targets_hazardous_root normalized
  then (p, paused normalized HazardousRoot "use a path inside the project root")
  else if negb (thermal_headroom p)
  then (p, paused normalized Thermal "wait for thermal headroom")
  else if project_limit p <=? admitted_calls p
  then (p, paused normalized ProjectLimit "wait for an active project call to finish")
  else if build && (build_slots p <=? admitted_builds p)
  then (p, paused normalized BuildSlot "wait for an available build slot")
  else (mkPolicy (project_root p) (project_limit p) (saturating_add u64_max (admitted_calls p) 1)
          (thermal_headroom p) (build_slots p)
          (if build then saturating_add u64_max (admitted_builds p) 1 else admitted_builds p),
        mkDecision normalized None None DEFAULT_DEADLINE).

(** * Normalization *)

Lemma split_ws_word w s : str_all (λ c, negb (is_ws c)) w = true →
  ∀ acc, split_ws_go (w +:+ String " " s) acc =
    (if str_is_empty (acc +:+ w) then [] else [acc +:+ w]) ++ split_ws_go s EmptyString.
Proof.
  induction w as [|c w IH]; intros Hw acc; [by rewrite str_app_nil_r|].
  cbn -[is_ws] in Hw. apply andb_true_iff in Hw as [Hc%negb_true_iff Hw].
  rewrite str_app_cons. cbn -[is_ws]. rewrite Hc, IH by done. by rewrite str_app_assoc.
Qed.

(** Normalizing twice is normalizing once: a rewritten grep is an [rg], which is left alone. *)
Theorem normalize_idempotent p cmd : normalize p (normalize p cmd) = normalize p cmd.
Proof.
  unfold normalize at 2 3. destruct (split_whitespace cmd) as [|program words] eqn:E.
  - unfold normalize. by rewrite E.
  - destruct (bool_decide _ && _) eqn:Hg; [|unfold normalize; by rewrite E, Hg].
    unfold normalize, rewrite_grep, RG, split_whitespace.
    change ("rg --hidden --glob '!target' --glob '!node_modules' ") with
      ("rg" +:+ String " " "--hidden --glob '!target' --glob '!node_modules' ").
    by rewrite str_app_assoc, (str_app_cons " "), split_ws_word.
Qed.

(** The rewriting keeps the pattern and the first target and nothing else: commands that differ in
    their flags or in further targets become the same search. *)
Lemma rewrite_grep_ignores root w1 w2 :
  take 2 (positional w1) = take 2 (positional w2) → rewrite_grep root w1 = rewrite_grep root w2.
Proof.
  unfold rewrite_grep.
  destruct (positional w1) as [|? [|? ?]], (positional w2) as [|? [|? ?]]; cbn; intros E; by simplify_eq.
Qed.

Example grep_flags_dropped :
  let p := policy_new "/w" in
  normalize p "grep -rv secret src lib" = normalize p "grep -ri secret src".
Proof. by vm_compute. Qed.

(** Any flag with an [r] in it counts as recursive: a filter on standard input becomes a search of
    the project. *)
Example long_flag_is_recursive :
  normalize (policy_new "/w") "grep --color TODO" = RG +:+ "TODO /w".
Proof. by vm_compute. Qed.

(** * Budgets *)

Fixpoint admit_all (p : AgentCallPolicy) (cmds : list string) : AgentCallPolicy * list AgentCallDecision :=
  match cmds with
  | [] => (p, [])
  | c :: cs =>
      let '(p1, d) := admit_call p c in
      let '(p2, ds) := admit_all p1 cs in (p2, d :: ds)
  end.

Definition allowed (d : AgentCallDecision) : bool := bool_decide (pause_code d = None).
Definition count {A} (f : A → bool) (l : list A) : Z := Z.of_nat (length (filter (λ x, f x = true) l)).
Definition build_allowed (d : AgentCallDecision) : bool := allowed d && is_build_command (command d).

(** Counters within their limits, limits within 64 bits. *)
Definition budget_ok (p : AgentCallPolicy) : Prop :=
  0 ≤ admitted_calls p ≤ project_limit p ∧ 0 ≤ admitted_builds p ≤ build_slots p ∧
  project_limit p ≤ u64_max ∧ build_slots p ≤ u64_max.

Lemma count_cons {A} (f : A → bool) x l : count f (x :: l) = (if f x then 1 else 0) + count f l.
Proof.
  unfold count. rewrite filter_cons. destruct (f x); [rewrite decide_True by done|rewrite decide_False by done]; cbn; lia.
Qed.

Lemma admit_step p cmd p' d : budget_ok p → admit_call p cmd = (p', d) →
  budget_ok p' ∧ project_limit p' = project_limit p ∧ build_slots p' = build_slots p ∧
  project_root p' = project_root p ∧ thermal_headroom p' = thermal_headroom p ∧
  admitted_calls p' = admitted_calls p + (if allowed d then 1 else 0) ∧
  admitted_builds p' = admitted_builds p + (if build_allowed d then 1 else 0) ∧
  command d = normalize p cmd ∧ deadline d = DEFAULT_DEADLINE ∧
  (allowed d = true → targets_hazardous_root (command d) = false).
Proof.
  unfold budget_ok, admit_call, build_allowed, allowed. intros (Hc & Hb & Hl & Hs).
  destruct (targets_hazardous_root _) eqn:Eh; [intros [= <- <-]; cbn; split_and!; lia || done|].
  destruct (thermal_headroom p) eqn:Et; cbn [negb]; [|intros [= <- <-]; cbn; split_and!; lia || done].
  destruct (Z.leb_spec (project_limit p) (admitted_calls p)); [intros [= <- <-]; cbn; split_and!; lia || done|].
  destruct (is_build_command _) eqn:Eb; cbn [andb];
    [destruct (Z.leb_spec (build_slots p) (admitted_builds p)); [intros [= <- <-]; cbn; split_and!; lia || done|]|];
    intros [= <- <-]; cbn; rewrite ?Eb; unfold saturating_add; split_and!; lia || done.
Qed.

(** Over any sequence of calls the policy admits at most the project limit, and among them at
    most the build limit of build commands; every admitted command is normalized and names no
    host-level root. *)
Theorem admission_budget p cmds p' ds : budget_ok p → admitted_calls p = 0 → admitted_builds p = 0 →
  admit_all p cmds = (p', ds) →
  count allowed ds ≤ project_limit p ∧ count build_allowed ds ≤ build_slots p ∧
  Forall2 (λ c d, command d = normalize p c ∧
                  (allowed d = true → targets_hazardous_root (command d) = false)) cmds ds.
Proof.
  intros Hok H0 H1 E.
  assert (Hgen : ∀ cmds q p' ds, budget_ok q → project_root q = project_root p →
    admit_all q cmds = (p', ds) →
    admitted_calls q + count allowed ds ≤ project_limit q ∧
    admitted_builds q + count build_allowed ds ≤ build_slots q ∧
    Forall2 (λ c d, command d = normalize p c ∧
                    (allowed d = true → targets_hazardous_root (command d) = false)) cmds ds).
  { clear -p. induction cmds as [|c cmds IH]; intros q p' ds Hq Hr; cbn.
    { intros [= <- <-]. unfold count, budget_ok in *. cbn. split_and!; [lia..|constructor]. }
    destruct (admit_call q c) as [q1 d] eqn:E1. destruct (admit_all q1 cmds) as [q2 ds'] eqn:E2.
    intros [= <- <-]. apply admit_step in E1 as (Hq1 & Hl & Hs & Hr1 & _ & Hc & Hb & Hcmd & _ & Hz); [|done].
    apply IH in E2 as (IH1 & IH2 & IH3); [|done|congruence].
    rewrite !count_cons. split_and!; [lia..|]. constructor; [|done].
    split; [|done]. rewrite Hcmd. unfold normalize. by rewrite Hr. }
  apply Hgen in E as (? & ? & ?); [|done..]. split_and!; [lia..|done].
Qed.

Lemma admission_budget_witness :
  let ds := (admit_all (with_build_slots 1 (with_project_limit 2 (policy_new "/w")))
     ["cargo build"; "make"; "grep -r x ."; "ls"; "cat /etc/"]).2 in
  count allowed ds ≤ 2 ∧
  (pause_code <$> ds) = [None; Some BuildSlot; None; Some ProjectLimit; Some HazardousRoot].
Proof.
  split; [|by vm_compute].
  eapply (admission_budget (with_build_slots 1 (with_project_limit 2 (policy_new "/w")))
    ["cargo build"; "make"; "grep -r x ."; "ls"; "cat /etc/"]); [|done|done|reflexivity].
  unfold budget_ok. cbn. unfold u64_max. lia.
Defined.

(** A policy has no operation that ends a call: once the limit is reached, every further command is
    paused for good. *)
Lemma project_limit_is_final p cmds : project_limit p ≤ admitted_calls p →
  (admit_all p cmds).1 = p ∧ Forall (λ d, allowed d = false) (admit_all p cmds).2.
Proof.
  intros Hl. induction cmds as [|c cmds [IH1 IH2]]; [by repeat constructor|]. cbn.
  assert (Ha : ∃ code text, admit_call p c = (p, paused (normalize p c) code text)).
  { unfold admit_call. destruct (targets_hazardous_root _); [eauto|]. destruct (thermal_headroom p); cbn; [|eauto].
    destruct (Z.leb_spec (project_limit p) (admitted_calls p)); [eauto|lia]. }
  destruct Ha as (code & text & ->). destruct (admit_all p cmds). cbn in *. split; [done|by constructor].
Qed.
