(* ===== verification/ServeHttp.v ===== *)
(** The HTTP service (src/serve_auth.rs, src/error_envelope.rs, src/http_red.rs,
    src/commands/serve/{middleware,run}.rs): how the authentication mode is chosen, bearer and JWT
    checks, the request metrics, and the three middlewares in the order the router applies them
    around the handlers. *)
From S2P Require Import Prelude JsonValue Config CliLimits.

(** * Authentication *)

(** The algorithms of the token library; a JWK can name others. *)
Inductive Algorithm : Type :=
| HS256 | HS384 | HS512 | ES256 | ES384 | RS256 | RS384 | RS512 | PS256 | PS384 | PS512 | EdDSA.
#[export] Instance algorithm_eq_dec : EqDecision Algorithm.
Proof. solve_decision. Defined.
Inductive KeyAlgorithm : Type := KeyAlg (a : Algorithm) | OtherAlg (name : string).

Inductive AlgorithmParameters : Type :=
| RSA (n e : string)
| EllipticCurve (x y : string)
| OtherParams (shown : string).
Record Jwk : Type := mkJwk {
  key_id : option string; key_algorithm : option KeyAlgorithm; parameters : AlgorithmParameters;
}.

(** What a token is checked against; both expiry checks are always on. *)
Record Validation : Type := mkValidation {
  v_alg : Algorithm; v_issuer : string; v_audience : string; v_leeway : Z;
  validate_exp : bool; validate_nbf : bool;
}.

Inductive JwtError : Type :=
| ExpiredSignature | InvalidIssuer | InvalidAudience | ImmatureSignature | InvalidSignature
| OtherJwtError (shown : string).

Definition map_jwt_error (e : JwtError) : string :=
  match e with
  | ExpiredSignature => "jwt_expired"
  | InvalidIssuer => "jwt_invalid_iss"
  | InvalidAudience => "jwt_invalid_aud"
  | ImmatureSignature => "jwt_nbf"
  | InvalidSignature => "jwt_invalid_sig"
  | OtherJwtError s => "jwt_invalid:" +:+ s
  end.

Definition asymmetric (a : Algorithm) : bool :=
  match a with RS256 | RS384 | RS512 | ES256 | ES384 => true | _ => false end.

Section auth.
(** The token library: a key, the two ways to make one, the header of a token (algorithm and key
    id) and its verification, which gives the [sub] claim; the hash; the parser of a key set; the
    file system; and how the library prints an algorithm. *)
Context {Key : Type}.
Variables (from_rsa from_ec : string → string → result Key string).
Variable decode_header : string → result (Algorithm * option string) string.
Variable decode : string → Key → Validation → result (option string) JwtError.
Variable sha256 : string → string.
Variable parse_jwks : string → result (list Jwk) string.
Variable read_file : string → result string string.
Variable show_key_alg : KeyAlgorithm → string.
Variable show_alg : Algorithm → string.

Record JwtValidator : Type := mkValidator {
  issuer : string; audience : string; keys : list (option string * Key * Algorithm);
}.
Inductive AuthMode : Type := Open | Bearer (token : string) | Jwt (v : JwtValidator).

Definition key_alg_to_algorithm (ka : KeyAlgorithm) : result Algorithm string :=
  match ka with
  | KeyAlg RS256 => Ok RS256 | KeyAlg RS384 => Ok RS384 | KeyAlg RS512 => Ok RS512
  | KeyAlg ES256 => Ok ES256 | KeyAlg ES384 => Ok ES384
  | other => Err ("unsupported JWK alg " +:+ show_key_alg other +:+ " (HS*/PS* denied)")
  end.

Definition load_key (jwk : Jwk) : result (option string * Key * Algorithm) string :=
  match (match parameters jwk with
         | RSA n e =>
             match from_rsa n e with
             | Ok k => Ok (k, RS256)
             | Err e => Err ("RSA JWK decode failed: " +:+ e)
             end
         | EllipticCurve x y =>
             match from_ec x y with
             | Ok k => Ok (k, ES256)
             | Err e => Err ("EC JWK decode failed: " +:+ e)
             end
         | OtherParams s => Err ("unsupported JWK algorithm parameters " +:+ s +:+ " (HS* denied)")
         end) with
  | Err e => Err e
  | Ok (key, default_alg) =>
      match (match key_algorithm jwk with Some ka => key_alg_to_algorithm ka | None => Ok default_alg end) with
      | Err e => Err e
      | Ok alg =>
          if negb (asymmetric alg) then Err ("unsupported alg " +:+ show_alg alg)
          else Ok (key_id jwk, key, alg)
      end
  end.

Fixpoint load_keys (ks : list Jwk) : result (list (option string * Key * Algorithm)) string :=
  match ks with
  | [] => Ok []
  | k :: ks' =>
      match load_key k with
      | Err e => Err e
      | Ok x => match load_keys ks' with Err e => Err e | Ok xs => Ok (x :: xs) end
      end
  end.

Definition nonempty (o : option string) : option string :=
  match o with Some s => if str_is_empty s then None else Some s | None => None end.

Definition validator_from_config (cfg : ServeJwtConfig) : result JwtValidator string :=
  match (match nonempty (jc_jwks cfg) with
         | Some inline => Ok inline
         | None =>
             match jc_jwks_path cfg with
             | Some path =>
                 match read_file path with
                 | Ok text => Ok text
                 | Err e => Err ("failed to read JWKS at " +:+ path +:+ ": " +:+ e)
                 end
             | None => Err "serve.jwt requires jwks_path or inline jwks"
             end
         end) with
  | Err e => Err e
  | Ok text =>
      match parse_jwks text with
      | Err e => Err ("invalid JWKS JSON: " +:+ e)
      | Ok [] => Err "JWKS contains no keys"
      | Ok ks =>
          match load_keys ks with
          | Err e => Err e
          | Ok ks' => Ok (mkValidator (jc_issuer cfg) (jc_audience cfg) ks')
          end
      end
  end.

(** The environment: the token, the mode, and the overrides of the JWT settings. *)
Record ServeEnv : Type := mkServeEnv {
  env_token : option string; env_auth_mode : option string;
  env_issuer : option string; env_audience : option string; env_jwks_path : option string;
}.

Definition resolve_jwt_config (env : ServeEnv) (serve : ServeConfig) : result ServeJwtConfig string :=
  match sc_jwt serve with
  | None => Err "auth_mode=jwt requires [serve.jwt] with issuer, audience, and jwks_path or jwks"
  | Some jwt =>
      let iss := default (jc_issuer jwt) (nonempty (env_issuer env)) in
      let aud := default (jc_audience jwt) (nonempty (env_audience env)) in
      let path := match nonempty (env_jwks_path env) with Some p => Some p | None => jc_jwks_path jwt end in
      if str_is_empty iss || str_is_empty aud
      then Err "serve.jwt requires non-empty issuer and audience"
      else if bool_decide (path = None) && bool_decide (nonempty (jc_jwks jwt) = None)
      then Err "serve.jwt requires jwks_path or inline jwks"
      else Ok (mkServeJwtConfig iss aud path (jc_jwks jwt))
  end.

Definition jwt_mode (env : ServeEnv) (serve : ServeConfig) : result AuthMode string :=
  match resolve_jwt_config env serve with
  | Err e => Err e
  | Ok jwt => match validator_from_config jwt with Err e => Err e | Ok v => Ok (Jwt v) end
  end.

Definition from_env_or_config (env : ServeEnv) (serve : ServeConfig) : result AuthMode string :=
  match nonempty (env_token env) with
  | Some token => Ok (Bearer token)
  | None =>
      let hint := to_ascii_lowercase <$>
        (match nonempty (env_auth_mode env) with Some m => Some m | None => sc_auth_mode serve end) in
      let open_or_default :=
        match nonempty (sc_bearer_token serve) with
        | Some token => Ok (Bearer token)
        | None =>
            match sc_jwt serve, hint with
            | Some _, None => jwt_mode env serve
            | _, _ => Ok Open
            end
        end in
      match hint with
      | None => open_or_default
      | Some h =>
          if bool_decide (h = "jwt") then jwt_mode env serve
          else if bool_decide (h = "bearer") then
            match nonempty (sc_bearer_token serve) with
            | Some token => Ok (Bearer token)
            | None => Err "auth_mode=bearer requires serve.bearer_token or SHARECLI_SERVE_TOKEN"
            end
          else if bool_decide (h = "open") then open_or_default
          else Err ("unknown serve.auth_mode `" +:+ h +:+ "` (expected open|bearer|jwt)")
      end
  end.

Definition enabled (m : AuthMode) : bool := match m with Open => false | _ => true end.

Definition candidate (alg : Algorithm) (kid : option string) (k : option string * Key * Algorithm) : bool :=
  bool_decide (alg = k.2) &&
  match kid, k.1.1 with
  | Some h, Some i => bool_decide (h = i)
  | Some _, None => false
  | None, _ => true
  end.

Definition validation_for (v : JwtValidator) (alg : Algorithm) : Validation :=
  mkValidation alg (issuer v) (audience v) 60 true true.

Fixpoint try_keys (v : JwtValidator) (token last_err : string)
    (ks : list (option string * Key * Algorithm)) : result string string :=
  match ks with
  | [] => Err last_err
  | (_, key, alg) :: ks' =>
      match decode token key (validation_for v alg) with
      | Ok sub => Ok (default "unknown" sub)
      | Err e => try_keys v token (map_jwt_error e) ks'
      end
  end.

Definition validate (v : JwtValidator) (token : string) : result string string :=
  match decode_header token with
  | Err e => Err ("jwt_header:" +:+ e)
  | Ok (alg, kid) =>
      match filter (λ k, candidate alg kid k = true) (keys v) with
      | [] => Err "jwt_no_matching_key"
      | cs => try_keys v token "jwt_invalid" cs
      end
  end.

Definition tokens_equal (a b : string) : bool := bool_decide (sha256 a = sha256 b).

Definition bearer_of (raw : string) : option string :=
  match strip_prefix "Bearer " raw with Some r => Some r | None => strip_prefix "bearer " raw end.

Definition check_authorization (m : AuthMode) (header : option string) : result (option string) string :=
  match m with
  | Open => Ok None
  | Bearer token =>
      match header with
      | None => Err "missing_authorization"
      | Some raw =>
          match bearer_of raw with
          | None => Err "not_bearer"
          | Some provided => if tokens_equal (trim provided) token then Ok None else Err "invalid_bearer"
          end
      end
  | Jwt v =>
      match header with
      | None => Err "missing_authorization"
      | Some raw =>
          match bearer_of raw with
          | None => Err "not_bearer"
          | Some provided => match validate v (trim provided) with Ok s => Ok (Some s) | Err e => Err e end
          end
      end
  end.
End auth.
Arguments JwtValidator Key : clear implicits.
Arguments AuthMode Key : clear implicits.
Arguments Open {Key}.
Arguments Bearer {Key} token.
Arguments Jwt {Key} v.

Definition auth_failure_message (reason : string) : string :=
  if bool_decide (reason = "missing_authorization") then "missing or invalid bearer token"
  else if bool_decide (reason = "not_bearer") then "authorization header must use Bearer scheme"
  else if bool_decide (reason = "invalid_bearer") then "invalid bearer token"
  else if bool_decide (reason = "jwt_expired") then "jwt token expired"
  else if bool_decide (reason = "jwt_invalid_iss") then "jwt issuer mismatch"
  else if bool_decide (reason = "jwt_invalid_aud") then "jwt audience mismatch"
  else if bool_decide (reason = "jwt_nbf") then "jwt not yet valid"
  else if bool_decide (reason = "jwt_invalid_sig") then "jwt signature invalid"
  else if bool_decide (reason = "jwt_no_matching_key") then "jwt signing key not found"
  else if starts_with "jwt_header:" reason then "jwt header invalid"
  else if starts_with "jwt_invalid:" reason then "jwt token invalid"
  else if starts_with "jwt_" reason then "jwt token invalid"
  else "missing or invalid bearer token".

(** * Metrics *)

Record HttpRed : Type := mkRed {
  requests_total : Z; errors_total : Z; unauthorized_total : Z; duration_count : Z;
  duration_sum_ms : Z; le_5ms : Z; le_25ms : Z; le_100ms : Z; le_inf : Z;
}.
Definition red_zero : HttpRed := mkRed 0 0 0 0 0 0 0 0 0.

Definition record (status elapsed_ms : Z) (r : HttpRed) : HttpRed :=
  let add n := wrapping_add u64_max n in
  let tick (b : bool) n := if b then add n 1 else n in
  mkRed (add (requests_total r) 1) (tick (500 <=? status) (errors_total r))
    (tick (status =? 401) (unauthorized_total r)) (add (duration_count r) 1)
    (add (duration_sum_ms r) elapsed_ms) (tick (elapsed_ms <=? 5) (le_5ms r))
    (tick (elapsed_ms <=? 25) (le_25ms r)) (tick (elapsed_ms <=? 100) (le_100ms r)) (add (le_inf r) 1).

(** * Requests and middlewares *)

Record HttpRequest : Type := mkHttpRequest {
  rq_path : string; rq_authorization : option string; rq_traceparent : option string;
}.
Record HttpResponse : Type := mkHttpResponse {
  status : Z; body : string; retry_after : option Z; www_authenticate : bool; traceparent : option string;
}.

Inductive AuditEvent : Type :=
| AuthOk (path : string) (sub : option string)
| AuthFail (path reason : string).

(** What the middlewares touch; [clock] in nanoseconds. *)
Record Http : Type := mkHttp {
  red : HttpRed; limiter : option RateLimiter; audit : list AuditEvent;
  injected : Z; extracted : Z; clock : Z;
}.

Definition Service : Type := HttpRequest → Http → Http * HttpResponse.

Definition is_dashboard_asset_path (path : string) : bool := starts_with "/assets/dashboard/ui" path.
Definition is_public_path (path : string) : bool :=
  bool_decide (path ∈ ["/healthz"; "/readyz"]) || is_dashboard_asset_path path.

Section middleware.
Context {Key : Type}.
Variable decode_header : string → result (Algorithm * option string) string.
Variable decode : string → Key → Validation → result (option string) JwtError.
Variable sha256 : string → string.
Variable synthesize_traceparent : Http → string.

Definition http_observability_middleware (next : Service) : Service := λ rq h,
  let start := clock h in
  let h1 := mkHttp (red h) (limiter h) (audit h) (injected h)
    (match rq_traceparent rq with Some _ => wrapping_add u64_max (extracted h) 1 | None => extracted h end)
    (clock h) in
  let '(h2, r) := next rq h1 in
  let h3 := mkHttp (record (status r) ((clock h2 - start) / 1000000) (red h2)) (limiter h2) (audit h2)
    (wrapping_add u64_max (injected h2) 1) (extracted h2) (clock h2) in
  (h3, mkHttpResponse (status r) (body r) (retry_after r) (www_authenticate r)
         (Some (default (synthesize_traceparent h2) (rq_traceparent rq)))).

Definition rate_limited (secs : Z) : HttpResponse :=
  mkHttpResponse 429 "HTTP rate limit exceeded; retry later" (Some secs) false None.

Definition serve_rate_limit_middleware (next : Service) : Service := λ rq h,
  if is_probe_path (rq_path rq) then next rq h
  else match limiter h with
       | None => next rq h
       | Some lim =>
           let '(lim', ok) := limiter_try_acquire (clock h) lim in
           let h1 := mkHttp (red h) (Some lim') (audit h) (injected h) (extracted h) (clock h) in
           if ok then next rq h1 else (h1, rate_limited (serve_retry_after (clock h) lim'))
       end.

(** The event is emitted; that the sink may fail to write it, without notice, is left out. *)
Definition audited (e : AuditEvent) (h : Http) : Http :=
  mkHttp (red h) (limiter h) (audit h ++ [e]) (injected h) (extracted h) (clock h).

Definition unauthorized (reason : string) : HttpResponse :=
  mkHttpResponse 401 (auth_failure_message reason) None true None.

Definition require_bearer (mode : AuthMode Key) (next : Service) : Service := λ rq h,
  if is_public_path (rq_path rq) || negb (enabled mode) then next rq h
  else match check_authorization decode_header decode sha256 mode (rq_authorization rq) with
       | Ok sub => next rq (audited (AuthOk (rq_path rq) sub) h)
       | Err reason => (audited (AuthFail (rq_path rq) reason) h, unauthorized reason)
       end.

(** The router: each [layer] goes around all that was added before it. *)
Definition app (mode : AuthMode Key) (handlers : Service) : Service :=
  require_bearer mode (serve_rate_limit_middleware (http_observability_middleware handlers)).

Fixpoint serve_all (svc : Service) (rqs : list HttpRequest) (h : Http) : Http * list HttpResponse :=
  match rqs with
  | [] => (h, [])
  | rq :: rqs' =>
      let '(h1, r) := svc rq h in
      let '(h2, rs) := serve_all svc rqs' h1 in (h2, r :: rs)
  end.
End middleware.

(** * Choice of the mode *)

Section auth_spec.
Context {Key : Type}.
Variables (from_rsa from_ec : string → string → result Key string).
Variable decode_header : string → result (Algorithm * option string) string.
Variable decode : string → Key → Validation → result (option string) JwtError.
Variable sha256 : string → string.
Variable parse_jwks : string → result (list Jwk) string.
Variable read_file : string → result string string.
Variables (show_key_alg : KeyAlgorithm → string) (show_alg : Algorithm → string).

Abbreviation resolve_mode :=
  (from_env_or_config from_rsa from_ec parse_jwks read_file show_key_alg show_alg).

Lemma jwt_mode_never_open env serve :
  jwt_mode from_rsa from_ec parse_jwks read_file show_key_alg show_alg env serve ≠ Ok Open.
Proof. unfold jwt_mode. destruct (resolve_jwt_config _ _); [|done]. by destruct (validator_from_config _ _ _ _ _ _ _). Qed.

(** A service for which a token is configured, in the environment or the file, is never open;
    nor is one with a JWT section unless the mode is set to open by name. *)
Theorem configured_never_open env serve :
  nonempty (env_token env) ≠ None ∨ nonempty (sc_bearer_token serve) ≠ None ∨
  (sc_jwt serve ≠ None ∧
   to_ascii_lowercase <$> (match nonempty (env_auth_mode env) with Some m => Some m | None => sc_auth_mode serve end)
     ≠ Some "open") →
  resolve_mode env serve ≠ Ok Open.
Proof.
  pose proof (jwt_mode_never_open env serve) as Hj. intros Hc. unfold from_env_or_config.
  destruct (nonempty (env_token env)); [done|].
  destruct (nonempty (sc_bearer_token serve)) as [t|].
  { destruct (to_ascii_lowercase <$> _); [|done]. repeat case_bool_decide; done. }
  destruct Hc as [Hc|[Hc|[Hs Ho]]]; [done|done|].
  destruct (sc_jwt serve); [|done]. destruct (to_ascii_lowercase <$> _) as [hint|]; [|done].
  repeat case_bool_decide; subst; done.
Qed.

Lemma load_keys_asymmetric ks xs :
  load_keys from_rsa from_ec show_key_alg show_alg ks = Ok xs → Forall (λ x, asymmetric x.2 = true) xs.
Proof.
  revert xs. induction ks as [|k ks IH]; intros xs; cbn; [intros [= <-]; constructor|].
  destruct (load_key _ _ _ _ k) as [x|] eqn:Ek; [|done].
  destruct (load_keys _ _ _ _ ks) as [xs'|]; [|done]. intros [= <-]. constructor; [|by apply IH].
  revert Ek. unfold load_key.
  destruct (match parameters k with RSA _ _ => _ | EllipticCurve _ _ => _ | OtherParams _ => _ end) as [[key da]|]; [|done].
  destruct (match key_algorithm k with Some _ => _ | None => _ end) as [alg|]; [|done].
  destruct (asymmetric alg) eqn:Ea; cbn; [|done]. by intros [= <-].
Qed.

Lemma try_keys_ok v token e ks s : try_keys decode v token e ks = Ok s →
  ∃ kid key alg sub, (kid, key, alg) ∈ ks ∧ decode token key (validation_for v alg) = Ok sub ∧
    s = default "unknown" sub.
Proof.
  revert e. induction ks as [|[[kid key] alg] ks IH]; intros e; [done|]. cbn.
  destruct (decode token key _) as [sub|err] eqn:E.
  - intros [= <-]. exists kid, key, alg, sub. split_and!; [set_solver|done|done].
  - intros (kid' & key' & alg' & sub & Hin & ?)%IH. exists kid', key', alg', sub. set_solver.
Qed.

(** A request accepted in JWT mode carries a bearer token that a key of the configured set
    verified, under an asymmetric algorithm that is the key's own, with the configured issuer and
    audience and with expiry and start checked; the key's id is the token's where it names one. *)
Theorem jwt_accept_sound cfg v header s :
  validator_from_config from_rsa from_ec parse_jwks read_file show_key_alg show_alg cfg = Ok v →
  check_authorization decode_header decode sha256 (Jwt v) header = Ok (Some s) →
  ∃ raw provided alg hkid kid key sub,
    header = Some raw ∧ bearer_of raw = Some provided ∧
    decode_header (trim provided) = Ok (alg, hkid) ∧ asymmetric alg = true ∧
    (kid, key, alg) ∈ keys v ∧ (∀ h, hkid = Some h → kid = Some h) ∧
    decode (trim provided) key (mkValidation alg (jc_issuer cfg) (jc_audience cfg) 60 true true) = Ok sub ∧
    s = default "unknown" sub.
Proof.
  intros Hv. assert (Hk : Forall (λ x, asymmetric x.2 = true) (keys v) ∧
    issuer v = jc_issuer cfg ∧ audience v = jc_audience cfg).
  { revert Hv. unfold validator_from_config.
    destruct (match nonempty (jc_jwks cfg) with Some _ => _ | None => _ end) as [text|]; [|done].
    destruct (parse_jwks text) as [[|k ks]|]; [done| |done].
    destruct (load_keys _ _ _ _ (k :: ks)) as [xs|] eqn:E; [|done].
    intros [= <-]. cbn. eauto using load_keys_asymmetric. }
  destruct Hk as (Hall & Hi & Ha). cbn. destruct header as [raw|]; [|done].
  destruct (bearer_of raw) as [provided|] eqn:Eb; [|done]. unfold validate.
  destruct (decode_header (trim provided)) as [[alg hkid]|] eqn:Ed; [|done].
  destruct (filter _ (keys v)) as [|c cs] eqn:Ef; [done|].
  destruct (try_keys decode v (trim provided) "jwt_invalid" (c :: cs)) as [s'|] eqn:Et; [|done].
  intros [= <-]. apply try_keys_ok in Et as (kid & key & alg' & sub & Hin & Hd & ->).
  rewrite <- Ef in Hin. apply list_elem_of_filter in Hin as [Hc Hin].
  unfold candidate in Hc. cbn in Hc. apply andb_true_iff in Hc as [<-%bool_decide_eq_true Hkid].
  exists raw, provided, alg, hkid, kid, key, sub. unfold validation_for in Hd. rewrite Hi, Ha in Hd.
  split_and!; try done.
  - by apply (proj1 (Forall_forall _ _) Hall) in Hin.
  - intros h ->. destruct kid; [|done]. by apply bool_decide_eq_true in Hkid as ->.
Qed.

(** A key without an id is not tried for a token that names one. *)
Lemma keyless_never_matches alg h key : candidate (Key:=Key) alg (Some h) (None, key, alg) = false.
Proof. unfold candidate. by rewrite andb_false_r. Qed.

(** The environment's key-set path is not used while the file has an inline key set. *)
Lemma jwks_path_override_ignored env p jwt :
  nonempty (jc_jwks jwt) ≠ None →
  validator_from_config from_rsa from_ec parse_jwks read_file show_key_alg show_alg
    (mkServeJwtConfig (jc_issuer jwt) (jc_audience jwt) (Some p) (jc_jwks jwt)) =
  validator_from_config from_rsa from_ec parse_jwks read_file show_key_alg show_alg jwt ∧
  (nonempty (env_jwks_path env) = Some p → ∀ serve cfg, sc_jwt serve = Some jwt →
   resolve_jwt_config env serve = Ok cfg → jc_jwks_path cfg = Some p).
Proof.
  intros Hn. split.
  - unfold validator_from_config. cbn. by destruct (nonempty (jc_jwks jwt)).
  - intros Hp serve cfg Hs. unfold resolve_jwt_config. rewrite Hs, Hp.
    repeat case_match; intros; by simplify_eq.
Qed.
End auth_spec.

(** * The pipeline *)

Section pipeline_spec.
Context {Key : Type}.
Variable decode_header : string → result (Algorithm * option string) string.
Variable decode : string → Key → Validation → result (option string) JwtError.
Variable sha256 : string → string.
Variable synthesize_traceparent : Http → string.

Abbreviation serve := (app decode_header decode sha256 synthesize_traceparent).
Abbreviation check := (check_authorization decode_header decode sha256).


Lemma app_refused mode handlers rq h reason :
  is_public_path (rq_path rq) = false → enabled mode = true →
  check mode (rq_authorization rq) = Err reason →
  serve mode handlers rq h = (audited (AuthFail (rq_path rq) reason) h, unauthorized reason).
Proof. intros Hp He Hc. unfold app, require_bearer. by rewrite Hp, He, Hc. Qed.

(** Authentication is the outermost layer: however many requests fail it, each is answered 401
    and none counts against the rate limit or shows in the request metrics. *)
Theorem failed_auth_unlimited mode handlers rqs h : enabled mode = true →
  Forall (λ rq, is_public_path (rq_path rq) = false ∧
                is_ok (check mode (rq_authorization rq)) = false) rqs →
  let '(h', rs) := serve_all (serve mode handlers) rqs h in
  limiter h' = limiter h ∧ red h' = red h ∧ length (audit h') = (length (audit h) + length rqs)%nat ∧
  Forall (λ r, status r = 401) rs.
Proof.
  intros He Hf. revert h. induction Hf as [|rq rqs [Hp Hc] Hf IH]; intros h; cbn.
  { split_and!; [done|done|lia|constructor]. }
  destruct (check mode (rq_authorization rq)) as [|reason] eqn:Ec; [done|].
  rewrite (app_refused _ _ _ _ reason) by done.
  specialize (IH (audited (AuthFail (rq_path rq) reason) h)).
  destruct (serve_all _ rqs _) as [h' rs]. cbn in *. rewrite length_app in IH. cbn in IH.
  destruct IH as (? & ? & ? & ?). split_and!; [done|done|lia|by constructor].
Qed.

(** Handlers that answer no 401 themselves and leave the counter alone. *)
Definition no_401 (handlers : Service) : Prop := ∀ rq h,
  status (handlers rq h).2 ≠ 401 ∧
  unauthorized_total (red (handlers rq h).1) = unauthorized_total (red h).

Lemma observed_no_401 handlers rq h : no_401 handlers →
  unauthorized_total (red (http_observability_middleware synthesize_traceparent handlers rq h).1) =
  unauthorized_total (red h).
Proof.
  intros Hh. unfold http_observability_middleware. cbn.
  match goal with |- context [handlers rq ?h1] => destruct (Hh rq h1) as [Hs Hr]; cbn in Hr;
    destruct (handlers rq h1) as [h2 r] end.
  cbn in *. rewrite Hr. destruct (Z.eqb_spec (status r) 401); [done|done].
Qed.

(** The counter of unauthorized responses never moves: the responses it is meant to count are
    produced outside the middleware that counts. *)
Theorem unauthorized_never_counted mode handlers rqs h : no_401 handlers →
  unauthorized_total (red (serve_all (serve mode handlers) rqs h).1) = unauthorized_total (red h).
Proof.
  intros Hh. revert h. induction rqs as [|rq rqs IH]; intros h; [done|]. cbn.
  assert (Hstep : unauthorized_total (red (serve mode handlers rq h).1) = unauthorized_total (red h)).
  { assert (Hrl : ∀ h0, unauthorized_total (red (serve_rate_limit_middleware
      (http_observability_middleware synthesize_traceparent handlers) rq h0).1) = unauthorized_total (red h0)).
    { intros h0. unfold serve_rate_limit_middleware.
      destruct (is_probe_path _); [by apply observed_no_401|]. destruct (limiter h0) as [lim|]; [|by apply observed_no_401].
      destruct (limiter_try_acquire _ _) as [lim' []]; [|done]. by rewrite observed_no_401. }
    unfold app, require_bearer. destruct (_ || _); [apply Hrl|].
    destruct (check_authorization _ _ _ _ _); [by rewrite Hrl|done]. }
  destruct (serve mode handlers rq h) as [h1 r]. specialize (IH h1).
  destruct (serve_all _ rqs h1). cbn in *. congruence.
Qed.

(** A request that passes authentication is passed on exactly when the path is a probe, the
    limiter is off, or it has room; otherwise it is answered 429 with a positive delay. *)
Theorem throttle_exact mode handlers rq h lim :
  is_public_path (rq_path rq) = false →
  is_ok (check mode (rq_authorization rq)) = true → limiter h = Some lim →
  let '(lim', ok) := limiter_try_acquire (clock h) lim in
  let '(h', r) := serve mode handlers rq h in
  if ok then ∃ h0, limiter h0 = Some lim' ∧ clock h0 = clock h ∧
    (h', r) = http_observability_middleware synthesize_traceparent handlers rq h0
  else limiter h' = Some lim' ∧ status r = 429 ∧ ∃ secs, retry_after r = Some secs ∧ 1 ≤ secs.
Proof.
  intros Hp Hc Hl. destruct (limiter_try_acquire (clock h) lim) as [lim' ok] eqn:El.
  assert (Hrl : ∀ h0, limiter h0 = limiter h → clock h0 = clock h →
    let '(h', r) := serve_rate_limit_middleware
      (http_observability_middleware synthesize_traceparent handlers) rq h0 in
    if ok then ∃ h1, limiter h1 = Some lim' ∧ clock h1 = clock h ∧
      (h', r) = http_observability_middleware synthesize_traceparent handlers rq h1
    else limiter h' = Some lim' ∧ status r = 429 ∧ ∃ secs, retry_after r = Some secs ∧ 1 ≤ secs).
  { intros h0 Hl0 Hc0. unfold serve_rate_limit_middleware.
    replace (is_probe_path (rq_path rq)) with false.
    2:{ symmetry. unfold is_public_path in Hp. by apply orb_false_iff in Hp as [? _]. }
    rewrite Hl0, Hl, Hc0, El. destruct ok.
    - destruct (http_observability_middleware _ _ _ _) as [h' r] eqn:E. eexists. by split_and!; [| |symmetry; exact E].
    - cbn. split_and!; [done|done|]. eexists. split; [done|]. unfold serve_retry_after. lia. }
  unfold app, require_bearer. rewrite Hp. cbn.
  destruct (enabled mode); cbn; [|by apply Hrl].
  destruct (check mode (rq_authorization rq)) as [sub|]; [by apply Hrl|done].
Qed.
End pipeline_spec.

(** * Concrete services *)

Module DemoHttp.
Definition no_header (t : string) : result (Algorithm * option string) string := Ok (RS256, Some "k1").
Definition good_sig (t : string) (key : string) (v : Validation) : result (option string) JwtError :=
  if bool_decide (t = "tok") && bool_decide (key = "n") then Ok (Some "alice") else Err InvalidSignature.
Definition synth (h : Http) : string := "00-trace-span-01".
Definition hello : Service := λ rq h, (h, mkHttpResponse 200 "hello" None false None).
Definition start : Http := mkHttp red_zero (Some (limiter_new 1 (60 * SEC))) [] 0 0 1000.
Definition get_config (auth : option string) : HttpRequest := mkHttpRequest "/config" auth None.
Definition demo_serve : AuthMode string → Service → Service :=
  app no_header good_sig (λ s, s) synth.

Definition demo_jwt : ServeJwtConfig := mkServeJwtConfig "iss" "aud" None (Some "{}").
Definition demo_from (env : ServeEnv) (c : ServeConfig) : result (AuthMode string) string :=
  from_env_or_config (λ n _, Ok n) (λ x _, Ok x)
    (λ _, Ok [mkJwk (Some "k1") None (RSA "n" "e"); mkJwk None (Some (KeyAlg ES256)) (EllipticCurve "x" "y")])
    (λ _, Err "no file") (λ _, "alg") (λ _, "alg") env c.
Definition env0 : ServeEnv := mkServeEnv None None None None None.

Lemma configured_never_open_witness :
  demo_from env0 (mkServeConfig None None (Some demo_jwt) None None) ≠ Ok Open.
Proof. apply (configured_never_open). by right; right. Defined.

Definition demo_validator : JwtValidator string :=
  mkValidator "iss" "aud" [(Some "k1", "n", RS256); (None, "x", ES256)].

Lemma jwt_accept_sound_witness :
  ∃ kid key alg, (kid, key, alg) ∈ keys demo_validator ∧ asymmetric alg = true.
Proof.
  destruct (jwt_accept_sound (λ n _, Ok n) (λ x _, Ok x) no_header good_sig (λ s, s)
    (λ _, Ok [mkJwk (Some "k1") None (RSA "n" "e"); mkJwk None (Some (KeyAlg ES256)) (EllipticCurve "x" "y")])
    (λ _, Err "no file") (λ _, "alg") (λ _, "alg") demo_jwt demo_validator (Some "Bearer tok") "alice")
    as (raw & provided & alg & hkid & kid & key & sub & _ & _ & _ & Ha & Hin & _); [done|done|].
  by exists kid, key, alg.
Defined.


Lemma failed_auth_unlimited_witness :
  let '(h', rs) := serve_all (demo_serve (Bearer "secret") hello)
     [get_config (Some "Bearer a"); get_config (Some "Bearer b"); get_config (Some "Bearer c")] start in
  limiter h' = limiter start ∧ red h' = red start ∧ length (audit h') = 3%nat ∧ Forall (λ r, status r = 401) rs.
Proof.
  apply (failed_auth_unlimited no_header good_sig (λ s, s) synth (Bearer "secret") hello
    [get_config (Some "Bearer a"); get_config (Some "Bearer b"); get_config (Some "Bearer c")] start);
    [done|by repeat constructor].
Defined.

Lemma unauthorized_never_counted_witness :
  unauthorized_total (red (serve_all (demo_serve (Bearer "secret") hello) [get_config None] start).1) = 0.
Proof. apply unauthorized_never_counted. by intros rq h. Defined.

Lemma throttle_exact_witness :
  let '(h', r) := demo_serve (Bearer "secret") hello (get_config (Some "Bearer secret"))
    (mkHttp red_zero (Some (mkLimiter 1 (60 * SEC) [1000])) [] 0 0 2000) in status r = 429.
Proof.
  pose proof (throttle_exact no_header good_sig (λ s, s) synth (Bearer "secret") hello
    (get_config (Some "Bearer secret")) (mkHttp red_zero (Some (mkLimiter 1 (60 * SEC) [1000])) [] 0 0 2000)
    (mkLimiter 1 (60 * SEC) [1000]) eq_refl eq_refl eq_refl) as H.
  vm_compute in H. vm_compute. apply H.
Defined.

(** A configured token with a blank at its end is never matched: the header's token is trimmed, the
    configured one is not. *)
Example blank_token_locks_out :
  check_authorization no_header good_sig (λ s, s) (Bearer "secret ") (Some "Bearer secret ")
    = Err "invalid_bearer".
Proof. by vm_compute. Qed.
End DemoHttp.
