(* ===== verification/Coordination.v ===== *)
(** Coordination through shared JSON files (src/coordination.rs): the command lock store and the
    priority task queue.  Every operation reads the whole file, changes the list and writes it
    back; the operations are modelled on the contents of the file, the two halves separately where
    processes interleave. *)
From S2P Require Import Prelude.

(** * The file *)

Section file.
Context {T : Type} (to_json : list T → string) (from_json : string → option (list T)).

(** A missing file is an empty array; text that does not parse is an error. *)
Definition read_json_array (f : option string) : result (list T) string :=
  match f with
  | None => Ok []
  | Some raw => ok_or "failed to parse" (from_json raw)
  end.
(** The file is written as a whole; a write that fails or tears is left out. *)
Definition write_json_array (l : list T) : option string := Some (to_json l).

(** A file the program wrote, or none yet, that holds [l]. *)
Definition holds (f : option string) (l : list T) : Prop := read_json_array f = Ok l.
End file.

(** * CommandLockStore *)

Inductive LockStatus : Type := Unlocked | Locked.
#[export] Instance lock_status_eq_dec : EqDecision LockStatus.
Proof. solve_decision. Defined.

Record CommandLock : Type := mkLock {
  cmd_hash : string; lk_pid : Z; lk_status : LockStatus;
  output_path : option string; start_time : option Z;
}.

Definition is_locked (l : CommandLock) : bool :=
  negb (lk_pid l =? 0) && bool_decide (lk_status l = Locked).

Definition lock_acquire (now pid : Z) (out : option string) (l : CommandLock) : CommandLock :=
  mkLock (cmd_hash l) pid Locked out (Some now).

(** [acquire] on the list that was read: the list to write and the lock, or the refusal. *)
Fixpoint acquire_in (now : Z) (hash : string) (pid : Z) (out : option string) (ls : list CommandLock)
  : result (list CommandLock * CommandLock) string :=
  match ls with
  | [] => let l := mkLock hash pid Locked out (Some now) in Ok ([l], l)
  | l :: ls' =>
      if bool_decide (cmd_hash l = hash)
      then if is_locked l && negb (lk_pid l =? pid) then Err "already locked"
           else let l' := lock_acquire now pid out l in Ok (l' :: ls', l')
      else match acquire_in now hash pid out ls' with
           | Ok (ls'', a) => Ok (l :: ls'', a)
           | Err e => Err e
           end
  end.

Fixpoint release_in (hash : string) (pid : Z) (ls : list CommandLock) : result (list CommandLock) string :=
  match ls with
  | [] => Err ("No lock found for " +:+ hash)
  | l :: ls' =>
      if bool_decide (cmd_hash l = hash)
      then if negb (lk_pid l =? pid)
           then Err ("Lock held by PID " +:+ show_u (lk_pid l) +:+ ", cannot release")
           else Ok (mkLock (cmd_hash l) 0 Unlocked (output_path l) None :: ls')
      else match release_in hash pid ls' with Ok ls'' => Ok (l :: ls'') | Err e => Err e end
  end.

Definition get_in (hash : string) (ls : list CommandLock) : option CommandLock :=
  find (λ l, bool_decide (cmd_hash l = hash)) ls.

Section lock_store.
Variables (to_json : list CommandLock → string) (from_json : string → option (list CommandLock)).

Definition acquire (now : Z) (hash : string) (pid : Z) (out : option string)
  : stm (option string) string CommandLock := λ f,
  match read_json_array from_json f with
  | Err e => (f, Err e)
  | Ok ls =>
      match acquire_in now hash pid out ls with
      | Err e => (f, Err e)
      | Ok (ls', l) => (write_json_array to_json ls', Ok l)
      end
  end.

Definition release (hash : string) (pid : Z) : stm (option string) string unit := λ f,
  match read_json_array from_json f with
  | Err e => (f, Err e)
  | Ok ls =>
      match release_in hash pid ls with
      | Err e => (f, Err e)
      | Ok ls' => (write_json_array to_json ls', Ok tt)
      end
  end.

Definition lock_get (hash : string) (f : option string) : result (option CommandLock) string :=
  match read_json_array from_json f with Err e => Err e | Ok ls => Ok (get_in hash ls) end.
End lock_store.

(** * PriorityTaskQueue *)

Inductive QueuePriority : Type := Low | Normal_ | High | Critical.
Inductive TaskStatus : Type := Pending | Dequeued.
Record TaskQueueItem : Type := mkItem {
  it_id : string; it_command : string; it_priority : QueuePriority; created_at : Z; it_status : TaskStatus;
}.

Definition priority_rank (p : QueuePriority) : Z :=
  match p with Critical => 0 | High => 1 | Normal_ => 2 | Low => 3 end.
Definition rank_of (i : TaskQueueItem) : Z := priority_rank (it_priority i).
Definition sort_by_priority (l : list TaskQueueItem) : list TaskQueueItem :=
  sort_by (λ a b, rank_of a <=? rank_of b) l.

Section task_queue.
Variables (to_json : list TaskQueueItem → string) (from_json : string → option (list TaskQueueItem)).

Definition enqueue (now_nanos now : Z) (cmd : string) (p : QueuePriority)
  : stm (option string) string TaskQueueItem := λ f,
  match read_json_array from_json f with
  | Err e => (f, Err e)
  | Ok items =>
      let item := mkItem ("task-" +:+ show_u now_nanos) cmd p now Pending in
      (write_json_array to_json (sort_by_priority (items ++ [item])), Ok item)
  end.

Definition dequeue : stm (option string) string (option TaskQueueItem) := λ f,
  match read_json_array from_json f with
  | Err e => (f, Err e)
  | Ok items =>
      match sort_by_priority items with
      | [] => (f, Ok None)
      | i :: rest =>
          (write_json_array to_json rest,
           Ok (Some (mkItem (it_id i) (it_command i) (it_priority i) (created_at i) Dequeued)))
      end
  end.

Definition peek (f : option string) : result (option TaskQueueItem) string :=
  match read_json_array from_json f with Err e => Err e | Ok items => Ok (head (sort_by_priority items)) end.
Definition queue_len (f : option string) : result nat string :=
  match read_json_array from_json f with Err e => Err e | Ok items => Ok (length items) end.
Definition clear : stm (option string) string unit := λ _, (write_json_array to_json [], Ok tt).
End task_queue.

(** * Locks refine a table of holders *)

Definition holder (ls : list CommandLock) (hash : string) : option Z :=
  match get_in hash ls with
  | Some l => if is_locked l then Some (lk_pid l) else None
  | None => None
  end.

(** A lock has an owner exactly when it is locked. *)
Definition lock_ok (l : CommandLock) : Prop := lk_pid l = 0 ↔ lk_status l = Unlocked.

Lemma holder_cons h l ls :
  holder (l :: ls) h =
  if bool_decide (cmd_hash l = h) then if is_locked l then Some (lk_pid l) else None else holder ls h.
Proof. unfold holder, get_in. cbn. by case_bool_decide. Qed.

Lemma owned_is_locked l p : p ≠ 0 → lk_pid l = p → lk_status l = Locked → is_locked l = true.
Proof. intros Hp E1 E2. unfold is_locked. rewrite E1, E2. by destruct (Z.eqb_spec p 0). Qed.

Lemma acquire_in_spec now h p out ls : p ≠ 0 → Forall lock_ok ls →
  match acquire_in now h p out ls with
  | Ok (ls', l) =>
      Forall lock_ok ls' ∧ (holder ls h = None ∨ holder ls h = Some p) ∧
      ∀ h', holder ls' h' = if bool_decide (h' = h) then Some p else holder ls h'
  | Err e => e = "already locked" ∧ ∃ q, holder ls h = Some q ∧ q ≠ p
  end.
Proof.
  intros Hp Hok. induction Hok as [|l ls Hl0 Hok IH]; cbn [acquire_in].
  { split_and!; [by repeat constructor|by left|]. intros h'. rewrite holder_cons.
    rewrite (owned_is_locked _ p) by done. cbn. repeat case_bool_decide; congruence. }
  rewrite (holder_cons h). case_bool_decide as Hh.
  - destruct (is_locked l && negb (lk_pid l =? p)) eqn:El.
    { apply andb_true_iff in El as [-> El]. destruct (Z.eqb_spec (lk_pid l) p); [done|]. eauto. }
    split_and!; [constructor; [by unfold lock_ok|done]| |].
    + destruct (is_locked l); [|by left]. destruct (Z.eqb_spec (lk_pid l) p); [right; congruence|done].
    + intros h'. rewrite !holder_cons, (owned_is_locked (lock_acquire _ _ _ _) p) by done. cbn.
      repeat case_bool_decide; congruence.
  - destruct (acquire_in now h p out ls) as [[ls' a]|e]; [|exact IH].
    destruct IH as (Hok' & Hf & IH). split_and!; [by constructor|exact Hf|].
    intros h'. rewrite !holder_cons, IH. repeat case_bool_decide; congruence.
Qed.

Lemma release_in_spec h p ls : p ≠ 0 → Forall lock_ok ls →
  match release_in h p ls with
  | Ok ls' => Forall lock_ok ls' ∧ holder ls h = Some p ∧
      ∀ h', holder ls' h' = if bool_decide (h' = h) then None else holder ls h'
  | Err e => holder ls h ≠ Some p
  end.
Proof.
  intros Hp Hok. induction Hok as [|l ls Hl Hok IH]; [done|]. cbn [release_in].
  rewrite (holder_cons h). case_bool_decide as Hh.
  - destruct (Z.eqb_spec (lk_pid l) p) as [E|E]; cbn; [|destruct (is_locked l); congruence].
    rewrite (owned_is_locked l p); [|done..|].
    2:{ unfold lock_ok in Hl. destruct (lk_status l); [naive_solver congruence|done]. }
    split_and!; [constructor; done|congruence|].
    intros h'. rewrite !holder_cons. cbn. repeat case_bool_decide; congruence.
  - destruct (release_in h p ls) as [ls'|e]; [|exact IH].
    destruct IH as (Hok' & Hf & IH). split_and!; [by constructor|exact Hf|].
    intros h'. rewrite !holder_cons, IH. repeat case_bool_decide; congruence.
Qed.

(** One operation of a process, on the file and on the table. *)
Inductive LockOp : Type := Acq (now : Z) (hash : string) (pid : Z) (out : option string) | Rel (hash : string) (pid : Z).
Definition op_pid (o : LockOp) : Z := match o with Acq _ _ p _ | Rel _ p => p end.

Definition table_step (o : LockOp) (t : gmap string Z) : gmap string Z * bool :=
  match o with
  | Acq _ h p _ =>
      match t !! h with
      | Some q => if q =? p then (t, true) else (t, false)
      | None => (<[h := p]> t, true)
      end
  | Rel h p => if bool_decide (t !! h = Some p) then (delete h t, true) else (t, false)
  end.

Section lock_refinement.
Variables (to_json : list CommandLock → string) (from_json : string → option (list CommandLock)).
Hypothesis json_roundtrip : ∀ l, from_json (to_json l) = Some l.

Definition file_step (o : LockOp) (f : option string) : option string * bool :=
  match o with
  | Acq now h p out => let '(f', r) := acquire to_json from_json now h p out f in (f', is_ok r)
  | Rel h p => let '(f', r) := release to_json from_json h p f in (f', is_ok r)
  end.

(** The file stands for the table. *)
Definition stands_for (f : option string) (t : gmap string Z) : Prop :=
  ∃ ls, holds from_json f ls ∧ Forall lock_ok ls ∧ ∀ h, holder ls h = t !! h.

Lemma lock_step_simulates o f t : op_pid o ≠ 0 → stands_for f t →
  (file_step o f).2 = (table_step o t).2 ∧ stands_for (file_step o f).1 (table_step o t).1.
Proof.
  intros Hp (ls & Hf & Hok & Ht). unfold holds in Hf. destruct o as [now h p out|h p]; cbn in *.
  - pose proof (acquire_in_spec now h p out ls Hp Hok) as Hs. unfold acquire. rewrite Hf.
    destruct (acquire_in now h p out ls) as [[ls' l]|e].
    + destruct Hs as (Hok' & Hfree & Hnew). rewrite Ht in Hfree. cbn.
      assert (Hst : ∀ t', (∀ h', t' !! h' = if bool_decide (h' = h) then Some p else t !! h') →
        stands_for (write_json_array to_json ls') t').
      { intros t' Ht'. exists ls'. unfold holds, write_json_array. cbn. rewrite json_roundtrip.
        split_and!; [done|done|]. intros h'. by rewrite Hnew, Ht', Ht. }
      destruct Hfree as [E|E]; rewrite E; cbn; rewrite ?Z.eqb_refl; split; try done; apply Hst;
        intros h'; case_bool_decide; subst; by simplify_map_eq.
    + destruct Hs as (_ & q & Hq & Hne). rewrite Ht in Hq. rewrite Hq. cbn.
      destruct (Z.eqb_spec q p); [done|]. split; [done|]. by exists ls.
  - pose proof (release_in_spec h p ls Hp Hok) as Hs. unfold release. rewrite Hf.
    destruct (release_in h p ls) as [ls'|e].
    + destruct Hs as (Hok' & Hh & Hnew). rewrite Ht in Hh. rewrite bool_decide_true by done. cbn.
      split; [done|]. exists ls'. unfold holds, write_json_array. cbn. rewrite json_roundtrip.
      split_and!; [done|done|]. intros h'. rewrite Hnew, Ht.
      case_bool_decide; subst; by simplify_map_eq.
    + rewrite Ht in Hs. rewrite bool_decide_false by done. cbn. split; [done|]. by exists ls.
Qed.

Fixpoint file_steps (os : list LockOp) (f : option string) : list bool :=
  match os with [] => [] | o :: os' => let '(f', r) := file_step o f in r :: file_steps os' f' end.
Fixpoint table_steps (os : list LockOp) (t : gmap string Z) : list bool :=
  match os with [] => [] | o :: os' => let '(t', r) := table_step o t in r :: table_steps os' t' end.

(** C22: as long as operations do not overlap, the lock file behaves as a table from command to
    holding process: each acquisition and release succeeds exactly when it does on the table, so
    a command is never held by two processes. *)
Theorem lock_store_refines_table os : Forall (λ o, op_pid o ≠ 0) os →
  file_steps os None = table_steps os ∅.
Proof.
  intros Hp. assert (H0 : stands_for None ∅) by (by exists []).
  revert H0. generalize (None : option string) (∅ : gmap string Z).
  induction Hp as [|o os Ho Hp IH]; intros f t Hst; [done|]. cbn.
  destruct (lock_step_simulates o f t Ho Hst) as [Hr Hst'].
  destruct (file_step o f) as [f' r], (table_step o t) as [t' r']. cbn in *. subst. f_equal. by apply IH.
Qed.
End lock_refinement.

(** * The race between the two halves of an operation *)

(** Two processes that read the file before either writes both acquire the command, and the file
    keeps only the second. *)
Example interleaved_double_acquire :
  let read := [] : list CommandLock in
  ∃ l1 l2 w1 w2, acquire_in 1 "build" 10 None read = Ok (w1, l1) ∧
    acquire_in 2 "build" 20 None read = Ok (w2, l2) ∧ holder w2 "build" = Some 20.
Proof. by do 4 eexists. Qed.

(** The same for different commands: the lock written first is lost. *)
Example interleaved_lost_lock :
  ∃ l1 l2 w1 w2, acquire_in 1 "build" 10 None [] = Ok (w1, l1) ∧ acquire_in 2 "test" 20 None [] = Ok (w2, l2) ∧
    holder w1 "build" = Some 10 ∧ holder w2 "build" = None.
Proof. by do 4 eexists. Qed.

(** * The queue refines four first-in-first-out lanes *)

Definition lane (r : Z) (l : list TaskQueueItem) : list TaskQueueItem := filter (λ i, rank_of i = r) l.
Definition lanes (l : list TaskQueueItem) : list TaskQueueItem :=
  lane 0 l ++ lane 1 l ++ lane 2 l ++ lane 3 l.

Lemma insert_by_skip r x l1 l2 :
  Forall (λ i, rank_of i < r) l1 → rank_of x = r → Forall (λ i, r ≤ rank_of i) l2 →
  insert_by (λ a b, rank_of a <=? rank_of b) x (l1 ++ l2) = l1 ++ x :: l2.
Proof.
  intros H1 Hx H2. induction H1 as [|y l1 Hy H1 IH]; cbn.
  - destruct H2 as [|y l2 Hy H2]; [done|]. cbn. by rewrite (proj2 (Z.leb_le _ _)) by lia.
  - rewrite (proj2 (Z.leb_gt _ _)) by lia. by rewrite IH.
Qed.

Lemma lane_ranks r l : Forall (λ i, rank_of i = r) (lane r l).
Proof. apply Forall_forall. intros i [? _]%list_elem_of_filter. done. Qed.

Lemma lane_Forall (P : TaskQueueItem → Prop) r l : (∀ i, rank_of i = r → P i) → Forall P (lane r l).
Proof. intros HP. eapply Forall_impl; [apply lane_ranks|done]. Qed.

Lemma lane_cons r x l : lane r (x :: l) = if bool_decide (rank_of x = r) then x :: lane r l else lane r l.
Proof. unfold lane. rewrite filter_cons. by repeat case_decide. Qed.

Lemma sort_is_lanes l : sort_by_priority l = lanes l.
Proof.
  unfold sort_by_priority, sort_by. induction l as [|x l IH]; [done|]. cbn [foldr]. rewrite IH.
  unfold lanes. rewrite !lane_cons.
  assert (Hx : rank_of x = 3 ∨ rank_of x = 2 ∨ rank_of x = 1 ∨ rank_of x = 0)
    by (unfold rank_of; destruct (it_priority x); cbn; auto).
  destruct Hx as [Er|[Er|[Er|Er]]];
    repeat (case_bool_decide; [try (exfalso; lia)|try (exfalso; lia)]).
  - pose proof (insert_by_skip 3 x (lane 0 l ++ lane 1 l ++ lane 2 l) (lane 3 l)) as E.
    rewrite <- !app_assoc in E. apply E; rewrite ?Forall_app; split_and?; first [done|apply lane_Forall; lia].
  - pose proof (insert_by_skip 2 x (lane 0 l ++ lane 1 l) (lane 2 l ++ lane 3 l)) as E.
    rewrite <- !app_assoc in E. apply E; rewrite ?Forall_app; split_and?; first [done|apply lane_Forall; lia].
  - apply (insert_by_skip 1); rewrite ?Forall_app; split_and?; first [done|apply lane_Forall; lia].
  - apply (insert_by_skip 0 x []); rewrite ?Forall_app; split_and?; first [done|apply lane_Forall; lia].
Qed.

Record Lanes : Type := mkLanes { l_critical : list TaskQueueItem; l_high : list TaskQueueItem;
  l_normal : list TaskQueueItem; l_low : list TaskQueueItem }.
Definition flat (L : Lanes) : list TaskQueueItem := l_critical L ++ l_high L ++ l_normal L ++ l_low L.
Definition lanes_wf (L : Lanes) : Prop :=
  Forall (λ i, rank_of i = 0) (l_critical L) ∧ Forall (λ i, rank_of i = 1) (l_high L) ∧
  Forall (λ i, rank_of i = 2) (l_normal L) ∧ Forall (λ i, rank_of i = 3) (l_low L).

Definition lanes_push (i : TaskQueueItem) (L : Lanes) : Lanes :=
  match it_priority i with
  | Critical => mkLanes (l_critical L ++ [i]) (l_high L) (l_normal L) (l_low L)
  | High => mkLanes (l_critical L) (l_high L ++ [i]) (l_normal L) (l_low L)
  | Normal_ => mkLanes (l_critical L) (l_high L) (l_normal L ++ [i]) (l_low L)
  | Low => mkLanes (l_critical L) (l_high L) (l_normal L) (l_low L ++ [i])
  end.
Definition lanes_pop (L : Lanes) : option (TaskQueueItem * Lanes) :=
  match l_critical L, l_high L, l_normal L, l_low L with
  | i :: r, h, n, l => Some (i, mkLanes r h n l)
  | [], i :: r, n, l => Some (i, mkLanes [] r n l)
  | [], [], i :: r, l => Some (i, mkLanes [] [] r l)
  | [], [], [], i :: r => Some (i, mkLanes [] [] [] r)
  | [], [], [], [] => None
  end.

Lemma lane_same r l : Forall (λ i, rank_of i = r) l → lane r l = l.
Proof. intros Hl. induction Hl as [|x l Hx Hl IH]; [done|]. by rewrite lane_cons, bool_decide_true, IH. Qed.
Lemma lane_other k r l : Forall (λ i, rank_of i = k) l → k ≠ r → lane r l = [].
Proof. intros Hl Hk. induction Hl as [|x l Hx Hl IH]; [done|]. rewrite lane_cons, bool_decide_false, IH; [done|lia]. Qed.
Lemma lane_app r l1 l2 : lane r (l1 ++ l2) = lane r l1 ++ lane r l2.
Proof. apply filter_app. Qed.

Ltac lane_simpl := repeat match goal with
  | H : Forall (λ i, rank_of i = ?k) ?l |- context [lane ?r ?l] =>
      first [rewrite (lane_same r l H) | rewrite (lane_other k r l H) by done]
  end.

Lemma lanes_flat L : lanes_wf L → lanes (flat L) = flat L.
Proof.
  intros (Hc & Hh & Hn & Hl). unfold lanes, flat. rewrite !lane_app.
  lane_simpl. by rewrite !app_nil_r.
Qed.

Lemma lanes_push_flat i L : lanes_wf L →
  sort_by_priority (flat L ++ [i]) = flat (lanes_push i L) ∧ lanes_wf (lanes_push i L).
Proof.
  intros (Hc & Hh & Hn & Hl). rewrite sort_is_lanes. unfold lanes, flat, lanes_push.
  rewrite !lane_app. lane_simpl. unfold lane. rewrite !filter_cons, !filter_nil. unfold rank_of.
  destruct (it_priority i) eqn:Ep; cbn; rewrite !app_nil_r; unfold lanes_wf; cbn;
    rewrite ?Forall_app, ?Forall_singleton; unfold rank_of; rewrite ?Ep; split_and!; try done;
    by rewrite <- ?app_assoc.
Qed.

Lemma lanes_pop_flat L : lanes_wf L →
  match lanes_pop L with
  | Some (i, L') => flat L = i :: flat L' ∧ lanes_wf L'
  | None => flat L = []
  end.
Proof.
  intros (Hc & Hh & Hn & Hl). unfold lanes_pop, flat.
  destruct (l_critical L); [destruct (l_high L); [destruct (l_normal L); [destruct (l_low L)|]|]|]; cbn; try done;
    (split; [done|]); unfold lanes_wf; cbn; repeat match goal with H : Forall _ (_ :: _) |- _ => inversion_clear H end;
    split_and!; done.
Qed.

Section queue_refinement.
Variables (to_json : list TaskQueueItem → string) (from_json : string → option (list TaskQueueItem)).
Hypothesis json_roundtrip : ∀ l, from_json (to_json l) = Some l.

Definition file_lanes (f : option string) (L : Lanes) : Prop := holds from_json f (flat L) ∧ lanes_wf L.

(** The queue file is four first-in-first-out lanes: an enqueued task goes to the end of its
    priority's lane, and a dequeue takes the oldest task of the highest non-empty lane, marked as
    dequeued, and leaves the rest; on an empty queue it changes nothing. *)
Theorem queue_refines_lanes f L : file_lanes f L →
  (∀ nanos now cmd p, ∃ item, (enqueue to_json from_json nanos now cmd p f).2 = Ok item ∧
     it_command item = cmd ∧ it_priority item = p ∧
     file_lanes (enqueue to_json from_json nanos now cmd p f).1 (lanes_push item L)) ∧
  match lanes_pop L with
  | Some (i, L') =>
      (dequeue to_json from_json f).2 =
        Ok (Some (mkItem (it_id i) (it_command i) (it_priority i) (created_at i) Dequeued)) ∧
      file_lanes (dequeue to_json from_json f).1 L' ∧ peek from_json f = Ok (Some i)
  | None => dequeue to_json from_json f = (f, Ok None) ∧ peek from_json f = Ok None
  end.
Proof.
  intros [Hf HL]. unfold holds in Hf. split.
  - intros nanos now cmd p. unfold enqueue. rewrite Hf. cbn. eexists. split; [done|]. split_and!; [done|done|].
    destruct (lanes_push_flat (mkItem ("task-" +:+ show_u nanos) cmd p now Pending) L HL) as [Hs Hw].
    split; [|done]. unfold holds, write_json_array. cbn. by rewrite Hs, json_roundtrip.
  - unfold dequeue, peek. rewrite Hf, sort_is_lanes, lanes_flat by done.
    pose proof (lanes_pop_flat L HL) as Hp. destruct (lanes_pop L) as [[i L']|]; [|by rewrite Hp].
    destruct Hp as [-> Hw]. cbn. split_and!; [done| |done]. split; [|done].
    unfold holds, write_json_array. cbn. by rewrite json_roundtrip.
Qed.
End queue_refinement.


(** * Concrete files *)

#[export] Instance command_lock_eq_dec : EqDecision CommandLock.
Proof. solve_decision. Defined.
#[export] Instance command_lock_countable : Countable CommandLock.
Proof.
  refine (inj_countable' (λ l, (cmd_hash l, lk_pid l, bool_decide (lk_status l = Locked), output_path l, start_time l))
    (λ '(h, p, s, o, t), mkLock h p (if s : bool then Locked else Unlocked) o t) _).
  by intros [? ? []].
Defined.
#[export] Instance queue_priority_eq_dec : EqDecision QueuePriority.
Proof. solve_decision. Defined.
#[export] Instance task_status_eq_dec : EqDecision TaskStatus.
Proof. solve_decision. Defined.
#[export] Instance task_item_eq_dec : EqDecision TaskQueueItem.
Proof. solve_decision. Defined.
#[export] Instance task_item_countable : Countable TaskQueueItem.
Proof.
  refine (inj_countable' (λ i, (it_id i, it_command i, rank_of i, created_at i, bool_decide (it_status i = Pending)))
    (λ '(i, c, r, t, s), mkItem i c
       (if r =? 0 then Critical else if r =? 1 then High else if r =? 2 then Normal_ else Low) t
       (if s : bool then Pending else Dequeued)) _).
  by intros [? ? [] ? []].
Defined.

Lemma lock_store_refines_table_witness :
  file_steps countable_text text_countable
    [Acq 1 "build" 10 None; Acq 2 "build" 20 None; Rel "build" 20; Rel "build" 10; Acq 3 "build" 20 None] None
  = [true; false; false; true; true].
Proof.
  rewrite lock_store_refines_table; [done|apply countable_text_roundtrip|by repeat constructor].
Defined.

Lemma queue_refines_lanes_witness :
  let q := (enqueue countable_text text_countable 2 2 "urgent" Critical
             (enqueue countable_text text_countable 1 1 "later" Low None).1).1 in
  ∃ item, peek text_countable q = Ok (Some item) ∧ it_command item = "urgent".
Proof.
  pose proof (queue_refines_lanes countable_text text_countable countable_text_roundtrip) as H.
  destruct (H None (mkLanes [] [] [] [])) as [He _]; [split; [done|by repeat constructor]|].
  destruct (He 1 1 "later" Low) as (i1 & _ & _ & Hp1 & H1).
  destruct (H _ _ H1) as [He' _]. destruct (He' 2 2 "urgent" Critical) as (i2 & _ & Hc2 & Hp2 & H2).
  destruct (H _ _ H2) as [_ Hd]. unfold lanes_push in Hd. rewrite Hp1, Hp2 in Hd.
  exists i2. split; [apply Hd|exact Hc2].
Defined.
