(* ===== verification/Detect.v ===== *)
(** Detection of agents and system tools from process names and command lines
    (sharecli-fleet/src/detect.rs): the compiled-in families and fingerprints, the patterns loaded
    at run time, and how the two combine. *)
From S2P Require Import Prelude.

Definition KNOWN_AGENT_FAMILIES : list string :=
  ["claude"; "codex"; "gemini"; "cursor-agent"; "aider"; "amp"; "goose"; "forge"; "jcode"; "opencode"].
Definition AMBIGUOUS_FAMILIES : list string := ["forge"; "goose"; "gemini"; "cargo"].
Definition CMDLINE_FINGERPRINTS : list (string * list string) :=
  [("claude", ["claude"; "claude-code"; ".claude"]);
   ("codex", ["openai-codex"; "@openai/codex"; "codex-cli"; "/bin/codex"]);
   ("gemini", ["gemini"; "gemini-cli"; "google-gemini"]);
   ("cursor-agent", ["cursor-agent"; ".cursor"; "cursor agent"; "@cursor/agent"]);
   ("aider", ["aider"; "aider-chat"; ".aider"]);
   ("amp", ["amp"; "amp-code"; "sourcegraph/amp"; "@sourcegraph/amp"; ".amp"]);
   ("goose", ["goose"; "block-goose"; "goose-agent"]);
   ("forge", ["forge"; ".forge"; "forge conversation"]);
   ("jcode", ["jcode"; ".jcode"; "jcode-cli"]);
   ("opencode", ["opencode"; ".opencode"; "opencode-cli"])].

(** [RuntimePattern] and [RuntimeSystemTool], which differ in the name of the first field. *)
Record RuntimePattern : Type := mkPattern {
  family : string; comm_names : list string; cmdline_markers : list string; ambiguous : bool;
}.

(** The thread-local state. *)
Record Patterns : Type := mkPatterns {
  runtime_patterns : list RuntimePattern; system_tool_patterns : list RuntimePattern; loaded : bool;
}.
Definition patterns_initial : Patterns := mkPatterns [] [] false.

Section load.
(** The file, and its TOML: the agents and the system tools. *)
Variable read_file : string → option string.
Variable parse_toml : string → option (list RuntimePattern * list RuntimePattern).

(** The [return] on an earlier load leaves the closure that tests the flag, not the function, so
    every call goes on to read the file. *)
Definition load_runtime_patterns (path : string) (p : Patterns) : Patterns :=
  match read_file path ≫= parse_toml with
  | Some (agents, tools) => mkPatterns agents tools true
  | None => mkPatterns (runtime_patterns p) (system_tool_patterns p) true
  end.

Definition clear_runtime_patterns (p : Patterns) : Patterns := patterns_initial.
End load.

(** * Matching *)

Definition cmdline_has_marker (cmdline markers : list string) : bool :=
  existsb (λ arg, existsb (λ m, contains m (to_ascii_lowercase arg)) markers) cmdline.

Definition cmdline_has_fingerprint (fam : string) (cmdline : list string) : bool :=
  match find (λ e, bool_decide (e.1 = fam)) CMDLINE_FINGERPRINTS with
  | None => false
  | Some (_, markers) => cmdline_has_marker cmdline markers
  end.

Definition match_compiled (token : string) : option string :=
  let tk x := bool_decide (token = x) in
  if tk "claude" || starts_with "claude-" token || contains "claude-code" token then Some "claude"
  else if tk "codex" || tk "openai-codex" then Some "codex"
  else if tk "gemini" || starts_with "gemini-" token then Some "gemini"
  else if tk "cursor-agent" || tk "cursor-agent.exe" then Some "cursor-agent"
  else if tk "aider" then Some "aider"
  else if tk "amp" || tk "amp-cli" then Some "amp"
  else if tk "goose" || starts_with "goose-" token then Some "goose"
  else if tk "forge" || starts_with "forge-" token then Some "forge"
  else if tk "jcode" || starts_with "jcode-" token || tk ".jcode" then Some "jcode"
  else if tk "opencode" || starts_with "opencode-" token || tk ".opencode" then Some "opencode"
  else None.

Section matching.
Variable rt : list RuntimePattern.

Definition match_token (token : string) : option string :=
  match match_compiled token with
  | Some f => Some f
  | None => family <$> find (λ p, bool_decide (family p = token) || bool_decide (token ∈ comm_names p)) rt
  end.

Definition family_allowed (fam : string) (cmdline : list string) (exact_comm : bool) : bool :=
  if bool_decide (fam ∈ AMBIGUOUS_FAMILIES)
  then (exact_comm && bool_decide (cmdline = [])) || cmdline_has_fingerprint fam cmdline
  else match find (λ p, bool_decide (family p = fam) && ambiguous p) rt with
       | Some p => (exact_comm && bool_decide (cmdline = [])) || cmdline_has_marker cmdline (cmdline_markers p)
       | None => true
       end.

Definition match_fingerprint_only (cmdline : list string) : option string :=
  match find (λ e, cmdline_has_fingerprint e.1 cmdline) CMDLINE_FINGERPRINTS with
  | Some (fam, _) => Some fam
  | None => family <$> find (λ p, ambiguous p && cmdline_has_marker cmdline (cmdline_markers p)) rt
  end.

(** The last piece after a separator. *)
Definition rsplit_last (c : ascii) (s : string) : string := default s (last (split_on c s)).
Definition basename (t : string) : string := rsplit_last "\" (rsplit_last "/" t).

Definition token_hit (cmdline : list string) (exact_comm : bool) (token : string) : option string :=
  match match_token token with
  | Some fam => if family_allowed fam cmdline exact_comm then Some fam else None
  | None => None
  end.

Fixpoint match_args (cmdline args : list string) : option string :=
  match args with
  | [] => None
  | arg :: rest =>
      let t := to_ascii_lowercase arg in
      match token_hit cmdline false (basename t) with
      | Some fam => Some fam
      | None =>
          match token_hit cmdline false t with
          | Some fam => Some fam
          | None => match_args cmdline rest
          end
      end
  end.

Definition match_known_agent (comm : string) (cmdline : list string) : option string :=
  let comm_l := to_ascii_lowercase comm in
  match
    match match_token comm_l with
    | Some fam => if family_allowed fam cmdline (bool_decide (comm_l = fam)) then Some fam else None
    | None => None
    end
  with
  | Some fam => Some fam
  | None =>
      match match_args cmdline cmdline with
      | Some fam => Some fam
      | None => match_fingerprint_only cmdline
      end
  end.
End matching.

Fixpoint match_system_tool (tools : list RuntimePattern) (comm : string) (cmdline : list string)
  : option string :=
  match tools with
  | [] => None
  | p :: rest =>
      let marker := cmdline_has_marker cmdline (cmdline_markers p) in
      if bool_decide (to_ascii_lowercase comm ∈ comm_names p)
      then if ambiguous p
           then if marker || bool_decide (cmdline = []) then Some (family p)
                else match_system_tool rest comm cmdline
           else Some (family p)
      else if marker then Some (family p)
      else match_system_tool rest comm cmdline
  end.

(** * What is found *)

Lemma match_compiled_known token fam : match_compiled token = Some fam → fam ∈ KNOWN_AGENT_FAMILIES.
Proof.
  unfold match_compiled, KNOWN_AGENT_FAMILIES. intros H.
  repeat match type of H with (if ?b then _ else _) = _ => destruct b; [injection H as <-; set_solver|] end.
  done.
Qed.

Lemma match_token_known rt token fam : match_token rt token = Some fam →
  fam ∈ KNOWN_AGENT_FAMILIES ++ (family <$> rt).
Proof.
  unfold match_token. rewrite elem_of_app. destruct (match_compiled token) eqn:E.
  - intros [= <-]. left. by eapply match_compiled_known.
  - intros (p & [Hp _]%find_some & ->)%fmap_Some. right. rewrite list_elem_of_fmap.
    exists p. split; [done|]. by apply list_elem_of_In.
Qed.

(** * Run-time patterns only add *)

(** No run-time pattern makes a compiled-in family ambiguous. *)
Definition conservative (rt : list RuntimePattern) : Prop :=
  Forall (λ p, family p ∈ KNOWN_AGENT_FAMILIES → ambiguous p = false) rt.

Lemma family_allowed_conservative rt fam cmdline b : conservative rt → fam ∈ KNOWN_AGENT_FAMILIES →
  family_allowed rt fam cmdline b = family_allowed [] fam cmdline b.
Proof.
  intros Hc Hf. unfold family_allowed. case_bool_decide; [done|].
  destruct (find _ rt) as [p|] eqn:E; [|done].
  apply find_some in E as [Hp [<-%bool_decide_eq_true Ha]%andb_true_iff].
  apply list_elem_of_In in Hp. eapply Forall_forall in Hc; [|done]. cbn in Hc. by rewrite Hc in Ha.
Qed.

Lemma token_hit_kept rt cmdline b token fam : conservative rt →
  token_hit [] cmdline b token = Some fam → token_hit rt cmdline b token = Some fam.
Proof.
  intros Hc. unfold token_hit, match_token. destruct (match_compiled token) as [f|] eqn:E; [|done].
  apply match_compiled_known in E. by rewrite (family_allowed_conservative rt).
Qed.

Lemma match_args_kept rt cmdline args : conservative rt →
  match_args [] cmdline args ≠ None → match_args rt cmdline args ≠ None.
Proof.
  intros Hc. induction args as [|a args IH]; [done|]. cbn.
  destruct (token_hit [] cmdline false (basename _)) eqn:E1; [by erewrite token_hit_kept|].
  destruct (token_hit rt cmdline false (basename _)); [done|].
  destruct (token_hit [] cmdline false (to_ascii_lowercase a)) eqn:E2; [by erewrite token_hit_kept|].
  by destruct (token_hit rt cmdline false (to_ascii_lowercase a)).
Qed.

Lemma comm_hit rt comm cmdline :
  (match match_token rt comm with
   | Some fam => if family_allowed rt fam cmdline (bool_decide (comm = fam)) then Some fam else None
   | None => None
   end) = match match_token rt comm with
          | Some fam => token_hit rt cmdline (bool_decide (comm = fam)) comm
          | None => None
          end.
Proof. unfold token_hit. by destruct (match_token rt comm). Qed.

(** A process recognized as an agent without run-time patterns is still recognized as one with
    them, as long as no pattern makes a compiled-in family ambiguous. *)
Theorem patterns_only_add rt comm cmdline : conservative rt →
  match_known_agent [] comm cmdline ≠ None → match_known_agent rt comm cmdline ≠ None.
Proof.
  intros Hc. unfold match_known_agent. rewrite !comm_hit.
  assert (Hm : ∀ fam, match_token [] (to_ascii_lowercase comm) = Some fam →
    match_token rt (to_ascii_lowercase comm) = Some fam).
  { intros fam. unfold match_token. by destruct (match_compiled _). }
  destruct (match match_token [] _ with Some _ => _ | None => _ end) as [fam|] eqn:E0.
  - destruct (match_token [] _) as [f|] eqn:Et; [|done]. rewrite (Hm f) by done.
    by rewrite (token_hit_kept rt _ _ _ fam).
  - destruct (match match_token rt _ with Some _ => _ | None => _ end); [done|].
    destruct (match_args [] cmdline cmdline) eqn:Ea.
    + pose proof (match_args_kept rt cmdline cmdline Hc) as Hk. rewrite Ea in Hk.
      by destruct (match_args rt cmdline cmdline); [|destruct Hk].
    + destruct (match_args rt cmdline cmdline); [done|]. unfold match_fingerprint_only.
      by destruct (find _ CMDLINE_FINGERPRINTS) as [[]|].
Qed.

Lemma patterns_only_add_witness :
  match_known_agent [mkPattern "mybot" ["mybot"] ["--bot"] true] "node" ["node"; "/opt/claude"] ≠ None.
Proof.
  apply patterns_only_add; [|by vm_compute]. apply Forall_singleton. intros Hin. exfalso. revert Hin.
  by apply (bool_decide_unpack ("mybot" ∉ KNOWN_AGENT_FAMILIES)).
Defined.

(** Every answer is a compiled-in family or the family of a loaded pattern. *)
Lemma detect_known rt comm cmdline fam :
  match_known_agent rt comm cmdline = Some fam → fam ∈ KNOWN_AGENT_FAMILIES ++ (family <$> rt).
Proof.
  assert (Ht : ∀ cl b tok f, token_hit rt cl b tok = Some f → f ∈ KNOWN_AGENT_FAMILIES ++ (family <$> rt)).
  { intros cl b tok f. unfold token_hit. destruct (match_token rt tok) eqn:E; [|done].
    destruct (family_allowed _ _ _ _); [|done]. intros [= <-]. by eapply match_token_known. }
  assert (Ha : ∀ cl args f, match_args rt cl args = Some f → f ∈ KNOWN_AGENT_FAMILIES ++ (family <$> rt)).
  { intros cl args f. induction args as [|a args IH]; [done|]. cbn.
    destruct (token_hit rt cl false (basename _)) eqn:E1; [intros [= <-]; by eapply Ht|].
    destruct (token_hit rt cl false (to_ascii_lowercase a)) eqn:E2; [intros [= <-]; by eapply Ht|done]. }
  unfold match_known_agent. rewrite comm_hit.
  destruct (match match_token rt _ with Some _ => _ | None => _ end) eqn:E0.
  { destruct (match_token rt _); [|done]. intros [= <-]. by eapply Ht. }
  destruct (match_args rt cmdline cmdline) eqn:E1; [intros [= <-]; by eapply Ha|].
  unfold match_fingerprint_only. rewrite elem_of_app. destruct (find _ CMDLINE_FINGERPRINTS) as [[f ms]|] eqn:Ef.
  - intros [= <-]. left. apply find_some in Ef as [Hin _]. apply list_elem_of_In in Hin.
    unfold CMDLINE_FINGERPRINTS, KNOWN_AGENT_FAMILIES in *. set_solver.
  - intros (p & [Hp _]%find_some & ->)%fmap_Some. right. apply list_elem_of_fmap. exists p.
    split; [done|]. by apply list_elem_of_In.
Qed.

(** * False positives *)

Lemma existsb_elem {A} (f : A → bool) l x : x ∈ l → f x = true → existsb f l = true.
Proof. intros Hx Hf. apply existsb_exists. exists x. by rewrite <- list_elem_of_In. Qed.

(** Fingerprints are substrings of any argument, so a process is taken for an agent whenever
    one of its arguments contains the three letters [amp], as in [example] or [stamp]. *)
Theorem substring_is_an_agent rt comm cmdline arg : arg ∈ cmdline →
  contains "amp" (to_ascii_lowercase arg) = true → match_known_agent rt comm cmdline ≠ None.
Proof.
  intros Hin Hc. unfold match_known_agent.
  destruct (match match_token rt _ with Some _ => _ | None => _ end); [done|].
  destruct (match_args rt cmdline cmdline); [done|]. unfold match_fingerprint_only.
  destruct (find _ CMDLINE_FINGERPRINTS) as [[]|] eqn:Ef; [done|].
  apply find_none with (x := ("amp", ["amp"; "amp-code"; "sourcegraph/amp"; "@sourcegraph/amp"; ".amp"])) in Ef;
    [|cbn; tauto].
  assert (Hm : ∀ ms, cmdline_has_marker cmdline ("amp" :: ms) = true).
  { intros ms. apply (existsb_elem _ _ arg); [done|]. cbn [existsb]. by rewrite Hc. }
  change (cmdline_has_marker cmdline ["amp"; "amp-code"; "sourcegraph/amp"; "@sourcegraph/amp"; ".amp"] = false) in Ef.
  by rewrite Hm in Ef.
Qed.

Lemma substring_is_an_agent_witness :
  match_known_agent [] "vim" ["vim"; "/home/u/example.txt"] ≠ None.
Proof. apply (substring_is_an_agent [] "vim" _ "/home/u/example.txt"); [set_solver|by vm_compute]. Defined.

(** A marker with a capital letter never matches: arguments are lowered, markers are not. *)
Example capital_marker_dead :
  cmdline_has_marker ["--MyBot"; "MyBot"] ["MyBot"] = false ∧
  match_known_agent [mkPattern "MyBot" ["MyBot"] ["MyBot"] true] "MyBot" ["MyBot"] = None.
Proof. by vm_compute. Qed.

(** Loading again replaces the patterns. *)
Lemma second_load_takes_effect read_file parse_toml path p agents tools :
  read_file path ≫= parse_toml = Some (agents, tools) →
  load_runtime_patterns read_file parse_toml path p = mkPatterns agents tools true.
Proof. intros E. unfold load_runtime_patterns. by rewrite E. Qed.
