(* ===== verification/WorktreePool.v ===== *)
(** The pool of git worktrees (sharecli-mesh/src/worktree_pool.rs).  Git and the file system are an
    interface; what the pool relies on is stated as its laws, and a small repository satisfies
    them. *)
From S2P Require Import Prelude.

(** The git commands the pool runs, as their arguments. *)
Inductive GitCmd : Type :=
| RevParse
| WorktreeAdd (p : path) (branch : string)
| WorktreeRemove (p : path)
| WorktreePrune
| BranchList (branch : string)
| BranchCreate (branch base : string)
| BranchDelete (branch : string).

Class Host (W : Type) : Type := {
  host_git : path → GitCmd → stm W string string;
  host_exists : W → path → bool;
  host_is_dir : W → path → bool;
  host_remove_dir_all : path → stm W string unit;
  host_create_dir_all : path → stm W string unit;
}.

Inductive WorktreePoolError : Type :=
| Io (e : string)
| NotGitRepo (p : path)
| Git (e : string)
| NoAllocation (slot : string).

Record WorktreeLease : Type := mkLease { slot_id : string; lease_path : path; branch : string }.

Record WorktreePool : Type := mkPool { repo_root : path; pool_root : path; base_ref : string }.

Section pool.
Context {W : Type} `{Host W}.

(** The lease table beside the world. *)
Definition PoolState : Type := W * gmap string WorktreeLease.

Definition on_host {E A} (inj : string → E) (m : stm W string A) : stm PoolState E A := λ s,
  let '(w, r) := m s.1 in
  ((w, s.2), match r with Ok a => Ok a | Err e => Err (inj e) end).

Definition ensure_git_repo (p : path) : stm W WorktreePoolError unit := λ w,
  let '(w', r) := host_git p RevParse w in
  (w', match r with Ok _ => Ok tt | Err _ => Err (NotGitRepo p) end).

Definition pool_open (repo pool : path) : stm W WorktreePoolError WorktreePool := λ w,
  match ensure_git_repo repo w with
  | (w1, Err e) => (w1, Err e)
  | (w1, Ok _) =>
      let '(w2, r) := host_create_dir_all pool w1 in
      (w2, match r with Ok _ => Ok (mkPool repo pool "HEAD") | Err e => Err (Io e) end)
  end.

Definition with_base_ref (base : string) (p : WorktreePool) : WorktreePool :=
  mkPool (repo_root p) (pool_root p) base.

Variable pool : WorktreePool.

Definition git (c : GitCmd) : stm PoolState WorktreePoolError string := on_host Git (host_git (repo_root pool) c).
(** [let _ = git(...)]. *)
Definition git_ignored (c : GitCmd) : stm PoolState WorktreePoolError unit := λ s,
  ((git c s).1, Ok tt).

Definition slot_branch (slot : string) : string := "sharecli/pool/" +:+ slot.
Definition slot_path (slot : string) : path := path_join (pool_root pool) (components slot).
Definition slot_lease (slot : string) : WorktreeLease := mkLease slot (slot_path slot) (slot_branch slot).

(** A path left by a crash. *)
Definition remove_stale (p : path) : stm PoolState WorktreePoolError unit := λ s,
  if host_exists s.1 p then
    let s1 := (git_ignored (WorktreeRemove p) s).1 in
    if host_exists s1.1 p then on_host Io (host_remove_dir_all p) s1 else (s1, Ok tt)
  else (s, Ok tt).

Definition ensure_branch (b : string) : stm PoolState WorktreePoolError unit :=
  (listed <- git (BranchList b) ;;
   if str_is_empty (trim listed) then (_ <- git (BranchCreate b (base_ref pool)) ;; st_ret tt)
   else st_ret tt)%rust.

Definition allocate_new (slot : string) : stm PoolState WorktreePoolError WorktreeLease :=
  (_ <- remove_stale (slot_path slot) ;;
   _ <- ensure_branch (slot_branch slot) ;;
   _ <- git (WorktreeAdd (slot_path slot) (slot_branch slot)) ;;
   _ <- st_mod (λ s, (s.1, <[slot := slot_lease slot]> s.2)) ;;
   st_ret (slot_lease slot))%rust.

Definition allocate (slot : string) : stm PoolState WorktreePoolError WorktreeLease := λ s,
  match s.2 !! slot with
  | Some existing =>
      if host_is_dir s.1 (lease_path existing) then (s, Ok existing)
      else allocate_new slot (s.1, delete slot s.2)
  | None => allocate_new slot s
  end.

Definition release (slot : string) : stm PoolState WorktreePoolError unit := λ s,
  match s.2 !! slot with
  | None => (s, Err (NoAllocation slot))
  | Some lease =>
      let s0 := (s.1, delete slot s.2) in
      let '(s1, removed) := git (WorktreeRemove (lease_path lease)) s0 in
      let '(s2, r) :=
        match removed with
        | Ok _ => (s1, Ok tt)
        | Err e =>
            if host_exists s1.1 (lease_path lease)
            then (_ <- on_host Io (host_remove_dir_all (lease_path lease)) ;; git_ignored WorktreePrune)%rust s1
            else (s1, Err e)
        end in
      match r with
      | Err e => (s2, Err e)
      | Ok _ => git_ignored (BranchDelete (branch lease)) s2
      end
  end.

Definition active_slots (s : PoolState) : gset string := dom s.2.
End pool.

(** * What the pool relies on *)

Definition cmd_path (c : GitCmd) : option path :=
  match c with WorktreeAdd p _ | WorktreeRemove p => Some p | _ => None end.

(** Neither path is inside the other. *)
Definition apart (p q : path) : Prop := ¬ p `prefix_of` q ∧ ¬ q `prefix_of` p.

Class HostLaws (W : Type) `{Host W} : Prop := {
  add_makes_dir r p b w w' x : host_git r (WorktreeAdd p b) w = (w', Ok x) → host_is_dir w' p = true;
  remove_removes r p w w' x : host_git r (WorktreeRemove p) w = (w', Ok x) → host_exists w' p = false;
  rmdir_removes p w w' : host_remove_dir_all p w = (w', Ok tt) → host_exists w' p = false;
  git_is_local r c w q : (∀ p, cmd_path c = Some p → apart p q) →
    host_is_dir (host_git r c w).1 q = host_is_dir w q;
  rmdir_is_local p w q : apart p q → host_is_dir (host_remove_dir_all p w).1 q = host_is_dir w q;
  branches_are_not_files r c w q : cmd_path c = None →
    host_exists (host_git r c w).1 q = host_exists w q;
}.

(** A slot id that is one ordinary path component. *)
Definition plain_slot (slot : string) : bool := bool_decide (components slot = [Normal slot]).

Section pool_spec.
Context {W : Type} `{HostLaws W} (pool : WorktreePool).

Lemma plain_slot_path slot : plain_slot slot = true → slot_path pool slot = pool_root pool ++ [Normal slot].
Proof.
  intros Hs%bool_decide_eq_true. unfold slot_path, path_join. rewrite Hs. cbn. by destruct (pool_root pool).
Qed.

Lemma plain_slots_apart s t : plain_slot s = true → plain_slot t = true → s ≠ t →
  apart (slot_path pool s) (slot_path pool t).
Proof.
  intros Hs Ht Hne. rewrite !plain_slot_path by done.
  assert (Hp : ∀ a b, a ≠ b → ¬ pool_root pool ++ [Normal a] `prefix_of` pool_root pool ++ [Normal b]).
  { intros a b Hab Hpre%prefix_app_inv. apply prefix_cons_inv_1 in Hpre. congruence. }
  split; apply Hp; congruence.
Qed.

(** A computation that leaves the table and every directory apart from [p] alone. *)
Definition framed {E A} (p : path) (m : stm (PoolState (W:=W)) E A) : Prop := ∀ s,
  (m s).1.2 = s.2 ∧ ∀ q, apart p q → host_is_dir (m s).1.1 q = host_is_dir s.1 q.

Lemma framed_bind {E A B} p (m : stm _ E A) (k : A → stm _ E B) :
  framed p m → (∀ a, framed p (k a)) → framed p (st_bind k m).
Proof.
  intros Hm Hk s. unfold st_bind. destruct (Hm s) as [H1 H2]. destruct (m s) as [s1 [a|e]]; [|done].
  cbn in *. destruct (Hk a s1) as [H3 H4]. split; [congruence|]. intros q Hq. rewrite H4, H2; done.
Qed.
Lemma framed_ret {E A} p (a : A) : framed (E:=E) p (st_ret a).
Proof. by intros s. Qed.
Lemma framed_git p c : (∀ q, cmd_path c = Some q → q = p) → framed p (git pool c).
Proof.
  intros Hc s. unfold git, on_host. pose proof (git_is_local (repo_root pool) c s.1) as Hl.
  destruct (host_git _ c s.1) as [w r]. cbn in *. split; [done|]. intros q Hq. apply Hl. by intros ? ->%Hc.
Qed.
Lemma framed_git_ignored p c : (∀ q, cmd_path c = Some q → q = p) → framed p (git_ignored pool c).
Proof. intros Hc s. apply (framed_git p c Hc s). Qed.
Lemma framed_rmdir p : framed p (on_host Io (host_remove_dir_all p)).
Proof.
  intros s. unfold on_host. pose proof (rmdir_is_local p s.1) as Hl.
  by destruct (host_remove_dir_all p s.1) as [w r].
Qed.

Lemma framed_stale p : framed p (remove_stale pool p).
Proof.
  intros s. unfold remove_stale. destruct (host_exists s.1 p); [|done].
  destruct (framed_git_ignored p (WorktreeRemove p) ltac:(cbn; congruence) s) as [H1 H2].
  destruct (host_exists _ p); [|done]. destruct (framed_rmdir p (git_ignored pool (WorktreeRemove p) s).1) as [H3 H4].
  split; [congruence|]. intros q Hq. rewrite H4, H2; done.
Qed.
Lemma framed_branch p b : framed p (ensure_branch pool b).
Proof.
  apply framed_bind; [by apply framed_git|]. intros listed. destruct (str_is_empty _); [|apply framed_ret].
  apply framed_bind; [by apply framed_git|]. intros. apply framed_ret.
Qed.

(** Every lease is the slot's own and its directory is there. *)
Definition pool_ok (s : PoolState (W:=W)) : Prop := ∀ slot l, s.2 !! slot = Some l →
  plain_slot slot = true ∧ l = slot_lease pool slot ∧ host_is_dir s.1 (slot_path pool slot) = true.

Lemma framed_pool_ok {E A} slot (m : stm _ E A) s : plain_slot slot = true → framed (slot_path pool slot) m →
  s.2 !! slot = None → pool_ok s → pool_ok (m s).1.
Proof.
  intros Hs Hm Hn Hok t l. destruct (Hm s) as [-> Hd]. intros Hl. destruct (Hok t l Hl) as (Ht & -> & Hdir).
  split_and!; [done|done|]. rewrite Hd; [done|]. apply plain_slots_apart; congruence.
Qed.

(** One stage of an operation on [slot]. *)
Lemma framed_stage {E A} slot (m : stm _ E A) s s' r : plain_slot slot = true →
  framed (slot_path pool slot) m → s.2 !! slot = None → pool_ok s → m s = (s', r) →
  pool_ok s' ∧ s'.2 = s.2 ∧ s'.2 !! slot = None.
Proof.
  intros Hs Hm Hn Hok Em. pose proof (framed_pool_ok slot m s Hs Hm Hn Hok) as Hok'.
  destruct (Hm s) as [Ht _]. rewrite Em in *. cbn in *. by rewrite Ht.
Qed.

Lemma allocate_new_ok slot s s' r : plain_slot slot = true → s.2 !! slot = None → pool_ok s →
  allocate_new pool slot s = (s', r) →
  pool_ok s' ∧
  ∀ l, r = Ok l → l = slot_lease pool slot ∧ s'.2 !! slot = Some l ∧
    host_is_dir s'.1 (slot_path pool slot) = true.
Proof.
  intros Hs Hn Hok. unfold allocate_new, st_bind at 1.
  destruct (remove_stale pool _ s) as [s1 [[]|e]] eqn:E1;
    (eapply framed_stage in E1 as (Hok1 & _ & Hn1); [|done|apply framed_stale|done..]);
    [|intros [= <- <-]; by split].
  unfold st_bind at 1. destruct (ensure_branch pool _ s1) as [s2 [[]|e]] eqn:E2;
    (eapply framed_stage in E2 as (Hok2 & _ & Hn2); [|done|apply framed_branch|done..]);
    [|intros [= <- <-]; by split].
  unfold st_bind at 1. destruct (git pool _ s2) as [s3 [x|e]] eqn:E3;
    (pose proof E3 as E3'; eapply framed_stage in E3 as (Hok3 & Ht3 & Hn3); [|done|by apply framed_git; cbn; congruence|done..]);
    [|intros [= <- <-]; by split].
  assert (Hdir : host_is_dir s3.1 (slot_path pool slot) = true).
  { unfold git, on_host in E3'. destruct (host_git _ _ s2.1) as [w [y|]] eqn:Eg; [|done].
    injection E3' as <- _. by apply add_makes_dir in Eg. }
  cbn. intros [= <- <-]. split; [|intros l [= <-]; cbn; by rewrite lookup_insert_eq].
  intros t l. cbn. intros [[<- <-]|[Hne Hl]]%lookup_insert_Some; [done|by apply Hok3].
Qed.

(** An allocation that succeeds returns the slot's own lease, records it, and its directory is
    there; asking again returns the same lease and changes nothing. *)
Theorem allocate_gives_worktree slot s s' l : plain_slot slot = true → pool_ok s →
  allocate pool slot s = (s', Ok l) →
  l = slot_lease pool slot ∧ s'.2 !! slot = Some l ∧ host_is_dir s'.1 (lease_path l) = true ∧
  allocate pool slot s' = (s', Ok l).
Proof.
  intros Hs Hok E.
  assert (Hl : l = slot_lease pool slot ∧ s'.2 !! slot = Some l ∧ host_is_dir s'.1 (slot_path pool slot) = true).
  { revert E. unfold allocate. destruct (s.2 !! slot) as [l0|] eqn:El.
    - destruct (Hok _ _ El) as (_ & -> & Hd). cbn. rewrite Hd. intros [= <- <-]. done.
    - intros E. apply allocate_new_ok in E as [_ Hl]; [by apply Hl|done..]. }
  destruct Hl as (-> & Ht & Hd). split_and!; [done|done|done|]. unfold allocate. rewrite Ht. cbn. by rewrite Hd.
Qed.

Lemma allocate_ok slot s : plain_slot slot = true → pool_ok s → pool_ok (allocate pool slot s).1.
Proof.
  intros Hs Hok. unfold allocate. destruct (s.2 !! slot) as [l|] eqn:El.
  - destruct (Hok _ _ El) as (_ & -> & Hd). cbn. by rewrite Hd.
  - destruct (allocate_new pool slot s) as [s' r] eqn:E. by apply allocate_new_ok in E as [? _].
Qed.

Lemma release_ok slot s : pool_ok s → pool_ok (release pool slot s).1.
Proof.
  intros Hok. unfold release. destruct (s.2 !! slot) as [l|] eqn:El; [|done].
  destruct (Hok _ _ El) as (Hs & -> & _). cbn.
  assert (Hok0 : pool_ok (s.1, delete slot s.2)).
  { intros t l. cbn. intros [_ Hl]%lookup_delete_Some. by apply Hok. }
  assert (Hn0 : (s.1, delete slot s.2).2 !! slot = None) by apply lookup_delete_eq.
  destruct (git pool _ _) as [s1 removed] eqn:E1.
  eapply framed_stage in E1 as (Hok1 & _ & Hn1); [|done|by apply framed_git; cbn; congruence|done..].
  assert (Hfin : ∀ s2 b, s2.2 !! slot = None → pool_ok s2 → pool_ok (git_ignored pool (BranchDelete b) s2).1).
  { intros s2 b Hn2 Hok2. apply (framed_pool_ok slot); [done|by apply framed_git_ignored|done..]. }
  destruct removed as [x|e]; [by apply Hfin|]. destruct (host_exists _ _); [|done].
  match goal with |- context [?m s1] => destruct (m s1) as [s2 r2] eqn:E2 end.
  eapply framed_stage in E2 as (Hok2 & _ & Hn2); [|done| |done..].
  - destruct r2; [by apply Hfin|done].
  - apply framed_bind; [apply framed_rmdir|]. intros. by apply framed_git_ignored.
Qed.

Inductive PoolOp : Type := Allocate (slot : string) | Release (slot : string).
Definition pool_exec (o : PoolOp) (s : PoolState (W:=W)) : PoolState (W:=W) :=
  match o with Allocate t => (allocate pool t s).1 | Release t => (release pool t s).1 end.

(** After any allocations and releases of plain slots, failures included, every lease in the
    table is its slot's own and its directory exists: no operation on one slot disturbs another. *)
Theorem leases_stay_live w ops slot l :
  Forall (λ o, match o with Allocate t => plain_slot t = true | Release _ => True end) ops →
  (foldl (λ s o, pool_exec o s) (w, ∅) ops).2 !! slot = Some l →
  l = slot_lease pool slot ∧
  host_is_dir (foldl (λ s o, pool_exec o s) (w, ∅) ops).1 (lease_path l) = true.
Proof.
  intros Hops. assert (Hok : pool_ok (foldl (λ s o, pool_exec o s) (w, ∅) ops)).
  { assert (Hnil : pool_ok (w, ∅)) by (intros t k; cbn; by rewrite lookup_empty).
    revert Hnil. generalize (w, ∅ : gmap string WorktreeLease).
    induction Hops as [|o ops Ho Hops IH]; intros s Hs; [done|]. cbn. apply IH.
    destruct o; [by apply allocate_ok|by apply release_ok]. }
  intros Hl. destruct (Hok _ _ Hl) as (_ & -> & Hd). done.
Qed.

(** A release that succeeds leaves no lease and no directory of the slot; one of a slot without
    a lease changes nothing; and in any case the lease is gone. *)
Theorem release_clears slot s s' r : release pool slot s = (s', r) →
  s'.2 !! slot = None ∧
  match s.2 !! slot with
  | None => s' = s ∧ r = Err (NoAllocation slot)
  | Some l => r = Ok tt → host_exists s'.1 (lease_path l) = false
  end.
Proof.
  assert (Htab : ∀ c s, (git pool c s).1.2 = s.2).
  { intros c s0. unfold git, on_host. by destruct (host_git _ _ _). }
  assert (Hbr : ∀ c s q, cmd_path c = None → host_exists (git_ignored pool c s).1.1 q = host_exists s.1 q).
  { intros c s0 q Hc. unfold git_ignored, git, on_host.
    pose proof (branches_are_not_files (repo_root pool) c s0.1 q Hc) as Hb. by destruct (host_git _ _ _). }
  unfold release. destruct (s.2 !! slot) as [l|] eqn:El; [|by intros [= <- <-]].
  destruct (git pool _ _) as [s1 removed] eqn:E1.
  assert (Hn1 : s1.2 !! slot = None).
  { pose proof (Htab (WorktreeRemove (lease_path l)) (s.1, delete slot s.2)) as Ht. rewrite E1 in Ht.
    cbn in Ht. rewrite Ht. apply lookup_delete_eq. }
  destruct removed as [x|e].
  - intros E. assert (s' = (git_ignored pool (BranchDelete (branch l)) s1).1) as -> by by rewrite E.
    split; [cbn; by rewrite Htab|]. intros _. rewrite Hbr by done.
    unfold git, on_host in E1. destruct (host_git _ _ _) as [w [y|]] eqn:Eg; [|done].
    injection E1 as <- _. by apply remove_removes in Eg.
  - destruct (host_exists s1.1 (lease_path l)); [|by intros [= <- <-]].
    unfold st_bind, on_host. destruct (host_remove_dir_all _ s1.1) as [w2 [[]|e2]] eqn:E2; [|by intros [= <- <-]].
    intros E. assert (s' = (git_ignored pool (BranchDelete (branch l))
      (git_ignored pool WorktreePrune (w2, s1.2)).1).1) as -> by exact (eq_sym (f_equal fst E)).
    split; [cbn; by rewrite !Htab|]. intros _. rewrite !Hbr by done.
    by apply rmdir_removes in E2.
Qed.
End pool_spec.

(** * A small repository *)

Module DemoRepo.
Record Repo : Type := mkRepo { dirs : gset path; trees : gset path; branches : gset string }.

(** How the host reads [..] in a path. *)
Definition physical (p : path) : path :=
  foldl (λ acc c, match c with ParentDir => removelast acc | CurDir => acc | _ => acc ++ [c] end) [] p.

Definition without (p : path) (ds : gset path) : gset path := filter (λ q, ¬ p `prefix_of` q) ds.

Definition repo_git (res : path → path) (c : GitCmd) : stm Repo string string := λ w,
  match c with
  | RevParse | WorktreePrune => (w, Ok ".git")
  | WorktreeAdd p b =>
      if bool_decide (b ∈ branches w) && negb (bool_decide (res p ∈ dirs w))
      then (mkRepo ({[res p]} ∪ dirs w) ({[res p]} ∪ trees w) (branches w), Ok EmptyString)
      else (w, Err "fatal: worktree add")
  | WorktreeRemove p =>
      if bool_decide (res p ∈ trees w)
      then (mkRepo (without (res p) (dirs w)) (trees w ∖ {[res p]}) (branches w), Ok EmptyString)
      else (w, Err "fatal: is not a working tree")
  | BranchList b => (w, Ok (if bool_decide (b ∈ branches w) then b else EmptyString))
  | BranchCreate b _ => (mkRepo (dirs w) (trees w) ({[b]} ∪ branches w), Ok EmptyString)
  | BranchDelete b => (mkRepo (dirs w) (trees w) (branches w ∖ {[b]}), Ok EmptyString)
  end.

Definition repo_host (res : path → path) : Host Repo := {|
  host_git _ := repo_git res;
  host_exists w p := bool_decide (res p ∈ dirs w);
  host_is_dir w p := bool_decide (res p ∈ dirs w);
  host_remove_dir_all p w := (mkRepo (without (res p) (dirs w)) (trees w) (branches w), Ok tt);
  host_create_dir_all p w := (mkRepo ({[res p]} ∪ dirs w) (trees w) (branches w), Ok tt);
|}.

#[export] Instance plain_host : Host Repo := repo_host id.

Lemma without_apart p q ds : apart p q → q ∈ without p ds ↔ q ∈ ds.
Proof. intros [Hp _]. unfold without. set_solver. Qed.
Lemma without_self p ds : p ∉ without p ds.
Proof. unfold without. rewrite elem_of_filter. intros [Hn _]. by apply Hn. Qed.

#[export] Instance plain_laws : HostLaws Repo.
Proof.
  split; cbn.
  - intros r p b w w' x. destruct (_ && _); [|done]. intros [= <- _]. apply bool_decide_eq_true. cbn. set_solver.
  - intros r p w w' x. case_bool_decide; [|done]. intros [= <- _]. apply bool_decide_eq_false, without_self.
  - intros p w w' [= <-]. apply bool_decide_eq_false, without_self.
  - intros r c w q Hc. apply bool_decide_ext. destruct c; cbn; try done.
    + destruct (_ && _); [|done]. destruct (Hc p eq_refl) as [Hp _]. cbn. set_solver.
    + case_bool_decide; [|done]. cbn. by apply without_apart, Hc.
  - intros p w q Hq. by apply bool_decide_ext, without_apart.
  - intros r c w q Hc. by destruct c.
Qed.

Definition root : path := [RootDir; Normal "work"].
Definition demo_pool : WorktreePool := mkPool (root ++ [Normal "repo"]) (root ++ [Normal "pool"]) "HEAD".
Definition world0 : Repo :=
  mkRepo {[root; root ++ [Normal "repo"]; root ++ [Normal "pool"]; root ++ [Normal "other"]]} ∅ ∅.

Lemma allocate_gives_worktree_witness :
  ∃ s, allocate demo_pool "a1" (world0, ∅) = (s, Ok (slot_lease demo_pool "a1")) ∧
       allocate demo_pool "a1" s = (s, Ok (slot_lease demo_pool "a1")).
Proof.
  eexists. split; [reflexivity|].
  apply (allocate_gives_worktree demo_pool "a1" (world0, ∅)); [done| |reflexivity].
  intros slot l. cbn. by rewrite lookup_empty.
Defined.

Lemma leases_stay_live_witness :
  host_is_dir (foldl (λ s o, pool_exec demo_pool o s) (world0, ∅)
    [Allocate "a1"; Allocate "a2"; Release "a2"]).1 (lease_path (slot_lease demo_pool "a1")) = true.
Proof.
  apply (leases_stay_live demo_pool world0 [Allocate "a1"; Allocate "a2"; Release "a2"] "a1");
    [by repeat constructor|by vm_compute].
Defined.

Lemma release_clears_witness :
  let s := (allocate demo_pool "a1" (world0, ∅)).1 in
  host_exists (release demo_pool "a1" s).1.1 (slot_path demo_pool "a1") = false.
Proof.
  cbv zeta. set (s := (allocate demo_pool "a1" (world0, ∅)).1).
  destruct (release demo_pool "a1" s) as [s' r] eqn:E.
  pose proof (release_clears demo_pool "a1" s s' r E) as [_ H].
  assert (Hs : s.2 !! "a1" = Some (slot_lease demo_pool "a1")) by (by vm_compute).
  rewrite Hs in H. apply H. assert (Er : (release demo_pool "a1" s).2 = Ok tt) by (by vm_compute).
  by rewrite E in Er.
Defined.

(** A slot named [..] is the parent of the pool: its allocation takes that directory for a stale
    worktree and removes it with everything inside. *)
Example dotdot_slot_removes_parent :
  let w := (allocate (H:=repo_host physical) demo_pool ".." (world0, ∅)).1.1 in
  root ++ [Normal "other"] ∈ dirs world0 ∧ root ++ [Normal "other"] ∉ dirs w.
Proof.
  cbv zeta. split.
  - apply (proj1 (bool_decide_eq_true _)). by vm_compute.
  - apply (proj1 (bool_decide_eq_false _)). by vm_compute.
Qed.
End DemoRepo.
