(* ===== verification/SmartMerge.v ===== *)
(** Three-way merges (sharecli-mesh/src/smart_merge.rs): mergiraf where it is installed, [git
    merge-file] on a scratch copy otherwise.  Both tools are parameters that may change files; the
    files are a map from path to contents. *)
From S2P Require Import Prelude.

Abbreviation Files := (gmap path (list byte)) (only parsing).

Record MergeResult : Type := mkMerge {
  success : bool; conflicts : list string; output : string; used_mergiraf : bool;
}.
Definition clean (out : string) (m : bool) : MergeResult := mkMerge true [] out m.
Definition conflicted (out : string) (m : bool) : MergeResult := mkMerge false [] out m.

Record SmartMerger : Type := mkMerger { mergiraf_binary : option path; fallback_to_git : bool }.
Definition merger_new : SmartMerger := mkMerger None true.
Definition with_mergiraf_binary (p : path) (m : SmartMerger) : SmartMerger := mkMerger (Some p) (fallback_to_git m).
Definition without_git_fallback (m : SmartMerger) : SmartMerger := mkMerger (mergiraf_binary m) false.

(** A finished tool: its exit code, none when a signal ended it, and its output. *)
Record ToolOut : Type := mkTool { code : option Z; stdout : list byte; stderr : list byte }.

Section merge.
(** The tools, each over its file arguments; [Err] when it cannot be started. *)
Variable run_mergiraf_tool : path → path → path → path → path → Files → Files * result ToolOut string.
Variable run_git_tool : path → path → path → Files → Files * result ToolOut string.
(** The first [mergiraf] of the search path; the name of the scratch copy beside the output;
    lossy decoding; and which of the file operations fail. *)
Variable which_mergiraf : option path.
Variable scratch_for : path → path.
Variable from_utf8_lossy : list byte → string.
Variables (parent_fails write_fails remove_fails : bool).
Variable copy_fails : path → path → bool.

Definition fs_copy (src dst : path) (fs : Files) : Files * result unit string :=
  if copy_fails src dst then (fs, Err "copy failed")
  else match fs !! src with
       | Some b => (<[dst := b]> fs, Ok tt)
       | None => (fs, Err "No such file or directory")
       end.
Definition fs_write (p : path) (b : list byte) (fs : Files) : Files :=
  if write_fails then fs else <[p := b]> fs.
Definition fs_remove (p : path) (fs : Files) : Files := if remove_fails then fs else delete p fs.

Definition mergiraf_path (m : SmartMerger) : option path :=
  match mergiraf_binary m with Some p => Some p | None => which_mergiraf end.

Definition combined (o : ToolOut) : string := from_utf8_lossy (stdout o) +:+ from_utf8_lossy (stderr o).

(** Keep what the tool printed when it wrote no file. *)
Definition keep_stdout (out : path) (o : ToolOut) (fs : Files) : Files :=
  if bool_decide (fs !! out = None) && negb (bool_decide (stdout o = [])) then fs_write out (stdout o) fs else fs.

Definition run_mergiraf (bin base ours theirs out : path) (fs : Files) : Files * MergeResult :=
  match run_mergiraf_tool bin base ours theirs out fs with
  | (fs1, Ok o) =>
      match code o with
      | Some 0 => (keep_stdout out o fs1, clean (combined o) true)
      | Some 1 => (keep_stdout out o fs1, conflicted (combined o) true)
      | _ => (fs1, mkMerge false [] (combined o) false)
      end
  | (fs1, Err e) => (fs1, mkMerge false [] e false)
  end.

Definition tempfile_in_parent (out ours : path) (fs : Files) : Files * result path string :=
  if parent_fails then (fs, Err "create_dir_all failed")
  else let '(fs1, r) := fs_copy ours (scratch_for out) fs in
       (fs1, match r with Ok _ => Ok (scratch_for out) | Err e => Err e end).

Definition run_git_fallback (base ours theirs out : path) (fs : Files) : Files * MergeResult :=
  match tempfile_in_parent out ours fs with
  | (fs1, Err e) => (fs1, mkMerge false [] e false)
  | (fs1, Ok scratch) =>
      match run_git_tool scratch base theirs fs1 with
      | (fs2, Ok o) =>
          match fs_copy scratch out fs2 with
          | (fs3, Ok _) =>
              (fs_remove scratch fs3,
               if bool_decide (code o = Some 0) then clean (combined o) false else conflicted (combined o) false)
          | (fs3, Err e) => (fs_remove scratch fs3, mkMerge false [] e false)
          end
      | (fs2, Err e) => ((fs_copy ours out (fs_remove scratch fs2)).1, mkMerge false [] e false)
      end
  end.

Definition merge (m : SmartMerger) (base ours theirs out : path) (fs : Files) : Files * MergeResult :=
  match mergiraf_path m with
  | Some bin =>
      let '(fs1, r) := run_mergiraf bin base ours theirs out fs in
      if used_mergiraf r || negb (fallback_to_git m) then (fs1, r)
      else run_git_fallback base ours theirs out fs1
  | None =>
      if negb (fallback_to_git m)
      then (fs, mkMerge false [] "mergiraf unavailable and fallback disabled" false)
      else run_git_fallback base ours theirs out fs
  end.

(** * What a merge does to the inputs *)

(** The tools write only where they are told: mergiraf its output, git the scratch copy. *)
Hypothesis mergiraf_writes_output : ∀ bin b o t out fs p, p ≠ out →
  (run_mergiraf_tool bin b o t out fs).1 !! p = fs !! p.
Hypothesis git_writes_scratch : ∀ s b t fs p, p ≠ s → (run_git_tool s b t fs).1 !! p = fs !! p.

Lemma fs_copy_other src dst fs p : p ≠ dst → (fs_copy src dst fs).1 !! p = fs !! p.
Proof.
  intros Hp. unfold fs_copy. destruct (copy_fails src dst); [done|]. destruct (fs !! src); [|done].
  cbn. by rewrite lookup_insert_ne.
Qed.
Lemma fs_remove_other q fs p : p ≠ q → fs_remove q fs !! p = fs !! p.
Proof. intros Hp. unfold fs_remove. destruct remove_fails; [done|]. by rewrite lookup_delete_ne. Qed.

Lemma run_mergiraf_other bin base ours theirs out fs p : p ≠ out →
  (run_mergiraf bin base ours theirs out fs).1 !! p = fs !! p.
Proof.
  intros Hp. unfold run_mergiraf. pose proof (mergiraf_writes_output bin base ours theirs out fs p Hp) as Hw.
  destruct (run_mergiraf_tool _ _ _ _ _ _) as [fs1 [o|e]]; [|done]. cbn in Hw.
  assert (Hk : keep_stdout out o fs1 !! p = fs1 !! p).
  { unfold keep_stdout, fs_write. destruct (_ && _), write_fails; try done. by rewrite lookup_insert_ne. }
  destruct (code o) as [[|[]|]|]; cbn; congruence.
Qed.

Lemma run_git_fallback_other base ours theirs out fs p : p ≠ out → p ≠ scratch_for out →
  (run_git_fallback base ours theirs out fs).1 !! p = fs !! p.
Proof.
  intros Ho Hs. unfold run_git_fallback, tempfile_in_parent. destruct parent_fails; [done|].
  pose proof (fs_copy_other ours (scratch_for out) fs p Hs) as H1.
  destruct (fs_copy ours (scratch_for out) fs) as [fs1 [[]|e]]; [|done]. cbn in H1.
  pose proof (git_writes_scratch (scratch_for out) base theirs fs1 p Hs) as H2.
  destruct (run_git_tool _ _ _ _) as [fs2 [o|e]]; cbn in H2.
  - pose proof (fs_copy_other (scratch_for out) out fs2 p Ho) as H3.
    destruct (fs_copy (scratch_for out) out fs2) as [fs3 [|]]; cbn in *; rewrite fs_remove_other by done; congruence.
  - cbn. rewrite fs_copy_other, fs_remove_other by done. congruence.
Qed.

(** Whatever the tools return and whichever file operation fails, a merge changes nothing but
    its output and its scratch copy: the three inputs and every other file keep their contents. *)
Theorem merge_keeps_inputs m base ours theirs out fs p : p ≠ out → p ≠ scratch_for out →
  (merge m base ours theirs out fs).1 !! p = fs !! p.
Proof.
  intros Ho Hs. unfold merge. destruct (mergiraf_path m) as [bin|].
  - pose proof (run_mergiraf_other bin base ours theirs out fs p Ho) as H1.
    destruct (run_mergiraf bin base ours theirs out fs) as [fs1 r]. cbn in H1.
    destruct (_ || _); [done|]. by rewrite run_git_fallback_other.
  - destruct (negb _); [done|]. by apply run_git_fallback_other.
Qed.

(** The scratch copy is gone after every path, when files can be removed. *)
Lemma scratch_removed base ours theirs out fs : remove_fails = false → scratch_for out ≠ out →
  fs !! scratch_for out = None →
  (run_git_fallback base ours theirs out fs).1 !! scratch_for out = None.
Proof.
  intros Hr Hne Hfresh. unfold run_git_fallback, tempfile_in_parent. destruct parent_fails; [done|].
  assert (Hrm : ∀ f, fs_remove (scratch_for out) f !! scratch_for out = None).
  { intros f. unfold fs_remove. rewrite Hr. apply lookup_delete_eq. }
  unfold fs_copy at 1. destruct (copy_fails _ _); [done|]. destruct (fs !! ours); [|done].
  destruct (run_git_tool _ _ _ _) as [fs2 [o|e]].
  - destruct (fs_copy (scratch_for out) out fs2) as [fs3 [|]]; apply Hrm.
  - cbn. rewrite fs_copy_other by done. apply Hrm.
Qed.

(** No merge names a conflicting path, conflicted or not. *)
Lemma conflicts_always_empty m base ours theirs out fs :
  conflicts (merge m base ours theirs out fs).2 = [].
Proof.
  assert (Hg : ∀ f, conflicts (run_git_fallback base ours theirs out f).2 = []).
  { intros f. unfold run_git_fallback. repeat case_match; done. }
  unfold merge, run_mergiraf. repeat case_match; simplify_eq/=; try done; apply Hg.
Qed.
End merge.

(** * A concrete merge *)

Module DemoMerge.
Definition file (n : string) : path := [RootDir; Normal n].
Definition fs0 : gmap path (list byte) :=
  {[ file "base" := [x61]; file "ours" := [x62]; file "theirs" := [x63] ]}.
(** A git that concatenates the two sides and reports a conflict. *)
Definition demo_git (s b t : path) (fs : gmap path (list byte)) : gmap path (list byte) * result ToolOut string :=
  (<[s := default [] (fs !! s) ++ default [] (fs !! t)]> fs, Ok (mkTool (Some 1) [] [])).
Definition no_mergiraf (bin b o t out : path) (fs : gmap path (list byte))
  : gmap path (list byte) * result ToolOut string := (fs, Ok (mkTool (Some 0) [] [])).
Definition scratch (out : path) : path := out ++ [Normal ".scratch"].
Definition demo_merge (which : option path) : gmap path (list byte) * MergeResult :=
  merge no_mergiraf demo_git which scratch (λ _, EmptyString) false false false (λ _ _, false) merger_new
    (file "base") (file "ours") (file "theirs") (file "out") fs0.

Lemma merge_keeps_inputs_witness :
  (demo_merge None).1 !! file "ours" = Some [x62] ∧ (demo_merge None).1 !! file "out" = Some [x62; x63].
Proof.
  split; [|by vm_compute]. unfold demo_merge. rewrite merge_keeps_inputs; [by vm_compute| | |done|done].
  - done.
  - intros s b t fs p Hp. cbn. by rewrite lookup_insert_ne.
Defined.

(** A mergiraf that exits with 0 and writes nothing counts as a clean merge without a result. *)
Example clean_without_output :
  success (demo_merge (Some (file "mergiraf"))).2 = true ∧ (demo_merge (Some (file "mergiraf"))).1 !! file "out" = None.
Proof. by vm_compute. Qed.
End DemoMerge.
