(* ===== verification/FuseSessions.v ===== *)
(** Sessions over the intercept file system: the copy-on-write handle of mounts that do not go
    through it (sharecli-fuse/src/cow_session.rs) and the table of active mounts
    (sharecli-fuse/src/session_registry.rs).  Mounting itself is a parameter. *)
From S2P Require Import Prelude BackingFs FuseStores CowStore InterceptFs.

(** * cow_session.rs *)

Record CowMountHandle : Type := mkHandle {
  h_disk : Disk; h_backing : path; h_session : string; h_cow_enabled : bool;
  h_cow : AgentCowStore; h_meters : WriteSerializeMeters;
}.

Definition from_options (pid : Z) (d : Disk) (back : path) (o : InterceptFsOptions) : CowMountHandle :=
  let session := if str_is_empty (opt_session o) then default_session_id pid else opt_session o in
  let agent := default session (opt_agent o) in
  let root := default (path_join back [Normal (if opt_cow o then ".sharecli-cow" else ".sharecli-cow-staging")])
                (opt_cow_dir o) in
  mkHandle d back session (opt_cow o) (cow_new root agent (opt_serialize o)) ws_meters_zero.

Definition h_on_cow {A} (m : stm CowState WriteSerializeError A) : stm CowMountHandle WriteSerializeError A := λ h,
  let '(c, r) := m (mkCowState (h_disk h) (h_cow h) (h_meters h)) in
  (mkHandle (cow_disk c) (h_backing h) (h_session h) (h_cow_enabled h) (cow_store c) (cow_meters c), r).

Section handle.
Variables (digest : path → string) (f : Faults).

Definition h_pending_for_agent (agent : option string) : stm CowMountHandle WriteSerializeError (list path) := λ h,
  (ps <- h_on_cow (pending_for_agent agent) ;; st_ret (omap (strip_backing (h_backing h)) ps))%rust h.

(** Agents with nothing pending are listed too. *)
Definition h_pending_by_agent (h : CowMountHandle) : list (string * list path) :=
  (λ x : string * list path, (x.1, omap (strip_backing (h_backing h)) x.2)) <$> list_agent_pending (h_cow h).

Definition h_with_locked_path {A} (agent : option string) (p : path) (m : stm Disk Errno A)
  : stm CowMountHandle WriteSerializeError (result A Errno) :=
  h_on_cow (cow_with_locked_path agent p m).

(** Staging needs a mount with copy-on-write. *)
Definition h_stage (agent : option string) (rel : path) (contents : list byte)
  : stm CowMountHandle WriteSerializeError unit := λ h,
  if negb (h_cow_enabled h) then (h, Err (Io EOTHER))
  else h_on_cow (cow_stage_bytes digest f agent (abs_under (h_backing h) rel) contents) h.

Definition h_annotate (abs : path) : stm CowMountHandle WriteSerializeError unit := λ h,
  let '(d, r) := annotate_write f abs (h_session h) (h_disk h) in
  (mkHandle d (h_backing h) (h_session h) (h_cow_enabled h) (h_cow h) (h_meters h), lift_io r).

Definition h_commit (agent : option string) (rel : path) : stm CowMountHandle WriteSerializeError unit := λ h,
  let abs := abs_under (h_backing h) rel in
  (_ <- h_on_cow (cow_commit_pending f agent abs) ;; h_annotate abs)%rust h.

Definition h_discard (agent : option string) (rel : path) : stm CowMountHandle WriteSerializeError unit := λ h,
  h_on_cow (cow_discard_pending f agent (abs_under (h_backing h) rel)) h.

Fixpoint h_annotate_all (ps : list path) : stm CowMountHandle WriteSerializeError (list path) :=
  match ps with
  | [] => st_ret []
  | p :: rest => λ h,
      (_ <- h_annotate p ;; rels <- h_annotate_all rest ;;
       st_ret (match strip_backing (h_backing h) p with Some r => r :: rels | None => rels end))%rust h
  end.

Definition h_commit_all (agent : option string) : stm CowMountHandle WriteSerializeError (list path) :=
  (ps <- h_on_cow (cow_commit_all_for_agent f agent) ;; h_annotate_all ps)%rust.

Definition h_discard_all (agent : option string) : stm CowMountHandle WriteSerializeError (list path) := λ h,
  (ps <- h_on_cow (cow_discard_all_for_agent f agent) ;; st_ret (omap (strip_backing (h_backing h)) ps))%rust h.
End handle.

(** * session_registry.rs *)

(** [Path]'s order: by component, roots before names. *)
Definition comp_rank (c : Component) : Z :=
  match c with RootDir => 0 | CurDir => 1 | ParentDir => 2 | Normal _ => 3 end.
Definition comp_leb (a b : Component) : bool :=
  match a, b with
  | Normal s, Normal t => bool_decide (String.le s t)
  | _, _ => comp_rank a <=? comp_rank b
  end.
Fixpoint path_leb (p q : path) : bool :=
  match p, q with
  | [], _ => true
  | _, [] => false
  | a :: p', b :: q' => if bool_decide (a = b) then path_leb p' q' else comp_leb a b
  end.

(** [FuseMountOptions] with [agents_conf] left out, as in [InterceptFsOptions]. *)
Record FuseMountOptions : Type := mkMountOptions {
  mo_session : option string; mo_cow : bool; mo_cow_dir : option path; mo_agent : option string; mo_serialize : bool;
}.
Definition mount_options_default : FuseMountOptions := mkMountOptions None false None None true.
Definition to_intercept_options (o : FuseMountOptions) : InterceptFsOptions :=
  mkOptions (default EmptyString (mo_session o)) (mo_cow o) (mo_cow_dir o) (mo_agent o) (mo_serialize o).
Definition session_mount_options (session : string) : FuseMountOptions :=
  mkMountOptions (Some session) false None None true.

(** [background] tells whether the entry holds the session whose drop unmounts. *)
Record FuseMountEntry : Type := mkMount {
  e_fs : InterceptFs; e_backing : path; e_session : string; e_background : bool;
}.
Notation Registry := (gmap path FuseMountEntry).

Record FuseMountInfo : Type := mkInfo {
  mi_mountpoint : path; mi_backing : path; mi_session : string; mi_cow : bool; mi_cow_root : path;
  mi_agent : string; mi_pending : list path; mi_by_agent : list (string * list path);
}.

Section registry.
Variables (canonicalize : path → option path) (pid : Z) (disk : Disk).

(** What a mount meets: whether the backing path is a directory, the outcome of creating the
    mountpoint, and that of mounting. *)
Record MountEnv : Type := mkMountEnv {
  backing_is_dir : bool; make_mountpoint : result unit string; do_mount : result unit string;
}.

Definition normalize_key (p : path) : path := default p (canonicalize p).

Definition new_entry (back : path) (o : FuseMountOptions) (bg : bool) : FuseMountEntry :=
  let fs := with_options pid disk back (to_intercept_options o) in
  mkMount fs back (session_id fs) bg.

(** The checks at the start of [mount_inner]; the table is only looked at. *)
Definition mount_check (env : MountEnv) (mp : path) (reg : Registry) : result path string :=
  if negb (backing_is_dir env) then Err "fuse mount: backing path must be an existing directory"
  else match make_mountpoint env with
       | Err e => Err ("fuse mount: create mountpoint: " +:+ e)
       | Ok _ =>
           if bool_decide (is_Some (reg !! normalize_key mp)) then Err "fuse mount: already registered"
           else Ok (normalize_key mp)
       end.

(** The second visit to the table, after a background mount was made. *)
Definition mount_register (env : MountEnv) (key back : path) (o : FuseMountOptions)
  : stm Registry string unit := λ reg,
  match do_mount env with
  | Err e => (reg, Err ("fuse mount: spawn_mount failed: " +:+ e))
  | Ok _ => (<[key := new_entry back o true]> reg, Ok tt)
  end.
Definition mount_background_with (env : MountEnv) (mp back : path) (o : FuseMountOptions)
  : stm Registry string unit := λ reg,
  match mount_check env mp reg with
  | Err e => (reg, Err e)
  | Ok key => mount_register env key back o reg
  end.
Definition mount_background (env : MountEnv) (mp back : path) (session : string) : stm Registry string unit :=
  mount_background_with env mp back (session_mount_options session).

(** A foreground mount is registered while it blocks; [meanwhile] is what other threads do to the
    table in that time. *)
Definition mount_foreground_with (env : MountEnv) (mp back : path) (o : FuseMountOptions)
    (meanwhile : Registry → Registry) : stm Registry string unit := λ reg,
  match mount_check env mp reg with
  | Err e => (reg, Err e)
  | Ok key =>
      let reg1 := meanwhile (<[key := new_entry back o false]> reg) in
      (delete key reg1,
       match do_mount env with Ok _ => Ok tt | Err e => Err ("fuse mount: mount ended with error: " +:+ e) end)
  end.

(** The forced unmount that follows is best effort. *)
Definition unmount (mp : path) : stm Registry string unit := λ reg,
  match reg !! normalize_key mp with
  | None => (reg, Err "fuse unmount: no registered mount")
  | Some _ => (delete (normalize_key mp) reg, Ok tt)
  end.

Definition resolve_entry (reg : Registry) (mp : option path) : result FuseMountEntry string :=
  match mp with
  | Some p => ok_or "fuse: no active mount" (reg !! normalize_key p)
  | None =>
      match map_to_list reg with
      | [] => Err "fuse: no active FUSE mounts registered (run `fuse mount` first)"
      | [(_, e)] => Ok e
      | _ => Err "fuse: multiple mounts registered; pass --mountpoint <path> (see `fuse list`)"
      end
  end.
Definition resolve_fs (reg : Registry) (mp : option path) : result InterceptFs string :=
  match resolve_entry reg mp with Ok e => Ok (e_fs e) | Err e => Err e end.

Definition info_of (x : path * FuseMountEntry) : FuseMountInfo :=
  let fs := e_fs x.2 in
  mkInfo x.1 (e_backing x.2) (e_session x.2) (cow_enabled fs) (cow_root (cow fs)) (default_agent (cow fs))
    (match (pending_rel_paths fs).2 with Ok ps => ps | Err _ => [] end) (pending_by_agent fs).
Definition list_mounts (reg : Registry) : list FuseMountInfo :=
  sort_by (λ a b, path_leb (mi_mountpoint a) (mi_mountpoint b)) (info_of <$> map_to_list reg).
End registry.

(** * The two kinds of mount agree *)

(** What a handle and a file system have in common. *)
Definition handle_of (s : InterceptFs) : CowMountHandle :=
  mkHandle (i_disk s) (backing s) (session_id s) (cow_enabled s) (cow s) (i_meters s).

(** An operation of the file system shows as one of the handle. *)
Definition shows_as {A} (m : stm InterceptFs WriteSerializeError A) (h : stm CowMountHandle WriteSerializeError A) : Prop :=
  ∀ s, h (handle_of s) = (handle_of (m s).1, (m s).2).

Section agreement.
Variables (digest : path → string) (f : Faults).

Lemma shows_bind {A B} (m : stm InterceptFs _ A) h (k : A → stm InterceptFs _ B) kh :
  shows_as m h → (∀ a, shows_as (k a) (kh a)) → shows_as (st_bind k m) (st_bind kh h).
Proof.
  intros Hm Hk s. unfold st_bind. rewrite Hm. destruct (m s) as [s1 [a|e]]; [|done]. cbn. apply Hk.
Qed.
Lemma shows_ret {A} (a : A) : shows_as (st_ret a) (st_ret a).
Proof. done. Qed.
Lemma shows_cow {A} (m : stm CowState WriteSerializeError A) : shows_as (on_cow m) (h_on_cow m).
Proof. intros s. unfold on_cow, h_on_cow. cbn. by destruct (m _) as [c r]. Qed.
Lemma shows_annotate abs : shows_as (after_commit f abs) (h_annotate f abs).
Proof.
  intros s. unfold after_commit, h_annotate, st_bind, st_get, try_disk, st_lift, st_mod. cbn.
  destruct (annotate_write f abs (session_id s) (i_disk s)) as [d [[]|e]]; done.
Qed.

(** Operations keep the backing root. *)
Lemma after_commit_backing p s : backing (after_commit f p s).1 = backing s.
Proof.
  unfold after_commit, st_bind, st_get, try_disk, st_lift, st_mod. cbn.
  by destruct (annotate_write f p (session_id s) (i_disk s)) as [d [[]|e]].
Qed.

Lemma shows_annotate_all ps s :
  h_annotate_all f ps (handle_of s) =
  (handle_of (after_commits f ps s).1,
   match (after_commits f ps s).2 with
   | Ok _ => Ok (omap (strip_backing (backing s)) ps)
   | Err e => Err e
   end).
Proof.
  revert s. induction ps as [|p ps IH]; intros s; [done|]. cbn [h_annotate_all after_commits]. unfold st_bind.
  pose proof (after_commit_backing p s) as Hb. rewrite shows_annotate.
  destruct (after_commit f p s) as [s1 [[]|e]]; [|done]. cbn in *. rewrite IH, Hb.
  destruct (after_commits f ps s1) as [s2 [[]|e]]; [|done]. cbn. by destruct (strip_backing _ p).
Qed.

Lemma after_commits_backing ps s : backing (after_commits f ps s).1 = backing s.
Proof.
  revert s. induction ps as [|p ps IH]; intros s; [done|]. cbn [after_commits]. unfold st_bind.
  pose proof (after_commit_backing p s) as Hb.
  destruct (after_commit f p s) as [s1 [[]|e]]; cbn in *; [by rewrite IH|done].
Qed.

Lemma on_cow_backing {A} (m : stm CowState WriteSerializeError A) s : backing (on_cow m s).1 = backing s.
Proof. unfold on_cow. by destruct (m _). Qed.

(** A mount through the copy-on-write handle and one through the intercept file system agree:
    committing and discarding one path or all paths of an agent, and staging where copy-on-write is
    on, have the same result and leave the same disk, staging areas and meters. *)
Theorem handle_matches_intercept agent rel contents s :
  h_commit f agent rel (handle_of s) =
    (handle_of (commit_rel_for_agent f agent rel s).1, (commit_rel_for_agent f agent rel s).2) ∧
  h_discard f agent rel (handle_of s) =
    (handle_of (discard_rel_for_agent f agent rel s).1, (discard_rel_for_agent f agent rel s).2) ∧
  h_commit_all f agent (handle_of s) =
    (handle_of (commit_all_for_agent f agent s).1, (commit_all_for_agent f agent s).2) ∧
  h_discard_all f agent (handle_of s) =
    (handle_of (discard_all_for_agent f agent s).1, (discard_all_for_agent f agent s).2) ∧
  (cow_enabled s = true →
   h_stage digest f agent rel contents (handle_of s) =
    (handle_of (stage_rel_for_agent digest f agent rel contents s).1,
     (stage_rel_for_agent digest f agent rel contents s).2)).
Proof.
  split_and!.
  - apply (shows_bind _ _ _ _ (shows_cow _)). intros []. apply shows_annotate.
  - apply shows_cow.
  - unfold h_commit_all, commit_all_for_agent, st_bind, st_get.
    rewrite shows_cow. pose proof (on_cow_backing (cow_commit_all_for_agent f agent) s) as Hb.
    destruct (on_cow _ s) as [s1 [ps|e]]; [|done]. cbn in *. rewrite shows_annotate_all.
    pose proof (after_commits_backing ps s1) as Hb1.
    destruct (after_commits f ps s1) as [s2 [[]|e]]; [|done]. cbn in *. by rewrite Hb1.
  - unfold h_discard_all, discard_all_for_agent, st_bind, st_get. rewrite shows_cow.
    pose proof (on_cow_backing (cow_discard_all_for_agent f agent) s) as Hb.
    destruct (on_cow _ s) as [s1 [ps|e]]; [|done]. cbn in *. by rewrite Hb.
  - intros Hc. unfold h_stage. cbn. rewrite Hc. cbn. apply shows_cow.
Qed.

(** The lists by agent agree up to the agents that have nothing pending. *)
Lemma pending_by_agent_agree s :
  pending_by_agent s = filter (λ x : string * list path, x.2 ≠ []) (h_pending_by_agent (handle_of s)).
Proof. done. Qed.
End agreement.

(** * The table *)

Lemma comp_leb_total a b : comp_leb a b = true ∨ comp_leb b a = true.
Proof.
  destruct a, b; cbn; auto. rewrite !bool_decide_eq_true. apply (total String.le).
Qed.
Lemma comp_leb_trans a b c : comp_leb a b = true → comp_leb b c = true → comp_leb a c = true.
Proof. destruct a, b, c; cbn; try done. rewrite !bool_decide_eq_true. apply transitivity. Qed.
Lemma comp_leb_antisym a b : comp_leb a b = true → comp_leb b a = true → a = b.
Proof.
  destruct a, b; cbn; try done. rewrite !bool_decide_eq_true. intros H1 H2. f_equal. by apply (anti_symm String.le).
Qed.

Lemma path_leb_total p q : path_leb p q = true ∨ path_leb q p = true.
Proof.
  revert q. induction p as [|a p IH]; intros [|b q]; cbn; auto.
  repeat case_bool_decide; try congruence; [apply IH|apply comp_leb_total].
Qed.
Lemma path_leb_trans p q r : path_leb p q = true → path_leb q r = true → path_leb p r = true.
Proof.
  revert q r. induction p as [|a p IH]; intros [|b q] [|c r]; cbn; try done.
  repeat case_bool_decide; subst; try done; eauto using comp_leb_trans.
  intros H1 H2. exfalso. eauto using comp_leb_antisym.
Qed.

Section registry_spec.
Variables (canonicalize : path → option path) (pid : Z) (disk : Disk).

(** Without a mountpoint the sole mount is resolved, and only when there is exactly one; with a
    mountpoint, the mount registered under it and no other. *)
Theorem resolve_exact reg mp e :
  resolve_entry canonicalize reg mp = Ok e ↔
  match mp with
  | Some p => reg !! normalize_key canonicalize p = Some e
  | None => ∃ k, reg = {[k := e]}
  end.
Proof.
  destruct mp as [p|]; cbn.
  - destruct (reg !! _); cbn; naive_solver.
  - split.
    + destruct (map_to_list reg) as [|[k x] [|]] eqn:El; try done. intros [= <-]. exists k.
      rewrite <- (list_to_map_to_list reg), El. apply map_eq. intros i. by rewrite list_to_map_cons.
    + intros [k ->]. by rewrite (map_to_list_singleton k).
Qed.

(** The list names every mount once, in the order of the mountpoints. *)
Theorem list_complete reg :
  StronglySorted (λ a b, path_leb (mi_mountpoint a) (mi_mountpoint b) = true) (list_mounts reg) ∧
  list_mounts reg ≡ₚ info_of <$> map_to_list reg ∧ NoDup (mi_mountpoint <$> list_mounts reg).
Proof.
  assert (Hp : list_mounts reg ≡ₚ info_of <$> map_to_list reg) by apply sort_by_perm.
  split_and!; [|done|].
  - apply sort_by_sorted; [intros; apply path_leb_total|intros ???; apply path_leb_trans].
  - rewrite Hp, <- list_fmap_compose. apply NoDup_fst_map_to_list.
Qed.

(** Mounting registers exactly its mountpoint and refuses a registered one without mounting;
    unmounting undoes it; and a foreground mount is gone from the table however it ends. *)
Theorem mount_bracket env mp back o meanwhile reg :
  let key := normalize_key canonicalize mp in
  (is_Some (reg !! key) → ∀ outcome,
     (mount_background_with canonicalize pid disk
        (mkMountEnv (backing_is_dir env) (make_mountpoint env) outcome) mp back o reg).1 = reg ∧
     is_ok (mount_background_with canonicalize pid disk
        (mkMountEnv (backing_is_dir env) (make_mountpoint env) outcome) mp back o reg).2 = false) ∧
  (∀ reg', mount_background_with canonicalize pid disk env mp back o reg = (reg', Ok tt) →
     reg !! key = None ∧ reg' = <[key := new_entry pid disk back o true]> reg ∧
     unmount canonicalize mp reg' = (reg, Ok tt)) ∧
  (reg !! key = None →
     (mount_foreground_with canonicalize pid disk env mp back o meanwhile reg).1 !! key = None).
Proof.
  intros key. unfold mount_background_with, mount_register, mount_foreground_with, mount_check. fold key. split_and!.
  - intros Hk outcome. cbn. rewrite (bool_decide_true _ Hk).
    destruct (backing_is_dir env); cbn; [|done]. by destruct (make_mountpoint env).
  - intros reg'. destruct (backing_is_dir env); [|done]. cbn. destruct (make_mountpoint env); [|done].
    case_bool_decide as Hk; [done|]. destruct (do_mount env); [|done]. intros [= <-].
    apply eq_None_not_Some in Hk. split_and!; [done|done|]. unfold unmount. fold key.
    by rewrite lookup_insert_eq, delete_insert_id.
  - intros Hk. destruct (backing_is_dir env); [|done]. cbn. destruct (make_mountpoint env); [|done].
    rewrite bool_decide_false by (rewrite Hk; by intros [? [=]]). cbn. apply lookup_delete_eq.
Qed.

(** The check and the insertion are two visits to the table: two background mounts of one
    mountpoint that both check before either inserts both succeed, and the entry of the first, with
    the session that keeps it mounted, is replaced. *)
Lemma interleaved_double_mount env mp back1 back2 o1 o2 reg key :
  do_mount env = Ok tt →
  mount_check canonicalize env mp reg = Ok key →
  let '(reg1, r1) := mount_register pid disk env key back1 o1 reg in
  let '(reg2, r2) := mount_register pid disk env key back2 o2 reg1 in
  r1 = Ok tt ∧ r2 = Ok tt ∧ reg2 = (mount_register pid disk env key back2 o2 reg).1 ∧
  is_ok (mount_check canonicalize env mp reg1) = false.
Proof.
  unfold mount_register, mount_check. intros -> Hc. destruct (backing_is_dir env); [|done].
  cbn in *. destruct (make_mountpoint env); [|done].
  case_bool_decide; [done|]. injection Hc as <-. rewrite insert_insert_eq, lookup_insert_eq. by rewrite bool_decide_true by eauto.
Qed.
End registry_spec.

(** An agent stages a file of a mount with copy-on-write: both mounts show the same outcome. *)
Definition demo_cow_fs : InterceptFs :=
  with_options 7 (mkDisk 9 {[ [RootDir; Normal "d"] := mkNode CDir 0 511 ∅; [RootDir] := mkNode CDir 0 511 ∅ ]})
    [RootDir; Normal "d"]
    (mkOptions "s" true None (Some "a") true).

Lemma handle_matches_intercept_witness :
  cow_enabled demo_cow_fs = true ∧
  h_stage (λ _, "x") no_faults (Some "b") [Normal "f"] [Byte.x41] (handle_of demo_cow_fs) =
    (handle_of (stage_rel_for_agent (λ _, "x") no_faults (Some "b") [Normal "f"] [Byte.x41] demo_cow_fs).1,
     (stage_rel_for_agent (λ _, "x") no_faults (Some "b") [Normal "f"] [Byte.x41] demo_cow_fs).2).
Proof.
  split; [reflexivity|].
  apply (handle_matches_intercept (λ _, "x") no_faults (Some "b") [Normal "f"] [Byte.x41] demo_cow_fs). reflexivity.
Defined.
