(* ===== verification/TeamComm.v ===== *)
(** The coordination daemon of lib/teamcomm: its state (teamcomm-daemon/src/state.rs), the handlers
    of its methods (handlers.rs), error codes (error.rs), and the dispatch and connection loop of
    its listener (listener.rs), over the data of teamcomm-protocol.  Each handler holds the state's
    lock for its whole mutation, so a run of the daemon is a sequence of handler calls.  The clock,
    the fresh UUID of a request, [chrono]'s addition and the JSON parser are parameters. *)
From S2P Require Import Prelude JsonValue.

(** * teamcomm-protocol *)

Inductive AgentType : Type := Forge | Codex | Claude | Copilot | Custom (s : string).
Inductive ReservationMode : Type := Read | Write | Exclusive.
Inductive Priority : Type := Low | Normal | High.
Inductive AgentStatus : Type := Idle | Working | Blocked | Done | Stuck.

#[global] Instance agent_type_eq_dec : EqDecision AgentType.
Proof. solve_decision. Defined.
#[global] Instance reservation_mode_eq_dec : EqDecision ReservationMode.
Proof. solve_decision. Defined.
#[global] Instance priority_eq_dec : EqDecision Priority.
Proof. solve_decision. Defined.
#[global] Instance agent_status_eq_dec : EqDecision AgentStatus.
Proof. solve_decision. Defined.

(** Instants are nanoseconds; a [PathBuf] is its text. *)
Record Session : Type := mkSession {
  session_id : string; agent_type : AgentType; pid : Z; started_at : Z;
  working_dir : string; capabilities : list string; last_heartbeat : Z;
}.
Record SessionSummary : Type := mkSummary {
  sum_id : string; sum_type : AgentType; sum_pid : Z; sum_status : AgentStatus;
  sum_focus : option string; sum_heartbeat : Z;
}.
Record Reservation : Type := mkReservation {
  reservation_id : string; holder : string; res_path : string; mode : ReservationMode;
  acquired_at : Z; expires_at : Z;
}.
Record InboxMessage : Type := mkMessage {
  message_id : string; from_session : string; to_session : string; subject : string;
  body : string; priority : Priority; ts : Z; is_read : bool;
}.
Record LiveState : Type := mkLive {
  live_session : string; focus_file : option string; focus_branch : option string;
  worktree : option string; status : AgentStatus; live_heartbeat : Z;
}.

Inductive RpcId : Type := IdString (s : string) | IdNumber (n : Z).
Record JsonRpcRequest : Type := mkRpc {
  rpc_id : option RpcId; rpc_method : string; rpc_params : Value;
}.

(** [PathBuf]'s equality is by component. *)
Definition path_eqb (p q : string) : bool := bool_decide (components p = components q).

(** * State and errors *)

Record AppState : Type := mkState {
  sessions : gmap string Session;
  sessions_by_pid : gmap Z string;
  reservations : gmap string Reservation;
  live_state : gmap string LiveState;
  inbox : gmap string (list InboxMessage);
}.
Definition new_state : AppState := mkState ∅ ∅ ∅ ∅ ∅.

Inductive TeamcommError : Type :=
| MethodNotFound (s : string) | InvalidParams (s : string) | NotFound (s : string)
| Conflict (s : string) | Internal (s : string).

Definition rpc_code (e : TeamcommError) : Z :=
  match e with
  | MethodNotFound _ => -32601
  | InvalidParams _ => -32602
  | NotFound _ => -32004
  | Conflict _ => -32005
  | Internal _ => -32603
  end.
(** The [#[error]] texts. *)
Definition error_text (e : TeamcommError) : string :=
  match e with
  | MethodNotFound s => "method not found: " +:+ s
  | InvalidParams s => "invalid params: " +:+ s
  | NotFound s => "not found: " +:+ s
  | Conflict s => "conflict: " +:+ s
  | Internal s => "internal error: " +:+ s
  end.

(** A handler fails with an error or panics. *)
Inductive Failure : Type := Rejected (e : TeamcommError) | Panicked.

(** What a handler passes to [json!]. *)
Inductive Reply : Type :=
| RRegistered (id : string)
| ROk
| RHeartbeat
| RSessions (l : list Session)
| RSession (s : Session)
| RClaimed (id : string) (conflicts : list Reservation)
| RReservations (l : list Reservation)
| RPosted (id : string)
| RMessages (l : list InboxMessage)
| RMessage (m : InboxMessage)
| RLive (l : LiveState)
| RSummaries (l : list SessionSummary).

Definition HEARTBEAT_INTERVAL_SEC : Z := 30.
Definition LEASE_TTL_SEC : Z := 90.

(** * Parameters of a request *)

Definition str_field (k : string) (p : Value) : option string := value_get k p ≫= as_str.
Definition req_field (k : string) (p : Value) : result string Failure :=
  ok_or (Rejected (InvalidParams ("missing required field: " +:+ k))) (str_field k p).
Definition str_array (k : string) (p : Value) : list string :=
  match value_get k p with Some (Arr l) => omap as_str l | _ => [] end.

Definition parse_agent_type (s : string) : AgentType :=
  let t := to_ascii_lowercase s in
  if bool_decide (t = "forge") then Forge
  else if bool_decide (t = "codex") then Codex
  else if bool_decide (t = "claude") then Claude
  else if bool_decide (t = "copilot") then Copilot
  else Custom t.

(** A word of a table, or an error that names the unknown word. *)
Definition parse_word {A} (what : string) (table : list (string * A)) (s : string) : result A Failure :=
  let t := to_ascii_lowercase s in
  match find (λ x : string * A, bool_decide (x.1 = t)) table with
  | Some x => Ok x.2
  | None => Err (Rejected (InvalidParams ("unknown " +:+ what +:+ ": " +:+ t)))
  end.
Definition parse_reservation_mode : string → result ReservationMode Failure :=
  parse_word "reservation mode" [("read", Read); ("write", Write); ("exclusive", Exclusive)].
Definition parse_priority : string → result Priority Failure :=
  parse_word "priority" [("low", Low); ("normal", Normal); ("high", High)].
Definition parse_agent_status : string → result AgentStatus Failure :=
  parse_word "agent status"
    [("idle", Idle); ("working", Working); ("blocked", Blocked); ("done", Done); ("stuck", Stuck)].

Definition mode_conflicts (new existing : ReservationMode) : bool :=
  match new with
  | Read => bool_decide (existing = Exclusive)
  | Write => bool_decide (existing = Write) || bool_decide (existing = Exclusive)
  | Exclusive => true
  end.

(** [as i64] of a [u64]. *)
Definition as_i64 (n : Z) : Z := if n <? 2 ^ 63 then n else n - 2 ^ 64.

(** [take(if limit > 0 { limit } else { usize::MAX })]. *)
Definition take_limit {A} (limit : Z) (l : list A) : list A :=
  if limit =? 0 then l else take (Z.to_nat (Z.min limit (Z.of_nat (length l)))) l.

(** * Field updates *)

Definition set_session_heartbeat (now : Z) (s : Session) : Session :=
  mkSession (session_id s) (agent_type s) (pid s) (started_at s) (working_dir s) (capabilities s) now.
Definition with_sessions (f : gmap string Session → gmap string Session) (s : AppState) : AppState :=
  mkState (f (sessions s)) (sessions_by_pid s) (reservations s) (live_state s) (inbox s).
Definition with_reservations (f : gmap string Reservation → gmap string Reservation) (s : AppState) : AppState :=
  mkState (sessions s) (sessions_by_pid s) (f (reservations s)) (live_state s) (inbox s).
Definition with_live (f : gmap string LiveState → gmap string LiveState) (s : AppState) : AppState :=
  mkState (sessions s) (sessions_by_pid s) (reservations s) (f (live_state s)) (inbox s).
Definition with_inbox (f : gmap string (list InboxMessage) → gmap string (list InboxMessage)) (s : AppState) : AppState :=
  mkState (sessions s) (sessions_by_pid s) (reservations s) (live_state s) (f (inbox s)).
Definition set_read (b : bool) (m : InboxMessage) : InboxMessage :=
  mkMessage (message_id m) (from_session m) (to_session m) (subject m) (body m) (priority m) (ts m) b.

(** The first message of the id is marked read. *)
Fixpoint mark_first (id : string) (l : list InboxMessage) : option (list InboxMessage * InboxMessage) :=
  match l with
  | [] => None
  | m :: l' =>
      if bool_decide (message_id m = id) then Some (set_read true m :: l', set_read true m)
      else '(l2, r) ← mark_first id l'; Some (m :: l2, r)
  end.

(** The clock and the UUID of one request. *)
Record Env : Type := mkEnv { now : Z; uuid : string }.

(** The methods of [dispatch]. *)
Inductive Method : Type :=
| SessionRegister | SessionDeregister | SessionHeartbeat | SessionList | SessionGet
| ReservationClaim | ReservationRelease | ReservationList
| InboxPost | InboxList | InboxRead | StateSet | StateGet | DiscoverAgents.
Definition methods : list (string * Method) :=
  [("session.register", SessionRegister); ("session.deregister", SessionDeregister);
   ("session.heartbeat", SessionHeartbeat); ("session.list", SessionList); ("session.get", SessionGet);
   ("reservation.claim", ReservationClaim); ("reservation.release", ReservationRelease);
   ("reservation.list", ReservationList); ("inbox.post", InboxPost); ("inbox.list", InboxList);
   ("inbox.read", InboxRead); ("state.set", StateSet); ("state.get", StateGet);
   ("discover.agents", DiscoverAgents)].
Definition method_of (s : string) : option Method :=
  snd <$> find (λ x : string * Method, bool_decide (x.1 = s)) methods.

Section daemon.
(** The iteration order of a [HashMap]; [DateTime + Duration::seconds], which panics out of range. *)
Variable iter : ∀ {A : Type}, gmap string A → list (string * A).
Variable add_secs : Z → Z → option Z.

(** * Handlers *)

Definition insert_new_session (e : Env) (p : Z) (t : AgentType) (wd : string) (caps : list string) (s : AppState)
  : AppState * string :=
  let id := "sess_" +:+ uuid e in
  (mkState (<[id := mkSession id t p (now e) wd caps (now e)]> (sessions s)) (<[p := id]> (sessions_by_pid s))
     (reservations s) (live_state s) (inbox s), id).

Definition handle_session_register (e : Env) (p : Value) : stm AppState Failure Reply :=
  n <- st_lift (ok_or (Rejected (InvalidParams "missing required field: pid")) (value_get "pid" p ≫= as_u64)) ;;
  let pid32 := n mod 2 ^ 32 in
  let t := parse_agent_type (default "custom" (str_field "agent_type" p)) in
  let wd := default "/" (str_field "working_dir" p) in
  let caps := str_array "capabilities" p in
  λ s,
    let fresh := let '(s', id) := insert_new_session e pid32 t wd caps s in (s', Ok (RRegistered id)) in
    match sessions_by_pid s !! pid32 with
    | Some existing =>
        match sessions s !! existing with
        | Some x => (with_sessions (<[existing := set_session_heartbeat (now e) x]>) s, Ok (RRegistered existing))
        | None => fresh
        end
    | None => fresh
    end.

Definition handle_session_deregister (p : Value) : stm AppState Failure Reply :=
  id <- st_lift (req_field "session_id" p) ;;
  λ s,
    match sessions s !! id with
    | Some x =>
        (mkState (delete id (sessions s)) (delete (pid x) (sessions_by_pid s)) (reservations s) (live_state s) (inbox s),
         Ok ROk)
    | None => (s, Ok ROk)
    end.

Definition no_session (id : string) : Failure := Rejected (NotFound ("session " +:+ id)).

Definition handle_session_heartbeat (e : Env) (p : Value) : stm AppState Failure Reply :=
  id <- st_lift (req_field "session_id" p) ;;
  λ s,
    match sessions s !! id with
    | Some x => (with_sessions (<[id := set_session_heartbeat (now e) x]>) s, Ok RHeartbeat)
    | None => (s, Err (no_session id))
    end.

Definition handle_session_list : stm AppState Failure Reply := λ s, (s, Ok (RSessions (iter (sessions s)).*2)).

Definition handle_session_get (p : Value) : stm AppState Failure Reply :=
  id <- st_lift (req_field "session_id" p) ;;
  λ s, (s, match sessions s !! id with Some x => Ok (RSession x) | None => Err (no_session id) end).

(** The live reservations of other sessions on the path that a claim of the mode conflicts with. *)
Definition blocks (now : Z) (sid path : string) (m : ReservationMode) (r : Reservation) : bool :=
  path_eqb (res_path r) path && negb (bool_decide (holder r = sid)) && (now <? expires_at r)
  && mode_conflicts m (mode r).

Definition handle_reservation_claim (e : Env) (p : Value) : stm AppState Failure Reply :=
  sid <- st_lift (req_field "session_id" p) ;;
  path <- st_lift (req_field "path" p) ;;
  m <- st_lift (parse_reservation_mode (default "write" (str_field "mode" p))) ;;
  let ttl_sec := default 600 (value_get "ttl_sec" p ≫= as_u64) in
  expires <- st_lift (ok_or Panicked (add_secs (now e) (as_i64 ttl_sec))) ;;
  λ s,
    match sessions s !! sid with
    | None => (s, Err (no_session sid))
    | Some _ =>
        let conflicts := filter (λ r, blocks (now e) sid path m r = true) (iter (reservations s)).*2 in
        let rid := "resv_" +:+ uuid e in
        (with_reservations (<[rid := mkReservation rid sid path m (now e) expires]>) s, Ok (RClaimed rid conflicts))
    end.

Definition handle_reservation_release (p : Value) : stm AppState Failure Reply :=
  rid <- st_lift (req_field "reservation_id" p) ;;
  λ s,
    match reservations s !! rid with
    | Some _ => (with_reservations (delete rid) s, Ok ROk)
    | None => (s, Err (Rejected (NotFound ("reservation " +:+ rid))))
    end.

Definition handle_reservation_list (e : Env) (p : Value) : stm AppState Failure Reply := λ s,
  let live := filter (λ r, now e < expires_at r) (iter (reservations s)).*2 in
  (s, Ok (RReservations
    (match str_field "path" p with
     | Some prefix => filter (λ r, starts_with prefix (res_path r) = true) live
     | None => live
     end))).

(** The message a request to post describes. *)
Definition message_of (e : Env) (p : Value) : result InboxMessage Failure :=
  match req_field "from_session" p, req_field "to_session" p,
        parse_priority (default "normal" (str_field "priority" p)) with
  | Err f, _, _ | Ok _, Err f, _ | Ok _, Ok _, Err f => Err f
  | Ok from, Ok to, Ok prio =>
      Ok (mkMessage ("msg_" +:+ uuid e) from to (default EmptyString (str_field "subject" p))
            (default EmptyString (str_field "body" p)) prio (now e) false)
  end.
Definition handle_inbox_post (e : Env) (p : Value) : stm AppState Failure Reply :=
  m <- st_lift (message_of e p) ;;
  λ s,
    match sessions s !! from_session m with
    | None => (s, Err (no_session (from_session m)))
    | Some _ =>
        (with_inbox (λ b, <[to_session m := default [] (b !! to_session m) ++ [m]]> b) s, Ok (RPosted (message_id m)))
    end.

Definition handle_inbox_list (p : Value) : stm AppState Failure Reply :=
  sid <- st_lift (req_field "session_id" p) ;;
  let unread_only := default false (value_get "unread_only" p ≫= as_bool) in
  let limit := default 50 (value_get "limit" p ≫= as_u64) in
  λ s,
    let messages := default [] (inbox s !! sid) in
    let ids := message_id <$>
      take_limit limit (filter (λ m, negb unread_only || negb (is_read m) = true) messages) in
    let marked := (λ m, if bool_decide (message_id m ∈ ids) then set_read true m else m) <$> messages in
    (with_inbox (<[sid := marked]>) s, Ok (RMessages (filter (λ m, message_id m ∈ ids) marked))).

(** The inboxes are searched in the table's order. *)
Fixpoint read_in (id : string) (boxes : list (string * list InboxMessage))
  : option (string * list InboxMessage * InboxMessage) :=
  match boxes with
  | [] => None
  | (k, l) :: rest =>
      match mark_first id l with Some (l', m) => Some (k, l', m) | None => read_in id rest end
  end.
Definition handle_inbox_read (p : Value) : stm AppState Failure Reply :=
  id <- st_lift (req_field "message_id" p) ;;
  λ s,
    match read_in id (iter (inbox s)) with
    | Some (k, l, m) => (with_inbox (<[k := l]>) s, Ok (RMessage m))
    | None => (s, Err (Rejected (NotFound ("message " +:+ id))))
    end.

Definition handle_state_set (e : Env) (p : Value) : stm AppState Failure Reply :=
  sid <- st_lift (req_field "session_id" p) ;;
  st <- st_lift (parse_agent_status (default "idle" (str_field "status" p))) ;;
  λ s,
    match sessions s !! sid with
    | None => (s, Err (no_session sid))
    | Some _ =>
        let live := mkLive sid (str_field "focus_file" p) (str_field "focus_branch" p) (str_field "worktree" p) st (now e) in
        (with_live (<[sid := live]>) s, Ok ROk)
    end.

Definition handle_state_get (p : Value) : stm AppState Failure Reply :=
  sid <- st_lift (req_field "session_id" p) ;;
  λ s, (s, match live_state s !! sid with
           | Some l => Ok (RLive l)
           | None => Err (Rejected (NotFound ("live state for session " +:+ sid)))
           end).

(** The filters of [discover.agents] on one session. *)
Definition discovered (p : Value) (s : AppState) (x : string * Session) : option SessionSummary :=
  let live := live_state s !! x.1 in
  let focus := live ≫= focus_file in
  if (match str_field "path" p with
      | Some prefix => match focus with Some f => starts_with prefix f | None => false end
      | None => true
      end)
     && (match str_field "branch" p with
         | Some b => bool_decide (focus_branch <$> live = Some (Some b))
         | None => true
         end)
     && forallb (λ c, bool_decide (c ∈ capabilities x.2)) (str_array "capabilities" p)
  then Some (mkSummary x.1 (agent_type x.2) (pid x.2) (default Idle (status <$> live)) focus (last_heartbeat x.2))
  else None.
Definition handle_discover_agents (p : Value) : stm AppState Failure Reply := λ s,
  (s, Ok (RSummaries (omap (discovered p s) (iter (sessions s))))).

(** * listener.rs *)

Definition dispatch (e : Env) (name : string) (p : Value) : stm AppState Failure Reply :=
  match method_of name with
  | Some SessionRegister => handle_session_register e p
  | Some SessionDeregister => handle_session_deregister p
  | Some SessionHeartbeat => handle_session_heartbeat e p
  | Some SessionList => handle_session_list
  | Some SessionGet => handle_session_get p
  | Some ReservationClaim => handle_reservation_claim e p
  | Some ReservationRelease => handle_reservation_release p
  | Some ReservationList => handle_reservation_list e p
  | Some InboxPost => handle_inbox_post e p
  | Some InboxList => handle_inbox_list p
  | Some InboxRead => handle_inbox_read p
  | Some StateSet => handle_state_set e p
  | Some StateGet => handle_state_get p
  | Some DiscoverAgents => handle_discover_agents p
  | None => st_err (Rejected (MethodNotFound name))
  end.

Section wire.
(** The JSON parser of a request line; [DateTime]'s text. *)
Variable parse_request : string → result JsonRpcRequest string.
Variable rfc3339 : Z → string.

(** The wire form of the replies. *)
Definition opt_str (o : option string) : Value := match o with Some t => Str t | None => Null end.
Definition nat_value (n : Z) : Value := Num (PosInt n).
Definition agent_type_value (t : AgentType) : Value :=
  match t with
  | Forge => Str "forge" | Codex => Str "codex" | Claude => Str "claude" | Copilot => Str "copilot"
  | Custom s => Obj [("custom", Str s)]
  end.
Definition mode_value (m : ReservationMode) : Value :=
  Str (match m with Read => "read" | Write => "write" | Exclusive => "exclusive" end).
Definition priority_value (p : Priority) : Value :=
  Str (match p with Low => "low" | Normal => "normal" | High => "high" end).
Definition status_value (s : AgentStatus) : Value :=
  Str (match s with Idle => "idle" | Working => "working" | Blocked => "blocked" | Done => "done" | Stuck => "stuck" end).
Definition session_value (s : Session) : Value :=
  Obj [("session_id", Str (session_id s)); ("agent_type", agent_type_value (agent_type s)); ("pid", nat_value (pid s));
       ("started_at", Str (rfc3339 (started_at s))); ("working_dir", Str (working_dir s));
       ("capabilities", Arr (Str <$> capabilities s)); ("last_heartbeat", Str (rfc3339 (last_heartbeat s)))].
Definition summary_value (s : SessionSummary) : Value :=
  Obj [("session_id", Str (sum_id s)); ("agent_type", agent_type_value (sum_type s)); ("pid", nat_value (sum_pid s));
       ("status", status_value (sum_status s)); ("focus_file", opt_str (sum_focus s));
       ("last_heartbeat", Str (rfc3339 (sum_heartbeat s)))].
Definition reservation_value (r : Reservation) : Value :=
  Obj [("reservation_id", Str (reservation_id r)); ("session_id", Str (holder r)); ("path", Str (res_path r));
       ("mode", mode_value (mode r)); ("acquired_at", Str (rfc3339 (acquired_at r)));
       ("expires_at", Str (rfc3339 (expires_at r)))].
Definition message_value (m : InboxMessage) : Value :=
  Obj [("message_id", Str (message_id m)); ("from_session", Str (from_session m)); ("to_session", Str (to_session m));
       ("subject", Str (subject m)); ("body", Str (body m)); ("priority", priority_value (priority m));
       ("ts", Str (rfc3339 (ts m))); ("read", Bool (is_read m))].
Definition live_value (l : LiveState) : Value :=
  Obj [("session_id", Str (live_session l)); ("focus_file", opt_str (focus_file l));
       ("focus_branch", opt_str (focus_branch l)); ("worktree", opt_str (worktree l));
       ("status", status_value (status l)); ("last_heartbeat", Str (rfc3339 (live_heartbeat l)))].
Definition reply_value (r : Reply) : Value :=
  match r with
  | RRegistered id => Obj [("session_id", Str id); ("lease_ttl_sec", nat_value LEASE_TTL_SEC)]
  | ROk => Obj [("ok", Bool true)]
  | RHeartbeat => Obj [("ok", Bool true); ("next_heartbeat_sec", nat_value HEARTBEAT_INTERVAL_SEC)]
  | RSessions l => Arr (session_value <$> l)
  | RSession s => session_value s
  | RClaimed id l => Obj [("reservation_id", Str id); ("conflicts", Arr (reservation_value <$> l))]
  | RReservations l => Arr (reservation_value <$> l)
  | RPosted id => Obj [("message_id", Str id)]
  | RMessages l => Arr (message_value <$> l)
  | RMessage m => message_value m
  | RLive l => live_value l
  | RSummaries l => Arr (summary_value <$> l)
  end.

Definition rpc_id_to_value (id : RpcId) : Value :=
  match id with IdString s => Str s | IdNumber n => Num (PosInt n) end.
Definition success_envelope (id : RpcId) (v : Value) : Value :=
  Obj [("jsonrpc", Str "2.0"); ("id", rpc_id_to_value id); ("result", v)].
Definition error_envelope (id : RpcId) (e : TeamcommError) : Value :=
  Obj [("jsonrpc", Str "2.0"); ("id", rpc_id_to_value id);
       ("error", Obj [("code", Num (NegInt (rpc_code e))); ("message", Str (error_text e))])].
Definition parse_error_envelope (why : string) : Value :=
  Obj [("jsonrpc", Str "2.0"); ("id", Null);
       ("error", Obj [("code", Num (NegInt (-32700))); ("message", Str "parse error"); ("data", Str why)])].

Definition MAX_LINE_BYTES : Z := 1024 * 1024.

(** What one line does: nothing, an envelope to write, or a panic of the connection's task. *)
Inductive LineResult : Type := Silent | Answer (v : Value) | TaskPanic.

Definition handle_line (e : Env) (line : string) (s : AppState) : AppState * LineResult :=
  let trimmed := trim line in
  if str_is_empty trimmed then (s, Silent)
  else if MAX_LINE_BYTES <? Z.of_nat (String.length trimmed) then
    (s, Answer (error_envelope (IdNumber 0) (InvalidParams "line exceeds MAX_LINE_BYTES (1048576)")))
  else
    match parse_request trimmed with
    | Err why => (s, Answer (parse_error_envelope why))
    | Ok req =>
        match rpc_id req with
        | None => (s, Silent)
        | Some id =>
            match dispatch e (rpc_method req) (rpc_params req) s with
            | (s', Ok r) => (s', Answer (success_envelope id (reply_value r)))
            | (s', Err (Rejected err)) => (s', Answer (error_envelope id err))
            | (s', Err Panicked) => (s', TaskPanic)
            end
        end
    end.

(** One turn of the loop: a line (whose answer is written or not), or the end of the connection by
    end of file, a read error or the idle timeout. *)
Inductive Turn : Type := GotLine (e : Env) (line : string) (write_ok : bool) | Closed.

Fixpoint handle_connection (turns : list Turn) (s : AppState) : AppState * list Value :=
  match turns with
  | [] | Closed :: _ => (s, [])
  | GotLine e line write_ok :: rest =>
      match handle_line e line s with
      | (s', Silent) => handle_connection rest s'
      | (s', TaskPanic) => (s', [])
      | (s', Answer v) =>
          if write_ok then let '(s'', out) := handle_connection rest s' in (s'', v :: out) else (s', [])
      end
  end.
End wire.

(** * Runs of the daemon *)

(** A request served, with its outcome. *)
Record Event : Type := mkEvent {
  ev_env : Env; ev_method : string; ev_params : Value; ev_result : result Reply Failure;
}.
Definition serve_one (acc : AppState * list Event) (x : Env * string * Value) : AppState * list Event :=
  let '(e, name, p) := x in
  let '(s', r) := dispatch e name p acc.1 in (s', acc.2 ++ [mkEvent e name p r]).
Definition serve (reqs : list (Env * string * Value)) : AppState * list Event :=
  foldl serve_one (new_state, []) reqs.

(** A property of all handlers that only read parameters before they touch the state. *)
Definition leads {A} (P : AppState → Prop) (Q : AppState → AppState * result A Failure → Prop)
    (m : stm AppState Failure A) : Prop := ∀ s, P s → Q s (m s).

Lemma leads_try {A B} P Q (r : result A Failure) (k : A → stm AppState Failure B) :
  (∀ s f, r = Err f → P s → Q s (s, Err f)) → (∀ a, r = Ok a → leads P Q (k a)) → leads P Q (st_bind k (st_lift r)).
Proof. intros He Hk s Hs. unfold st_bind, st_lift. destruct r as [a|f]; [by apply Hk|by apply He]. Qed.

Lemma leads_lift {A B} P Q (r : result A Failure) (k : A → stm AppState Failure B) :
  (∀ s f, P s → Q s (s, Err f)) → (∀ a, r = Ok a → leads P Q (k a)) → leads P Q (st_bind k (st_lift r)).
Proof. intros He. apply leads_try. intros s f _. apply He. Qed.

(** A request that fails, or whose task panics, leaves the state as it was. *)
Lemma failure_keeps_state e name p :
  leads (λ _, True) (λ s o, is_ok o.2 = false → o.1 = s) (dispatch e name p).
Proof.
  unfold dispatch. destruct (method_of name) as [[]|]; try done;
    repeat (apply leads_lift; [done|intros ? _]); intros s _; cbn; try done; repeat case_match; done.
Qed.

(** ** Sessions *)

(** The ids of sessions come from the UUIDs used, and the process index is the inverse of the
    sessions' process ids. *)
Record sessions_ok (used : list string) (s : AppState) : Prop := {
  so_keys id x : sessions s !! id = Some x → session_id x = id ∧ ∃ u, u ∈ used ∧ id = "sess_" +:+ u;
  so_index p id : sessions_by_pid s !! p = Some id ↔ ∃ x, sessions s !! id = Some x ∧ pid x = p;
}.

Lemma sessions_ok_frame used s s' :
  sessions s' = sessions s → sessions_by_pid s' = sessions_by_pid s → sessions_ok used s → sessions_ok used s'.
Proof. intros E1 E2 []. by split; rewrite E1, ?E2. Qed.

Lemma sessions_ok_more used u s : sessions_ok used s → sessions_ok (used ++ [u]) s.
Proof.
  intros [Hk Hi]. split; [|done]. intros id x Hx. destruct (Hk id x Hx) as (? & v & ? & ?).
  split; [done|]. exists v. set_solver.
Qed.

(** A session under a new id and a process id without one. *)
Lemma sessions_ok_insert used e p t wd caps s :
  sessions_ok used s → uuid e ∉ used → sessions_by_pid s !! p = None →
  sessions_ok (used ++ [uuid e]) (insert_new_session e p t wd caps s).1.
Proof.
  intros [Hk Hi] Hu Hp. set (id := "sess_" +:+ uuid e).
  assert (Hid : sessions s !! id = None).
  { apply eq_None_not_Some. intros [x Hx]. destruct (Hk _ _ Hx) as (_ & u & Hin & Eu).
    apply Hu. unfold id in Eu. by apply (inj (String.append "sess_")) in Eu as ->. }
  split; cbn; fold id.
  - intros i x [[<- <-]|[Hne Hx]]%lookup_insert_Some; [split; [done|]; exists (uuid e); set_solver|].
    destruct (Hk i x Hx) as (? & u & ? & ?). split; [done|]. exists u. set_solver.
  - intros p' i. rewrite lookup_insert_Some, Hi. split.
    + intros [[<- <-]|[Hne (x & Hx & Hpx)]]; [eexists; by rewrite lookup_insert_eq|].
      exists x. split; [|done]. rewrite lookup_insert_ne; [done|]. congruence.
    + intros (x & [[<- <-]|[Hne Hx]]%lookup_insert_Some & <-); [by left|]. right. split; [|by eauto].
      intros ->. assert (sessions_by_pid s !! pid x = Some i) by (apply Hi; eauto). congruence.
Qed.

(** A heartbeat. *)
Lemma sessions_ok_beat used t id x s :
  sessions_ok used s → sessions s !! id = Some x →
  sessions_ok used (with_sessions (<[id := set_session_heartbeat t x]>) s).
Proof.
  intros [Hk Hi] Hx. split; cbn.
  - intros i y [[<- <-]|[Hne Hy]]%lookup_insert_Some; eauto. by apply (Hk id x).
  - intros p i. rewrite Hi. destruct (decide (i = id)) as [->|Hne].
    + rewrite lookup_insert_eq, Hx. split; intros (y & [= <-] & <-); eauto.
    + by rewrite lookup_insert_ne.
Qed.

Lemma sessions_ok_delete used id x s :
  sessions_ok used s → sessions s !! id = Some x →
  sessions_ok used (mkState (delete id (sessions s)) (delete (pid x) (sessions_by_pid s))
    (reservations s) (live_state s) (inbox s)).
Proof.
  intros [Hk Hi] Hx. split; cbn.
  - intros i y [_ Hy]%lookup_delete_Some. eauto.
  - intros p i. rewrite lookup_delete_Some, Hi. split.
    + intros [Hp (y & Hy & <-)]. exists y. rewrite lookup_delete_ne; [done|]. congruence.
    + intros (y & [Hne Hy]%lookup_delete_Some & <-). split; [|by eauto]. intros Ep.
      assert (H1 : sessions_by_pid s !! pid x = Some id) by (apply Hi; eauto).
      assert (H2 : sessions_by_pid s !! pid y = Some i) by (apply Hi; eauto). congruence.
Qed.

Lemma dispatch_sessions_ok used e name p s :
  uuid e ∉ used → sessions_ok used s → sessions_ok (used ++ [uuid e]) (dispatch e name p s).1.
Proof.
  intros Hu Hs. revert s Hs. change (leads (sessions_ok used) (λ _ o, sessions_ok (used ++ [uuid e]) o.1) (dispatch e name p)).
  unfold dispatch. destruct (method_of name) as [[]|];
    try (repeat (apply leads_lift; [intros; by apply sessions_ok_more|intros ? _]);
         intros s Hs; apply (sessions_ok_more _ (uuid e)) in Hs; cbn;
         repeat case_match; first [by eauto using sessions_ok_beat, sessions_ok_delete|by apply (sessions_ok_frame _ s)]).
  apply leads_lift; [intros; by apply sessions_ok_more|intros n _ s Hs].
  cbv zeta beta. destruct (sessions_by_pid s !! (n mod 2 ^ 32)) as [id|] eqn:Ep; [|by apply sessions_ok_insert].
  destruct (proj1 (so_index _ _ Hs _ _) Ep) as (x & Hx & _). rewrite Hx.
  by apply sessions_ok_beat; [apply sessions_ok_more|].
Qed.

Definition uuids (reqs : list (Env * string * Value)) : list string := (λ x, uuid x.1.1) <$> reqs.

Lemma serve_snoc reqs e name p :
  serve (reqs ++ [(e, name, p)]) =
  ((dispatch e name p (serve reqs).1).1,
   (serve reqs).2 ++ [mkEvent e name p (dispatch e name p (serve reqs).1).2]).
Proof. unfold serve. rewrite foldl_app. cbn. by destruct (dispatch _ _ _ _). Qed.

Lemma uuids_snoc reqs e name p :
  NoDup (uuids (reqs ++ [(e, name, p)])) → NoDup (uuids reqs) ∧ uuid e ∉ uuids reqs.
Proof. unfold uuids. rewrite fmap_app, NoDup_app. cbn. set_solver. Qed.

Lemma serve_sessions_ok reqs : NoDup (uuids reqs) → sessions_ok (uuids reqs) (serve reqs).1.
Proof.
  induction reqs as [|[[e name] p] reqs IH] using rev_ind.
  - intros _. split; cbn; [done|]. intros p id. split; [done|]. by intros (x & ? & _).
  - intros [Hnd Hu]%uuids_snoc. rewrite serve_snoc. unfold uuids. rewrite fmap_app.
    by apply dispatch_sessions_ok, IH.
Qed.

(** C23: whatever requests the daemon serves, its process index and its sessions agree: a process has
    at most one session, and the index leads to it. *)
Theorem one_session_per_process reqs : NoDup (uuids reqs) →
  (∀ p id, sessions_by_pid (serve reqs).1 !! p = Some id ↔
     ∃ x, sessions (serve reqs).1 !! id = Some x ∧ session_id x = id ∧ pid x = p) ∧
  (∀ i j x y, sessions (serve reqs).1 !! i = Some x → sessions (serve reqs).1 !! j = Some y →
     pid x = pid y → i = j).
Proof.
  intros Hnd. destruct (serve_sessions_ok reqs Hnd) as [Hk Hi]. split.
  - intros p id. rewrite Hi. split; intros (x & Hx & Hp); exists x; [|naive_solver]. by destruct (Hk id x Hx).
  - intros i j x y Hx Hy E. assert (H1 : sessions_by_pid (serve reqs).1 !! pid x = Some i) by (apply Hi; eauto).
    assert (H2 : sessions_by_pid (serve reqs).1 !! pid y = Some j) by (apply Hi; eauto). congruence.
Qed.

(** ** Reservations *)

(** Which modes exclude each other, as the enumeration documents them: readers share, a writer
    excludes writers, and a hard lock excludes everybody. *)
Inductive excludes : ReservationMode → ReservationMode → Prop :=
| two_writers : excludes Write Write
| locked_first m : excludes Exclusive m
| locked_second m : excludes m Exclusive.
Lemma excludes_conflict m n : excludes m n → mode_conflicts m n = true.
Proof. intros H. destruct H as [|k|k]; [done|by destruct k|by destruct k]. Qed.
Lemma path_eqb_sym p q : path_eqb p q = path_eqb q p.
Proof. unfold path_eqb. apply bool_decide_ext. naive_solver. Qed.

(** Two reservations that exclude each other. *)
Definition clash (r1 r2 : Reservation) : Prop :=
  path_eqb (res_path r1) (res_path r2) = true ∧ holder r1 ≠ holder r2 ∧ excludes (mode r1) (mode r2).
#[local] Instance clash_sym : Symmetric clash.
Proof.
  intros r1 r2 (? & ? & H). split_and!; [by rewrite path_eqb_sym|done|].
  destruct H; constructor.
Qed.

(** The claim an answer granted without conflicts. *)
Definition clean_claim (r : result Reply Failure) : list string :=
  match r with Ok (RClaimed id []) => [id] | _ => [] end.
Definition clean_ids (evs : list Event) : list string := evs ≫= λ ev, clean_claim (ev_result ev).

Record claims_ok (used clean : list string) (t : Z) (s : AppState) : Prop := {
  co_keys id r : reservations s !! id = Some r → reservation_id r = id ∧ ∃ u, u ∈ used ∧ id = "resv_" +:+ u;
  co_clean id : id ∈ clean → ∃ u, u ∈ used ∧ id = "resv_" +:+ u;
  co_excl i j r1 r2 : i ∈ clean → j ∈ clean → reservations s !! i = Some r1 → reservations s !! j = Some r2 →
    clash r1 r2 → expires_at r1 ≤ t ∨ expires_at r2 ≤ t;
}.

Lemma claims_ok_frame used u clean t t' s s' :
  (∀ i r, reservations s' !! i = Some r → reservations s !! i = Some r) → t ≤ t' →
  claims_ok used clean t s → claims_ok (used ++ [u]) clean t' s'.
Proof.
  intros Hr Ht [Hk Hc He]. split.
  - intros id r Hx%Hr. destruct (Hk id r Hx) as (? & v & ? & ?). split; [done|]. exists v. set_solver.
  - intros id Hid. destruct (Hc id Hid) as (v & ? & ?). exists v. set_solver.
  - intros i j r1 r2 Hi Hj H1%Hr H2%Hr Hcl. destruct (He i j r1 r2 Hi Hj H1 H2 Hcl); lia.
Qed.

Section claim.
Context (iter_perm : ∀ A (m : gmap string A), iter m ≡ₚ map_to_list m).

Lemma elem_of_iter {A} (m : gmap string A) x : x ∈ (iter m).*2 ↔ ∃ k, m !! k = Some x.
Proof.
  rewrite (iter_perm A m), list_elem_of_fmap. split.
  - intros ([k y] & -> & Hk%elem_of_map_to_list). eauto.
  - intros [k Hk]. exists (k, x). split; [done|]. by apply elem_of_map_to_list.
Qed.

(** A new claim whose answer names every live reservation that blocks it. *)
Lemma claims_ok_insert used clean t e sid path m expires s :
  claims_ok used clean t s → uuid e ∉ used → t ≤ now e →
  let rid := "resv_" +:+ uuid e in
  let r := mkReservation rid sid path m (now e) expires in
  let conflicts := filter (λ r, blocks (now e) sid path m r = true) (iter (reservations s)).*2 in
  claims_ok (used ++ [uuid e]) (clean ++ clean_claim (Ok (RClaimed rid conflicts))) (now e)
    (with_reservations (<[rid := r]>) s).
Proof.
  intros [Hk Hc He] Hu Ht rid r conflicts.
  assert (Hnew : rid ∉ clean).
  { intros (u & Hin & Eu)%Hc. apply Hu. by apply (inj (String.append "resv_")) in Eu as ->. }
  assert (Hfree : conflicts = [] → ∀ j r2, reservations s !! j = Some r2 → clash r r2 → expires_at r2 ≤ now e).
  { intros Hnil j r2 Hj (Hp & Hh & Hm%excludes_conflict). destruct (decide (expires_at r2 ≤ now e)) as [|Hlive]; [done|exfalso].
    assert (r2 ∈ conflicts); [|rewrite Hnil in *; set_solver]. apply list_elem_of_filter. split; [|by apply elem_of_iter; eauto].
    unfold blocks. cbn in *. rewrite path_eqb_sym, Hp, Hm, (bool_decide_false (holder r2 = sid)) by congruence.
    cbn. rewrite andb_true_r. by apply Z.ltb_lt; lia. }
  split; cbn.
  - intros id r' [[<- <-]|[Hne Hx]]%lookup_insert_Some; [split; [done|]; exists (uuid e); set_solver|].
    destruct (Hk id r' Hx) as (? & v & ? & ?). split; [done|]. exists v. set_solver.
  - intros id [Hid|Hid]%elem_of_app; [destruct (Hc id Hid) as (v & ? & ?); exists v; set_solver|].
    exists (uuid e). destruct conflicts; set_solver.
  - assert (Hcl : ∀ i, i ∈ clean ++ match conflicts with [] => [rid] | _ => [] end →
      i ∈ clean ∧ i ≠ rid ∨ i = rid ∧ conflicts = []).
    { intros i [Hi|Hi]%elem_of_app; [left; split; [done|]; by intros ->|]. right. destruct conflicts; set_solver. }
    intros i j r1 r2 [[Hi Hni]|[-> Hn]]%Hcl [[Hj Hnj]|[-> Hn']]%Hcl;
      rewrite ?lookup_insert_eq, ?lookup_insert_ne by done; intros H1 H2 Hclash; simplify_eq.
    + destruct (He i j r1 r2 Hi Hj H1 H2 Hclash); lia.
    + left. apply (Hfree Hn' i); [done|by symmetry].
    + right. by apply (Hfree Hn j).
    + by destruct Hclash as (_ & [] & _).
Qed.

Lemma claims_same used u clean t t' s s' (r : result Reply Failure) :
  reservations s' = reservations s → t ≤ t' → clean_claim r = [] →
  claims_ok used clean t s → claims_ok (used ++ [u]) (clean ++ clean_claim r) t' s'.
Proof. intros Hr Ht ->. rewrite app_nil_r. apply claims_ok_frame; [by rewrite Hr|done]. Qed.

Lemma dispatch_claims_ok used clean t e name p s :
  uuid e ∉ used → t ≤ now e → claims_ok used clean t s →
  claims_ok (used ++ [uuid e]) (clean ++ clean_claim (dispatch e name p s).2) (now e) (dispatch e name p s).1.
Proof.
  intros Hu Ht Hs. revert s Hs.
  change (leads (claims_ok used clean t)
    (λ _ o, claims_ok (used ++ [uuid e]) (clean ++ clean_claim o.2) (now e) o.1) (dispatch e name p)).
  unfold dispatch. destruct (method_of name) as [[]|];
    repeat (apply leads_lift; [intros s f Hs; by apply (claims_same _ _ _ t _ s)|intros ? _]);
    intros s Hs; unfold insert_new_session; cbn; repeat case_match; cbn;
    rewrite ?app_nil_r; try by apply (claims_ok_frame _ _ _ t _ s).
  - by eapply claims_ok_insert.
  - eapply claims_ok_frame; [|done..]. cbn. by intros ?? [_ ?]%lookup_delete_Some.
Qed.

Definition times (reqs : list (Env * string * Value)) : list Z := (λ x, now x.1.1) <$> reqs.

Lemma serve_claims_ok reqs t :
  NoDup (uuids reqs) → StronglySorted Z.le (times reqs ++ [t]) →
  claims_ok (uuids reqs) (clean_ids (serve reqs).2) t (serve reqs).1.
Proof.
  revert t. induction reqs as [|[[e name] p] reqs IH] using rev_ind; intros t.
  - intros _ _. split; cbn; [done|set_solver|done].
  - intros [Hnd Hu]%uuids_snoc Hs. unfold times in Hs. rewrite fmap_app in Hs. cbn in Hs. fold (times reqs) in Hs.
    rewrite serve_snoc. cbn [fst snd]. unfold uuids, clean_ids. rewrite fmap_app, bind_app. cbn. rewrite app_nil_r.
    assert (Hle : now e ≤ t) by (apply (StronglySorted_app_1_elem_of _ _ _ (now e) t Hs); set_solver).
    pose proof (dispatch_claims_ok (uuids reqs) (clean_ids (serve reqs).2) (now e) e name p (serve reqs).1
      Hu (Z.le_refl _) (IH _ Hnd (StronglySorted_app_1_l _ _ _ Hs))) as [Hk Hc He].
    split; [exact Hk|exact Hc|]. intros i j r1 r2 Hi Hj H1 H2 Hcl. destruct (He i j r1 r2 Hi Hj H1 H2 Hcl); lia.
Qed.


(** A claim of a registered session is always granted: it adds one reservation for its path,
    mode and time, and its answer lists exactly the live reservations of other sessions on the path
    whose mode conflicts. *)
Theorem claim_reports_conflicts e p s s' rid conflicts :
  handle_reservation_claim e p s = (s', Ok (RClaimed rid conflicts)) →
  ∃ sid path m expires,
    str_field "session_id" p = Some sid ∧ str_field "path" p = Some path ∧
    parse_reservation_mode (default "write" (str_field "mode" p)) = Ok m ∧
    s' = with_reservations (<[rid := mkReservation rid sid path m (now e) expires]>) s ∧
    ∀ r, r ∈ conflicts ↔
      (∃ k, reservations s !! k = Some r) ∧ path_eqb (res_path r) path = true ∧ holder r ≠ sid ∧
      now e < expires_at r ∧ mode_conflicts m (mode r) = true.
Proof.
  unfold handle_reservation_claim, st_bind, st_lift, req_field, ok_or. intros H.
  destruct (str_field "session_id" p) as [sid|] eqn:E1; [|done].
  destruct (str_field "path" p) as [path|] eqn:E2; [|done].
  destruct (parse_reservation_mode _) as [m|] eqn:E3; [|done].
  destruct (add_secs _ _) as [expires|]; [|done]. destruct (sessions s !! sid); [|done].
  injection H as <- <- <-. exists sid, path, m, expires. split_and!; try done. intros r.
  rewrite list_elem_of_filter, elem_of_iter. unfold blocks.
  rewrite !andb_true_iff, negb_true_iff, bool_decide_eq_false, Z.ltb_lt. naive_solver.
Qed.
End claim.

(** ** The inbox *)

Lemma take_limit_split {A} limit (l : list A) : ∃ l1 l2, l = l1 ++ l2 ∧ take_limit limit l = l1.
Proof.
  unfold take_limit. destruct (limit =? 0); [exists l, []; by rewrite app_nil_r|].
  eexists _, _. split; [symmetry; apply take_drop|done].
Qed.

(** Messages that a list of ids with no repetition marks and returns. *)
Lemma mark_split (R U1 U2 : list InboxMessage) :
  NoDup (message_id <$> R ++ U1 ++ U2) →
  let ids := message_id <$> U1 in
  let marked := (λ m, if bool_decide (message_id m ∈ ids) then set_read true m else m) <$> R ++ U1 ++ U2 in
  marked = R ++ (set_read true <$> U1) ++ U2 ∧
  filter (λ m, message_id m ∈ ids) marked = set_read true <$> U1.
Proof.
  intros Hnd ids. rewrite !fmap_app, !NoDup_app in Hnd. destruct Hnd as (_ & HR & _ & HU & _).
  assert (HnR : ∀ m, m ∈ R → message_id m ∉ ids) by (intros m Hm Hi; apply (HR (message_id m)); set_solver).
  assert (HnU : ∀ m, m ∈ U2 → message_id m ∉ ids) by (intros m Hm Hi; apply (HU (message_id m)); set_solver).
  assert (Hmark : ((λ m, if bool_decide (message_id m ∈ ids) then set_read true m else m) <$> R ++ U1 ++ U2)
    = R ++ (set_read true <$> U1) ++ U2).
  { rewrite !fmap_app. f_equal; [|f_equal].
    - rewrite <- (list_fmap_id R) at 2. apply list_fmap_ext. intros i m Hm%list_elem_of_lookup_2.
      by rewrite bool_decide_false by auto.
    - apply list_fmap_ext. intros i m Hm%list_elem_of_lookup_2. rewrite bool_decide_true; [done|]. set_solver.
    - rewrite <- (list_fmap_id U2) at 2. apply list_fmap_ext. intros i m Hm%list_elem_of_lookup_2.
      by rewrite bool_decide_false by auto. }
  cbv zeta. rewrite Hmark. split; [done|]. rewrite !filter_app.
  rewrite (filter_none _ R), (filter_none _ U2), (filter_all _ (_ <$> U1));
    [by rewrite app_nil_r|apply Forall_forall; set_solver|by apply Forall_forall..].
Qed.

(** Messages of a request to post, and of an answer to list, that are for [sid]. *)
Definition posted_in (sid : string) (ev : Event) : list InboxMessage :=
  match method_of (ev_method ev), ev_result ev, message_of (ev_env ev) (ev_params ev) with
  | Some InboxPost, Ok _, Ok m => if bool_decide (to_session m = sid) then [m] else []
  | _, _, _ => []
  end.
Definition delivered_in (sid : string) (ev : Event) : list InboxMessage :=
  match method_of (ev_method ev), str_field "session_id" (ev_params ev), ev_result ev with
  | Some InboxList, Some k, Ok (RMessages l) => if bool_decide (k = sid) then l else []
  | _, _, _ => []
  end.
(** [sid]'s messages are only listed as unread, and nobody reads one of the messages [ids] by its
    id. *)
Definition lists_unread (sid : string) (ids : list string) (x : Env * string * Value) : Prop :=
  match method_of x.1.2 with
  | Some InboxRead => ∀ id, str_field "message_id" x.2 = Some id → id ∉ ids
  | Some InboxList => str_field "session_id" x.2 = Some sid → value_get "unread_only" x.2 ≫= as_bool = Some true
  | _ => True
  end.

(** The messages delivered so far are read and come first, the others are unread. *)
Definition inbox_ok (sid : string) (used : list string) (posted delivered : list InboxMessage) (s : AppState) : Prop :=
  ∃ R U, default [] (inbox s !! sid) = R ++ U ∧ Forall (λ m, is_read m = true) R ∧ Forall (λ m, is_read m = false) U ∧
    NoDup (message_id <$> R ++ U) ∧ (∀ m, m ∈ R ++ U → ∃ u, u ∈ used ∧ message_id m = "msg_" +:+ u) ∧
    set_read false <$> R ++ U = posted ∧ R = delivered.

Lemma inbox_ok_frame sid used u posted delivered s s' :
  inbox s' !! sid = inbox s !! sid → inbox_ok sid used posted delivered s → inbox_ok sid (used ++ [u]) posted delivered s'.
Proof.
  intros E (R & U & H1 & H2 & H3 & H4 & H5 & H6 & H7). exists R, U. rewrite E. split_and!; try done.
  intros m (v & Hv & ?)%H5. exists v. set_solver.
Qed.

Lemma inbox_ok_post sid used e p m posted delivered s :
  message_of e p = Ok m → to_session m = sid → uuid e ∉ used → inbox_ok sid used posted delivered s →
  inbox_ok sid (used ++ [uuid e]) (posted ++ [m]) delivered
    (with_inbox (λ b, <[sid := default [] (b !! sid) ++ [m]]> b) s).
Proof.
  intros Em Et Hu (R & U & H1 & H2 & H3 & H4 & H5 & H6 & H7).
  assert (Hm : message_id m = "msg_" +:+ uuid e ∧ set_read false m = m ∧ is_read m = false).
  { unfold message_of in Em. repeat case_match; by simplify_eq. }
  destruct Hm as (Hid & Hset & Hr). exists R, (U ++ [m]). cbn. rewrite lookup_insert_eq. cbn. rewrite H1, !app_assoc.
  split_and!; [done|done| | | | |done].
  - apply Forall_app. by repeat constructor.
  - rewrite fmap_app, NoDup_app. split_and!; [done| |by apply NoDup_singleton].
    intros i (m' & -> & Hm')%list_elem_of_fmap Heq%list_elem_of_singleton. destruct (H5 m' Hm') as (u & Hin & E).
    rewrite Heq, Hid in E. by apply (inj (String.append "msg_")) in E as <-.
  - intros m' [(u & ? & ?)%H5| ->%list_elem_of_singleton]%elem_of_app; [exists u|exists (uuid e)]; set_solver.
  - rewrite fmap_app, H6. cbn. by rewrite Hset.
Qed.

Lemma inbox_ok_list sid used p posted delivered s s' r :
  str_field "session_id" p = Some sid → value_get "unread_only" p ≫= as_bool = Some true →
  handle_inbox_list p s = (s', r) → inbox_ok sid used posted delivered s →
  ∃ l, r = Ok (RMessages l) ∧ inbox_ok sid used posted (delivered ++ l) s'.
Proof.
  unfold handle_inbox_list, req_field. intros Esid Eu Hl (R & U & H1 & H2 & H3 & H4 & H5 & H6 & <-).
  rewrite Esid in Hl. cbn in Hl. rewrite Eu in Hl. cbn [default negb orb] in Hl. unfold st_bind in Hl. cbn in Hl.
  rewrite H1, filter_app, filter_none, filter_all in Hl; cycle 1.
  { by eapply Forall_impl; [exact H3|]; intros m ->. }
  { by eapply Forall_impl; [exact H2|]; intros m ->. }
  cbn [app] in Hl. destruct (take_limit_split (default 50 (value_get "limit" p ≫= JsonValue.as_u64)) U) as (U1 & U2 & EU & Ek).
  rewrite Ek in Hl. clear Ek. subst U. destruct (mark_split R U1 U2 H4) as [Hm Hf]. cbv zeta in Hm, Hf.
  rewrite Hf, Hm in Hl. injection Hl as <- <-. eexists. split; [done|].
  exists (R ++ (set_read true <$> U1)), U2. cbn. rewrite lookup_insert_eq. cbn. rewrite app_assoc.
  assert (Hid : message_id <$> (R ++ (set_read true <$> U1)) ++ U2 = message_id <$> R ++ U1 ++ U2).
  { rewrite !fmap_app, <- list_fmap_compose, app_assoc. done. }
  apply Forall_app in H3 as [_ H3]. split_and!; try done.
  - apply Forall_app. split; [done|]. by apply Forall_fmap, Forall_true.
  - by rewrite Hid.
  - intros m Hin. apply (list_elem_of_fmap_2 message_id) in Hin. rewrite Hid in Hin.
    apply list_elem_of_fmap in Hin as (m' & -> & Hin). by apply H5.
  - rewrite <- H6, !fmap_app, <- list_fmap_compose, app_assoc. done.
Qed.

(** Only the inbox methods touch the inbox. *)
Lemma dispatch_inbox_frame e name p s :
  match method_of name with Some InboxPost | Some InboxList | Some InboxRead => False | _ => True end →
  inbox (dispatch e name p s).1 = inbox s.
Proof.
  intros Hm. generalize I. revert s. change (leads (λ _, True) (λ s o, inbox o.1 = inbox s) (dispatch e name p)).
  unfold dispatch. destruct (method_of name) as [[]|]; try done;
    repeat (apply leads_lift; [done|intros ? _]); intros s _; unfold insert_new_session; cbn; repeat case_match; done.
Qed.

Section inbox.
Context (iter_perm : ∀ A (m : gmap string A), iter m ≡ₚ map_to_list m).

Lemma mark_first_in id l l' m : mark_first id l = Some (l', m) → id ∈ message_id <$> l.
Proof.
  revert l'. induction l as [|x l IH]; intros l' H; [done|]. cbn in H. case_bool_decide as E; [set_solver|].
  destruct (mark_first id l) as [[l2 r]|]; [|done]. cbn in H. injection H as _ ->.
  specialize (IH l2 eq_refl). set_solver.
Qed.

(** Reading a message that is not in a box leaves that box alone. *)
Lemma read_elsewhere id sid (boxes : list (string * list InboxMessage)) b k l m :
  (sid, b) ∈ boxes ∨ sid ∉ boxes.*1 → NoDup boxes.*1 → id ∉ message_id <$> b →
  read_in id boxes = Some (k, l, m) → k ≠ sid.
Proof.
  intros Hin Hnd Hid H ->.
  assert (∃ l0, (sid, l0) ∈ boxes ∧ id ∈ message_id <$> l0) as (l0 & Hl0 & Hid0).
  { clear Hin Hnd Hid. induction boxes as [|[k0 l0] boxes IH]; [done|]. cbn in H.
    destruct (mark_first id l0) as [[l1 m1]|] eqn:E.
    - injection H as -> -> ->. exists l0. split; [by left|]. by eapply mark_first_in.
    - destruct (IH H) as (l1 & ? & ?). exists l1. split; [by right|done]. }
  destruct Hin as [Hin|Hout].
  - apply Hid. replace b with l0; [done|]. clear -Hnd Hl0 Hin.
    apply list_elem_of_lookup in Hl0 as [i Hi], Hin as [j Hj].
    assert (i = j) as -> by (eapply (NoDup_lookup boxes.*1 i j sid); [done|by rewrite list_lookup_fmap, Hi|by rewrite list_lookup_fmap, Hj]).
    congruence.
  - apply Hout. by apply (list_elem_of_fmap_2 fst) in Hl0.
Qed.

Lemma inbox_read_frame sid used posted delivered p s :
  (∀ id, str_field "message_id" p = Some id → id ∉ message_id <$> posted) →
  inbox_ok sid used posted delivered s →
  inbox (handle_inbox_read p s).1 !! sid = inbox s !! sid.
Proof.
  intros Hid (R & U & H1 & _ & _ & _ & _ & H6 & _). unfold handle_inbox_read, st_bind, st_lift, req_field, ok_or.
  destruct (str_field "message_id" p) as [id|]; [|done]. cbn.
  destruct (read_in id (iter (inbox s))) as [[[k l] m]|] eqn:E; [|done]. cbn. apply lookup_insert_ne.
  specialize (Hid id eq_refl). rewrite <- H6, <- list_fmap_compose in Hid.
  eapply (read_elsewhere id sid _ (default [] (inbox s !! sid))); [| |by rewrite H1|exact E].
  - rewrite (iter_perm _ (inbox s)). destruct (inbox s !! sid) as [b|] eqn:Eb.
    + left. by apply elem_of_map_to_list.
    + right. intros ([k' b] & -> & Hb%elem_of_map_to_list)%list_elem_of_fmap. cbn in Eb. congruence.
  - rewrite (iter_perm _ (inbox s)). apply NoDup_fst_map_to_list.
Qed.

Lemma dispatch_inbox_ok sid used e name p posted delivered s :
  lists_unread sid (message_id <$> posted) (e, name, p) → uuid e ∉ used → inbox_ok sid used posted delivered s →
  let ev := mkEvent e name p (dispatch e name p s).2 in
  inbox_ok sid (used ++ [uuid e]) (posted ++ posted_in sid ev) (delivered ++ delivered_in sid ev) (dispatch e name p s).1.
Proof.
  intros Hl Hu Hs. unfold lists_unread, posted_in, delivered_in in *. cbn [ev_method ev_env ev_params ev_result fst snd] in *.
  pose proof (dispatch_inbox_frame e name p s) as Hf.
  destruct (method_of name) as [[]|] eqn:Em;
    try (cbn; rewrite !app_nil_r; apply (inbox_ok_frame _ _ _ _ _ s); [by rewrite Hf|done]);
    try done; unfold dispatch; rewrite Em, ?app_nil_r; clear Hf.
  - unfold handle_inbox_post, st_bind, st_lift. destruct (message_of e p) as [m|f] eqn:Emsg;
      cbn; rewrite ?app_nil_r; [|by apply (inbox_ok_frame _ _ _ _ _ s)].
    destruct (sessions s !! from_session m); cbn; rewrite ?app_nil_r; [|by apply (inbox_ok_frame _ _ _ _ _ s)].
    case_bool_decide as Et; [by subst sid; eapply inbox_ok_post|]. rewrite app_nil_r.
    apply (inbox_ok_frame _ _ _ _ _ s); [|done]. cbn. by apply lookup_insert_ne.
  - destruct (handle_inbox_list p s) as [s' r] eqn:El. cbn [fst snd].
    destruct (str_field "session_id" p) as [k|] eqn:Ek; cycle 1.
    { unfold handle_inbox_list, req_field in El. rewrite Ek in El. injection El as <- <-. rewrite app_nil_r.
      by apply (inbox_ok_frame _ _ _ _ _ s). }
    destruct (decide (k = sid)) as [->|Hne].
    + destruct (inbox_ok_list sid used p posted delivered s s' r) as (l & -> & Hok); auto.
      rewrite bool_decide_true by done. by apply (inbox_ok_frame _ _ _ _ _ s').
    + unfold handle_inbox_list, req_field, st_bind in El. rewrite Ek in El. cbn in El. injection El as <- <-.
      rewrite bool_decide_false, app_nil_r by done. apply (inbox_ok_frame _ _ _ _ _ s); [|done]. cbn. by apply lookup_insert_ne.
  - apply (inbox_ok_frame _ _ _ _ _ s); [|done]. by eapply inbox_read_frame.
Qed.

(** C25: a message is delivered once, in order. For a session whose messages are only listed as
    unread, and of whose messages nobody, whoever it is, reads one by its id, the lists it was given,
    one after the other, followed by what is still unread, are the messages posted to it. *)
Theorem unread_exactly_once sid reqs :
  NoDup (uuids reqs) →
  Forall (lists_unread sid (message_id <$> (serve reqs).2 ≫= posted_in sid)) reqs →
  let '(s, evs) := serve reqs in
  set_read false <$> (evs ≫= delivered_in sid) ++ filter (λ m, is_read m = false) (default [] (inbox s !! sid))
  = evs ≫= posted_in sid.
Proof.
  intros Hnd Hp. assert (inbox_ok sid (uuids reqs) ((serve reqs).2 ≫= posted_in sid)
    ((serve reqs).2 ≫= delivered_in sid) (serve reqs).1) as (R & U & H1 & H2 & H3 & _ & _ & H6 & H7).
  { set (ids := message_id <$> (serve reqs).2 ≫= posted_in sid) in Hp.
    assert (message_id <$> (serve reqs).2 ≫= posted_in sid ⊆ ids) as Hsub by done. clearbody ids.
    induction reqs as [|[[e name] p] reqs IH] using rev_ind.
    - exists [], []. split_and!; try done. set_solver.
    - apply uuids_snoc in Hnd as [Hnd Hu]. apply Forall_app in Hp as [Hp [Hx _]%Forall_cons].
      rewrite serve_snoc in Hsub |- *. cbn [fst snd] in *. unfold uuids.
      rewrite fmap_app, !bind_app. rewrite bind_app, fmap_app in Hsub. cbn [mbind list_bind fmap list_fmap].
      rewrite !app_nil_r. apply dispatch_inbox_ok; [|done|apply IH; [done|done|set_solver]].
      unfold lists_unread in *. destruct (method_of _) as [[]|]; try done.
      intros id Hid. specialize (Hx id Hid). set_solver. }
  destruct (serve reqs) as [s evs]. cbn in *. rewrite H1, <- H6, <- H7, filter_app, (filter_none _ R), (filter_all _ U); try done.
  by eapply Forall_impl; [exact H2|]; intros m ->.
Qed.
End inbox.

(** ** Connections *)

Section connections.
Variable parse_request : string → result JsonRpcRequest string.
Variable rfc3339 : Z → string.

(** The id the answer to a line carries; a blank line and a notification have none. *)
Definition answer_id (turn : Turn) : option Value :=
  match turn with
  | Closed => None
  | GotLine _ line _ =>
      let trimmed := trim line in
      if str_is_empty trimmed then None
      else if MAX_LINE_BYTES <? Z.of_nat (String.length trimmed) then Some (Num (PosInt 0))
      else match parse_request trimmed with
           | Err _ => Some Null
           | Ok req => rpc_id_to_value <$> rpc_id req
           end
  end.

(** Reading a parameter does not panic. *)
Lemma parse_word_no_panic {A} what (table : list (string * A)) w : parse_word what table w ≠ Err Panicked.
Proof. unfold parse_word. by case_match. Qed.
Lemma req_field_no_panic k p : req_field k p ≠ Err Panicked.
Proof. unfold req_field, ok_or. by case_match. Qed.
Lemma message_of_no_panic e p : message_of e p ≠ Err Panicked.
Proof.
  unfold message_of. pose proof (req_field_no_panic "from_session" p). pose proof (req_field_no_panic "to_session" p).
  assert (parse_priority (default "normal" (str_field "priority" p)) ≠ Err Panicked) by apply parse_word_no_panic.
  repeat case_match; congruence.
Qed.

Lemma panic_only_by_clock e name p s :
  (dispatch e name p s).2 = Err Panicked → ∃ t n, add_secs t n = None.
Proof.
  generalize I. revert s.
  change (leads (λ _, True) (λ _ o, o.2 = Err Panicked → ∃ t n, add_secs t n = None) (dispatch e name p)).
  unfold dispatch. destruct (method_of name) as [[]|]; try done;
    repeat (apply leads_try; [intros s f Hf _ [= ->];
      first [by apply req_field_no_panic in Hf|by apply parse_word_no_panic in Hf|by apply message_of_no_panic in Hf
            |unfold ok_or in Hf; case_match; by eauto]|intros ? _]);
    intros s _; cbn; repeat case_match; done.
Qed.

Lemma handle_line_id e line ok s :
  match (handle_line parse_request rfc3339 e line s).2 with
  | Silent => answer_id (GotLine e line ok) = None
  | Answer v => ∃ i, value_get "id" v = Some i ∧ answer_id (GotLine e line ok) = Some i
  | TaskPanic => (∃ t n, add_secs t n = None) ∧ is_Some (answer_id (GotLine e line ok))
  end.
Proof.
  unfold handle_line, answer_id. destruct (str_is_empty _); [done|]. destruct (_ <? _); [by eexists|].
  destruct (parse_request _) as [req|why]; [|by eexists]. destruct (rpc_id req) as [id|]; [|done].
  pose proof (panic_only_by_clock e (rpc_method req) (rpc_params req) s) as Hp.
  destruct (dispatch e (rpc_method req) (rpc_params req) s) as [s' [r|[err|]]]; [by eexists|by eexists|].
  split; [by apply Hp|done].
Qed.

(** A connection answers its requests in order: the ids of the answers it writes are those of
    the lines it was sent, notifications and blank lines skipped, up to where a write fails, the
    connection ends or its task panics; without any of these, every line is answered. *)
Theorem connection_answers_in_order turns s :
  let out := (handle_connection parse_request rfc3339 turns s).2 in
  let ids := omap (value_get "id") out in
  length ids = length out ∧ ids `prefix_of` omap answer_id turns ∧
  (Forall (λ t, match t with GotLine _ _ ok => ok = true | Closed => False end) turns →
   (∀ t n, is_Some (add_secs t n)) → ids = omap answer_id turns).
Proof.
  cbv zeta. revert s. induction turns as [|[e line ok|] turns IH]; intros s; [done| |].
  2:{ split_and!; [done|apply prefix_nil|]. by intros [[] _]%Forall_cons. }
  cbn [handle_connection omap list_omap]. pose proof (handle_line_id e line ok s) as Hid.
  destruct (handle_line parse_request rfc3339 e line s) as [s' [|v|]]; cbn [snd] in Hid.
  - rewrite Hid. destruct (IH s') as (? & ? & Hall). split_and!; try done. intros [_ Hok]%Forall_cons. by apply Hall.
  - destruct Hid as (i & Hv & ->). specialize (IH s'). destruct ok; cycle 1.
    { split_and!; [done|apply prefix_nil|]. by intros [? _]%Forall_cons. }
    destruct (handle_connection parse_request rfc3339 turns s') as [s'' out]. cbn in *. rewrite Hv. cbn. destruct IH as (Hlen & Hpre & Hall).
    split_and!; [by f_equal|by apply prefix_cons|]. intros [_ Hok]%Forall_cons Hs. f_equal. by apply Hall.
  - destruct Hid as [(t & n & Hn) [v ->]]. split_and!; [done|apply prefix_nil|].
    intros _ Hs. specialize (Hs t n). rewrite Hn in Hs. by destruct Hs.
Qed.
End connections.

(** Deregistering a session leaves its reservations, its live state and its inbox in place. *)
Lemma deregister_keeps_claims p s :
  let s' := (handle_session_deregister p s).1 in
  reservations s' = reservations s ∧ live_state s' = live_state s ∧ inbox s' = inbox s.
Proof.
  unfold handle_session_deregister, st_bind, st_lift. destruct (req_field _ _); [|done]. by destruct (sessions s !! _).
Qed.

(** A registration of a known process changes nothing but the heartbeat of its session. *)
Lemma register_again e p n id x s :
  value_get "pid" p ≫= JsonValue.as_u64 = Some n → sessions_by_pid s !! (n mod 2 ^ 32) = Some id →
  sessions s !! id = Some x →
  handle_session_register e p s =
  (with_sessions (<[id := set_session_heartbeat (now e) x]>) s, Ok (RRegistered id)).
Proof. intros Hp Hi Hx. unfold handle_session_register. rewrite Hp. unfold st_bind. cbn. by rewrite Hi, Hx. Qed.

(** A lifetime of 2^63 seconds or more is taken for a negative one. *)
Lemma long_ttl_negative n : 2 ^ 63 ≤ n < 2 ^ 64 → as_i64 n < 0.
Proof. intros H. unfold as_i64. rewrite (proj2 (Z.ltb_ge _ _)) by lia. lia. Qed.
End daemon.

(** * A concrete daemon *)

Module DemoDaemon.
Definition iter A (m : gmap string A) : list (string * A) := map_to_list m.
Definition add_secs (t n : Z) : option Z := Some (t + n * 1000000000).
Lemma iter_perm A (m : gmap string A) : iter A m ≡ₚ map_to_list m.
Proof. done. Qed.

Definition register (t : Z) (u : string) (p : Z) : Env * string * Value :=
  (mkEnv t u, "session.register", Obj [("pid", Num (PosInt p))]).
Definition claim (t : Z) (u sid m : string) : Env * string * Value :=
  (mkEnv t u, "reservation.claim", Obj [("session_id", Str sid); ("path", Str "src/lib.rs"); ("mode", Str m)]).
Definition post (t : Z) (u text : string) : Env * string * Value :=
  (mkEnv t u, "inbox.post", Obj [("from_session", Str "sess_a"); ("to_session", Str "sess_b"); ("body", Str text)]).
Definition unread (t : Z) (u : string) (limit : Z) : Env * string * Value :=
  (mkEnv t u, "inbox.list", Obj [("session_id", Str "sess_b"); ("unread_only", Bool true); ("limit", Num (PosInt limit))]).
Definition two : list (Env * string * Value) := [register 0 "a" 1; register 1 "b" 2].

Ltac nodup := apply (bool_decide_unpack _); vm_compute; exact I.

(** Process 1 registers twice and keeps its session. *)
Lemma one_session_per_process_witness :
  ∃ x, sessions (serve iter add_secs (two ++ [register 2 "c" 1])).1 !! "sess_a" = Some x ∧
       session_id x = "sess_a" ∧ pid x = 1.
Proof.
  apply (one_session_per_process iter add_secs (two ++ [register 2 "c" 1]) ltac:(nodup)). by vm_compute.
Defined.

(** A writer and a reader of one file, neither told of a conflict. *)
Definition readers : list (Env * string * Value) := two ++ [claim 2 "c" "sess_a" "write"; claim 3 "d" "sess_b" "read"].

(** Three messages, listed two at a time; meanwhile the sender gets one too and reads it by its id. *)
Definition read_by_id (t : Z) (u id : string) : Env * string * Value :=
  (mkEnv t u, "inbox.read", Obj [("session_id", Str "sess_a"); ("message_id", Str id)]).
Definition to_itself : Env * string * Value :=
  (mkEnv 6 "g", "inbox.post", Obj [("from_session", Str "sess_a"); ("to_session", Str "sess_a"); ("body", Str "note")]).
Definition mail : list (Env * string * Value) :=
  two ++ [post 2 "c" "one"; post 3 "d" "two"; unread 4 "e" 2; post 5 "f" "three"; to_itself; read_by_id 7 "h" "msg_g"].
Lemma unread_exactly_once_witness :
  body <$> ((serve iter add_secs mail).2 ≫= posted_in "sess_b") = ["one"; "two"; "three"] ∧
  let '(s, evs) := serve iter add_secs mail in
  set_read false <$> (evs ≫= delivered_in "sess_b") ++ filter (λ m, is_read m = false) (default [] (inbox s !! "sess_b"))
  = evs ≫= posted_in "sess_b".
Proof.
  split; [by vm_compute|]. apply (unread_exactly_once iter add_secs iter_perm "sess_b" mail); [nodup|].
  assert (message_id <$> (serve iter add_secs mail).2 ≫= posted_in "sess_b" = ["msg_c"; "msg_d"; "msg_f"]) as ->
    by (vm_compute; reflexivity).
  repeat constructor. intros id [= <-]. by apply (bool_decide_unpack _).
Defined.

(** Any session can read a message of another by its id, which is then never listed as unread. *)
Example read_by_another_suppresses_delivery :
  let '(s, evs) := serve iter add_secs (two ++ [post 2 "c" "one"; read_by_id 3 "d" "msg_c"; unread 4 "e" 50]) in
  (body <$> (evs ≫= posted_in "sess_b"), body <$> (evs ≫= delivered_in "sess_b")) = (["one"], []).
Proof. by vm_compute. Qed.

(** Two sessions that hold an exclusive reservation of one file at once: the second was told of the
    first and was granted all the same. *)
Example exclusive_claims_coexist :
  let '(s, evs) := serve iter add_secs (two ++ [claim 2 "c" "sess_a" "exclusive"; claim 3 "d" "sess_b" "exclusive"]) in
  (mode <$> reservations s !! "resv_c", mode <$> reservations s !! "resv_d") = (Some Exclusive, Some Exclusive).
Proof. by vm_compute. Qed.

(** The number of a process is cut to 32 bits: another process gets the session of process 1. *)
Example pid_aliases :
  (dispatch iter add_secs (mkEnv 5 "z") "session.register" (Obj [("pid", Num (PosInt (2 ^ 32 + 1)))])
     (serve iter add_secs two).1).2 = Ok (RRegistered "sess_a").
Proof. by vm_compute. Qed.

(** A line that is not a request is answered under the id [null]. *)
Definition parse_request (line : string) : result JsonRpcRequest string :=
  if starts_with "{" line then Ok (mkRpc (Some (IdNumber 1)) "session.list" Null) else Err "expected value".
Lemma connection_answers_in_order_witness :
  omap (value_get "id") (handle_connection iter add_secs parse_request (λ _, EmptyString)
    [GotLine (mkEnv 0 "a") "{}" true; GotLine (mkEnv 1 "b") " " true; GotLine (mkEnv 2 "c") "x" true] new_state).2
  = [Num (PosInt 1); Null].
Proof.
  refine (eq_trans (proj2 (proj2 (connection_answers_in_order iter add_secs parse_request (λ _, EmptyString)
    [GotLine (mkEnv 0 "a") "{}" true; GotLine (mkEnv 1 "b") " " true; GotLine (mkEnv 2 "c") "x" true] new_state)) _ _) _).
  - by repeat constructor.
  - intros t n. by eexists.
  - by vm_compute.
Defined.
End DemoDaemon.
