(* ===== verification/TeamStore.v ===== *)
(** The SQLite store of the coordination daemon (lib/teamcomm, teamcomm-daemon/src/db.rs): three
    tables with foreign keys from reservations and messages to sessions, and one definition per
    operation.  A statement may fail; a statement that would break a foreign key is refused.  The
    texts of [serde_json] and [chrono] and the order of rows without [ORDER BY] are parameters. *)
From S2P Require Import Prelude JsonValue TeamComm.

(** The columns of the tables besides the primary keys. *)
Record SessionRow : Type := mkSessionRow {
  sr_agent_type : string; sr_pid : Z; sr_working_dir : string; sr_capabilities : string;
  sr_started_at : string; sr_last_heartbeat : string; sr_status : string;
  sr_focus_file : option string; sr_focus_branch : option string; sr_worktree : option string;
  sr_current_task : string; sr_progress_pct : Z;
}.
Record ReservationRow : Type := mkReservationRow {
  rr_session : string; rr_path : string; rr_mode : string; rr_acquired_at : string; rr_expires_at : string;
}.
Record MessageRow : Type := mkMessageRow {
  mr_from : string; mr_to : string; mr_subject : string; mr_body : string; mr_priority : string;
  mr_ts : string; mr_is_read : bool;
}.
Record Tables : Type := mkTables {
  t_sessions : gmap string SessionRow; t_reservations : gmap string ReservationRow; t_inbox : gmap string MessageRow;
}.
Definition no_tables : Tables := mkTables ∅ ∅ ∅.

(** The statements, as far as faults tell them apart. *)
Inductive Stmt : Type :=
| UpsertSession | UpdateStatus | UpdateFocus | DeleteInbox | DeleteReservations | DeleteSession | SelectSession
| PruneSessions | UpsertReservation | DeleteReservation | PruneReservations | InsertMessage | MarkRead.
Inductive SqlError : Type := Faulted (st : Stmt) | ForeignKey.

(** Every reservation and every message refers to sessions of the table. *)
Definition refers (d : Tables) : bool :=
  bool_decide (map_Forall (λ _ r, is_Some (t_sessions d !! rr_session r)) (t_reservations d)) &&
  bool_decide (map_Forall (λ _ m, is_Some (t_sessions d !! mr_from m) ∧ is_Some (t_sessions d !! mr_to m)) (t_inbox d)).

Section store.
(** Whether the connection enforces foreign keys, and which statements fail. *)
Variable foreign_keys : bool.
Variable fails : Stmt → bool.
(** [serde_json::to_string] and [from_str] of the stored values; [to_rfc3339] and its parser. *)
Variables (agent_text : AgentType → string) (text_agent : string → option AgentType)
          (caps_text : list string → string) (text_caps : string → option (list string))
          (mode_text : ReservationMode → string) (priority_text : Priority → string)
          (rfc3339 : Z → string) (parse_rfc3339 : string → option Z).
Variable iter : ∀ {A : Type}, gmap string A → list (string * A).

Definition execute (st : Stmt) (f : Tables → Tables) : stm Tables SqlError unit := λ d,
  if fails st then (d, Err (Faulted st))
  else if foreign_keys && negb (refers (f d)) then (d, Err ForeignKey)
  else (f d, Ok tt).

Definition on_sessions (f : gmap string SessionRow → gmap string SessionRow) (d : Tables) : Tables :=
  mkTables (f (t_sessions d)) (t_reservations d) (t_inbox d).
Definition on_reservations (f : gmap string ReservationRow → gmap string ReservationRow) (d : Tables) : Tables :=
  mkTables (t_sessions d) (f (t_reservations d)) (t_inbox d).
Definition on_inbox (f : gmap string MessageRow → gmap string MessageRow) (d : Tables) : Tables :=
  mkTables (t_sessions d) (t_reservations d) (f (t_inbox d)).

(** ** Sessions *)

(** On a conflict every column is replaced but [started_at]. *)
Definition upsert_session (s : Session) (st : string) (focus branch tree : option string) (task : string) (pct : Z)
  : stm Tables SqlError unit :=
  execute UpsertSession (on_sessions (λ m,
    let started := default (rfc3339 (started_at s)) (sr_started_at <$> m !! session_id s) in
    <[session_id s := mkSessionRow (agent_text (agent_type s)) (pid s) (working_dir s) (caps_text (capabilities s))
        started (rfc3339 (last_heartbeat s)) st focus branch tree task pct]> m)).

Definition upsert_session_status (now : Z) (id st task : string) (pct : Z) : stm Tables SqlError unit :=
  execute UpdateStatus (on_sessions (alter (λ r,
    mkSessionRow (sr_agent_type r) (sr_pid r) (sr_working_dir r) (sr_capabilities r) (sr_started_at r) (rfc3339 now) st
      (sr_focus_file r) (sr_focus_branch r) (sr_worktree r) task pct) id)).

Definition upsert_session_focus (now : Z) (id : string) (focus branch tree : option string) : stm Tables SqlError unit :=
  execute UpdateFocus (on_sessions (alter (λ r,
    mkSessionRow (sr_agent_type r) (sr_pid r) (sr_working_dir r) (sr_capabilities r) (sr_started_at r) (rfc3339 now)
      (sr_status r) focus branch tree (sr_current_task r) (sr_progress_pct r)) id)).

Definition mentions (id : string) (m : MessageRow) : Prop := mr_from m = id ∨ mr_to m = id.

Definition delete_session (id : string) : stm Tables SqlError unit :=
  (execute DeleteInbox (on_inbox (filter (λ x, ¬ mentions id x.2))) ;;;
   execute DeleteReservations (on_reservations (filter (λ x, rr_session x.2 ≠ id))) ;;;
   execute DeleteSession (on_sessions (delete id)))%rust.

(** Columns that do not parse fall back: the text itself, no capabilities, the present time. *)
Definition session_of_row (now : Z) (id : string) (r : SessionRow) : Session :=
  mkSession id (default (Custom (sr_agent_type r)) (text_agent (sr_agent_type r))) (sr_pid r mod 2 ^ 32)
    (default now (parse_rfc3339 (sr_started_at r))) (sr_working_dir r)
    (default [] (text_caps (sr_capabilities r))) (default now (parse_rfc3339 (sr_last_heartbeat r))).
Definition get_session (now : Z) (id : string) (d : Tables) : result (option Session) SqlError :=
  if fails SelectSession then Err (Faulted SelectSession) else Ok (session_of_row now id <$> t_sessions d !! id).

Definition store_list_sessions (d : Tables) : list (string * string) :=
  prod_map id sr_agent_type <$> iter (t_sessions d).
Definition get_session_status (id : string) (d : Tables) : option (string * string * string) :=
  (λ r, (sr_status r, default EmptyString (sr_focus_file r), sr_current_task r)) <$> t_sessions d !! id.

(** The number of rows a delete removes. *)
Definition delete_where {A} (st : Stmt) (on : (gmap string A → gmap string A) → Tables → Tables)
    (tbl : Tables → gmap string A) (P : A → Prop) `{!∀ x, Decision (P x)} : stm Tables SqlError nat := λ d,
  (_ <- execute st (on (filter (λ x, ¬ P x.2))) ;; st_ret (size (filter (λ x, P x.2) (tbl d))))%rust d.

(** Timestamps are compared as text. *)
Definition text_lt (a b : string) : Prop := String.le a b ∧ a ≠ b.
Definition prune_sessions (cutoff : string) : stm Tables SqlError nat :=
  delete_where PruneSessions on_sessions t_sessions (λ r, text_lt (sr_last_heartbeat r) cutoff).

(** ** Reservations *)

Definition upsert_reservation (r : Reservation) : stm Tables SqlError unit :=
  execute UpsertReservation (on_reservations (λ m,
    let acquired := default (rfc3339 (acquired_at r)) (rr_acquired_at <$> m !! reservation_id r) in
    <[reservation_id r := mkReservationRow (holder r) (res_path r) (mode_text (mode r)) acquired (rfc3339 (expires_at r))]> m)).
Definition delete_reservation (id : string) : stm Tables SqlError unit :=
  execute DeleteReservation (on_reservations (delete id)).
Definition list_reservations_for_session (id : string) (d : Tables) : list string :=
  (filter (λ x, rr_session x.2 = id) (iter (t_reservations d))).*1.
Definition prune_reservations (cutoff : string) : stm Tables SqlError nat :=
  delete_where PruneReservations on_reservations t_reservations (λ r, text_lt (rr_expires_at r) cutoff).

(** ** Inbox *)

Definition upsert_message (m : InboxMessage) : stm Tables SqlError unit :=
  execute InsertMessage (on_inbox (λ t,
    match t !! message_id m with
    | Some _ => t
    | None => <[message_id m := mkMessageRow (from_session m) (to_session m) (subject m) (body m)
                  (priority_text (priority m)) (rfc3339 (ts m)) (is_read m)]> t
    end)).
Definition mark_message_read (id : string) : stm Tables SqlError unit :=
  execute MarkRead (on_inbox (alter (λ r,
    mkMessageRow (mr_from r) (mr_to r) (mr_subject r) (mr_body r) (mr_priority r) (mr_ts r) true) id)).
(** [ORDER BY ts DESC]. *)
Definition list_messages_for_session (id : string) (d : Tables) : list string :=
  (sort_by (λ a b : string * MessageRow, bool_decide (String.le (mr_ts b.2) (mr_ts a.2)))
     (filter (λ x, mr_to x.2 = id) (iter (t_inbox d)))).*1.
Definition delete_messages_for_session (id : string) : stm Tables SqlError unit :=
  execute DeleteInbox (on_inbox (filter (λ x, ¬ mentions id x.2))).
Definition row_counts (d : Tables) : nat * nat * nat :=
  (size (t_sessions d), size (t_reservations d), size (t_inbox d)).

(** * Theorems *)

Lemma refers_spec d : refers d = true ↔
  (∀ k r, t_reservations d !! k = Some r → is_Some (t_sessions d !! rr_session r)) ∧
  (∀ k m, t_inbox d !! k = Some m → is_Some (t_sessions d !! mr_from m) ∧ is_Some (t_sessions d !! mr_to m)).
Proof. unfold refers. by rewrite andb_true_iff, !bool_decide_eq_true. Qed.

Lemma execute_spec st f d d' r : execute st f d = (d', r) →
  d' = d ∧ r = Err (Faulted st) ∨ d' = d ∧ r = Err ForeignKey ∧ refers (f d) = false ∨ d' = f d ∧ r = Ok tt.
Proof.
  unfold execute. destruct (fails st); [intros [= <- <-]; auto|]. destruct foreign_keys; cbn; [|intros [= <- <-]; auto].
  destruct (refers (f d)); intros [= <- <-]; auto.
Qed.

(** With foreign keys enforced no statement breaks a reference. *)
Lemma execute_refers st f d : foreign_keys = true → refers d = true → refers (execute st f d).1 = true.
Proof.
  intros Hfk Hd. unfold execute. destruct (fails st); [done|]. rewrite Hfk.
  destruct (refers (f d)) eqn:E; [exact E|exact Hd].
Qed.

(** The state after the rows that refer to [id] are gone. *)
Definition unreferenced (id : string) (d : Tables) : Tables :=
  mkTables (t_sessions d) (filter (λ x, rr_session x.2 ≠ id) (t_reservations d))
    (filter (λ x, ¬ mentions id x.2) (t_inbox d)).

Lemma refers_filter d P Q `{!∀ x, Decision (P x), !∀ x, Decision (Q x)} : refers d = true →
  refers (mkTables (t_sessions d) (filter P (t_reservations d)) (filter Q (t_inbox d))) = true.
Proof.
  rewrite !refers_spec. intros [Hr Hm]. split; cbn; intros k x [Hx _]%map_lookup_filter_Some; eauto.
Qed.

Lemma refers_delete id d : refers d = true → refers (on_sessions (delete id) (unreferenced id d)) = true.
Proof.
  rewrite !refers_spec. intros [Hr Hm]. split; cbn.
  - intros k r [Hx Hne]%map_lookup_filter_Some. rewrite lookup_delete_ne by done. eauto.
  - intros k m [Hx Hne]%map_lookup_filter_Some. cbn in Hne. unfold mentions in Hne.
    rewrite !lookup_delete_ne by (intros ->; apply Hne; auto). eauto.
Qed.

(** Deleting a session never fails for a foreign key and, whichever statement fails, leaves no
    row without its session; when it succeeds, the session and all that refers to it are gone and
    every other row is untouched. *)
Theorem delete_session_sound id d d' r : refers d = true → delete_session id d = (d', r) →
  refers d' = true ∧ r ≠ Err ForeignKey ∧
  (r = Ok tt → d' = on_sessions (delete id) (unreferenced id d)).
Proof.
  intros Hd. unfold delete_session, st_bind.
  assert (H1 : refers (on_inbox (filter (λ x, ¬ mentions id x.2)) d) = true).
  { rewrite refers_spec in *. destruct Hd as [Hr Hm]. split; [done|]. cbn. intros k x [Hx _]%map_lookup_filter_Some; eauto. }
  assert (H2 : refers (unreferenced id d) = true) by by apply refers_filter.
  assert (H3 := refers_delete id d Hd).
  destruct (execute DeleteInbox _ d) as [d1 r1] eqn:E1.
  apply execute_spec in E1 as [[-> ->]|[(-> & -> & Hf)|[-> ->]]]; [by intros [= <- <-]|congruence|].
  destruct (execute DeleteReservations _ _) as [d2 r2] eqn:E2.
  apply execute_spec in E2 as [[-> ->]|[(-> & -> & Hf)|[-> ->]]]; [by intros [= <- <-]| |].
  { change (refers (unreferenced id d) = false) in Hf. congruence. }
  intros E3. apply execute_spec in E3 as [[-> ->]|[(-> & -> & Hf)|[-> ->]]]; [done| |done].
  change (refers (on_sessions (delete id) (unreferenced id d)) = false) in Hf. congruence.
Qed.

(** A new session read back is the session stored, when the texts of its fields are read back. *)
Theorem session_roundtrip now s st focus branch tree task pct d d' :
  text_agent (agent_text (agent_type s)) = Some (agent_type s) →
  text_caps (caps_text (capabilities s)) = Some (capabilities s) →
  parse_rfc3339 (rfc3339 (started_at s)) = Some (started_at s) →
  parse_rfc3339 (rfc3339 (last_heartbeat s)) = Some (last_heartbeat s) →
  0 ≤ pid s < 2 ^ 32 → fails SelectSession = false → t_sessions d !! session_id s = None →
  upsert_session s st focus branch tree task pct d = (d', Ok tt) →
  get_session now (session_id s) d' = Ok (Some s) ∧
  (∀ id, id ≠ session_id s → get_session now id d' = get_session now id d).
Proof.
  intros Ha Hc Hs Hh Hp Hf Hnew Hup. unfold upsert_session in Hup.
  apply execute_spec in Hup as [[_ [=]]|[(_ & [=] & _)|[-> _]]]. unfold get_session. rewrite Hf. cbn. split.
  - rewrite lookup_insert_eq, Hnew. cbn. unfold session_of_row. cbn. rewrite Ha, Hc, Hs, Hh. cbn.
    rewrite Z.mod_small by done. by destruct s.
  - intros id Hne. by rewrite lookup_insert_ne.
Qed.

(** A session that is registered again keeps the time it was first started at. *)
Lemma upsert_keeps_start s st focus branch tree task pct d d' row :
  t_sessions d !! session_id s = Some row → upsert_session s st focus branch tree task pct d = (d', Ok tt) →
  sr_started_at <$> t_sessions d' !! session_id s = Some (sr_started_at row).
Proof.
  intros Hrow Hup. apply execute_spec in Hup as [[_ [=]]|[(_ & [=] & _)|[-> _]]]. cbn.
  by rewrite lookup_insert_eq, Hrow.
Qed.

(** Pruning stops altogether as long as one stale session has a reservation. *)
Lemma prune_blocked cutoff k r row d : foreign_keys = true → fails PruneSessions = false →
  t_reservations d !! k = Some r → t_sessions d !! rr_session r = Some row → text_lt (sr_last_heartbeat row) cutoff →
  prune_sessions cutoff d = (d, Err ForeignKey).
Proof.
  intros Hfk Hf Hr Hrow Hlt. unfold prune_sessions, delete_where, st_bind, execute. rewrite Hfk, Hf. cbn.
  assert (refers (on_sessions (filter (λ x, ¬ text_lt (sr_last_heartbeat x.2) cutoff)) d) = false) as ->; [|done].
  apply not_true_is_false. rewrite refers_spec. intros [H _]. destruct (H k r Hr) as [x [Hx Hn]%map_lookup_filter_Some].
  cbn in *. congruence.
Qed.

(** A message to a session that is not registered is refused. *)
Lemma offline_message_refused m d : foreign_keys = true → fails InsertMessage = false →
  t_inbox d !! message_id m = None → t_sessions d !! to_session m = None →
  upsert_message m d = (d, Err ForeignKey).
Proof.
  intros Hfk Hf Hm Hs. unfold upsert_message, execute. rewrite Hfk, Hf. unfold on_inbox. cbn. rewrite Hm.
  assert (refers (mkTables (t_sessions d) (t_reservations d) (<[message_id m := mkMessageRow (from_session m) (to_session m) (subject m) (body m)
    (priority_text (priority m)) (rfc3339 (ts m)) (is_read m)]> (t_inbox d))) = false) as H; [|by rewrite H].
  apply not_true_is_false. rewrite refers_spec. intros [_ H].
  destruct (H (message_id m) _ (lookup_insert_eq _ _ _)) as [_ [x Hx]]. cbn in Hx. congruence.
Qed.
End store.

(** A store with a session that holds a reservation and has a message: deleted while the second
    statement fails, and deleted in full. *)
Definition demo_row : SessionRow :=
  mkSessionRow "forge" 7 "/" "[]" "t0" "t1" "idle" None None None EmptyString 0.
Definition demo_tables : Tables :=
  mkTables {[ "a" := demo_row; "b" := demo_row ]} {[ "r" := mkReservationRow "a" "f" "read" "t0" "t9" ]}
    {[ "m" := mkMessageRow "b" "a" "s" "x" "low" "t1" false ]}.

Definition second_fails (st : Stmt) : bool := match st with DeleteReservations => true | _ => false end.

Lemma delete_session_sound_witness :
  refers (delete_session true second_fails "a" demo_tables).1 = true ∧
  t_reservations (delete_session true (λ _, false) "a" demo_tables).1 = ∅.
Proof.
  split.
  - refine (proj1 (delete_session_sound true second_fails "a" demo_tables _ _ _ (surjective_pairing _))). by vm_compute.
  - destruct (delete_session_sound true (λ _, false) "a" demo_tables _ _ ltac:(by vm_compute) (surjective_pairing _)) as (_ & _ & H).
    rewrite H; by vm_compute.
Defined.

Definition demo_session : Session := mkSession "c" Forge 7 3 "/w" ["rust"] 5.
Definition demo_upserted : Tables * result unit SqlError :=
  upsert_session true (λ _, false) (λ _, "forge") (λ _, "[rust]") show_u demo_session "idle" None None None "t" 0 demo_tables.

Lemma session_roundtrip_witness :
  get_session (λ _, false) (λ _, Some Forge) (λ _, Some ["rust"]) (parse_uint u64_max) 9 "c" demo_upserted.1 =
  Ok (Some demo_session).
Proof.
  refine (proj1 (session_roundtrip true (λ _, false) (λ _, "forge") (λ _, Some Forge) (λ _, "[rust]")
    (λ _, Some ["rust"]) show_u (parse_uint u64_max) 9 demo_session "idle" None None None "t" 0 demo_tables demo_upserted.1
    _ _ _ _ _ _ _ _)); [reflexivity|reflexivity|by vm_compute|by vm_compute|by vm_compute|reflexivity|by vm_compute|].
  change (demo_upserted = (demo_upserted.1, Ok tt)). rewrite (surjective_pairing demo_upserted) at 1. by f_equal.
Defined.
