(* ===== verification/SurfaceRpc.v ===== *)
(** The surface control RPC of the session crate (sharecli-session/src/rpc.rs and
    rpc_transport.rs): decoding of a request line, the token check, the methods over a terminal
    provider and the event hub, and the connection loop that cuts the byte stream into lines and
    delivers events.  The provider answers as it likes: its state is the list of calls made to it.
    The JSON parser and the texts of its errors are parameters. *)
From S2P Require Import Prelude RespCodec Sessions SessionLedger SurfaceEvents JsonValue.

Definition MAX_SURFACE_SEND_BYTES : Z := 64 * 1024.
Definition MAX_SURFACE_LINE_BYTES : Z := 1024 * 1024.
Definition MAX_SURFACE_READ_BYTES : Z := 1024 * 1024.

(** * Requests *)

(** The parser yields a tree whose objects may repeat a key. Read as a [Value], the last entry of a
    key wins; a derived struct refuses a repeated field instead. *)
Fixpoint as_value (tree : Value) : Value :=
  match tree with
  | Arr l => Arr (map as_value l)
  | Obj m => Obj (foldl (λ acc kv, obj_set kv.1 kv.2 acc) [] (map (λ kv, (kv.1, as_value kv.2)) m))
  | v => v
  end.

Record SurfaceRequest : Type := mkSurfaceRequest {
  sq_jsonrpc : string; sq_id : option Value; sq_method : string; sq_token : option string;
}.
Definition request_fields : list string := ["jsonrpc"; "id"; "method"; "token"].

Lemma value_codec_law (v : Value) : True → Some v = Some v.
Proof. done. Qed.
Definition value_codec : Codec Value := mkCodec _ id Some (λ _, True) value_codec_law.

(** [from_value::<SurfaceRequest>]. *)
Definition decode_request (v : Value) : option SurfaceRequest :=
  g ← struct_fields request_fields v;
  j ← req str_codec g "jsonrpc";
  i ← optf value_codec v g "id";
  m ← req str_codec g "method";
  t ← dflt (opt_codec str_codec) None g "token";
  Some (mkSurfaceRequest j i m t).

Definition repeats (tree : Value) : bool :=
  match tree with
  | Obj m => existsb (λ k, 1 <? Z.of_nat (length (filter (λ kv : string * Value, kv.1 = k) m))) request_fields
  | _ => false
  end.
(** [from_str::<SurfaceRequest>], after the parser. *)
Definition decode_request_text (tree : Value) : option SurfaceRequest :=
  if repeats tree then None else decode_request (as_value tree).

Lemma byte_codec_law (b : byte) : True → (n ← JsonValue.as_u64 (Num (PosInt (Z.of_N (Byte.to_N b)))); Byte.of_N (Z.to_N n)) = Some b.
Proof. intros _. cbn. rewrite N2Z.id. apply Byte.of_to_N. Qed.
Definition byte_codec : Codec byte :=
  mkCodec _ (λ b, Num (PosInt (Z.of_N (Byte.to_N b)))) (λ v, n ← JsonValue.as_u64 v; Byte.of_N (Z.to_N n)) (λ _, True) byte_codec_law.

(** The parameters of the methods. *)
Record SendParams : Type := mkSend { snd_surface : string; snd_text : option string; snd_bytes : option (list byte) }.
Record ReadParams : Type := mkRead { rd_surface : string; rd_max_bytes : Z }.
Record ResizeParams : Type := mkResize { rs_surface : string; rs_rows : Z; rs_cols : Z }.

Definition object_field (p : Value) : string → option Value := λ k, value_get k p.
Definition decode_surface_id (p : Value) : option string := req str_codec (object_field p) "surface_id".
Definition decode_send (p : Value) : option SendParams :=
  i ← decode_surface_id p;
  t ← dflt (opt_codec str_codec) None (object_field p) "text";
  b ← dflt (opt_codec (list_codec byte_codec)) None (object_field p) "bytes";
  Some (mkSend i t b).
Definition decode_read (p : Value) : option ReadParams :=
  i ← decode_surface_id p; n ← req u64_codec (object_field p) "max_bytes"; Some (mkRead i n).
Definition decode_resize (p : Value) : option ResizeParams :=
  i ← decode_surface_id p; r ← req u16_codec (object_field p) "rows"; c ← req u16_codec (object_field p) "cols";
  Some (mkResize i r c).
Definition decode_subscribe (p : Value) : option SurfaceSubscribeRequest :=
  i ← dflt (opt_codec str_codec) None (object_field p) "surface_id";
  s ← dflt (opt_codec u64_codec) None (object_field p) "from_seq";
  n ← dflt u64_codec (Z.of_N MAX_EVENT_CHUNK_BYTES) (object_field p) "max_chunk_bytes";
  c ← dflt u64_codec 64 (object_field p) "queue_capacity";
  Some (SurfaceEvents.mkRequest i s (Z.to_N n) (Z.to_N c)).

(** * Provider, replies and responses *)

Record LayoutRestoreItem : Type := mkItem { it_surface : string; it_restored : bool; it_detail : option string }.
Record LayoutRestoreReport : Type := mkReport { rep_layout : string; rep_items : list LayoutRestoreItem }.

(** The calls a provider can get. *)
Inductive Call : Type :=
| CList | CSend (surface : string) (bytes : list byte) | CRead (surface : string) (max_bytes : Z)
| CResize (surface : string) (rows cols : Z) | CCapabilities (surface : string)
| CSnapshot | CRestore (s : LayoutSnapshot).

(** The trait [SurfaceControl]: an operation may depend on all calls made before. *)
Class SurfaceControl : Type := {
  ctl_list : list Call → result (list SurfaceRecord) string;
  ctl_send : list Call → string → list byte → result unit string;
  ctl_read : list Call → string → Z → result (list byte) string;
  ctl_resize : list Call → string → Z → Z → result unit string;
  ctl_capabilities : list Call → string → result SurfaceCapabilities string;
  ctl_snapshot_layout : list Call → result LayoutSnapshot string;
  ctl_restore_layout : list Call → LayoutSnapshot → result LayoutRestoreReport string;
}.

(** What a method passes to [to_value]. *)
Inductive Reply : Type :=
| RNull | RSurfaces (l : list SurfaceRecord) | RBytes (l : list byte) | RCapabilities (c : SurfaceCapabilities)
| RLayout (s : LayoutSnapshot) | RRestored (r : LayoutRestoreReport) | RAck (a : SurfaceSubscribeAck)
| RUnsubscribed (b : bool).
Definition RpcError : Type := Z * string.
Record SurfaceResponse : Type := mkResponse { sr_id : Value; sr_outcome : result Reply RpcError }.
Definition surface_error (id : Value) (code : Z) (message : string) : SurfaceResponse :=
  mkResponse id (Err (code, message)).

(** The text in double quotes. *)
Definition quoted (t : string) : string :=
  String (ascii_of_nat 34) (t +:+ String (ascii_of_nat 34) EmptyString).

Record Rpc : Type := mkRpc { calls : list Call; hub : option HubState }.

Section rpc.
Context `{SurfaceControl}.
Variable parse : string → result Value string.
Variable de_layout : Value → option LayoutSnapshot.
(** The text of a decoding error. *)
Variable explain : Value → string.

Definition control_error {A} (r : result A string) : result A RpcError :=
  match r with Ok a => Ok a | Err e => Err (-32000, e) end.
Definition decode_params {A} (f : Value → option A) (p : Value) : stm Rpc RpcError A :=
  st_lift (ok_or (-32602, "invalid params: " +:+ explain p) (f p)).
(** A call to the provider, which is recorded. *)
Definition call {A} (c : Call) (f : list Call → result A string) : stm Rpc RpcError A := λ s,
  (mkRpc (calls s ++ [c]) (hub s), control_error (f (calls s))).
Definition event_text (e : SurfaceEventError) : string :=
  match e with
  | InvalidChunkBytes => "max_chunk_bytes must be between 1 and 65536"
  | InvalidQueueCapacity => "queue_capacity must be between 1 and 256"
  | UnknownSubscription => "unknown subscription_id"
  end.
Definition on_hub {A} (m : stm HubState SurfaceEventError A) : stm Rpc RpcError A := λ s,
  match hub s with
  | None => (s, Err (-32000, "live surface events unavailable"))
  | Some h =>
      match m h with
      | (h', Ok a) => (mkRpc (calls s) (Some h'), Ok a)
      | (h', Err e) => (mkRpc (calls s) (Some h'), Err (-32602, event_text e))
      end
  end.
Definition need_hub : stm Rpc RpcError unit := λ s,
  match hub s with None => (s, Err (-32000, "live surface events unavailable")) | Some _ => (s, Ok tt) end.
Definition refuse {A} (message : string) : stm Rpc RpcError A := st_err (-32602, message).

Inductive Method : Type :=
| MList | MSend | MRead | MResize | MCapabilities | MSnapshot | MRestore | MSubscribe | MUnsubscribe.
Definition method_names : list (string * Method) :=
  [("surface.list", MList); ("surface.io.send", MSend); ("surface.io.read", MRead); ("surface.io.resize", MResize);
   ("surface.io.capabilities", MCapabilities); ("surface.layout.snapshot", MSnapshot);
   ("surface.layout.restore", MRestore); ("surface.io.subscribe", MSubscribe); ("surface.io.unsubscribe", MUnsubscribe)].
Definition surface_method (s : string) : option Method :=
  snd <$> find (λ x : string * Method, bool_decide (x.1 = s)) method_names.

Definition dispatch_method (method : string) (p : Value) : stm Rpc RpcError Reply :=
  match surface_method method with
  | Some MList => l <- call CList ctl_list ;; st_ret (RSurfaces l)
  | Some MSend =>
      q <- decode_params decode_send p ;;
      bytes <- (match snd_text q, snd_bytes q with
                | Some t, None => st_ret (list_byte_of_string t)
                | None, Some b => st_ret b
                | _, _ => refuse "exactly one of params.text or params.bytes is required"
                end) ;;
      if MAX_SURFACE_SEND_BYTES <? Z.of_nat (length bytes) then refuse "payload must not exceed 65536 bytes"
      else call (CSend (snd_surface q) bytes) (λ h, ctl_send h (snd_surface q) bytes) ;;; st_ret RNull
  | Some MRead =>
      q <- decode_params decode_read p ;;
      if MAX_SURFACE_READ_BYTES <? rd_max_bytes q then refuse "max_bytes must not exceed 1048576"
      else
        bytes <- call (CRead (rd_surface q) (rd_max_bytes q)) (λ h, ctl_read h (rd_surface q) (rd_max_bytes q)) ;;
        if rd_max_bytes q <? Z.of_nat (length bytes)
        then st_err (-32000, "surface provider returned " +:+ show_u (Z.of_nat (length bytes)) +:+ " bytes for a "
                              +:+ show_u (rd_max_bytes q) +:+ " byte read")
        else st_ret (RBytes bytes)
  | Some MResize =>
      q <- decode_params decode_resize p ;;
      if (rs_rows q =? 0) || (rs_cols q =? 0) then refuse "rows and cols must be greater than zero"
      else call (CResize (rs_surface q) (rs_rows q) (rs_cols q)) (λ h, ctl_resize h (rs_surface q) (rs_rows q) (rs_cols q)) ;;;
           st_ret RNull
  | Some MCapabilities =>
      i <- decode_params decode_surface_id p ;;
      c <- call (CCapabilities i) (λ h, ctl_capabilities h i) ;; st_ret (RCapabilities c)
  | Some MSnapshot =>
      match p with
      | Obj [] => l <- call CSnapshot ctl_snapshot_layout ;; st_ret (RLayout l)
      | _ => refuse "surface.layout.snapshot takes no params"
      end
  | Some MRestore =>
      l <- decode_params (λ p, value_get "snapshot" p ≫= de_layout) p ;;
      _ <- st_lift (control_error (validate l)) ;;
      r <- call (CRestore l) (λ h, ctl_restore_layout h l) ;; st_ret (RRestored r)
  | Some MSubscribe =>
      need_hub ;;; q <- decode_params decode_subscribe p ;; a <- on_hub (subscribe q) ;; st_ret (RAck a)
  | Some MUnsubscribe =>
      need_hub ;;; i <- decode_params (λ p, req u64_codec (object_field p) "subscription_id") p ;;
      b <- on_hub (unsubscribe i) ;; st_ret (RUnsubscribed b)
  | None => st_err (-32601, "unknown method: " +:+ method)
  end.

(** [dispatch_surface] and [dispatch_surface_with_events]. *)
Definition dispatch_surface (line : string) (s : Rpc) : Rpc * SurfaceResponse :=
  match parse line with
  | Err e => (s, surface_error Null (-32700) ("parse error: " +:+ e))
  | Ok tree =>
      let raw := as_value tree in
      match value_get "params" raw with
      | Some (Obj _) | None =>
          let p := default (Obj []) (value_get "params" raw) in
          match decode_request raw with
          | None => (s, surface_error Null (-32600) ("invalid request: " +:+ explain raw))
          | Some q =>
              let id := default Null (sq_id q) in
              if negb (bool_decide (sq_jsonrpc q = "2.0")) then (s, surface_error id (-32600) ("jsonrpc must be " +:+ quoted "2.0"))
              else let '(s', r) := dispatch_method (sq_method q) p s in (s', mkResponse id r)
          end
      | Some _ => (s, surface_error (default Null (value_get "id" raw)) (-32602) "params must be a JSON object")
      end
  end.

(** [dispatch_surface_with_token] and [dispatch_surface_with_token_and_events]. *)
Definition dispatch_with_token (expected_token : option string) (line : string) (s : Rpc) : Rpc * SurfaceResponse :=
  match expected_token with
  | None => dispatch_surface line s
  | Some expected =>
      match (match parse line with Ok tree => decode_request_text tree | Err _ => None end) with
      | None => dispatch_surface line s
      | Some q =>
          if bool_decide (sq_token q = Some expected) then dispatch_surface line s
          else (s, surface_error (default Null (sq_id q)) (-32001) "invalid control token")
      end
  end.

(** * Connections *)

(** The complete lines of a buffer, and what is left. *)
Fixpoint cut_lines (buf : list byte) : list (list byte) * list byte :=
  match buf with
  | [] => ([], [])
  | b :: rest =>
      let '(ls, rem) := cut_lines rest in
      if bool_decide (b = Byte.x0a) then ([] :: ls, rem)
      else match ls with [] => ([], b :: rem) | l :: ls' => ((b :: l) :: ls', rem) end
  end.

Inductive Output : Type := OutResponse (r : SurfaceResponse) | OutEvent (e : SurfaceEventNotification).
(** [budget] is the number of writes before one fails. *)
Record Conn : Type := mkConn {
  rpc : Rpc; input : list byte; own : list Z; out : list Output; open : bool; budget : nat;
}.
Definition close (c : Conn) : Conn := mkConn (rpc c) (input c) (own c) (out c) false (budget c).
Definition write_out (o : Output) (c : Conn) : Conn :=
  match budget c with
  | O => close c
  | S n => mkConn (rpc c) (input c) (own c) (out c ++ [o]) (open c) n
  end.

Variable expected_token : option string.

(** Whether the line is answered: it is an object with an id. *)
Definition should_reply (line : string) : bool :=
  match as_value <$> (match parse line with Ok t => Some t | Err _ => None end) with
  | Some (Obj m) => bool_decide (is_Some (obj_get "id" m))
  | _ => false
  end.
(** The subscription a line asks to end, whatever its answer. *)
Definition ends (line : string) : option Z :=
  match parse line with
  | Err _ => None
  | Ok tree =>
      let raw := as_value tree in
      match raw with
      | Obj m =>
          if bool_decide ((obj_get "method" m ≫= as_str) = Some "surface.io.unsubscribe")
          then (p ← value_get "params" raw; v ← value_get "subscription_id" p; JsonValue.as_u64 v) else None
      | _ => None
      end
  end.
Definition subscribed (r : SurfaceResponse) : list Z :=
  match sr_outcome r with Ok (RAck a) => [ack_subscription_id a] | _ => [] end.

Definition serve_line (c : Conn) (l : list byte) : Conn :=
  if negb (open c) then c
  else if negb (utf8_valid l) then close c
  else
    let line := string_of_list_byte l in
    let '(s, r) := dispatch_with_token expected_token line (rpc c) in
    let own1 := own c ++ subscribed r in
    let own2 := match ends line with Some i => filter (λ j, j ≠ i) own1 | None => own1 end in
    let c1 := mkConn s (input c) own2 (out c) (open c) (budget c) in
    if should_reply line then write_out (OutResponse r) c1 else c1.

Definition deliver (c : Conn) (i : Z) : Conn :=
  if negb (open c) then c
  else match hub (rpc c) with
       | None => c
       | Some h =>
           match drain i 32 h with
           | (_, Err _) => c
           | (h', Ok evs) =>
               foldl (λ c e, if open c then write_out (OutEvent e) c else c)
                 (mkConn (mkRpc (calls (rpc c)) (Some h')) (input c) (own c) (out c) (open c) (budget c)) evs
           end
       end.

(** One turn of the loop: bytes arrive, the peer closes, the timer ticks; or, in between, others use
    the hub. *)
Inductive Turn : Type :=
| Bytes (chunk : list byte) | Hangup | Tick | Elsewhere (encode : list byte → string) (ops : list hub_op).

Definition serve_turn (c : Conn) (t : Turn) : Conn :=
  match t with
  | Elsewhere encode ops =>
      mkConn (mkRpc (calls (rpc c)) (hub_run encode ops <$> hub (rpc c))) (input c) (own c) (out c) (open c) (budget c)
  | _ =>
      if negb (open c) then c
      else match t with
           | Bytes chunk =>
               let buf := input c ++ chunk in
               if bool_decide (chunk = []) then close c
               else if MAX_SURFACE_LINE_BYTES <? Z.of_nat (length buf)
               then close (mkConn (rpc c) buf (own c) (out c) (open c) (budget c))
               else let '(ls, rem) := cut_lines buf in
                    foldl serve_line (mkConn (rpc c) rem (own c) (out c) (open c) (budget c)) ls
           | Tick => foldl deliver c (own c)
           | _ => close c
           end
  end.
Definition conn_start (s : Rpc) (n : nat) : Conn := mkConn s [] [] [] true n.

(** * The token *)

(** C29: with a token set, a line that does not carry it has no effect on the provider or the hub and
    is answered with an error, as long as the line does not repeat a field of the request. *)
Theorem token_required tok line s :
  (∀ tree, parse line = Ok tree → repeats tree = false ∧
     ∀ q, decode_request_text tree = Some q → sq_token q ≠ Some tok) →
  (dispatch_with_token (Some tok) line s).1 = s ∧ is_ok (sr_outcome (dispatch_with_token (Some tok) line s).2) = false.
Proof.
  unfold dispatch_with_token, dispatch_surface. destruct (parse line) as [tree|e]; intros Hline; [|done].
  destruct (Hline tree eq_refl) as [Hr Hq]. unfold decode_request_text in *. rewrite Hr in *.
  destruct (decode_request (as_value tree)) as [q|]; cbn.
  - rewrite bool_decide_false by auto. done.
  - destruct (value_get "params" (as_value tree)) as [[]|]; done.
Qed.

(** * Limits *)

Definition valid_call (c : Call) : Prop :=
  match c with
  | CSend _ b => Z.of_nat (length b) ≤ MAX_SURFACE_SEND_BYTES
  | CRead _ n => n ≤ MAX_SURFACE_READ_BYTES
  | CResize _ r c => r ≠ 0 ∧ c ≠ 0
  | CRestore l => validate l = Ok tt
  | _ => True
  end.
Definition valid_reply (r : result Reply RpcError) : Prop :=
  match r with Ok (RBytes l) => Z.of_nat (length l) ≤ MAX_SURFACE_READ_BYTES | _ => True end.
Definition within (o : Rpc * result Reply RpcError) : Prop := Forall valid_call (calls o.1) ∧ valid_reply o.2.

Lemma call_within {A} c (f : list Call → result A string) (k : A → stm Rpc RpcError Reply) s :
  Forall valid_call (calls s) → valid_call c →
  (∀ a s', Forall valid_call (calls s') → within (k a s')) → within (st_bind k (call c f) s).
Proof.
  intros Hs Hc Hk. assert (Hs' : Forall valid_call (calls s ++ [c])) by (apply Forall_app; by repeat constructor).
  unfold st_bind, call, control_error. destruct (f (calls s)) as [a|e]; [by apply Hk|done].
Qed.
Lemma lift_within {A} (r : result A RpcError) (k : A → stm Rpc RpcError Reply) s :
  Forall valid_call (calls s) → (∀ a, r = Ok a → within (k a s)) → within (st_bind k (st_lift r) s).
Proof. intros Hs Hk. unfold st_bind, st_lift. destruct r as [a|e]; [by apply Hk|done]. Qed.
Lemma hub_within {A} (m : stm Rpc RpcError A) (k : A → stm Rpc RpcError Reply) s :
  calls (m s).1 = calls s → (∀ a s', Forall valid_call (calls s') → within (k a s')) →
  Forall valid_call (calls s) → within (st_bind k m s).
Proof. intros Hm Hk Hs. unfold st_bind. destruct (m s) as [s' [a|e]]; cbn in Hm; [apply Hk|split; [cbn|done]]; by rewrite Hm. Qed.
Lemma on_hub_calls {A} (m : stm HubState SurfaceEventError A) s : calls (on_hub m s).1 = calls s.
Proof. unfold on_hub. destruct (hub s) as [h|]; [|done]. by destruct (m h) as [h' []]. Qed.
Lemma need_hub_calls s : calls (need_hub s).1 = calls s.
Proof. unfold need_hub. by destruct (hub s). Qed.

Lemma dispatch_method_within m p s : Forall valid_call (calls s) → within (dispatch_method m p s).
Proof.
  intros Hs. unfold dispatch_method, decode_params. destruct (surface_method m) as [[]|].
  - by apply call_within.
  - apply lift_within; [done|]. intros q _. set (pick := match snd_text q with Some _ => _ | None => _ end).
    assert (Hp : (∃ b, pick = st_ret b) ∨ ∃ e, pick = st_err e).
    { subst pick. destruct (snd_text q), (snd_bytes q); unfold refuse; eauto. }
    destruct Hp as [[b ->]|[e ->]]; [|done]. unfold st_bind at 1. cbn. case_match eqn:E; [done|].
    apply call_within; [done|cbn; lia|done].
  - apply lift_within; [done|]. intros q _. case_match eqn:E; [done|]. apply call_within; [done|cbn; lia|].
    intros l s' Hs'. case_match eqn:E'; split; try done. cbn. unfold MAX_SURFACE_READ_BYTES in *. lia.
  - apply lift_within; [done|]. intros q _. case_match eqn:E; [done|].
    apply orb_false_iff in E as [E1%Z.eqb_neq E2%Z.eqb_neq]. by apply call_within.
  - apply lift_within; [done|]. intros q _. by apply call_within.
  - destruct p as [| | | | |[]]; try done. by apply call_within.
  - apply lift_within; [done|]. intros l _. apply lift_within; [done|]. intros [] Hv.
    apply call_within; [done| |done]. cbn. unfold control_error in Hv. by destruct (validate l) as [[]|].
  - apply hub_within; [apply need_hub_calls| |done]. intros _ s1 H1. apply lift_within; [done|]. intros q _.
    by apply hub_within; [apply on_hub_calls|..].
  - apply hub_within; [apply need_hub_calls| |done]. intros _ s1 H1. apply lift_within; [done|]. intros q _.
    by apply hub_within; [apply on_hub_calls|..].
  - done.
Qed.

Lemma dispatch_within tok line s : Forall valid_call (calls s) →
  let o := dispatch_with_token tok line s in Forall valid_call (calls o.1) ∧ valid_reply (sr_outcome o.2).
Proof.
  intros Hs. assert (Hd : let o := dispatch_surface line s in Forall valid_call (calls o.1) ∧ valid_reply (sr_outcome o.2)).
  { unfold dispatch_surface. destruct (parse line) as [tree|]; [|done].
    destruct (value_get "params" (as_value tree)) as [[]|]; try done;
      (destruct (decode_request _) as [q|]; [|done]; destruct (negb _); [done|];
       match goal with |- context [dispatch_method ?m ?p s] => pose proof (dispatch_method_within m p s Hs) as [? ?];
         by destruct (dispatch_method m p s) end). }
  unfold dispatch_with_token. destruct tok as [tok|]; [|done]. destruct (match parse line with Ok _ => _ | _ => _ end) as [q|]; [|done].
  by destruct (bool_decide _).
Qed.

Definition valid_output (o : Output) : Prop :=
  match o with OutResponse r => valid_reply (sr_outcome r) | OutEvent _ => True end.
Definition limits (c : Conn) : Prop := Forall valid_call (calls (rpc c)) ∧ Forall valid_output (out c).

Lemma limits_write o c : valid_output o → limits c → limits (write_out o c).
Proof.
  intros Ho [Hc Hw]. unfold write_out. destruct (budget c); [done|]. split; [done|]. apply Forall_app. by repeat constructor.
Qed.
Lemma foldl_invariant {A B} (f : A → B → A) (P : A → Prop) l a : (∀ a b, P a → P (f a b)) → P a → P (foldl f a l).
Proof. intros Hf. revert a. induction l as [|b l IH]; intros a Ha; [done|]. by apply IH, Hf. Qed.

Lemma limits_line c l : limits c → limits (serve_line c l).
Proof.
  intros [Hc Hw]. unfold serve_line. destruct (negb (open c)); [done|]. destruct (negb _); [done|].
  pose proof (dispatch_within expected_token (string_of_list_byte l) (rpc c) Hc) as [H1 H2].
  destruct (dispatch_with_token _ _ _) as [s r]. destruct (should_reply _); [by apply limits_write|done].
Qed.

(** Whatever bytes, ticks and hub activity a connection sees, every call the provider gets is
    within the limits (a payload of at most 64 KiB, a read of at most 1 MiB, a size without a zero, a
    layout that validates), and no read of more than 1 MiB is passed on. *)
Theorem provider_calls_valid c turns : limits c → limits (foldl serve_turn c turns).
Proof.
  apply foldl_invariant. clear c. intros c t Hc. destruct t as [chunk| | |enc ops]; cbn; try (by destruct (negb (open c))).
  - destruct (negb (open c)); [done|]. destruct (bool_decide _); [done|]. destruct (_ <? _); [done|].
    destruct (cut_lines _) as [ls rem]. apply foldl_invariant; [intros; by apply limits_line|done].
  - destruct (negb (open c)); [done|]. apply foldl_invariant; [|done]. clear c Hc. intros c i Hc. unfold deliver.
    destruct (negb (open c)); [done|]. destruct (hub (rpc c)) as [h|]; [|done].
    destruct (drain i 32 h) as [h' [evs|]]; [|done]. apply foldl_invariant; [|done].
    intros c' e Hc'. destruct (open c'); [by apply limits_write|done].
Qed.

(** * Framing *)

Lemma cut_lines_app x y :
  cut_lines (x ++ y) =
  let '(l1, r1) := cut_lines x in let '(l2, r2) := cut_lines (r1 ++ y) in (l1 ++ l2, r2).
Proof.
  induction x as [|b x IH]; cbn [app cut_lines]; [by destruct (cut_lines y)|]. rewrite IH. clear IH.
  destruct (cut_lines x) as [l1 r1]. destruct (cut_lines (r1 ++ y)) as [l2 r2] eqn:E2.
  destruct (bool_decide (b = x0a)) eqn:Eb; [by rewrite E2|].
  destruct l1 as [|l l1]; cbn [app cut_lines]; rewrite E2; [rewrite Eb; by destruct l2|done].
Qed.
Lemma cut_lines_rest x : (length (cut_lines x).2 ≤ length x)%nat.
Proof.
  induction x as [|b x IH]; cbn; [done|]. destruct (cut_lines x) as [l r]. cbn in IH.
  destruct (bool_decide _); cbn; [lia|]. destruct l; cbn; lia.
Qed.

(** What a connection has done; the bytes it holds matter only while it is open. *)
Definition same (c d : Conn) : Prop :=
  rpc c = rpc d ∧ own c = own d ∧ out c = out d ∧ open c = open d ∧ budget c = budget d ∧
  (open c = true → input c = input d).

Lemma serve_line_closed c l : open c = false → serve_line c l = c.
Proof. intros H0. unfold serve_line. by rewrite H0. Qed.
Lemma serve_lines_closed ls c : open c = false → foldl serve_line c ls = c.
Proof. induction ls as [|l ls IH] in c |- *; intros Hc; [done|]. cbn. rewrite serve_line_closed by done. by apply IH. Qed.

(** Lines are served the same whatever is left in the buffer. *)
Definition set_input (b : list byte) (c : Conn) : Conn := mkConn (rpc c) b (own c) (out c) (open c) (budget c).
Lemma serve_line_input b c l : serve_line (set_input b c) l = set_input b (serve_line c l).
Proof.
  unfold serve_line. cbn. destruct (negb (open c)); [done|]. destruct (negb _); [done|].
  destruct (dispatch_with_token _ _ _) as [s r]. destruct (should_reply _); [|done].
  unfold write_out. cbn. by destruct (budget c).
Qed.
Lemma serve_lines_input b ls c : foldl serve_line (set_input b c) ls = set_input b (foldl serve_line c ls).
Proof. induction ls as [|l ls IH] in c |- *; [done|]. cbn. by rewrite serve_line_input, IH. Qed.

Lemma serve_bytes c chunk :
  open c = true → chunk ≠ [] → Z.of_nat (length (input c ++ chunk)) ≤ MAX_SURFACE_LINE_BYTES →
  serve_turn c (Bytes chunk) =
  set_input (cut_lines (input c ++ chunk)).2 (foldl serve_line c (cut_lines (input c ++ chunk)).1).
Proof.
  intros Ho Hne Hlen. cbn. rewrite Ho, bool_decide_false by done. cbn.
  rewrite (proj2 (Z.ltb_ge _ _)) by done. destruct (cut_lines (input c ++ chunk)) as [ls rem]. cbn.
  rewrite <- Ho at 1. by rewrite <- serve_lines_input.
Qed.

Lemma serve_two c a b :
  open c = true → a ≠ [] → b ≠ [] → Z.of_nat (length (input c ++ a ++ b)) ≤ MAX_SURFACE_LINE_BYTES →
  same (serve_turn (serve_turn c (Bytes a)) (Bytes b)) (serve_turn c (Bytes (a ++ b))).
Proof.
  intros Ho Ha Hb Hlen. rewrite !length_app in Hlen.
  rewrite (serve_bytes c a), (serve_bytes c (a ++ b)) by (done || (rewrite ?length_app; lia) || (by destruct a)).
  rewrite (app_assoc (input c)), (cut_lines_app (input c ++ a) b). pose proof (cut_lines_rest (input c ++ a)) as Hr.
  destruct (cut_lines (input c ++ a)) as [l1 r1]. cbn [fst snd] in *. rewrite length_app in Hr.
  destruct (cut_lines (r1 ++ b)) as [l2 r2] eqn:E2. cbn [fst snd]. rewrite foldl_app.
  generalize (foldl serve_line c l1). intros c1. destruct (open c1) eqn:E1.
  - rewrite (serve_bytes (set_input r1 c1) b); [|done|done|cbn; rewrite length_app; lia].
    cbn [input set_input]. rewrite E2. cbn [fst snd]. rewrite serve_lines_input. by repeat split.
  - rewrite serve_lines_closed by done. cbn. rewrite E1. cbn. repeat split. cbn. by rewrite E1.
Qed.

Lemma serve_turn_same c d chunk : same c d → same (serve_turn c (Bytes chunk)) (serve_turn d (Bytes chunk)).
Proof.
  intros (H1 & H2 & H3 & H4 & H5 & H6). destruct c as [rc ic oc uc pc bc], d as [rd id od ud pd bd]. cbn in *. subst.
  destruct pd; [|done]. by rewrite H6.
Qed.
Lemma serve_chunks_same c d chunks : same c d →
  same (foldl serve_turn c (Bytes <$> chunks)) (foldl serve_turn d (Bytes <$> chunks)).
Proof. revert c d. induction chunks as [|x chunks IH]; intros c d Hc; [done|]. cbn. by apply IH, serve_turn_same. Qed.

#[local] Instance same_equiv : Equivalence same.
Proof.
  split.
  - intros c. by repeat split.
  - intros c d (?&?&?&E&?&Hi). repeat split; try done. intros Ho. symmetry. apply Hi. by rewrite E.
  - intros c d e (?&?&?&E1&?&Hi1) (?&?&?&E2&?&Hi2). repeat split; try congruence. intros Ho.
    rewrite Hi1 by done. apply Hi2. congruence.
Qed.

Lemma serve_chunks c chunks : open c = true → Forall (.≠ []) chunks → chunks ≠ [] →
  Z.of_nat (length (input c ++ concat chunks)) ≤ MAX_SURFACE_LINE_BYTES →
  same (foldl serve_turn c (Bytes <$> chunks)) (serve_turn c (Bytes (concat chunks))).
Proof.
  intros Ho Hne Hc Hlen. destruct chunks as [|x chunks]; [done|]. clear Hc. revert x Hne Hlen.
  induction chunks as [|y chunks IH]; intros x [Hx Hne]%Forall_cons Hlen.
  - cbn. by rewrite app_nil_r.
  - apply Forall_cons in Hne as [Hy Hne]. cbn [concat] in Hlen. rewrite !length_app in Hlen.
    assert (H2 := IH (x ++ y)). cbn [concat] in H2 |- *. rewrite app_assoc in H2 |- *.
    rewrite <- H2; [|constructor; [by destruct x|done]|rewrite !length_app; lia].
    cbn. apply serve_chunks_same, serve_two; [done..|rewrite !length_app; lia].
Qed.

(** C30: how the bytes of a connection are cut into reads does not matter: two ways to receive the same
    bytes, within the size of the buffer, lead to the same answers, calls, subscriptions and state. *)
Theorem framing_invariant s n chunks1 chunks2 :
  Forall (.≠ []) chunks1 → Forall (.≠ []) chunks2 → concat chunks1 = concat chunks2 → concat chunks1 ≠ [] →
  Z.of_nat (length (concat chunks1)) ≤ MAX_SURFACE_LINE_BYTES →
  same (foldl serve_turn (conn_start s n) (Bytes <$> chunks1)) (foldl serve_turn (conn_start s n) (Bytes <$> chunks2)).
Proof.
  intros H1 H2 Heq Hne Hlen.
  rewrite (serve_chunks (conn_start s n) chunks1), (serve_chunks (conn_start s n) chunks2), Heq; try done;
    by (intros -> || rewrite <- Heq).
Qed.

(** * Events *)

Definition event_of (o : Output) : option Z :=
  match o with OutEvent e => Some (p_subscription_id (SurfaceEvents.params e)) | OutResponse _ => None end.

(** Delivery for subscription [i] writes events of [i] only, and keeps the hub well-formed. *)
Lemma deliver_own c i h : hub (rpc c) = Some h → hub_ok h →
  (∃ h', hub (rpc (deliver c i)) = Some h' ∧ hub_ok h') ∧
  ∃ os, out (deliver c i) = out c ++ os ∧ Forall (λ o, event_of o = Some i) os.
Proof.
  intros Hh Hok. unfold deliver. destruct (negb (open c)); [split; [by eauto|exists []; by rewrite app_nil_r]|]. rewrite Hh.
  pose proof (hub_drain_ok i 32 h Hok) as Hok'. assert (Hevs : ∀ evs, (drain i 32 h).2 = Ok evs →
    Forall (λ e, p_subscription_id (SurfaceEvents.params e) = i) evs).
  { intros evs. unfold drain. destruct (subscriptions h !! i) as [sub|] eqn:Es; [|done]. intros [= <-].
    apply Forall_take. eapply Forall_impl; [exact (so_own _ _ (ho_subs h Hok i sub Es))|]. by intros e []. }
  destruct (drain i 32 h) as [h' [evs|]]; [|split; [by eauto|exists []; by rewrite app_nil_r]].
  specialize (Hevs evs eq_refl). cbn in Hok'.
  set (c0 := mkConn _ _ _ _ _ _). assert (H0 : hub (rpc c0) = Some h' ∧ out c0 = out c) by done.
  clearbody c0. destruct H0 as [H0 Hout]. rewrite <- Hout. clear Hout Hh c.
  induction Hevs as [|e evs He _ IH] in c0, H0 |- *; [split; [by eauto|exists []; by rewrite app_nil_r]|].
  cbn. set (c1 := if open c0 then write_out (OutEvent e) c0 else c0).
  assert (H1 : hub (rpc c1) = Some h' ∧ ∃ os, out c1 = out c0 ++ os ∧ Forall (λ o, event_of o = Some i) os).
  { subst c1. destruct (open c0); [|split; [done|exists []; by rewrite app_nil_r]]. unfold write_out.
    destruct (budget c0); (split; [done|]); [exists []; by rewrite app_nil_r|]. exists [OutEvent e]. split; [done|].
    constructor; [cbn; by rewrite He|constructor]. }
  destruct H1 as (H1 & os1 & Eo & Hos1). destruct (IH c1 H1) as (Hh & os2 & E2 & Hos2). split; [done|].
  exists (os1 ++ os2). rewrite E2, Eo, app_assoc. split; [done|]. by apply Forall_app.
Qed.

Lemma deliver_all_own l c h : hub (rpc c) = Some h → hub_ok h →
  ∃ os, out (foldl deliver c l) = out c ++ os ∧ Forall (λ o, ∃ i, i ∈ l ∧ event_of o = Some i) os.
Proof.
  revert c h. induction l as [|i l IH]; intros c h Hh Hok; [exists []; by rewrite app_nil_r|].
  destruct (deliver_own c i h Hh Hok) as ((h' & Hh' & Hok') & os1 & E1 & Hos1).
  destruct (IH _ _ Hh' Hok') as (os2 & E2 & Hos2). exists (os1 ++ os2). cbn. rewrite E2, E1, app_assoc.
  split; [done|]. apply Forall_app. split; (eapply Forall_impl; [eassumption|]; cbn).
  - intros o Ho. exists i. split; [by left|done].
  - intros o (j & Hj & Ho). exists j. split; [by right|done].
Qed.

(** A tick writes to a connection only events of the subscriptions it holds. *)
Theorem tick_delivers_own c h : hub (rpc c) = Some h → hub_ok h →
  ∃ os, out (serve_turn c Tick) = out c ++ os ∧ Forall (λ o, ∃ i, i ∈ own c ∧ event_of o = Some i) os.
Proof.
  intros Hh Hok. cbn. destruct (negb (open c)); [exists []; by rewrite app_nil_r|]. by apply (deliver_all_own _ _ h).
Qed.

(** A line that does not parse is not answered, although an answer to it is made. *)
Lemma parse_error_unanswered c l e : parse (string_of_list_byte l) = Err e → out (serve_line c l) = out c.
Proof.
  intros Hp. unfold serve_line, should_reply. destruct (negb (open c)); [done|]. destruct (negb _); [done|].
  rewrite Hp. by destruct (dispatch_with_token _ _ _).
Qed.

(** The end of a connection leaves its subscriptions in the hub. *)
Lemma hangup_keeps_subscriptions c : hub (rpc (serve_turn c Hangup)) = hub (rpc c).
Proof. cbn. by destruct (negb (open c)). Qed.
End rpc.

(** * A concrete provider *)

Module DemoSurface.
#[local] Instance idle_control : SurfaceControl := {
  ctl_list _ := Ok []; ctl_send _ _ _ := Ok tt; ctl_read _ _ _ := Ok []; ctl_resize _ _ _ _ := Ok tt;
  ctl_capabilities _ _ := Err "none"; ctl_snapshot_layout _ := Err "none"; ctl_restore_layout _ _ := Err "none";
}.
(** A parser of four lines. *)
Definition listing (more : list (string * Value)) : Value :=
  Obj ([("jsonrpc", Str "2.0"); ("id", Num (PosInt 1)); ("method", Str "surface.list")] ++ more).
Definition parse (line : string) : result Value string :=
  if bool_decide (line = "plain") then Ok (listing [])
  else if bool_decide (line = "token") then Ok (listing [("token", Str "secret")])
  else if bool_decide (line = "twice") then Ok (listing [("method", Str "surface.list")])
  else Err "expected value".
Definition dispatch := dispatch_with_token parse (λ _, None) (λ _, "bad").

Lemma token_required_witness :
  (dispatch (Some "secret") "plain" (mkRpc [] None)).1 = mkRpc [] None.
Proof.
  apply (token_required parse (λ _, None) (λ _, "bad") "secret" "plain" (mkRpc [] None)).
  intros tree [= <-]. split; [reflexivity|]. by intros q [= <-].
Defined.

(** A request that names its method twice is not checked for the token, and is carried out. *)
Example repeated_field_skips_token :
  (dispatch (Some "secret") "twice" (mkRpc [] None)).1 = mkRpc [CList] None.
Proof. reflexivity. Qed.

Definition two_lines : list byte := list_byte_of_string ("token" +:+ String nl ("plain" +:+ String nl EmptyString)).
Lemma provider_calls_valid_witness :
  let c := foldl (serve_turn parse (λ _, None) (λ _, "bad") (Some "secret")) (conn_start (mkRpc [] None) 9) [Bytes two_lines; Hangup] in
  calls (rpc c) = [CList] ∧ limits c.
Proof. split; [by vm_compute|]. apply provider_calls_valid. by split. Defined.

Lemma framing_invariant_witness :
  same (foldl (serve_turn parse (λ _, None) (λ _, "bad") None) (conn_start (mkRpc [] None) 9) (Bytes <$> [two_lines]))
       (foldl (serve_turn parse (λ _, None) (λ _, "bad") None) (conn_start (mkRpc [] None) 9)
          (Bytes <$> [take 3 two_lines; drop 3 two_lines])).
Proof. apply framing_invariant; [by repeat constructor|by repeat constructor|done|done|by vm_compute]. Defined.

(** A subscription with one event waiting. *)
Definition busy_hub : HubState :=
  hub_run demo_encode [HSubscribe (request_new "s"); HPublish "s" SurfaceEvents.Output [x61] None] hub_new.
Definition subscriber : Conn := mkConn (mkRpc [] (Some busy_hub)) [] [1] [] true 5.
Lemma tick_delivers_own_witness :
  ∃ os, out (serve_turn parse (λ _, None) (λ _, "bad") None subscriber Tick) = os ∧ length os = 1%nat ∧
        Forall (λ o, ∃ i, i ∈ [1] ∧ event_of o = Some i) os.
Proof.
  destruct (tick_delivers_own parse (λ _, None) (λ _, "bad") None subscriber busy_hub eq_refl) as (os & E & Hos).
  - apply hub_run_ok, hub_new_ok.
  - exists os. cbn [out subscriber app] in E. split_and!; [done|rewrite <- E; by vm_compute|done].
Defined.
End DemoSurface.
