(* ===== verification/ProcScan.v ===== *)
(** The process table of the host (sharecli-fleet/src/proc_scan.rs and the parsers of
    resource_watch.rs): scanning for agents, walking up to the nearest agent, the forests of
    processes below agents, and the texts of /proc.  The contents of /proc are arguments. *)
From S2P Require Import Prelude Detect.

Record ProcSnapshot : Type := mkProc { p_pid : Z; p_ppid : Z; p_comm : string; p_cmdline : list string; p_state : ascii }.
Record DetectedAgent : Type := mkAgent { a_pid : Z; a_family : string; a_comm : string }.
Record SystemToolScan : Type := mkTool { t_pid : Z; t_tool : string; t_comm : string }.
Inductive AgentTreeNode : Type :=
| Tree (pid ppid : Z) (comm : string) (fam : option string) (children : list AgentTreeNode).

(** * Parsing /proc *)

(** [content[content.rfind(')')? + 1..]]. *)
Fixpoint after_last (c : ascii) (s : string) : option string :=
  match s with
  | EmptyString => None
  | String a s' =>
      match after_last c s' with
      | Some r => Some r
      | None => if bool_decide (a = c) then Some s' else None
      end
  end.

Section parsers.
Variable from_utf8_lossy : string → string.
Definition parse_cmdline (raw : string) : list string :=
  from_utf8_lossy <$> filter (λ a, a ≠ EmptyString) (split_on (ascii_of_nat 0) raw).
Definition read_state_from_stat (stat : option string) : option ascii :=
  content ← stat; rest ← after_last ")"%char content;
  match trim_start rest with EmptyString => None | String c _ => Some c end.
Definition read_ppid (status : option string) : option Z :=
  text ← status;
  rest ← head (omap (strip_prefix "PPid:") (str_lines text));
  parse_uint u32_max (trim rest).

(** One directory entry of /proc: its name and the texts that could be read. *)
Record ProcEntry : Type := mkEntry {
  e_name : string; e_comm : option string; e_cmdline : option string; e_status : option string; e_stat : option string;
}.
Definition proc_of_entry (e : ProcEntry) : option ProcSnapshot :=
  pid ← parse_uint u32_max (e_name e);
  Some (mkProc pid (default 0 (read_ppid (e_status e))) (trim (default EmptyString (e_comm e)))
          (parse_cmdline (default EmptyString (e_cmdline e))) (default "?"%char (read_state_from_stat (e_stat e)))).
Definition list_linux_proc (proc : option (list ProcEntry)) : list ProcSnapshot :=
  omap proc_of_entry (default [] proc).
End parsers.

(** [trim_end_matches(" kB")] removes the suffix as often as it is there. *)
Fixpoint trim_kb (fuel : nat) (s : string) : string :=
  match fuel with
  | O => s
  | S f =>
      let n := (String.length s - 3)%nat in
      if (3 <=? String.length s)%nat && bool_decide (String.substring n 3 s = " kB") then trim_kb f (String.substring 0 n s) else s
  end.
Definition vm_rss (status : string) : result Z string :=
  match head (omap (strip_prefix "VmRSS:") (str_lines status)) with
  | None => Err "VmRSS not found"
  | Some rest =>
      let t := trim rest in
      match parse_uint u64_max (trim_kb (String.length t) t) with
      | Some kb => Ok (saturating_mul u64_max kb 1024)
      | None => Err "invalid VmRSS"
      end
  end.

(** One line of /proc/net/dev: skipped, an error, or its two counters. *)
Definition net_line (line : string) : option (result (Z * Z) string) :=
  '(iface, rest) ← split_once ":"%char line;
  let name := trim iface in
  let fields := split_whitespace rest in
  if bool_decide (name = "lo") || (length fields <? 9)%nat then None
  else Some (match fields !! 0%nat ≫= parse_uint u64_max, fields !! 8%nat ≫= parse_uint u64_max with
             | Some rx, Some tx => Ok (rx, tx)
             | None, _ => Err ("invalid RX bytes for interface " +:+ name)
             | _, None => Err ("invalid TX bytes for interface " +:+ name)
             end).
Fixpoint net_sum (lines : list string) (rx tx : Z) : result (Z * Z) string :=
  match lines with
  | [] => Ok (rx, tx)
  | l :: rest =>
      match net_line l with
      | None => net_sum rest rx tx
      | Some (Err e) => Err e
      | Some (Ok (r, t)) => net_sum rest (saturating_add u64_max rx r) (saturating_add u64_max tx t)
      end
  end.
Definition sample_host_net (contents : string) : result (Z * Z) string := net_sum (drop 2 (str_lines contents)) 0 0.

(** * Scans and walks *)

Section scan.
Variable rt : list RuntimePattern.
Variable tools : list RuntimePattern.
Definition family_of (p : ProcSnapshot) : option string := match_known_agent rt (p_comm p) (p_cmdline p).

Definition scan_agents (procs : list ProcSnapshot) : list DetectedAgent :=
  sort_by (λ a b, a_pid a <=? a_pid b)
    (omap (λ p, (λ f, mkAgent (p_pid p) f (p_comm p)) <$> family_of p) procs).
Definition scan_system_tools (procs : list ProcSnapshot) : list SystemToolScan :=
  sort_by (λ a b, t_pid a <=? t_pid b)
    (omap (λ p, (λ f, mkTool (p_pid p) f (p_comm p)) <$> match_system_tool tools (p_comm p) (p_cmdline p)) procs).

(** The table by pid; a later row replaces an earlier one. *)
Definition by_pid (procs : list ProcSnapshot) : gmap Z ProcSnapshot :=
  foldl (λ m p, <[p_pid p := p]> m) ∅ procs.

(** The loop of [walk_agent_ancestors]; every round adds a pid of the table to [seen]. *)
Fixpoint walk (fuel : nat) (m : gmap Z ProcSnapshot) (seen : gset Z) (cur : Z) : option DetectedAgent :=
  match fuel with
  | O => None
  | S f =>
      if bool_decide (cur ∈ seen) then None
      else p ← m !! cur;
           match family_of p with
           | Some fam => Some (mkAgent (p_pid p) fam (p_comm p))
           | None =>
               if (p_ppid p =? 0) || (p_ppid p =? p_pid p) then None else walk f m ({[cur]} ∪ seen) (p_ppid p)
           end
  end.
Definition walk_agent_ancestors (procs : list ProcSnapshot) (pid : Z) : option DetectedAgent :=
  walk (S (size (by_pid procs))) (by_pid procs) ∅ pid.
Definition is_under_agent (procs : list ProcSnapshot) (pid : Z) : bool :=
  bool_decide (is_Some (walk_agent_ancestors procs pid)).
Definition agent_label_for_pid (procs : list ProcSnapshot) (pid : Z) : string :=
  default "-" (a_family <$> walk_agent_ancestors procs pid).
Definition lookup_proc (procs : list ProcSnapshot) (pid : Z) : option ProcSnapshot :=
  find (λ p, p_pid p =? pid) procs.

(** * Forests *)

Definition child_pids (m : gmap Z ProcSnapshot) (pid : Z) : list Z :=
  sort_by Z.leb (p_pid <$> filter (λ p, p_ppid p = pid) (map_to_list m).*2).

(** [build_agent_subtree]: the outer option is [None] when the recursion does not end within the
    fuel. *)
Fixpoint build_agent_subtree (fuel : nat) (m : gmap Z ProcSnapshot) (agent_pids : list Z) (pid : Z)
  : option (option AgentTreeNode) :=
  match fuel with
  | O => None
  | S f =>
      match m !! pid with
      | None => Some None
      | Some p =>
          children ← mapM (build_agent_subtree f m agent_pids) (child_pids m pid);
          Some (Some (Tree pid (p_ppid p) (p_comm p) (if bool_decide (pid ∈ agent_pids) then family_of p else None)
                        (omap id children)))
      end
  end.

Definition forest_roots (procs : list ProcSnapshot) : list Z :=
  let agents := scan_agents procs in
  sort_by Z.leb (a_pid <$> filter (λ a, default 0 (p_ppid <$> by_pid procs !! a_pid a) ∉ a_pid <$> agents) agents).
Definition build_agent_forests (fuel : nat) (procs : list ProcSnapshot) : option (list AgentTreeNode) :=
  ts ← mapM (build_agent_subtree fuel (by_pid procs) (a_pid <$> scan_agents procs)) (forest_roots procs);
  Some (omap id ts).

Fixpoint tree_pids (t : AgentTreeNode) : list Z :=
  match t with Tree pid _ _ _ children => pid :: concat (map tree_pids children) end.
Definition collect_forest_pids (forests : list AgentTreeNode) : list Z := concat (map tree_pids forests).

Definition build_agent_state_map (procs : list ProcSnapshot) (pids : list Z) : gmap Z ascii :=
  foldl (λ m pid, match lookup_proc procs pid with Some p => <[pid := p_state p]> m | None => m end) ∅ pids.
Definition build_forest_state_map (procs : list ProcSnapshot) (forests : list AgentTreeNode) : gmap Z ascii :=
  build_agent_state_map procs (collect_forest_pids forests).
Definition state_text_for_pid (states : gmap Z ascii) (pid : Z) : string :=
  match states !! pid with
  | Some c => if bool_decide (c = "?"%char) then "-" else String c EmptyString
  | None => "-"
  end.

(** * The table as a relation *)

Definition keyed (m : gmap Z ProcSnapshot) : Prop := ∀ k p, m !! k = Some p → p_pid p = k.
(** [x]'s parent is [y]. *)
Definition parent (m : gmap Z ProcSnapshot) (x y : Z) : Prop := ∃ p, m !! x = Some p ∧ p_ppid p = y.
Definition agent_at (m : gmap Z ProcSnapshot) (x : Z) : Prop := ∃ p, m !! x = Some p ∧ is_Some (family_of p).

Lemma parent_fun m x y z : parent m x y → parent m x z → y = z.
Proof. intros (p & Hp & <-) (q & Hq & <-). congruence. Qed.

Lemma by_pid_keyed procs : keyed (by_pid procs).
Proof.
  unfold by_pid. assert (H0 : keyed ∅) by (by intros k p Hk). revert H0. generalize (∅ : gmap Z ProcSnapshot).
  induction procs as [|q procs IH]; intros m Hm; [done|]. cbn. apply IH.
  intros k p [[<- <-]|[_ Hk]]%lookup_insert_Some; auto.
Qed.

Lemma child_pids_spec m q c : keyed m → c ∈ child_pids m q ↔ parent m c q.
Proof.
  intros Hk. unfold child_pids. rewrite sort_by_perm, list_elem_of_fmap. split.
  - intros (p & -> & [Hq ([k p'] & -> & Hp%elem_of_map_to_list)%list_elem_of_fmap]%list_elem_of_filter).
    cbn in *. exists p'. by rewrite (Hk k p' Hp).
  - intros (p & Hp & Hq). exists p. split; [by rewrite (Hk c p Hp)|]. apply list_elem_of_filter. split; [done|].
    apply list_elem_of_fmap. exists (c, p). split; [done|]. by apply elem_of_map_to_list.
Qed.

(** * Subtrees *)

Lemma build_subtree_inv f m ag q t : build_agent_subtree (S f) m ag q = Some (Some t) →
  ∃ p os, m !! q = Some p ∧ Forall2 (λ c o, build_agent_subtree f m ag c = Some o) (child_pids m q) os ∧
    tree_pids t = q :: collect_forest_pids (omap id os).
Proof.
  cbn [build_agent_subtree]. destruct (m !! q) as [p|]; [|done].
  destruct (mapM _ (child_pids m q)) as [os|] eqn:E; [|done]. intros [= <-].
  exists p, os. split_and!; [done|by apply mapM_Some in E|done].
Qed.

Lemma elem_of_collect x os :
  x ∈ collect_forest_pids (omap id os) ↔ ∃ t : AgentTreeNode, Some t ∈ os ∧ x ∈ tree_pids t.
Proof.
  unfold collect_forest_pids. rewrite list_elem_of_In, in_concat. split.
  - intros (l & Hl%list_elem_of_In%list_elem_of_fmap & Hx%list_elem_of_In). destruct Hl as (t & -> & Ht).
    apply list_elem_of_omap in Ht as (o & Ho & Et). cbn in Et. subst o. eauto.
  - intros (t & Ht & Hx). exists (tree_pids t). split; apply list_elem_of_In; [|done]. apply list_elem_of_fmap.
    exists t. split; [done|]. apply list_elem_of_omap. by exists (Some t).
Qed.

(** A subtree holds exactly the processes of the table below its root. *)
Lemma subtree_pids f m ag q t : keyed m → build_agent_subtree f m ag q = Some (Some t) →
  ∀ x, x ∈ tree_pids t ↔ is_Some (m !! x) ∧ rtc (parent m) x q.
Proof.
  intros Hk. revert q t. induction f as [|f IH]; [done|]. intros q t Hb x.
  apply build_subtree_inv in Hb as (p & os & Hp & Hos & ->). rewrite elem_of_cons, elem_of_collect. split.
  - intros [->|(t' & Ht' & Hx)]; [split; [by eauto|apply rtc_refl]|].
    apply list_elem_of_lookup in Ht' as [i Hi]. destruct (Forall2_lookup_r _ _ _ _ _ Hos Hi) as (c & Hc & Hb).
    apply list_elem_of_lookup_2, child_pids_spec in Hc; [|done]. destruct (proj1 (IH c t' Hb x) Hx) as [Hsx Hxc]. split; [done|].
    by eapply rtc_r.
  - intros [Hx Hr]. apply rtc_inv_r in Hr as [->|(c & Hxc & Hcq)]; [by left|right].
    apply (child_pids_spec m q c Hk) in Hcq as Hc. apply list_elem_of_lookup in Hc as [i Hi].
    destruct (Forall2_lookup_l _ _ _ _ _ Hos Hi) as (o & Ho & Hb). destruct o as [t'|].
    + exists t'. split; [by eapply list_elem_of_lookup_2|]. by apply (IH c t' Hb).
    + destruct f; [done|]. cbn [build_agent_subtree] in Hb. destruct Hcq as (pc & Hpc & _). rewrite Hpc in Hb.
      by destruct (mapM _ _).
Qed.

(** ** Termination *)

Lemma tc_first {A} (R : relation A) x z : tc R x z → ∃ y, R x y ∧ rtc R y z.
Proof. destruct 1 as [x z H|x y z H1 H2]; [exists z; split; [done|apply rtc_refl]|]. exists y. split; [done|by apply tc_rtc]. Qed.
Lemma tc_last {A} (R : relation A) x z : tc R x z → ∃ y, rtc R x y ∧ R y z.
Proof.
  induction 1 as [x z H|x y z H1 _ (w & H2 & H3)]; [exists x; split; [apply rtc_refl|done]|].
  exists w. split; [by eapply rtc_l|done].
Qed.

(** The parent relation is a function, so what is above a cycle is on it. *)
Lemma cycle_up m x y : rtc (parent m) x y → tc (parent m) x x → tc (parent m) y y.
Proof.
  induction 1 as [x|x z y Hxz _ IH]; [done|]. intros Hxx. apply IH.
  apply tc_first in Hxx as (z' & Hxz' & Hzx). rewrite <- (parent_fun _ _ _ _ Hxz Hxz') in Hzx.
  eapply tc_rtc_l; [exact Hzx|by apply tc_once].
Qed.

Lemma length_path_le m (path : list Z) : NoDup path → (∀ x, x ∈ path → is_Some (m !! x)) → (length path ≤ size (m : gmap Z ProcSnapshot))%nat.
Proof.
  intros Hnd Hin. rewrite <- size_dom, <- (size_list_to_set (C:=gset Z)) by done. apply subseteq_size.
  intros x Hx%elem_of_list_to_set. apply elem_of_dom. auto.
Qed.

Lemma build_total f m ag r path q : keyed m → ¬ tc (parent m) r r → rtc (parent m) q r →
  NoDup path → (∀ x, x ∈ path → is_Some (m !! x) ∧ tc (parent m) q x) → (size m < f + length path)%nat →
  is_Some (build_agent_subtree f m ag q).
Proof.
  intros Hk Hr. revert path q. induction f as [|f IH]; intros path q Hqr Hnd Hpath Hf.
  { pose proof (length_path_le m path Hnd (λ x Hx, proj1 (Hpath x Hx))). lia. }
  cbn. destruct (m !! q) as [p|] eqn:Hp; [|done].
  assert (is_Some (mapM (build_agent_subtree f m ag) (child_pids m q))) as [os ->]; [|done].
  apply mapM_is_Some, Forall_forall. intros c Hc%child_pids_spec; [|done]. apply (IH (q :: path)).
  - by eapply rtc_l.
  - constructor; [|done]. intros Hq. apply Hr, (cycle_up m q r Hqr). by apply Hpath.
  - intros x [->|Hx]%elem_of_cons; [split; [by eauto|by apply tc_once]|].
    destruct (Hpath x Hx) as [Hs Ht]. split; [done|]. by eapply tc_l.
  - cbn. lia.
Qed.

(** The subtree of a process on a cycle of parents is never finished. *)
Lemma cyclic_diverges f m ag q : keyed m → tc (parent m) q q → build_agent_subtree f m ag q = None.
Proof.
  intros Hk. revert q. induction f as [|f IH]; intros q Hq; [done|]. cbn.
  assert (is_Some (m !! q)) as [p ->].
  { apply tc_first in Hq as (z & (p & Hp & _) & _). eauto. }
  assert (Hc : ∃ c, parent m c q ∧ tc (parent m) c c).
  { apply tc_last in Hq as (c & Hqc & Hcq). exists c. split; [done|]. eapply tc_rtc_r; [by apply tc_once|done]. }
  destruct Hc as (c & Hcq & Hcc). apply (child_pids_spec m q c Hk) in Hcq.
  destruct (mapM _ _) as [os|] eqn:E; [|done]. apply mk_is_Some, mapM_is_Some in E.
  rewrite Forall_forall in E. destruct (E c Hcq) as [o Ho]. by rewrite (IH c Hcc) in Ho.
Qed.

(** * The walk up *)

(** One round of the walk: [x] is no agent, and its parent is another process than 0. *)
Definition climbs (m : gmap Z ProcSnapshot) (x y : Z) : Prop :=
  ∃ p, m !! x = Some p ∧ family_of p = None ∧ p_ppid p = y ∧ y ≠ 0 ∧ y ≠ p_pid p.
Definition found (m : gmap Z ProcSnapshot) (q : Z) (a : DetectedAgent) : Prop :=
  ∃ p, m !! q = Some p ∧ family_of p = Some (a_family a) ∧ a_pid a = p_pid p ∧ a_comm a = p_comm p.

Lemma climbs_fun m x y z : climbs m x y → climbs m x z → y = z.
Proof. intros (p & Hp & _ & <- & _) (q & Hq & _ & <- & _). congruence. Qed.
Lemma climbs_not_found m x y a : climbs m x y → ¬ found m x a.
Proof. intros (p & Hp & Hn & _) (q & Hq & Hf & _). congruence. Qed.

Lemma climb_length m x q a n k : found m q a → nsteps (climbs m) n x q → nsteps (climbs m) k x q → n = k.
Proof.
  intros Hq Hn. revert k. induction Hn as [x|n x y q Hxy Hn IH]; intros k Hk.
  - inversion Hk as [|? ? ? ? Hs]; subst; [done|]. exfalso. by eapply climbs_not_found.
  - inversion Hk as [|k' ? y' ? Hxy' Hk']; subst; [exfalso; by eapply climbs_not_found|].
    f_equal. apply IH; [done|]. by rewrite (climbs_fun _ _ _ _ Hxy Hxy').
Qed.

Lemma walk_sound fuel m seen x a : walk fuel m seen x = Some a → ∃ q, rtc (climbs m) x q ∧ found m q a.
Proof.
  revert seen x. induction fuel as [|f IH]; intros seen x; [done|]. cbn [walk]. case_bool_decide; [done|].
  destruct (m !! x) as [p|] eqn:Hp; [|done]. cbn. destruct (family_of p) as [fam|] eqn:Hf.
  - intros [= <-]. exists x. split; [apply rtc_refl|]. by exists p.
  - destruct (_ || _) eqn:E; [done|]. intros (q & Hq & Ha)%IH. exists q. split; [|done]. eapply rtc_l; [|done].
    exists p. apply orb_false_iff in E as [E1%Z.eqb_neq E2%Z.eqb_neq]. done.
Qed.

Lemma walk_complete fuel m (seen : gset Z) x q a n :
  nsteps (climbs m) n x q → found m q a → seen ⊆ dom m → (∀ z, z ∈ seen → ∃ k, (n < k)%nat ∧ nsteps (climbs m) k z q) →
  (size m < fuel + size seen)%nat → walk fuel m seen x = Some a.
Proof.
  intros Hn Ha. revert fuel seen. induction Hn as [x|n x y q Hxy Hn IH]; intros fuel seen Hsub Hseen Hfuel;
    (destruct fuel as [|f]; [apply subseteq_size in Hsub; rewrite size_dom in Hsub; lia|]); cbn [walk].
  - rewrite bool_decide_false.
    2:{ intros (k & Hk & Hs)%Hseen. assert (0%nat = k) by (by eapply climb_length; [|constructor|]). lia. }
    destruct Ha as (p & -> & Hf & ? & ?). cbn. rewrite Hf. destruct a; cbn in *. by subst.
  - assert (Hx : x ∉ seen).
    { intros (k & Hk & Hs)%Hseen. assert (S n = k) by (by eapply climb_length; [|econstructor|]). lia. }
    rewrite bool_decide_false by done. pose proof Hxy as (p & Hp & Hf & Hpy & H0 & Hself). rewrite Hp. cbn. rewrite Hf.
    rewrite (proj2 (orb_false_iff _ _)) by (split; apply Z.eqb_neq; congruence). rewrite Hpy. apply IH; [done| | |].
    + apply union_subseteq. split; [|done]. apply singleton_subseteq_l, elem_of_dom. eauto.
    + intros z [->%elem_of_singleton|Hz]%elem_of_union; [exists (S n); split; [lia|by econstructor]|].
      destruct (Hseen z Hz) as (k & ? & ?). exists k. split; [lia|done].
    + rewrite size_union by set_solver. rewrite size_singleton. lia.
Qed.

(** The walk finds the nearest agent: it answers with the first process on the way up from [pid]
    that is an agent, and with none only if there is none, whatever the table, cycles included. *)
Theorem walk_finds_nearest procs pid a :
  walk_agent_ancestors procs pid = Some a ↔
  ∃ q, rtc (climbs (by_pid procs)) pid q ∧ found (by_pid procs) q a.
Proof.
  unfold walk_agent_ancestors. split; [apply walk_sound|].
  intros (q & [n Hn]%rtc_nsteps & Ha). eapply walk_complete; [done|done|done|set_solver|lia].
Qed.

(** * Forests cover what the walk finds *)

Lemma by_pid_lookup procs k p : NoDup (p_pid <$> procs) → by_pid procs !! k = Some p ↔ p ∈ procs ∧ p_pid p = k.
Proof.
  intros Hnd. unfold by_pid. induction procs as [|q procs IH] using rev_ind.
  - cbn. rewrite lookup_empty. set_solver.
  - rewrite fmap_app, NoDup_app in Hnd. destruct Hnd as (Hnd & Hne & _). rewrite foldl_app. cbn.
    rewrite lookup_insert_Some, IH, elem_of_app, list_elem_of_singleton by done. split.
    + intros [[<- <-]|[? [? <-]]]; auto.
    + intros [[Hp| ->] Hk]; [right|by left]. split; [|done]. intros Eq. apply (Hne (p_pid p)); [set_solver|].
      rewrite Hk, <- Eq. set_solver.
Qed.

Lemma scan_agents_pids procs x : NoDup (p_pid <$> procs) →
  x ∈ a_pid <$> scan_agents procs ↔ agent_at (by_pid procs) x.
Proof.
  intros Hnd. unfold scan_agents, agent_at. rewrite sort_by_perm, list_elem_of_fmap. split.
  - intros (a & -> & (p & Hp & Ha)%list_elem_of_omap). destruct (family_of p) as [f|] eqn:Hf; [|done].
    injection Ha as <-. exists p. rewrite by_pid_lookup by done. split; [done|]. by rewrite Hf.
  - intros (p & [Hp <-]%by_pid_lookup & [f Hf]); [|done]. eexists (mkAgent _ _ _). split; [|apply list_elem_of_omap].
    { cbn. reflexivity. } exists p. by rewrite Hf.
Qed.

Section acyclic.
Context (procs : list ProcSnapshot) (Hnd : NoDup (p_pid <$> procs)).
#[local] Notation m := (by_pid procs).
Context (Hac : ∀ x, ¬ tc (parent m) x x) (H0 : m !! 0 = None).

Lemma forest_roots_spec r : r ∈ forest_roots procs ↔ agent_at m r ∧ ∀ y, parent m r y → ¬ agent_at m y.
Proof.
  unfold forest_roots. rewrite sort_by_perm, list_elem_of_fmap. split.
  - intros (a & -> & [Hp Ha]%list_elem_of_filter). assert (Hag : agent_at m (a_pid a)).
    { apply scan_agents_pids; [done|]. apply list_elem_of_fmap. eauto. }
    split; [done|]. intros y (p & Hy & <-) Hay. apply Hp. apply scan_agents_pids; [done|]. rewrite Hy. done.
  - intros [Hr Hy]. pose proof Hr as Hs. apply scan_agents_pids, list_elem_of_fmap in Hs as (a & -> & Ha); [|done].
    exists a. split; [done|]. apply list_elem_of_filter. split; [|done]. rewrite scan_agents_pids by done.
    destruct Hr as (p & Hp & _). rewrite Hp. cbn. apply Hy. by exists p.
Qed.

(** Above every agent, or at it, there is a root. *)
Lemma root_above n path x : NoDup path → (∀ z, z ∈ path → is_Some (m !! z) ∧ tc (parent m) z x) →
  (size m < n + length path)%nat → agent_at m x → ∃ r, rtc (parent m) x r ∧ r ∈ forest_roots procs.
Proof.
  revert path x. induction n as [|n IH]; intros path x Hp Hpath Hn Hx.
  { pose proof (length_path_le m path Hp (λ z Hz, proj1 (Hpath z Hz))). lia. }
  pose proof Hx as (p & Hpx & _). destruct (decide (is_Some (p' ← m !! p_ppid p; family_of p'))) as [Hup|Hup].
  - assert (Hag : agent_at m (p_ppid p)).
    { destruct (m !! p_ppid p) as [p'|] eqn:E; [|by destruct Hup]. exists p'. done. }
    assert (Hpar : parent m x (p_ppid p)) by (by exists p).
    destruct (IH (x :: path) (p_ppid p)) as (r & Hr & Hroot); [| |cbn; lia|done|exists r; split; [by eapply rtc_l|done]].
    + constructor; [|done]. intros Hin. by apply (Hac x), Hpath.
    + intros z [->|Hz]%elem_of_cons; [split; [by eauto|by apply tc_once]|].
      destruct (Hpath z Hz) as [? ?]. split; [done|]. by eapply tc_r.
  - exists x. split; [apply rtc_refl|]. apply forest_roots_spec. split; [done|].
    intros y (p2 & Hp2 & <-) (p' & Hy & Hf). apply Hup. assert (p2 = p) as -> by congruence. by rewrite Hy.
Qed.

(** With no cycle and no process 0, the walk from a process of the table is the way up. *)
Lemma nearest_above x q : is_Some (m !! x) → rtc (parent m) x q → agent_at m q → is_under_agent procs x = true.
Proof.
  intros Hx Hr Hq. unfold is_under_agent. apply bool_decide_eq_true. induction Hr as [x|x y q Hxy Hr IH].
  - destruct Hq as (p & Hp & [fam Hf]). exists (mkAgent (p_pid p) fam (p_comm p)). apply walk_finds_nearest.
    exists x. split; [apply rtc_refl|]. by exists p.
  - destruct Hxy as (p & Hp & Hpy). destruct (family_of p) as [fam|] eqn:Hf.
    + exists (mkAgent (p_pid p) fam (p_comm p)). apply walk_finds_nearest. exists x. split; [apply rtc_refl|]. by exists p.
    + assert (Hy : is_Some (m !! y)).
      { apply rtc_inv in Hr as [->|(z & (py & Hpy' & _) & _)]; [|by eauto]. destruct Hq as (pq & ? & _). eauto. }
      destruct (IH Hy Hq) as [a (q' & Hq' & Ha)%walk_finds_nearest]. exists a. apply walk_finds_nearest. exists q'.
      split; [|done]. eapply rtc_l; [|done]. exists p. split_and!; try done.
      * intros ->. rewrite H0 in Hy. by destruct Hy.
      * rewrite (by_pid_keyed procs x p Hp). intros ->. apply (Hac x), tc_once. by exists p.
Qed.

(** On a table without a cycle of parents the forests are finished, and a process appears in
    them if and only if the walk finds an agent at it or above it. *)
Theorem forests_cover_agents :
  ∃ forests, build_agent_forests (S (size m)) procs = Some forests ∧
    ∀ x, x ∈ collect_forest_pids forests ↔ is_under_agent procs x = true.
Proof.
  unfold build_agent_forests. set (ag := a_pid <$> scan_agents procs).
  assert (Hk : keyed m) by apply by_pid_keyed.
  assert (is_Some (mapM (build_agent_subtree (S (size m)) m ag) (forest_roots procs))) as [ts Hts].
  { apply mapM_is_Some, Forall_forall. intros r _. apply (build_total _ m ag r []); [done|apply Hac|apply rtc_refl|constructor|set_solver|cbn; lia]. }
  rewrite Hts. exists (omap id ts). split; [done|]. apply mapM_Some in Hts. intros x. rewrite elem_of_collect. split.
  - intros (t & Ht & Hx). apply list_elem_of_lookup in Ht as [i Hi].
    destruct (Forall2_lookup_r _ _ _ _ _ Hts Hi) as (r & Hr & Hb).
    destruct (proj1 (subtree_pids _ _ _ _ _ Hk Hb x) Hx) as [Hs Hxr]. apply list_elem_of_lookup_2, forest_roots_spec in Hr as [Hr _].
    by apply (nearest_above x r).
  - unfold is_under_agent. rewrite bool_decide_eq_true. intros [a (q & Hq & Ha)%walk_finds_nearest].
    assert (Hxq : rtc (parent m) x q).
    { eapply rtc_subrel; [|exact Hq]. intros z y (p & Hp & _ & Hy & _). by exists p. }
    assert (Hag : agent_at m q) by (destruct Ha as (p & Hp & Hf & _); exists p; by rewrite Hf).
    destruct (root_above (S (size m)) [] q) as (r & Hqr & Hroot); [constructor|set_solver|cbn; lia|done|].
    apply list_elem_of_lookup in Hroot as [i Hi]. destruct (Forall2_lookup_l _ _ _ _ _ Hts Hi) as (o & Ho & Hb).
    assert (Hroot : agent_at m r) by (by apply forest_roots_spec; eapply list_elem_of_lookup_2).
    destruct o as [t|].
    + exists t. split; [by eapply list_elem_of_lookup_2|]. apply (subtree_pids _ _ _ _ _ Hk Hb x). split; [|by etrans].
      apply rtc_inv in Hxq as [->|(z & (p & Hp & _) & _)]; [destruct Hag as (p & Hp & _)|]; eauto.
    + cbn [build_agent_subtree] in Hb. destruct Hroot as (p & Hp & _). rewrite Hp in Hb. by destruct (mapM _ _).
Qed.
End acyclic.
End scan.

(** Parents that are older than their children form no cycle. *)
Lemma ordered_acyclic m : map_Forall (λ k p, p_ppid p < k) m → ∀ x, ¬ tc (parent m) x x.
Proof.
  intros Hlt x Hx. assert (∀ y z, tc (parent m) y z → z < y); [|by apply (Z.lt_irrefl x); auto].
  induction 1 as [y z (p & Hp & <-)|y w z (p & Hp & <-) _ IH]; apply Hlt in Hp; lia.
Qed.

(** * A host *)

(** An agent, its shell, and an agent started from that shell. *)
Definition nested_host : list ProcSnapshot :=
  [mkProc 10 1 "claude" [] "S"; mkProc 11 10 "bash" [] "S"; mkProc 12 11 "codex" [] "R"; mkProc 13 1 "vim" [] "S"]%char.

Lemma forests_cover_agents_witness :
  ∃ forests, build_agent_forests [] (S (size (by_pid nested_host))) nested_host = Some forests ∧
    11 ∈ collect_forest_pids forests ∧ 13 ∉ collect_forest_pids forests.
Proof.
  destruct (forests_cover_agents [] nested_host) as (forests & Hb & Hf).
  - apply (bool_decide_unpack _). by vm_compute.
  - apply ordered_acyclic. apply (bool_decide_unpack _). by vm_compute.
  - by vm_compute.
  - exists forests. rewrite !Hf. split_and!; [done|by vm_compute|by vm_compute].
Defined.

(** The agent started from the shell appears below the first agent and once more as a root. *)
Example nested_agent_listed_twice :
  collect_forest_pids <$> build_agent_forests [] 5 nested_host = Some [10; 11; 12; 12].
Proof. by vm_compute. Qed.

(** Two processes that name each other as parent: the recursion has no end. *)
Definition cyclic_host : list ProcSnapshot := [mkProc 10 11 "claude" [] "S"; mkProc 11 10 "bash" [] "S"]%char.
Lemma cyclic_host_never_finishes fuel : build_agent_forests [] fuel cyclic_host = None.
Proof.
  unfold build_agent_forests. assert (forest_roots [] cyclic_host = [10]) as -> by (by vm_compute). cbn [mapM].
  rewrite cyclic_diverges; [done|apply by_pid_keyed|]. apply tc_l with 11; [|apply tc_once].
  - exists (mkProc 10 11 "claude" [] "S"%char). by vm_compute.
  - exists (mkProc 11 10 "bash" [] "S"%char). by vm_compute.
Qed.

(** /proc texts of a process named with a parenthesis. *)
Example stat_after_last_paren : read_state_from_stat (Some "7 (a) b) S 1 7") = Some "S"%char.
Proof. reflexivity. Qed.
