(* ===== verification/Cast.v ===== *)
(** Casting text into terminal panes (src/cast/{address,registry,caster}.rs and
    src/commands/cast.rs): the address syntax, the registry file, the transports over an interface of
    command execution, the retrying wrapper and the fallback chain.  Commands, the TOML and JSON
    texts and the search path are parameters. *)
From S2P Require Import Prelude.

(** * Addresses *)

Inductive Host : Type := Local | Tailscale | Ssh (user host : string).
Record PaneAddress : Type := mkAddr { machine : string; a_host : Host; window : Z; pane : Z }.

Definition host_text (h : Host) : string :=
  match h with Local => "local" | Tailscale => "tailscale" | Ssh u h => "ssh:" +:+ u +:+ "@" +:+ h end.
Definition addr_text (a : PaneAddress) : string :=
  machine a +:+ ":" +:+ host_text (a_host a) +:+ ":" +:+ show_u (window a) +:+ ":" +:+ show_u (pane a).

(** [rfind] and the two halves around it. *)
Fixpoint split_once_rev (c : ascii) (s : string) : option (string * string) :=
  match s with
  | EmptyString => None
  | String a s' =>
      match split_once_rev c s' with
      | Some (l, r) => Some (String a l, r)
      | None => if bool_decide (a = c) then Some (EmptyString, s') else None
      end
  end.

Definition is_digit (c : ascii) : bool := bool_decide (is_Some (digit_val c)).
Definition in_range (lo hi : ascii) (c : ascii) : bool :=
  (nat_of_ascii lo <=? nat_of_ascii c)%nat && (nat_of_ascii c <=? nat_of_ascii hi)%nat.
Definition is_alnum (c : ascii) : bool := is_digit c || in_range "a" "z" c || in_range "A" "Z" c.

Definition quote (s : string) : string := "'" +:+ s +:+ "'".
Definition not_negative (s label : string) : string :=
  label +:+ " index must be non-negative, got " +:+ quote s.

Definition parse_index (s label : string) : result (option Z) string :=
  if str_is_empty s then Ok None
  else if negb (str_all is_digit s)
  then if starts_with "-" s then Err (not_negative s label) else Ok None
  else if starts_with "-" s then Err (not_negative s label)
  else n <-? ok_or (label +:+ " index out of range: " +:+ quote s) (parse_uint u32_max s);; Ok (Some n).

Definition peel_pane_window (s : string) : result (Z * Z * string) string :=
  match split_once_rev ":" s with
  | None => Ok (0, 0, s)
  | Some (lft, rgt) =>
      o <-? parse_index rgt "pane";;
      match o with
      | None => Ok (0, 0, s)
      | Some p =>
          match split_once_rev ":" lft with
          | None => Ok (p, 0, lft)
          | Some (lft2, rgt2) =>
              o2 <-? parse_index rgt2 "window";;
              Ok (match o2 with Some w => (p, w, lft2) | None => (p, 0, lft) end)
          end
      end
  end.

Definition parse_host (s : string) : result Host string :=
  if str_is_empty s then Err "empty host specifier"
  else if bool_decide (s = "local") then Ok Local
  else if bool_decide (s = "tailscale") then Ok Tailscale
  else match strip_prefix "ssh:" s with
  | Some rest =>
      match split_once "@" rest with
      | None => Err ("ssh host must be 'ssh:user@host', got " +:+ quote s)
      | Some (user, host) =>
          if str_is_empty user then Err ("empty ssh user in " +:+ quote s)
          else if str_is_empty host then Err ("empty ssh host in " +:+ quote s)
          else Ok (Ssh user host)
      end
  | None => Err ("unknown host " +:+ quote s +:+ " (expected 'local', 'tailscale', or 'ssh:user@host')")
  end.

Definition is_valid_machine (s : string) : bool :=
  negb (str_is_empty s) &&
  str_all (λ c, is_alnum c || bool_decide (c = "-"%char) || bool_decide (c = "_"%char) || bool_decide (c = "."%char)) s.

Definition parse_addr (s : string) : result PaneAddress string :=
  if str_is_empty s then Err "empty pane address"
  else match split_once ":" s with
  | None => Err ("missing host: " +:+ quote s)
  | Some (m, rest) =>
      if str_is_empty m then Err "empty machine name"
      else if negb (is_valid_machine m) then Err ("invalid machine name " +:+ quote m +:+ " (allowed: a-zA-Z0-9._-)")
      else x <-? peel_pane_window rest;; let '(p, w, h) := x in host <-? parse_host h;; Ok (mkAddr m host w p)
  end.

(** ** The display form reads back *)

(** What every address the parser returns satisfies. *)
Definition wf_host (h : Host) : Prop :=
  match h with Ssh u h => u ≠ EmptyString ∧ has_char "@" u = false ∧ h ≠ EmptyString | _ => True end.
Record wf_addr (a : PaneAddress) : Prop := {
  wf_machine : is_valid_machine (machine a) = true;
  wf_ahost : wf_host (a_host a);
  wf_window : 0 ≤ window a ≤ u32_max;
  wf_pane : 0 ≤ pane a ≤ u32_max }.

Lemma split_once_app c s t : has_char c s = false → split_once c (s +:+ String c t) = Some (s, t).
Proof.
  unfold split_once. induction s as [|a s IH]; rewrite ?str_app_cons, ?str_app_nil_l; cbn; [by case_bool_decide|].
  intros [Ha Hs]%orb_false_iff. rewrite Ha. by rewrite IH.
Qed.
Lemma split_once_sound c s l r : split_once c s = Some (l, r) → has_char c l = false ∧ s = l +:+ String c r.
Proof.
  unfold split_once. revert l. induction s as [|a s IH]; intros l; cbn; [done|].
  case_bool_decide as Ha; [by intros [= <- <-]; subst|].
  destruct (split_first _ s) as [[l' r']|]; cbn; [|done]. intros [= <- <-].
  destruct (IH l' eq_refl) as [? ->]. split; [cbn|done]. by case_bool_decide.
Qed.
Lemma split_once_rev_none c t : has_char c t = false → split_once_rev c t = None.
Proof.
  induction t as [|a t IH]; cbn; [done|]. intros Ht. destruct (bool_decide (a = c)); [done|]. by rewrite IH.
Qed.
Lemma split_once_rev_app c s t : has_char c t = false → split_once_rev c (s +:+ String c t) = Some (s, t).
Proof.
  intros Ht. induction s as [|a s IH]; rewrite ?str_app_cons, ?str_app_nil_l; cbn; [|by rewrite IH]. rewrite split_once_rev_none by done. by case_bool_decide.
Qed.
Lemma str_all_digits_show n : str_all is_digit (show_u n) = true.
Proof.
  enough (H : ∀ s, (∀ c, digit_val c = None → has_char c s = false) → str_all is_digit s = true).
  { apply H. intros c. apply has_char_show_u. }
  induction s as [|a s IH]; intros Hs; [done|]. cbn. apply andb_true_iff. split.
  - unfold is_digit. apply bool_decide_eq_true. destruct (digit_val a) eqn:E; [done|].
    apply Hs in E. cbn in E. by case_bool_decide.
  - apply IH. intros c Hc. apply Hs in Hc. cbn in Hc. by apply orb_false_iff in Hc as [_ ?].
Qed.
Lemma parse_index_show n label : 0 ≤ n ≤ u32_max → parse_index (show_u n) label = Ok (Some n).
Proof.
  intros Hn. unfold parse_index. rewrite (proj2 (str_is_empty_false _) (show_u_nonempty n)), str_all_digits_show. cbn [negb].
  destruct (starts_with "-" (show_u n)) eqn:E; [|by rewrite parse_uint_show].
  pose proof (has_char_show_u "-" n eq_refl) as Hc. revert E Hc. by destruct (show_u n) as [|[[] [] [] [] [] [] [] []]].
Qed.
Lemma parse_digits_range mx acc s n : 0 ≤ acc → acc ≤ mx → parse_digits mx acc s = Some n → 0 ≤ n ≤ mx.
Proof.
  revert acc. induction s as [|c s IH]; intros acc H0 H1; cbn; [by intros [= <-]|].
  unfold digit_val. destruct (_ && _) eqn:E; [|done]. cbn zeta. destruct (_ <=? mx) eqn:Em; [|done]. bool_prop. apply IH; lia.
Qed.
Lemma parse_uint_range mx s n : 0 ≤ mx → parse_uint mx s = Some n → 0 ≤ n ≤ mx.
Proof. intros Hm. unfold parse_uint. destruct (str_is_empty _); [done|]. by apply parse_digits_range. Qed.
Lemma parse_index_range s label n : parse_index s label = Ok (Some n) → 0 ≤ n ≤ u32_max.
Proof.
  unfold parse_index. repeat case_match; try done. destruct (parse_uint u32_max s) eqn:E; cbn; [|done]. intros [= ->].
  by apply parse_uint_range in E.
Qed.

Lemma parse_host_text h : wf_host h → parse_host (host_text h) = Ok h.
Proof.
  destruct h as [| |u h]; [done..|]. intros (Hu & Hat & Hh). unfold parse_host, host_text.
  autorewrite with rust_str. cbn [str_is_empty]. rewrite !bool_decide_false by done.
  set (rest := u +:+ String "@" h). change (strip_prefix _ _) with (Some rest). cbn [str_is_empty]. unfold rest.
  rewrite (split_once_app "@" u h Hat). by rewrite !(proj2 (str_is_empty_false _)).
Qed.
Lemma parse_host_sound s h : parse_host s = Ok h → wf_host h.
Proof.
  unfold parse_host. repeat (case_match; try (by intros [= <-])); try done. intros [= <-].
  destruct (split_once_sound _ _ _ _ ltac:(eassumption)) as [? _]. cbn. by rewrite <- !str_is_empty_false.
Qed.
Lemma peel_text h w p : 0 ≤ w ≤ u32_max → 0 ≤ p ≤ u32_max →
  peel_pane_window (h +:+ ":" +:+ show_u w +:+ ":" +:+ show_u p) = Ok (p, w, h).
Proof.
  intros Hw Hp. unfold peel_pane_window.
  replace (h +:+ ":" +:+ show_u w +:+ ":" +:+ show_u p) with ((h +:+ String ":" (show_u w)) +:+ String ":" (show_u p))
    by (by autorewrite with rust_str).
  rewrite split_once_rev_app by (by apply has_char_show_u). rewrite parse_index_show by done. cbn.
  rewrite split_once_rev_app by (by apply has_char_show_u). by rewrite parse_index_show.
Qed.
Lemma peel_range s p w h : peel_pane_window s = Ok (p, w, h) → 0 ≤ w ≤ u32_max ∧ 0 ≤ p ≤ u32_max.
Proof.
  assert (0 ≤ 0 ≤ u32_max) as H0 by done. unfold peel_pane_window. destruct (split_once_rev _ _) as [[l r]|]; [|naive_solver].
  destruct (parse_index r "pane") as [[p'|]|] eqn:Ep; cbn; [|naive_solver|done]. apply parse_index_range in Ep.
  destruct (split_once_rev _ l) as [[l2 r2]|]; [|naive_solver].
  destruct (parse_index r2 "window") as [[w'|]|] eqn:Ew; cbn; [apply parse_index_range in Ew|..]; naive_solver.
Qed.
Lemma machine_no_colon s : is_valid_machine s = true → has_char ":" s = false ∧ s ≠ EmptyString.
Proof.
  unfold is_valid_machine. intros [Hs Ha]%andb_true_iff. split; [|apply str_is_empty_false; by destruct (str_is_empty s)].
  destruct (has_char ":" s) eqn:E; [|done]. by eapply str_all_has_char in E; [|exact Ha].
Qed.

(** The display form of a well-formed address reads back, and the parser returns no other. *)
Lemma parse_addr_text a : wf_addr a → parse_addr (addr_text a) = Ok a.
Proof.
  destruct a as [m h w p]. intros [Hm Hh Hw Hp]. cbn in *. unfold parse_addr, addr_text. cbn [machine a_host window pane].
  destruct (machine_no_colon m Hm) as [Hc Hne].
  replace (m +:+ ":" +:+ host_text h +:+ ":" +:+ show_u w +:+ ":" +:+ show_u p)
    with (m +:+ String ":" (host_text h +:+ ":" +:+ show_u w +:+ ":" +:+ show_u p)) by (by autorewrite with rust_str).
  rewrite split_once_app by done. rewrite peel_text, Hm, (proj2 (str_is_empty_false m)) by done. cbn.
  rewrite parse_host_text by done. by destruct m.
Qed.
Lemma parse_addr_wf s a : parse_addr s = Ok a → wf_addr a.
Proof.
  unfold parse_addr. destruct (str_is_empty s); [done|]. destruct (split_once _ _) as [[m rest]|]; [|done].
  destruct (str_is_empty m); [done|]. destruct (is_valid_machine m) eqn:Hm; cbn; [|done].
  destruct (peel_pane_window rest) as [[[p w] h]|] eqn:Hp; cbn; [|done]. apply peel_range in Hp as [? ?].
  destruct (parse_host h) as [hh|] eqn:Hh; cbn; [|done]. intros [= <-]. apply parse_host_sound in Hh. by split.
Qed.

(** An address the parser accepts reads back from its display form. *)
Theorem address_roundtrip s a : parse_addr s = Ok a → parse_addr (addr_text a) = Ok a.
Proof. intros H%parse_addr_wf. by apply parse_addr_text. Qed.
Lemma address_roundtrip_witness :
  parse_addr "mbp:ssh:me@box:22:1:7" = Ok (mkAddr "mbp" (Ssh "me" "box:22") 1 7) ∧
  parse_addr (addr_text (mkAddr "mbp" (Ssh "me" "box:22") 1 7)) = Ok (mkAddr "mbp" (Ssh "me" "box:22") 1 7).
Proof. split; [by vm_compute|]. apply (address_roundtrip "mbp:ssh:me@box:22:1:7"). by vm_compute. Defined.

(** A single index is read as the pane, although the window comes first in the syntax. *)
Example single_index_is_pane : parse_addr "mbp:local:3" = Ok (mkAddr "mbp" Local 0 3).
Proof. by vm_compute. Qed.

(** * The registry *)

(** The code points of a string that is valid UTF-8. *)
Fixpoint code_points (s : string) : list Z :=
  let v c := Z.of_nat (nat_of_ascii c) in
  match s with
  | EmptyString => []
  | String a s1 =>
      if v a <? 128 then v a :: code_points s1
      else match s1 with
      | EmptyString => []
      | String b s2 =>
          if v a <? 224 then (v a - 192) * 64 + (v b - 128) :: code_points s2
          else match s2 with
          | EmptyString => []
          | String c s3 =>
              if v a <? 240 then ((v a - 224) * 64 + (v b - 128)) * 64 + (v c - 128) :: code_points s3
              else match s3 with
              | EmptyString => []
              | String d s4 =>
                  (((v a - 240) * 64 + (v b - 128)) * 64 + (v c - 128)) * 64 + (v d - 128) :: code_points s4
              end
          end
      end
  end.

(** [char::is_control] and [char::is_whitespace]. *)
Definition is_control (c : Z) : bool := (c <=? 31) || ((127 <=? c) && (c <=? 159)).
Definition is_whitespace (c : Z) : bool :=
  ((9 <=? c) && (c <=? 13)) || (c =? 32) || (c =? 0x85) || (c =? 0xA0) || (c =? 0x1680)
  || ((0x2000 <=? c) && (c <=? 0x200A)) || (c =? 0x2028) || (c =? 0x2029) || (c =? 0x202F) || (c =? 0x205F) || (c =? 0x3000).
Definition forbidden (c : Z) : bool :=
  is_control c || is_whitespace c || (c =? 58) || (c =? 47) || (c =? 92).

Inductive CastError : Type :=
| EmptyName | ForbiddenChar (name : string) (c : Z)
| BadAddress (why : string) | Malformed (name raw why : string)
| CreateDir (why : string) | ReadRegistry (why : string) | ParseRegistry (why : string) | WriteRegistry (why : string)
| NoPane (name : string) | ReadText (why : string) | EmptyText (name : string) | SendFailed (why : string).

Definition validate_name (name : string) : result unit CastError :=
  if str_is_empty name then Err EmptyName
  else match filter (λ c, forbidden c = true) (code_points name) with
       | c :: _ => Err (ForbiddenChar name c)
       | [] => Ok tt
       end.

(** How the file system answers one command: failures of creating the directory, of reading the file
    and of writing it; a write that fails leaves something else in the place of what was there. *)
Definition Disk : Type := option string.
Record Io : Type := mkIo {
  create_fails : option string; read_fails : option string; write_fails : option (string * (Disk → Disk)) }.

Section registry.
Context (to_toml : gmap string string → string) (from_toml : string → result (gmap string string) string).

Definition new_in (io : Io) : result unit CastError :=
  match create_fails io with Some e => Err (CreateDir e) | None => Ok tt end.
Definition load (io : Io) : stm Disk CastError (gmap string string) := λ d,
  match d with
  | None => (d, Ok ∅)
  | Some body =>
      match read_fails io with
      | Some e => (d, Err (ReadRegistry e))
      | None => (d, match from_toml body with Ok m => Ok m | Err e => Err (ParseRegistry e) end)
      end
  end.
Definition save (io : Io) (m : gmap string string) : stm Disk CastError unit := λ d,
  match write_fails io with
  | Some (e, torn) => (torn d, Err (WriteRegistry e))
  | None => (Some (to_toml m), Ok tt)
  end.

Definition register (io : Io) (name : string) (a : PaneAddress) : stm Disk CastError unit :=
  st_lift (validate_name name);;; m <- load io;; save io (<[name := addr_text a]> m).
Definition unregister (io : Io) (name : string) : stm Disk CastError unit :=
  m <- load io;; save io (delete name m).

Definition entry_addr (name raw : string) : result PaneAddress CastError :=
  match parse_addr raw with Ok a => Ok a | Err e => Err (Malformed name raw e) end.
Fixpoint entries (l : list (string * string)) : result (list (string * PaneAddress)) CastError :=
  match l with
  | [] => Ok []
  | (name, raw) :: l' => a <-? entry_addr name raw;; rest <-? entries l';; Ok ((name, a) :: rest)
  end.
Definition list_panes (io : Io) : stm Disk CastError (list (string * PaneAddress)) :=
  m <- load io;; st_lift (entries (btree_entries m)).
Definition resolve (io : Io) (name : string) : stm Disk CastError (option PaneAddress) :=
  m <- load io;;
  match m !! name with
  | Some raw => a <- st_lift (entry_addr name raw);; st_ret (Some a)
  | None => st_ret None
  end.

(** The commands. *)
Definition cmd_register (io : Io) (name address : string) : stm Disk CastError unit :=
  a <- st_lift (match parse_addr address with Ok a => Ok a | Err e => Err (BadAddress e) end);;
  st_lift (new_in io);;; register io name a.
Definition cmd_unregister (io : Io) (name : string) : stm Disk CastError unit :=
  st_lift (new_in io);;; unregister io name.
Definition cmd_list (io : Io) : stm Disk CastError (list (string * PaneAddress)) :=
  st_lift (new_in io);;; list_panes io.

(** ** The registry is a map *)

Inductive Op : Type := ORegister (name address : string) | OUnregister (name : string) | OList | OResolve (name : string).
Inductive Ans : Type := ADone | AList (l : list (string * PaneAddress)) | AResolve (o : option PaneAddress).

Definition exec_op (io : Io) (op : Op) : stm Disk CastError Ans :=
  match op with
  | ORegister n a => cmd_register io n a;;; st_ret ADone
  | OUnregister n => cmd_unregister io n;;; st_ret ADone
  | OList => l <- cmd_list io;; st_ret (AList l)
  | OResolve n => o <- resolve io n;; st_ret (AResolve o)
  end.

(** What a command that is answered does to a map from names to addresses. *)
#[local] Notation Panes := (gmap string PaneAddress).
Inductive spec_op : Op → Panes → Panes → Ans → Prop :=
| SRegister n s a p : is_ok (validate_name n) = true → parse_addr s = Ok a → spec_op (ORegister n s) p (<[n := a]> p) ADone
| SUnregister n p : spec_op (OUnregister n) p (delete n p) ADone
| SList p : spec_op OList p p (AList (btree_entries p))
| SResolve n p : spec_op (OResolve n) p p (AResolve (p !! n)).

(** A sequence of commands and the answers: one that fails leaves the map as it is. *)
Inductive spec_run : list Op → list (result Ans CastError) → Panes → Panes → Prop :=
| run_nil p : spec_run [] [] p p
| run_ok op ops a rs p p' p'' : spec_op op p p' a → spec_run ops rs p' p'' → spec_run (op :: ops) (Ok a :: rs) p p''
| run_err op ops e rs p p' : spec_run ops rs p p' → spec_run (op :: ops) (Err e :: rs) p p'.

Fixpoint exec_ops (ops : list (Io * Op)) (d : Disk) : Disk * list (result Ans CastError) :=
  match ops with
  | [] => (d, [])
  | (io, op) :: ops' =>
      let '(d1, r) := exec_op io op d in let '(d2, rs) := exec_ops ops' d1 in (d2, r :: rs)
  end.

Definition file_map (d : Disk) : result (gmap string string) string :=
  match d with None => Ok ∅ | Some body => from_toml body end.
(** The file holds the display forms of the map's addresses. *)
Definition holds (d : Disk) (p : Panes) : Prop :=
  file_map d = Ok (addr_text <$> p) ∧ map_Forall (λ _, wf_addr) p.

Context (toml_roundtrip : ∀ m, from_toml (to_toml m) = Ok m).

Lemma load_holds io d p : holds d p → load io d = (d, Ok (addr_text <$> p)) ∨ ∃ e, load io d = (d, Err e).
Proof.
  intros [Hf _]. unfold load. destruct d as [body|]; cbn in Hf; [|left; by injection Hf as <-].
  destruct (read_fails io); [eauto|]. rewrite Hf. eauto.
Qed.
Lemma holds_saved p : map_Forall (λ _, wf_addr) p → holds (Some (to_toml (addr_text <$> p))) p.
Proof. intros Hp. by split; [apply toml_roundtrip|]. Qed.
Lemma entries_text (l : list (string * PaneAddress)) :
  Forall (λ x, wf_addr x.2) l → entries (prod_map id addr_text <$> l) = Ok l.
Proof.
  induction 1 as [|[n a] l Ha _ IH]; [done|]. cbn. unfold entry_addr. rewrite parse_addr_text by done. cbn. by rewrite IH.
Qed.

(** One command on a file that holds a map. *)
Lemma exec_op_refines io op d p : holds d p → (∀ e torn, write_fails io = Some (e, torn) → torn d = d) →
  match exec_op io op d with
  | (d', Ok a) => ∃ p', spec_op op p p' a ∧ holds d' p'
  | (d', Err _) => d' = d
  end.
Proof.
  intros Hd Hw. pose proof (proj2 Hd) as Hp. pose proof (load_holds io d p Hd) as Hl.
  assert (Hs : ∀ p', map_Forall (λ _, wf_addr) p' →
    save io (addr_text <$> p') d = (Some (to_toml (addr_text <$> p')), Ok tt) ∨ ∃ e, save io (addr_text <$> p') d = (d, Err e)).
  { intros p' _. unfold save. destruct (write_fails io) as [[e torn]|]; [right; rewrite (Hw e torn) by done|left]; eauto. }
  unfold exec_op, cmd_register, cmd_unregister, cmd_list, register, unregister, list_panes, resolve, st_bind, st_lift, st_ret.
  destruct op as [n s|n| |n].
  - destruct (parse_addr s) as [a|e] eqn:Ha; [|done]. destruct (new_in io); [|done].
    destruct (validate_name n) as [[]|] eqn:Hn; [|done]. destruct Hl as [->|[e ->]]; [cbv beta iota|done]. rewrite <- fmap_insert.
    assert (map_Forall (λ _, wf_addr) (<[n:=a]> p)) as Hp' by (apply map_Forall_insert_2; [by eapply parse_addr_wf|done]).
    destruct (Hs _ Hp') as [->|[e ->]]; [|done]. exists (<[n := a]> p). split; [|by apply holds_saved].
    constructor; [by rewrite Hn|done].
  - destruct (new_in io); [|done]. destruct Hl as [->|[e ->]]; [cbv beta iota|done]. rewrite <- fmap_delete.
    assert (map_Forall (λ _, wf_addr) (delete n p)) as Hp' by (by apply map_Forall_delete).
    destruct (Hs _ Hp') as [->|[e ->]]; [|done]. exists (delete n p). split; [constructor|by apply holds_saved].
  - destruct (new_in io); [|done]. destruct Hl as [->|[e ->]]; [|done].
    rewrite btree_entries_fmap, entries_text; [exists p; by split; [constructor|]|].
    apply Forall_forall. intros [k a']. rewrite btree_entries_perm. intros Hx%elem_of_map_to_list. by eapply Hp.
  - destruct Hl as [->|[e ->]]; [|done]. rewrite lookup_fmap. destruct (p !! n) as [a|] eqn:Hn; cbn.
    + unfold entry_addr. rewrite parse_addr_text by (by eapply Hp). exists p. rewrite <- Hn. by split; [constructor|].
    + exists p. rewrite <- Hn. by split; [constructor|].
Qed.

(** The registry file implements a map from names to addresses. Whatever commands are run and
    whichever of them fail, as long as a write that fails leaves the file as it was, the answers are
    those of the map and a command that fails changes nothing. *)
Theorem registry_refines_map ops d p :
  holds d p → Forall (λ x, ∀ e torn, write_fails x.1 = Some (e, torn) → ∀ d, torn d = d) ops →
  ∃ p', spec_run ops.*2 (exec_ops ops d).2 p p' ∧ holds (exec_ops ops d).1 p'.
Proof.
  intros Hd Hops. revert d p Hd. induction Hops as [|[io op] ops Hw _ IH]; intros d p Hd; cbn.
  { exists p. split; [constructor|done]. }
  pose proof (exec_op_refines io op d p Hd) as Hop. cbn in Hw. destruct (exec_op io op d) as [d1 [a|e]].
  - destruct Hop as (p1 & Hs & Hd1); [by eauto|]. destruct (IH d1 p1 Hd1) as (p2 & ? & ?).
    destruct (exec_ops ops d1). exists p2. split; [by econstructor|done].
  - rewrite Hop by eauto. destruct (IH d p Hd) as (p2 & ? & ?).
    destruct (exec_ops ops d). exists p2. split; [by constructor|done].
Qed.

(** The file is written in place: a write that fails after it has cut the file off loses every entry. *)
Lemma torn_write_loses_all io e n a d p : from_toml EmptyString = Ok ∅ → holds d p →
  write_fails io = Some (e, λ _, Some EmptyString) → is_ok (validate_name n) = true → read_fails io = None →
  let '(d', r) := register io n a d in
  is_ok r = false ∧ ∀ m, resolve (mkIo None None None) m d' = (d', Ok None).
Proof.
  intros He Hd Hw Hn Hr. unfold register, st_bind, st_lift. destruct (validate_name n); [|done].
  assert (load io d = (d, Ok (addr_text <$> p))) as ->.
  { destruct Hd as [Hf _]. unfold load. destruct d as [body|]; cbn in Hf; [by rewrite Hr, Hf|by injection Hf as <-]. }
  unfold save. rewrite Hw. split; [done|]. intros m. unfold resolve, load, st_bind. cbn. rewrite He. by rewrite lookup_empty.
Qed.
End registry.

Definition demo_from_toml (s : string) : result (gmap string string) string :=
  match text_countable s with Some m => Ok m | None => Err "expected a table" end.
Lemma registry_refines_map_witness :
  let io := mkIo None None None in
  let ops := [(io, ORegister "build" "mbp:local:1:2"); (io, ORegister "two words" "mbp:local"); (io, OResolve "build")] in
  ∃ p', spec_run ops.*2 (exec_ops countable_text demo_from_toml ops None).2 ∅ p' ∧
    p' !! "build" = Some (mkAddr "mbp" Local 1 2).
Proof.
  intros io ops. assert (Hrt : ∀ m, demo_from_toml (countable_text m) = Ok m).
  { intros m. unfold demo_from_toml. by rewrite countable_text_roundtrip. }
  destruct (registry_refines_map countable_text demo_from_toml Hrt ops None ∅) as (p' & Hr & Hh).
  - by split; [|apply map_Forall_empty].
  - repeat constructor; done.
  - exists p'. split; [done|]. revert Hr. vm_compute (exec_ops _ _ _ _). intros Hr.
    inversion Hr as [|? ? ? ? ? p1 ? H1 H2|]; subst. inversion H2 as [| |? ? ? ? ? ? H3]; subst.
    inversion H3 as [|? ? ? ? ? p2 ? H4 H5|]; subst. inversion H5; subst. inversion H4; subst. congruence.
Defined.

(** * Transports *)

Inductive SendOutcome : Type := Delivered | NeedsFocus | Unsupported (why : string) | Failed (why : string).

Record Cmd : Type := mkCmd { bin : string; cmd_args : list string; cmd_stdin : option string }.
Record Output : Type := mkOut { success : bool; status : string; stdout : string; stderr : string }.
(** A child process: it does not start, its input or its end cannot be had, or it exits. *)
Inductive Ran : Type := SpawnErr (e : string) | WriteErr (e : string) | WaitErr (e : string) | Exited (o : Output).
Definition io_result (r : Ran) : result Output string :=
  match r with SpawnErr e | WriteErr e | WaitErr e => Err e | Exited o => Ok o end.

(** What casting does to the outside: the commands it ran and how long it slept, in milliseconds. *)
Record World : Type := mkWorld { ran : list Cmd; slept : list Z }.
Inductive Os : Type := Macos | Windows | OtherOs.

(** The trait [Caster]. *)
Record Caster : Type := mkCaster {
  caster_name : string;
  resolve_pane_id : PaneAddress → stm World string (option Z);
  cast : PaneAddress → string → World → World * SendOutcome }.

Record WeztermPane : Type := mkPane { p_window : Z; p_id : Z }.

Section casters.
(** The machine: how a command ends, given those before it; the search path; the operating system;
    [String::from_utf8_lossy]; and the decoder of [wezterm cli list]. *)
Context (exec : list Cmd → Cmd → Ran) (which : string → bool) (os : Os)
  (lossy : string → string) (panes_of : string → option (list WeztermPane)).

Definition spawn (c : Cmd) (w : World) : World * Ran := (mkWorld (ran w ++ [c]) (slept w), exec (ran w) c).
(** [SystemRunner]. *)
Definition run (b : string) (args : list string) (w : World) : World * result Output string :=
  let '(w', r) := spawn (mkCmd b args None) w in (w', io_result r).
Definition run_with_stdin (b : string) (args : list string) (input : string) (w : World) : World * result Output string :=
  let '(w', r) := spawn (mkCmd b args (Some input)) w in (w', io_result r).

Definition exited (what : string) (o : Output) : string := what +:+ " exited " +:+ status o +:+ ": " +:+ lossy (stderr o).
Definition no_pane_id (a : PaneAddress) : stm World string (option Z) := st_ret None.

(** ** wezterm *)
Definition wezterm_resolve (a : PaneAddress) : stm World string (option Z) := λ w,
  let '(w', r) := run "wezterm" ["cli"; "list"; "--format"; "json"] w in
  (w', match r with
       | Err e => Err ("wezterm cli list failed to spawn: " +:+ e)
       | Ok o =>
           if success o then
             match panes_of (lossy (stdout o)) with
             | None => Ok None
             | Some panes =>
                 let matching := sort_by (λ p q, p_id p <=? p_id q) (filter (λ p, p_window p = window a) panes) in
                 Ok (p_id <$> matching !! Z.to_nat (pane a))
             end
           else Err (exited "wezterm cli list" o)
       end).
Definition wezterm_send (a : PaneAddress) (text : string) (w : World) : World * SendOutcome :=
  let '(w1, r) := wezterm_resolve a w in
  match r with
  | Err e => (w1, Failed e)
  | Ok None => (w1, Failed ("no wezterm pane matching window:" +:+ show_u (window a) +:+ " pane:" +:+ show_u (pane a)))
  | Ok (Some id) =>
      let '(w2, s) := run "wezterm" ["cli"; "send-text"; "--pane-id"; show_u id; "--no-paste"; text] w1 in
      (w2, match s with
           | Ok o => if success o then Delivered else Failed (exited "wezterm cli send-text" o)
           | Err e => Failed e
           end)
  end.
Definition WeztermCaster : Caster := mkCaster "wezterm" wezterm_resolve wezterm_send.

(** ** ghostty *)
Definition ghostty_send (a : PaneAddress) (text : string) (w : World) : World * SendOutcome :=
  if negb (which "ghostty") then (w, Unsupported "ghostty binary not on PATH") else
  match run_with_stdin "pbcopy" [] text w with
  | (w1, Err e) => (w1, Failed ("pbcopy failed: " +:+ e))
  | (w1, Ok _) =>
      match run "ghostty" ["+action"; "goto_window"; show_u (window a)] w1 with
      | (w2, Err e) => (w2, Failed ("ghostty goto_window failed: " +:+ e))
      | (w2, Ok _) =>
          let '(w3, r) := run "ghostty" ["+action"; "paste-from-clipboard"] w2 in
          (w3, match r with
               | Ok o => if success o then Delivered else Failed (exited "ghostty paste-from-clipboard" o)
               | Err e => Failed ("ghostty paste spawn failed: " +:+ e)
               end)
      end
  end.
Definition GhosttyCaster : Caster := mkCaster "ghostty" no_pane_id ghostty_send.

(** ** ssh *)
Definition ssh_target (a : PaneAddress) : option string :=
  match a_host a with
  | Ssh u h => Some (u +:+ "@" +:+ h)
  | Tailscale => Some (machine a +:+ ".ts.net")
  | Local => None
  end.
Definition ssh_send (a : PaneAddress) (text : string) (w : World) : World * SendOutcome :=
  match ssh_target a with
  | None => (w, Unsupported "SshWinTermCaster is for remote hosts only; use WeztermCaster or GhosttyCaster for local")
  | Some target =>
      if negb (which "ssh") then (w, Unsupported "ssh binary not on PATH") else
      let '(w', r) := run_with_stdin "ssh" [target; "powershell"; "-NoProfile"; "-Command"; "$input | Set-Clipboard"] text w in
      (w', match r with
           | Ok o => if success o then NeedsFocus else Failed (exited "ssh winterm" o)
           | Err e => Failed ("ssh winterm spawn failed: " +:+ e)
           end)
  end.
Definition SshWinTermCaster : Caster := mkCaster "ssh-winterm" no_pane_id ssh_send.

(** ** The clipboard *)
Definition clipboard_command : option (string * list string) :=
  match os with
  | Macos => Some ("pbcopy", [])
  | Windows => Some ("clip", [])
  | OtherOs => if which "wl-copy" then Some ("wl-copy", [])
               else if which "xclip" then Some ("xclip", ["-selection"; "clipboard"]) else None
  end.
Definition clipboard_send (a : PaneAddress) (text : string) (w : World) : World * SendOutcome :=
  match clipboard_command with
  | None => (w, Unsupported "no clipboard binary (pbcopy/clip/wl-copy/xclip) on PATH")
  | Some (b, args) =>
      let '(w', r) := spawn (mkCmd b args (Some text)) w in
      (w', match r with
           | SpawnErr e | WaitErr e => Failed e
           | WriteErr e => Failed ("clipboard write failed: " +:+ e)
           | Exited o => if success o then Delivered else Failed (exited b o)
           end)
  end.
Definition ClipboardCaster : Caster := mkCaster "clipboard" no_pane_id clipboard_send.

(** ** Retry and fallback *)

Definition delay_ms (base : Z) (attempt : nat) : Z := as_u64 (base * as_u64 (Z.shiftl 1 (Z.of_nat (attempt - 1)))).
(** The loop over [attempt..=max], with [n] attempts left. *)
Fixpoint retry (inner : Caster) (max : nat) (base : Z) (a : PaneAddress) (text : string) (n attempt : nat)
    (last : option SendOutcome) (w : World) : World * SendOutcome :=
  match n with
  | O => (w, default (Failed "retry exhausted without recorded error") last)
  | S n' =>
      let '(w1, out) := cast inner a text w in
      match out with
      | Failed _ =>
          let w2 := if (attempt <? max)%nat then mkWorld (ran w1) (slept w1 ++ [delay_ms base attempt]) else w1 in
          retry inner max base a text n' (S attempt) (Some out) w2
      | _ => (w1, out)
      end
  end.
Definition RetryCaster (inner : Caster) (max : nat) (base : Z) : Caster :=
  mkCaster (caster_name inner) (resolve_pane_id inner) (λ a text, retry inner max base a text max 1 None).

Fixpoint fallback (l : list (Caster * string)) (a : PaneAddress) (text : string) (last : option string) (w : World)
    : World * SendOutcome :=
  match l with
  | [] => (w, Unsupported (default "no casters configured" last))
  | (c, label) :: l' =>
      let '(w1, out) := cast c a text w in
      match out with
      | Unsupported why => fallback l' a text (Some (label +:+ ": " +:+ why)) w1
      | _ => (w1, out)
      end
  end.
Definition send_with_fallback (l : list (Caster * string)) (a : PaneAddress) (text : string) : World → World * SendOutcome :=
  fallback l a text None.

(** ** [cast send] *)

Definition chain : list (Caster * string) :=
  [(RetryCaster WeztermCaster 3 200, "wezterm-retry"); (RetryCaster GhosttyCaster 3 200, "ghostty-retry");
   (RetryCaster SshWinTermCaster 2 1000, "ssh-winterm-retry"); (ClipboardCaster, "clipboard")].

Context (from_toml : string → result (gmap string string) string).
(** [text] is what reading the file or the standard input gave. *)
Definition cmd_send (io : Io) (name : string) (text : result string string) (d : Disk) (w : World)
    : World * result unit CastError :=
  match (st_lift (new_in io);;; resolve from_toml io name) d with
  | (_, Err e) => (w, Err e)
  | (_, Ok None) => (w, Err (NoPane name))
  | (_, Ok (Some a)) =>
      match text with
      | Err e => (w, Err (ReadText e))
      | Ok t =>
          if str_is_empty t then (w, Err (EmptyText name)) else
          let '(w', out) := send_with_fallback chain a t w in
          (w', match out with Delivered | NeedsFocus => Ok tt | Unsupported m | Failed m => Err (SendFailed m) end)
      end
  end.

(** ** Retrying *)

(** [k] attempts from the one numbered [i]: all but the last fail and are followed by a pause. *)
Inductive tried (c : Caster) (base : Z) (a : PaneAddress) (text : string) : nat → nat → World → World → SendOutcome → Prop :=
| tried_last i w w' out : cast c a text w = (w', out) → tried c base a text 1 i w w' out
| tried_again k i w w1 w' e out : cast c a text w = (w1, Failed e) →
    tried c base a text k (S i) (mkWorld (ran w1) (slept w1 ++ [delay_ms base i])) w' out →
    tried c base a text (S k) i w w' out.

Lemma retry_tried c max base a text n i last w : (0 < n)%nat → (n + i = S max)%nat →
  let '(w', out) := retry c max base a text n i last w in
  ∃ k, (k ≤ n)%nat ∧ tried c base a text k i w w' out ∧ ((∃ e, out = Failed e) → k = n).
Proof.
  revert i last w. induction n as [|n IH]; [lia|]. intros i last w _ Hi. cbn [retry].
  destruct (cast c a text w) as [w1 out] eqn:Hc.
  destruct out as [| | |e]; try (exists 1%nat; split_and!; [lia|by constructor|by intros [? ?]]).
  destruct n as [|n].
  - cbn [retry default]. assert ((i <? max)%nat = false) as -> by (apply Nat.ltb_ge; lia). exists 1%nat. split_and!; [lia|by constructor|done].
  - assert ((i <? max)%nat = true) as -> by (apply Nat.ltb_lt; lia).
    specialize (IH (S i) (Some (Failed e)) (mkWorld (ran w1) (slept w1 ++ [delay_ms base i])) ltac:(lia) ltac:(lia)).
    destruct (retry _ _ _ _ _ _ _ _ _) as [w' out]. destruct IH as (k & Hk & Ht & Hf). exists (S k).
    split_and!; [lia|by econstructor|]. intros He. by rewrite (Hf He).
Qed.

(** A retrying caster makes at most the attempts it is given, pauses between them as documented,
    stops at the first outcome that is not a failure, and fails only when every attempt has failed. *)
Theorem retry_outcome_sound c max base a text w : (0 < max)%nat →
  let '(w', out) := cast (RetryCaster c max base) a text w in
  ∃ k, (k ≤ max)%nat ∧ tried c base a text k 1 w w' out ∧ ((∃ e, out = Failed e) → k = max).
Proof. intros Hm. by apply retry_tried; lia. Qed.

(** ** Who gets the text *)

Definition send_text (id : Z) (t : string) : Cmd :=
  mkCmd "wezterm" ["cli"; "send-text"; "--pane-id"; show_u id; "--no-paste"; t] None.
Definition pane_list : Cmd := mkCmd "wezterm" ["cli"; "list"; "--format"; "json"] None.

(** The pane a listing gives an address: the [pane a]-th of the window, by id. *)
Definition listed (o : Output) (a : PaneAddress) (id : Z) : Prop :=
  success o = true ∧ ∃ panes, panes_of (lossy (stdout o)) = Some panes ∧
  p_id <$> sort_by (λ p q, p_id p <=? p_id q) (filter (λ p, p_window p = window a) panes) !! Z.to_nat (pane a) = Some id.

(** A round with wezterm: at most [n] commands of its own, and the text in the pane if it says so. *)
Record wezterm_round (n : nat) (a : PaneAddress) (t : string) (w : World) (o : World * SendOutcome) : Prop := {
  wr_cmds : ∃ cmds, ran o.1 = ran w ++ cmds ∧ Forall (λ c, bin c = "wezterm") cmds ∧ (length cmds ≤ n)%nat;
  wr_out : o.2 = Delivered ∨ ∃ e, o.2 = Failed e;
  wr_delivered : o.2 = Delivered → ∃ id before lo so,
    ran o.1 = before ++ [pane_list; send_text id t] ∧ exec before pane_list = Exited lo ∧ listed lo a id ∧
    exec (before ++ [pane_list]) (send_text id t) = Exited so ∧ success so = true }.

Lemma wezterm_send_round a t w : wezterm_round 2 a t w (wezterm_send a t w).
Proof.
  unfold wezterm_send, wezterm_resolve, run, spawn. fold pane_list. cbn [ran slept fst snd].
  assert (Hone : ∀ e, wezterm_round 2 a t w (mkWorld (ran w ++ [pane_list]) (slept w), Failed e)).
  { intros e. split; cbn; [exists [pane_list]|eauto|done]. split_and!; [done|by repeat apply List.Forall_cons|cbn; lia]. }
  destruct (exec (ran w) pane_list) as [| | |lo] eqn:Hl; cbn [io_result]; try apply Hone.
  destruct (success lo) eqn:Hs; [|apply Hone]. destruct (panes_of _) as [panes|] eqn:Hp; [|apply Hone].
  destruct (_ <$> _) as [id|] eqn:Hid; [|apply Hone]. fold (send_text id t). rewrite <- app_assoc. cbn [app].
  split; cbn [fst snd].
  - exists [pane_list; send_text id t]. cbn. split_and!; [done|by repeat apply List.Forall_cons|cbn; lia].
  - destruct (io_result _) as [so|]; [destruct (success so)|]; cbn; eauto.
  - destruct (exec (ran w ++ [pane_list]) (send_text id t)) as [| | |so] eqn:Hx; try done. cbn.
    destruct (success so) eqn:Hso; [|done]. intros _. exists id, (ran w), lo, so. split_and!; try done. split; [done|].
    by exists panes.
Qed.
Lemma wezterm_round_weaken n m a t w w1 o : (n ≤ m)%nat → wezterm_round n a t w1 o →
  (∃ cmds, ran w1 = ran w ++ cmds ∧ Forall (λ c, bin c = "wezterm") cmds ∧ (length cmds ≤ m - n)%nat) → wezterm_round m a t w o.
Proof.
  intros Hn [(c2 & H2 & Hw2 & Hl2) Ho Hd] (c1 & H1 & Hw1 & Hl1). split; [|done..].
  exists (c1 ++ c2). rewrite H2, H1, <- app_assoc, length_app. split_and!; [done|by apply Forall_app|lia].
Qed.
Lemma wezterm_retry_round max base a t n i last w : (∀ o, last = Some o → ∃ e, o = Failed e) →
  wezterm_round (2 * n) a t w (retry WeztermCaster max base a t n i last w).
Proof.
  revert i last w. induction n as [|n IH]; intros i last w Hlast.
  { cbn. split; cbn; [exists []; split_and!; [by rewrite app_nil_r|constructor|done]| |].
    - destruct last as [o|]; [destruct (Hlast o eq_refl) as [e ->]|]; cbn; eauto.
    - destruct last as [o|]; [destruct (Hlast o eq_refl) as [e ->]|]; done. }
  cbn [retry cast WeztermCaster]. pose proof (wezterm_send_round a t w) as Hr.
  destruct (wezterm_send a t w) as [w1 out] eqn:Hs. pose proof (wr_cmds _ _ _ _ _ Hr) as Hc.
  destruct (wr_out _ _ _ _ _ Hr) as [Ho|[e Ho]]; cbn in Ho; subst out.
  - eapply wezterm_round_weaken; [|exact Hr|]; [lia|]. exists []. rewrite app_nil_r. split_and!; [done|constructor|cbn; lia].
  - eapply wezterm_round_weaken; [|apply IH|]; [lia|by intros ? [= <-]; eauto|].
    destruct Hc as (cmds & Hc & Hw & Hl). cbn in Hc. exists cmds. split_and!; [by destruct (i <? max)%nat|done|lia].
Qed.

(** Sending to a pane runs nothing but wezterm, at most six times, whatever the address says of
    the host; when it succeeds the last two commands list the panes and put the text into the one the
    address names by window and pane, and that command has succeeded. *)
Theorem cast_send_sound io name text d w :
  let '(w', r) := cmd_send io name text d w in
  (∃ cmds, ran w' = ran w ++ cmds ∧ Forall (λ c, bin c = "wezterm") cmds ∧ (length cmds ≤ 6)%nat) ∧
  (r = Ok tt → ∃ a t id before lo so,
     resolve from_toml io name d = (d, Ok (Some a)) ∧ text = Ok t ∧ t ≠ EmptyString ∧
     ran w' = before ++ [pane_list; send_text id t] ∧ exec before pane_list = Exited lo ∧ listed lo a id ∧
     exec (before ++ [pane_list]) (send_text id t) = Exited so ∧ success so = true).
Proof.
  assert (Hnone : ∃ cmds, ran w = ran w ++ cmds ∧ Forall (λ c, bin c = "wezterm") cmds ∧ (length cmds ≤ 6)%nat).
  { exists []. rewrite app_nil_r. split_and!; [done|constructor|cbn; lia]. }
  unfold cmd_send, st_bind, st_lift. destruct (new_in io); [|done].
  assert (Hd : (resolve from_toml io name d).1 = d).
  { unfold resolve, load, st_bind, st_lift, st_ret. repeat (case_match; simplify_eq/=; try done). }
  destruct (resolve from_toml io name d) as [d' [[addr|]|]] eqn:Hres; cbn in Hd; subst d'; [|done..].
  destruct text as [t|]; [|done]. destruct (str_is_empty t) eqn:Ht; [done|].
  unfold send_with_fallback, chain. cbn [fallback cast RetryCaster].
  pose proof (wezterm_retry_round 3 200 addr t 3 1 None w ltac:(done)) as Hr.
  destruct (retry _ _ _ _ _ _ _ _ _) as [w' out]. pose proof (wr_cmds _ _ _ _ _ Hr) as Hc.
  destruct (wr_out _ _ _ _ _ Hr) as [Ho|[e Ho]]; cbn in Ho; subst out; [|done]. split; [done|]. intros _.
  destruct (wr_delivered _ _ _ _ _ Hr eq_refl) as (id & before & lo & so & ? & ? & ? & ? & ?).
  exists addr, t, id, before, lo, so. apply str_is_empty_false in Ht. by split_and!.
Qed.
End casters.

(** * A machine with wezterm *)

Module DemoCast.
Definition exec (before : list Cmd) (c : Cmd) : Ran :=
  if bool_decide (bin c = "wezterm") then Exited (mkOut true "exit status: 0" "panes" "") else SpawnErr "not found".
Definition panes_of (s : string) : option (list WeztermPane) := Some [mkPane 1 10; mkPane 2 7; mkPane 1 4].
Definition file : Disk := Some (countable_text (<["remote" := "mbp:ssh:me@box:1:0"]> (∅ : gmap string string))).
Definition io : Io := mkIo None None None.
Definition sent : World * result unit CastError :=
  cmd_send exec (λ _, true) OtherOs id panes_of demo_from_toml io "remote" (Ok "make") file (mkWorld [] []).

(** The text for a pane of another machine is put into a pane of this one. *)
Example remote_text_stays_here :
  sent = (mkWorld [pane_list; send_text 4 "make"] [], Ok tt) ∧
  resolve demo_from_toml io "remote" file = (file, Ok (Some (mkAddr "mbp" (Ssh "me" "box") 1 0))).
Proof. by vm_compute. Qed.

Lemma cast_send_sound_witness : ∃ id t before, ran sent.1 = before ++ [pane_list; send_text id t].
Proof.
  pose proof (cast_send_sound exec (λ _, true) OtherOs id panes_of demo_from_toml io "remote" (Ok "make") file (mkWorld [] [])) as H.
  fold sent in H. destruct sent as [w' r] eqn:E. destruct H as [_ H].
  destruct H as (a & t & i & before & _ & _ & _ & _ & _ & Hran & _); [|by exists i, t, before].
  revert E. vm_compute (sent). by intros [= _ <-].
Defined.

(** Without wezterm nothing else is tried, although every other transport is there. *)
Definition no_wezterm (before : list Cmd) (c : Cmd) : Ran :=
  if bool_decide (bin c = "wezterm") then SpawnErr "not found" else Exited (mkOut true "" "" "").
Example fallback_unreached :
  let '(w', r) := cmd_send no_wezterm (λ _, true) OtherOs id panes_of demo_from_toml io "remote" (Ok "make") file (mkWorld [] []) in
  ran w' = [pane_list; pane_list; pane_list] ∧ slept w' = [200; 400] ∧ is_ok r = false.
Proof. by vm_compute. Qed.

Lemma retry_outcome_sound_witness :
  ∃ w' e, cast (RetryCaster (WeztermCaster no_wezterm id panes_of) 3 200) (mkAddr "mbp" Local 1 0) "make" (mkWorld [] []) = (w', Failed e) ∧
    tried (WeztermCaster no_wezterm id panes_of) 200 (mkAddr "mbp" Local 1 0) "make" 3 1 (mkWorld [] []) w' (Failed e).
Proof.
  pose proof (retry_outcome_sound (WeztermCaster no_wezterm id panes_of) 3 200 (mkAddr "mbp" Local 1 0) "make" (mkWorld [] []) ltac:(lia)) as H.
  destruct (cast (RetryCaster _ _ _) _ _ _) as [w' out] eqn:E. destruct H as (k & _ & Ht & Hk).
  assert (∃ e, out = Failed e) as Hf by (revert E; vm_compute (cast _ _ _ _); intros [= _ <-]; eauto).
  rewrite (Hk Hf) in Ht. destruct Hf as [e ->]. by exists w', e.
Defined.
End DemoCast.

(** An ssh user is not checked: one that begins with a dash reaches the command line of ssh. *)
Example ssh_option_smuggled :
  parse_addr "mbp:ssh:-oProxyCommand=id@x:0:0" = Ok (mkAddr "mbp" (Ssh "-oProxyCommand=id" "x") 0 0) ∧
  ssh_target (mkAddr "mbp" (Ssh "-oProxyCommand=id" "x") 0 0) = Some "-oProxyCommand=id@x".
Proof. by vm_compute. Qed.
