(* ===== verification/Monitors.v ===== *)
(** The background monitors of the service: health checks with their notifications
    (src/health_check.rs, src/notifier.rs), the configuration watcher (src/config_watcher.rs), the
    rotating audit log (src/audit_log.rs) and the in-memory log sink (src/log_sink.rs).  The network,
    the file system's failures, the clock and the JSON texts are parameters. *)
From S2P Require Import Prelude RespCodec JsonValue Config.

(** * Probes *)

(** What a connection attempt, and an exchange on a connection, give within the time limit. *)
Inductive Connect : Type := Connected | ConnectTimeout | ConnectErr (e : string).
Inductive Exchange : Type := WriteTimeout | WriteErr (e : string) | ReadTimeout | ReadErr (e : string) | Got (bytes : list byte).
Record Net : Type := mkNet { connect : string → Connect; exchange : string → string → Exchange }.

(** A probe passes, fails, or panics and takes its task down. *)
Inductive Probe : Type := Pass | Fault (e : string) | Panic.

Definition probe_tcp (net : Net) (timeout : Z) (addr : string) : Probe :=
  match connect net addr with
  | Connected => Pass
  | ConnectTimeout => Fault ("TCP connect to '" +:+ addr +:+ "' timed out after " +:+ show_u timeout +:+ "s")
  | ConnectErr e => Fault ("TCP connect to '" +:+ addr +:+ "' failed: " +:+ e)
  end.

Definition crlf : string := String cr (String nl EmptyString).
Definition http_request (path host_port : string) : string :=
  "GET " +:+ path +:+ " HTTP/1.0" +:+ crlf +:+ "Host: " +:+ host_port +:+ crlf +:+ "Connection: close" +:+ crlf +:+ crlf.

(** Host with port, and path, of a URL without its scheme. *)
Definition url_parts (u : string) : string * string :=
  match split_once "/" u with Some (h, p) => (h, String "/" p) | None => (u, "/") end.
Definition http_addr (host_port : string) : string :=
  if has_char ":" host_port then host_port else host_port +:+ ":80".

(** [str::is_char_boundary] before the end of the text. *)
Definition boundary (l : list byte) (i : nat) : bool := match l !! i with Some b => negb (cont b) | None => false end.
(** [&response[9..10] == "2"]: a slice off the boundaries of characters panics. *)
Definition status_class (l : list byte) : option bool :=
  if boundary l 9 && boundary l 10 then Some (bool_decide (l !! 9%nat = Some x32)) else None.

(** The 32 bytes the probe reads at most, as text; what is not UTF-8 counts as nothing. *)
Definition probe_buffer : nat := 32.
Definition response_text (bytes : list byte) : list byte :=
  let buf := take probe_buffer bytes in if utf8_valid buf then buf else [].
Definition judge (l : list byte) : Probe :=
  let bad := Fault ("HTTP probe got non-2xx response: '" +:+ trim (string_of_list_byte l) +:+ "'") in
  if starts_with "HTTP/" (string_of_list_byte l) && (12 <=? length l)%nat then
    match status_class l with None => Panic | Some true => Pass | Some false => bad end
  else bad.

Definition strip_scheme (url : string) : option string :=
  match strip_prefix "http://" url with Some r => Some r | None => strip_prefix "https://" url end.
Definition probe_http (net : Net) (url : string) : Probe :=
  match strip_scheme url with
  | None => Fault ("unsupported scheme in '" +:+ url +:+ "'")
  | Some rest =>
      let '(host_port, path) := url_parts rest in
      let addr := http_addr host_port in
      match connect net addr with
      | ConnectTimeout => Fault ("HTTP connect to '" +:+ addr +:+ "' timed out")
      | ConnectErr e => Fault ("HTTP connect to '" +:+ addr +:+ "' failed: " +:+ e)
      | Connected =>
          match exchange net addr (http_request path host_port) with
          | WriteTimeout => Fault "HTTP write timed out"
          | WriteErr e => Fault ("HTTP write error: " +:+ e)
          | ReadTimeout => Fault "HTTP read timed out"
          | ReadErr e => Fault ("HTTP read error: " +:+ e)
          | Got bytes => judge (response_text bytes)
          end
      end
  end.

(** [trim_start_matches("tcp://")] takes the prefix off as often as it is there. *)
Fixpoint trim_tcp (fuel : nat) (s : string) : string :=
  match fuel with
  | O => s
  | S n => match strip_prefix "tcp://" s with Some r => trim_tcp n r | None => s end
  end.
Definition probe_endpoint (net : Net) (timeout : Z) (endpoint : string) : Probe :=
  if starts_with "http://" endpoint || starts_with "https://" endpoint then probe_http net endpoint
  else probe_tcp net timeout (trim_tcp (String.length endpoint) endpoint).

(** * Notifications *)

Inductive NotificationKind : Type := ProcessCrashed | HealthCheckFailed | ProcessRestarted | ThresholdExceeded.
Record NotificationEvent : Type := mkEvent { n_kind : NotificationKind; n_process : string; n_message : string; n_timestamp : Z }.
Definition kind_text (k : NotificationKind) : string :=
  match k with
  | ProcessCrashed => "ProcessCrashed" | HealthCheckFailed => "HealthCheckFailed"
  | ProcessRestarted => "ProcessRestarted" | ThresholdExceeded => "ThresholdExceeded"
  end.

Inductive Delivery : Type := Desktop (summary body : string) | Webhook (url : string) (event : NotificationEvent).
(** The dash of the summary, U+2014. *)
Definition em_dash : string := string_of_list_byte [xe2; x80; x94].
Definition notify_send (e : NotificationEvent) : Delivery :=
  Desktop ("sharecli " +:+ em_dash +:+ " " +:+ kind_text (n_kind e)) ("[" +:+ n_process e +:+ "] " +:+ n_message e).
(** [dispatch]: every channel is tried, failures are only logged. *)
Definition dispatch (c : NotifierConfig) (e : NotificationEvent) : list Delivery :=
  (if nc_desktop c then [notify_send e] else []) ++ ((λ url, Webhook url e) <$> nc_webhooks c).

(** * Health checks *)

Record HealthStatus : Type := mkStatus {
  healthy : bool; last_check : Z; consecutive_failures : Z; last_error : option string }.
Definition default_status (now : Z) : HealthStatus := mkStatus true now 0 None.

(** The store, the deliveries made, and whether the polling task still runs. *)
Record Poll : Type := mkPoll { store : gmap string HealthStatus; sent : list Delivery; alive : bool }.
(** One tick: the instant of the check, the wall clock, and what the network answers. *)
Record Tick : Type := mkTick { t_now : Z; t_wall : Z; t_net : Net }.

Fixpoint probe_list (net : Net) (timeout : Z) (l : list string) : Probe :=
  match l with
  | [] => Pass
  | e :: l' => match probe_endpoint net timeout e with Pass => probe_list net timeout l' | p => p end
  end.

Definition failure_text (name : string) (n : Z) (err : option string) : string :=
  "process '" +:+ name +:+ "' unhealthy after " +:+ show_u n +:+ " consecutive failures: " +:+ default "unknown" err.

Section poll.
Context (name : string) (cfg : HealthCheckConfig) (notifier : option NotifierConfig).

Definition timeout : Z := Z.max 1 (hc_timeout_secs cfg).

(** The update of the entry after the probes: [err] is the first failure. *)
Definition record_probe (t : Tick) (err : option string) (s : HealthStatus) : HealthStatus * list Delivery :=
  match err with
  | None => (mkStatus true (t_now t) 0 None, [])
  | Some _ =>
      let n := (consecutive_failures s + 1) mod 2 ^ 32 in
      if hc_failure_threshold cfg <=? n then
        (mkStatus false (t_now t) n err,
         if healthy s then
           match notifier with
           | Some c => dispatch c (mkEvent HealthCheckFailed name (failure_text name n err) (t_wall t))
           | None => []
           end
         else [])
      else (mkStatus (healthy s) (t_now t) n err, [])
  end.

Definition probe_all (p : Poll) (t : Tick) : Poll :=
  if negb (alive p) then p
  else match hc_endpoints cfg with
  | [] => p
  | _ =>
      match probe_list (t_net t) timeout (hc_endpoints cfg) with
      | Panic => mkPoll (store p) (sent p) false
      | r =>
          let err := match r with Fault e => Some e | _ => None end in
          let s := default (default_status (t_now t)) (store p !! name) in
          let '(s', ds) := record_probe t err s in
          mkPoll (<[name := s']> (store p)) (sent p ++ ds) true
      end
  end.

(** [poll_loop]: the entry is made first, then every tick probes. *)
Definition poll_loop (start : Z) (m : gmap string HealthStatus) (ticks : list Tick) : Poll :=
  let seeded := match m !! name with Some _ => m | None => <[name := default_status start]> m end in
  foldl probe_all (mkPoll seeded [] true) ticks.

(** ** What the status means *)

(** The first failure of a tick's probes, and a tick on which no probe panics. *)
Definition outcome (t : Tick) : option string :=
  match probe_list (t_net t) timeout (hc_endpoints cfg) with Fault e => Some e | _ => None end.
Definition calm (t : Tick) : Prop := probe_list (t_net t) timeout (hc_endpoints cfg) ≠ Panic.

(** The length of the run of failures a history ends with. *)
Fixpoint failing_run (l : list (option string)) : nat :=
  match l with Some _ :: l' => S (failing_run l') | _ => 0%nat end.
Definition trailing (l : list (option string)) : nat := failing_run (reverse l).
Definition threshold : Z := Z.max 1 (hc_failure_threshold cfg).

(** One alarm for each run of failures that gets as long as the threshold, on the tick it does. *)
Definition alarm (ticks : list Tick) (i : nat) (t : Tick) : list Delivery :=
  if bool_decide (Z.of_nat (trailing (outcome <$> take (S i) ticks)) = threshold) then
    match notifier with
    | Some c => dispatch c (mkEvent HealthCheckFailed name (failure_text name threshold (outcome t)) (t_wall t))
    | None => []
    end
  else [].
Definition alarms (ticks : list Tick) : list Delivery := concat (imap (alarm ticks) ticks).

Definition status_of (start : Z) (ticks : list Tick) : HealthStatus :=
  let n := Z.of_nat (trailing (outcome <$> ticks)) in
  mkStatus (bool_decide (n < threshold)) (default start (t_now <$> last ticks)) n (mjoin (last (outcome <$> ticks))).

Lemma trailing_snoc l o : trailing (l ++ [o]) = match o with Some _ => S (trailing l) | None => 0%nat end.
Proof. unfold trailing. rewrite reverse_app. by destruct o. Qed.
Lemma trailing_le l : (trailing l ≤ length l)%nat.
Proof.
  unfold trailing. rewrite <- length_reverse. generalize (reverse l). induction l0 as [|[] ? IH]; cbn; lia.
Qed.
Lemma alarms_snoc ticks t : alarms (ticks ++ [t]) = alarms ticks ++ alarm (ticks ++ [t]) (length ticks) t.
Proof.
  unfold alarms. rewrite imap_app, concat_app. cbn. rewrite Nat.add_0_r, app_nil_r. f_equal. f_equal.
  apply imap_ext. intros i x Hx%lookup_lt_Some. unfold alarm. by rewrite take_app_le by lia.
Qed.
Lemma record_probe_step start ticks t : Z.of_nat (length ticks) + 1 < 2 ^ 32 → 0 ≤ hc_failure_threshold cfg →
  record_probe t (outcome t) (status_of start ticks)
  = (status_of start (ticks ++ [t]), alarm (ticks ++ [t]) (length ticks) t).
Proof.
  intros Hlen Hthr. unfold record_probe, status_of, alarm.
  rewrite (take_ge (ticks ++ [t])) by (rewrite length_app; cbn; lia).
  rewrite fmap_app, !last_snoc. cbn [fmap list_fmap]. rewrite last_snoc, trailing_snoc. cbn [consecutive_failures healthy].
  pose proof (trailing_le (outcome <$> ticks)) as Hle. rewrite length_fmap in Hle.
  set (n := trailing (outcome <$> ticks)) in *. unfold threshold.
  destruct (outcome t) as [e|]; cbn [mjoin option_join default from_option id].
  - rewrite Z.mod_small by lia. replace (Z.of_nat n + 1) with (Z.of_nat (S n)) by lia.
    destruct (Z.leb_spec (hc_failure_threshold cfg) (Z.of_nat (S n))); cbn.
    + rewrite (bool_decide_false (Z.of_nat (S n) < _)) by lia. f_equal.
      repeat case_bool_decide; try (exfalso; lia); try done. replace (Z.of_nat (S n)) with (Z.max 1 (hc_failure_threshold cfg)) by lia. done.
    + rewrite !(bool_decide_true (_ < _)) by lia. by rewrite bool_decide_false by lia.
  - rewrite bool_decide_true by lia. by rewrite bool_decide_false by lia.
Qed.

Lemma poll_loop_spec start ticks :
  hc_endpoints cfg ≠ [] → 0 ≤ hc_failure_threshold cfg → Forall calm ticks → Z.of_nat (length ticks) < 2 ^ 32 →
  poll_loop start ∅ ticks = mkPoll {[name := status_of start ticks]} (alarms ticks) true.
Proof.
  intros Hne Hthr. unfold poll_loop. rewrite lookup_empty. induction ticks as [|t ticks IH] using rev_ind.
  { intros _ _. cbn. unfold status_of. cbn. rewrite bool_decide_true by (unfold threshold; lia). by rewrite insert_empty. }
  intros [Hc [Ht _]%Forall_cons_1]%Forall_app Hl. rewrite length_app in Hl. cbn in Hl.
  rewrite foldl_app, IH by (done || lia). cbn [foldl]. unfold probe_all. cbn [negb alive store sent].
  destruct (hc_endpoints cfg) as [|e l] eqn:He; [done|]. rewrite <- He.
  pose proof (record_probe_step start ticks t ltac:(lia) Hthr) as Hs. unfold outcome in Hs at 1.
  rewrite lookup_singleton_eq. cbn [default from_option id]. rewrite alarms_snoc. unfold calm in Ht.
  revert Ht Hs. destruct (probe_list _ _ _) as [| |]; intros Ht Hs; [..|done]; rewrite Hs; by rewrite insert_singleton_eq.
Qed.

(** A process's health is the length of its present run of failed checks. Whatever the network
    answers, the count is that length, the process is healthy as long as it is below the threshold (one
    failure is enough for a threshold of zero), the error is that of the last check, and one alarm has
    been sent for each run that has reached the threshold, when it did. *)
Theorem health_follows_streak start ticks :
  hc_endpoints cfg ≠ [] → 0 ≤ hc_failure_threshold cfg → Forall calm ticks → Z.of_nat (length ticks) < 2 ^ 32 →
  let p := poll_loop start ∅ ticks in
  store p !! name = Some (status_of start ticks) ∧ sent p = alarms ticks ∧ alive p = true.
Proof. intros. subst p. rewrite poll_loop_spec by done. cbn. by rewrite lookup_singleton_eq. Qed.

(** After a probe that panics the entry is never updated again. *)
Lemma panic_freezes_status p t ticks : hc_endpoints cfg ≠ [] → alive p = true →
  probe_list (t_net t) timeout (hc_endpoints cfg) = Panic → store (foldl probe_all p (t :: ticks)) = store p.
Proof.
  intros Hne Ha Hp. cbn. unfold probe_all at 2. rewrite Ha, Hp. destruct (hc_endpoints cfg) eqn:He; [done|]. cbn.
  enough (∀ q, alive q = false → foldl probe_all q ticks = q) as -> by done. clear.
  induction ticks as [|t ticks IH]; intros q Hq; [done|]. cbn. assert (probe_all q t = q) as -> by (unfold probe_all; by rewrite Hq). auto.
Qed.
End poll.

(** * The audit log *)

Definition DEFAULT_MAX_BYTES : Z := 10 * 1024 * 1024.
Definition DEFAULT_RETAIN : Z := 5.
(** A positive number from the environment, or the default. *)
Definition positive_or (dflt : Z) (var : option string) : Z :=
  match var ≫= parse_uint u64_max with Some n => if 0 <? n then n else dflt | None => dflt end.
Definition max_bytes (var : option string) : Z := positive_or DEFAULT_MAX_BYTES var.
Definition retain_count (var : option string) : Z := positive_or DEFAULT_RETAIN var.
Definition is_configured (var : option string) : bool :=
  match var with Some s => negb (str_is_empty s) | None => false end.

(** The log and its rotations: [0] is the log itself, [i] the file with the suffix [.i]. *)
Notation Logs := (gmap nat string).
(** Which calls fail: making the directory, removing the oldest file, each rename by its source,
    opening, and writing, of which a part may have arrived. *)
Record LogIo : Type := mkLogIo {
  dir_fails : bool; remove_fails : bool; rename_fails : nat → bool; open_fails : bool; write_torn : option string }.

Definition rename (io : LogIo) (from to : nat) (fs : Logs) : Logs :=
  if rename_fails io from then fs
  else match fs !! from with Some c => <[to := c]> (delete from fs) | None => fs end.
Definition rotate_if_needed (io : LogIo) (max : Z) (retain : nat) (fs : Logs) : Logs :=
  match fs !! 0%nat with
  | None => fs
  | Some c =>
      if Z.of_nat (String.length c) <? max then fs else
      let fs1 := if remove_fails io then fs else delete retain fs in
      let fs2 := foldl (λ fs i, rename io i (S i) fs) fs1 (rev (seq 1 (retain - 1))) in
      rename io 0 1 fs2
  end.

Section audit.
Context (to_line : gmap string Value → string).

(** The record: the three fixed fields, then the caller's, which may replace them. *)
Definition audit_record (ts : Value) (event : string) (fields : Value) : gmap string Value :=
  let base := <["ts" := ts]> (<["event" := Str event]> (<["service" := Str "sharecli"]> ∅)) in
  match fields with Obj l => foldl (λ m kv, <[kv.1 := kv.2]> m) base l | _ => base end.
Definition append_line (io : LogIo) (line : string) (fs : Logs) : Logs :=
  if open_fails io then fs
  else let text := match write_torn io with Some part => part | None => line +:+ String nl EmptyString end in
       <[0%nat := default EmptyString (fs !! 0%nat) +:+ text]> fs.
Definition write_line (io : LogIo) (max : Z) (retain : nat) (fs : Logs) (line : string) : Logs :=
  if dir_fails io then fs else append_line io line (rotate_if_needed io max retain fs).
Definition emit_to (io : LogIo) (max : Z) (retain : nat) (ts : Value) (event : string) (fields : Value) (fs : Logs) : Logs :=
  write_line io max retain fs (to_line (audit_record ts event fields)).
Definition emit_if_configured (var : option string) (io : LogIo) (max : Z) (retain : nat) (ts : Value) (event : string)
    (fields : Value) (fs : Logs) : Logs :=
  if is_configured var then emit_to io max retain ts event fields fs else fs.
End audit.

(** ** Rotation *)

Definition fine : LogIo := mkLogIo false false (λ _, false) false None.

(** The renames, from the oldest file down, move each file one place up. *)
Lemma shift_lookup n (fs : Logs) x : fs !! S n = None →
  foldl (λ fs i, rename fine i (S i) fs) fs (rev (seq 1 n)) !! x =
  if decide (x = 0%nat) then fs !! 0%nat
  else if decide (x ≤ S n)%nat then (if decide (x = 1%nat) then None else fs !! pred x) else fs !! x.
Proof.
  revert fs. induction n as [|n IH]; intros fs Hn.
  { cbn. repeat case_decide; subst; try done; try lia. }
  rewrite seq_S, rev_app_distr. cbn [rev app foldl]. change (1 + n)%nat with (S n).
  assert (Hl : ∀ y, rename fine (S n) (S (S n)) fs !! y =
    if decide (y = S (S n)) then fs !! S n else if decide (y = S n) then None else fs !! y).
  { intros y. unfold rename. cbn [fine rename_fails]. destruct (fs !! S n) as [c|] eqn:Ec.
    - destruct (decide (y = S (S n))) as [->|]; [by rewrite lookup_insert_eq|]. rewrite lookup_insert_ne by done.
      destruct (decide (y = S n)) as [->|]; [by rewrite lookup_delete_eq|by rewrite lookup_delete_ne].
    - repeat case_decide; subst; congruence. }
  rewrite IH by (rewrite Hl; by repeat case_decide; lia || done). rewrite !Hl.
  repeat case_decide; subst; try lia; try done; f_equal; lia.
Qed.
Lemma rotate_lookup max retain (fs : Logs) c x : (0 < retain)%nat → fs !! 0%nat = Some c → max ≤ Z.of_nat (String.length c) →
  rotate_if_needed fine max retain fs !! x =
  if decide (x = 0%nat) then None else if decide (x ≤ retain)%nat then fs !! pred x else fs !! x.
Proof.
  intros Hr Hc Hm. unfold rotate_if_needed. rewrite Hc, (proj2 (Z.ltb_ge _ _) Hm). cbn [fine remove_fails].
  set (fs1 := delete retain fs). assert (Hs := shift_lookup (retain - 1) fs1).
  replace (S (retain - 1)) with retain in Hs by lia. specialize (λ y, Hs y (lookup_delete_eq _ _)).
  set (fs2 := foldl _ fs1 _) in *. unfold rename at 1. cbn [fine rename_fails]. rewrite Hs, decide_True by done.
  assert (Hd : ∀ y, y ≠ retain → fs1 !! y = fs !! y) by (intros; by apply lookup_delete_ne).
  rewrite Hd, Hc by lia. destruct (decide (x = 1%nat)) as [->|].
  { rewrite lookup_insert_eq. repeat case_decide; try lia. done. }
  rewrite lookup_insert_ne by done. destruct (decide (x = 0%nat)) as [->|]; [by rewrite lookup_delete_eq|].
  rewrite lookup_delete_ne, Hs, decide_False by done. repeat case_decide; try lia; apply Hd; lia.
Qed.

(** The kept text, oldest file first: the files [n..1], then the log. *)
Fixpoint rotated (fs : Logs) (n : nat) : string :=
  match n with O => EmptyString | S n' => default EmptyString (fs !! S n') +:+ rotated fs n' end.
Definition contents (fs : Logs) (retain : nat) : string := rotated fs retain +:+ default EmptyString (fs !! 0%nat).

Section retention.
Context (max : Z) (retain : nat) (Hretain : (0 < retain)%nat).

(** [dropped] is what has been rotated out of [all]. *)
Record log_ok (dropped all : string) (fs : Logs) : Prop := {
  lo_text : all = dropped +:+ contents fs retain;
  lo_range : ∀ i, is_Some (fs !! i) → (i ≤ retain)%nat;
  lo_full : ∀ i c, fs !! S i = Some c → max ≤ Z.of_nat (String.length c);
  lo_dense : ∀ i, is_Some (fs !! S (S i)) → is_Some (fs !! S i);
  lo_drop : dropped ≠ EmptyString → is_Some (fs !! retain) }.

Lemma rotated_shift (fs fs1 : Logs) n : (n < retain)%nat → (∀ i, (i < retain)%nat → fs1 !! S i = fs !! i) →
  rotated fs1 (S n) = rotated fs n +:+ default EmptyString (fs !! 0%nat).
Proof.
  clear Hretain. intros Hn Hs. induction n as [|n IH]; [by cbn; rewrite Hs, str_app_nil_l, str_app_nil_r by lia|].
  change (rotated fs1 (S (S n))) with (default EmptyString (fs1 !! S (S n)) +:+ rotated fs1 (S n)).
  rewrite IH, Hs by lia. cbn. by rewrite str_app_assoc.
Qed.
Lemma rotated_ext (fs fs' : Logs) n : (∀ i, fs !! S i = fs' !! S i) → rotated fs n = rotated fs' n.
Proof. clear Hretain. intros H. induction n as [|n IH]; [done|]. cbn. by rewrite H, IH. Qed.

Lemma rotate_ok dropped all fs : log_ok dropped all fs →
  ∃ dropped', log_ok dropped' all (rotate_if_needed fine max retain fs).
Proof.
  intros [Ht Hr Hf Hd Hp]. destruct (fs !! 0%nat) as [c|] eqn:Hc; [destruct (Z.leb_spec max (Z.of_nat (String.length c))) as [Hm|Hm]|].
  2: { exists dropped. unfold rotate_if_needed. rewrite Hc, (proj2 (Z.ltb_lt _ _) Hm). by split. }
  2: { exists dropped. unfold rotate_if_needed. rewrite Hc. by split. }
  set (fs1 := rotate_if_needed fine max retain fs). pose proof (λ x, rotate_lookup max retain fs c x Hretain Hc Hm) as Hl.
  fold fs1 in Hl. assert (H0 : fs1 !! 0%nat = None) by (by rewrite Hl).
  assert (Hs : ∀ i, (i < retain)%nat → fs1 !! S i = fs !! i) by (intros i Hi; rewrite Hl; repeat case_decide; done || lia).
  assert (Hbig : ∀ i, is_Some (fs1 !! i) → (i ≤ retain)%nat).
  { intros i [x Hx]. rewrite Hl in Hx. repeat case_decide; [done|done|]. by apply Hr. }
  assert (∃ r, retain = S r) as [r Er] by (exists (pred retain); lia).
  exists (dropped +:+ default EmptyString (fs !! retain)). split.
  - rewrite Ht. unfold contents. rewrite H0, Er, (rotated_shift fs fs1 r) by (done || lia). cbn. by rewrite str_app_nil_r, !str_app_assoc.
  - done.
  - intros i x Hx. assert (i < retain)%nat by (pose proof (Hbig (S i) ltac:(eauto)); lia). rewrite Hs in Hx by done.
    destruct i; [by simplify_eq|by eapply Hf].
  - intros i Hx. pose proof (Hbig _ Hx). rewrite Hs in Hx by lia. rewrite Hs by lia. destruct i; [by eauto|by apply Hd].
  - intros Hne. rewrite Er, Hs by lia. destruct r as [|r]; [by eauto|]. apply Hd. rewrite <- Er.
    destruct (fs !! retain) eqn:E; [by eauto|]. apply Hp. intros ->. by apply Hne.
Qed.
Lemma append_ok dropped all fs line : log_ok dropped all fs →
  log_ok dropped (all +:+ line +:+ String nl EmptyString) (append_line fine line fs).
Proof.
  intros [Ht Hr Hf Hd Hp]. unfold append_line. cbn [fine open_fails write_torn]. set (fs' := <[0%nat := _]> fs).
  assert (Hs : ∀ i, fs' !! S i = fs !! S i) by (intros; by apply lookup_insert_ne).
  assert (H0 : fs' !! 0%nat = Some (default EmptyString (fs !! 0%nat) +:+ line +:+ String nl EmptyString)) by apply lookup_insert_eq.
  split.
  - unfold contents. rewrite (rotated_ext fs' fs) by done. rewrite H0, Ht. cbn. unfold contents. by rewrite !str_app_assoc.
  - intros [|i] Hi; [lia|]. rewrite Hs in Hi. auto.
  - intros i c. rewrite Hs. apply Hf.
  - intros i. rewrite !Hs. apply Hd.
  - intros Hne. specialize (Hp Hne). assert (retain = S (pred retain)) as Er by lia. rewrite Er in Hp |- *. by rewrite Hs.
Qed.

(** The audit log keeps the newest lines. Whatever is emitted, as long as the file operations
    succeed, the rotated files and the log, oldest first, are the end of all that was emitted; there are
    at most [retain] rotated files, each at least [max] bytes long, and something is given up only when
    there are as many. *)
Theorem audit_keeps_newest lines :
  let fs := foldl (write_line fine max retain) ∅ lines in
  ∃ dropped, line_block lines = dropped +:+ contents fs retain ∧
    (∀ i c, fs !! i = Some c → (i ≤ retain)%nat ∧ ((0 < i)%nat → max ≤ Z.of_nat (String.length c))) ∧
    (dropped ≠ EmptyString → ∀ i, (1 ≤ i ≤ retain)%nat → is_Some (fs !! i)).
Proof.
  intros fs. assert (∃ dropped, log_ok dropped (line_block lines) fs) as (dr & [Ht Hr Hf Hd Hp]).
  - subst fs. induction lines as [|l lines IH] using rev_ind.
    + exists EmptyString. split; intros *; rewrite ?lookup_empty; try (by intros []); try done. unfold contents.
      cbn. assert (∀ n, rotated ∅ n = EmptyString) as -> by (induction n as [|n IH]; [done|cbn; by rewrite lookup_empty, IH]). done.
    + destruct IH as [dr Hok]. apply rotate_ok in Hok as [dr' Hok]. exists dr'. rewrite foldl_app, line_block_snoc.
      cbn [foldl]. unfold write_line at 1. cbn [fine dir_fails]. by apply append_ok.
  - exists dr. split_and!; [done| |].
    + intros i c Hc. split; [by eauto|]. destruct i; [lia|]. intros _. by eapply Hf.
    + intros Hne. assert (Hall : ∀ k, (k < retain)%nat → is_Some (fs !! (retain - k)%nat)).
      { induction k as [|k IH]; intros Hk; [rewrite Nat.sub_0_r; auto|]. specialize (IH ltac:(lia)).
        destruct (retain - k)%nat as [|[|j]] eqn:E; [lia|lia|]. replace (retain - S k)%nat with (S j) by lia. auto. }
      intros i Hi. replace i with (retain - (retain - i))%nat by lia. apply Hall. lia.
Qed.
End retention.

(** * The log sink *)

Inductive LogLevel : Type := Debug | Info | Warn | Error.
Record LogEntry : Type := mkEntry { le_level : LogLevel; le_message : string }.
(** [LogSink::write]: the oldest entry makes room. *)
Definition sink_write (capacity : nat) (buf : list LogEntry) (e : LogEntry) : list LogEntry :=
  (if (capacity <=? length buf)%nat then tail buf else buf) ++ [e].
Definition sink_drain (buf : list LogEntry) : list LogEntry * list LogEntry := ([], buf).

(** The sink holds the last entries written, as many as its capacity, and one where that is zero. *)
Lemma sink_keeps_newest capacity l :
  foldl (sink_write capacity) [] l = drop (length l - Nat.max 1 capacity) l.
Proof.
  induction l as [|e l IH] using rev_ind; [done|]. rewrite foldl_app, IH, length_app. cbn [foldl length]. unfold sink_write.
  rewrite length_drop, drop_app. replace (length l + 1 - Nat.max 1 capacity - length l)%nat with 0%nat by lia.
  rewrite drop_0. f_equal. destruct (Nat.leb_spec capacity (length l - (length l - Nat.max 1 capacity))) as [H|H].
  - destruct (decide (l = [])) as [->|Hl]; [by destruct capacity|]. destruct l as [|x l]; [done|]. cbn [length] in *.
    replace (S (length l) + 1 - Nat.max 1 capacity)%nat with (1 + (S (length l) - Nat.max 1 capacity))%nat by lia.
    rewrite Nat.add_comm, <- drop_drop. by destruct (drop _ (x :: l)).
  - f_equal. lia.
Qed.

(** * The configuration watcher *)

Inductive EventKind : Type := EvAny | EvAccess | EvCreate | EvModify | EvRemove | EvOther.
(** What the watcher is told, when, and what the file then holds. *)
Record FsEvent : Type := mkFsEvent { ev_now : Z; ev_kind : result EventKind string; ev_file : result string string }.
Definition DEBOUNCE : Z := 200.

Section watcher.
Context {C : Type} (parse : string → result C string).

Record Watcher : Type := mkWatcher { last_event : option Z; published : C }.
Definition reload_config (f : result string string) : result C string := s <-? f;; parse s.
Definition relevant (k : EventKind) : bool := match k with EvCreate | EvModify => true | _ => false end.
Definition on_event (w : Watcher) (e : FsEvent) : Watcher :=
  match ev_kind e with
  | Err _ => w
  | Ok k =>
      if negb (relevant k) then w
      else if match last_event w with Some prev => ev_now e - prev <? DEBOUNCE | None => false end then w
      else match reload_config (ev_file e) with
           | Ok c => mkWatcher (Some (ev_now e)) c
           | Err _ => mkWatcher (Some (ev_now e)) (published w)
           end
  end.

(** The configurations an event makes readable. *)
Definition readable (e : FsEvent) : option C :=
  match ev_kind e, reload_config (ev_file e) with
  | Ok k, Ok c => if relevant k then Some c else None
  | _, _ => None
  end.
Definition change (e : FsEvent) : bool := match ev_kind e with Ok k => relevant k | Err _ => false end.

(** Changes at least the debounce interval apart, after [t] where there is one. *)
Fixpoint spaced (t : option Z) (l : list FsEvent) : Prop :=
  match l with
  | [] => True
  | e :: l' =>
      if change e then (∀ t', t = Some t' → DEBOUNCE ≤ ev_now e - t') ∧ spaced (Some (ev_now e)) l' else spaced t l'
  end.

(** Changes that are far enough apart all arrive: the published configuration is the last readable one. *)
Lemma spaced_changes_arrive w l : spaced (last_event w) l →
  published (foldl on_event w l) = default (published w) (last (omap readable l)).
Proof.
  revert w. induction l as [|e l IH]; intros w Hs; [done|]. cbn [foldl omap list_omap spaced] in *. unfold on_event at 2. unfold readable at 1. unfold change in Hs.
  destruct (ev_kind e) as [k|]; [|by apply IH]. destruct (relevant k); cbn [negb] in *; [|by destruct (reload_config _); apply IH].
  destruct Hs as [Ht Hs].
  replace (match last_event w with Some prev => ev_now e - prev <? DEBOUNCE | None => false end) with false.
  2: { destruct (last_event w); [|done]. symmetry. apply Z.ltb_ge. by apply Ht. }
  destruct (reload_config (ev_file e)) as [c|]; rewrite IH by done; cbn; [|done]. rewrite last_cons. by destruct (last _).
Qed.

(** Of a burst only the first event counts: what is written within the interval after it is not read. *)
Lemma burst_tail_lost w e1 e2 c : change e1 = true → reload_config (ev_file e1) = Ok c →
  (∀ t, last_event w = Some t → DEBOUNCE ≤ ev_now e1 - t) → ev_now e2 - ev_now e1 < DEBOUNCE →
  published (foldl on_event w [e1; e2]) = c.
Proof.
  intros H1 Hr Hl H2. unfold change in H1. destruct (ev_kind e1) as [k1|] eqn:E1; [|done]. cbn. unfold on_event at 2. rewrite E1, H1, Hr. cbn.
  replace (match last_event w with Some prev => ev_now e1 - prev <? DEBOUNCE | None => false end) with false.
  2: { destruct (last_event w); [|done]. symmetry. apply Z.ltb_ge. by apply Hl. }
  unfold on_event. cbn. destruct (ev_kind e2) as [k2|]; [|done]. destruct (relevant k2); [|done]. cbn.
  by rewrite (proj2 (Z.ltb_lt _ _) H2).
Qed.
End watcher.

(** * Examples *)

(** A secure address is asked in the clear, on port 80. *)
Lemma https_probed_in_clear net h : probe_http net ("https://" +:+ h) = probe_http net ("http://" +:+ h).
Proof. reflexivity. Qed.

(** A success whose 32nd byte falls into a character counts as a failure. *)
Example cut_character_fails :
  let line := "HTTP/1.1 200 OK" +:+ crlf +:+ "Server: cafe12" in
  judge (response_text (list_byte_of_string line)) = Pass ∧
  utf8_valid (list_byte_of_string line ++ [xc3; xa9]) = true ∧
  judge (response_text (list_byte_of_string line ++ [xc3; xa9])) ≠ Pass.
Proof. vm_compute. by split_and!. Qed.

(** A status line with a character of two bytes before the code makes the probe panic. *)
Example odd_status_panics :
  judge (response_text (list_byte_of_string "HTTP/1.1" ++ [xc3; xa9] ++ list_byte_of_string "200 OK")) = Panic.
Proof. by vm_compute. Qed.

Module DemoMonitors.
Definition up : Net := mkNet (λ _, Connected) (λ _ _, ReadTimeout).
Definition down : Net := mkNet (λ _, ConnectErr "refused") (λ _ _, ReadTimeout).
Definition cfg : HealthCheckConfig := mkHealthCheckConfig 30 5 2 ["tcp://db:5432"].
Definition ticks : list Tick := [mkTick 1 1 down; mkTick 2 2 down; mkTick 3 3 down; mkTick 4 4 up; mkTick 5 5 down].

Lemma health_follows_streak_witness :
  let p := poll_loop "db" cfg (Some (mkNotifierConfig true [])) 0 ∅ ticks in
  store p !! "db" = Some (mkStatus true 5 1 (Some "TCP connect to 'db:5432' failed: refused")) ∧ length (sent p) = 1%nat.
Proof.
  destruct (health_follows_streak "db" cfg (Some (mkNotifierConfig true [])) 0 ticks) as (Hs & Hd & _);
    [done|done|repeat constructor; by vm_compute|done|].
  intros p. subst p. rewrite Hs, Hd. split; by vm_compute.
Defined.

Lemma audit_keeps_newest_witness :
  let fs := foldl (write_line fine 3 2) ∅ ["ab"; "cd"; "ef"; "gh"] in
  ∃ dropped, line_block ["ab"; "cd"; "ef"; "gh"] = dropped +:+ contents fs 2 ∧
    contents fs 2 = "cd" +:+ String nl "ef" +:+ String nl "gh" +:+ String nl EmptyString.
Proof.
  destruct (audit_keeps_newest 3 2 ltac:(lia) ["ab"; "cd"; "ef"; "gh"]) as (dropped & Ht & _ & _).
  exists dropped. split; [exact Ht|by vm_compute].
Defined.
End DemoMonitors.
