(* ===== verification/RuntimePool.v ===== *)
(** The processes the command line manages (src/runtime/{pool,shared,resources,process_info,audit}.rs,
    src/spawn_policy.rs, src/commands/process_ops.rs, and the semaphore of
    crates/spawn-core-sys/src/windows_stub.rs): the pool of spawned processes with its build throttle
    and scoped environment, the shared node and bun runtimes, project limits, and the stop command.
    Child processes, the process table and hash-map order are parameters. *)
From S2P Require Import Prelude JsonValue Config.

(** * The semaphore and the spawn policy *)

Record SemInner : Type := mkSem { available : Z; sem_max : Z }.
Definition sem_new (max : Z) : SemInner := let m := Z.max max 1 in mkSem m m.
(** [None]: the caller waits, or is told that no permit is free. *)
Definition try_acquire (s : SemInner) : option SemInner :=
  if available s =? 0 then None else Some (mkSem (available s - 1) (sem_max s)).
Definition sem_release (s : SemInner) : SemInner :=
  if available s <? sem_max s then mkSem (available s + 1) (sem_max s) else s.

Definition is_build_harness (h : string) : bool :=
  bool_decide (h ∈ ["cargo"; "rustc"; "build"; "make"; "cmake"; "ninja"; "bazel"]).

Record SpawnPolicy : Type := mkPolicy { semaphore : SemInner; py_config : SpawnPolicyConfig }.
Definition policy_new (c : SpawnPolicyConfig) : SpawnPolicy :=
  mkPolicy (sem_new (Z.max (py_max_concurrent_builds c) 1)) c.

Inductive Platform : Type := Linux | Macos.
Definition apply_taskpolicy (os : Platform) (c : SpawnPolicyConfig) (program : string) (args : list string) : string * list string :=
  match os with
  | Macos => if 0 <? py_nice_level c then ("taskpolicy", "--" :: program :: args) else (program, args)
  | Linux => (program, args)
  end.
Definition build_env_overrides (c : SpawnPolicyConfig) (sccache_on_path : bool) : list (string * string) :=
  ("CARGO_BUILD_JOBS", show_u (py_max_concurrent_builds c)) ::
  (if py_use_sccache c && sccache_on_path then [("RUSTC_WRAPPER", "sccache")] else []).

(** * Process data *)

Inductive ProcState : Type := Idle | Run | Sleep | Stop | Zombie | Tracing | Dead | Unknown.

(** A process as [sysinfo] shows it; the CPU percentage is kept as a text. *)
Record SysProc : Type := mkSys {
  sp_cmd : list string; sp_memory : Z; sp_start : Z; sp_cpu : string; sp_parent : option Z; sp_cwd : option string;
  sp_environ : list string; sp_state : ProcState; sp_read : Z; sp_written : Z; sp_fds : option Z; sp_threads : option Z }.
Record ProcessInfo : Type := mkInfo {
  pi_pid : Z; pi_name : string; pi_cmd : list string; pi_memory_mb : Z; pi_start_time : Z; pi_cpu_percent : string;
  pi_project : option string; pi_harness : option string; pi_ppid : option Z; pi_cwd : option string; pi_env_count : Z;
  pi_state : ProcState; pi_disk_read : option Z; pi_disk_write : option Z; pi_fd_count : option Z; pi_thread_count : option Z }.

Definition from_sysinfo (pid : Z) (name : string) (sys : Z → option SysProc) : option ProcessInfo :=
  p ← sys pid;
  Some (mkInfo pid name (sp_cmd p) (sp_memory p / 1024 / 1024) (sp_start p) (sp_cpu p) None None (sp_parent p)
    (match sp_cwd p with Some s => if str_is_empty s then None else Some s | None => None end)
    (Z.of_nat (length (sp_environ p)) mod 2 ^ 32) (sp_state p) (Some (sp_read p)) (Some (sp_written p)) (sp_fds p) (sp_threads p)).
Definition tag (project harness : option string) (i : ProcessInfo) : ProcessInfo :=
  mkInfo (pi_pid i) (pi_name i) (pi_cmd i) (pi_memory_mb i) (pi_start_time i) (pi_cpu_percent i) project harness (pi_ppid i)
    (pi_cwd i) (pi_env_count i) (pi_state i) (pi_disk_read i) (pi_disk_write i) (pi_fd_count i) (pi_thread_count i).

Record ProcessHandle : Type := mkHandle { h_pid : Z }.
Record ManagedProcess : Type := mkManaged { m_info : ProcessInfo; m_handle : ProcessHandle }.

Record Audit : Type := mkAudit {
  au_event : string; au_project : option string; au_capability : string; au_outcome : string; au_pid : option Z }.
Definition spawn_capability (cmd : string) (harness : option string) : string := default cmd harness.

(** * The process pool *)

(** The pool with what it acts on: the environment of this process, the audit trail and the process
    groups it has asked to kill. *)
Record Pool : Type := mkPool {
  processes : gmap Z ManagedProcess; spawn_policy : option SpawnPolicy;
  env : gmap string string; trail : list Audit; kills : list Z }.
Definition with_processes (f : gmap Z ManagedProcess → gmap Z ManagedProcess) (p : Pool) : Pool :=
  mkPool (f (processes p)) (spawn_policy p) (env p) (trail p) (kills p).
Definition with_policy (x : option SpawnPolicy) (p : Pool) : Pool := mkPool (processes p) x (env p) (trail p) (kills p).
Definition with_env (x : gmap string string) (p : Pool) : Pool := mkPool (processes p) (spawn_policy p) x (trail p) (kills p).
Definition audit (a : Audit) (p : Pool) : Pool := mkPool (processes p) (spawn_policy p) (env p) (trail p ++ [a]) (kills p).
Definition add_kill (pid : Z) (p : Pool) : Pool := mkPool (processes p) (spawn_policy p) (env p) (trail p) (kills p ++ [pid]).
(** [ProcessPool::new] and [with_spawn_policy], in a process with environment [e]. *)
Definition pool_new (e : gmap string string) : Pool := mkPool ∅ None e [] [].
Definition pool_with_policy (x : SpawnPolicy) (e : gmap string string) : Pool := mkPool ∅ (Some x) e [] [].

(** ** The scoped environment *)

Record EnvGuard : Type := mkGuard { g_key : string; g_prev : option string }.
Definition drop_guard (e : gmap string string) (g : EnvGuard) : gmap string string :=
  match g_prev g with Some v => <[g_key g := v]> e | None => delete (g_key g) e end.
Fixpoint set_guards (l : list (string * string)) (e : gmap string string) : list EnvGuard * gmap string string :=
  match l with
  | [] => ([], e)
  | (k, v) :: l' => let '(gs, e') := set_guards l' (<[k := v]> e) in (mkGuard k (e !! k) :: gs, e')
  end.

Definition traceparent_spawn_env (e : gmap string string) (otel : option string) : option (string * string) :=
  if bool_decide (is_Some (e !! "TRACEPARENT")) then None
  else match e !! "traceparent" with
       | Some v => if str_is_empty v then pair "TRACEPARENT" <$> otel else Some ("TRACEPARENT", v)
       | None => pair "TRACEPARENT" <$> otel
       end.

Record ProcessSpawnSpec : Type := mkSpec { program : string; spec_args : list string; spec_cwd : option string }.
(** How the blocking task ends: with a handle, with an error of its own, or not at all. *)
Inductive Spawned : Type := Started (h : ProcessHandle) | SpawnErr (e : string) | JoinErr (e : string).

Section pool.
(** Starting a program in an environment, killing a process group, the process table, the order of a
    hash map, the platform, whether sccache is on the path, and the trace context. *)
Context (start_process : ProcessSpawnSpec → gmap string string → Spawned) (kill_group : ProcessHandle → result unit string)
  (sys : Z → option SysProc) (iter : gmap Z ManagedProcess → list (Z * ManagedProcess))
  (os : Platform) (sccache : bool) (otel : option string).

(** The command, arguments and environment of a spawn, and the policy with its permit taken; [None]
    where the caller waits for a permit. *)
Definition shape (cmd : string) (args : list string) (harness : option string) (pol : option SpawnPolicy)
    : option (string * list string * list (string * string) * option SpawnPolicy) :=
  let is_build := match harness with Some h => is_build_harness h | None => is_build_harness cmd end in
  match is_build, pol with
  | true, Some x =>
      s ← try_acquire (semaphore x);
      let '(prog, shaped) := apply_taskpolicy os (py_config x) cmd args in
      Some (prog, shaped, build_env_overrides (py_config x) sccache, Some (mkPolicy s (py_config x)))
  | _, _ => Some (cmd, args, [], pol)
  end.
(** The permit is dropped when [spawn] returns. *)
Definition give_back (taken : bool) (p : Pool) : Pool :=
  if taken then with_policy ((λ x, mkPolicy (sem_release (semaphore x)) (py_config x)) <$> spawn_policy p) p else p.
Definition takes_permit (cmd : string) (harness : option string) (p : Pool) : bool :=
  (match harness with Some h => is_build_harness h | None => is_build_harness cmd end)
  && bool_decide (is_Some (spawn_policy p)).

Definition spawn (cmd : string) (args : list string) (cwd project harness : option string) (p : Pool)
    : option (Pool * result ProcessInfo string) :=
  let taken := takes_permit cmd harness p in
  '(prog, shaped, extra, pol) ← shape cmd args harness (spawn_policy p);
  let p1 := with_policy pol p in
  let extra := extra ++ match traceparent_spawn_env (env p1) otel with Some kv => [kv] | None => [] end in
  let cap := spawn_capability cmd harness in
  let '(guards, inner) := set_guards extra (env p1) in
  let r := start_process (mkSpec prog shaped cwd) inner in
  let p2 := with_env (foldl drop_guard inner guards) p1 in
  Some (match r with
        | JoinErr e => (give_back taken p2, Err ("spawn_blocking join: " +:+ e))
        | SpawnErr e =>
            (give_back taken (audit (mkAudit "spawn" project cap "denied" None) p2),
             Err ("spawn " +:+ prog +:+ ": " +:+ e))
        | Started h =>
            let info := mkInfo (h_pid h) prog (prog :: shaped) 0 0 "0" project harness None None 0 Unknown None None None None in
            let p3 := with_processes <[h_pid h := mkManaged info h]> p2 in
            (give_back taken (audit (mkAudit "spawn" project cap "ok" (Some (h_pid h))) p3), Ok info)
        end).

(** ** Killing and finding *)

Definition stop_audit (m : ManagedProcess) (pid : Z) (out : string) : Audit :=
  mkAudit "stop" (pi_project (m_info m)) (spawn_capability (pi_name (m_info m)) (pi_harness (m_info m))) out (Some pid).
Definition kill (pid : Z) : stm Pool string unit := λ p,
  match processes p !! pid with
  | None => (p, Ok tt)
  | Some m =>
      let p1 := add_kill (h_pid (m_handle m)) p in
      match kill_group (m_handle m) with
      | Ok _ => (with_processes (delete pid) (audit (stop_audit m pid "ok") p1), Ok tt)
      | Err e => (audit (stop_audit m pid "denied") p1, Err ("kill pid " +:+ show_u pid +:+ ": " +:+ e))
      end
  end.

Definition kill_one (acc : Pool * list Z * list string) (x : Z * ManagedProcess) : Pool * list Z * list string :=
  let '(p, stopped, failures) := acc in
  let p1 := add_kill (h_pid (m_handle x.2)) p in
  match kill_group (m_handle x.2) with
  | Ok _ => (audit (stop_audit x.2 x.1 "ok") p1, stopped ++ [x.1], failures)
  | Err e => (audit (stop_audit x.2 x.1 "denied") p1, stopped, failures ++ ["kill pid " +:+ show_u x.1 +:+ ": " +:+ e])
  end.
Definition kill_all : stm Pool string unit := λ p,
  let '(p1, stopped, failures) := foldl kill_one (p, [], []) (iter (processes p)) in
  let p2 := with_processes (λ m, foldl (λ m pid, delete pid m) m stopped) p1 in
  (p2, match failures with [] => Ok tt | _ => Err (join_with "; " failures) end).

Inductive ProcessFilter : Type := All | ByProject (p : string) | ByHarness (h : string).
Definition live_info (x : Z * ManagedProcess) : option ProcessInfo :=
  tag (pi_project (m_info x.2)) (pi_harness (m_info x.2)) <$> from_sysinfo x.1 (pi_name (m_info x.2)) sys.
Definition matches (f : ProcessFilter) (i : ProcessInfo) : bool :=
  match f with
  | All => true
  | ByProject p => bool_decide (pi_project i = Some p)
  | ByHarness h => bool_decide (pi_harness i = Some h)
  end.
Definition list_processes (p : Pool) : list ProcessInfo := omap live_info (iter (processes p)).
Definition find (f : ProcessFilter) (p : Pool) : list ProcessInfo := List.filter (matches f) (list_processes p).

(** ** The stop command *)

Definition force_kill_requires_confirmation (force yes : bool) : bool := force && negb yes.
Fixpoint kill_each (l : list ProcessInfo) : stm Pool string unit :=
  match l with [] => st_ret tt | i :: l' => kill (pi_pid i);;; kill_each l' end.
Definition stop (pid : option Z) (project harness : option string) (all force yes : bool) (e : gmap string string)
    : Pool * result unit string :=
  let pool := pool_new e in
  let ask := force_kill_requires_confirmation force yes in
  if all then if ask then (pool, Ok tt) else kill_all pool
  else match pid with
  | Some p => if ask then (pool, Ok tt) else kill p pool
  | None =>
      let filter := match project, harness with
                    | Some p, _ => Some (ByProject p)
                    | None, Some h => Some (ByHarness h)
                    | None, None => None
                    end in
      match filter with
      | None => (pool, Err "Specify --pid, --project, --harness, or --all to select what to stop")
      | Some f => let l := find f pool in if ask then (pool, Ok tt) else kill_each l pool
      end
  end.
(** [project_group_stop]: every process is tried, the failures are counted. *)
Definition kill_counted (acc : Pool * Z * Z) (i : ProcessInfo) : Pool * Z * Z :=
  let '(p, stopped, failed) := acc in
  match kill (pi_pid i) p with (p', Ok _) => (p', stopped + 1, failed) | (p', Err _) => (p', stopped, failed + 1) end.
Definition project_group_stop (name : string) (force yes : bool) (e : gmap string string) : Pool * result unit string :=
  let pool := pool_new e in
  match find (ByProject name) pool with
  | [] => (pool, Ok tt)
  | l =>
      if force_kill_requires_confirmation force yes then (pool, Ok tt)
      else let '(p, _, failed) := foldl kill_counted (pool, 0, 0) l in
           (p, if failed =? 0 then Ok tt else Err (show_u failed +:+ " process(es) could not be stopped"))
  end.

(** ** A spawn leaves the environment and the permits as they were *)

Lemma set_guards_other l e x : x ∉ l.*1 → (set_guards l e).2 !! x = e !! x.
Proof.
  revert e. induction l as [|[k v] l IH]; intros e; [done|]. cbn. intros [Hx Hl]%not_elem_of_cons.
  specialize (IH (<[k := v]> e) Hl). destruct (set_guards l _). cbn in *. by rewrite IH, lookup_insert_ne.
Qed.
(** Of distinct variables the guards hold the values before any was set. *)
Lemma set_guards_prev l e : NoDup l.*1 → (set_guards l e).1 = (λ kv, mkGuard kv.1 (e !! kv.1)) <$> l.
Proof.
  revert e. induction l as [|[k v] l IH]; intros e; [done|]. cbn. intros [Hk Hnd]%NoDup_cons.
  specialize (IH (<[k := v]> e) Hnd). destruct (set_guards l _) as [gs e2]. cbn in *. rewrite IH. f_equal.
  apply list_fmap_ext. intros i [k2 v2] Hi%list_elem_of_lookup_2. cbn. rewrite lookup_insert_ne; [done|].
  intros ->. apply Hk, list_elem_of_fmap. by exists (k2, v2).
Qed.
(** Dropping them, in any environment that agrees elsewhere, brings those values back. *)
Lemma drop_guards_restore (l : list (string * string)) (e e' : gmap string string) : (∀ x, x ∉ l.*1 → e' !! x = e !! x) →
  foldl drop_guard e' ((λ kv, mkGuard kv.1 (e !! kv.1)) <$> l) = e.
Proof.
  revert e'. induction l as [|[k v] l IH]; intros e' He'.
  { apply map_eq. intros x. apply He'. cbn. set_solver. }
  cbn. apply IH. intros x Hx. unfold drop_guard. cbn. destruct (decide (x = k)) as [->|Hne].
  - destruct (e !! k) eqn:Ek; [by rewrite lookup_insert_eq|by rewrite lookup_delete_eq].
  - destruct (e !! k); [rewrite lookup_insert_ne by done|rewrite lookup_delete_ne by done]; apply He'; cbn; set_solver.
Qed.
Lemma guards_bracket l e : NoDup l.*1 → foldl drop_guard (set_guards l e).2 (set_guards l e).1 = e.
Proof. intros Hnd. rewrite set_guards_prev by done. apply drop_guards_restore. intros x. apply set_guards_other. Qed.

Lemma shape_keys cmd args harness pol prog shaped extra pol' e :
  shape cmd args harness pol = Some (prog, shaped, extra, pol') →
  NoDup (extra ++ match traceparent_spawn_env e otel with Some kv => [kv] | None => [] end).*1.
Proof.
  assert (Ht : ∀ kv, traceparent_spawn_env e otel = Some kv → kv.1 = "TRACEPARENT").
  { unfold traceparent_spawn_env. intros kv. repeat (case_match; simplify_eq/=; try done); try (destruct otel; naive_solver). }
  assert (Hx : ∀ c, extra = [] ∨ extra = build_env_overrides c sccache → NoDup (extra ++ match traceparent_spawn_env e otel with Some kv => [kv] | None => [] end).*1).
  { intros c Hc. destruct (traceparent_spawn_env e otel) as [[k v]|]; [specialize (Ht _ eq_refl); cbn in Ht; subst k|];
      destruct Hc as [->| ->]; unfold build_env_overrides; [|destruct (_ && _)| |destruct (_ && _)]; cbn; repeat constructor; set_solver. }
  unfold shape. intros Hs. destruct (match harness with Some h => _ | None => _ end), pol as [x|]; simplify_eq/=; try (by apply (Hx SpawnPolicyConfig_default); left).
  destruct (try_acquire _); [|done]. cbn in Hs. destruct (apply_taskpolicy _ _ _ _). simplify_eq. apply (Hx (py_config x)). by right.
Qed.

Definition sem_ok (s : SemInner) : Prop := 0 ≤ available s ≤ sem_max s.
Definition policy_ok (p : Pool) : Prop := ∀ x, spawn_policy p = Some x → sem_ok (semaphore x).
Lemma acquire_release s s' : sem_ok s → try_acquire s = Some s' → sem_release s' = s.
Proof.
  unfold sem_ok, try_acquire, sem_release. destruct s as [a m]. cbn. intros [? ?]. destruct (Z.eqb_spec a 0); [done|].
  intros [= <-]. cbn. rewrite (proj2 (Z.ltb_lt _ _)) by lia. f_equal. lia.
Qed.
Lemma policy_new_ok c e : policy_ok (pool_with_policy (policy_new c) e).
Proof. intros x [= <-]. unfold sem_ok. cbn. lia. Qed.

(** The policy with a permit taken gets it back. *)
Lemma shape_gives_back cmd args harness p prog shaped extra pol q : policy_ok p →
  shape cmd args harness (spawn_policy p) = Some (prog, shaped, extra, pol) → spawn_policy q = pol →
  spawn_policy (give_back (takes_permit cmd harness p) q) = spawn_policy p.
Proof.
  unfold shape, give_back, takes_permit. intros Hok Hs Hq.
  destruct (match harness with Some h => _ | None => _ end); [|simplify_eq/=; done].
  destruct (spawn_policy p) as [x|] eqn:Hp; [|cbn in *; by simplify_eq]. rewrite bool_decide_true by eauto. cbn.
  destruct (try_acquire (semaphore x)) as [s'|] eqn:Ha; [|done]. cbn in Hs. destruct (apply_taskpolicy _ _ _ _).
  injection Hs as _ _ _ Hs. rewrite Hq, <- Hs. cbn. rewrite (acquire_release (semaphore x) s') by (done || by apply Hok). by destruct x.
Qed.

(** A spawn that returns leaves the environment of the process and the permits of the policy as
    they were, kills nothing, and changes the table only by the process it reports; and it returns,
    unless it is a build and no permit is free. *)
Theorem spawn_scoped cmd args cwd project harness p : policy_ok p →
  match spawn cmd args cwd project harness p with
  | Some (p', r) =>
      env p' = env p ∧ spawn_policy p' = spawn_policy p ∧ kills p' = kills p ∧
      processes p' = match r with Ok i => <[pi_pid i := mkManaged i (mkHandle (pi_pid i))]> (processes p) | Err _ => processes p end
  | None => takes_permit cmd harness p = true ∧ ∃ x, spawn_policy p = Some x ∧ available (semaphore x) = 0
  end.
Proof.
  intros Hok. unfold spawn. destruct (shape cmd args harness (spawn_policy p)) as [[[[prog shaped] extra] pol]|] eqn:Hs; cbn [mbind option_bind].
  - pose proof (shape_keys _ _ _ _ _ _ _ _ (env (with_policy pol p)) Hs) as Hnd. cbn [env with_policy] in *.
    pose proof (guards_bracket _ (env p) Hnd) as Hg. destruct (set_guards _ (env p)) as [guards inner]. cbn [fst snd] in Hg.
    assert (Hf : ∀ q, spawn_policy q = pol → spawn_policy (give_back (takes_permit cmd harness p) q) = spawn_policy p)
      by (intros; by eapply shape_gives_back).
    assert (He : ∀ q, env (give_back (takes_permit cmd harness p) q) = env q ∧ kills (give_back (takes_permit cmd harness p) q) = kills q ∧
      processes (give_back (takes_permit cmd harness p) q) = processes q) by (intros q; by destruct (takes_permit _ _ _)).
    destruct (start_process _ _) as [h|e|e]; rewrite Hf by done;
      match goal with |- context [give_back _ ?q] => destruct (He q) as (-> & -> & ->) end; cbn; rewrite Hg; split_and!; try done.
    by destruct h.
  - revert Hs. unfold shape, takes_permit. destruct (match harness with Some h => _ | None => _ end); [|done].
    destruct (spawn_policy p) as [x|]; [|done]. unfold try_acquire. destruct (Z.eqb_spec (available (semaphore x)) 0).
    + intros _. split; [by rewrite bool_decide_true|eauto].
    + cbn. by destruct (apply_taskpolicy _ _ _ _).
Qed.

(** ** Killing *)

Context (iter_perm : ∀ m, iter m ≡ₚ map_to_list m).

(** The command starts from a pool of its own, which is empty: it asks to kill no process at all, and
    answers that it has, unless it is told nothing. *)
Theorem stop_kills_nothing pid project harness all force yes e :
  let '(p, r) := stop pid project harness all force yes e in
  kills p = [] ∧ trail p = [] ∧ (is_ok r = true ∨ (all = false ∧ pid = None ∧ project = None ∧ harness = None)).
Proof.
  assert (Hi : iter ∅ = []) by (apply Permutation_nil_r; by rewrite iter_perm, map_to_list_empty).
  unfold stop, kill_all, find, list_processes. cbn [processes pool_new]. rewrite Hi. cbn.
  unfold kill. cbn [processes pool_new]. destruct all; [destruct (force_kill_requires_confirmation force yes); cbn; auto|].
  destruct pid; [rewrite lookup_empty; destruct (force_kill_requires_confirmation force yes); cbn; auto|].
  destruct project; [|destruct harness]; cbn; rewrite ?Hi; try destruct (force_kill_requires_confirmation force yes); cbn; auto 10.
Qed.
Lemma project_stop_kills_nothing name force yes e : project_group_stop name force yes e = (pool_new e, Ok tt).
Proof.
  assert (Hi : iter ∅ = []) by (apply Permutation_nil_r; by rewrite iter_perm, map_to_list_empty).
  unfold project_group_stop, find, list_processes. cbn [processes pool_new]. by rewrite Hi.
Qed.

Definition dies (x : Z * ManagedProcess) : Prop := is_ok (kill_group (m_handle x.2)) = true.
#[local] Instance dies_dec x : Decision (dies x) := decide (_ = _).

Lemma kill_one_fold l p stopped failures :
  let '(p', s, f) := foldl kill_one (p, stopped, failures) l in
  processes p' = processes p ∧ env p' = env p ∧ kills p' = kills p ++ ((λ x, h_pid (m_handle x.2)) <$> l) ∧
  s = stopped ++ (filter dies l).*1 ∧ (f = [] ↔ failures = [] ∧ Forall dies l).
Proof.
  clear start_process sys iter iter_perm os sccache otel. revert p stopped failures.
  induction l as [|x l IH]; intros p stopped failures; cbn [foldl].
  { cbn. rewrite !app_nil_r. split_and!; try done. split; [|by intros [? _]]. split; [done|constructor]. }
  unfold kill_one at 2. destruct (kill_group (m_handle x.2)) as [u|e] eqn:Hk;
    match goal with |- context [foldl kill_one (?p', ?s', ?f') l] => specialize (IH p' s' f'); destruct (foldl kill_one (p', s', f') l) as [[q s] f] end;
    destruct IH as (Hp & He & Hkl & Hs & Hf); rewrite Hp, He, Hkl, Hs, Hf; cbn [processes env kills audit add_kill]; rewrite fmap_cons.
  - rewrite filter_cons_True by (unfold dies; by rewrite Hk). rewrite <- !app_assoc. split_and!; try done.
    rewrite Forall_cons. unfold dies at 2. rewrite Hk. naive_solver.
  - rewrite filter_cons_False by (unfold dies; by rewrite Hk). rewrite <- !app_assoc. split_and!; try done.
    rewrite Forall_cons. unfold dies at 2. rewrite Hk. split; [intros [[_ [=]]%app_nil _]|by intros (_ & [=] & _)].
Qed.
Lemma delete_all_lookup {A} (l : list Z) (m : gmap Z A) k :
  foldl (λ m pid, delete pid m) m l !! k = if decide (k ∈ l) then None else m !! k.
Proof.
  clear. revert m. induction l as [|x l IH]; intros m; [done|]. cbn [foldl]. rewrite IH.
  destruct (decide (k = x)) as [->|Hne].
  - rewrite (decide_True (P := x ∈ x :: l)) by apply list_elem_of_here. rewrite lookup_delete_eq. by case_decide.
  - rewrite lookup_delete_ne by done. by rewrite (decide_ext (k ∈ l) (k ∈ x :: l)) by (rewrite elem_of_cons; naive_solver).
Qed.

(** Killing everything asks each process of the table to be killed, once, forgets exactly those
    whose group was killed, keeps those whose was not, and succeeds exactly if every kill did. *)
Theorem kill_all_exact p :
  let '(p', r) := kill_all p in
  kills p' ≡ₚ kills p ++ ((λ x, h_pid (m_handle x.2)) <$> map_to_list (processes p)) ∧
  (∀ pid m, processes p' !! pid = Some m ↔ processes p !! pid = Some m ∧ ¬ dies (pid, m)) ∧
  (is_ok r = true ↔ ∀ pid m, processes p !! pid = Some m → dies (pid, m)).
Proof.
  clear start_process sys os sccache otel. unfold kill_all. pose proof (kill_one_fold (iter (processes p)) p [] []) as H.
  destruct (foldl _ _ _) as [[q s] f]. destruct H as (Hp & _ & Hk & Hs & Hf). cbn [kills processes with_processes]. split_and!.
  - by rewrite Hk, iter_perm.
  - intros pid m. rewrite delete_all_lookup, Hp, Hs. cbn [app].
    assert (Hin : pid ∈ (filter dies (iter (processes p))).*1 ↔ ∃ m, processes p !! pid = Some m ∧ dies (pid, m)).
    { rewrite list_elem_of_fmap. split.
      - intros ([k m'] & -> & [Hd Hx]%list_elem_of_filter). rewrite iter_perm in Hx. apply elem_of_map_to_list in Hx. eauto.
      - intros (m' & Hm & Hd). exists (pid, m'). split; [done|]. apply list_elem_of_filter. split; [done|].
        rewrite iter_perm. by apply elem_of_map_to_list. }
    case_decide as Hd; rewrite Hin in Hd; naive_solver.
  - transitivity (f = []); [by destruct f|]. rewrite Hf, iter_perm. rewrite Forall_forall. split.
    + intros [_ Hall] pid m Hm. apply Hall. by apply elem_of_map_to_list.
    + intros Hall. split; [done|]. intros [k m] Hx%elem_of_map_to_list. auto.
Qed.
End pool.

(** * The shared runtimes *)

Record PooledProcess : Type := mkPooled { pp_pid : Z; pp_name : string; in_use : bool; last_used : Z }.
Record SharedRuntime : Type := mkRuntime { node_pool : list PooledProcess; bun_pool : list PooledProcess; max_per_type : nat }.
Inductive HarnessType : Type := Node | Bun.
#[export] Instance harness_type_eq_dec : EqDecision HarnessType.
Proof. solve_decision. Defined.
Definition harness_of (s : string) : option HarnessType :=
  if bool_decide (s = "node") then Some Node else if bool_decide (s = "bun") then Some Bun else None.
Definition harness_text (h : HarnessType) : string := match h with Node => "node" | Bun => "bun" end.
Definition pool_of (h : HarnessType) (r : SharedRuntime) : list PooledProcess := match h with Node => node_pool r | Bun => bun_pool r end.
Definition set_pool (h : HarnessType) (l : list PooledProcess) (r : SharedRuntime) : SharedRuntime :=
  match h with Node => mkRuntime l (bun_pool r) (max_per_type r) | Bun => mkRuntime (node_pool r) l (max_per_type r) end.
Definition runtime_new (max : nat) : SharedRuntime := mkRuntime [] [] max.

Definition use (now : Z) (b : bool) (p : PooledProcess) : PooledProcess := mkPooled (pp_pid p) (pp_name p) b now.
(** The first process nobody uses, taken. *)
Fixpoint take_idle (now : Z) (l : list PooledProcess) : option (list PooledProcess * PooledProcess) :=
  match l with
  | [] => None
  | p :: l' =>
      if in_use p then prod_map (cons p) id <$> take_idle now l' else Some (use now true p :: l', use now true p)
  end.
(** The first process with the pid, given back. *)
Fixpoint put_back (now pid : Z) (l : list PooledProcess) : list PooledProcess :=
  match l with
  | [] => []
  | p :: l' => if bool_decide (pp_pid p = pid) then use now false p :: l' else p :: put_back now pid l'
  end.

(** The child of an acquisition: why it did not start, or its pid and whether it is seen afterwards. *)
Record Child : Type := mkChild { c_start : result (option Z) string; c_seen : Z → bool }.

Definition acquire (now : Z) (c : Child) (harness : string) : stm SharedRuntime string PooledProcess := λ r,
  match harness_of harness with
  | None => (r, Err ("Unsupported harness type: " +:+ harness +:+ ". Use 'node' or 'bun'"))
  | Some h =>
      match take_idle now (pool_of h r) with
      | Some (l, p) => (set_pool h l r, Ok p)
      | None =>
          if (length (pool_of h r) <? max_per_type r)%nat then
            match c_start c with
            | Err e => (r, Err e)
            | Ok id =>
                let pid := default 0 id in
                if c_seen c pid then
                  let p := mkPooled pid (harness_text h) true now in (set_pool h (pool_of h r ++ [p]) r, Ok p)
                else (r, Err ("Failed to spawn pooled process — check that '" +:+ harness +:+ "' is installed and on PATH"))
            end
          else (r, Err ("Pool exhausted: max " +:+ show_u (Z.of_nat (max_per_type r)) +:+ " instances of " +:+ harness
                        +:+ " allowed. Set pool.max_per_type in config.toml to increase the limit."))
      end
  end.
Definition release (now : Z) (harness : string) (pid : Z) : stm SharedRuntime string unit := λ r,
  match harness_of harness with
  | None => (r, Err ("Unsupported harness type: " +:+ harness))
  | Some h => (set_pool h (put_back now pid (pool_of h r)) r, Ok tt)
  end.

Record RuntimeHealth : Type := mkHealth { rh_healthy : bool; issues : list string; node_in_use : nat; bun_in_use : nat }.
Definition issue_of (warn : Z) (sys : Z → option Z) (p : PooledProcess) : option string :=
  match sys (pp_pid p) with
  | Some mem => if warn <? mem then Some (pp_name p +:+ " (PID " +:+ show_u (pp_pid p) +:+ ") using " +:+ show_u (mem / 1024 / 1024) +:+ " MB - high memory") else None
  | None => Some (pp_name p +:+ " (PID " +:+ show_u (pp_pid p) +:+ ") not found - may have crashed")
  end.
Definition busy (l : list PooledProcess) : nat := length (filter (λ p, in_use p = true) l).
Definition idle (l : list PooledProcess) : nat := length (filter (λ p, in_use p = false) l).
Definition health_check (warn : Z) (sys : Z → option Z) (r : SharedRuntime) : RuntimeHealth :=
  let l := node_pool r ++ bun_pool r in
  mkHealth (forallb (λ p, bool_decide (is_Some (sys (pp_pid p)))) l) (omap (issue_of warn sys) l) (busy (node_pool r)) (busy (bun_pool r)).
Record PoolStatus : Type := mkPoolStatus { node_total : nat; node_idle : nat; bun_total : nat; bun_idle : nat; ps_max : nat }.
Definition status (r : SharedRuntime) : PoolStatus :=
  mkPoolStatus (length (node_pool r)) (idle (node_pool r)) (length (bun_pool r)) (idle (bun_pool r)) (max_per_type r).

(** ** Leases *)

Inductive RtOp : Type := Acquire (now : Z) (c : Child) (h : HarnessType) | Release (now : Z) (h : HarnessType) (pid : Z).
(** The runtime and the leases out: an acquisition adds one, a release ends one. *)
Definition rt_step (s : SharedRuntime * list (HarnessType * Z)) (op : RtOp) : SharedRuntime * list (HarnessType * Z) :=
  let '(r, out) := s in
  match op with
  | Acquire now c h =>
      match acquire now c (harness_text h) r with (r', Ok p) => (r', (h, pp_pid p) :: out) | (r', Err _) => (r', out) end
  | Release now h pid => ((release now (harness_text h) pid r).1, filter (.≠ (h, pid)) out)
  end.

(** Callers give back what they hold, and a new child has a pid of its own. The code checks neither:
    see [release_of_anothers_process] and [reused_pid_leased_twice]. *)
Definition fair (s : SharedRuntime * list (HarnessType * Z)) (op : RtOp) : Prop :=
  match op with
  | Acquire _ c h => ∀ id, c_start c = Ok id → default 0 id ∉ pp_pid <$> pool_of h s.1
  | Release _ h pid => (h, pid) ∈ s.2
  end.
Inductive rt_reach (max : nat) : SharedRuntime * list (HarnessType * Z) → Prop :=
| rt_init : rt_reach max (runtime_new max, [])
| rt_next s op : rt_reach max s → fair s op → rt_reach max (rt_step s op).

Definition leased (l : list PooledProcess) (pid : Z) : Prop := ∃ p, p ∈ l ∧ pp_pid p = pid ∧ in_use p = true.
Record rt_ok (max : nat) (s : SharedRuntime * list (HarnessType * Z)) : Prop := {
  ro_max : max_per_type s.1 = max;
  ro_len : ∀ h, (length (pool_of h s.1) ≤ max)%nat;
  ro_pids : ∀ h, NoDup (pp_pid <$> pool_of h s.1);
  ro_out : NoDup s.2;
  ro_leased : ∀ h pid, (h, pid) ∈ s.2 ↔ leased (pool_of h s.1) pid }.

Lemma harness_of_text h : harness_of (harness_text h) = Some h.
Proof. by destruct h. Qed.
Lemma pool_of_set h h' l r : pool_of h' (set_pool h l r) = if decide (h = h') then l else pool_of h' r.
Proof. by destruct h, h'. Qed.
Lemma max_set h l r : max_per_type (set_pool h l r) = max_per_type r.
Proof. by destruct h. Qed.

Lemma take_idle_spec now l l' p : NoDup (pp_pid <$> l) → take_idle now l = Some (l', p) →
  pp_pid <$> l' = pp_pid <$> l ∧ ¬ leased l (pp_pid p) ∧ ∀ pid, leased l' pid ↔ pid = pp_pid p ∨ leased l pid.
Proof.
  unfold leased. revert l'. induction l as [|q l IH]; intros l' Hnd; [done|]. cbn in Hnd. apply NoDup_cons in Hnd as [Hq Hnd].
  cbn. destruct (in_use q) eqn:Hu.
  - destruct (take_idle now l) as [[l1 p1]|]; [|done]. intros [= <- <-]. destruct (IH l1 Hnd eq_refl) as (Hp & Hn & Hl).
    assert (Hin : pp_pid p1 ∈ pp_pid <$> l).
    { rewrite <- Hp. destruct (proj2 (Hl (pp_pid p1)) (or_introl eq_refl)) as (x & Hx & <- & _). apply list_elem_of_fmap. eauto. }
    split_and!; [cbn; by rewrite Hp| |].
    + intros (x & [->|Hx]%elem_of_cons & He & Hux); [|by apply Hn; eauto]. by rewrite He in Hq.
    + intros pid. specialize (Hl pid). setoid_rewrite elem_of_cons. naive_solver.
  - intros [= <- <-]. cbn. split_and!; [done| |].
    + intros (x & [->|Hx]%elem_of_cons & He & Hux); [congruence|]. apply Hq, list_elem_of_fmap. eauto.
    + intros pid. setoid_rewrite elem_of_cons. split.
      * intros (x & [->|Hx] & <- & Hux); [by left|right; eauto].
      * intros [->|(x & [->|Hx] & <- & Hux)]; [by exists (use now true q); auto|congruence|eauto].
Qed.
Lemma put_back_spec now pid l : NoDup (pp_pid <$> l) →
  pp_pid <$> put_back now pid l = pp_pid <$> l ∧ ∀ x, leased (put_back now pid l) x ↔ x ≠ pid ∧ leased l x.
Proof.
  unfold leased. induction l as [|q l IH]; intros Hnd; [cbn; split; [done|set_solver]|]. cbn in Hnd. apply NoDup_cons in Hnd as [Hq Hnd].
  cbn. case_bool_decide as Hp; cbn.
  - split; [done|]. intros x. setoid_rewrite elem_of_cons. split.
    + intros (y & [->|Hy] & <- & Hu); [done|]. split; [|eauto]. intros He. apply Hq. rewrite Hp, <- He. apply list_elem_of_fmap. eauto.
    + intros (Hne & y & [->|Hy] & <- & Hu); [done|eauto].
  - destruct (IH Hnd) as [Hf Hl]. split; [by rewrite Hf|]. intros x. specialize (Hl x). setoid_rewrite elem_of_cons. naive_solver.
Qed.

(** A pool replaced by one of the same processes whose leases changed with the callers'. *)
Lemma rt_ok_set max r out out' h l : rt_ok max (r, out) → NoDup out' → NoDup (pp_pid <$> l) → (length l ≤ max)%nat →
  (∀ pid, (h, pid) ∈ out' ↔ leased l pid) → (∀ h' pid, h' ≠ h → (h', pid) ∈ out' ↔ (h', pid) ∈ out) →
  rt_ok max (set_pool h l r, out').
Proof.
  intros [Hm Hl Hp Ho Hle] Hout Hnd Hlen Hh Hother. cbn in *. split; cbn.
  - by rewrite max_set.
  - intros h'. rewrite pool_of_set. by case_decide.
  - intros h'. rewrite pool_of_set. by case_decide.
  - done.
  - intros h' pid. rewrite pool_of_set. case_decide; [by subst|]. rewrite Hother by done. apply Hle.
Qed.
Lemma rt_step_ok max s op : rt_ok max s → fair s op → rt_ok max (rt_step s op).
Proof.
  destruct s as [r out]. intros Hok Hf. pose proof Hok as [Hm Hl Hp Ho Hle]. cbn in *. destruct op as [now c h|now h pid]; cbn.
  - unfold acquire. rewrite harness_of_text. destruct (take_idle now (pool_of h r)) as [[l p]|] eqn:Ht.
    + destruct (take_idle_spec _ _ _ _ (Hp h) Ht) as (Hpid & Hn & Hlz). eapply rt_ok_set; [done| | | | |].
      * constructor; [|done]. by rewrite Hle.
      * by rewrite Hpid.
      * rewrite <- (length_fmap pp_pid), Hpid, length_fmap. apply Hl.
      * intros x. rewrite Hlz, <- Hle, elem_of_cons. naive_solver.
      * intros h' x Hne. rewrite elem_of_cons. naive_solver.
    + destruct (Nat.ltb_spec (length (pool_of h r)) (max_per_type r)) as [Hlt|]; [|done].
      destruct (c_start c) as [id|] eqn:Hc; [|done]. specialize (Hf id Hc). cbn in Hf. destruct (c_seen c _); [|done].
      eapply rt_ok_set; [done| | | | |]; cbn [pp_pid].
      * constructor; [|done]. rewrite Hle. intros (x & Hx & He & _). apply Hf, list_elem_of_fmap. eauto.
      * rewrite fmap_app. apply NoDup_app. split_and!; [done| |by apply NoDup_singleton]. intros x Hx Hy%list_elem_of_singleton. cbn in Hy. by subst.
      * rewrite length_app. cbn. lia.
      * intros x. rewrite elem_of_cons, Hle. unfold leased. setoid_rewrite elem_of_app. setoid_rewrite list_elem_of_singleton. split.
        -- intros [[= ->]|(y & Hy & ?)]; [eexists; split; [by right|done]|eauto].
        -- intros (y & [Hy| ->] & <- & ?); eauto.
      * intros h' x Hne. rewrite elem_of_cons. naive_solver.
  - unfold release. rewrite harness_of_text. cbn. destruct (put_back_spec now pid _ (Hp h)) as [Hpid Hlz]. eapply rt_ok_set; [done| | | | |].
    + by apply NoDup_filter.
    + by rewrite Hpid.
    + rewrite <- (length_fmap pp_pid), Hpid, length_fmap. apply Hl.
    + intros x. rewrite list_elem_of_filter, Hlz, <- Hle. split; intros [H1 H2]; split; try done; congruence.
    + intros h' x Hne. rewrite list_elem_of_filter. naive_solver.
Qed.

(** C31: as long as callers give back only what they hold and the pid of a new child is not already in
    the pool of its type, the shared runtimes lease a process to one caller at a time, a process is
    marked in use exactly while a caller holds it, and a pool never exceeds the limit of its type.
    Both conditions are the callers' and the system's to keep: a release is not checked against the
    holder, and a child that has exited, or one whose number is unknown and taken for 0, can leave
    its pid to another. *)
Theorem leases_exclusive max r out : rt_reach max (r, out) →
  NoDup out ∧ (∀ h pid, (h, pid) ∈ out ↔ leased (pool_of h r) pid) ∧
  (length (node_pool r) ≤ max)%nat ∧ (length (bun_pool r) ≤ max)%nat.
Proof.
  intros H. assert (rt_ok max (r, out)) as [Hm Hl Hp Ho Hle].
  - remember (r, out) as s eqn:E. clear E. induction H; [|by apply rt_step_ok].
    split; cbn; [done|by intros []; cbn; lia|by intros []; constructor|constructor|].
    intros h pid. unfold leased. destruct h; cbn; set_solver.
  - split_and!; [done|done|apply (Hl Node)|apply (Hl Bun)].
Qed.

(** A release is not checked against the holder: after one of a process somebody else holds, two
    callers hold it. *)
Example release_of_anothers_process :
  let c := mkChild (Ok (Some 7)) (λ _, true) in
  let r1 := (acquire 0 c "node" (runtime_new 4)).1 in
  let r2 := (release 1 "node" 7 r1).1 in
  (acquire 0 c "node" (runtime_new 4)).2 = Ok (mkPooled 7 "node" true 0) ∧ (acquire 2 c "node" r2).2 = Ok (mkPooled 7 "node" true 2).
Proof. by vm_compute. Qed.

(** The pooled child has exited and its pid is given to the next one: two callers hold one pid. After
    both have given it back, a place of the pool is in use for ever. *)
Example reused_pid_leased_twice :
  let c := mkChild (Ok (Some 7)) (λ _, true) in
  let r1 := (acquire 0 c "node" (runtime_new 4)).1 in
  let '(r2, second) := acquire 1 c "node" r1 in
  let r4 := (release 3 "node" 7 (release 2 "node" 7 r2).1).1 in
  second = Ok (mkPooled 7 "node" true 1) ∧ busy (node_pool r2) = 2%nat ∧ busy (node_pool r4) = 1%nat.
Proof. by vm_compute. Qed.

(** * Project limits *)

Record ProjectLimits : Type := mkLimits { memory_limit_mb : Z; max_processes : Z; cpu_affinity : option (list Z) }.
Record ResourceCheck : Type := mkCheck {
  rc_memory_mb : Z; rc_memory_limit_mb : Z; memory_ok : bool; process_count : Z; rc_max_processes : Z; processes_ok : bool; overall_ok : bool }.
Definition limits_default (c : ProjectLimitsConfig) : ProjectLimits := mkLimits (pl_memory_limit_mb c) (pl_max_processes c) None.
Definition get_limits (c : ProjectLimitsConfig) (m : gmap string ProjectLimits) (name : string) : ProjectLimits :=
  default (limits_default c) (m !! name).
(** The [set-limits] command: what is not given stays as it is. *)
Definition set_limits (c : ProjectLimitsConfig) (name : string) (memory procs : option Z) (m : gmap string ProjectLimits)
    : gmap string ProjectLimits :=
  let cur := get_limits c m name in
  <[name := mkLimits (default (memory_limit_mb cur) memory) (default (max_processes cur) procs) (cpu_affinity cur)]> m.
(** A process is the project's if one of its arguments contains the project's name. *)
Definition of_project (project : string) (p : SysProc) : bool := existsb (contains project) (sp_cmd p).
Definition check_limits (c : ProjectLimitsConfig) (m : gmap string ProjectLimits) (project : string) (procs : list SysProc) : ResourceCheck :=
  let l := List.filter (of_project project) procs in
  let lim := get_limits c m project in
  let mem := list_sum_Z ((λ p, sp_memory p / 1024 / 1024) <$> l) in
  let n := Z.of_nat (length l) in
  mkCheck mem (memory_limit_mb lim) (mem <=? memory_limit_mb lim) n (max_processes lim) (n <=? max_processes lim)
    ((mem <=? memory_limit_mb lim) && (n <=? max_processes lim)).

(** A build throttled to zero jobs is told so, although its semaphore has a permit. *)
Example zero_build_jobs :
  build_env_overrides (mkSpawnPolicyConfig 0 0 false) false = [("CARGO_BUILD_JOBS", "0")] ∧
  available (semaphore (policy_new (mkSpawnPolicyConfig 0 0 false))) = 1.
Proof. by vm_compute. Qed.
(** The background flag documented for macOS is not among the arguments. *)
Lemma taskpolicy_without_flag c program args : 0 < py_nice_level c →
  apply_taskpolicy Macos c program args = ("taskpolicy", "--" :: program :: args).
Proof. intros H%Z.ltb_lt. unfold apply_taskpolicy. by rewrite H. Qed.

(** * A small host *)

Module DemoPool.
Definition start_process (s : ProcessSpawnSpec) (e : gmap string string) : Spawned :=
  if bool_decide (e !! "CARGO_BUILD_JOBS" = Some "2") then Started (mkHandle 41) else SpawnErr "no jobs".
Definition kill_group (h : ProcessHandle) : result unit string := if h_pid h =? 41 then Ok tt else Err "no such group".
Definition pool : Pool := pool_with_policy (policy_new SpawnPolicyConfig_default) {["PATH" := "/bin"]}.
Definition spawned : option (Pool * result ProcessInfo string) :=
  spawn start_process Linux false (Some "00-1-2-01") "cargo" ["build"] None (Some "web") (Some "cargo") pool.

Lemma spawn_scoped_witness :
  match spawned with
  | Some (p', r) => env p' = {["PATH" := "/bin"]} ∧ spawn_policy p' = spawn_policy pool ∧ is_ok r = true
  | None => False
  end.
Proof.
  pose proof (spawn_scoped start_process Linux false (Some "00-1-2-01") "cargo" ["build"] None (Some "web") (Some "cargo") pool
    (policy_new_ok _ _)) as H. fold spawned in H. assert (Hr : (is_ok ∘ snd) <$> spawned = Some true) by (by vm_compute).
  destruct spawned as [[p' r]|]; [|done]. destruct H as (He & Hp & _). cbn in Hr. by simplify_eq.
Defined.

Definition info (pid : Z) : ProcessInfo := mkInfo pid "cargo" ["cargo"] 0 0 "0" (Some "web") (Some "cargo") None None 0 Unknown None None None None.
Definition two : Pool :=
  mkPool (<[41 := mkManaged (info 41) (mkHandle 41)]> {[42 := mkManaged (info 42) (mkHandle 42)]}) None ∅ [] [].
Lemma kill_all_exact_witness :
  let '(p', r) := kill_all kill_group map_to_list two in
  processes p' !! 41 = None ∧ is_Some (processes p' !! 42) ∧ is_ok r = false.
Proof.
  pose proof (kill_all_exact kill_group map_to_list ltac:(done) two) as H. destruct (kill_all kill_group map_to_list two) as [p' r].
  destruct H as (_ & Hp & Hr). split_and!.
  - destruct (processes p' !! 41) as [m|] eqn:E; [|done]. apply Hp in E as [[= <-] Hd]. by destruct Hd.
  - exists (mkManaged (info 42) (mkHandle 42)). apply Hp. split; [done|by vm_compute].
  - destruct (is_ok r); [|done]. exfalso. pose proof (proj1 Hr eq_refl 42 (mkManaged (info 42) (mkHandle 42)) eq_refl) as Hd. by vm_compute in Hd.
Defined.

Definition child : Child := mkChild (Ok (Some 7)) (λ _, true).
Lemma leases_exclusive_witness :
  let s := rt_step (rt_step (runtime_new 1, []) (Acquire 0 child Node)) (Acquire 1 (mkChild (Ok (Some 8)) (λ _, true)) Node) in
  s.2 = [(Node, 7)] ∧ leased (node_pool s.1) 7.
Proof.
  intros s. assert (rt_reach 1 s) as Hr.
  { subst s. constructor; [constructor; [constructor|]|]; intros id Hc.
    - cbn. set_solver.
    - injection Hc as <-. vm_compute. intros H. inversion H as [|? ? ? H2]; subst. inversion H2. }
  assert (Hs : s.2 = [(Node, 7)]) by (by vm_compute). split; [done|].
  destruct s as [r out]. cbn in *. destruct (leases_exclusive 1 r out Hr) as (_ & Hl & _). apply (Hl Node). rewrite Hs. set_solver.
Defined.
End DemoPool.
