(* ===== verification/Journal.v ===== *)
(** The journals of the command line (src/commands/{history,undo,upgrade}.rs): the history of
    invocations with its calendar, the operations journal with its rollback marks, and the comparison
    of versions.  The JSON texts, the clock and the failures of the file system are parameters. *)
From S2P Require Import Prelude.

(** * The calendar *)

Definition is_leap (y : Z) : bool := ((y mod 4 =? 0) && negb (y mod 100 =? 0)) || (y mod 400 =? 0).
Definition days_in_year (y : Z) : Z := if is_leap y then 366 else 365.
Definition month_days (leap : bool) : list Z := [31; if leap then 29 else 28; 31; 30; 31; 30; 31; 31; 30; 31; 30; 31].

(** The loop over the years, from [y]. *)
Fixpoint year_loop (fuel : nat) (y remaining : Z) : option (Z * Z) :=
  match fuel with
  | O => None
  | S n => if remaining <? days_in_year y then Some (y, remaining) else year_loop n (y + 1) (remaining - days_in_year y)
  end.
(** The loop over the months: the index stays 0 if no month breaks it. *)
Fixpoint month_loop (i : Z) (l : list Z) (remaining : Z) : Z * Z :=
  match l with
  | [] => (0, remaining)
  | md :: l' => if remaining <? md then (i, remaining) else month_loop (i + 1) l' (remaining - md)
  end.

Record Civil : Type := mkCivil { c_year : Z; c_month : Z; c_day : Z; c_hour : Z; c_minute : Z; c_second : Z }.
(** [chrono_from_epoch] up to the formatting; a year has at least 365 days. *)
Definition civil_of (secs : Z) : option Civil :=
  let days := secs / 86400 in
  let tod := secs mod 86400 in
  '(y, rem) ← year_loop (Z.to_nat (days / 365 + 1)) 1970 days;
  let '(m_idx, rem) := month_loop 0 (month_days (is_leap y)) rem in
  Some (mkCivil y (m_idx + 1) (rem + 1) (tod / 3600) (tod mod 3600 / 60) (tod mod 60)).

Definition show_u04 (n : Z) : string :=
  if n <? 10 then "000" +:+ show_u n else if n <? 100 then "00" +:+ show_u n else if n <? 1000 then "0" +:+ show_u n else show_u n.
Definition civil_text (c : Civil) : string :=
  show_u04 (c_year c) +:+ "-" +:+ show_u02 (c_month c) +:+ "-" +:+ show_u02 (c_day c) +:+ " " +:+ show_u02 (c_hour c) +:+ ":"
  +:+ show_u02 (c_minute c) +:+ ":" +:+ show_u02 (c_second c).
Definition chrono_from_epoch (secs : Z) : option string := civil_text <$> civil_of secs.

(** ** The reference: counting days *)

Definition days_before_year (y : Z) : Z := list_sum_Z (days_in_year <$> seqZ 1970 (y - 1970)).
Definition days_before_month (leap : bool) (m : Z) : Z := list_sum_Z (take (Z.to_nat (m - 1)) (month_days leap)).
Definition epoch_of (c : Civil) : Z :=
  (days_before_year (c_year c) + days_before_month (is_leap (c_year c)) (c_month c) + (c_day c - 1)) * 86400
  + c_hour c * 3600 + c_minute c * 60 + c_second c.
Definition month_length (leap : bool) (m : Z) : Z := default 0 (month_days leap !! Z.to_nat (m - 1)).
Record valid_civil (c : Civil) : Prop := {
  vc_year : 1970 ≤ c_year c;
  vc_month : 1 ≤ c_month c ≤ 12;
  vc_day : 1 ≤ c_day c ≤ month_length (is_leap (c_year c)) (c_month c);
  vc_hour : 0 ≤ c_hour c < 24;
  vc_minute : 0 ≤ c_minute c < 60;
  vc_second : 0 ≤ c_second c < 60 }.

Lemma days_in_year_bounds y : 365 ≤ days_in_year y ≤ 366.
Proof. unfold days_in_year. destruct (is_leap y); lia. Qed.
Lemma days_before_year_next y : 1970 ≤ y → days_before_year (y + 1) = days_before_year y + days_in_year y.
Proof.
  intros Hy. unfold days_before_year. replace (y + 1 - 1970) with ((y - 1970) + 1) by lia.
  rewrite seqZ_app, fmap_app, list_sum_Z_app by lia.
  assert (seqZ (1970 + (y - 1970)) 1 = [y]) as -> by (rewrite seqZ_cons by lia; by replace (1970 + (y - 1970)) with y by lia). cbn. lia.
Qed.
Lemma year_loop_spec fuel y rem : 1970 ≤ y → 0 ≤ rem → rem / 365 < Z.of_nat fuel →
  ∃ y' rem', year_loop fuel y rem = Some (y', rem') ∧ 1970 ≤ y' ∧ 0 ≤ rem' < days_in_year y' ∧
    days_before_year y' + rem' = days_before_year y + rem.
Proof.
  revert y rem. induction fuel as [|n IH]; intros y rem Hy Hr Hf; [pose proof (Z.div_pos rem 365); lia|]. cbn [year_loop].
  pose proof (days_in_year_bounds y). destruct (Z.ltb_spec rem (days_in_year y)) as [Hlt|Hge]; [exists y, rem; split_and!; done || lia|].
  destruct (IH (y + 1) (rem - days_in_year y)) as (y' & rem' & Hl & ? & ? & Hd); [lia|lia| |].
  - assert ((rem - days_in_year y) / 365 ≤ (rem - 365) / 365) by (apply Z.div_le_mono; lia).
    replace (rem - 365) with (rem + (-1) * 365) in * by lia. rewrite Z.div_add in * by lia. lia.
  - exists y', rem'. rewrite days_before_year_next in Hd by done. split_and!; done || lia.
Qed.
Lemma month_loop_spec leap rem : 0 ≤ rem < list_sum_Z (month_days leap) →
  let '(i, r) := month_loop 0 (month_days leap) rem in
  0 ≤ i ≤ 11 ∧ 0 ≤ r < month_length leap (i + 1) ∧ days_before_month leap (i + 1) + r = rem.
Proof.
  intros Hr. destruct leap; cbn [month_days list_sum_Z foldr] in Hr; cbn [month_days month_loop];
    repeat (match goal with |- context [?a <? ?b] => destruct (Z.ltb_spec a b) end;
      [match goal with |- context [month_length ?l ?i] => let n := eval vm_compute in (month_length l i) in
         change (month_length l i) with n; let d := eval vm_compute in (days_before_month l i) in change (days_before_month l i) with d end; lia|]);
    lia.
Qed.
Lemma year_sum y : list_sum_Z (month_days (is_leap y)) = days_in_year y.
Proof. unfold days_in_year. by destruct (is_leap y). Qed.

Lemma civil_of_spec secs : 0 ≤ secs → ∃ c, civil_of secs = Some c ∧ valid_civil c ∧ epoch_of c = secs.
Proof.
  intros Hs. unfold civil_of. set (days := secs / 86400). set (tod := secs mod 86400).
  pose proof (Z.div_pos secs 86400 Hs ltac:(lia)) as Hd. fold days in Hd. pose proof (Z.mod_pos_bound secs 86400 ltac:(lia)) as Ht. fold tod in Ht.
  pose proof (Z.div_mod secs 86400 ltac:(lia)) as Hdm. fold days tod in Hdm.
  destruct (year_loop_spec (Z.to_nat (days / 365 + 1)) 1970 days) as (y & rem & -> & Hy & Hrem & Hday); [lia|done|pose proof (Z.div_pos days 365); lia|].
  cbn [mbind option_bind]. rewrite <- year_sum in Hrem. pose proof (month_loop_spec (is_leap y) rem Hrem) as Hm.
  destruct (month_loop _ _ _) as [i r]. destruct Hm as (Hi & Hr & Hmd). eexists. split; [done|].
  assert (days_before_year 1970 = 0) as H70 by done.
  pose proof (Z.div_mod tod 3600 ltac:(lia)). pose proof (Z.mod_pos_bound tod 3600 ltac:(lia)).
  pose proof (Z.div_mod (tod mod 3600) 60 ltac:(lia)). pose proof (Z.mod_pos_bound (tod mod 3600) 60 ltac:(lia)).
  assert (tod mod 60 = tod mod 3600 mod 60) as Hmod by (symmetry; apply Z.mod_mod_divide; by exists 60).
  split.
  - assert (0 ≤ tod / 3600 < 24) by (split; [apply Z.div_pos|apply Z.div_lt_upper_bound]; lia).
    assert (0 ≤ tod mod 3600 / 60 < 60) by (split; [apply Z.div_pos|apply Z.div_lt_upper_bound]; lia).
    pose proof (Z.mod_pos_bound (tod mod 3600) 60 ltac:(lia)). split; cbn; rewrite ?Hmod; lia.
  - unfold epoch_of. cbn. rewrite Hmod. lia.
Qed.

(** The calendar of the history is right: every instant has a date and a time, a valid one, whose
    days and seconds since 1970 count back to the instant. *)
Theorem civil_date_correct secs : 0 ≤ secs → ∃ c, civil_of secs = Some c ∧ valid_civil c ∧ epoch_of c = secs.
Proof. apply civil_of_spec. Qed.
Lemma civil_date_correct_witness :
  ∃ c, civil_of 951868799 = Some c ∧ civil_text c = "2000-02-29 23:59:59" ∧ epoch_of c = 951868799.
Proof.
  destruct (civil_date_correct 951868799) as (c & Hc & _ & He); [lia|]. exists c. split_and!; [done| |done].
  revert Hc. vm_compute (civil_of _). intros [= <-]. by vm_compute.
Defined.

(** * History *)

Record HistoryEntry : Type := mkEntry { he_ts : Z; he_command : string; he_args : string; he_exit_code : Z }.
(** A journal file: absent, or its text. *)
Definition File : Type := option string.
(** Which calls fail: opening for appending, serializing or writing the record, writing the line end,
    opening for reading, and, of the lines read, those that are not text. *)
Record Io : Type := mkIo { open_fails : option string; record_part : option string; newline_fails : option string; unreadable : string → bool }.
Definition calm : Io := mkIo None None None (λ _, false).

Section history.
Context (to_json : HistoryEntry → string) (from_json : string → option HistoryEntry).

(** Every failure is ignored; a write cut off leaves a part of the record. *)
Definition append_to (io : Io) (f : File) (e : HistoryEntry) : File :=
  match open_fails io with
  | Some _ => f
  | None =>
      let text := default (to_json e) (record_part io) in
      let eol := match newline_fails io with Some _ => EmptyString | None => String nl EmptyString end in
      Some (default EmptyString f +:+ text +:+ eol)
  end.
Definition history_recent (io : Io) (f : File) (limit : nat) : result (list HistoryEntry) string :=
  match f, open_fails io with
  | None, _ => Ok []
  | Some _, Some e => Err ("open history file: " +:+ e)
  | Some text, None =>
      let ls := filter (λ l, unreadable io l = false) (str_lines text) in
      let es := omap from_json (filter (λ l, str_is_empty (trim l) = false) ls) in
      Ok (if (limit <? length es)%nat then drop (length es - limit) es else es)
  end.
Definition clear_history (io : Io) (f : File) : File * result unit string :=
  match open_fails io with Some e => (f, Err ("clear history file: " +:+ e)) | None => (Some EmptyString, Ok tt) end.

Definition status_text (code : Z) : string := if code =? 0 then " ok" else "ERR".
Definition format_entry (e : HistoryEntry) : option string :=
  (λ dt, dt +:+ "  " +:+ status_text (he_exit_code e) +:+ "  sharecli " +:+ he_command e +:+ " " +:+ he_args e) <$> chrono_from_epoch (he_ts e).

Context (json_law : ∀ e, from_json (to_json e) = Some e)
  (json_line : ∀ e, has_char nl (to_json e) = false ∧ has_char cr (to_json e) = false ∧ str_is_empty (trim (to_json e)) = false).

Lemma appended_text es f : foldl (append_to calm) f es = match es with [] => f | _ => Some (default EmptyString f +:+ line_block (to_json <$> es)) end.
Proof.
  induction es as [|e es IH] using rev_ind; [done|]. rewrite foldl_app, IH, fmap_app. cbn [foldl fmap list_fmap]. rewrite line_block_snoc.
  unfold append_to. cbn. destruct es as [|e' es]; [done|]. cbn [default from_option id app]. by rewrite !str_app_assoc.
Qed.

(** What is recorded is what is shown: after any number of appends to a new history, reading the
    last [limit] entries gives the last ones appended, in order. *)
Theorem history_roundtrip es limit : history_recent calm (foldl (append_to calm) None es) limit = Ok (drop (length es - limit) es).
Proof.
  rewrite appended_text. destruct es as [|e0 es0] eqn:E; [done|]. rewrite <- E. unfold history_recent. cbn [calm open_fails unreadable].
  cbn [default from_option id]. rewrite str_app_nil_l, str_lines_block.
  2: { apply Forall_fmap, Forall_true. intros e. cbn. destruct (json_line e) as (? & ? & _). done. }
  rewrite (filter_all (λ l, false = false)) by (by apply Forall_true).
  rewrite (filter_all (λ l, str_is_empty (trim l) = false)).
  2: { apply Forall_fmap, Forall_true. intros e. apply json_line. }
  assert (Hes : ∀ l : list HistoryEntry, omap from_json (to_json <$> l) = l).
  { induction l as [|x l IH]; [done|]. cbn. by rewrite json_law, IH. }
  rewrite Hes. destruct (Nat.ltb_spec limit (length es)); [done|]. by replace (length es - limit)%nat with 0%nat by lia.
Qed.
End history.

(** * The operations journal *)

Record OperationRecord : Type := mkOp {
  op_id : string; op_ts : Z; op_kind : string; op_target : string; op_reversible : bool; op_note : option string }.

Section undo.
Context (to_json : OperationRecord → string) (from_json : string → option OperationRecord).

Definition append_operation (io : Io) (r : OperationRecord) : stm File string unit := λ f,
  match open_fails io with
  | Some e => (f, Err e)
  | None =>
      match newline_fails io with
      | Some e => (Some (default EmptyString f +:+ default EmptyString (record_part io)), Err e)
      | None => (Some (default EmptyString f +:+ to_json r +:+ String nl EmptyString), Ok tt)
      end
  end.
(** [sort_by_key(Reverse(ts))] keeps the order of records of one second. *)
Definition newest_first (l : list OperationRecord) : list OperationRecord := sort_by (λ a b, op_ts b <=? op_ts a) l.
(** A line that is not text ends the reading with an error; one that does not parse is skipped. *)
Definition read_records (io : Io) (limit : nat) (f : File) : result (list OperationRecord) string :=
  match f, open_fails io with
  | None, _ => Ok []
  | Some _, Some e => Err ("open journal: " +:+ e)
  | Some text, None =>
      if existsb (unreadable io) (str_lines text) then Err "stream did not contain valid UTF-8"
      else Ok (take limit (newest_first (omap from_json (filter (λ l, str_is_empty (trim l) = false) (str_lines text)))))
  end.

Definition tombstone (now : Z) (id : string) (rec : OperationRecord) (note : option string) : OperationRecord :=
  mkOp (id +:+ "-rb") now "rollback" (op_target rec) false
    (match note with Some n => Some n | None => Some ("rolled back " +:+ op_id rec) end).
Definition find_id (id : string) (l : list OperationRecord) : option OperationRecord :=
  head (filter (λ r, op_id r = id) l).
(** The limit [usize::MAX] cuts nothing off. *)
Definition read_all (io : Io) (f : File) : result (list OperationRecord) string :=
  read_records io (match f with Some text => length (str_lines text) | None => 0%nat end) f.
Definition mark_rolled_back (io : Io) (now : Z) (id : string) (note : option string) : stm File string OperationRecord :=
  f <- st_get;; l <- st_lift (read_all io f);;
  rec <- st_lift (ok_or ("no operation with id " +:+ id +:+ " in journal") (find_id id l));;
  if negb (op_reversible rec) then st_err ("operation " +:+ id +:+ " is not reversible")
  else append_operation io (tombstone now id rec note);;; st_ret rec.

Context (json_law : ∀ r, from_json (to_json r) = Some r)
  (json_line : ∀ r, has_char nl (to_json r) = false ∧ has_char cr (to_json r) = false ∧ str_is_empty (trim (to_json r)) = false).

(** The journal holds the records [rs], oldest line first. *)
Definition holds (f : File) (rs : list OperationRecord) : Prop :=
  match f with None => rs = [] | Some text => text = line_block (to_json <$> rs) end.

Lemma read_all_holds f rs : holds f rs → read_all calm f = Ok (newest_first rs).
Proof.
  destruct f as [text|]; cbn; [|by intros ->]. intros ->. unfold read_all, read_records. cbn [calm open_fails unreadable].
  rewrite str_lines_block. 2: { apply Forall_fmap, Forall_true. intros r. cbn. destruct (json_line r) as (? & ? & _). done. }
  assert (∀ l : list string, existsb (λ _, false) l = false) as -> by (by induction l).
  rewrite filter_all. 2: { apply Forall_fmap, Forall_true. intros r. apply json_line. }
  assert (∀ l : list OperationRecord, omap from_json (to_json <$> l) = l) as ->.
  { induction l as [|x l IH]; [done|]. cbn. by rewrite json_law, IH. }
  rewrite length_fmap, take_ge; [done|]. unfold newest_first. by rewrite sort_by_perm.
Qed.
Lemma find_id_newest id rs r : find_id id (newest_first rs) = Some r →
  r ∈ rs ∧ op_id r = id ∧ ∀ r', r' ∈ rs → op_id r' = id → op_ts r' ≤ op_ts r.
Proof.
  assert (StronglySorted (λ a b, (op_ts b <=? op_ts a) = true) (newest_first rs)) as Hs by (apply sort_by_sorted; intros *; rewrite ?Z.leb_le; lia).
  assert (Hp : newest_first rs ≡ₚ rs) by apply sort_by_perm. revert Hs Hp. generalize (newest_first rs) as l. unfold find_id. intros l Hs Hp Hh.
  assert (Hin : ∀ x, x ∈ rs ↔ x ∈ l) by (intros; by rewrite Hp). setoid_rewrite Hin. clear Hp Hin.
  induction Hs as [|x l Hs IH Hx]; [done|]. rewrite Forall_forall in Hx. rewrite filter_cons in Hh. case_decide as Hd.
  - cbn in Hh. injection Hh as <-. split_and!; [by left|done|]. intros r' [->|Hr']%elem_of_cons _; [lia|]. by apply Z.leb_le, Hx.
  - destruct (IH Hh) as (H1 & H2 & H3). split_and!; [by right|done|]. intros r' [->|Hr']%elem_of_cons Hid; [done|]. by apply H3.
Qed.
Lemma find_id_none id rs : find_id id (newest_first rs) = None → ∀ r, r ∈ rs → op_id r ≠ id.
Proof.
  unfold find_id. intros Hh r Hr Hid. assert (Hf : r ∈ filter (λ r, op_id r = id) (newest_first rs)).
  { apply list_elem_of_filter. split; [done|]. unfold newest_first. by rewrite sort_by_perm. }
  destruct (filter _ _); [by apply elem_of_nil in Hf|done].
Qed.

(** Rolling back marks the newest operation of the name and nothing else: it succeeds exactly if
    that operation exists and is reversible, and then adds one mark to the journal; otherwise the journal
    stays as it is. *)
Theorem rollback_marks_newest f rs now id note : holds f rs →
  match mark_rolled_back calm now id note f with
  | (f', Ok r) => r ∈ rs ∧ op_id r = id ∧ op_reversible r = true ∧
      (∀ r', r' ∈ rs → op_id r' = id → op_ts r' ≤ op_ts r) ∧ holds f' (rs ++ [tombstone now id r note])
  | (f', Err _) => f' = f ∧ ((∀ r, r ∈ rs → op_id r ≠ id) ∨
      ∃ r, r ∈ rs ∧ op_id r = id ∧ op_reversible r = false ∧ ∀ r', r' ∈ rs → op_id r' = id → op_ts r' ≤ op_ts r)
  end.
Proof.
  intros Hf. unfold mark_rolled_back, st_bind, st_get, st_lift, st_err, st_ret. rewrite (read_all_holds f rs) by done.
  destruct (find_id id (newest_first rs)) as [r|] eqn:Hr; cbn [ok_or]; [|split; [done|left; by apply find_id_none]].
  apply find_id_newest in Hr as (Hin & Hid & Hmax). destruct (op_reversible r) eqn:Hrev; cbn; [|split; [done|right; by exists r]].
  split_and!; try done. rewrite fmap_app. cbn [fmap list_fmap]. rewrite line_block_snoc. destruct f as [text|]; cbn in Hf; subst; done.
Qed.
End undo.

(** * Versions *)

Definition is_suffix_char (c : ascii) : bool := bool_decide (c = "-"%char) || bool_decide (c = "+"%char).
Definition parse_semver_tuple (v : string) : Z * Z * Z :=
  let t := trim v in
  let h := match split_first is_suffix_char t with Some (a, _) => a | None => t end in
  let num i := default 0 (split_on "." h !! i ≫= parse_uint u32_max) in
  (num 0%nat, num 1%nat, num 2%nat).
Definition semver_cmp (a b : string) : comparison :=
  let '(a1, a2, a3) := parse_semver_tuple a in
  let '(b1, b2, b3) := parse_semver_tuple b in
  match a1 ?= b1 with Eq => match a2 ?= b2 with Eq => a3 ?= b3 | o => o end | o => o end.

Inductive UpgradeChannel : Type := CratesIo | Binstall | Brew | GhReleases.
Definition from_str_loose (s : string) : result UpgradeChannel string :=
  let t := to_ascii_lowercase (trim s) in
  if bool_decide (t ∈ ["crates-io"; "crates"; "crates.io"]) then Ok CratesIo
  else if bool_decide (t ∈ ["cargo-binstall"; "binstall"]) then Ok Binstall
  else if bool_decide (t ∈ ["homebrew"; "brew"]) then Ok Brew
  else if bool_decide (t ∈ ["github-releases"; "gh-releases"; "gh"]) then Ok GhReleases
  else Err ("unknown upgrade channel '" +:+ t +:+ "'").
Definition channel_str (c : UpgradeChannel) : string :=
  match c with CratesIo => "crates-io" | Binstall => "cargo-binstall" | Brew => "homebrew" | GhReleases => "github-releases" end.
(** [latest] is what the local file gave. *)
Definition update_available (current : string) (latest : option string) : bool :=
  match latest with Some v => bool_decide (semver_cmp v current = Gt) | None => false end.

Lemma channel_roundtrip c : from_str_loose (channel_str c) = Ok c.
Proof. by destruct c. Qed.
(** A version with the customary prefix loses its major number: a newer one is not reported. *)
Example prefixed_version_unseen : update_available "1.2.3" (Some "v2.0.0") = false ∧ parse_semver_tuple "v2.0.0" = (0, 0, 0).
Proof. by vm_compute. Qed.

(** * Examples *)

Module DemoJournal.
(** A line text for any datum with a tuple. *)
Definition line_text {A B} `{Countable B} (f : A → B) (a : A) : string := String "{" (countable_text (f a)).
Definition text_line {A B} `{Countable B} (g : B → A) (s : string) : option A :=
  match s with String _ t => g <$> text_countable t | EmptyString => None end.
Lemma line_text_roundtrip {A B} `{Countable B} (f : A → B) (g : B → A) a : g (f a) = a → text_line g (line_text f a) = Some a.
Proof. intros Ha. cbn. rewrite countable_text_roundtrip. cbn. by rewrite Ha. Qed.
Lemma line_text_line {A B} `{Countable B} (f : A → B) a :
  has_char nl (line_text f a) = false ∧ has_char cr (line_text f a) = false ∧ str_is_empty (trim (line_text f a)) = false.
Proof.
  assert (Hp : ∀ c p, c ≠ "0"%char → c ≠ "1"%char → has_char c (pos_text p) = false).
  { intros c p H0 H1. induction p as [p IH|p IH|]; cbn; rewrite ?IH; [case_bool_decide; [congruence|done]..|done]. }
  unfold line_text, countable_text. split_and!; [cbn; by rewrite Hp..|]. unfold trim. cbn.
  by destruct (trim_end (pos_text (encode (f a)))).
Qed.

Definition entry_tuple (e : HistoryEntry) := (he_ts e, he_command e, he_args e, he_exit_code e).
Definition tuple_entry x := let '(t, c, a, k) := x in mkEntry t c a k.
Definition record_tuple (r : OperationRecord) := (op_id r, op_ts r, op_kind r, op_target r, op_reversible r, op_note r).
Definition tuple_record x := let '(i, t, k, g, b, n) := x in mkOp i t k g b n.

Definition runs : list HistoryEntry := [mkEntry 1 "ps" "" 0; mkEntry 2 "stop" "--all" 0; mkEntry 3 "ps" "" 1].
Lemma history_roundtrip_witness :
  history_recent (text_line tuple_entry) calm (foldl (append_to (line_text entry_tuple) calm) None runs) 2 = Ok [mkEntry 2 "stop" "--all" 0; mkEntry 3 "ps" "" 1].
Proof. apply (history_roundtrip (line_text entry_tuple) (text_line tuple_entry)); [intros []; by apply line_text_roundtrip|intros; apply line_text_line]. Defined.

Definition add : OperationRecord := mkOp "A1" 10 "project_add" "web" true None.
Definition journal : File := Some (line_block (line_text record_tuple <$> [add])).
Definition rollback (now : Z) : stm File string OperationRecord :=
  mark_rolled_back (line_text record_tuple) (text_line tuple_record) calm now "A1" None.
Lemma rollback_marks_newest_witness : ∃ f', rollback 20 journal = (f', Ok add) ∧
  holds (line_text record_tuple) f' [add; tombstone 20 "A1" add None].
Proof.
  pose proof (rollback_marks_newest (line_text record_tuple) (text_line tuple_record) ltac:(intros []; by apply line_text_roundtrip)
    ltac:(intros; apply line_text_line) journal [add] 20 "A1" None eq_refl) as H. fold (rollback 20) in H.
  destruct (rollback 20 journal) as [f' [r|e]] eqn:E.
  - destruct H as (Hr & _ & _ & _ & Hh). apply list_elem_of_singleton in Hr as ->. by exists f'.
  - destruct H as [_ [Hn|(r & Hr & _ & Hrev & _)]].
    + exfalso. by apply (Hn add); [left|].
    + apply list_elem_of_singleton in Hr as ->. done.
Defined.
(** An operation that has been rolled back can be rolled back again. *)
Example rolled_back_twice :
  let '(f1, r1) := rollback 20 journal in r1 = Ok add ∧ (rollback 30 f1).2 = Ok add.
Proof. by vm_compute. Qed.
End DemoJournal.
