(* ===== verification/GatewayText.v ===== *)
(** The text formats of the gateway ([gateway/src/{json_patch,pem_codec,m3u_parser,jwt_hs256,
    prometheus_exposition,histogram_metrics}.rs]).  Base64, SHA-256 and floating-point numbers with
    their texts are parameters. *)
From S2P Require Import Prelude RespCodec.

(** * JSON patch *)

Section json_patch.
Context {F : Type}.

Inductive JsValue : Type :=
| JNull | JBool (b : bool) | JNumber (n : F) | JString (s : string)
| JArray (l : list JsValue) | JObject (m : list (string * JsValue)).
Inductive Patch : Type := Add (path : string) (v : JsValue) | Replace (path : string) (v : JsValue) | Remove (path : string).

Definition key_from_path (path : string) : result string string :=
  match strip_prefix "/" path with
  | Some k => if str_is_empty k then Err ("path `" +:+ path +:+ "` is empty") else Ok k
  | None => Err ("unsupported path `" +:+ path +:+ "` (MVP supports `/<key>` only)")
  end.

(** The first entry with the key, changed or taken out; [None] if there is none. *)
Fixpoint set_first (k : string) (v : JsValue) (m : list (string * JsValue)) : option (list (string * JsValue)) :=
  match m with
  | [] => None
  | (k', v') :: m' => if bool_decide (k' = k) then Some ((k', v) :: m') else cons (k', v') <$> set_first k v m'
  end.
Fixpoint drop_first (k : string) (m : list (string * JsValue)) : option (list (string * JsValue)) :=
  match m with
  | [] => None
  | (k', v') :: m' => if bool_decide (k' = k) then Some m' else cons (k', v') <$> drop_first k m'
  end.

Definition on_object (what : string) (f : list (string * JsValue) → result (list (string * JsValue)) string) (doc : JsValue)
    : result JsValue string :=
  match doc with JObject m => m' <-? f m;; Ok (JObject m') | _ => Err (what +:+ " target is not an object") end.
Definition add (doc : JsValue) (path : string) (v : JsValue) : result JsValue string :=
  k <-? key_from_path path;; on_object "add" (λ m, Ok (default (m ++ [(k, v)]) (set_first k v m))) doc.
Definition replace (doc : JsValue) (path : string) (v : JsValue) : result JsValue string :=
  k <-? key_from_path path;;
  on_object "replace" (λ m, ok_or ("replace: key `" +:+ k +:+ "` not found") (set_first k v m)) doc.
Definition remove (doc : JsValue) (path : string) : result JsValue string :=
  k <-? key_from_path path;;
  on_object "remove" (λ m, ok_or ("remove: key `" +:+ k +:+ "` not found") (drop_first k m)) doc.

Definition apply_one (doc : JsValue) (p : Patch) : result JsValue string :=
  match p with Add path v => add doc path v | Replace path v => replace doc path v | Remove path => remove doc path end.
(** [apply] works in place: an error keeps the patches before it. *)
Fixpoint apply_patches (ps : list Patch) : stm JsValue string unit := λ doc,
  match ps with
  | [] => (doc, Ok tt)
  | p :: ps' => match apply_one doc p with Ok doc' => apply_patches ps' doc' | Err e => (doc, Err e) end
  end.

(** ** Objects as maps *)

Definition patch_key (p : Patch) : result string string :=
  match p with Add path _ | Replace path _ | Remove path => key_from_path path end.
(** What a patch means for a map; [None] where it is refused. *)
Definition patch_map (p : Patch) (m : gmap string JsValue) : option (gmap string JsValue) :=
  match patch_key p with
  | Err _ => None
  | Ok k =>
      match p with
      | Add _ v => Some (<[k := v]> m)
      | Replace _ v => if decide (is_Some (m !! k)) then Some (<[k := v]> m) else None
      | Remove _ => if decide (is_Some (m !! k)) then Some (delete k m) else None
      end
  end.
Fixpoint patch_maps (ps : list Patch) (m : gmap string JsValue) : gmap string JsValue * bool :=
  match ps with
  | [] => (m, true)
  | p :: ps' => match patch_map p m with Some m' => patch_maps ps' m' | None => (m, false) end
  end.
(** An object whose keys are distinct, and the map it stands for. *)
Definition is_map (doc : JsValue) (m : gmap string JsValue) : Prop :=
  match doc with JObject l => NoDup l.*1 ∧ list_to_map l = m | _ => False end.

Lemma set_first_spec k v l :
  match set_first k v l with
  | Some l' => k ∈ l.*1 ∧ l'.*1 = l.*1 ∧ (list_to_map l' : gmap string JsValue) = <[k := v]> (list_to_map l)
  | None => k ∉ l.*1
  end.
Proof.
  induction l as [|[k' v'] l IH]; cbn; [set_solver|]. case_bool_decide as Hk.
  - subst. cbn. split_and!; [set_solver|done|by rewrite insert_insert_eq].
  - destruct (set_first k v l) as [l'|]; cbn; [|set_solver]. destruct IH as (Hin & Hkeys & Hm).
    split_and!; [set_solver|by rewrite Hkeys|]. by rewrite Hm, insert_insert_ne.
Qed.
Lemma drop_first_spec k l : NoDup l.*1 →
  match drop_first k l with
  | Some l' => k ∈ l.*1 ∧ NoDup l'.*1 ∧ (∀ x, x ∈ l'.*1 → x ∈ l.*1) ∧ (list_to_map l' : gmap string JsValue) = delete k (list_to_map l)
  | None => k ∉ l.*1
  end.
Proof.
  induction l as [|[k' v'] l IH]; cbn; [set_solver|]. intros [Hk' Hnd]%NoDup_cons. specialize (IH Hnd). case_bool_decide as Hk.
  - subst. split_and!; [set_solver|done|set_solver|]. rewrite delete_insert_id; [done|]. by apply not_elem_of_list_to_map_1.
  - destruct (drop_first k l) as [l'|]; cbn; [|set_solver]. destruct IH as (Hin & Hn & Hsub & Hm).
    split_and!; [set_solver|constructor; [by intros Hx%Hsub|done]|set_solver|]. by rewrite Hm, delete_insert_ne.
Qed.
Lemma map_key_in k (l : list (string * JsValue)) : is_Some ((list_to_map l : gmap string JsValue) !! k) ↔ k ∈ l.*1.
Proof.
  split; [|intros Hk; destruct (list_to_map l !! k) eqn:E; [done|by apply not_elem_of_list_to_map_2 in E]].
  intros [v Hv%elem_of_list_to_map_2]. apply list_elem_of_fmap. by exists (k, v).
Qed.

Lemma apply_one_map doc m p : is_map doc m →
  match patch_map p m, apply_one doc p with
  | Some m', Ok doc' => is_map doc' m'
  | None, Err _ => True
  | _, _ => False
  end.
Proof.
  destruct doc as [| | | | |l]; try done. intros [Hnd <-]. unfold patch_map, patch_key, apply_one, add, replace, remove.
  destruct p as [path v|path v|path]; destruct (key_from_path path) as [k|]; cbn [result_bind on_object]; try done.
  - pose proof (set_first_spec k v l) as H. destruct (set_first k v l) as [l'|]; cbn.
    + destruct H as (_ & Hk & Hm). by rewrite Hk.
    + rewrite fmap_app. cbn. split; [apply NoDup_app; split_and!; [done|set_solver|apply NoDup_singleton]|].
      rewrite list_to_map_app, list_to_map_cons, list_to_map_nil. rewrite <- insert_union_r, (right_id_L ∅ (∪)); [done|].
      by apply not_elem_of_list_to_map_1.
  - pose proof (set_first_spec k v l) as H. case_decide as Hd; rewrite map_key_in in Hd; destruct (set_first k v l); cbn; try tauto.
    destruct H as (_ & Hk & Hm). by rewrite Hk.
  - pose proof (drop_first_spec k l Hnd) as H. case_decide as Hd; rewrite map_key_in in Hd; destruct (drop_first k l); cbn; try tauto.
Qed.

(** On an object with distinct keys the patches act as on a map, key by key in order, up to the
    first that is refused; the keys stay distinct. *)
Theorem patches_act_on_map ps doc m : is_map doc m →
  let '(doc', r) := apply_patches ps doc in is_map doc' (patch_maps ps m).1 ∧ is_ok r = (patch_maps ps m).2.
Proof.
  revert doc m. induction ps as [|p ps IH]; intros doc m Hm; [done|]. cbn. pose proof (apply_one_map doc m p Hm) as H.
  destruct (patch_map p m), (apply_one doc p); try done. by apply IH.
Qed.
End json_patch.
Arguments JsValue : clear implicits.
Arguments Patch : clear implicits.

(** A path into an object is one key, and a patch that is refused does not undo those before it. *)
Example nested_path_is_a_key :
  apply_patches [Add "/a/b" (JBool true); Remove "/c"] (JObject [("a", JObject [])] : JsValue unit)
  = (JObject [("a", JObject []); ("a/b", JBool true)], Err "remove: key `c` not found").
Proof. by vm_compute. Qed.
Lemma patches_act_on_map_witness :
  let '(doc', r) := apply_patches [Add "/b" (JBool true); Remove "/a"] (JObject [("a", JNull)] : JsValue unit) in
  is_map doc' {["b" := JBool true]} ∧ is_ok r = true.
Proof.
  pose proof (patches_act_on_map [Add "/b" (JBool true); Remove "/a"] (JObject [("a", JNull)] : JsValue unit) {["a" := JNull]}) as H.
  assert (Hm : patch_maps [Add "/b" (JBool true); Remove "/a"] {["a" := (JNull : JsValue unit)]} = ({["b" := JBool true]}, true))
    by (vm_compute; reflexivity).
  rewrite Hm in H. apply H. split; [apply NoDup_singleton|done].
Defined.

(** * PEM *)

Record PemBlock : Type := mkBlock { pem_label : string; pem_data : list byte }.
Inductive PemError : Type := MissingBegin | MissingEnd | LabelMismatch (b e : string) | BadBase64 (e : string) | BadAscii.

Definition dashes : string := "-----".
Definition begin_line (label : string) : string := "-----BEGIN " +:+ label +:+ dashes.
Definition end_line (label : string) : string := "-----END " +:+ label +:+ dashes.
Definition is_ascii (s : string) : bool := str_all (λ c, (nat_of_ascii c <? 128)%nat) s.

Section pem.
Context (b64_encode : list byte → string) (b64_decode : string → result (list byte) string).

Definition encode_pem (label : string) (der : list byte) : string :=
  line_block (begin_line label :: (string_of_list_byte <$> slice_chunks 64 (as_bytes (b64_encode der))) ++ [end_line label]).

(** The labels seen so far and the body between them. *)
Record Scan : Type := mkScan { s_begin : option string; s_end : option string; s_body : string }.
Definition scan_line (s : Scan) (line : string) : Scan :=
  match strip_prefix "-----BEGIN " line with
  | Some rest => match strip_suffix dashes rest with Some l => mkScan (Some l) (s_end s) (s_body s) | None => s end
  | None =>
      match strip_prefix "-----END " line with
      | Some rest => match strip_suffix dashes rest with Some l => mkScan (s_begin s) (Some l) (s_body s) | None => s end
      | None =>
          match s_begin s, s_end s with
          | Some _, None => mkScan (s_begin s) (s_end s) (s_body s +:+ line)
          | _, _ => s
          end
      end
  end.
Definition pem_decode (input : string) : result PemBlock PemError :=
  if negb (is_ascii input) then Err BadAscii
  else let s := foldl scan_line (mkScan None None EmptyString) (str_lines input) in
       match s_begin s, s_end s with
       | None, _ => Err MissingBegin
       | Some _, None => Err MissingEnd
       | Some b, Some e =>
           if bool_decide (b = e) then
             match b64_decode (s_body s) with Ok d => Ok (mkBlock b d) | Err x => Err (BadBase64 x) end
           else Err (LabelMismatch b e)
       end.
Definition decode_pem (input : string) : result (string * list byte) PemError :=
  b <-? pem_decode input;; Ok (pem_label b, pem_data b).
Definition decode_many (input : string) : result (list PemBlock) PemError := b <-? pem_decode input;; Ok [b].
Definition armor (input : string) : string := line_block ("-----BEGIN MESSAGE-----" :: str_lines input ++ ["-----END MESSAGE-----"]).

(** The alphabet of base64: no dash, no line end, ASCII. *)
Definition b64_char (c : ascii) : bool :=
  (nat_of_ascii c <? 128)%nat && negb (bool_decide (c = "-"%char)) && negb (bool_decide (c = nl)) && negb (bool_decide (c = cr)).
Context (b64_law : ∀ d, b64_decode (b64_encode d) = Ok d) (b64_alphabet : ∀ d, str_all b64_char (b64_encode d) = true).

Lemma string_of_list_byte_app x y : string_of_list_byte (x ++ y) = string_of_list_byte x +:+ string_of_list_byte y.
Proof.
  induction x as [|b x IH]; [done|]. change (string_of_list_byte ((b :: x) ++ y)) with (String (ascii_of_byte b) (string_of_list_byte (x ++ y))).
  by rewrite IH.
Qed.

(** The lines of the body: of the alphabet, not empty, the text when joined. *)
Lemma body_lines d : let ls := string_of_list_byte <$> slice_chunks 64 (as_bytes (b64_encode d)) in
  concat_str ls = b64_encode d ∧ Forall (λ l, str_all b64_char l = true ∧ l ≠ EmptyString) ls.
Proof.
  intros ls. destruct (slice_chunks_spec 64 (as_bytes (b64_encode d)) ltac:(lia)) as [Hc Hl].
  assert (Hcat : concat_str ls = b64_encode d).
  { rewrite <- (string_of_as_bytes (b64_encode d)), <- Hc. subst ls. clear. induction (slice_chunks _ _) as [|x l IH]; [done|].
    cbn [concat fmap list_fmap concat_str]. by rewrite string_of_list_byte_app, <- IH. }
  split; [done|]. pose proof (b64_alphabet d) as Ha. rewrite <- Hcat in Ha. clear Hcat Hc. subst ls.
  induction Hl as [|x l Hx _ IH]; [constructor|]. cbn in Ha |- *. rewrite str_all_app in Ha. apply andb_true_iff in Ha as [H1 H2].
  constructor; [|by apply IH]. split; [done|]. by destruct x; [cbn in Hx; lia|].
Qed.
Lemma scan_body ls l body : Forall (λ l, str_all b64_char l = true ∧ l ≠ EmptyString) ls →
  foldl scan_line (mkScan (Some l) None body) ls = mkScan (Some l) None (body +:+ concat_str ls).
Proof.
  intros Hls. revert body. induction Hls as [|x ls [Hx Hne] _ IH]; intros body; [by cbn; rewrite str_app_nil_r|].
  cbn [foldl concat_str]. assert (Hd : ∀ p, strip_prefix (String "-" p) x = None).
  { intros p. destruct x as [|a x]; [done|]. cbn. rewrite bool_decide_false; [done|]. intros <-.
    cbn in Hx. by apply andb_true_iff in Hx as [Hx _]. }
  unfold scan_line at 2. rewrite !Hd. cbn. by rewrite IH, str_app_assoc.
Qed.
Lemma scan_begin s label : scan_line s (begin_line label) = mkScan (Some label) (s_end s) (s_body s).
Proof. unfold scan_line, begin_line. by rewrite strip_prefix_app, strip_suffix_app. Qed.
Lemma scan_end s label : scan_line s (end_line label) = mkScan (s_begin s) (Some label) (s_body s).
Proof.
  unfold scan_line, end_line. assert (strip_prefix "-----BEGIN " ("-----END " +:+ label +:+ dashes) = None) as -> by reflexivity.
  by rewrite strip_prefix_app, strip_suffix_app.
Qed.

Definition good_label (l : string) : bool :=
  str_all (λ c, (nat_of_ascii c <? 128)%nat && negb (bool_decide (c = nl)) && negb (bool_decide (c = cr))) l.
Lemma is_ascii_block ls : Forall (λ l, is_ascii l = true) ls → is_ascii (line_block ls) = true.
Proof.
  unfold line_block, is_ascii. induction 1 as [|l ls Hl _ IH]; [done|]. cbn [fmap list_fmap concat_str]. by rewrite !str_all_app, Hl, IH.
Qed.

(** A PEM block decodes to its label and data, whatever bytes it holds and however the label reads. *)
Theorem pem_roundtrip label der : good_label label = true → decode_pem (encode_pem label der) = Ok (label, der).
Proof.
  intros Hl. destruct (body_lines der) as [Hcat Hls]. unfold decode_pem, encode_pem. set (ls := string_of_list_byte <$> _) in *.
  assert (Hlab : ∀ pre, good_label pre = true → good_label (pre +:+ label +:+ dashes) = true).
  { intros pre Hp. unfold good_label in *. by rewrite !str_all_app, Hp, Hl. }
  assert (Hgood : Forall (λ l, good_label l = true) (begin_line label :: ls ++ [end_line label])).
  { constructor; [by apply Hlab|]. apply Forall_app. split; [|constructor; [by apply Hlab|constructor]].
    eapply Forall_impl; [exact Hls|]. intros l [Hb _]. eapply str_all_impl; [|exact Hb]. intros c. unfold b64_char. by destruct (bool_decide (c = "-"%char)), (_ <? _)%nat. }
  unfold pem_decode. rewrite is_ascii_block.
  2: { eapply Forall_impl; [exact Hgood|]. intros l. apply str_all_impl. intros c. by destruct (_ <? _)%nat. }
  cbn [negb]. rewrite str_lines_block.
  2: { eapply Forall_impl; [exact Hgood|]. intros l Hgl. split; by eapply str_all_no_char; [|exact Hgl]. }
  cbn [foldl]. rewrite scan_begin, foldl_app, scan_body by done. cbn [foldl s_end s_body]. rewrite scan_end. cbn.
  by rewrite bool_decide_true, Hcat, str_app_nil_l, b64_law by done.
Qed.
End pem.

(** Hexadecimal, as an instance of what is asked of base64. *)
Definition hex_text (d : list byte) : string := hex_encode (string_of_list_byte d).
Fixpoint hex_data (s : string) : result (list byte) string :=
  match s with
  | EmptyString => Ok []
  | String a (String b s') =>
      match find (λ x, bool_decide (hex_byte (ascii_of_byte x) = String a (String b EmptyString))) (byte_of_ascii ∘ ascii_of_nat <$> seq 0 256) with
      | Some x => r <-? hex_data s';; Ok (x :: r)
      | None => Err "bad digit"
      end
  | _ => Err "odd length"
  end.
Lemma hex_text_data d : hex_data (hex_text d) = Ok d.
Proof.
  induction d as [|b d IH]; [done|]. change (hex_text (b :: d)) with (hex_byte (ascii_of_byte b) +:+ hex_text d).
  unfold hex_byte. rewrite !str_app_cons, str_app_nil_l. cbn [hex_data]. rewrite IH. clear. by destruct b.
Qed.
Lemma hex_text_alphabet d : str_all b64_char (hex_text d) = true.
Proof.
  induction d as [|b d IH]; [done|]. change (hex_text (b :: d)) with (hex_byte (ascii_of_byte b) +:+ hex_text d).
  rewrite str_all_app, IH. clear. by destruct b.
Qed.
Lemma pem_roundtrip_witness : decode_pem hex_data (encode_pem hex_text "KEY" [x00; xff]) = Ok ("KEY", [x00; xff]).
Proof. apply (pem_roundtrip hex_text hex_data hex_text_data hex_text_alphabet). done. Defined.

(** Two blocks are not refused: the data is the first's, the label the last's, provided it is the
    label of the last end. *)
Example two_blocks_mix :
  decode_many hex_data (encode_pem hex_text "A" [x00] +:+ encode_pem hex_text "B" [x01]) = Ok [mkBlock "B" [x00]].
Proof. by vm_compute. Qed.
(** [armor] keeps the lines of the text as they are, whatever their length. *)
Lemma armor_lines ls : Forall (λ l, has_char nl l = false ∧ has_char cr l = false) ls →
  armor (line_block ls) = line_block ("-----BEGIN MESSAGE-----" :: ls ++ ["-----END MESSAGE-----"]).
Proof. intros H. unfold armor. by rewrite str_lines_block. Qed.

(** * M3U playlists *)

Section m3u.
(** [f64] with [parse::<f64>] and its display; [-1.0] stands for a duration that does not parse. *)
Context {F : Type} (parse_f64 : string → option F) (show_f64 : F → string) (f_minus1 : F).

Record M3uEntry : Type := mkEntry { duration_secs : option F; title : option string; uri : string }.
Definition entry_path (u : string) : M3uEntry := mkEntry None None u.
Definition entry_extinf (d : F) (t u : string) : M3uEntry := mkEntry (Some d) (Some t) u.

(** One line of [parse]: the entries so far and what an [#EXTINF] announced. *)
Definition m3u_line (s : list M3uEntry * option (F * string)) (raw_line : string) : list M3uEntry * option (F * string) :=
  let line := trim raw_line in
  if str_is_empty line then s
  else if starts_with "#EXTM3U" line then s
  else if starts_with "#EXT-X-" line || starts_with "#EXT-ALBUMART" line then s
  else match strip_prefix "#EXTINF:" line with
  | Some rest =>
      let '(dur_str, t) := default (rest, EmptyString) (split_once "," rest) in
      (s.1, Some (default f_minus1 (parse_f64 dur_str), t))
  | None =>
      if starts_with "#" line then s
      else (s.1 ++ [match s.2 with Some (d, t) => entry_extinf d t line | None => entry_path line end], None)
  end.
Definition m3u_parse (text : string) : list M3uEntry := (foldl m3u_line ([], None) (str_lines text)).1.

Definition entry_lines (e : M3uEntry) : list string :=
  match duration_secs e, title e with
  | Some d, Some t => ["#EXTINF:" +:+ show_f64 d +:+ "," +:+ t]
  | Some d, None => ["#EXTINF:" +:+ show_f64 d]
  | None, _ => []
  end ++ [uri e].
Definition m3u_render (entries : list M3uEntry) : string := line_block ("#EXTM3U" :: (entries ≫= entry_lines)).
Definition is_extinf_line (line : string) : bool := starts_with "#EXTINF:" (trim_start line).

(** ** Round trip *)

(** A text within one line, and an address or title that the parser leaves as it is. *)
Definition one_line (s : string) : bool := negb (has_char nl s) && negb (has_char cr s).
Definition good_uri (u : string) : bool :=
  one_line u && negb (str_is_empty u) && bool_decide (trim u = u) && negb (starts_with "#" u).
Definition good_title (t : string) : bool := one_line t && bool_decide (trim_end t = t).
Definition good_entry (e : M3uEntry) : bool := good_uri (uri e) && match title e with Some t => good_title t | None => true end.
(** What comes back: the title goes with the duration. *)
Definition norm_entry (e : M3uEntry) : M3uEntry :=
  match duration_secs e with Some d => entry_extinf d (default EmptyString (title e)) (uri e) | None => entry_path (uri e) end.

(** The display of a number: no space, no comma, and read back. *)
Definition num_char (c : ascii) : bool := negb (is_ws c) && negb (bool_decide (c = ","%char)).
Context (f64_law : ∀ d, parse_f64 (show_f64 d) = Some d) (f64_chars : ∀ d, str_all num_char (show_f64 d) = true).

Lemma trim_end_num s : str_all num_char s = true → trim_end s = s.
Proof.
  intros Hs. induction s as [|c s IH]; [done|]. cbn in Hs. apply andb_true_iff in Hs as [Hc Hs]. cbn. rewrite IH by done.
  destruct s; [|done]. apply andb_true_iff in Hc as [Hc _]. by destruct (is_ws c).
Qed.
Lemma split_once_num s t : str_all num_char s = true → split_once "," (s +:+ String "," t) = Some (s, t).
Proof.
  unfold split_once. induction s as [|c s IH]; [done|]. cbn [str_all]. intros [Hc Hs]%andb_true_iff. rewrite str_app_cons. cbn [split_first].
  rewrite IH by done. unfold num_char in Hc. by destruct (is_ws c), (bool_decide (c = ","%char)).
Qed.
Lemma split_once_none s : str_all num_char s = true → split_once "," s = None.
Proof.
  unfold split_once. induction s as [|c s IH]; [done|]. cbn [str_all]. intros [Hc Hs]%andb_true_iff. cbn [split_first].
  rewrite IH by done. unfold num_char in Hc. by destruct (is_ws c), (bool_decide (c = ","%char)).
Qed.

(** An [#EXTINF] line is announced whatever came before it. *)
Lemma extinf_line s rest d t : trim_end ("#EXTINF:" +:+ rest) = "#EXTINF:" +:+ rest →
  default (rest, EmptyString) (split_once "," rest) = (show_f64 d, t) →
  m3u_line s ("#EXTINF:" +:+ rest) = (s.1, Some (d, t)).
Proof.
  intros Ht Hs. unfold m3u_line, trim. change (trim_start ("#EXTINF:" +:+ rest)) with ("#EXTINF:" +:+ rest).
  rewrite Ht. change (str_is_empty ("#EXTINF:" +:+ rest)) with false.
  change (starts_with "#EXTM3U" ("#EXTINF:" +:+ rest)) with false. change (starts_with "#EXT-X-" ("#EXTINF:" +:+ rest)) with false.
  change (starts_with "#EXT-ALBUMART" ("#EXTINF:" +:+ rest)) with false. cbv iota. cbn [orb].
  by rewrite strip_prefix_app, Hs, f64_law.
Qed.
Lemma uri_line s u : good_uri u = true →
  m3u_line s u = (s.1 ++ [match s.2 with Some (d, t) => entry_extinf d t u | None => entry_path u end], None).
Proof.
  unfold good_uri. intros [[[_ Hne]%andb_true_iff Ht]%andb_true_iff Hh]%andb_true_iff.
  apply bool_decide_eq_true in Ht. apply negb_true_iff in Hne, Hh. unfold m3u_line. rewrite Ht, Hne, Hh.
  assert (Hno : ∀ p, starts_with (String "#" p) u = false ∧ strip_prefix (String "#" p) u = None).
  { intros p. destruct u as [|c u]; [done|]. cbn in Hh |- *. rewrite andb_true_r in Hh. by destruct (bool_decide ("#"%char = c)). }
  do 3 rewrite (proj1 (Hno _)). by rewrite (proj2 (Hno _)).
Qed.
Lemma entry_read e acc : good_entry e = true → foldl m3u_line (acc, None) (entry_lines e) = (acc ++ [norm_entry e], None).
Proof.
  unfold good_entry. intros [Hu Ht]%andb_true_iff. destruct e as [[d|] [t|] u]; unfold entry_lines, norm_entry; cbn [duration_secs title uri app foldl default] in *.
  - apply andb_true_iff in Ht as [_ Ht]. apply bool_decide_eq_true in Ht. rewrite (extinf_line _ _ d t), uri_line; try done.
    + rewrite <- (str_app_assoc "#EXTINF:"). apply trim_end_app; [done|]. change (trim_end (String "," t) = String "," t).
      cbn [trim_end]. rewrite Ht. by destruct t.
    + change ("," +:+ t) with (String "," t). by rewrite split_once_num.
  - rewrite (extinf_line _ _ d EmptyString), uri_line; try done.
    + destruct (show_f64 d) eqn:E; [done|]. rewrite <- E. apply trim_end_app; [by rewrite E|]. by apply trim_end_num.
    + by rewrite split_once_none.
  - by rewrite uri_line.
  - by rewrite uri_line.
Qed.

Lemma num_one_line s : str_all num_char s = true → one_line s = true.
Proof.
  intros Hs. unfold one_line. rewrite (str_all_no_char num_char nl), (str_all_no_char num_char cr); done.
Qed.
Lemma one_line_app s t : one_line (s +:+ t) = one_line s && one_line t.
Proof.
  unfold one_line. rewrite !has_char_app. by destruct (has_char nl s), (has_char nl t), (has_char cr s).
Qed.
Lemma entry_one_line e : good_entry e = true → Forall (λ l, has_char nl l = false ∧ has_char cr l = false) (entry_lines e).
Proof.
  unfold good_entry, good_uri. intros [[[[Hu _]%andb_true_iff _]%andb_true_iff _]%andb_true_iff Ht]%andb_true_iff.
  apply (Forall_impl (λ l, one_line l = true)).
  - apply Forall_app. split; [|by repeat constructor].
    destruct e as [[d|] [t|] u]; cbn in *; repeat constructor; rewrite !one_line_app, (num_one_line (show_f64 d)) by done; [|done].
    by apply andb_true_iff in Ht as [-> _].
  - intros l. unfold one_line. intros [H1 H2]%andb_true_iff. by apply negb_true_iff in H1, H2.
Qed.

(** A rendered playlist parses to its entries in order, each with its duration, title and
    address; a title without a duration is lost, a duration without a title gets an empty one. *)
Theorem m3u_roundtrip es : Forall (λ e, good_entry e = true) es → m3u_parse (m3u_render es) = norm_entry <$> es.
Proof.
  intros Hes. unfold m3u_parse, m3u_render. rewrite str_lines_block.
  2: { constructor; [done|]. apply Forall_bind. eapply Forall_impl; [exact Hes|]. exact entry_one_line. }
  cbn [foldl]. change (m3u_line ([], None) "#EXTM3U") with (@nil M3uEntry, @None (F * string)).
  assert (Hfold : ∀ acc, foldl m3u_line (acc, None) (es ≫= entry_lines) = (acc ++ (norm_entry <$> es), None)); [|by rewrite Hfold].
  induction Hes as [|e es He _ IH]; intros acc; cbn; [by rewrite app_nil_r|].
  rewrite foldl_app, entry_read, IH by done. by rewrite <- app_assoc.
Qed.
End m3u.
Arguments M3uEntry : clear implicits.

(** Two durations, as an instance of what is asked of the numbers. *)
Definition bit_text (b : bool) : string := if b then "1" else "0".
Definition bit_of_text (s : string) : option bool :=
  if bool_decide (s = "1") then Some true else if bool_decide (s = "0") then Some false else None.
Lemma m3u_roundtrip_witness :
  m3u_parse bit_of_text true (m3u_render bit_text [mkEntry (Some true) (Some " a, b") "x.mp3"; mkEntry None (Some "t") "y"; mkEntry (Some false) None "z"])
  = [mkEntry (Some true) (Some " a, b") "x.mp3"; mkEntry None None "y"; mkEntry (Some false) (Some EmptyString) "z"].
Proof. apply (m3u_roundtrip bit_of_text bit_text true); [by intros []..|by repeat constructor]. Defined.
(** A directive line is never an entry; a duration that does not parse becomes the default. *)
Example m3u_directives :
  m3u_parse bit_of_text true (line_block ["#EXTM3U"; " #EXTINF:7,song "; "#EXT-X-VERSION:3"; "# note"; EmptyString; " a.mp3 "; "b.mp3"])
  = [mkEntry (Some true) (Some "song") "a.mp3"; mkEntry None None "b.mp3"].
Proof. by vm_compute. Qed.

(** * JWT with HMAC-SHA256 *)

Section jwt.
(** [Sha256::digest] and base64url without padding. *)
Context (sha256 : list byte → list byte) (b64url_encode : list byte → string) (b64url_decode : string → result (list byte) string).

Definition BLOCK_LEN : nat := 64.
Definition xor_byte (mask b : byte) : byte :=
  byte_of_ascii (ascii_of_N (N.lxor (Byte.to_N b) (Byte.to_N mask))).
Definition IPAD : byte := x36.
Definition OPAD : byte := x5c.
(** The key in a block of zeros; a longer key is hashed first. *)
Definition normalize_key (key : list byte) : list byte :=
  let k := if (BLOCK_LEN <? length key)%nat then sha256 key else key in k ++ replicate (BLOCK_LEN - length k) x00.
Definition hmac_sha256 (key message : list byte) : list byte :=
  let normalized := normalize_key key in
  sha256 ((xor_byte OPAD <$> normalized) ++ sha256 ((xor_byte IPAD <$> normalized) ++ message)).

Definition encode_hs256 (header payload : string) (key : list byte) : string :=
  let signing_input := b64url_encode (as_bytes header) +:+ "." +:+ b64url_encode (as_bytes payload) in
  signing_input +:+ "." +:+ b64url_encode (hmac_sha256 key (as_bytes signing_input)).

Definition or_msg {A E} (msg : string) (r : result A E) : result A string := match r with Ok a => Ok a | Err _ => Err msg end.
Definition from_utf8 (msg : string) (l : list byte) : result string string :=
  if utf8_valid l then Ok (string_of_list_byte l) else Err msg.
Definition verify_hs256 (token : string) (key : list byte) : result (string * string) string :=
  match split_on "." token with
  | [h_b64; p_b64; s_b64] =>
      let expected := hmac_sha256 key (as_bytes (h_b64 +:+ "." +:+ p_b64)) in
      provided <-? or_msg "bad signature b64" (b64url_decode s_b64);;
      if negb (bool_decide (expected = provided)) then Err "signature mismatch"
      else
        header_bytes <-? or_msg "bad header b64" (b64url_decode h_b64);;
        payload_bytes <-? or_msg "bad payload b64" (b64url_decode p_b64);;
        header <-? from_utf8 "header not utf-8" header_bytes;;
        payload <-? from_utf8 "payload not utf-8" payload_bytes;;
        Ok (header, payload)
  | _ => Err "invalid token shape (expected 3 parts)"
  end.

Lemma as_bytes_of_string l : as_bytes (string_of_list_byte l) = l.
Proof. apply list_byte_of_string_of_list_byte. Qed.
Lemma from_utf8_ok msg l s : from_utf8 msg l = Ok s ↔ l = as_bytes s ∧ utf8_valid l = true.
Proof.
  unfold from_utf8. split.
  - destruct (utf8_valid l); [|done]. intros [= <-]. by rewrite as_bytes_of_string.
  - intros [-> ->]. by rewrite string_of_as_bytes.
Qed.

Lemma verify_accepts token key h64 p64 s64 h p : split_on "." token = [h64; p64; s64] →
  b64url_decode s64 = Ok (hmac_sha256 key (as_bytes (h64 +:+ "." +:+ p64))) →
  b64url_decode h64 = Ok (as_bytes h) → b64url_decode p64 = Ok (as_bytes p) →
  utf8_valid (as_bytes h) = true → utf8_valid (as_bytes p) = true →
  verify_hs256 token key = Ok (h, p).
Proof.
  intros Ht Hs Hh Hp Uh Up. unfold verify_hs256. rewrite Ht, Hs, Hh, Hp. cbn [or_msg result_bind]. rewrite bool_decide_true by done. cbn [negb].
  rewrite (proj2 (from_utf8_ok "header not utf-8" _ h)) by done. cbn. by rewrite (proj2 (from_utf8_ok "payload not utf-8" _ p)).
Qed.

(** A token is accepted exactly when it is two parts that decode to the texts returned, and a
    third that decodes to the code of the two under the key. *)
Theorem verify_hs256_spec token key h p :
  verify_hs256 token key = Ok (h, p) ↔
  ∃ h64 p64 s64, split_on "." token = [h64; p64; s64] ∧
    b64url_decode s64 = Ok (hmac_sha256 key (as_bytes (h64 +:+ "." +:+ p64))) ∧
    b64url_decode h64 = Ok (as_bytes h) ∧ b64url_decode p64 = Ok (as_bytes p) ∧
    utf8_valid (as_bytes h) = true ∧ utf8_valid (as_bytes p) = true.
Proof.
  split; [|intros (h64 & p64 & s64 & H); destruct_and! H; by eapply verify_accepts].
  unfold verify_hs256. destruct (split_on "." token) as [|h64 [|p64 [|s64 [|]]]] eqn:Hs; try done.
  destruct (b64url_decode s64) as [sg|] eqn:E1; [|done]. cbn [or_msg result_bind]. case_bool_decide as Hx; [|done]. cbn [negb].
  destruct (b64url_decode h64) as [hb|] eqn:E2; [|done]. destruct (b64url_decode p64) as [pb|] eqn:E3; [|done]. cbn [or_msg result_bind].
  destruct (from_utf8 _ hb) as [h'|] eqn:Eh; [|done]. destruct (from_utf8 _ pb) as [p'|] eqn:Ep; [|done]. cbn. intros [= -> ->].
  apply from_utf8_ok in Eh as [-> ?], Ep as [-> ?]. exists h64, p64, s64. by rewrite E1, Hx, E2, E3.
Qed.

(** A key longer than a block is the key that is its digest, and zeros at the end of a key that
    stay within the block do not count: different keys can sign alike. *)
Lemma hmac_long_key key m : (∀ d, length (sha256 d) = 32%nat) → (BLOCK_LEN < length key)%nat →
  hmac_sha256 key m = hmac_sha256 (sha256 key) m.
Proof.
  intros Hlen Hk. unfold hmac_sha256. assert (normalize_key key = normalize_key (sha256 key)) as ->; [|done].
  unfold normalize_key. rewrite (proj2 (Nat.ltb_lt _ _) Hk), (proj2 (Nat.ltb_ge _ _)); [done|]. rewrite Hlen. unfold BLOCK_LEN. lia.
Qed.
Lemma hmac_zero_padded key n m : (length key + n ≤ BLOCK_LEN)%nat → hmac_sha256 (key ++ replicate n x00) m = hmac_sha256 key m.
Proof.
  intros Hn. unfold hmac_sha256. assert (normalize_key (key ++ replicate n x00) = normalize_key key) as ->; [|done].
  unfold normalize_key. rewrite length_app, length_replicate, !(proj2 (Nat.ltb_ge _ _)) by lia.
  rewrite length_app, length_replicate, <- app_assoc, <- replicate_add. do 2 f_equal. lia.
Qed.

Context (b64url_law : ∀ d, b64url_decode (b64url_encode d) = Ok d) (b64url_dot : ∀ d, has_char "." (b64url_encode d) = false).

(** A token verifies under the key it was made with and gives its header and payload back; the
    empty ones too. *)
Theorem jwt_roundtrip header payload key :
  utf8_valid (as_bytes header) = true → utf8_valid (as_bytes payload) = true →
  verify_hs256 (encode_hs256 header payload key) key = Ok (header, payload).
Proof.
  intros Hh Hp. eapply verify_accepts; [|apply b64url_law..|done|done].
  unfold encode_hs256. rewrite !str_app_assoc. refine (split_on_join "." [_; _; _] _ _); [done|]. by repeat constructor.
Qed.
End jwt.

(** A checksum of one byte in place of the digest. *)
Definition sum_digest (l : list byte) : list byte := [byte_of_ascii (ascii_of_N (foldr N.add 0%N (Byte.to_N <$> l)))].
Lemma hex_text_no_dot d : has_char "." (hex_text d) = false.
Proof.
  apply (str_all_no_char (λ c, negb (bool_decide (c = "."%char)))); [done|].
  induction d as [|b d IH]; [done|]. change (hex_text (b :: d)) with (hex_byte (ascii_of_byte b) +:+ hex_text d).
  rewrite str_all_app, IH. clear. by destruct b.
Qed.
Lemma jwt_roundtrip_witness :
  verify_hs256 sum_digest hex_data (encode_hs256 sum_digest hex_text "{}" EmptyString [x01]) [x01] = Ok ("{}", EmptyString).
Proof. by apply (jwt_roundtrip sum_digest hex_text hex_data hex_text_data hex_text_no_dot). Defined.
(** The algorithm named in the header is not looked at. *)
Example alg_not_checked :
  let header := "{alg: none}" in
  verify_hs256 sum_digest hex_data (encode_hs256 sum_digest hex_text header "{}" []) [] = Ok (header, "{}").
Proof. by vm_compute. Qed.

(** * Prometheus exposition *)

Section prometheus.
(** [f64]: whether it is NaN, its sign where it is infinite, its value as [i64] where it is whole and
    below [1e15], its display, and its order. *)
Context {F : Type} (f_nan : F → bool) (f_infinite : F → option bool) (f_whole : F → option Z) (show_f64 : F → string)
        (f_le : F → F → bool).

Inductive MetricType : Type := Counter | Gauge | HistogramType | Summary.
Definition as_prom_type (t : MetricType) : string :=
  match t with Counter => "counter" | Gauge => "gauge" | HistogramType => "histogram" | Summary => "summary" end.
Record Metric : Type := mkMetric
  { m_name : string; m_help : string; m_type : MetricType; m_samples : list (list (string * string) * F) }.

Definition quote : ascii := ascii_of_nat 34.
Definition backslash : ascii := ascii_of_nat 92.
Fixpoint escape_label (v : string) : string :=
  match v with
  | EmptyString => EmptyString
  | String c v' =>
      (if bool_decide (c = backslash) then String backslash (String backslash EmptyString)
       else if bool_decide (c = quote) then String backslash (String quote EmptyString)
       else if bool_decide (c = nl) then String backslash (String "n" EmptyString)
       else String c EmptyString) +:+ escape_label v'
  end.
Definition format_label (k v : string) : string :=
  k +:+ String "=" (String quote (escape_label v +:+ String quote EmptyString)).
Definition label_list (labels : list (string * string)) : string := join_with "," ((λ kv, format_label kv.1 kv.2) <$> labels).
Definition format_labels (labels : list (string * string)) : string := "{" +:+ label_list labels +:+ "}".

Definition push_value (v : F) : string :=
  if f_nan v then "NaN"
  else match f_infinite v with
  | Some true => "+Inf"
  | Some false => "-Inf"
  | None => match f_whole v with Some n => show_i n | None => show_f64 v end
  end.
Definition sample_line (name : string) (s : list (string * string) * F) : string :=
  name +:+ (if bool_decide (s.1 = []) then EmptyString else format_labels s.1) +:+ " " +:+ push_value s.2.
Definition metric_lines (m : Metric) : list string :=
  ("# HELP " +:+ m_name m +:+ " " +:+ m_help m) :: ("# TYPE " +:+ m_name m +:+ " " +:+ as_prom_type (m_type m)) ::
  (sample_line (m_name m) <$> m_samples m).
Definition prom_render (metrics : list Metric) : string := concat_str ((line_block ∘ metric_lines) <$> metrics).

Definition histogram_buckets (buckets : list F) : list string := (show_f64 <$> sort_by f_le buckets) ++ ["+Inf"].

(** ** Reading back *)

(** The text format's own reading of a label value, up to its closing quote. *)
Fixpoint read_value (s : string) : option (string * string) :=
  match s with
  | EmptyString => None
  | String c s' =>
      if bool_decide (c = quote) then Some (EmptyString, s')
      else if bool_decide (c = backslash) then
        match s' with
        | String e s'' => prod_map (String (if bool_decide (e = "n"%char) then nl else e)) id <$> read_value s''
        | EmptyString => None
        end
      else prod_map (String c) id <$> read_value s'
  end.
(** The labels between the braces; each round takes one label. *)
Fixpoint read_labels (fuel : nat) (s : string) : option (list (string * string) * string) :=
  match fuel with
  | O => None
  | S fuel =>
      '(k, s1) ← split_once "=" s;
      match s1 with
      | String q s2 =>
          if bool_decide (q = quote) then
            '(v, s3) ← read_value s2;
            match s3 with
            | String "," s4 => prod_map (cons (k, v)) id <$> read_labels fuel s4
            | String "}" s4 => Some ([(k, v)], s4)
            | _ => None
            end
          else None
      | EmptyString => None
      end
  end.

Lemma read_escape v rest : read_value (escape_label v +:+ String quote rest) = Some (v, rest).
Proof.
  induction v as [|c v IH]; [done|]. cbn [escape_label]. rewrite str_app_assoc.
  repeat case_bool_decide; subst; rewrite ?str_app_cons, ?str_app_nil_l; cbn [read_value]; rewrite ?IH; try done.
  by rewrite !bool_decide_false by done.
Qed.

(** The labels of a sample read back as they were, whatever their values hold: quotes,
    backslashes, line ends, commas and braces. *)
Theorem labels_roundtrip labels rest : labels ≠ [] → Forall (λ kv, has_char "=" kv.1 = false) labels →
  read_labels (length labels) (label_list labels +:+ String "}" rest) = Some (labels, rest).
Proof.
  intros Hne Hk. unfold label_list. induction Hk as [|[k v] labels Hkv Hk IH]; [done|].
  destruct labels as [|kv labels].
  - cbn [fmap list_fmap join_with length read_labels]. unfold format_label. cbn [fst snd]. rewrite str_app_assoc, !str_app_cons.
    rewrite (split_once_at "=") by done. cbn [mbind option_bind]. rewrite bool_decide_true by done.
    by rewrite !str_app_assoc, !str_app_cons, read_escape.
  - change (join_with "," ((λ kv, format_label kv.1 kv.2) <$> (k, v) :: kv :: labels))
      with (format_label k v +:+ String "," (join_with "," ((λ kv, format_label kv.1 kv.2) <$> kv :: labels))).
    unfold format_label at 1. rewrite !str_app_assoc, !str_app_cons. remember (kv :: labels) as ls.
    cbn [length read_labels]. rewrite (split_once_at "=") by done. cbn [mbind option_bind]. rewrite bool_decide_true by done.
    rewrite !str_app_assoc, !str_app_cons, !str_app_nil_l, read_escape. cbn [mbind option_bind]. by rewrite IH by (by subst).
Qed.
(** The parts of a metric that are written as they are; the display of a number is one line. *)
Definition plain_metric (m : Metric) : Prop :=
  has_char nl (m_name m) = false ∧ has_char nl (m_help m) = false ∧
  Forall (λ s, Forall (λ kv, has_char nl kv.1 = false) s.1) (m_samples m).
Context (show_one_line : ∀ v, has_char nl (show_f64 v) = false).

Lemma escape_one_line v : has_char nl (escape_label v) = false.
Proof.
  induction v as [|c v IH]; [done|]. cbn [escape_label]. rewrite has_char_app, IH.
  repeat case_bool_decide; cbn; [done..|]. by rewrite bool_decide_false.
Qed.
Lemma label_list_one_line ls : Forall (λ kv, has_char nl kv.1 = false) ls → has_char nl (label_list ls) = false.
Proof.
  unfold label_list. induction 1 as [|[k v] ls Hk _ IH]; [done|].
  assert (Hf : has_char nl (format_label k v) = false).
  { cbn in Hk. unfold format_label. rewrite has_char_app, Hk. cbn. by rewrite has_char_app, escape_one_line. }
  destruct ls; [done|]. cbn [fmap list_fmap join_with fst snd] in *. by rewrite !has_char_app, Hf, IH.
Qed.
Lemma push_value_one_line v : has_char nl (push_value v) = false.
Proof.
  unfold push_value. destruct (f_nan v); [done|]. destruct (f_infinite v) as [[]|]; [done..|].
  destruct (f_whole v) as [n|]; [|done]. unfold show_i. destruct (n <? 0); cbn; by rewrite has_char_show_u.
Qed.
Lemma metric_one_line m : plain_metric m → Forall (λ l, has_char nl l = false) (metric_lines m).
Proof.
  intros (Hn & Hh & Hs). unfold metric_lines. repeat constructor.
  - by rewrite !has_char_app, Hn, Hh.
  - rewrite !has_char_app, Hn. by destruct (m_type m).
  - apply Forall_fmap. eapply Forall_impl; [exact Hs|]. intros [ls v] Hls. cbn. unfold sample_line.
    rewrite !has_char_app, Hn, push_value_one_line. case_bool_decide; [done|]. cbn [fst]. unfold format_labels.
    by rewrite !has_char_app, label_list_one_line.
Qed.

(** An exposition has one line of help, one of type and one per sample, in order, whatever the
    label values hold. *)
Theorem exposition_lines ms : Forall plain_metric ms →
  split_on nl (prom_render ms) = (ms ≫= metric_lines) ++ [EmptyString].
Proof.
  intros Hms. assert (prom_render ms = line_block (ms ≫= metric_lines)) as ->.
  { unfold prom_render, line_block. clear. induction ms as [|m ms IH]; [done|]. cbn [fmap list_fmap concat_str mbind list_bind compose].
    by rewrite fmap_app, concat_str_app, IH. }
  apply split_line_block, Forall_bind. eapply Forall_impl; [exact Hms|]. exact metric_one_line.
Qed.
End prometheus.
Arguments Metric : clear implicits.

Definition bit_metric (help : string) : Metric bool :=
  mkMetric "up" help Gauge [([("job", String quote (String nl "}"))], true); ([], false)].
Lemma labels_roundtrip_witness :
  read_labels 2 (label_list [("a", String quote ","); ("b", String backslash "}")] +:+ String "}" " 1")
  = Some ([("a", String quote ","); ("b", String backslash "}")], " 1").
Proof. apply (labels_roundtrip [("a", String quote ","); ("b", String backslash "}")]); [done|by repeat constructor]. Defined.
Lemma exposition_lines_witness :
  length (split_on nl (prom_render (λ _, false) (λ _, None) (λ _, None) bit_text [bit_metric "help"])) = 5%nat.
Proof.
  rewrite (exposition_lines (λ _, false) (λ _, None) (λ _, None) bit_text); [done|by intros []|].
  constructor; [|constructor]. by repeat constructor.
Defined.
(** The help text is not escaped: a line end in it starts a line of its own. *)
Example help_injects_a_sample :
  "up 0" ∈ split_on nl (prom_render (λ _, false) (λ _, None) (λ _, None) bit_text
    [mkMetric "up" ("x" +:+ String nl "up 0") Gauge [([], true)]]).
Proof. apply list_elem_of_In. vm_compute. tauto. Qed.

(** * Histograms *)

Section histogram.
Context {F : Type} (f_le : F → F → bool) (f_zero : F).

Record Histogram : Type := mkHist { boundaries : list F; counts : list Z; observations : list F }.
Definition with_buckets (bs : list F) : Histogram :=
  let sorted := sort_by f_le bs in mkHist sorted (replicate (length sorted) 0) [].
Definition record (value : F) (h : Histogram) : Histogram :=
  mkHist (boundaries h) (zip_with (λ b c, if f_le value b then c + 1 else c) (boundaries h) (counts h)) (observations h ++ [value]).
Definition snapshot (h : Histogram) : list (F * Z) := zip (boundaries h) (counts h).
Definition count (h : Histogram) : Z := Z.of_nat (length (observations h)).
(** Of [n] values, the rank is the ceiling of the half, exact below [2^53] values. *)
Definition p50 (h : Histogram) : F :=
  match observations h with
  | [] => f_zero
  | _ =>
      let sorted := sort_by f_le (observations h) in
      let rank := ((length sorted + 1) / 2)%nat in
      nth (Nat.min (rank - 1) (length sorted - 1)) sorted f_zero
  end.
Definition record_all (vs : list F) (h : Histogram) : Histogram := foldl (λ h v, record v h) h vs.

Definition count_if (g : F → bool) (l : list F) : Z := Z.of_nat (length (filter (λ v, g v = true) l)).

(** The counts of the buckets are those of the observations. *)
Definition hist_ok (h : Histogram) : Prop := counts h = (λ b, count_if (λ v, f_le v b) (observations h)) <$> boundaries h.
Lemma with_buckets_ok bs : hist_ok (with_buckets bs).
Proof. unfold hist_ok, with_buckets. cbn. by induction (sort_by f_le bs) as [|b l IH]; [|cbn; rewrite IH]. Qed.
Lemma record_ok v h : hist_ok h → hist_ok (record v h).
Proof.
  unfold hist_ok, record. cbn. intros ->. induction (boundaries h) as [|b l IH]; [done|]. cbn. rewrite IH. f_equal.
  unfold count_if. rewrite filter_app, length_app, filter_cons, filter_nil. case_decide; destruct (f_le v b); cbn; try done; lia.
Qed.
Lemma record_all_ok vs h : hist_ok h → hist_ok (record_all vs h) ∧ boundaries (record_all vs h) = boundaries h ∧
  observations (record_all vs h) = observations h ++ vs.
Proof.
  revert h. induction vs as [|v vs IH]; intros h Hh; [by rewrite app_nil_r|].
  destruct (IH (record v h) (record_ok v h Hh)) as (? & ? & Ho). split_and!; [done..|].
  change (record_all (v :: vs) h) with (record_all vs (record v h)). rewrite Ho. cbn. by rewrite <- app_assoc.
Qed.

(** After any values are recorded, the snapshot pairs the bounds in order with the number of
    values at most each, and the total counts them all. *)
Theorem histogram_counts bs vs : let h := record_all vs (with_buckets bs) in
  snapshot h = (λ b, (b, count_if (λ v, f_le v b) vs)) <$> sort_by f_le bs ∧ count h = Z.of_nat (length vs).
Proof.
  destruct (record_all_ok vs (with_buckets bs) (with_buckets_ok bs)) as (Hok & Hb & Ho). unfold snapshot, count. rewrite Hok, Hb, Ho. split; [|done].
  cbn. by induction (sort_by f_le bs) as [|b l IH]; [|cbn; rewrite IH].
Qed.

Context (f_total : ∀ x y, f_le x y = true ∨ f_le y x = true) (f_trans : ∀ x y z, f_le x y = true → f_le y z = true → f_le x z = true).
Lemma count_if_perm g l k : l ≡ₚ k → count_if g l = count_if g k.
Proof. unfold count_if. by intros ->. Qed.
Lemma count_if_app g l k : count_if g (l ++ k) = count_if g l + count_if g k.
Proof. unfold count_if. rewrite filter_app, length_app. lia. Qed.
Lemma count_if_all g l : Forall (λ v, g v = true) l → count_if g l = Z.of_nat (length l).
Proof. intros H. unfold count_if. by rewrite filter_all. Qed.
Lemma count_if_nonneg g l : 0 ≤ count_if g l.
Proof. unfold count_if. lia. Qed.

Lemma sorted_split l k x : StronglySorted (λ a b, f_le a b = true) (l ++ x :: k) →
  Forall (λ v, f_le v x = true) l ∧ Forall (λ v, f_le x v = true) k.
Proof.
  induction l as [|a l IH]; cbn; intros Hs; inversion Hs as [|?? Hs' Ha]; subst; [done|].
  destruct (IH Hs') as [H1 H2]. split; [|done]. constructor; [|done]. by apply Forall_app in Ha as [_ Ha]; inversion Ha.
Qed.

(** The middle value has at least half of the values at most it and half at least it. *)
Theorem p50_is_median h : observations h ≠ [] →
  count h ≤ 2 * count_if (λ v, f_le v (p50 h)) (observations h) ∧ count h ≤ 2 * count_if (λ v, f_le (p50 h) v) (observations h).
Proof.
  intros Hne. unfold p50. destruct (observations h) as [|o os] eqn:E; [done|]. unfold count. rewrite E. clear Hne.
  pose proof (sort_by_perm f_le (o :: os)) as Hp. pose proof (sort_by_sorted f_le (o :: os) f_total f_trans) as Hs.
  rewrite <- !(count_if_perm _ _ _ Hp), <- (Permutation_length Hp). set (s := sort_by f_le (o :: os)) in *.
  assert (Hn : (0 < length s)%nat) by (rewrite (Permutation_length Hp); cbn; lia). clearbody s. clear Hp E o os h.
  set (i := Nat.min _ _). assert (Hi : (i < length s)%nat) by lia.
  assert (Hi2 : (length s ≤ 2 * (i + 1) ∧ 2 * i ≤ length s)%nat).
  { pose proof (Nat.div_mod_eq (length s + 1) 2). pose proof (Nat.mod_upper_bound (length s + 1) 2). lia. }
  destruct (nth_split s f_zero Hi) as (l & k & Hsp & Hl). set (x := nth i s f_zero) in *. clearbody x i.
  rewrite Hsp in Hs. apply sorted_split in Hs as [H1 H2]. assert (Hx : f_le x x = true) by (by destruct (f_total x x)).
  rewrite Hsp in *. rewrite length_app in *. cbn [length] in *.
  change (l ++ x :: k) with (l ++ [x] ++ k). rewrite !count_if_app, !(count_if_all _ [x]) by (by constructor).
  rewrite (count_if_all (λ v, f_le v x) l H1), (count_if_all (λ v, f_le x v) k H2).
  pose proof (count_if_nonneg (λ v, f_le v x) k). pose proof (count_if_nonneg (λ v, f_le x v) l). cbn [length]. lia.
Qed.
End histogram.
Lemma p50_is_median_witness :
  let h := record_all Z.leb [5; 1; 9; 3] (with_buckets Z.leb [4]) in
  p50 Z.leb 0 h = 3 ∧ count h ≤ 2 * count_if (λ v, v <=? p50 Z.leb 0 h) (observations h).
Proof. split; [by vm_compute|]. apply (p50_is_median Z.leb 0); [lia..|done]. Defined.
