(* ===== verification/ProcTable.v ===== *)
(** The inventory of agents ([src/commands/proc/{build,filter,sort,scan,run,render,platform}.rs] and
    the samples of [sharecli-fleet/src/resource_watch.rs]): filters and their command-line syntax,
    the orders, flat and tree listings, process detail, and the CSV output.  Samplers, floating-point
    texts and the process table are arguments; one reading of the table stands for those of a run. *)
From S2P Require Import Prelude Detect ProcScan.

(** * Samples *)

Record AgentResourceSample : Type := mkSample { mem_rss_bytes : Z; fd_count : option Z }.
Record DetectedAgentWatch : Type := mkWatch { w_agent : DetectedAgent; w_resource : AgentResourceSample }.

Section samples.
(** RSS and open descriptors of a process; [None] when they cannot be read. *)
Context (pid_rss pid_fds : Z → option Z).
Definition capture_for_pid (pid : Z) : option AgentResourceSample :=
  rss ← pid_rss pid; Some (mkSample rss (pid_fds pid)).
Definition watch_detected_agents (agents : list DetectedAgent) : list DetectedAgentWatch :=
  omap (λ a, mkWatch a <$> capture_for_pid (a_pid a)) agents.
End samples.

Definition KIB : Z := 1024.
Definition MIB : Z := 1048576.
Definition GIB : Z := 1073741824.

Section sizes.
(** [format!("{:.1}", bytes as f64 / unit as f64)] with a number of decimals; and
    [(text.parse::<f64>()? * unit as f64) as u64]. *)
Context (show_ratio : nat → Z → Z → string) (parse_scaled : string → Z → option Z).

Definition format_rss_bytes (bytes : Z) : string :=
  if GIB <=? bytes then show_ratio 1 bytes GIB +:+ "G"
  else if MIB <=? bytes then show_ratio 0 bytes MIB +:+ "M"
  else show_u (bytes / KIB) +:+ "K".

Definition ascii_upper (c : ascii) : ascii :=
  let n := nat_of_ascii c in if ((97 <=? n) && (n <=? 122))%nat then ascii_of_nat (n - 32) else c.
Definition parse_rss_bytes (input flag : string) : result Z string :=
  let s := trim input in
  if str_is_empty s then Err (flag +:+ " value MUST be non-empty")
  else
    let upper := str_map ascii_upper s in
    let bad := "invalid " +:+ flag +:+ " size: " +:+ input in
    match strip_suffix "G" upper, strip_suffix "M" upper, strip_suffix "K" upper with
    | Some num, _, _ => ok_or bad (parse_scaled (trim num) GIB)
    | None, Some num, _ => ok_or bad (parse_scaled (trim num) MIB)
    | None, None, Some num => ok_or bad (parse_scaled (trim num) KIB)
    | None, None, None => ok_or bad (parse_uint u64_max s)
    end.

(** * Filters *)

Record ProcFilter : Type := mkFilter {
  f_family : option string; f_exclude_family : option string; f_comm : option string; f_cmdline : option string;
  f_state : option ascii; f_min_rss : option Z; f_max_rss : option Z; f_min_fd : option Z; f_max_fd : option Z;
  f_ppid : option Z }.

Definition substring_matches_pattern (haystack pattern : string) : bool :=
  contains (to_ascii_lowercase pattern) (to_ascii_lowercase haystack).
Definition eq_ignore_ascii_case (a b : string) : bool := bool_decide (to_ascii_lowercase a = to_ascii_lowercase b).

(** The letters of [ps]; some are taken in either case, [T], [t], [X] and [x] are four letters. *)
Definition normalize_state (c : ascii) : option ascii :=
  if bool_decide (c ∈ ["T"; "t"; "X"; "x"]%char) then Some c
  else if bool_decide (ascii_upper c ∈ ["R"; "S"; "D"; "Z"; "K"; "W"; "P"; "I"]%char) then Some (ascii_upper c)
  else None.
Definition parse_proc_state (raw : string) : result ascii string :=
  match trim raw with
  | EmptyString => Err "--state must not be empty"
  | String c EmptyString =>
      ok_or ("invalid --state value '" +:+ String c "'; expected R, S, D, Z, T, t, …") (normalize_state c)
  | _ => Err ("invalid --state value '" +:+ raw +:+ "'; expected single process state letter (R|S|D|Z|T|…)")
  end.
Definition parse_fd_count (raw flag : string) : result Z string :=
  ok_or ("invalid " +:+ flag +:+ " value '" +:+ raw +:+ "'") (parse_uint u64_max raw).

(** An option of the command line, parsed where it is given. *)
Definition parse_opt {A} (o : option string) (f : string → result A string) : result (option A) string :=
  match o with None => Ok None | Some raw => a <-? f raw;; Ok (Some a) end.
Definition non_empty (msg raw : string) : result string string := if str_is_empty raw then Err msg else Ok raw.
Definition check_range (lo hi : option Z) (msg : string) : result unit string :=
  match lo, hi with Some a, Some b => if b <? a then Err msg else Ok tt | _, _ => Ok tt end.
Definition from_cli (fam exclude comm cmdline state min_rss max_rss min_fd max_fd : option string) (ppid : option Z)
    : result ProcFilter string :=
  comm <-? parse_opt comm (non_empty "--comm pattern must not be empty");;
  cmdline <-? parse_opt cmdline (non_empty "--cmdline pattern must not be empty");;
  state <-? parse_opt state parse_proc_state;;
  lo <-? parse_opt min_rss (λ raw, parse_rss_bytes raw "--min-rss");;
  hi <-? parse_opt max_rss (λ raw, parse_rss_bytes raw "--max-rss");;
  _ <-? check_range lo hi "--min-rss MUST NOT exceed --max-rss";;
  flo <-? parse_opt min_fd (λ raw, parse_fd_count raw "--min-fd");;
  fhi <-? parse_opt max_fd (λ raw, parse_fd_count raw "--max-fd");;
  _ <-? check_range flo fhi "--min-fd MUST NOT exceed --max-fd";;
  if bool_decide (is_Some fam) && bool_decide (is_Some exclude) then Err "--family and --exclude-family are mutually exclusive"
  else Ok (mkFilter fam exclude comm cmdline state lo hi flo fhi ppid).
End sizes.

Definition active (f : ProcFilter) : bool :=
  bool_decide (is_Some (f_family f)) || bool_decide (is_Some (f_exclude_family f)) || bool_decide (is_Some (f_comm f)) ||
  bool_decide (is_Some (f_cmdline f)) || bool_decide (is_Some (f_state f)) || bool_decide (is_Some (f_min_rss f)) ||
  bool_decide (is_Some (f_max_rss f)) || bool_decide (is_Some (f_min_fd f)) || bool_decide (is_Some (f_max_fd f)) ||
  bool_decide (is_Some (f_ppid f)).

(** [if let Some(x) = filter.x { if bad(x) { return false; } }], and what follows. *)
Definition reject {A} (o : option A) (bad : A → bool) (rest : bool) : bool :=
  match o with Some a => if bad a then false else rest | None => rest end.

(** ** The tables of a run *)

Record Tables : Type := mkTables {
  rss_by_pid : gmap Z Z; fd_by_pid : gmap Z Z; ppid_by_pid : gmap Z Z; cmdline_by_pid : gmap Z string; state_by_pid : gmap Z ascii }.
Definition rss_map_from_watched (ws : list DetectedAgentWatch) : gmap Z Z :=
  foldl (λ m w, <[a_pid (w_agent w) := mem_rss_bytes (w_resource w)]> m) ∅ ws.
Definition fd_map_from_watched (ws : list DetectedAgentWatch) : gmap Z Z :=
  foldl (λ m w, <[a_pid (w_agent w) := default 0 (fd_count (w_resource w))]> m) ∅ ws.
Definition format_cmdline (cmdline : list string) : string :=
  match cmdline with [] => "(empty)" | _ => join_with " " cmdline end.
(** [filter_map] and [collect] into a map. *)
Definition lookup_map {A} (procs : list ProcSnapshot) (g : ProcSnapshot → A) (pids : list Z) : gmap Z A :=
  foldl (λ m pid, match lookup_proc procs pid with Some p => <[pid := g p]> m | None => m end) ∅ pids.
Definition build_agent_ppid_map (procs : list ProcSnapshot) : list Z → gmap Z Z := lookup_map procs p_ppid.
Definition build_agent_cmdline_map (procs : list ProcSnapshot) : list Z → gmap Z string :=
  lookup_map procs (format_cmdline ∘ p_cmdline).

Definition agent_row_matches_filter (f : ProcFilter) (t : Tables) (row : DetectedAgentWatch) : bool :=
  let pid := a_pid (w_agent row) in
  reject (f_family f) (λ fam, negb (eq_ignore_ascii_case (a_family (w_agent row)) fam)) $
  reject (f_exclude_family f) (λ fam, eq_ignore_ascii_case (a_family (w_agent row)) fam) $
  reject (f_comm f) (λ pat, negb (substring_matches_pattern (a_comm (w_agent row)) pat)) $
  reject (f_cmdline f) (λ pat, negb (substring_matches_pattern (default EmptyString (cmdline_by_pid t !! pid)) pat)) $
  reject (f_state f) (λ c, negb (bool_decide (state_by_pid t !! pid = Some c))) $
  reject (f_min_rss f) (λ lo, mem_rss_bytes (w_resource row) <? lo) $
  reject (f_max_rss f) (λ hi, hi <? mem_rss_bytes (w_resource row)) $
  let fd := default 0 (fd_count (w_resource row)) in
  reject (f_min_fd f) (λ lo, fd <? lo) $
  reject (f_max_fd f) (λ hi, hi <? fd) $
  reject (f_ppid f) (λ p, negb (default 0 (ppid_by_pid t !! pid) =? p)) true.

Definition forest_root_matches_filter (f : ProcFilter) (t : Tables) (root : AgentTreeNode) : bool :=
  let '(Tree pid ppid comm family _) := root in
  reject (f_family f) (λ fam, match family with None => true | Some x => negb (eq_ignore_ascii_case x fam) end) $
  reject (f_exclude_family f) (λ fam, match family with None => false | Some x => eq_ignore_ascii_case x fam end) $
  reject (f_comm f) (λ pat, negb (substring_matches_pattern comm pat)) $
  reject (f_cmdline f) (λ pat, negb (substring_matches_pattern (default EmptyString (cmdline_by_pid t !! pid)) pat)) $
  reject (f_state f) (λ c, negb (bool_decide (state_by_pid t !! pid = Some c))) $
  reject (f_min_rss f) (λ lo, default 0 (rss_by_pid t !! pid) <? lo) $
  reject (f_max_rss f) (λ hi, hi <? default 0 (rss_by_pid t !! pid)) $
  let fd := default 0 (fd_by_pid t !! pid) in
  reject (f_min_fd f) (λ lo, fd <? lo) $
  reject (f_max_fd f) (λ hi, hi <? fd) $
  reject (f_ppid f) (λ p, negb (ppid =? p)) true.

Definition filter_watched_agents (f : ProcFilter) (t : Tables) (ws : list DetectedAgentWatch) : list DetectedAgentWatch :=
  if negb (active f) then ws else filter (λ w, agent_row_matches_filter f t w = true) ws.
Definition filter_agent_forests (f : ProcFilter) (t : Tables) (ns : list AgentTreeNode) : list AgentTreeNode :=
  if negb (active f) then ns else filter (λ n, forest_root_matches_filter f t n = true) ns.

(** * Orders *)

Inductive ProcSort : Type := SortPid | SortRss | SortFd | SortState | SortCpu | SortAge | SortName.
Definition sort_from_str (s : string) : result ProcSort string :=
  let k := to_ascii_lowercase s in
  if bool_decide (k = "pid") then Ok SortPid else if bool_decide (k = "rss") then Ok SortRss
  else if bool_decide (k = "fd") then Ok SortFd else if bool_decide (k = "state") then Ok SortState
  else if bool_decide (k = "cpu") then Ok SortCpu else if bool_decide (k = "age") then Ok SortAge
  else if bool_decide (k = "name") then Ok SortName
  else Err ("unknown sort key '" +:+ k +:+ "'; expected 'rss', 'fd', 'pid', 'state', 'cpu', 'age', or 'name'").
Definition sort_from_cli (raw : option string) : result (option ProcSort) string := parse_opt raw sort_from_str.
Definition parse_proc_limit (raw : option Z) : result (option Z) string :=
  match raw with None => Ok None | Some n => if n =? 0 then Err "--limit must be >= 1" else Ok (Some n) end.
Definition limit_list {A} (limit : option Z) (l : list A) : list A :=
  match limit with None => l | Some n => take (Z.to_nat n) l end.

(** [char::MAX] for a process without a state. *)
Definition state_sort_letter (s : option ascii) : Z :=
  match s with Some c => Z.of_nat (nat_of_ascii c) | None => 1114111 end.
(** [Ordering::then_with], and whether a comparator lets [a] come before [b]. *)
Definition then_with (c d : comparison) : comparison := match c with Eq => d | _ => c end.
Definition not_greater (c : comparison) : bool := match c with Gt => false | _ => true end.

Section listing.
(** The samples of [platform.rs]: CPU in per cent with the order of floats, and the age in seconds. *)
Context {F : Type} (cpu_percent : Z → F) (f_le : F → F → bool) (age_secs : Z → Z).

(** [partial_cmp(..).unwrap_or(Ordering::Equal)]. *)
Definition f_cmp (x y : F) : comparison :=
  if f_le x y then if f_le y x then Eq else Lt else if f_le y x then Gt else Eq.

Definition row_cmp (s : ProcSort) (t : Tables) (a b : DetectedAgentWatch) : comparison :=
  let pid w := a_pid (w_agent w) in
  let by_pid := pid a ?= pid b in
  match s with
  | SortPid => by_pid
  | SortRss => then_with (mem_rss_bytes (w_resource b) ?= mem_rss_bytes (w_resource a)) by_pid
  | SortFd => then_with (default 0 (fd_count (w_resource b)) ?= default 0 (fd_count (w_resource a))) by_pid
  | SortState => then_with (state_sort_letter (state_by_pid t !! pid a) ?= state_sort_letter (state_by_pid t !! pid b)) by_pid
  | SortCpu => then_with (f_cmp (cpu_percent (pid b)) (cpu_percent (pid a))) by_pid
  | SortAge => then_with (age_secs (pid b) ?= age_secs (pid a)) by_pid
  | SortName => then_with (String.compare (a_comm (w_agent a)) (a_comm (w_agent b))) by_pid
  end.

Definition root_cmp (s : ProcSort) (t : Tables) (a b : AgentTreeNode) : comparison :=
  let '(Tree pa _ ca _ _) := a in
  let '(Tree pb _ cb _ _) := b in
  match s with
  | SortPid => pa ?= pb
  | SortRss => then_with (default 0 (rss_by_pid t !! pb) ?= default 0 (rss_by_pid t !! pa)) (pa ?= pb)
  | SortFd => then_with (default 0 (fd_by_pid t !! pb) ?= default 0 (fd_by_pid t !! pa)) (pa ?= pb)
  | SortState => then_with (state_sort_letter (state_by_pid t !! pa) ?= state_sort_letter (state_by_pid t !! pb)) (pa ?= pb)
  | SortCpu => then_with (f_cmp (cpu_percent pb) (cpu_percent pa)) (pa ?= pb)
  | SortAge => then_with (age_secs pb ?= age_secs pa) (pa ?= pb)
  | SortName => then_with (String.compare ca cb) (pa ?= pb)
  end.

Definition sort_watched_agents (s : ProcSort) (t : Tables) (ws : list DetectedAgentWatch) : list DetectedAgentWatch :=
  sort_by (λ a b, not_greater (row_cmp s t a b)) ws.
Definition sort_agent_forests (s : ProcSort) (t : Tables) (ns : list AgentTreeNode) : list AgentTreeNode :=
  sort_by (λ a b, not_greater (root_cmp s t a b)) ns.
Definition apply_sort {A} (sort : ProcSort → A → A) (s : option ProcSort) (l : A) : A :=
  match s with Some k => sort k l | None => l end.

(** The listings of [render_once]. *)
Definition flat_listing (f : ProcFilter) (s : option ProcSort) (limit : option Z) (t : Tables) (ws : list DetectedAgentWatch)
    : list DetectedAgentWatch :=
  limit_list limit (apply_sort (λ k, sort_watched_agents k t) s (filter_watched_agents f t ws)).
Definition tree_listing (f : ProcFilter) (s : option ProcSort) (limit : option Z) (t : Tables) (ns : list AgentTreeNode)
    : list AgentTreeNode :=
  limit_list limit (apply_sort (λ k, sort_agent_forests k t) s (filter_agent_forests f t ns)).

Section host.
Context (rt : list RuntimePattern) (pid_rss pid_fds : Z → option Z) (procs : list ProcSnapshot).
Definition scanned_agents : list DetectedAgent := scan_agents rt procs.
Definition watched_all : list DetectedAgentWatch := watch_detected_agents pid_rss pid_fds scanned_agents.
Definition host_tables : Tables :=
  let pids := a_pid <$> scanned_agents in
  mkTables (rss_map_from_watched watched_all) (fd_map_from_watched watched_all) (build_agent_ppid_map procs pids)
    (build_agent_cmdline_map procs pids) (build_agent_state_map procs pids).
Definition render_flat (f : ProcFilter) (s : option ProcSort) (limit : option Z) : list DetectedAgentWatch :=
  flat_listing f s limit host_tables watched_all.
(** [None]: the recursion over the forests does not end within the fuel. *)
Definition render_tree (fuel : nat) (f : ProcFilter) (s : option ProcSort) (limit : option Z) : option (list AgentTreeNode) :=
  tree_listing f s limit host_tables <$> build_agent_forests rt fuel procs.
End host.
End listing.

(** * Listings as lists of views *)

(** What the filters and orders look at in a row of the flat listing or in the root of a tree. *)
Record View : Type := mkView {
  v_pid : Z; v_family : option string; v_comm : string; v_cmdline : string; v_state : option ascii;
  v_rss : Z; v_fd : Z; v_ppid : Z }.
Definition view_of_row (t : Tables) (w : DetectedAgentWatch) : View :=
  let pid := a_pid (w_agent w) in
  mkView pid (Some (a_family (w_agent w))) (a_comm (w_agent w)) (default EmptyString (cmdline_by_pid t !! pid)) (state_by_pid t !! pid)
    (mem_rss_bytes (w_resource w)) (default 0 (fd_count (w_resource w))) (default 0 (ppid_by_pid t !! pid)).
Definition view_of_root (t : Tables) (n : AgentTreeNode) : View :=
  let '(Tree pid ppid comm fam _) := n in
  mkView pid fam comm (default EmptyString (cmdline_by_pid t !! pid)) (state_by_pid t !! pid)
    (default 0 (rss_by_pid t !! pid)) (default 0 (fd_by_pid t !! pid)) ppid.

(** The filter of a view as a conjunction; both filters of the code are it. *)
Definition opt_ok {A} (o : option A) (g : A → bool) : bool := match o with Some a => g a | None => true end.
Definition view_matches (f : ProcFilter) (v : View) : bool :=
  opt_ok (f_family f) (λ fam, match v_family v with Some x => eq_ignore_ascii_case x fam | None => false end) &&
  opt_ok (f_exclude_family f) (λ fam, match v_family v with Some x => negb (eq_ignore_ascii_case x fam) | None => true end) &&
  opt_ok (f_comm f) (substring_matches_pattern (v_comm v)) &&
  opt_ok (f_cmdline f) (substring_matches_pattern (v_cmdline v)) &&
  opt_ok (f_state f) (λ c, bool_decide (v_state v = Some c)) &&
  opt_ok (f_min_rss f) (λ lo, lo <=? v_rss v) && opt_ok (f_max_rss f) (λ hi, v_rss v <=? hi) &&
  opt_ok (f_min_fd f) (λ lo, lo <=? v_fd v) && opt_ok (f_max_fd f) (λ hi, v_fd v <=? hi) &&
  opt_ok (f_ppid f) (λ p, v_ppid v =? p).

Lemma reject_and {A} (o : option A) (bad good : A → bool) rest rest' :
  (∀ a, bad a = negb (good a)) → rest = rest' → reject o bad rest = opt_ok o good && rest'.
Proof. intros H <-. destruct o as [a|]; cbn; [|done]. rewrite H. by destruct (good a). Qed.
Lemma reject_last {A} (o : option A) (bad good : A → bool) :
  (∀ a, bad a = negb (good a)) → reject o bad true = opt_ok o good.
Proof. intros H. destruct o as [a|]; cbn; [|done]. rewrite H. by destruct (good a). Qed.

Ltac same_tests :=
  cbv zeta; rewrite <- !andb_assoc;
  repeat (apply reject_and; [intros ?; cbn; rewrite ?Z.ltb_antisym, ?negb_involutive; done|]);
  apply reject_last; done.
Lemma row_matches_view f t w : agent_row_matches_filter f t w = view_matches f (view_of_row t w).
Proof. unfold agent_row_matches_filter, view_matches. same_tests. Qed.
Lemma root_matches_view f t n : forest_root_matches_filter f t n = view_matches f (view_of_root t n).
Proof.
  destruct n as [pid ppid comm [fam|] children]; unfold forest_root_matches_filter, view_matches; same_tests.
Qed.

Lemma filter_fmap_bool {A B} (g : A → B) (P : B → bool) (l : list A) :
  g <$> filter (λ x, P (g x) = true) l = filter (λ y, P y = true) (g <$> l).
Proof. induction l as [|x l IH]; [done|]. rewrite fmap_cons, !filter_cons. case_decide; cbn; by rewrite IH. Qed.
Lemma sort_by_fmap {A B} (g : A → B) (le : B → B → bool) (l : list A) :
  g <$> sort_by (λ a b, le (g a) (g b)) l = sort_by le (g <$> l).
Proof.
  assert (Hins : ∀ x k, g <$> insert_by (λ a b, le (g a) (g b)) x k = insert_by le (g x) (g <$> k)).
  { intros x k. induction k as [|y k IHk]; [done|]. cbn. destruct (le (g x) (g y)); [done|]. cbn. by rewrite IHk. }
  induction l as [|x l IH]; [done|]. unfold sort_by in *. cbn. by rewrite Hins, IH.
Qed.
Lemma sort_by_id {A} (le : A → A → bool) (l : list A) : StronglySorted (λ a b, le a b = true) l → sort_by le l = l.
Proof.
  unfold sort_by. induction 1 as [|x l Hl IH Hx]; [done|]. cbn [foldr]. rewrite IH.
  destruct l as [|y l]; [done|]. inversion Hx as [|?? Hy]; subst. cbn. by rewrite Hy.
Qed.
Lemma StronglySorted_fmap {A B} (g : A → B) (R : relation B) (l : list A) :
  StronglySorted (λ a b, R (g a) (g b)) l → StronglySorted R (g <$> l).
Proof. induction 1 as [|x l Hl IH Hx]; cbn; constructor; [done|]. by apply Forall_fmap. Qed.
Lemma fmap_limit {A B} (g : A → B) limit (l : list A) : g <$> limit_list limit l = limit_list limit (g <$> l).
Proof. destruct limit; [apply fmap_take|done]. Qed.

Lemma inactive_matches f v : active f = false → view_matches f v = true.
Proof. destruct f as [[] [] [] [] [] [] [] [] [] []]; done. Qed.

Section listing_views.
Context {F : Type} (cpu_percent : Z → F) (f_le : F → F → bool) (age_secs : Z → Z).
(** The comparator of both listings. *)
Definition view_cmp (s : ProcSort) (a b : View) : comparison :=
  then_with match s with
    | SortPid => Eq
    | SortRss => v_rss b ?= v_rss a
    | SortFd => v_fd b ?= v_fd a
    | SortState => state_sort_letter (v_state a) ?= state_sort_letter (v_state b)
    | SortCpu => f_cmp f_le (cpu_percent (v_pid b)) (cpu_percent (v_pid a))
    | SortAge => age_secs (v_pid b) ?= age_secs (v_pid a)
    | SortName => String.compare (v_comm a) (v_comm b)
    end (v_pid a ?= v_pid b).
Definition view_le (s : ProcSort) (a b : View) : bool := not_greater (view_cmp s a b).
Lemma row_cmp_view s t a b : row_cmp cpu_percent f_le age_secs s t a b = view_cmp s (view_of_row t a) (view_of_row t b).
Proof. by destruct s. Qed.
Lemma root_cmp_view s t a b : root_cmp cpu_percent f_le age_secs s t a b = view_cmp s (view_of_root t a) (view_of_root t b).
Proof. by destruct s, a, b. Qed.

(** What both listings do to the views. *)
Definition view_listing (f : ProcFilter) (s : option ProcSort) (limit : option Z) (vs : list View) : list View :=
  limit_list limit (apply_sort (λ k, sort_by (view_le k)) s (filter (λ v, view_matches f v = true) vs)).

Lemma sort_by_ext {A} (le le' : A → A → bool) l : (∀ a b, le a b = le' a b) → sort_by le l = sort_by le' l.
Proof.
  intros H. assert (Hins : ∀ x k, insert_by le x k = insert_by le' x k).
  { intros x k. induction k as [|y k IHk]; [done|]. cbn. by rewrite H, IHk. }
  unfold sort_by. induction l as [|x l IH]; [done|]. cbn. by rewrite Hins, IH.
Qed.
(** A listing of anything whose filter and comparator are those of its views. *)
Lemma listing_views {A} (g : A → View) (ok : A → bool) (cmp : ProcSort → A → A → comparison) f s limit (l : list A) :
  (∀ x, ok x = view_matches f (g x)) → (∀ k a b, cmp k a b = view_cmp k (g a) (g b)) →
  g <$> limit_list limit (apply_sort (λ k, sort_by (λ a b, not_greater (cmp k a b))) s
          (if negb (active f) then l else filter (λ x, ok x = true) l))
  = view_listing f s limit (g <$> l).
Proof.
  intros Hok Hcmp. unfold view_listing. rewrite fmap_limit. f_equal.
  assert (Hf : (if negb (active f) then l else filter (λ x, ok x = true) l) = filter (λ x, view_matches f (g x) = true) l).
  { destruct (active f) eqn:E; cbn; [apply list_filter_iff; intros x; by rewrite Hok|].
    symmetry. apply filter_all, Forall_true. intros x. by apply inactive_matches. }
  rewrite Hf, <- filter_fmap_bool. destruct s as [k|]; [|done]. cbn.
  rewrite <- sort_by_fmap. f_equal. apply sort_by_ext. intros a b. unfold view_le. by rewrite Hcmp.
Qed.
Lemma flat_views f s limit t ws : view_of_row t <$> flat_listing cpu_percent f_le age_secs f s limit t ws = view_listing f s limit (view_of_row t <$> ws).
Proof.
  apply (listing_views (view_of_row t) (agent_row_matches_filter f t) (λ k, row_cmp cpu_percent f_le age_secs k t)).
  - apply row_matches_view.
  - intros. apply row_cmp_view.
Qed.
Lemma tree_views f s limit t ns : view_of_root t <$> tree_listing cpu_percent f_le age_secs f s limit t ns = view_listing f s limit (view_of_root t <$> ns).
Proof.
  apply (listing_views (view_of_root t) (forest_root_matches_filter f t) (λ k, root_cmp cpu_percent f_le age_secs k t)).
  - apply root_matches_view.
  - intros. apply root_cmp_view.
Qed.

(** ** The order *)

Context (f_total : ∀ x y, f_le x y = true ∨ f_le y x = true) (f_trans : ∀ x y z, f_le x y = true → f_le y z = true → f_le x z = true).
(** The order of a key, the greatest first where the code has it so. *)
Definition key_le (s : ProcSort) (a b : View) : bool :=
  match s with
  | SortPid => true
  | SortRss => v_rss b <=? v_rss a
  | SortFd => v_fd b <=? v_fd a
  | SortState => state_sort_letter (v_state a) <=? state_sort_letter (v_state b)
  | SortCpu => f_le (cpu_percent (v_pid b)) (cpu_percent (v_pid a))
  | SortAge => age_secs (v_pid b) <=? age_secs (v_pid a)
  | SortName => bool_decide (String.le (v_comm a) (v_comm b))
  end.
Lemma key_le_preorder s :
  (∀ a b, key_le s a b = true ∨ key_le s b a = true) ∧ (∀ a b c, key_le s a b = true → key_le s b c = true → key_le s a c = true).
Proof.
  destruct s; cbn; (split; [intros a b|intros a b c]); try (rewrite ?Z.leb_le; lia); auto; try (intros; eauto; done).
  - rewrite !bool_decide_eq_true. apply (total String.le).
  - rewrite !bool_decide_eq_true. apply transitivity.
Qed.
(** A comparator whose first key agrees with an order puts [a] first exactly if it is not after [b] in that
    order and, where the two are equal, has the lower pid. *)
Lemma cmp_then_pid (c : comparison) (ab ba : bool) x y :
  c = (if ab then if ba then Eq else Lt else Gt) →
  not_greater (then_with c (x ?= y)) = ab && (negb ba || (x <=? y)).
Proof. intros ->. destruct ab, ba; cbn; [|done..]. unfold Z.leb. by destruct (x ?= y). Qed.
Lemma Z_cmp_bool x y : (x ?= y) = if x <=? y then if y <=? x then Eq else Lt else Gt.
Proof. unfold Z.leb. rewrite (Z.compare_antisym x y). by destruct (x ?= y). Qed.
Lemma str_cmp_bool x y : String.compare x y = if bool_decide (String.le x y) then if bool_decide (String.le y x) then Eq else Lt else Gt.
Proof.
  unfold String.le, String.leb. rewrite (String.compare_antisym x y). by destruct (String.compare y x).
Qed.
Lemma view_le_key s a b : view_le s a b = key_le s a b && (negb (key_le s b a) || (v_pid a <=? v_pid b)).
Proof.
  unfold view_le, view_cmp. apply cmp_then_pid. destruct s; cbn; try apply Z_cmp_bool; [done| |apply str_cmp_bool].
  unfold f_cmp. destruct (f_total (cpu_percent (v_pid b)) (cpu_percent (v_pid a))) as [H|H]; rewrite H; [done|].
  by destruct (f_le _ _).
Qed.
#[local] Notation vle := view_le.
Lemma view_le_total s a b : vle s a b = true ∨ vle s b a = true.
Proof.
  rewrite !view_le_key. destruct (key_le_preorder s) as [Ht _]. specialize (Ht a b).
  destruct (key_le s a b), (key_le s b a); cbn in *; try tauto. rewrite !Z.leb_le. lia.
Qed.
Lemma view_le_trans s a b c : vle s a b = true → vle s b c = true → vle s a c = true.
Proof.
  rewrite !view_le_key, !andb_true_iff, !orb_true_iff, !negb_true_iff, !Z.leb_le.
  destruct (key_le_preorder s) as [_ Htr]. intros [Hab H1] [Hbc H2]. split; [by eapply Htr|].
  destruct (key_le s c a) eqn:Hca; [|by left]. right.
  assert (key_le s c b = true) by (by eapply Htr). assert (key_le s b a = true) by (by eapply Htr).
  destruct H1 as [H1|H1], H2 as [H2|H2]; try congruence. lia.
Qed.

(** The rows of a sorted listing are in the order asked for, with the lower pid first among
    equals, and the listing does not depend on the order of the scan. *)
Theorem sorted_listing_fixed s t ws ws' : NoDup ((a_pid ∘ w_agent) <$> ws) → ws ≡ₚ ws' →
  StronglySorted (λ a b, vle s (view_of_row t a) (view_of_row t b) = true) (sort_watched_agents cpu_percent f_le age_secs s t ws) ∧
  sort_watched_agents cpu_percent f_le age_secs s t ws = sort_watched_agents cpu_percent f_le age_secs s t ws'.
Proof.
  intros Hnd Hp. set (le := λ a b, vle s (view_of_row t a) (view_of_row t b)).
  assert (Hle : ∀ l, sort_watched_agents cpu_percent f_le age_secs s t l = sort_by le l).
  { intros l. apply sort_by_ext. intros a b. unfold le, view_le. by rewrite row_cmp_view. }
  rewrite !Hle. clear Hle.
  assert (Hs : ∀ l, StronglySorted (λ a b, le a b = true) (sort_by le l)).
  { intros l. apply sort_by_sorted; intros; [apply view_le_total|by eapply view_le_trans]. }
  split; [apply Hs|]. eapply (StronglySorted_unique_strong (λ a b, le a b = true)); [|apply Hs..|by rewrite !sort_by_perm].
  intros a b Ha Hb Hab Hba. rewrite sort_by_perm in Ha, Hb. rewrite <- Hp in Hb.
  eapply (NoDup_fmap_inj (a_pid ∘ w_agent)); [exact Hnd|done..|]. unfold le in Hab, Hba. rewrite view_le_key in Hab, Hba.
  apply andb_true_iff in Hab as [K1 Hab], Hba as [K2 Hba]. rewrite K2 in Hab. rewrite K1 in Hba. cbn in Hab, Hba. apply Z.leb_le in Hab, Hba. cbn. lia.
Qed.
End listing_views.

(** * Flat and tree listings of a host *)

Lemma foldl_insert_lookup {A B} (key : A → Z) (val : A → B) (l : list A) (m0 : gmap Z B) x : NoDup (key <$> l) → x ∈ l →
  foldl (λ m w, <[key w := val w]> m) m0 l !! key x = Some (val x).
Proof.
  induction l as [|y l IH] using rev_ind; [by intros _ ?%elem_of_nil|]. rewrite fmap_app, foldl_app. cbn.
  intros (Hnd & Hne & _)%NoDup_app [Hx| ->%list_elem_of_singleton]%elem_of_app; [|by rewrite lookup_insert_eq].
  rewrite lookup_insert_ne; [by apply IH|]. intros Heq. apply (Hne (key x)); [by apply list_elem_of_fmap_2|]. rewrite <- Heq. set_solver.
Qed.
Lemma lookup_map_in {A} procs (g : ProcSnapshot → A) pids x p : x ∈ pids → lookup_proc procs x = Some p →
  lookup_map procs g pids !! x = Some (g p).
Proof.
  intros Hx Hp. unfold lookup_map. induction pids as [|y pids IH] using rev_ind; [by apply elem_of_nil in Hx|].
  rewrite foldl_app. cbn. destruct (decide (x = y)) as [<-|Hne]; [rewrite Hp; by rewrite lookup_insert_eq|].
  assert (x ∈ pids) by set_solver. destruct (lookup_proc procs y); [rewrite lookup_insert_ne by done|]; auto.
Qed.
Lemma lookup_proc_by_pid procs x p : NoDup (p_pid <$> procs) → by_pid procs !! x = Some p → lookup_proc procs x = Some p.
Proof.
  intros Hnd [Hp <-]%by_pid_lookup; [|done]. unfold lookup_proc. induction procs as [|q procs IH]; [by apply elem_of_nil in Hp|].
  cbn in *. apply NoDup_cons in Hnd as [Hq Hnd]. destruct (p_pid q =? p_pid p) eqn:E.
  - apply Z.eqb_eq in E. apply elem_of_cons in Hp as [->|Hp]; [done|]. destruct Hq. rewrite E. by apply list_elem_of_fmap_2.
  - apply elem_of_cons in Hp as [->|Hp]; [by rewrite Z.eqb_refl in E|]. by apply IH.
Qed.

Section host_listing.
Context {F : Type} (cpu_percent : Z → F) (f_le : F → F → bool) (age_secs : Z → Z).
Context (rt : list RuntimePattern) (pid_rss pid_fds : Z → option Z) (procs : list ProcSnapshot) (Hnd : NoDup (p_pid <$> procs)).
#[local] Notation m := (by_pid procs).
#[local] Notation agents := (scan_agents rt procs).
#[local] Notation T := (host_tables rt pid_rss pid_fds procs).

Lemma agent_row a : a ∈ agents → ∃ p, m !! a_pid a = Some p ∧ lookup_proc procs (a_pid a) = Some p ∧ family_of rt p = Some (a_family a) ∧ a_comm a = p_comm p.
Proof.
  unfold scan_agents. rewrite sort_by_perm, list_elem_of_omap. intros (p & Hp & Ha). destruct (family_of rt p) as [fam|] eqn:Hf; [|done].
  injection Ha as <-. exists p. assert (Hm : m !! p_pid p = Some p) by (by apply by_pid_lookup).
  split_and!; [done|by apply lookup_proc_by_pid|done|done].
Qed.
Lemma agents_sorted : StronglySorted (λ a b, (a_pid a <=? a_pid b) = true) agents.
Proof. apply sort_by_sorted; intros; rewrite ?Z.leb_le in *; lia. Qed.
Lemma agents_nodup : NoDup (a_pid <$> agents).
Proof.
  unfold scan_agents. rewrite sort_by_perm. clear -Hnd. induction procs as [|p ps IH]; [constructor|]. cbn in *.
  apply NoDup_cons in Hnd as [Hp Hnd']. destruct (family_of rt p) as [fam|]; cbn; [|by apply IH]. constructor; [|by apply IH].
  intros (a & Ha & (q & Hq & Hqa)%list_elem_of_omap)%list_elem_of_fmap. destruct (family_of rt q); [|done]. injection Hqa as <-. cbn in Ha.
  apply Hp. rewrite Ha. by apply list_elem_of_fmap_2.
Qed.

Context (Hsampled : Forall (λ a, is_Some (pid_rss (a_pid a))) agents).
Definition row_of (a : DetectedAgent) : DetectedAgentWatch :=
  mkWatch a (mkSample (default 0 (pid_rss (a_pid a))) (pid_fds (a_pid a))).
Lemma watched_rows : watched_all rt pid_rss pid_fds procs = row_of <$> agents.
Proof.
  unfold watched_all, scanned_agents, watch_detected_agents. induction Hsampled as [|a l [r Hr] _ IH]; [done|]. cbn.
  unfold capture_for_pid at 1. rewrite Hr. cbn. f_equal; [unfold row_of; by rewrite Hr|apply IH; by inversion Hsampled].
Qed.
Lemma rows_nodup : NoDup ((λ w, a_pid (w_agent w)) <$> (row_of <$> agents)).
Proof. rewrite <- list_fmap_compose. apply agents_nodup. Qed.

(** The root built for an agent looks like its row. *)
Lemma root_view fuel a o : a ∈ agents → build_agent_subtree rt fuel m (a_pid <$> agents) (a_pid a) = Some o →
  ∃ n, o = Some n ∧ view_of_root T n = view_of_row T (row_of a).
Proof.
  intros Ha. destruct (agent_row a Ha) as (p & Hm & Hlp & Hf & Hc). destruct fuel as [|fuel]; [done|]. cbn [build_agent_subtree]. rewrite Hm.
  destruct (mapM _ _) as [os|]; [|done]. intros [= <-]. eexists. split; [done|]. unfold view_of_root, view_of_row.
  rewrite bool_decide_true by (by apply list_elem_of_fmap_2).
  assert (Hrow : row_of a ∈ row_of <$> agents) by (by apply list_elem_of_fmap_2).
  pose proof (foldl_insert_lookup (λ w, a_pid (w_agent w)) (λ w, mem_rss_bytes (w_resource w)) _ ∅ _ rows_nodup Hrow) as Hr.
  pose proof (foldl_insert_lookup (λ w, a_pid (w_agent w)) (λ w, default 0 (fd_count (w_resource w))) _ ∅ _ rows_nodup Hrow) as Hfd.
  cbn in Hr, Hfd. unfold host_tables. cbn. unfold rss_map_from_watched, fd_map_from_watched, build_agent_ppid_map. rewrite watched_rows, Hr, Hfd.
  rewrite (lookup_map_in procs p_ppid _ (a_pid a) p) by (done || by apply list_elem_of_fmap_2). by rewrite Hf, Hc.
Qed.

(** No agent was started directly by another. *)
Context (Hflat : ∀ x y, agent_at rt m x → parent m x y → ¬ agent_at rt m y).
Lemma roots_are_agents : forest_roots rt procs = a_pid <$> agents.
Proof.
  unfold forest_roots. rewrite filter_all.
  - apply sort_by_id, (StronglySorted_fmap a_pid (λ x y, (x <=? y) = true)). apply agents_sorted.
  - apply Forall_forall. intros a Ha Hin. destruct (agent_row a Ha) as (p & Hm & _ & Hf & _). rewrite Hm in Hin. cbn in Hin.
    apply scan_agents_pids in Hin; [|done]. eapply (Hflat (a_pid a)); [|by exists p|exact Hin]. exists p. by rewrite Hf.
Qed.

(** The trees shown and the rows shown, in order, look the same to filters and orders. *)
Lemma tree_flat_views f s limit : (∀ x, ¬ tc (parent m) x x) →
  ∃ ns, render_tree cpu_percent f_le age_secs rt pid_rss pid_fds procs (S (size m)) f s limit = Some ns ∧
    view_of_root T <$> ns = view_of_row T <$> render_flat cpu_percent f_le age_secs rt pid_rss pid_fds procs f s limit.
Proof.
  intros Hac. unfold render_tree, build_agent_forests. rewrite roots_are_agents.
  assert (Hb : is_Some (mapM (build_agent_subtree rt (S (size m)) m (a_pid <$> agents)) (a_pid <$> agents))).
  { apply mapM_is_Some, Forall_forall. intros x _. apply (build_total rt _ _ _ x []); [apply by_pid_keyed|apply Hac|apply rtc_refl|constructor|set_solver|cbn; lia]. }
  destruct Hb as [os Hos]. rewrite Hos. cbn. eexists. split; [done|]. unfold render_flat. rewrite tree_views, flat_views, watched_rows. f_equal.
  apply mapM_Some, Forall2_fmap_l in Hos. assert (Hroot : Forall2 (λ a o, ∃ n, o = Some n ∧ view_of_root T n = view_of_row T (row_of a)) agents os).
  { apply Forall2_same_length_lookup. split; [by eapply Forall2_length|]. intros i a o Ha Ho. apply (root_view (S (size m))); [by eapply list_elem_of_lookup_2|].
    by eapply Forall2_lookup_lr in Hos. }
  clear -Hroot. generalize T Hroot. intros t. clear. induction 1 as [|a o l k (n & -> & Hn) _ IH]; [done|]. cbn. by rewrite Hn, IH.
Qed.
End host_listing.

(** * The command line *)

Definition accepted (f : ProcFilter) : Prop :=
  (∀ lo hi, f_min_rss f = Some lo → f_max_rss f = Some hi → lo ≤ hi) ∧ (∀ lo hi, f_min_fd f = Some lo → f_max_fd f = Some hi → lo ≤ hi) ∧
  (is_Some (f_family f) → f_exclude_family f = None) ∧
  (∀ p, f_comm f = Some p ∨ f_cmdline f = Some p → p ≠ EmptyString) ∧
  (∀ c, f_state f = Some c → normalize_state c = Some c).

Lemma check_range_ok lo hi msg : check_range lo hi msg = Ok tt → ∀ a b, lo = Some a → hi = Some b → a ≤ b.
Proof. intros H a b -> ->. cbn in H. destruct (Z.ltb_spec b a); [done|lia]. Qed.
Lemma non_empty_ok msg raw r : parse_opt raw (non_empty msg) = Ok r → ∀ p, r = Some p → p ≠ EmptyString.
Proof. destruct raw as [s|]; cbn; [|by intros [= <-]]. unfold non_empty. destruct s; [done|]. cbn. by intros [= <-] p [= <-]. Qed.
Lemma normalize_idem c c' : normalize_state c = Some c' → normalize_state c' = Some c'.
Proof.
  assert (H : match normalize_state c with Some d => bool_decide (normalize_state d = Some d) | None => true end = true)
    by (by destruct c as [[] [] [] [] [] [] [] []]; vm_compute).
  intros E. rewrite E in H. by apply bool_decide_eq_true in H.
Qed.
Lemma parse_state_ok raw r : parse_opt raw parse_proc_state = Ok r → ∀ c, r = Some c → normalize_state c = Some c.
Proof.
  destruct raw as [s|]; cbn; [|by intros [= <-]]. unfold parse_proc_state. destruct (trim s) as [|a [|]]; cbn; try done.
  destruct (normalize_state a) as [c'|] eqn:E; cbn; [|done]. intros [= <-] c [= <-]. by eapply normalize_idem.
Qed.

Section cli.
Context (parse_scaled : string → Z → option Z).

(** A filter that the command line accepts asks for something that can hold: its bounds are in
    order, it does not both ask for and exclude a family, no pattern is empty and the state is a
    letter the table uses. *)
Theorem from_cli_accepted fam ex comm cmdline state a b c d ppid f :
  from_cli parse_scaled fam ex comm cmdline state a b c d ppid = Ok f → accepted f ∧ f_family f = fam ∧ f_exclude_family f = ex ∧ f_ppid f = ppid.
Proof.
  unfold from_cli. destruct (parse_opt comm _) as [comm'|] eqn:E1; [|done]. cbn [result_bind].
  destruct (parse_opt cmdline _) as [cmdline'|] eqn:E2; [|done]. cbn [result_bind].
  destruct (parse_opt state _) as [state'|] eqn:E3; [|done]. cbn [result_bind].
  destruct (parse_opt a _) as [lo|]; [|done]. cbn [result_bind]. destruct (parse_opt b _) as [hi|]; [|done]. cbn [result_bind].
  destruct (check_range lo hi _) as [[]|] eqn:E4; [|done]. cbn [result_bind].
  destruct (parse_opt c _) as [flo|]; [|done]. cbn [result_bind]. destruct (parse_opt d _) as [fhi|]; [|done]. cbn [result_bind].
  destruct (check_range flo fhi _) as [[]|] eqn:E5; [|done]. cbn [result_bind].
  destruct (bool_decide (is_Some fam) && bool_decide (is_Some ex)) eqn:E6; [done|]. intros [= <-]. split; [|done].
  unfold accepted. cbn. split_and!; [by eapply check_range_ok|by eapply check_range_ok| | |by eapply parse_state_ok].
  - intros Hfam. rewrite bool_decide_true in E6 by done. cbn in E6. apply bool_decide_eq_false in E6. by destruct ex; [destruct E6|].
  - intros p [?|?]; [by eapply (non_empty_ok _ comm)|by eapply (non_empty_ok _ cmdline)].
Qed.

(** ** Which mode a command line selects *)

Record ProcArgs : Type := mkArgs {
  o_json : bool; o_csv : bool; o_tree : bool; o_watch : option Z; o_family : option string; o_exclude : option string;
  o_comm : option string; o_cmdline : option string; o_state : option string; o_min_rss : option string; o_max_rss : option string;
  o_min_fd : option string; o_max_fd : option string; o_sort : option string; o_limit : option Z; o_pid : option Z; o_ppid : option Z }.
(** One rendering or one per period; of a process or of the inventory. *)
Inductive Mode : Type :=
| Detail (pid : Z) (period : option Z) (json csv : bool)
| Inventory (period : option Z) (json csv tree : bool) (f : ProcFilter) (s : option ProcSort) (limit : option Z).

Definition flag {A} (o : option A) (name : string) : list string := if bool_decide (is_Some o) then [name] else [].
Definition conflicts (a : ProcArgs) : list string :=
  (if o_tree a then ["--tree"] else []) ++ flag (o_family a) "--family" ++ flag (o_exclude a) "--exclude-family" ++
  flag (o_comm a) "--comm" ++ flag (o_cmdline a) "--cmdline" ++ flag (o_state a) "--state" ++ flag (o_min_rss a) "--min-rss" ++
  flag (o_max_rss a) "--max-rss" ++ flag (o_min_fd a) "--min-fd" ++ flag (o_max_fd a) "--max-fd" ++ flag (o_sort a) "--sort" ++
  flag (o_limit a) "--limit".
Definition reject_pid_inventory_combos (a : ProcArgs) : result unit string :=
  match conflicts a with
  | [] => Ok tt
  | cs => Err ("--pid cannot be combined with " +:+ join_with ", " cs +:+ " (AC-007.92); use inventory mode without --pid")
  end.
Definition check_watch (w : option Z) : result unit string :=
  if bool_decide (w = Some 0) then Err "--watch interval must be >= 1 second" else Ok tt.
Definition run_mode (a : ProcArgs) : result Mode string :=
  if o_csv a && o_json a then Err "--csv cannot be combined with --json"
  else if bool_decide (is_Some (o_pid a)) && bool_decide (is_Some (o_ppid a)) then Err "--ppid cannot be combined with --pid"
  else match o_pid a with
  | Some pid =>
      _ <-? reject_pid_inventory_combos a;;
      _ <-? check_watch (o_watch a);;
      Ok (Detail pid (o_watch a) (o_json a) (o_csv a))
  | None =>
      f <-? from_cli parse_scaled (o_family a) (o_exclude a) (o_comm a) (o_cmdline a) (o_state a) (o_min_rss a) (o_max_rss a)
              (o_min_fd a) (o_max_fd a) (o_ppid a);;
      s <-? sort_from_cli (o_sort a);;
      limit <-? parse_proc_limit (o_limit a);;
      _ <-? check_watch (o_watch a);;
      Ok (Inventory (o_watch a) (o_json a) (o_csv a) (o_tree a) f s limit)
  end.

(** No option is dropped: the detail of a process is shown only when no option of the inventory is
    given, one output format is chosen, the period is not zero and a limit shows at least a row. *)
Lemma run_mode_sound a md : run_mode a = Ok md →
  o_csv a && o_json a = false ∧ o_watch a ≠ Some 0 ∧
  match md with
  | Detail pid p j c => o_pid a = Some pid ∧ o_ppid a = None ∧ conflicts a = [] ∧ p = o_watch a ∧ j = o_json a ∧ c = o_csv a
  | Inventory p j c t f s limit => o_pid a = None ∧ p = o_watch a ∧ j = o_json a ∧ c = o_csv a ∧ t = o_tree a ∧ limit = o_limit a ∧ limit ≠ Some 0
  end.
Proof.
  unfold run_mode. destruct (o_csv a && o_json a); [done|]. destruct (_ && bool_decide (is_Some (o_ppid a))) eqn:Ep; [done|].
  assert (Hw : ∀ u, check_watch (o_watch a) = Ok u → o_watch a ≠ Some 0).
  { unfold check_watch. intros u. by destruct (bool_decide_reflect (o_watch a = Some 0)). }
  destruct (o_pid a) as [pid|].
  - unfold reject_pid_inventory_combos. destruct (conflicts a); [|done]. cbn [result_bind]. destruct (check_watch _) eqn:Ew; [|done].
    intros [= <-]. split_and!; try done; [by eapply Hw|]. cbn in Ep. apply bool_decide_eq_false in Ep. by destruct (o_ppid a); [destruct Ep|].
  - destruct (from_cli _ _ _ _ _ _ _ _ _ _ _) as [f|]; [|done]. cbn [result_bind]. destruct (sort_from_cli _) as [s|]; [|done]. cbn [result_bind].
    unfold parse_proc_limit. destruct (o_limit a) as [n|].
    + destruct (Z.eqb_spec n 0); [done|]. cbn [result_bind]. destruct (check_watch _) eqn:Ew; [|done]. intros [= <-]. split_and!; try done; [by eapply Hw|congruence].
    + cbn [result_bind]. destruct (check_watch _) eqn:Ew; [|done]. intros [= <-]. split_and!; try done. by eapply Hw.
Qed.
End cli.

(** * Process detail *)

(** [/proc/<pid>/stat]: processor time and start, in ticks. *)
Definition read_pid_stat (text : option string) : option (Z * Z) :=
  t ← text; rest ← after_last ")" t;
  let fields := split_whitespace rest in
  if (length fields <? 20)%nat then None
  else utime ← fields !! 11%nat ≫= parse_uint u64_max; stime ← fields !! 12%nat ≫= parse_uint u64_max;
       start ← fields !! 19%nat ≫= parse_uint u64_max; Some (as_u64 (utime + stime), start).

Record AgentAncestorRef : Type := mkAncestor { anc_pid : Z; anc_family : string }.
Record ProcDetail (G H : Type) : Type := mkDetail {
  d_pid : Z; d_ppid : Z; d_parent_comm : option string; d_comm : string; d_state : string; d_cmdline : list string;
  d_family : option string; d_ancestor : option AgentAncestorRef; d_rss : Z; d_mem_rss : string; d_fd : option Z; d_gate : G; d_host : H }.
#[global] Arguments mkDetail {G H}.
#[global] Arguments d_pid {G H}. #[global] Arguments d_ppid {G H}. #[global] Arguments d_comm {G H}. #[global] Arguments d_family {G H}.
#[global] Arguments d_ancestor {G H}. #[global] Arguments d_state {G H}. #[global] Arguments d_rss {G H}. #[global] Arguments d_mem_rss {G H}.
#[global] Arguments d_fd {G H}. #[global] Arguments d_parent_comm {G H}. #[global] Arguments d_cmdline {G H}.

Definition state_json_from_char (c : ascii) : string := if bool_decide (c = "?"%char) then EmptyString else String c EmptyString.
Definition state_text_from_detail_state (s : string) : string := if str_is_empty s then "-" else s.
Definition state_letter_for_pid (states : gmap Z ascii) (pid : Z) : string :=
  match states !! pid with Some c => String c EmptyString | None => EmptyString end.

Section detail.
Context {G H : Type} (rt : list RuntimePattern) (pid_rss pid_fds : Z → option Z) (show_ratio : nat → Z → Z → string).
(** The gate's snapshot of a number of agents and the sample of the host, which may fail. *)
Context (gate : nat → result G string) (host : result H string).
Definition build_proc_detail (procs : list ProcSnapshot) (pid : Z) : result (ProcDetail G H) string :=
  p <-? ok_or ("process " +:+ show_u pid +:+ " not found on this host") (lookup_proc procs pid);;
  let fam := match_known_agent rt (p_comm p) (p_cmdline p) in
  let ancestor := match fam with
                  | Some _ => None
                  | None => (λ a, mkAncestor (a_pid a) (a_family a)) <$> walk_agent_ancestors rt procs pid
                  end in
  r <-? ok_or ("failed to sample RSS/FD for process " +:+ show_u pid) (capture_for_pid pid_rss pid_fds pid);;
  g <-? gate (length (scan_agents rt procs));;
  h <-? host;;
  Ok (mkDetail (p_pid p) (p_ppid p) (p_comm <$> lookup_proc procs (p_ppid p)) (p_comm p) (state_json_from_char (p_state p)) (p_cmdline p)
        fam ancestor (mem_rss_bytes r) (format_rss_bytes show_ratio (mem_rss_bytes r)) (fd_count r) g h).

(** The detail of a process names the agent it is, or else the nearest agent above it. *)
Lemma detail_names_agent procs pid d : NoDup (p_pid <$> procs) → build_proc_detail procs pid = Ok d →
  d_pid d = pid ∧
  match d_family d, d_ancestor d with
  | Some fam, anc => anc = None ∧ ∃ p, by_pid procs !! pid = Some p ∧ family_of rt p = Some fam
  | None, Some anc => ∃ q, q ≠ pid ∧ rtc (climbs rt (by_pid procs)) pid q ∧ found rt (by_pid procs) q (mkAgent (anc_pid anc) (anc_family anc)
                             (default EmptyString (p_comm <$> by_pid procs !! q)))
  | None, None => walk_agent_ancestors rt procs pid = None
  end.
Proof.
  intros Hnd. unfold build_proc_detail. destruct (lookup_proc procs pid) as [p|] eqn:Hp; [|done]. cbn [ok_or result_bind].
  destruct (capture_for_pid _ _ pid) as [r|]; [|done]. cbn [ok_or result_bind]. destruct (gate _) as [g|]; [|done]. cbn [result_bind].
  destruct host as [h|]; [|done]. cbn [result_bind]. intros [= <-]. cbn -[walk_agent_ancestors].
  unfold lookup_proc in Hp. apply find_some in Hp as [Hin Hpid%Z.eqb_eq]. split; [done|].
  assert (Hm : by_pid procs !! pid = Some p) by (apply by_pid_lookup; [done|split; [by apply list_elem_of_In|done]]).
  change (match_known_agent rt (p_comm p) (p_cmdline p)) with (family_of rt p). destruct (family_of rt p) as [fam|] eqn:Hf; [by eauto|].
  destruct (walk_agent_ancestors rt procs pid) as [a|] eqn:Hw; cbn -[walk_agent_ancestors]; [|done]. apply walk_finds_nearest in Hw as (q & Hr & Hq).
  exists q. split_and!; [|done|].
  - intros ->. destruct Hq as (p' & Hp' & Hf' & _). congruence.
  - destruct Hq as (p' & Hp' & Hf' & Ha & Hc). exists p'. rewrite Hp'. cbn. done.
Qed.
End detail.

(** * CSV *)

Definition quote : ascii := ascii_of_nat 34.
Definition special (c : ascii) : bool := bool_decide (c ∈ [","%char; quote; nl; cr]).
Fixpoint double_quotes (s : string) : string :=
  match s with
  | EmptyString => EmptyString
  | String c s' => if bool_decide (c = quote) then String quote (String quote (double_quotes s')) else String c (double_quotes s')
  end.
Definition csv_escape_field (raw : string) : string :=
  if str_all (λ c, negb (special c)) raw then raw else String quote (double_quotes raw +:+ String quote EmptyString).

Section csv.
Context (show_ratio : nat → Z → Z → string).
Definition show_fd (fd : option Z) : string := match fd with Some n => show_u n | None => EmptyString end.
Definition INVENTORY_HEADER : list string := ["pid"; "family"; "comm"; "state"; "mem_rss_bytes"; "mem_rss"; "fd_count"].
Definition inventory_row (states : gmap Z ascii) (w : DetectedAgentWatch) : string :=
  let pid := a_pid (w_agent w) in let rss := mem_rss_bytes (w_resource w) in
  join_with "," [show_u pid; csv_escape_field (a_family (w_agent w)); csv_escape_field (a_comm (w_agent w)); state_letter_for_pid states pid;
                 show_u rss; csv_escape_field (format_rss_bytes show_ratio rss); show_fd (fd_count (w_resource w))].
Definition render_agent_inventory_csv (states : gmap Z ascii) (ws : list DetectedAgentWatch) : string :=
  line_block (join_with "," INVENTORY_HEADER :: (inventory_row states <$> ws)).

Definition TREE_HEADER : list string :=
  ["root_index"; "depth"; "pid"; "ppid"; "family"; "comm"; "state"; "mem_rss_bytes"; "mem_rss"; "fd_count"].
Definition tree_row (t : Tables) (root_index depth : Z) (n : AgentTreeNode) : string :=
  let '(Tree pid ppid comm fam _) := n in let rss := default 0 (rss_by_pid t !! pid) in
  join_with "," [show_u root_index; show_u depth; show_u pid; show_u ppid; default EmptyString (csv_escape_field <$> fam); csv_escape_field comm;
                 state_letter_for_pid (state_by_pid t) pid; show_u rss; csv_escape_field (format_rss_bytes show_ratio rss); show_fd (fd_by_pid t !! pid)].
Fixpoint append_tree_csv_row (t : Tables) (root_index depth : Z) (n : AgentTreeNode) : list string :=
  tree_row t root_index depth n ::
  match n with Tree _ _ _ _ children => concat (map (append_tree_csv_row t root_index (depth + 1)) children) end.
Definition render_agent_tree_csv (t : Tables) (forests : list AgentTreeNode) : string :=
  line_block (join_with "," TREE_HEADER :: concat (imap (λ i n, append_tree_csv_row t (Z.of_nat i) 0 n) forests)).

(** ** Reading CSV *)

(** A quoted field up to its closing quote, a plain one up to a comma or the end of the line. *)
Fixpoint read_quoted (s : string) : option (string * string) :=
  match s with
  | EmptyString => None
  | String c s' =>
      if bool_decide (c = quote) then
        match s' with
        | String d s'' => if bool_decide (d = quote) then prod_map (String quote) id <$> read_quoted s'' else Some (EmptyString, s')
        | EmptyString => Some (EmptyString, EmptyString)
        end
      else prod_map (String c) id <$> read_quoted s'
  end.
Fixpoint read_plain (s : string) : string * string :=
  match s with
  | EmptyString => (EmptyString, EmptyString)
  | String c s' => if bool_decide (c = ","%char) || bool_decide (c = nl) then (EmptyString, s) else prod_map (String c) id (read_plain s')
  end.
Definition read_field (s : string) : option (string * string) :=
  match s with
  | String c s' => if bool_decide (c = quote) then read_quoted s' else Some (read_plain s)
  | EmptyString => Some (EmptyString, EmptyString)
  end.
(** A record of at most [width] fields, and a number of records. *)
Fixpoint read_record (width : nat) (s : string) : option (list string * string) :=
  match width with
  | O => None
  | S w =>
      '(x, rest) ← read_field s;
      match rest with
      | String c rest' =>
          if bool_decide (c = nl) then Some ([x], rest')
          else if bool_decide (c = ","%char) then prod_map (cons x) id <$> read_record w rest' else None
      | EmptyString => None
      end
  end.
Fixpoint read_records (n width : nat) (s : string) : option (list (list string)) :=
  match n with
  | O => match s with EmptyString => Some [] | _ => None end
  | S n' => '(x, rest) ← read_record width s; cons x <$> read_records n' width rest
  end.

Lemma read_double x rest : (∀ r, rest ≠ String quote r) → read_quoted (double_quotes x +:+ String quote rest) = Some (x, rest).
Proof.
  intros Hr. induction x as [|c x IH]; cbn [double_quotes].
  - rewrite str_app_nil_l. cbn [read_quoted]. rewrite bool_decide_true by done. destruct rest as [|d rest]; [done|].
    rewrite bool_decide_false; [done|]. intros ->. by apply (Hr rest).
  - case_bool_decide as Hc.
    + subst. rewrite !str_app_cons. cbn [read_quoted]. rewrite !bool_decide_true by done. by rewrite IH.
    + rewrite !str_app_cons. cbn [read_quoted]. rewrite bool_decide_false by done. by rewrite IH.
Qed.
Lemma read_plain_app x c rest : str_all (λ c, negb (special c)) x = true → c = ","%char ∨ c = nl →
  read_plain (x +:+ String c rest) = (x, String c rest).
Proof.
  intros Hx Hc. induction x as [|d x IH].
  - rewrite str_app_nil_l. cbn. by destruct Hc as [-> | ->].
  - cbn in Hx. apply andb_true_iff in Hx as [Hd Hx]. rewrite str_app_cons. cbn [read_plain]. rewrite IH by done.
    unfold special in Hd. rewrite negb_true_iff, bool_decide_eq_false in Hd. rewrite !bool_decide_false by (intros ->; apply Hd; set_solver). done.
Qed.
Lemma sep_not_quote c : c = ","%char ∨ c = nl → c ≠ quote.
Proof. by intros [-> | ->]. Qed.
Lemma read_escaped x c rest : c = ","%char ∨ c = nl → read_field (csv_escape_field x +:+ String c rest) = Some (x, String c rest).
Proof.
  intros Hc. unfold csv_escape_field. destruct (str_all _ x) eqn:Hx.
  - pose proof (read_plain_app x c rest Hx Hc) as Hp. unfold read_field.
    destruct x as [|d x]; [rewrite str_app_nil_l in *; rewrite bool_decide_false by (by apply sep_not_quote); by rewrite Hp|].
    rewrite str_app_cons in *. cbn in Hx. apply andb_true_iff in Hx as [Hd _]. unfold special in Hd. rewrite negb_true_iff, bool_decide_eq_false in Hd.
    rewrite bool_decide_false by (intros ->; apply Hd; set_solver). by rewrite Hp.
  - rewrite str_app_cons, str_app_assoc, str_app_cons, str_app_nil_l. cbn [read_field]. rewrite bool_decide_true by done.
    apply read_double. intros r [= ->]. by apply (sep_not_quote quote).
Qed.
Lemma read_record_ok width fs rest : fs ≠ [] → (length fs ≤ width)%nat →
  read_record width (join_with "," (csv_escape_field <$> fs) +:+ String nl rest) = Some (fs, rest).
Proof.
  intros Hne. revert width. induction fs as [|x [|y fs] IH]; intros width Hw; [done| |]; (destruct width as [|width]; [cbn in Hw; lia|]); cbn [read_record].
  - cbn [fmap list_fmap join_with]. rewrite read_escaped by auto. cbn [mbind option_bind]. by rewrite bool_decide_true.
  - change (join_with "," (csv_escape_field <$> x :: y :: fs)) with (csv_escape_field x +:+ String "," (join_with "," (csv_escape_field <$> y :: fs))).
    rewrite str_app_assoc, str_app_cons, read_escaped by auto. cbn [mbind option_bind]. rewrite bool_decide_false, bool_decide_true by done.
    rewrite IH by (done || cbn in *; lia). done.
Qed.
Lemma read_records_ok width (rows : list (list string)) : Forall (λ fs, fs ≠ [] ∧ length fs ≤ width)%nat rows →
  read_records (length rows) width (line_block ((λ fs, join_with "," (csv_escape_field <$> fs)) <$> rows)) = Some rows.
Proof.
  unfold line_block. induction 1 as [|fs rows [Hne Hw] _ IH]; [done|]. cbn [length read_records fmap list_fmap concat_str].
  rewrite str_app_assoc, str_app_cons, str_app_nil_l, read_record_ok by done. cbn [mbind option_bind]. by rewrite IH.
Qed.

(** ** The documents *)

Definition inventory_fields (states : gmap Z ascii) (w : DetectedAgentWatch) : list string :=
  let pid := a_pid (w_agent w) in let rss := mem_rss_bytes (w_resource w) in
  [show_u pid; a_family (w_agent w); a_comm (w_agent w); state_letter_for_pid states pid; show_u rss; format_rss_bytes show_ratio rss;
   show_fd (fd_count (w_resource w))].
Definition tree_fields (t : Tables) (root_index depth : Z) (n : AgentTreeNode) : list string :=
  let '(Tree pid ppid comm fam _) := n in let rss := default 0 (rss_by_pid t !! pid) in
  [show_u root_index; show_u depth; show_u pid; show_u ppid; default EmptyString fam; comm; state_letter_for_pid (state_by_pid t) pid; show_u rss;
   format_rss_bytes show_ratio rss; show_fd (fd_by_pid t !! pid)].
Fixpoint tree_records (t : Tables) (root_index depth : Z) (n : AgentTreeNode) : list (list string) :=
  tree_fields t root_index depth n :: match n with Tree _ _ _ _ children => concat (map (tree_records t root_index (depth + 1)) children) end.
(** State letters that need no quotes, as the kernel's are. *)
Definition plain_states (states : gmap Z ascii) : Prop := map_Forall (λ _ c, special c = false) states.

Lemma escape_plain s : str_all (λ c, negb (special c)) s = true → csv_escape_field s = s.
Proof. unfold csv_escape_field. by intros ->. Qed.
Lemma escape_show_u n : csv_escape_field (show_u n) = show_u n.
Proof.
  apply escape_plain. assert (H : ∀ c, has_char c (show_u n) = true → special c = false).
  { intros c Hc. destruct (special c) eqn:E; [|done]. unfold special in E. apply bool_decide_eq_true in E.
    assert (digit_val c = None) by (repeat (apply elem_of_cons in E as [->|E]; [done|]); by apply elem_of_nil in E).
    by rewrite has_char_show_u in Hc. }
  induction (show_u n) as [|c s IH]; [done|]. cbn. rewrite H by (cbn; by rewrite bool_decide_true). apply IH.
  intros d Hd. apply H. cbn. by rewrite Hd, orb_true_r.
Qed.
Lemma escape_fd fd : csv_escape_field (show_fd fd) = show_fd fd.
Proof. destruct fd; [apply escape_show_u|done]. Qed.
Lemma escape_state states pid : plain_states states → csv_escape_field (state_letter_for_pid states pid) = state_letter_for_pid states pid.
Proof.
  intros Hs. unfold state_letter_for_pid. destruct (states !! pid) as [c|] eqn:E; [|done]. apply escape_plain. cbn. by rewrite (Hs pid c E).
Qed.

(** A spreadsheet reads the CSV inventory back as its header and one record per row with the
    fields as they are, whatever commas, quotes and line ends a process puts into its name. *)
Theorem inventory_csv_reads_back states ws : plain_states states →
  read_records (S (length ws)) 7 (render_agent_inventory_csv states ws) = Some (INVENTORY_HEADER :: (inventory_fields states <$> ws)).
Proof.
  intros Hs. pose proof (read_records_ok 7 (INVENTORY_HEADER :: (inventory_fields states <$> ws))) as H. rewrite length_cons, length_fmap in H.
  rewrite <- H; [|constructor; [done|]; apply Forall_fmap, Forall_true; intros w; cbn; split; [done|lia]].
  unfold render_agent_inventory_csv. do 2 f_equal. cbn [fmap list_fmap]. f_equal. rewrite <- list_fmap_compose. apply list_fmap_ext. intros _ w _.
  unfold inventory_row, inventory_fields. cbn [compose fmap list_fmap]. by rewrite !escape_show_u, escape_fd, escape_state.
Qed.

(** Induction over a tree and its children. *)
Lemma tree_induction (P : AgentTreeNode → Prop) :
  (∀ pid ppid comm fam children, Forall P children → P (Tree pid ppid comm fam children)) → ∀ n, P n.
Proof.
  intros H. fix IH 1. intros [pid ppid comm fam children]. apply H. induction children as [|n l IHl]; constructor; [apply IH|exact IHl].
Qed.
Lemma tree_rows_records t : plain_states (state_by_pid t) → ∀ n i d,
  append_tree_csv_row t i d n = map (λ fs, join_with "," (csv_escape_field <$> fs)) (tree_records t i d n) ∧
  Forall (λ fs, fs ≠ [] ∧ length fs ≤ 10)%nat (tree_records t i d n).
Proof.
  intros Hs n. induction n as [pid ppid comm fam children IH] using tree_induction. intros i d. cbn [append_tree_csv_row tree_records map].
  assert (Hch : concat (map (append_tree_csv_row t i (d + 1)) children)
      = map (λ fs, join_with "," (csv_escape_field <$> fs)) (concat (map (tree_records t i (d + 1)) children)) ∧
    Forall (λ fs, fs ≠ [] ∧ length fs ≤ 10)%nat (concat (map (tree_records t i (d + 1)) children))).
  { induction IH as [|n l Hn _ IHl]; [done|]. cbn. destruct (Hn i (d + 1)) as [-> Hn']. destruct IHl as [-> Hl].
    rewrite map_app. split; [done|by apply Forall_app]. }
  destruct Hch as [-> Hrest]. split; [f_equal|constructor; [cbn; split; [done|lia]|done]].
  unfold tree_row, tree_fields. cbn [fmap list_fmap]. rewrite !escape_show_u, escape_fd, escape_state by done. by destruct fam.
Qed.

(** So does the CSV of the tree: one record per process in the order of the walk, each with the
    number of its root and its depth. *)
Theorem tree_csv_reads_back t forests : plain_states (state_by_pid t) →
  let records := concat (imap (λ i n, tree_records t (Z.of_nat i) 0 n) forests) in
  read_records (S (length records)) 10 (render_agent_tree_csv t forests) = Some (TREE_HEADER :: records).
Proof.
  intros Hs records. pose proof (read_records_ok 10 (TREE_HEADER :: records)) as H. cbn [length] in H. rewrite <- H.
  - unfold render_agent_tree_csv. do 2 f_equal. cbn [fmap list_fmap]. f_equal. unfold records.
    change (list_fmap ?A ?B ?g) with (@map A B g). rewrite concat_map. f_equal. change (map ?g (imap ?k ?l)) with (g <$> imap k l).
    rewrite fmap_imap. apply imap_ext. intros i n _. by apply tree_rows_records.
  - constructor; [by split; [|cbn; lia]|]. unfold records. clear H records. apply Forall_concat, Forall_forall.
    intros l (i & n & -> & _)%elem_of_lookup_imap. by apply tree_rows_records.
Qed.
End csv.

(** * The same agents in both listings *)

(** The tables of the tree's output: the states are looked up again, for the processes of the trees shown. *)
Definition tree_tables (procs : list ProcSnapshot) (t : Tables) (ns : list AgentTreeNode) : Tables :=
  mkTables (rss_by_pid t) (fd_by_pid t) (ppid_by_pid t) (cmdline_by_pid t) (build_forest_state_map procs ns).
(** The record a row of the flat listing has as the [i]th root of the tree: the number of the root, depth 0,
    the pid, the parent, the other columns of the flat record, and the descriptors, [0] where the flat
    record leaves the column empty. *)
Definition root_record (show_ratio : nat → Z → Z → string) (t : Tables) (i : nat) (w : DetectedAgentWatch) : list string :=
  let flat := inventory_fields show_ratio (state_by_pid t) w in
  [show_u (Z.of_nat i); show_u 0] ++ take 1 flat ++ [show_u (default 0 (ppid_by_pid t !! a_pid (w_agent w)))] ++
  take 5 (drop 1 flat) ++ [show_u (default 0 (fd_count (w_resource w)))].

Lemma imap_pointwise {A B C} (g : nat → A → C) (h : nat → B → C) l k :
  Forall2 (λ x y, ∀ i, g i x = h i y) l k → imap g l = imap h k.
Proof.
  intros H. revert k g h H. induction l as [|x l IH]; intros k g h H; inversion H as [|? y ? k' Hxy Hlk]; subst; [done|]. cbn.
  rewrite (Hxy O). f_equal. apply IH. eapply Forall2_impl; [exact Hlk|]. intros a b Hab i. apply Hab.
Qed.
Lemma flat_listing_subset {F} (cpu : Z → F) f_le age f s limit t ws w : w ∈ flat_listing cpu f_le age f s limit t ws → w ∈ ws.
Proof.
  unfold flat_listing, filter_watched_agents. assert (Hl : ∀ l : list DetectedAgentWatch, w ∈ limit_list limit l → w ∈ l).
  { intros l. destruct limit; [|done]. cbn. by intros (i & Hi & _)%elem_of_take; eapply list_elem_of_lookup_2. }
  intros H%Hl. assert (Hf : w ∈ (if negb (active f) then ws else filter (λ x, agent_row_matches_filter f t x = true) ws)).
  { destruct s; [by rewrite <- sort_by_perm|done]. }
  destruct (negb (active f)); [done|]. by apply list_elem_of_filter in Hf as [_ ?].
Qed.

Section same_agents.
Context {F : Type} (cpu_percent : Z → F) (f_le : F → F → bool) (age_secs : Z → Z) (show_ratio : nat → Z → Z → string).
Context (rt : list RuntimePattern) (pid_rss pid_fds : Z → option Z) (procs : list ProcSnapshot) (Hnd : NoDup (p_pid <$> procs)).
Context (Hsampled : Forall (λ a, is_Some (pid_rss (a_pid a))) (scan_agents rt procs)).
#[local] Notation m := (by_pid procs).
#[local] Notation T := (host_tables rt pid_rss pid_fds procs).

Lemma fd_of_row w : w ∈ watched_all rt pid_rss pid_fds procs → fd_by_pid T !! a_pid (w_agent w) = Some (default 0 (fd_count (w_resource w))).
Proof.
  unfold host_tables, fd_map_from_watched. cbn [fd_by_pid]. rewrite (watched_rows _ _ _ _ Hsampled). intros Hw.
  apply (foldl_insert_lookup (λ w, a_pid (w_agent w)) (λ w, default 0 (fd_count (w_resource w)))); [by apply rows_nodup|done].
Qed.
(** The states of the trees shown are those of the table of agents. *)
Lemma state_of_row ns pid : pid ∈ a_pid <$> scan_agents rt procs → pid ∈ collect_forest_pids ns →
  build_forest_state_map procs ns !! pid = state_by_pid T !! pid.
Proof.
  intros Ha Hns. assert (Hp : ∃ p, lookup_proc procs pid = Some p).
  { apply list_elem_of_fmap in Ha as (a & -> & Ha). destruct (agent_row rt procs Hnd a Ha) as (p & _ & Hp & _). eauto. }
  destruct Hp as [p Hp]. transitivity (Some (p_state p)); [|symmetry]; by apply (lookup_map_in procs p_state _ pid p).
Qed.
Lemma root_in_forest ns pid ppid comm fam children : Tree pid ppid comm fam children ∈ ns → pid ∈ collect_forest_pids ns.
Proof.
  intros Hn. unfold collect_forest_pids. apply list_elem_of_In, in_concat. exists (tree_pids (Tree pid ppid comm fam children)).
  split; [by apply in_map, list_elem_of_In|by left].
Qed.
Lemma root_of_row_fields ns n w i : n ∈ ns → w ∈ watched_all rt pid_rss pid_fds procs → view_of_root T n = view_of_row T w →
  tree_fields show_ratio (tree_tables procs T ns) (Z.of_nat i) 0 n = root_record show_ratio T i w.
Proof.
  destruct n as [pid ppid comm fam children]. intros Hn%root_in_forest Hw Hv. pose proof (fd_of_row w Hw) as Hfd.
  assert (Ha : a_pid (w_agent w) ∈ a_pid <$> scan_agents rt procs).
  { rewrite (watched_rows _ _ _ _ Hsampled) in Hw. apply list_elem_of_fmap in Hw as (a & -> & Ha). by apply list_elem_of_fmap_2. }
  unfold view_of_root, view_of_row in Hv. injection Hv as -> -> -> _ _ Hrss _ ->.
  change (default 0 (rss_by_pid T !! a_pid (w_agent w)) = mem_rss_bytes (w_resource w)) in Hrss.
  unfold tree_fields, root_record, inventory_fields, tree_tables, state_letter_for_pid. cbn [rss_by_pid fd_by_pid state_by_pid].
  by rewrite Hrss, Hfd, state_of_row.
Qed.

(** C35: on a host where every agent is sampled, none was started directly by another and the table has no
    cycle, [--tree] ends and its roots are the agents of the flat listing, in the same order, whatever filter,
    order and limit are asked for, though each listing has its own filter and comparator over its own data.
    The record of a root has the pid, family, name, state and memory of the flat record; the descriptors are
    those of the flat record, and where it leaves the column empty the tree says [0]. *)
Theorem tree_and_flat_agree f s limit : (∀ x y, agent_at rt m x → parent m x y → ¬ agent_at rt m y) → (∀ x, ¬ tc (parent m) x x) →
  ∃ ns, render_tree cpu_percent f_le age_secs rt pid_rss pid_fds procs (S (size m)) f s limit = Some ns ∧
    imap (λ i n, tree_fields show_ratio (tree_tables procs T ns) (Z.of_nat i) 0 n) ns
    = imap (root_record show_ratio T) (render_flat cpu_percent f_le age_secs rt pid_rss pid_fds procs f s limit).
Proof.
  intros Hflat Hac.
  destruct (tree_flat_views cpu_percent f_le age_secs rt pid_rss pid_fds procs Hnd Hsampled Hflat f s limit Hac) as (ns & Hns & Hv).
  exists ns. split; [done|]. apply imap_pointwise, Forall2_same_length_lookup. split; [by apply (f_equal length) in Hv; rewrite !length_fmap in Hv|].
  intros k n w Hn Hw i. apply root_of_row_fields.
  - by eapply list_elem_of_lookup_2.
  - eapply flat_listing_subset, list_elem_of_lookup_2, Hw.
  - apply (f_equal (lookup k)) in Hv. rewrite !list_lookup_fmap, Hn, Hw in Hv. by injection Hv.
Qed.
End same_agents.

(** The line under a listing that speaks of processes gone before they were sampled. *)
Definition omitted_note (scanned shown : nat) : option Z :=
  if (shown <? scanned)%nat then Some (Z.of_nat (scanned - shown)) else None.

(** * Two agents *)

Definition no_filter : ProcFilter := mkFilter None None None None None None None None None None.
Definition demo_rss (pid : Z) : option Z := Some (pid * 1000).
Definition demo_rows : list DetectedAgentWatch := watched_all [] demo_rss (λ _, None) nested_host.

Lemma nested_flat : ∀ x y, agent_at [] (by_pid nested_host) x → parent (by_pid nested_host) x y → ¬ agent_at [] (by_pid nested_host) y.
Proof.
  assert (Hnd : NoDup (p_pid <$> nested_host)) by (apply (bool_decide_unpack _); by vm_compute).
  intros x y (p & Hp & Hf) (p' & Hp' & <-) (q & Hq & Hfq). rewrite Hp in Hp'. injection Hp' as <-. apply by_pid_lookup in Hp as [Hp _]; [|done].
  repeat (apply elem_of_cons in Hp as [->|Hp]; [vm_compute in Hf, Hq; destruct Hf, Hfq; simplify_eq; vm_compute in *; simplify_eq|]). by apply elem_of_nil in Hp.
Qed.
(** Only agent 10 has a descriptor count. *)
Definition demo_fds (pid : Z) : option Z := if pid =? 10 then Some 3 else None.
Definition two_shown : list (list string) :=
  [["0"; "0"; "12"; "11"; "codex"; "codex"; "R"; "12000"; "11K"; "0"]; ["1"; "0"; "10"; "1"; "claude"; "claude"; "S"; "10000"; "9K"; "3"]].
Lemma tree_and_flat_agree_witness :
  ∃ ns, render_tree (λ _, 0) Z.leb (λ _, 0) [] demo_rss demo_fds nested_host 5 no_filter (Some SortRss) None = Some ns ∧
    imap (λ i n, tree_fields (λ _ _ _, EmptyString) (tree_tables nested_host (host_tables [] demo_rss demo_fds nested_host) ns) (Z.of_nat i) 0 n) ns = two_shown.
Proof.
  destruct (tree_and_flat_agree (λ _, 0) Z.leb (λ _, 0) (λ _ _ _, EmptyString) [] demo_rss demo_fds nested_host)
    with (f := no_filter) (s := Some SortRss) (limit := @None Z) as (ns & Hns & Hv).
  - apply (bool_decide_unpack _). by vm_compute.
  - apply Forall_true. by intros a.
  - exact nested_flat.
  - apply ordered_acyclic. apply (bool_decide_unpack _). by vm_compute.
  - exists ns. split; [exact Hns|]. rewrite Hv. by vm_compute.
Defined.
(** The flat CSV leaves the descriptors of agent 12 empty, where the tree's says 0. *)
Example missing_fd_empty_or_zero :
  (λ w, inventory_fields (λ _ _ _, EmptyString) (state_by_pid (host_tables [] demo_rss demo_fds nested_host)) w !! 6%nat)
    <$> render_flat (λ _, 0) Z.leb (λ _, 0) [] demo_rss demo_fds nested_host no_filter (Some SortRss) None = [Some EmptyString; Some "3"].
Proof. by vm_compute. Qed.
Lemma sorted_listing_fixed_witness :
  let t := host_tables [] demo_rss (λ _, None) nested_host in
  StronglySorted (λ a b, view_le (λ _, 0) Z.leb (λ _, 0) SortName (view_of_row t a) (view_of_row t b) = true)
    (sort_watched_agents (λ _, 0) Z.leb (λ _, 0) SortName t demo_rows).
Proof.
  intros t. apply (sorted_listing_fixed (λ _, 0) Z.leb (λ _, 0)) with (ws' := demo_rows); [lia..| |done].
  apply (bool_decide_unpack _). by vm_compute.
Defined.
Lemma from_cli_accepted_witness :
  ∃ f, from_cli (λ _ _, None) (Some "claude") None None None (Some "r") (Some "10") (Some "20") None None None = Ok f ∧ accepted f ∧ f_state f = Some "R"%char.
Proof.
  eexists. split; [by vm_compute|]. split; [|done].
  eapply (proj1 (from_cli_accepted (λ _ _, None) (Some "claude") None None None (Some "r") (Some "10") (Some "20") None None None _ _)).
  Unshelve. by vm_compute.
Defined.
Definition odd_row : DetectedAgentWatch := mkWatch (mkAgent 7 "claude" (String quote ("a,b" +:+ String nl "c"))) (mkSample 2048 None).
Lemma inventory_csv_reads_back_witness :
  read_records 2 7 (render_agent_inventory_csv (λ _ _ _, EmptyString) {[7 := "S"%char]} [odd_row])
  = Some [INVENTORY_HEADER; ["7"; "claude"; String quote ("a,b" +:+ String nl "c"); "S"; "2048"; "2K"; EmptyString]].
Proof.
  etransitivity; [apply (inventory_csv_reads_back (λ _ _ _, EmptyString) {[7 := "S"%char]} [odd_row])|by vm_compute].
  by apply map_Forall_singleton.
Defined.
Lemma tree_csv_reads_back_witness :
  read_records 3 10 (render_agent_tree_csv (λ _ _ _, EmptyString) (mkTables ∅ ∅ ∅ ∅ ∅) [Tree 10 1 "claude" (Some "claude") [Tree 11 10 "a,b" None []]])
  = Some [TREE_HEADER; ["0"; "0"; "10"; "1"; "claude"; "claude"; EmptyString; "0"; "0K"; EmptyString];
          ["0"; "1"; "11"; "10"; EmptyString; "a,b"; EmptyString; "0"; "0K"; EmptyString]].
Proof.
  etransitivity; [apply (tree_csv_reads_back (λ _ _ _, EmptyString) (mkTables ∅ ∅ ∅ ∅ ∅) [Tree 10 1 "claude" (Some "claude") [Tree 11 10 "a,b" None []]])|by vm_compute].
  apply map_Forall_empty.
Defined.

(** A process whose age is not known is listed first, before the oldest. *)
Example unknown_age_first :
  (λ w, a_pid (w_agent w)) <$> render_flat (λ _, 0) Z.leb (λ pid, if pid =? 12 then u64_max else 60) [] demo_rss (λ _, None) nested_host no_filter (Some SortAge) None
  = [12; 10].
Proof. by vm_compute. Qed.
(** Both agents were sampled, and the listing of one of them says that the other has exited. *)
Example limit_called_exit :
  length demo_rows = length (scanned_agents [] nested_host) ∧
  omitted_note (length (scanned_agents [] nested_host))
    (length (render_flat (λ _, 0) Z.leb (λ _, 0) [] demo_rss (λ _, None) nested_host no_filter None (Some 1))) = Some 1.
Proof. by vm_compute. Qed.
