(* ===== verification/Utilities.v ===== *)
(** The stand-alone modules of [src/src]: graph search, the caches with an expiry and with a capacity,
    binary search, the event coalescer, the task scheduler, retries, flat configuration files and
    their merge, compose files, data directories and SMTP replies.  The clock is an argument. *)
From S2P Require Import Prelude.

(** * Graphs ([graph.rs]) *)

Notation Graph := (gmap Z (list (Z * Z))).
Definition graph_new : Graph := ∅.
Definition add_node (n : Z) (g : Graph) : Graph := <[n := default [] (g !! n)]> g.
Definition add_edge (from to weight : Z) (g : Graph) : Graph :=
  add_node to (<[from := default [] (g !! from) ++ [(to, weight)]]> g).
Definition neighbors (n : Z) (g : Graph) : list Z := (default [] (g !! n)).*1.
Definition nodes (g : Graph) : nat := size g.

(** One round of the inner loop of [bfs]. *)
Definition visit (st : gset Z * list Z) (next : Z) : gset Z * list Z :=
  if bool_decide (next ∈ st.1) then st else ({[next]} ∪ st.1, st.2 ++ [next]).
Inductive Crash : Type := NoSuchNode | OutOfFuel.
(** The outer loop; [&self.adj[&n]] panics for a number that is no node. *)
Fixpoint bfs_loop (fuel : nat) (g : Graph) (visited : gset Z) (queue order : list Z) : result (list Z) Crash :=
  match fuel with
  | O => Err OutOfFuel
  | S fuel =>
      match queue with
      | [] => Ok order
      | n :: queue' =>
          match g !! n with
          | None => Err NoSuchNode
          | Some es => let '(visited', queue'') := foldl visit (visited, queue') es.*1 in bfs_loop fuel g visited' queue'' (order ++ [n])
          end
      end
  end.
(** Every round takes a node off the queue that is never queued again. *)
Definition bfs (g : Graph) (start : Z) : result (list Z) Crash := bfs_loop (S (S (nodes g))) g {[start]} [start] [].

Definition edge (g : Graph) (x y : Z) : Prop := ∃ es, g !! x = Some es ∧ y ∈ es.*1.
(** What [add_node] and [add_edge] keep: an edge leads to a node. *)
Definition closed (g : Graph) : Prop := ∀ x y, edge g x y → is_Some (g !! y).

Lemma edge_add_node n g x y : edge (add_node n g) x y ↔ edge g x y.
Proof.
  unfold edge, add_node. split; intros (es & Hx & Hy).
  - apply lookup_insert_Some in Hx as [[<- <-]|[_ Hx]]; [|by eauto]. destruct (g !! n) as [es|]; cbn in Hy; [by eauto|set_solver].
  - destruct (decide (n = x)) as [->|Hne]; [exists es; by rewrite Hx, lookup_insert_eq|exists es; by rewrite lookup_insert_ne].
Qed.
Lemma add_node_in n g x : is_Some (add_node n g !! x) ↔ x = n ∨ is_Some (g !! x).
Proof. unfold add_node. rewrite lookup_insert_is_Some. destruct (decide (n = x)); naive_solver. Qed.
Lemma add_node_closed n g : closed g → closed (add_node n g).
Proof. intros Hg x y Hxy%edge_add_node. apply add_node_in. right. by eapply Hg. Qed.
Lemma add_edge_closed a b w g : closed g → closed (add_edge a b w g).
Proof.
  intros Hg x y Hxy. unfold add_edge in *. apply edge_add_node in Hxy. apply add_node_in. destruct Hxy as (es & Hx & Hy).
  apply lookup_insert_Some in Hx as [[<- <-]|[Hne Hx]].
  - rewrite fmap_app, elem_of_app in Hy. destruct Hy as [Hy|Hy]; [|cbn in Hy; left; set_solver]. right. rewrite lookup_insert_is_Some'.
    right. destruct (g !! a) as [es|] eqn:E; cbn in Hy; [|set_solver]. eapply (Hg a). exists es. done.
  - right. rewrite lookup_insert_is_Some'. right. eapply Hg. by exists es.
Qed.

(** The inner loop adds the neighbours not seen before, each once. *)
Lemma visit_spec es v q : let '(v', q') := foldl visit (v, q) es in
  ∃ new, q' = q ++ new ∧ NoDup new ∧ (∀ x, x ∈ new ↔ x ∈ es ∧ x ∉ v) ∧ v' = v ∪ list_to_set new.
Proof.
  revert v q. induction es as [|e es IH]; intros v q; cbn [foldl].
  { exists []. rewrite app_nil_r. split_and!; [done|constructor|set_solver|set_solver]. }
  unfold visit at 2. cbn. case_bool_decide as He.
  - specialize (IH v q). destruct (foldl visit (v, q) es) as [v' q']. destruct IH as (new & -> & Hnd & Hin & ->). exists new. set_solver.
  - specialize (IH ({[e]} ∪ v) (q ++ [e])). destruct (foldl visit _ es) as [v' q']. destruct IH as (new & -> & Hnd & Hin & ->).
    exists (e :: new). rewrite <- app_assoc. split_and!; [done|constructor; [set_solver|done]| |cbn; set_solver].
    intros x. rewrite !elem_of_cons, Hin, not_elem_of_union, not_elem_of_singleton. destruct (decide (x = e)) as [->|]; naive_solver.
Qed.

(** Between rounds: what is in order or queued is visited, once, and reachable; what is in order has
    its successors visited. *)
Record bfs_inv (g : Graph) (start : Z) (v : gset Z) (q order : list Z) : Prop := {
  inv_nodup : NoDup (order ++ q);
  inv_visited : ∀ x, x ∈ v ↔ x ∈ order ++ q;
  inv_start : start ∈ v;
  inv_reach : ∀ x, x ∈ v → rtc (edge g) start x;
  inv_nodes : ∀ x, x ∈ v → is_Some (g !! x);
  inv_done : ∀ x y, x ∈ order → edge g x y → y ∈ v }.

Lemma bfs_loop_ok g start : closed g → ∀ fuel v q order, bfs_inv g start v q order → (nodes g < fuel + length order)%nat →
  ∃ out, bfs_loop fuel g v q order = Ok out ∧ NoDup out ∧ ∀ x, x ∈ out ↔ rtc (edge g) start x.
Proof.
  intros Hc. induction fuel as [|fuel IH]; intros v q order Hinv Hf.
  { destruct Hinv as [Hnd Hv Hs Hr Hn Hd]. exfalso. assert (length order ≤ nodes g)%nat; [|lia].
    apply NoDup_app in Hnd as (Hnd & _ & _). unfold nodes. rewrite <- size_dom, <- (size_list_to_set (C:=gset Z)) by done. apply subseteq_size.
    intros x Hx%elem_of_list_to_set. apply elem_of_dom, Hn, Hv. set_solver. }
  cbn [bfs_loop]. destruct q as [|n q].
  - destruct Hinv as [Hnd Hv Hs Hr Hn Hd]. rewrite app_nil_r in *. exists order. split_and!; [done|done|]. intros x. split; [by intros ?%Hv%Hr|].
    assert (Hcl : ∀ y z, rtc (edge g) y z → y ∈ order → z ∈ order); [|intros Hx; eapply Hcl; [exact Hx|by apply Hv]].
    induction 1 as [|y w z Hyw _ IHr]; [done|]. intros Hy. by apply IHr, Hv, (Hd y).
  - destruct Hinv as [Hnd Hv Hs Hr Hn Hd]. destruct (Hn n) as [es Hes]; [apply Hv; set_solver|]. rewrite Hes.
    pose proof (visit_spec es.*1 v q) as Hvis. destruct (foldl visit (v, q) es.*1) as [v' q']. destruct Hvis as (new & -> & Hndn & Hin & ->).
    assert (Hedge : ∀ x, x ∈ new → edge g n x) by (intros x [Hx _]%Hin; by exists es).
    apply IH; [|rewrite length_app; cbn; lia]. split.
    + rewrite (app_assoc (order ++ [n])), <- (app_assoc order [n] q). apply NoDup_app. split_and!; [done| |done].
      intros x Hx Hx'. apply Hin in Hx' as [_ Hx']. by apply Hx', Hv.
    + intros x. rewrite elem_of_union, Hv, elem_of_list_to_set, !elem_of_app, elem_of_cons, list_elem_of_singleton. tauto.
    + set_solver.
    + intros x [Hx|Hx%elem_of_list_to_set]%elem_of_union; [by apply Hr|]. eapply rtc_r; [apply Hr, Hv|by apply Hedge]. set_solver.
    + intros x [Hx|Hx%elem_of_list_to_set]%elem_of_union; [by apply Hn|]. eapply Hc. by apply Hedge.
    + intros x y [Hx| ->%list_elem_of_singleton]%elem_of_app Hxy; [apply elem_of_union_l; by eapply Hd|].
      destruct Hxy as (es' & Hes' & Hy). rewrite Hes in Hes'. injection Hes' as <-. rewrite elem_of_union, elem_of_list_to_set.
      destruct (decide (y ∈ v)); [by left|right; by apply Hin].
Qed.

(** On a graph built from nodes and edges the search from a node ends, and its order lists
    exactly the nodes reachable from there, each once. *)
Theorem bfs_visits_reachable g start : closed g → is_Some (g !! start) →
  ∃ out, bfs g start = Ok out ∧ NoDup out ∧ ∀ x, x ∈ out ↔ rtc (edge g) start x.
Proof.
  intros Hc Hs. apply (bfs_loop_ok g start Hc); [|cbn; lia]. split; cbn.
  - apply NoDup_singleton.
  - set_solver.
  - set_solver.
  - intros x ->%elem_of_singleton. apply rtc_refl.
  - by intros x ->%elem_of_singleton.
  - set_solver.
Qed.
(** The search from a number that is no node panics. *)
Lemma bfs_unknown_start g start : g !! start = None → bfs g start = Err NoSuchNode.
Proof. intros Hs. unfold bfs. cbn. by rewrite Hs. Qed.

Definition demo_graph : Graph := add_edge 3 1 1 (add_edge 2 3 1 (add_edge 1 2 5 (add_node 9 graph_new))).
Lemma demo_closed : closed demo_graph.
Proof. do 3 apply add_edge_closed. apply add_node_closed. by intros x y (es & Hx & _). Qed.
Lemma bfs_visits_reachable_witness : ∃ out, bfs demo_graph 2 = Ok out ∧ out = [2; 3; 1] ∧ ¬ rtc (edge demo_graph) 2 9.
Proof.
  destruct (bfs_visits_reachable demo_graph 2 demo_closed) as (out & Ho & _ & Hin); [by vm_compute; eauto|].
  exists out. assert (Hout : bfs demo_graph 2 = Ok [2; 3; 1]) by (by vm_compute). rewrite Hout in Ho. injection Ho as <-.
  split_and!; [done|done|]. rewrite <- Hin. apply (bool_decide_unpack _). by vm_compute.
Defined.

(** * A cache with a capacity ([speculative_cache.rs]) *)

Section lru.
Context `{Countable K} {V : Type}.

Record SpeculativeCache : Type := mkSpec { sc_map : gmap K V; access_order : list K; capacity : nat }.
(** [new] panics for a capacity of zero. *)
Definition sc_new (cap : nat) : option SpeculativeCache := if (0 <? cap)%nat then Some (mkSpec ∅ [] cap) else None.
Definition touch (k : K) (order : list K) : list K := filter (λ x, x ≠ k) order ++ [k].
(** [get] takes one lock for the value and then the other for the order. *)
Definition get_value (k : K) (c : SpeculativeCache) : option V := sc_map c !! k.
Definition get_touch (k : K) (c : SpeculativeCache) : SpeculativeCache := mkSpec (sc_map c) (touch k (access_order c)) (capacity c).
Definition sc_get (k : K) (c : SpeculativeCache) : SpeculativeCache * option V :=
  match get_value k c with Some v => (get_touch k c, Some v) | None => (c, None) end.
(** The loop of [insert]; it stops when nothing is left to evict. *)
Fixpoint evict_loop (cap : nat) (m : gmap K V) (order : list K) : gmap K V * list K :=
  if (size m <=? cap)%nat then (m, order)
  else match order with [] => (m, []) | oldest :: order' => evict_loop cap (delete oldest m) order' end.
Definition sc_insert (k : K) (v : V) (c : SpeculativeCache) : SpeculativeCache * option V :=
  let prev := sc_map c !! k in
  let order := match prev with None => access_order c ++ [k] | Some _ => touch k (access_order c) end in
  let '(m, o) := evict_loop (capacity c) (<[k := v]> (sc_map c)) order in (mkSpec m o (capacity c), prev).
Definition evict_lru (c : SpeculativeCache) : SpeculativeCache * option (K * V) :=
  match access_order c with
  | [] => (c, None)
  | oldest :: order' => (mkSpec (delete oldest (sc_map c)) order' (capacity c), pair oldest <$> sc_map c !! oldest)
  end.
Definition sc_len (c : SpeculativeCache) : nat := size (sc_map c).
(** [speculative_prefetch]: the keys after a key, as far as they are known. *)
Fixpoint prefetch (ahead : nat) (next_key : K → option K) (fetcher : K → option V) (current : option K) (c : SpeculativeCache) : SpeculativeCache :=
  match ahead, current with
  | S ahead', Some k =>
      prefetch ahead' next_key fetcher (next_key k) (match fetcher k with Some v => (sc_insert k v c).1 | None => c end)
  | _, _ => c
  end.

(** ** The list it implements *)

Inductive CacheOp : Type := OpGet (k : K) | OpInsert (k : K) (v : V) | OpEvict.
Inductive CacheAns : Type := AnsValue (o : option V) | AnsEntry (o : option (K * V)).
Definition cache_step (op : CacheOp) (c : SpeculativeCache) : SpeculativeCache * CacheAns :=
  match op with
  | OpGet k => prod_map id AnsValue (sc_get k c)
  | OpInsert k v => prod_map id AnsValue (sc_insert k v c)
  | OpEvict => prod_map id AnsEntry (evict_lru c)
  end.
(** The entries, the one not used for longest first. *)
Definition drop_key (k : K) (l : list (K * V)) : list (K * V) := filter (λ kv, kv.1 ≠ k) l.
Definition assoc (k : K) (l : list (K * V)) : option V := (list_to_map l : gmap K V) !! k.
Definition list_step (cap : nat) (op : CacheOp) (l : list (K * V)) : list (K * V) * CacheAns :=
  match op with
  | OpGet k => match assoc k l with Some v => (drop_key k l ++ [(k, v)], AnsValue (Some v)) | None => (l, AnsValue None) end
  | OpInsert k v => let l' := drop_key k l ++ [(k, v)] in (drop (length l' - cap) l', AnsValue (assoc k l))
  | OpEvict => (tail l, AnsEntry (head l))
  end.
Fixpoint run_ops {S} (step : CacheOp → S → S * CacheAns) (ops : list CacheOp) (s : S) : S * list CacheAns :=
  match ops with [] => (s, []) | op :: ops' => let '(s1, a) := step op s in let '(s2, r) := run_ops step ops' s1 in (s2, a :: r) end.

Definition refines (c : SpeculativeCache) (l : list (K * V)) : Prop :=
  access_order c = l.*1 ∧ NoDup l.*1 ∧ sc_map c = list_to_map l ∧ (length l ≤ capacity c)%nat.

Lemma drop_key_keys k l : (drop_key k l).*1 = filter (λ x, x ≠ k) l.*1.
Proof. unfold drop_key. induction l as [|[k' v] l IH]; [done|]. rewrite fmap_cons, !filter_cons. cbn. case_decide; cbn; by rewrite IH. Qed.
Lemma drop_key_gone k l : k ∉ (drop_key k l).*1.
Proof. rewrite drop_key_keys. by intros [? _]%list_elem_of_filter. Qed.
Lemma drop_key_map k l : (list_to_map (drop_key k l) : gmap K V) = delete k (list_to_map l).
Proof.
  unfold drop_key. induction l as [|[k' v] l IH]; [symmetry; apply delete_empty|]. rewrite filter_cons. cbn. case_decide as Hk; cbn; rewrite IH.
  - by rewrite delete_insert_ne.
  - destruct (decide (k' = k)) as [->|]; [by rewrite delete_insert_eq|done].
Qed.
Lemma drop_key_fresh k l : k ∉ l.*1 → drop_key k l = l.
Proof. intros Hk. apply filter_all, Forall_forall. intros [k' v] Hin. cbn. intros ->. apply Hk, list_elem_of_fmap. by exists (k, v). Qed.
Lemma drop_key_nodup k l v : NoDup l.*1 → NoDup (drop_key k l ++ [(k, v)]).*1 ∧ (length (drop_key k l) ≤ length l)%nat.
Proof.
  intros Hnd. rewrite fmap_app, drop_key_keys. split; [|apply length_filter]. apply NoDup_app. split_and!; [by apply NoDup_filter| |apply NoDup_singleton].
  intros x [Hx _]%list_elem_of_filter. cbn. set_solver.
Qed.
Lemma drop_key_length k l v : NoDup l.*1 → assoc k l = Some v → S (length (drop_key k l)) = length l.
Proof.
  unfold assoc. induction l as [|[k' v'] l IH]; [done|]. rewrite fmap_cons. intros [Hk' Hnd]%NoDup_cons. unfold drop_key. rewrite filter_cons.
  cbn [fst list_to_map foldr uncurry]. destruct (decide (k' = k)) as [->|Hne].
  - intros _. rewrite decide_False by tauto. fold (drop_key k l). by rewrite drop_key_fresh.
  - rewrite decide_True by done. fold (drop_key k l). rewrite lookup_insert_ne by done. intros Hv. cbn. by rewrite IH.
Qed.

Lemma evict_loop_list cap l : NoDup l.*1 → evict_loop cap (list_to_map l) l.*1 = (list_to_map (drop (length l - cap) l), (drop (length l - cap) l).*1).
Proof.
  induction l as [|[k v] l IH]; intros Hnd; cbn [fmap list_fmap evict_loop fst].
  { rewrite (map_size_list_to_map (M:=gmap K)) by constructor. done. }
  rewrite (map_size_list_to_map (M:=gmap K)) by done. apply NoDup_cons in Hnd as [Hk Hnd]. cbn [length].
  destruct (Nat.leb_spec (S (length l)) cap) as [Hle|Hgt].
  - by replace (S (length l) - cap)%nat with 0%nat by lia.
  - replace (S (length l) - cap)%nat with (S (length l - cap)) by lia. cbn [drop]. rewrite <- IH by done. f_equal. cbn.
    rewrite delete_insert_id; [done|]. by apply not_elem_of_list_to_map_1.
Qed.

Lemma cache_step_refines op c l : refines c l →
  refines (cache_step op c).1 (list_step (capacity c) op l).1 ∧ (cache_step op c).2 = (list_step (capacity c) op l).2 ∧ capacity (cache_step op c).1 = capacity c.
Proof.
  intros (Ho & Hnd & Hm & Hc). destruct op as [k|k v|]; cbn.
  - unfold sc_get, get_value, assoc. rewrite Hm. destruct (list_to_map l !! k) as [v|] eqn:E; [|done]. cbn. split_and!; try done.
    unfold refines, get_touch, touch. cbn. rewrite Ho. destruct (drop_key_nodup k l v Hnd) as [Hnd' _]. pose proof (drop_key_length k l v Hnd E) as Hlen.
    split_and!; [by rewrite fmap_app, drop_key_keys|done| |rewrite length_app; cbn; lia].
    rewrite list_to_map_snoc; [|apply drop_key_gone]. rewrite drop_key_map, insert_delete_eq, Hm. symmetry. by apply insert_id.
  - unfold sc_insert, assoc. rewrite Hm. destruct (drop_key_nodup k l v Hnd) as [Hnd' Hlen].
    assert (Hord : match (list_to_map l : gmap K V) !! k with None => access_order c ++ [k] | Some _ => touch k (access_order c) end = (drop_key k l ++ [(k, v)]).*1).
    { rewrite fmap_app, Ho. destruct (list_to_map l !! k) eqn:E; [by rewrite drop_key_keys|]. rewrite drop_key_fresh; [done|].
      by apply not_elem_of_list_to_map_2 in E. }
    assert (Hins : <[k := v]> (list_to_map l) = (list_to_map (drop_key k l ++ [(k, v)]) : gmap K V)).
    { rewrite list_to_map_snoc; [|apply drop_key_gone]. by rewrite drop_key_map, insert_delete_eq. }
    rewrite Hord, Hins, evict_loop_list by done. cbn. split_and!; try done. unfold refines. cbn. split_and!; try done.
    + rewrite fmap_drop. eapply sublist_NoDup; [exact Hnd'|apply sublist_drop].
    + rewrite length_drop. lia.
  - unfold evict_lru. rewrite Ho. destruct l as [|[k v] l]; [done|]. cbn. rewrite Hm. cbn. rewrite lookup_insert_eq. split_and!; try done.
    apply NoDup_cons in Hnd as [Hk Hnd]. unfold refines. cbn. split_and!; [done|done| |cbn in Hc; lia].
    rewrite delete_insert_id; [done|]. by apply not_elem_of_list_to_map_1.
Qed.

(** Whatever is asked of the cache, its answers are those of a list of entries in the order of
    their use that keeps the newest, as many as its capacity. *)
Theorem cache_refines_list cap ops c : sc_new cap = Some c → (run_ops cache_step ops c).2 = (run_ops (list_step cap) ops []).2.
Proof.
  unfold sc_new. destruct (Nat.ltb_spec 0 cap); [|done]. intros [= <-].
  assert (Hgen : ∀ c l, refines c l → capacity c = cap → (run_ops cache_step ops c).2 = (run_ops (list_step cap) ops l).2).
  { clear. induction ops as [|op ops IH]; intros c l Hr Hcap; [done|]. cbn. pose proof (cache_step_refines op c l Hr) as Hs. rewrite Hcap in Hs.
    destruct (cache_step op c) as [c' a], (list_step cap op l) as [l' a']. cbn in Hs. destruct Hs as (Hr' & -> & Hcap').
    specialize (IH c' l' Hr' Hcap'). destruct (run_ops cache_step ops c'), (run_ops (list_step cap) ops l'). cbn in *. by rewrite IH. }
  apply Hgen; [|done]. unfold refines. cbn. split_and!; [done|constructor|done|lia].
Qed.
End lru.
Arguments SpeculativeCache K {_ _} V.

Definition small_ops : list (@CacheOp string Z) :=
  [OpInsert "a" 1; OpInsert "b" 2; OpGet "a"; OpInsert "c" 3; OpGet "b"; OpGet "a"; OpEvict].
Lemma cache_refines_list_witness :
  ∃ c : SpeculativeCache string Z, sc_new 2 = Some c ∧
    (run_ops cache_step small_ops c).2 =
    [AnsValue None; AnsValue None; AnsValue (Some 1); AnsValue None; AnsValue None; AnsValue (Some 1); AnsEntry (Some ("c", 3))].
Proof. eexists. split; [done|]. by rewrite (cache_refines_list 2 small_ops _ eq_refl). Defined.

(** A get that is overtaken by an eviction between its two locks puts a key back into the order that
    the cache no longer holds; the next eviction finds nothing although an entry is there. *)
Example stale_key_blocks_eviction :
  let c0 : SpeculativeCache string Z := (sc_insert "a" 1 (mkSpec ∅ [] 2)).1 in
  let seen := get_value "a" c0 in
  let c1 := get_touch "a" (evict_lru c0).1 in
  let c2 := (sc_insert "b" 2 c1).1 in
  seen = Some 1 ∧ sc_len c2 = 1%nat ∧ (evict_lru c2).2 = None.
Proof. by vm_compute. Qed.

(** * Binary search ([binary_search.rs]) *)

(** Both loops halve the interval, so its length is fuel enough. *)
Fixpoint search_loop (fuel : nat) (items : list Z) (target : Z) (lo hi : nat) : option nat :=
  match fuel with
  | O => None
  | S fuel =>
      if (lo <? hi)%nat then
        let mid := (lo + (hi - lo) / 2)%nat in
        match Z.compare (nth mid items 0) target with
        | Eq => Some mid
        | Lt => search_loop fuel items target (mid + 1) hi
        | Gt => search_loop fuel items target lo mid
        end
      else None
  end.
Definition search (items : list Z) (target : Z) : option nat := search_loop (S (length items)) items target 0 (length items).
Fixpoint lower_loop (fuel : nat) (items : list Z) (target : Z) (lo hi : nat) : nat :=
  match fuel with
  | O => lo
  | S fuel =>
      if (lo <? hi)%nat then
        let mid := (lo + (hi - lo) / 2)%nat in
        if nth mid items 0 <? target then lower_loop fuel items target (mid + 1) hi else lower_loop fuel items target lo mid
      else lo
  end.
Definition lower_bound (items : list Z) (target : Z) : nat := lower_loop (S (length items)) items target 0 (length items).

Section sorted_items.
Context (items : list Z) (Hs : ∀ i j, (i ≤ j < length items)%nat → nth i items 0 ≤ nth j items 0).

Lemma mid_between lo hi : (lo < hi)%nat → (lo ≤ lo + (hi - lo) / 2 < hi)%nat.
Proof. intros Hlt. pose proof (Nat.div_lt (hi - lo) 2). lia. Qed.
Lemma search_loop_ok target fuel lo hi : (hi - lo < fuel)%nat → (hi ≤ length items)%nat →
  (∀ i, (i < lo)%nat → nth i items 0 < target) → (∀ i, (hi ≤ i < length items)%nat → target < nth i items 0) →
  match search_loop fuel items target lo hi with
  | Some i => (i < length items)%nat ∧ nth i items 0 = target
  | None => ∀ i, (i < length items)%nat → nth i items 0 ≠ target
  end.
Proof.
  revert lo hi. induction fuel as [|fuel IH]; intros lo hi Hf Hhi Hlo Hgt; [lia|]. cbn [search_loop]. destruct (Nat.ltb_spec lo hi) as [Hlt|Hge].
  - pose proof (mid_between lo hi Hlt). set (mid := (lo + (hi - lo) / 2)%nat) in *. destruct (Z.compare_spec (nth mid items 0) target) as [He|Hl|Hg].
    + split; [lia|done].
    + apply IH; [lia|lia| |done]. intros i Hi. pose proof (Hs i mid). lia.
    + apply IH; [lia|lia|done|]. intros i Hi. pose proof (Hs mid i). lia.
  - intros i Hi Heq. destruct (Nat.lt_ge_cases i lo); [specialize (Hlo i)|specialize (Hgt i)]; lia.
Qed.
Lemma lower_loop_ok target fuel lo hi : (hi - lo < fuel)%nat → (lo ≤ hi ≤ length items)%nat →
  (∀ i, (i < lo)%nat → nth i items 0 < target) → (∀ i, (hi ≤ i < length items)%nat → target ≤ nth i items 0) →
  let r := lower_loop fuel items target lo hi in
  (r ≤ length items)%nat ∧ (∀ i, (i < r)%nat → nth i items 0 < target) ∧ (∀ i, (r ≤ i < length items)%nat → target ≤ nth i items 0).
Proof.
  revert lo hi. induction fuel as [|fuel IH]; intros lo hi Hf Hhi Hlo Hgt; [lia|]. cbn [lower_loop]. destruct (Nat.ltb_spec lo hi) as [Hlt|Hge].
  - pose proof (mid_between lo hi Hlt). set (mid := (lo + (hi - lo) / 2)%nat) in *. destruct (Z.ltb_spec (nth mid items 0) target) as [Hl|Hg].
    + apply IH; [lia|lia| |done]. intros i Hi. pose proof (Hs i mid). lia.
    + apply IH; [lia|lia|done|]. intros i Hi. pose proof (Hs mid i). lia.
  - assert (hi = lo) as -> by lia. split_and!; [lia|done|done].
Qed.

(** In sorted items the search finds a position that holds the target, or says none does; the
    lower bound is where the items below the target end. *)
Theorem search_correct target :
  match search items target with
  | Some i => (i < length items)%nat ∧ nth i items 0 = target
  | None => target ∉ items
  end ∧
  (lower_bound items target ≤ length items)%nat ∧
  (∀ i, (i < lower_bound items target)%nat → nth i items 0 < target) ∧
  (∀ i, (lower_bound items target ≤ i < length items)%nat → target ≤ nth i items 0).
Proof.
  split.
  - unfold search. pose proof (search_loop_ok target (S (length items)) 0 (length items)) as H.
    destruct (search_loop _ _ _ _ _); [apply H; lia|]. intros Hin%list_elem_of_In. apply (In_nth _ _ 0) in Hin as (i & Hi & Heq).
    by apply (H ltac:(lia) ltac:(lia) ltac:(lia) ltac:(lia) i Hi).
  - apply lower_loop_ok; lia.
Qed.
End sorted_items.
Lemma search_correct_witness : search [1; 3; 3; 8] 3 = Some 2%nat ∧ 4 ∉ [1; 3; 3; 8] ∧ lower_bound [1; 3; 3; 8] 3 = 1%nat.
Proof.
  assert (Hs : ∀ i j, (i ≤ j < length [1; 3; 3; 8])%nat → nth i [1; 3; 3; 8] 0 ≤ nth j [1; 3; 3; 8] 0).
  { intros i j Hij. cbn in Hij. destruct i as [|[|[|[|i]]]], j as [|[|[|[|j]]]]; cbn; lia. }
  split; [done|]. split; [|done]. exact (proj1 (search_correct [1; 3; 3; 8] Hs 4)).
Defined.

(** * Scheduled tasks ([scheduler.rs]) *)

(** Times in nanoseconds. *)
Record ScheduledTask : Type := mkTask { t_name : string; t_interval : Z; t_last_run : option Z }.
Definition task_new (name : string) (interval : Z) : ScheduledTask := mkTask name interval None.
Definition is_due (now : Z) (t : ScheduledTask) : bool :=
  match t_last_run t with None => true | Some last => t_interval t <=? saturating_sub now last end.
Definition mark_run (now : Z) (t : ScheduledTask) : ScheduledTask := mkTask (t_name t) (t_interval t) (Some now).
Definition due_tasks (now : Z) (ts : list ScheduledTask) : list ScheduledTask := filter (λ t, is_due now t = true) ts.
(** [tick], with the same instant for the test and the mark. *)
Definition tick (now : Z) (ts : list ScheduledTask) : list ScheduledTask * list string :=
  ((λ t, if is_due now t then mark_run now t else t) <$> ts, t_name <$> due_tasks now ts).

Lemma elem_of_names now t ts : t ∈ ts → is_due now t = true → t_name t ∈ t_name <$> due_tasks now ts.
Proof. intros Hin Hd. apply list_elem_of_fmap_2, list_elem_of_filter. done. Qed.
(** A tick runs the tasks that are due and no others, and none of them is due again before its
    interval has passed. *)
Theorem tick_runs_due now ts : Forall (λ t, 0 < t_interval t) ts →
  let '(ts', names) := tick now ts in
  names = t_name <$> filter (λ t, is_due now t = true) ts ∧ length ts' = length ts ∧
  Forall2 (λ t t', t_name t' = t_name t ∧ t_interval t' = t_interval t ∧
    ∀ later, now ≤ later → is_due now t = true → (is_due later t' = true ↔ t_interval t ≤ later - now)) ts ts'.
Proof.
  intros Hpos. cbn. split_and!; [done|by rewrite length_fmap|]. induction Hpos as [|t ts Ht _ IH]; [constructor|]. cbn [fmap list_fmap].
  constructor; [|done]. destruct (is_due now t) eqn:Hd; [|done]. split_and!; [done|done|]. intros later Hl _. unfold is_due, mark_run. cbn.
  unfold saturating_sub. rewrite Z.leb_le. lia.
Qed.
Definition two_tasks : list ScheduledTask := [mkTask "a" 60 (Some 30); mkTask "b" 60 (Some 90)].
Lemma tick_runs_due_witness : (tick 100 two_tasks).2 = ["a"] ∧ length (tick 100 two_tasks).1 = 2%nat.
Proof.
  pose proof (tick_runs_due 100 two_tasks ltac:(repeat constructor)) as H. destruct (tick 100 two_tasks) as [ts names] eqn:E.
  destruct H as (Hn & Hl & _). cbn. rewrite Hn, Hl. by vm_compute.
Defined.

(** * Retries ([retry.rs]) *)

Definition u128_max : Z := 2 ^ 128 - 1.
Record RetryPolicy : Type := mkRetry { max_attempts : Z; base_delay_ms : Z; max_delay_ms : Z }.
Definition retry_default : RetryPolicy := mkRetry 3 100 5000.
Definition should_retry (attempt : Z) (p : RetryPolicy) : bool := attempt <? max_attempts p.
Definition compute_delay (attempt : Z) (p : RetryPolicy) : Z :=
  let pow := Z.min u128_max (2 ^ attempt) in
  as_u64 (Z.min (saturating_mul u128_max (base_delay_ms p) pow) (max_delay_ms p)).
(** The loop; [outcomes] are the results of the calls of the closure, in order. *)
Fixpoint retry_until_success (left : nat) (attempt : Z) (outcomes : nat → bool) : Z :=
  match left with
  | O => attempt
  | S left' => if outcomes (Z.to_nat attempt) then attempt + 1 else retry_until_success left' (attempt + 1) outcomes
  end.

(** The delay is the doubled base capped by the maximum, exactly, however many attempts there
    were: neither the power nor the product wraps. *)
Theorem compute_delay_exact attempt p : 0 ≤ attempt → 0 ≤ base_delay_ms p → 0 ≤ max_delay_ms p ≤ u64_max →
  compute_delay attempt p = Z.min (base_delay_ms p * 2 ^ attempt) (max_delay_ms p).
Proof.
  intros Ha Hb [Hm0 Hm]. unfold compute_delay, saturating_mul, as_u64. assert (u64_max < u128_max) by done.
  assert (Hpow : 0 < 2 ^ attempt) by (apply Z.pow_pos_nonneg; lia). rewrite Z.mod_small; [|unfold u64_max in *; split; [|lia]].
  - destruct (Z.eq_dec (base_delay_ms p) 0) as [->|Hne]; [lia|].
    destruct (Z.le_gt_cases (2 ^ attempt) u128_max) as [Hle|Hgt]; [rewrite (Z.min_r u128_max (2 ^ attempt)) by lia; lia|].
    rewrite (Z.min_l u128_max (2 ^ attempt)) by lia. nia.
  - apply Z.min_glb; [|lia]. apply Z.min_glb; [done|]. apply Z.mul_nonneg_nonneg; [lia|]. apply Z.min_glb; lia || done.
Qed.
Lemma compute_delay_exact_witness : compute_delay 300 retry_default = Z.min (100 * 2 ^ 300) 5000 ∧ compute_delay 3 retry_default = 800.
Proof. split; [|done]. apply (compute_delay_exact 300 retry_default); unfold u64_max; cbn; lia. Defined.
(** The outcome does not tell a success at the last attempt from a failure of all. *)
Lemma last_success_looks_failed :
  retry_until_success 3 0 (λ i, (i =? 2)%nat) = retry_until_success 3 0 (λ _, false).
Proof. reflexivity. Qed.

(** * A cache with an expiry ([cache.rs]) *)

Section ttl.
Context `{Countable K} {V : Type}.
Record CacheEntry : Type := mkCacheEntry { e_value : V; expires_at : Z }.
Record TtlCache : Type := mkTtl { t_entries : gmap K CacheEntry; default_ttl : Z }.
Definition put_with_ttl (now : Z) (k : K) (v : V) (ttl : Z) (c : TtlCache) : TtlCache :=
  mkTtl (<[k := mkCacheEntry v (now + ttl)]> (t_entries c)) (default_ttl c).
Definition put (now : Z) (k : K) (v : V) (c : TtlCache) : TtlCache := put_with_ttl now k v (default_ttl c) c.
Definition ttl_get (now : Z) (k : K) (c : TtlCache) : option V :=
  e ← t_entries c !! k; if now <? expires_at e then Some (e_value e) else None.
Definition invalidate (k : K) (c : TtlCache) : TtlCache := mkTtl (delete k (t_entries c)) (default_ttl c).
Definition ttl_clear (c : TtlCache) : TtlCache := mkTtl ∅ (default_ttl c).

Inductive TtlOp : Type := TPut (k : K) (v : V) (ttl : Z) | TDrop (k : K) | TClear.
Definition ttl_step (c : TtlCache) (now_op : Z * TtlOp) : TtlCache :=
  match now_op.2 with TPut k v ttl => put_with_ttl now_op.1 k v ttl c | TDrop k => invalidate k c | TClear => ttl_clear c end.
Definition ttl_touches (k : K) (op : TtlOp) : bool :=
  match op with TPut k' _ _ | TDrop k' => bool_decide (k' = k) | TClear => true end.

(** A value is found from its insertion until its time is over, and not from then on, as long as
    nothing touches its key in between. *)
Theorem ttl_lookup now k v ttl c (later : list (Z * TtlOp)) t : Forall (λ p, ttl_touches k p.2 = false) later →
  ttl_get t k (foldl ttl_step (put_with_ttl now k v ttl c) later) = (if t <? now + ttl then Some v else None).
Proof.
  intros Hl. assert (Hk : t_entries (foldl ttl_step (put_with_ttl now k v ttl c) later) !! k = Some (mkCacheEntry v (now + ttl))).
  { assert (H0 : t_entries (put_with_ttl now k v ttl c) !! k = Some (mkCacheEntry v (now + ttl))) by (cbn; by rewrite lookup_insert_eq).
    revert H0. generalize (put_with_ttl now k v ttl c). induction Hl as [|[n op] later Hop _ IH]; intros c' Hc; [done|]. cbn. apply IH.
    destruct op as [k' v' ttl'|k'|]; cbn in *; [|rewrite lookup_delete_ne; [done|]|done]; [rewrite lookup_insert_ne; [done|]|]; by apply bool_decide_eq_false in Hop. }
  unfold ttl_get. by rewrite Hk.
Qed.
End ttl.
Arguments TtlCache K {_ _} V. Arguments TtlOp : clear implicits.
Lemma ttl_lookup_witness :
  ttl_get 14 "a" (foldl ttl_step (put_with_ttl 10 "a" 7 5 (mkTtl ∅ 60)) [(11, TPut "b" 1 1); (12, TDrop "c")]) = Some 7.
Proof. by rewrite (ttl_lookup 10 "a" 7 5 (mkTtl ∅ 60) [(11, TPut "b" 1 1); (12, TDrop "c")] 14) by (by repeat constructor). Defined.

(** * Coalesced events ([coalesce.rs]) *)

Section coalescer.
Context {T : Type}.
Record Coalescer : Type := mkCoalescer { c_state : option (T * Z); c_window : Z }.
Definition c_push (now : Z) (value : T) (c : Coalescer) : Coalescer * option T :=
  match c_state c with
  | Some (_, last) =>
      if saturating_sub now last <? c_window c then (mkCoalescer (Some (value, last)) (c_window c), None)
      else (mkCoalescer (Some (value, now)) (c_window c), Some value)
  | None => (mkCoalescer (Some (value, now)) (c_window c), Some value)
  end.
Definition c_drain_value (now : Z) (c : Coalescer) : Coalescer * option T :=
  match c_state c with
  | Some (v, last) => if c_window c <=? saturating_sub now last then (mkCoalescer None (c_window c), Some v) else (c, None)
  | None => (c, None)
  end.
(** The pushes of one window: the first is passed on, the last is what a drain gives after it. *)
Lemma window_keeps_last t0 v0 c later t : c_state c = None → Forall (λ p, t0 ≤ p.1 < t0 + c_window c) later → t0 + c_window c ≤ t →
  let c1 := (c_push t0 v0 c).1 in
  let c2 := foldl (λ c p, (c_push p.1 p.2 c).1) c1 later in
  (c_push t0 v0 c).2 = Some v0 ∧ (c_drain_value t c2).2 = Some (default v0 (last later.*2)).
Proof.
  intros Hc Hl Ht. cbn zeta. assert (c_push t0 v0 c = (mkCoalescer (Some (v0, t0)) (c_window c), Some v0)) as -> by (unfold c_push; by rewrite Hc).
  split; [done|]. cbn [fst].
  assert (Hst : ∀ c1 v, c_state c1 = Some (v, t0) → c_window c1 = c_window c →
    c_state (foldl (λ c p, (c_push p.1 p.2 c).1) c1 later) = Some (default v (last later.*2), t0) ∧
    c_window (foldl (λ c p, (c_push p.1 p.2 c).1) c1 later) = c_window c).
  { clear Hc. induction Hl as [|[n w] later Hn _ IH]; intros c1 v Hv Hw; [done|]. cbn in Hn |- *.
    assert (Hp : (c_push n w c1).1 = mkCoalescer (Some (w, t0)) (c_window c1)).
    { unfold c_push. rewrite Hv. unfold saturating_sub. by rewrite (proj2 (Z.ltb_lt _ _)) by lia. }
    rewrite Hp. destruct (IH (mkCoalescer (Some (w, t0)) (c_window c1)) w) as [-> ->]; [done..|]. split; [|done]. rewrite last_cons. by destruct (last later.*2). }
  unfold c_drain_value. destruct (Hst (mkCoalescer (Some (v0, t0)) (c_window c)) v0) as [-> ->]; [done..|].
  unfold saturating_sub. by rewrite (proj2 (Z.leb_le _ _)) by lia.
Qed.
End coalescer.
(** A value that is passed on at once is also kept: the drain after its window gives it again. *)
Example passed_on_twice :
  let '(c1, a) := c_push 0 "x" (mkCoalescer None 10) in (a, (c_drain_value 10 c1).2) = (Some "x", Some "x").
Proof. reflexivity. Qed.

(** * Flat configuration ([config_loader.rs], [config_merger.rs], [env_manager.rs]) *)

Notation Flat := (gmap string string).
Definition load_line (acc : result Flat string) (raw : string) : result Flat string :=
  cfg <-? acc;;
  let line := trim raw in
  if str_is_empty line || starts_with "#" line then Ok cfg
  else match split_once "=" line with
       | Some (k, v) => Ok (<[trim k := trim v]> cfg)
       | None => Err ("invalid line: " +:+ line)
       end.
Definition load_from_str (s : string) : result Flat string := foldl load_line (Ok ∅) (str_lines s).
Definition merge (base overlay : Flat) : Flat := foldl (λ m kv, <[kv.1 := kv.2]> m) base (map_to_list overlay).
Definition deep_merge (base overlay : Flat) (allow_override : bool) : Flat :=
  foldl (λ m kv, if negb allow_override && bool_decide (is_Some (m !! kv.1)) then m else <[kv.1 := kv.2]> m) base (map_to_list overlay).
Definition env_get (overrides : Flat) (env : string → option string) (key : string) : option string :=
  match overrides !! key with Some v => Some v | None => env key end.
Definition env_require (overrides : Flat) (env : string → option string) (key : string) : result string string :=
  ok_or ("required env '" +:+ key +:+ "' not set") (env_get overrides env key).

Lemma foldl_insert_union (l : list (string * string)) (base : Flat) : NoDup l.*1 →
  foldl (λ m kv, <[kv.1 := kv.2]> m) base l = list_to_map l ∪ base.
Proof.
  revert base. induction l as [|[k v] l IH]; intros base; [symmetry; apply (left_id_L ∅ (∪))|]. cbn. intros [Hk Hnd]%NoDup_cons. rewrite IH by done.
  rewrite <- insert_union_r, insert_union_l; [done|]. by apply not_elem_of_list_to_map_1.
Qed.
Lemma foldl_keep_union (l : list (string * string)) (base : Flat) :
  foldl (λ m kv, if bool_decide (is_Some (m !! kv.1)) then m else <[kv.1 := kv.2]> m) base l = base ∪ list_to_map l.
Proof.
  revert base. induction l as [|[k v] l IH]; intros base; [cbn; by rewrite (right_id_L ∅ (∪))|]. cbn [foldl fst snd]. rewrite IH. cbn.
  apply map_eq. intros i. case_bool_decide as Hb; rewrite !lookup_union.
  - destruct (decide (i = k)) as [->|]; [destruct Hb as [x ->]; by destruct (list_to_map l !! k), (<[k:=v]> (list_to_map l : Flat) !! k)|by rewrite lookup_insert_ne].
  - rewrite <- eq_None_not_Some in Hb. destruct (decide (i = k)) as [->|]; [rewrite !lookup_insert_eq, Hb; by destruct (list_to_map l !! k)|by rewrite !lookup_insert_ne].
Qed.
(** Merging is the union of the maps; the overlay wins, or the base does when overriding is not
    allowed. *)
Theorem merge_is_union base overlay :
  merge base overlay = overlay ∪ base ∧ deep_merge base overlay true = overlay ∪ base ∧ deep_merge base overlay false = base ∪ overlay.
Proof.
  unfold merge, deep_merge. cbn [negb andb]. rewrite foldl_insert_union, foldl_keep_union, list_to_map_to_list by apply NoDup_fst_map_to_list. done.
Qed.

(** A setting that reads as one line: a key that is not a comment, without an equals sign. *)
Definition trimmed (s : string) : Prop := trim_start s = s ∧ trim_end s = s ∧ has_char nl s = false ∧ has_char cr s = false.
Definition good_setting (kv : string * string) : Prop :=
  trimmed kv.1 ∧ trimmed kv.2 ∧ kv.1 ≠ EmptyString ∧ has_char "=" kv.1 = false ∧ starts_with "#" kv.1 = false.
Definition setting_line (kv : string * string) : string := kv.1 +:+ String "=" kv.2.

Lemma setting_line_trim kv : good_setting kv → trim (setting_line kv) = setting_line kv ∧
  str_is_empty (setting_line kv) = false ∧ starts_with "#" (setting_line kv) = false.
Proof.
  destruct kv as [[|c k] v]; intros ((Hk & _) & (_ & Hv & _) & Hne & _ & Hh); [done|]. unfold setting_line, trim. cbn [fst snd] in *.
  rewrite str_app_cons. cbn [starts_with] in *. split_and!; [|done|by destruct (bool_decide _)].
  cbn [trim_start] in *. destruct (is_ws c) eqn:E.
  - exfalso. assert (Hlen : ∀ s, (String.length (trim_start s) ≤ String.length s)%nat).
    { induction s as [|a s IH]; cbn; [done|]. destruct (is_ws a); cbn; lia. }
    specialize (Hlen k). rewrite Hk in Hlen. cbn in Hlen. lia.
  - rewrite <- str_app_cons. apply trim_end_app; [done|]. cbn [trim_end]. rewrite Hv. by destruct v.
Qed.
Lemma load_setting m kv : good_setting kv → load_line (Ok m) (setting_line kv) = Ok (<[kv.1 := kv.2]> m).
Proof.
  intros Hg. unfold load_line. cbn [result_bind]. destruct (setting_line_trim kv Hg) as (-> & -> & ->). cbn [orb].
  destruct Hg as ((Hk1 & Hk2 & _) & (Hv1 & Hv2 & _) & _ & He & _). unfold setting_line. rewrite split_once_at by done.
  unfold trim. by rewrite Hk1, Hk2, Hv1, Hv2.
Qed.

(** A file of settings loads to the settings, the last of a key winning, and comments and blank
    lines in it do not matter. *)
Theorem load_settings (ls : list (string * string + string)) :
  Forall (λ x, match x with inl kv => good_setting kv | inr c => has_char nl c = false ∧ has_char cr c = false ∧ (trim c = EmptyString ∨ starts_with "#" (trim c) = true) end) ls →
  load_from_str (line_block ((λ x, match x with inl kv => setting_line kv | inr c => c end) <$> ls))
  = Ok (foldl (λ m kv, <[kv.1 := kv.2]> m) ∅ (omap (λ x, match x with inl kv => Some kv | inr _ => None end) ls)).
Proof.
  intros Hls. unfold load_from_str. rewrite str_lines_block.
  2: { apply Forall_fmap. eapply Forall_impl; [exact Hls|]. intros [[k v]|c]; cbn; [|tauto].
       intros ((_ & _ & Hk1 & Hk2) & (_ & _ & Hv1 & Hv2) & _). cbn in *. unfold setting_line. cbn [fst snd]. rewrite !has_char_app. cbn.
       by rewrite Hk1, Hk2, Hv1, Hv2. }
  generalize (∅ : Flat). induction Hls as [|[kv|c] ls Hx _ IH]; intros m; [done| |]; cbn [fmap list_fmap foldl omap list_omap].
  - rewrite load_setting by done. apply IH.
  - destruct Hx as (_ & _ & Hc). assert (load_line (Ok m) c = Ok m) as ->; [|apply IH]. unfold load_line. cbn [result_bind].
    destruct Hc as [-> | ->]; [done|]. by rewrite orb_true_r.
Qed.
Lemma load_settings_witness :
  load_from_str (line_block ["# defaults"; "port=8080"; " "; "host=a=b"; "port=9090"]) = Ok (<["port" := "9090"]> {["host" := "a=b"]}).
Proof.
  etransitivity; [apply (load_settings [inr "# defaults"; inl ("port", "8080"); inr " "; inl ("host", "a=b"); inl ("port", "9090")])|by vm_compute].
  constructor; [by split_and!; [..|right]|]. constructor; [by repeat split|]. constructor; [by split_and!; [..|left]|].
  constructor; [by repeat split|]. constructor; [by repeat split|constructor].
Defined.

(** * Compose files ([proc_compose.rs]) *)

Inductive DependsOn : Type := DepList (names : list string) | DepMap (conditions : gmap string (option string)).
Record Availability : Type := mkAvail { restart : option string; exit_on_end : option bool; max_restarts : option Z }.
Record ProcessEntry : Type := mkProcess {
  pe_command : option string; pe_working_dir : option string; pe_depends_on : option DependsOn; pe_availability : option Availability;
  pe_environment : option (list string) }.
Record ProcessDef : Type := mkDef { pd_name : string; pd_command : string; pd_working_dir : option string; pd_depends_on : list string; pd_restart_policy : string }.
Definition def_of (ne : string * ProcessEntry) : ProcessDef :=
  let '(name, e) := ne in
  mkDef name (default EmptyString (pe_command e)) (pe_working_dir e)
    (match pe_depends_on e with None => [] | Some (DepList v) => v | Some (DepMap m) => (map_to_list m).*1 end)
    (default "no" (pe_availability e ≫= restart)).
Definition to_process_defs (processes : gmap string ProcessEntry) : list ProcessDef :=
  sort_by (λ a b, bool_decide (String.le (pd_name a) (pd_name b))) (def_of <$> map_to_list processes).

(** A directory as its components, the last first; [find_config] looks in it and above it. *)
Definition CONFIG_NAMES : list string := ["process-compose.yaml"; "process-compose.yml"].
Fixpoint find_config (exists_file : list string → string → bool) (dir : list string) : option (list string * string) :=
  match find (exists_file dir) CONFIG_NAMES with
  | Some name => Some (dir, name)
  | None => match dir with [] => None | _ :: parent => find_config exists_file parent end
  end.
(** [&command[..39]] for the table: a panic where the cut falls into a character. *)
Definition char_boundary (l : list byte) (i : nat) : bool :=
  match l !! i with Some b => negb ((128 <=? Byte.to_N b)%N && (Byte.to_N b <? 192)%N) | None => (i =? length l)%nat end.
Definition command_cell (command : list byte) : option (list byte) :=
  if (40 <? length command)%nat then if char_boundary command 39 then Some (take 39 command ++ [xe2; x80; xa6]) else None
  else Some command.

Lemma process_defs_names processes :
  StronglySorted String.le (pd_name <$> to_process_defs processes) ∧ ∀ n, n ∈ pd_name <$> to_process_defs processes ↔ is_Some (processes !! n).
Proof.
  unfold to_process_defs. set (le := λ a b, bool_decide (String.le (pd_name a) (pd_name b))). split.
  - assert (Hs : StronglySorted (λ a b, le a b = true) (sort_by le (def_of <$> map_to_list processes))).
    { apply sort_by_sorted; unfold le; intros *; rewrite !bool_decide_eq_true; [apply (total String.le)|apply transitivity]. }
    induction Hs as [|x l Hl IH Hx]; cbn; constructor; [done|]. apply Forall_fmap. eapply Forall_impl; [exact Hx|]. intros y Hy. by apply bool_decide_eq_true in Hy.
  - intros n. rewrite sort_by_perm, <- list_fmap_compose, list_elem_of_fmap. split.
    + intros ([k e] & -> & Hk%elem_of_map_to_list). cbn. eauto.
    + intros [e He]. exists (n, e). split; [done|]. by apply elem_of_map_to_list.
Qed.
(** The file found is in the directory or the nearest one above it that has any. *)
Lemma find_config_nearest ex dir : match find_config ex dir with
  | Some (d, name) => ∃ below, dir = below ++ d ∧ ex d name = true ∧ name ∈ CONFIG_NAMES ∧
      ∀ pre x suf, below = pre ++ x :: suf → Forall (λ n, ex (x :: suf ++ d) n = false) CONFIG_NAMES
  | None => ∀ below d, dir = below ++ d → Forall (λ n, ex d n = false) CONFIG_NAMES
  end.
Proof.
  assert (Hno : ∀ d, find (ex d) CONFIG_NAMES = None → Forall (λ n, ex d n = false) CONFIG_NAMES).
  { intros d Hd. apply Forall_forall. intros n Hn%list_elem_of_In. by apply (find_none _ _ Hd). }
  induction dir as [|c dir IH]; cbn [find_config].
  - destruct (find (ex []) CONFIG_NAMES) as [name|] eqn:E.
    + apply find_some in E as [Hin He]. exists []. split_and!; [done|done|by apply list_elem_of_In|]. by intros [].
    + intros below d Hd. symmetry in Hd. apply app_nil in Hd as [-> ->]. by apply Hno.
  - destruct (find (ex (c :: dir)) CONFIG_NAMES) as [name|] eqn:E.
    + apply find_some in E as [Hin He]. exists []. split_and!; [done|done|by apply list_elem_of_In|]. by intros [].
    + destruct (find_config ex dir) as [[d name]|].
      * destruct IH as (below & -> & He & Hn & Hb). exists (c :: below). split_and!; [done..|].
        intros pre x suf Hp. destruct pre as [|y pre]; cbn in Hp; injection Hp as -> ->; [by apply Hno|by eapply Hb].
      * intros below d Hd. destruct below as [|y below]; cbn in Hd; [subst d; by apply Hno|]. injection Hd as _ Hd. by eapply IH.
Qed.
(** Thirty-eight letters, two bytes of a letter, and more: the table cannot be printed. *)
Example long_command_panics : command_cell (replicate 38 x61 ++ [xc3; xa9; x62]) = None.
Proof. by vm_compute. Qed.

(** * Data directories ([paths.rs]) *)

Section purge.
(** The environment and directories of the platform. *)
Context (env : string → option string) (home config_home : option string) (temp : string).
Definition slash (a b : string) : string := a +:+ "/" +:+ b.
Definition non_empty_var (name : string) : option string := v ← env name; if str_is_empty v then None else Some v.
Definition config_dir : string :=
  match non_empty_var "XDG_CONFIG_HOME" with
  | Some xdg => slash xdg "sharecli"
  | None => match config_home with Some b => slash b "sharecli" | None => ".config/sharecli" end
  end.
Definition state_dir : string :=
  match non_empty_var "XDG_STATE_HOME" with
  | Some xdg => slash xdg "sharecli"
  | None => match home with Some h => slash (slash (slash h ".local") "state") "sharecli" | None => ".local/state/sharecli" end
  end.
Definition runtime_dir : string := default temp (env "XDG_RUNTIME_DIR").

(** The paths that exist, with whether each is a directory, and the ones whose removal fails. *)
Context (fails : string → bool) (read_dir : result (list string) string).
Definition remove_path (p : string) (fs : gmap string bool) : gmap string bool * result unit string :=
  match fs !! p with
  | None => (fs, Ok tt)
  | Some _ => if fails p then (fs, Err ("cannot remove " +:+ p)) else (delete p fs, Ok tt)
  end.
Fixpoint remove_all (ps : list string) : stm (gmap string bool) string unit := λ fs,
  match ps with
  | [] => (fs, Ok tt)
  | p :: ps' => match remove_path p fs with (fs', Ok _) => remove_all ps' fs' | (fs', Err e) => (fs', Err e) end
  end.
Definition lock_targets (fs : gmap string bool) : result (list string) string :=
  if bool_decide (fs !! runtime_dir = Some true) then
    names <-? read_dir;; Ok (slash runtime_dir <$> filter (λ n, starts_with "sharecli" n = true) names)
  else Ok [].
Definition purge_data_dirs (purge_data dry_run : bool) : stm (gmap string bool) string (list string) := λ fs,
  if negb purge_data then (fs, Ok [])
  else match lock_targets fs with
       | Err e => (fs, Err e)
       | Ok locks =>
           let targets := config_dir :: state_dir :: locks in
           if dry_run then (fs, Ok targets)
           else match remove_all targets fs with (fs', Ok _) => (fs', Ok targets) | (fs', Err e) => (fs', Err e) end
       end.

Lemma remove_all_spec ps fs : ∃ done rest, ps = done ++ rest ∧ (remove_all ps fs).1 = foldl (λ m p, delete p m) fs done ∧
  ((remove_all ps fs).2 = Ok tt ∧ rest = [] ∨ ∃ e p rest', (remove_all ps fs).2 = Err e ∧ rest = p :: rest' ∧ fails p = true).
Proof.
  revert fs. induction ps as [|p ps IH]; intros fs; [exists [], []; cbn; split_and!; auto|]. cbn [remove_all]. unfold remove_path.
  destruct (fs !! p) as [d|] eqn:E; [destruct (fails p) eqn:F|].
  - exists [], (p :: ps). cbn. split_and!; [done..|]. right. by eexists _, p, ps.
  - destruct (IH (delete p fs)) as (dn & rest & -> & Hfs & Hr). exists (p :: dn), rest. by split_and!.
  - destruct (IH fs) as (dn & rest & -> & Hfs & Hr). exists (p :: dn), rest. split_and!; [done| |done]. rewrite Hfs. cbn. by rewrite (delete_id fs p E).
Qed.
Lemma foldl_delete_lookup (ps : list string) (fs : gmap string bool) q :
  foldl (λ m p, delete p m) fs ps !! q = if decide (q ∈ ps) then None else fs !! q.
Proof.
  revert fs. induction ps as [|p ps IH]; intros fs; cbn; [by rewrite decide_False by set_solver|]. rewrite IH.
  destruct (decide (q = p)) as [->|Hne]; [rewrite lookup_delete_eq; by repeat case_decide; set_solver|rewrite lookup_delete_ne by done].
  repeat case_decide; set_solver.
Qed.

(** Without the purge, or in a dry run, nothing is removed; a purge removes its targets and
    nothing else, all of them when it succeeds, and up to the first that fails otherwise. *)
Theorem purge_exact purge dry fs : let '(fs', r) := purge_data_dirs purge dry fs in
  if negb purge || dry then fs' = fs
  else ∃ gone, (∀ q, fs' !! q = if decide (q ∈ gone) then None else fs !! q) ∧
    match r with
    | Ok targets => gone = targets ∧ config_dir ∈ targets ∧ state_dir ∈ targets
    | Err _ => ∀ locks, lock_targets fs = Ok locks → ∃ p rest, config_dir :: state_dir :: locks = gone ++ p :: rest ∧ fails p = true
    end.
Proof.
  unfold purge_data_dirs. destruct purge; [|done]. cbn [negb orb]. destruct (lock_targets fs) as [locks|e] eqn:El.
  - destruct dry; [done|]. destruct (remove_all_spec (config_dir :: state_dir :: locks) fs) as (dn & rest & Hps & Hfs & Hr).
    destruct (remove_all (config_dir :: state_dir :: locks) fs) as [fs' r]. cbn in Hfs, Hr. subst fs'.
    destruct Hr as [[-> ->]|(e & p & rest' & -> & -> & Hf)].
    + rewrite app_nil_r in Hps. exists dn. split; [apply foldl_delete_lookup|]. rewrite <- Hps. set_solver.
    + exists dn. split; [apply foldl_delete_lookup|]. intros locks' [= <-]. eauto.
  - destruct dry; [done|]. exists []. split; [intros q; by rewrite decide_False by set_solver|]. done.
Qed.
End purge.
(** The purge takes every entry of the runtime directory that begins with the program's name. *)
Example purge_takes_namesakes :
  (purge_data_dirs (λ _, None) None None "/tmp" (λ _, false) (Ok ["sharecli-notes.txt"; "x"]) true false
     {["/tmp" := true; "/tmp/sharecli-notes.txt" := false]}).1 = {["/tmp" := true]}.
Proof. by vm_compute. Qed.

(** * SMTP replies ([smtp_response.rs]) *)

Inductive SmtpError : Type := SmtpMsg (msg : string) | SmtpPanic.
Inductive ReplySep : Type := Hyphen | Space.
Record ReplyLine : Type := mkReplyLine { rl_code : Z; rl_sep : ReplySep; rl_text : string }.
Record Reply : Type := mkReply { r_code : Z; r_text : string; r_is_last : bool }.

Fixpoint str_take (n : nat) (s : string) : string := match n, s with S n', String c s' => String c (str_take n' s') | _, _ => EmptyString end.
Fixpoint str_drop (n : nat) (s : string) : string := match n, s with S n', String _ s' => str_drop n' s' | _, _ => s end.
(** [trim_end_matches('\r')]. *)
Fixpoint trim_cr (s : string) : string :=
  match s with
  | EmptyString => EmptyString
  | String c s' => match trim_cr s' with EmptyString => if bool_decide (c = cr) then EmptyString else String c EmptyString | t => String c t end
  end.
Definition from_byte (c : ascii) : result ReplySep SmtpError :=
  if bool_decide (c = "-"%char) then Ok Hyphen else if bool_decide (c = " "%char) then Ok Space
  else Err (SmtpMsg ("expected `-` or space, got byte 0x" +:+ hex_byte c)).
Definition parse_line (raw : string) : result ReplyLine SmtpError :=
  let line := trim_cr raw in
  if (String.length line <? 4)%nat then Err (SmtpMsg ("reply line too short: " +:+ line))
  else if negb (char_boundary (list_byte_of_string line) 3) then Err SmtpPanic
  else
    code <-? ok_or (SmtpMsg ("invalid reply code " +:+ str_take 3 line)) (parse_uint (2 ^ 16 - 1) (str_take 3 line));;
    sep <-? match String.get 3 line with Some c => from_byte c | None => Err SmtpPanic end;;
    if char_boundary (list_byte_of_string line) 4 then Ok (mkReplyLine code sep (str_drop 4 line)) else Err SmtpPanic.
(** The loop of [parse_reply]: the code, the texts and the last separator so far. *)
Definition reply_step (acc : result (option Z * list string * ReplySep) SmtpError) (raw : string) : result (option Z * list string * ReplySep) SmtpError :=
  st <-? acc;;
  let '(code, texts, sep) := st in
  let line := trim_cr raw in
  if str_is_empty line then Ok (code, texts, sep)
  else
    p <-? parse_line line;;
    match code with
    | Some c => if bool_decide (c = rl_code p) then Ok (Some c, texts ++ [rl_text p], rl_sep p)
                else Err (SmtpMsg ("reply code changed mid-chain: " +:+ show_u c +:+ " then " +:+ show_u (rl_code p)))
    | None => Ok (Some (rl_code p), texts ++ [rl_text p], rl_sep p)
    end.
Definition parse_reply (blob : string) : result Reply SmtpError :=
  if str_is_empty blob then Err (SmtpMsg "empty reply")
  else
    st <-? foldl reply_step (Ok (None, [], Space)) (split_on nl blob);;
    let '(code, texts, sep) := st in
    c <-? ok_or (SmtpMsg "no reply code found") code;;
    Ok (mkReply c (join_with (String nl EmptyString) texts) (match sep with Space => true | Hyphen => false end)).

(** A reply as a server sends it: a hyphen on every line but the last. *)
Definition sep_char (s : ReplySep) : ascii := match s with Hyphen => "-"%char | Space => " "%char end.
Definition reply_line (code : Z) (s : ReplySep) (text : string) : string := show_u code +:+ String (sep_char s) text.
Definition crlf_line (l : string) : string := l +:+ String cr EmptyString.
Definition send_reply (code : Z) (first : list string) (final : string) : string :=
  line_block (crlf_line <$> ((reply_line code Hyphen <$> first) ++ [reply_line code Space final])).
(** A text that stays on its line and begins with a character of one byte or of several. *)
Definition smtp_text (t : string) : Prop := has_char nl t = false ∧ has_char cr t = false ∧
  match list_byte_of_string t with b :: _ => negb ((128 <=? Byte.to_N b)%N && (Byte.to_N b <? 192)%N) = true | [] => True end.

Lemma show_code_length code : 100 ≤ code ≤ 999 → ∃ a b c, show_u code = String a (String b (String c EmptyString)) ∧
  digit_val a ≠ None ∧ digit_val b ≠ None ∧ digit_val c ≠ None ∧ str_all (λ x, (nat_of_ascii x <? 128)%nat) (show_u code) = true.
Proof.
  intros Hc. assert (H : Forall (λ n, match show_u n with
      | String a (String b (String c EmptyString)) =>
          bool_decide (digit_val a ≠ None) && bool_decide (digit_val b ≠ None) && bool_decide (digit_val c ≠ None) && str_all (λ x, (nat_of_ascii x <? 128)%nat) (show_u n)
      | _ => false end = true) (Z.of_nat <$> seq 100 900)) by (apply (bool_decide_unpack _); by vm_compute).
  rewrite Forall_forall in H. specialize (H code). destruct (show_u code) as [|a [|b [|c [|]]]];
    (ospecialize* H; [apply list_elem_of_fmap; exists (Z.to_nat code); split; [lia|apply elem_of_seq; lia]|]); try done.
  apply andb_true_iff in H as [[[Ha%bool_decide_eq_true Hb%bool_decide_eq_true]%andb_true_iff Hd%bool_decide_eq_true]%andb_true_iff Hall].
  exists a, b, c. by split_and!.
Qed.
Lemma trim_cr_id s : has_char cr s = false → trim_cr s = s.
Proof.
  induction s as [|c s IH]; [done|]. cbn. intros [Hc Hs]%orb_false_iff. rewrite IH by done. destruct s; [by rewrite Hc|done].
Qed.
Lemma trim_cr_line s : has_char cr s = false → trim_cr (crlf_line s) = s.
Proof.
  unfold crlf_line. induction s as [|c s IH]; [done|]. cbn [has_char]. intros [Hc Hs]%orb_false_iff. rewrite str_app_cons. cbn [trim_cr]. rewrite IH by done.
  destruct s; [by rewrite Hc|done].
Qed.
Lemma reply_line_one_line code s t : smtp_text t → has_char nl (reply_line code s t) = false ∧ has_char cr (reply_line code s t) = false.
Proof.
  intros (Hn & Hc & _). unfold reply_line. rewrite !has_char_app, !has_char_show_u by done. cbn. by rewrite Hn, Hc; destruct s.
Qed.
Lemma parse_reply_line code s t : 100 ≤ code ≤ 999 → smtp_text t → parse_line (reply_line code s t) = Ok (mkReplyLine code s t).
Proof.
  intros Hc Ht. unfold parse_line. rewrite trim_cr_id by (by apply reply_line_one_line). unfold reply_line.
  destruct (show_code_length code Hc) as (a & b & c & E & _). pose proof (parse_uint_show (2 ^ 16 - 1) code ltac:(lia)) as Hp. rewrite E in Hp |- *.
  rewrite !str_app_cons, str_app_nil_l. cbn [String.length Nat.ltb Nat.leb str_take String.get str_drop].
  assert (B3 : char_boundary (list_byte_of_string (String a (String b (String c (String (sep_char s) t))))) 3 = true) by (by destruct s).
  rewrite B3. cbn [negb]. rewrite Hp. cbn [ok_or result_bind]. assert (from_byte (sep_char s) = Ok s) as -> by (by destruct s). cbn [result_bind].
  assert (char_boundary (list_byte_of_string (String a (String b (String c (String (sep_char s) t))))) 4 = true) as ->; [|done].
  destruct Ht as (_ & _ & Hb). unfold char_boundary. destruct t as [|d t]; [done|]. cbn in Hb |- *. exact Hb.
Qed.
Lemma reply_step_line code s t c texts sep : 100 ≤ code ≤ 999 → smtp_text t → c = None ∨ c = Some code →
  reply_step (Ok (c, texts, sep)) (crlf_line (reply_line code s t)) = Ok (Some code, texts ++ [t], s).
Proof.
  intros Hcode Ht Hc. unfold reply_step. cbn [result_bind]. rewrite trim_cr_line by (by apply reply_line_one_line).
  assert (str_is_empty (reply_line code s t) = false) as ->.
  { unfold reply_line. destruct (show_code_length code Hcode) as (a & b & d & -> & _). done. }
  rewrite parse_reply_line by done. cbn. destruct Hc as [-> | ->]; [done|]. by rewrite bool_decide_true.
Qed.

(** A reply of any number of lines, as a server sends it, parses to its code, the texts of its
    lines in order, and the mark of a complete reply. *)
Theorem smtp_roundtrip code first final : 100 ≤ code ≤ 999 → Forall smtp_text (first ++ [final]) →
  parse_reply (send_reply code first final) = Ok (mkReply code (join_with (String nl EmptyString) (first ++ [final])) true).
Proof.
  intros Hcode Ht. apply Forall_app in Ht as [Hfirst Hfinal]. inversion Hfinal as [|?? Hf _]; subst. unfold parse_reply.
  assert (Hne : str_is_empty (send_reply code first final) = false).
  { unfold send_reply, line_block. destruct (show_code_length code Hcode) as (a & b & c & E & _). unfold reply_line, crlf_line.
    destruct first; cbn; rewrite E; done. }
  rewrite Hne. unfold send_reply. rewrite split_line_block.
  2: { apply Forall_fmap, Forall_app. split; [apply Forall_fmap; eapply Forall_impl; [exact Hfirst|]|constructor; [|constructor]]; cbn;
         intros; unfold crlf_line; rewrite has_char_app, (proj1 (reply_line_one_line _ _ _ ltac:(eassumption))); done. }
  rewrite foldl_app, fmap_app, foldl_app. assert (Hfold : ∀ c texts sep, c = None ∨ c = Some code →
    ∃ c' sep', (c' = None ∨ c' = Some code) ∧ foldl reply_step (Ok (c, texts, sep)) (crlf_line <$> (reply_line code Hyphen <$> first)) = Ok (c', texts ++ first, sep')).
  { clear Hne. induction Hfirst as [|t first Ht _ IH]; intros c texts sep Hc; [exists c, sep; cbn; by rewrite app_nil_r|]. cbn [fmap list_fmap foldl].
    rewrite reply_step_line by done. destruct (IH (Some code) (texts ++ [t]) Hyphen) as (c' & sep' & Hc' & ->); [by right|].
    exists c', sep'. by rewrite <- app_assoc. }
  destruct (Hfold None [] Space) as (c' & sep' & Hc' & ->); [by left|]. cbn [fmap list_fmap foldl app]. rewrite reply_step_line by done. done.
Qed.
Lemma smtp_roundtrip_witness :
  parse_reply (send_reply 250 ["PIPELINING"; "SIZE 10240000"] "AUTH PLAIN LOGIN")
  = Ok (mkReply 250 ("PIPELINING" +:+ String nl ("SIZE 10240000" +:+ String nl "AUTH PLAIN LOGIN")) true).
Proof. apply (smtp_roundtrip 250 ["PIPELINING"; "SIZE 10240000"] "AUTH PLAIN LOGIN"); [lia|]. by repeat constructor. Defined.
(** A final line in the middle of a chain, a chain that is not finished, and a code of two digits are
    taken. *)
Example smtp_lenient :
  parse_reply ("250 a" +:+ String nl "250-b") = Ok (mkReply 250 ("a" +:+ String nl "b") false) ∧
  parse_reply "+25 x" = Ok (mkReply 25 "x" true).
Proof. by vm_compute. Qed.
