(* ===== verification/SoakHarness.v ===== *)
(** The soak harness (src/commands/soak.rs): the calendar of its time stamps, the loop that runs the
    scenarios until the configured time is over, and the report it writes.  Commands, the memory of
    the process and the delays of the scheduler are parameters: what the [k]-th command does is
    [env k].  Time is in nanoseconds. *)
From S2P Require Import Prelude Journal.

(** * The calendar *)

(** [days_to_ymd]: years begin in March, in eras of 400 years. *)
Definition year_of_era (doe : Z) : Z := (doe - doe / 1460 + doe / 36524 - doe / 146096) / 365.
Definition days_to_ymd (days : Z) : Z * Z * Z :=
  let z := days + 719468 in
  let era := z / 146097 in
  let doe := z - era * 146097 in
  let yoe := year_of_era doe in
  let y := yoe + era * 400 in
  let doy := doe - (365 * yoe + yoe / 4 - yoe / 100) in
  let mp := (5 * doy + 2) / 153 in
  let d := doy - (153 * mp + 2) / 5 + 1 in
  let m := if mp <? 10 then mp + 3 else mp - 9 in
  let y := if m <=? 2 then y + 1 else y in
  (y, m, d).

Definition chrono_timestamp (secs : Z) : string :=
  let days := secs / 86400 in
  let tod := secs mod 86400 in
  let '(y, mo, d) := days_to_ymd days in
  show_u04 y +:+ "-" +:+ show_u02 mo +:+ "-" +:+ show_u02 d +:+ "T" +:+ show_u02 (tod / 3600) +:+ ":"
  +:+ show_u02 (tod mod 3600 / 60) +:+ ":" +:+ show_u02 (tod mod 60) +:+ "Z".

(** ** Counting *)

(** The number of the first of March of a year, counted from the first of March of year 0. *)
Definition march (y : Z) : Z := 365 * y + y / 4 - y / 100 + y / 400.

Lemma march_next y : march y = march (y - 1) + days_in_year y.
Proof.
  unfold march, days_in_year, is_leap.
  destruct (Z.eqb_spec (y mod 4) 0), (Z.eqb_spec (y mod 100) 0), (Z.eqb_spec (y mod 400) 0); cbn;
    Z.to_euclidean_division_equations; lia.
Qed.
Lemma year_starts y : 1970 ≤ y → days_before_year y + 719468 = march (y - 1) + 306.
Proof.
  intros Hy. pattern y. apply (Zlt_lower_bound_ind _ 1970); [|done]. clear y Hy. intros y IH Hy.
  destruct (Z.eq_dec y 1970) as [->|]; [done|].
  replace y with (y - 1 + 1) at 1 by lia. rewrite days_before_year_next by lia.
  specialize (IH (y - 1) ltac:(lia)). pose proof (march_next (y - 1)). lia.
Qed.
Lemma year_of_era_spec doe : 0 ≤ doe < 146097 →
  0 ≤ year_of_era doe < 400 ∧ march (year_of_era doe) ≤ doe < march (year_of_era doe + 1).
Proof.
  intros Hd. unfold year_of_era, march.
  assert (0 ≤ doe / 36524 ≤ 4) as Hb by (Z.to_euclidean_division_equations; lia).
  assert (0 ≤ doe / 146096 ≤ 1) as Hc by (Z.to_euclidean_division_equations; lia).
  assert (doe / 36524 = 0 ∨ doe / 36524 = 1 ∨ doe / 36524 = 2 ∨ doe / 36524 = 3 ∨ doe / 36524 = 4) as [H|[H|[H|[H|H]]]] by lia;
  assert (doe / 146096 = 0 ∨ doe / 146096 = 1) as [H'|H'] by lia; rewrite H, H';
    Z.to_euclidean_division_equations; lia.
Qed.
(** Month and day from the day of the year that began in March, as [days_to_ymd] has them. *)
Definition month_day (doy : Z) : Z * Z :=
  let mp := (5 * doy + 2) / 153 in
  (if mp <? 10 then mp + 3 else mp - 9, doy - (153 * mp + 2) / 5 + 1).
Definition month_day_ok (leap : bool) (doy : Z) : bool :=
  let '(m, d) := month_day doy in
  (1 <=? m) && (m <=? 12) && (1 <=? d) && (d <=? month_length leap m)
  && (days_before_month leap m + (d - 1) =? (if m <=? 2 then doy - 306 else doy + (if leap then 60 else 59)))
  && Bool.eqb (m <=? 2) (306 <=? doy).

Lemma forallb_seqZ f a n x : forallb f (seqZ a n) = true → a ≤ x < a + n → f x = true.
Proof. rewrite forallb_forall. intros H Hx. apply H, list_elem_of_In, elem_of_seqZ. lia. Qed.

(** The table of the days of a year; the last of February is there in leap years only. *)
Lemma month_day_table leap doy : 0 ≤ doy → doy < 365 ∨ doy = 365 ∧ leap = true → month_day_ok leap doy = true.
Proof.
  intros H0 H. assert (forallb (month_day_ok leap) (seqZ 0 (if leap then 366 else 365)) = true) as Ht by (by destruct leap; vm_compute).
  apply (forallb_seqZ _ _ _ doy Ht). destruct H as [|[? ->]]; [destruct leap|]; lia.
Qed.

Lemma since_1970 y doy : 719468 ≤ march y + doy → doy < 366 → 1969 ≤ y ∧ (doy < 306 → 1970 ≤ y).
Proof. unfold march. intros ? ?. split; [|intros ?]; Z.to_euclidean_division_equations; lia. Qed.

Lemma days_to_ymd_spec days : 0 ≤ days →
  let '(y, m, d) := days_to_ymd days in
  1970 ≤ y ∧ 1 ≤ m ≤ 12 ∧ 1 ≤ d ≤ month_length (is_leap y) m ∧
  days_before_year y + days_before_month (is_leap y) m + (d - 1) = days.
Proof.
  intros Hd. unfold days_to_ymd. set (z := days + 719468). set (era := z / 146097). set (doe := z - era * 146097).
  assert (0 ≤ doe < 146097) as Hdoe by (subst doe era; Z.to_euclidean_division_equations; lia).
  destruct (year_of_era_spec doe Hdoe) as [Hy Hm]. set (yoe := year_of_era doe) in *.
  set (y := yoe + era * 400). set (doy := doe - (365 * yoe + yoe / 4 - yoe / 100)).
  assert (march y + doy = z) as Hz. { subst doy doe y. unfold march. Z.to_euclidean_division_equations; lia. }
  assert (0 ≤ doy < days_in_year (y + 1)) as Hdoy.
  { assert (march (y + 1) = march (yoe + 1) + era * 146097) as Hn by (subst y; unfold march; Z.to_euclidean_division_equations; lia).
    assert (march y = march yoe + era * 146097) as Hc by (subst y; unfold march; Z.to_euclidean_division_equations; lia).
    pose proof (march_next (y + 1)) as Hx. replace (y + 1 - 1) with y in Hx by lia. lia. }
  pose proof (days_in_year_bounds (y + 1)). destruct (since_1970 y doy) as [Hy69 Hy70]; [lia|lia|].
  assert (days_in_year y = 365 + (if is_leap y then 1 else 0)) as Hlen by (unfold days_in_year; by destruct (is_leap y)).
  change (let '(y0, m, d) := let '(m, d) := month_day doy in (if m <=? 2 then y + 1 else y, m, d) in
    1970 ≤ y0 ∧ 1 ≤ m ≤ 12 ∧ 1 ≤ d ≤ month_length (is_leap y0) m ∧ days_before_year y0 + days_before_month (is_leap y0) m + (d - 1) = days).
  destruct (Z.le_gt_cases 306 doy) as [Hl|Hl].
  - assert (month_day_ok (is_leap (y + 1)) doy = true) as Ht.
    { apply month_day_table; [lia|]. unfold days_in_year in Hdoy. destruct (is_leap (y + 1)); [|left; lia].
      destruct (Z.eq_dec doy 365); [by right|left; lia]. }
    unfold month_day_ok in Ht. destruct (month_day doy) as [m d]. rewrite (proj2 (Z.leb_le 306 doy)) in Ht by done.
    bool_prop. assert ((m <=? 2) = true) as Hm2 by by destruct (m <=? 2). rewrite Hm2 in *.
    pose proof (year_starts (y + 1) ltac:(lia)) as Hs. replace (y + 1 - 1) with y in Hs by lia. lia.
  - assert (month_day_ok (is_leap y) doy = true) as Ht by (apply month_day_table; lia).
    unfold month_day_ok in Ht. destruct (month_day doy) as [m d]. rewrite (proj2 (Z.leb_gt 306 doy)) in Ht by done.
    bool_prop. assert ((m <=? 2) = false) as Hm2 by by destruct (m <=? 2). rewrite Hm2 in *.
    pose proof (year_starts y ltac:(lia)) as Hs. pose proof (march_next y). destruct (is_leap y); lia.
Qed.

(** ** A day has one date *)

Lemma months_apart leap m n : 1 ≤ m → m < n → n ≤ 12 → days_before_month leap m + month_length leap m ≤ days_before_month leap n.
Proof.
  intros Hm Hmn Hn.
  assert (forallb (λ m, forallb (λ n, (n <=? m) || (days_before_month leap m + month_length leap m <=? days_before_month leap n)) (seqZ 1 12)) (seqZ 1 12) = true)
    as Ht by (by destruct leap; vm_compute).
  apply (forallb_seqZ _ _ _ m) in Ht; [|lia]. apply (forallb_seqZ _ _ _ n) in Ht; [|lia]. cbn beta in Ht.
  apply orb_true_iff in Ht as [Ht|Ht]; bool_prop; lia.
Qed.
Lemma year_length leap m : 1 ≤ m ≤ 12 → 0 ≤ days_before_month leap m ∧ days_before_month leap m + month_length leap m ≤ if leap then 366 else 365.
Proof.
  intros Hm. assert (forallb (λ m, (0 <=? days_before_month leap m) && (days_before_month leap m + month_length leap m <=? if leap then 366 else 365)) (seqZ 1 12) = true)
    as Ht by (by destruct leap; vm_compute).
  apply (forallb_seqZ _ _ _ m) in Ht; [|lia]. cbn beta in Ht. bool_prop. split; assumption.
Qed.
Lemma years_apart x y : 1970 ≤ x → x < y → days_before_year x + days_in_year x ≤ days_before_year y.
Proof.
  intros Hx Hxy. rewrite <- days_before_year_next by done. pattern y. apply (Zlt_lower_bound_ind _ (x + 1)); [|lia]. clear y Hxy.
  intros y IH Hy. destruct (Z.eq_dec y (x + 1)) as [->|]; [done|]. specialize (IH (y - 1) ltac:(lia)).
  replace y with (y - 1 + 1) by lia. rewrite (days_before_year_next (y - 1)) by lia. pose proof (days_in_year_bounds (y - 1)). lia.
Qed.
Lemma date_unique y m d y' m' d' :
  1970 ≤ y → 1 ≤ m ≤ 12 → 1 ≤ d ≤ month_length (is_leap y) m →
  1970 ≤ y' → 1 ≤ m' ≤ 12 → 1 ≤ d' ≤ month_length (is_leap y') m' →
  days_before_year y + days_before_month (is_leap y) m + (d - 1) = days_before_year y' + days_before_month (is_leap y') m' + (d' - 1) →
  (y, m, d) = (y', m', d').
Proof.
  intros Hy Hm Hd Hy' Hm' Hd' He.
  pose proof (year_length (is_leap y) m Hm). pose proof (year_length (is_leap y') m' Hm').
  assert (y = y') as <-.
  { destruct (Z.lt_trichotomy y y') as [Hl|[?|Hl]]; [|done|];
      [pose proof (years_apart y y' Hy Hl)|pose proof (years_apart y' y Hy' Hl)]; unfold days_in_year in *; destruct (is_leap y), (is_leap y'); lia. }
  assert (m = m') as <-.
  { destruct (Z.lt_trichotomy m m') as [Hl|[?|Hl]]; [|done|];
      [pose proof (months_apart (is_leap y) m m')|pose proof (months_apart (is_leap y) m' m)]; lia. }
  repeat f_equal; lia.
Qed.

(** C32: the two calendars of the program, the loop over years and months of the history and the
    arithmetic of the soak harness, give the same date for every instant since 1970, and the time
    stamp of the harness is that of the history with a T and a Z. *)
Theorem calendars_agree secs : 0 ≤ secs → ∃ c, civil_of secs = Some c ∧
  days_to_ymd (secs / 86400) = (c_year c, c_month c, c_day c) ∧
  chrono_timestamp secs =
    show_u04 (c_year c) +:+ "-" +:+ show_u02 (c_month c) +:+ "-" +:+ show_u02 (c_day c) +:+ "T" +:+ show_u02 (c_hour c) +:+ ":"
    +:+ show_u02 (c_minute c) +:+ ":" +:+ show_u02 (c_second c) +:+ "Z".
Proof.
  intros Hs. destruct (civil_of_spec secs Hs) as (c & Hc & [] & He). exists c. split; [done|].
  assert (c_hour c = secs mod 86400 / 3600 ∧ c_minute c = secs mod 86400 mod 3600 / 60 ∧ c_second c = secs mod 86400 mod 60) as (Hh & Hmi & Hse).
  { unfold civil_of in Hc. destruct (year_loop _ _ _) as [[y rem]|]; [|done]. cbn [mbind option_bind] in Hc.
    destruct (month_loop _ _ _). by injection Hc as <-. }
  assert (days_to_ymd (secs / 86400) = (c_year c, c_month c, c_day c)) as Hy.
  { pose proof (days_to_ymd_spec (secs / 86400) ltac:(apply Z.div_pos; lia)) as Hsp. destruct (days_to_ymd (secs / 86400)) as [[y m] d].
    destruct Hsp as (? & ? & ? & Hd). apply date_unique; try done. rewrite Hd. unfold epoch_of in He. Z.to_euclidean_division_equations; lia. }
  split; [done|]. unfold chrono_timestamp. by rewrite Hy, Hh, Hmi, Hse.
Qed.
Lemma calendars_agree_witness : chrono_timestamp 951868799 = "2000-02-29T23:59:59Z".
Proof.
  destruct (calendars_agree 951868799) as (c & Hc & _ & ->); [lia|]. revert Hc. vm_compute (civil_of _). intros [= <-]. by vm_compute.
Defined.

(** * The harness *)

(** ** Configuration *)

Record Scenario : Type := mkScenario { sc_name : string; command : list string; timeout_secs : Z }.
(** The thresholds of the file are parsed and read nowhere; they are left out. *)
Record SoakConfig : Type := mkConfig { duration_seconds : Z; report_file : string; scenarios : list Scenario }.
Definition default_report_file : string := "soak-report.json".
Definition default_scenarios : list Scenario :=
  [mkScenario "healthz" ["sharecli"; "health"; "--json"] 10;
   mkScenario "status" ["sharecli"; "status"; "--json"] 15;
   mkScenario "config-show" ["sharecli"; "config"; "show"; "--json"] 10].

(** Why the harness has no report: an error of a file or of the parser, a panic, or the fuel. *)
Inductive Stop : Type := Failed | Panicked | OutOfFuel.

(** What is at the path of the configuration: nothing, or a file that may not be readable. *)
Definition load_config (from_yaml : string → option SoakConfig) (file : option (option string)) : result SoakConfig Stop :=
  match file with
  | Some content =>
      text <-? ok_or Failed content;;
      ok_or Failed (from_yaml text)
  | None => Ok (mkConfig 600 "soak-report.json" [])
  end.

(** ** Measurements *)

(** [get_process_memory_bytes] on the text of [/proc/self/status], if it can be read: the first
    line that parses counts. *)
Definition memory_line (line : string) : option Z :=
  kvp ← strip_prefix "VmRSS:" line;
  kb_str ← strip_suffix " kB" (trim kvp);
  kb ← parse_uint u64_max (trim kb_str);
  Some (as_u64 (kb * 1024)).
Definition get_process_memory_bytes (status : option string) : Z :=
  match status with
  | Some text => default 0 (head (omap memory_line (str_lines text)))
  | None => 0
  end.

(** [sort_unstable] on numbers. *)
Definition z_sort (l : list Z) : list Z := sort_by Z.leb l.
(** [percentile]; [None] is an index out of range.  The floating-point product is the nearest number
    to [p / 100 * (n - 1)] and the halves are exact, so [round] is that of the rational. *)
Definition percentile_index (n p : Z) : Z := (2 * p * (n - 1) + 100) / 200.
Definition percentile (sorted : list Z) (p : Z) : option Z :=
  match sorted with
  | [] => Some 0
  | _ => sorted !! Z.to_nat (percentile_index (Z.of_nat (length sorted)) p)
  end.

(** ** The loop *)

(** What a command did: how long it took, and, if it started, whether it succeeded and the status
    text of the harness afterwards. *)
Record CmdRun : Type := mkRun { took : Z; outcome : option (bool * option string) }.

(** The accumulator of a scenario. *)
Record Acc : Type := mkAcc { a_name : string; a_latencies : list Z; a_errors : Z; a_memory : Z }.
Record Soak : Type := mkSoak {
  scenario_runs : list Acc; total_requests : Z; total_errors : Z; max_memory : Z; clock : Z }.

Definition failed (r : CmdRun) : Z := match outcome r with Some (true, _) => 0 | _ => 1 end.
Definition elapsed_ms (r : CmdRun) : Z := took r / 10 ^ 6.
Definition memory_of (r : CmdRun) : Z :=
  match outcome r with Some (_, status) => get_process_memory_bytes status | None => 0 end.
Definition latency_of (r : CmdRun) : list Z := match outcome r with Some _ => [elapsed_ms r] | None => [] end.

(** What a run adds to the accumulator of its scenario. *)
Definition record_run (a : Acc) (r : CmdRun) : Acc :=
  mkAcc (a_name a) (a_latencies a ++ latency_of r) (a_errors a + failed r) (Z.max (a_memory a) (memory_of r)).

Section Loop.
Context (env : Z → CmdRun) (late : nat → Z) (total interval : Z).

(** One scenario: [scenario.command[0]] panics when there is none. *)
Definition run_scenario (i : nat) (s : Scenario) (st : Soak) : result Soak Stop :=
  match command s with
  | [] => Err Panicked
  | _ :: _ =>
      let r := env (total_requests st) in
      Ok (mkSoak (alter (λ a, record_run a r) i (scenario_runs st)) (total_requests st + 1)
            (total_errors st + failed r) (Z.max (max_memory st) (memory_of r)) (clock st + took r))
  end.
Fixpoint run_scenarios (i : nat) (l : list Scenario) (st : Soak) : result Soak Stop :=
  match l with
  | [] => Ok st
  | s :: l' =>
      st' <-? run_scenario i s st;;
      run_scenarios (S i) l' st'
  end.

(** The loop of [run]; a sleep may end [late]. *)
Fixpoint soak_loop (fuel round : nat) (l : list Scenario) (st : Soak) : result Soak Stop :=
  match fuel with
  | O => Err OutOfFuel
  | S n =>
      if total <=? clock st then Ok st
      else
        st' <-? run_scenarios 0 l st;;
        let remaining := saturating_sub total (clock st') in
        if remaining =? 0 then Ok st'
        else soak_loop n (S round) l
               (mkSoak (scenario_runs st') (total_requests st') (total_errors st') (max_memory st')
                  (clock st' + Z.min interval remaining + late round))
  end.
End Loop.

(** ** The report *)

Record ScenarioResult : Type := mkResult {
  sr_name : string; runs : Z; sr_errors : Z; p50_ms : Z; p99_ms : Z; sr_max_memory_bytes : Z }.
(** [error_rate] and [uptime_pct] are quotients, of which the two numbers are kept. *)
Record SoakReport : Type := mkReport {
  sha : string; duration_sec : Z; interval_sec : Z; started_at : string; finished_at : string;
  rp_requests : Z; errors : Z; error_rate : Z * Z; uptime_pct : Z * Z;
  p99_latency_ms : Z; p50_latency_ms : Z; max_memory_bytes : Z;
  scenario_results : list ScenarioResult; note : string }.

Definition scenario_result (a : Acc) : result ScenarioResult Stop :=
  let sorted := z_sort (a_latencies a) in
  p50 <-? ok_or Panicked (percentile sorted 50);;
  p99 <-? ok_or Panicked (percentile sorted 99);;
  Ok (mkResult (a_name a) (Z.of_nat (length sorted)) (a_errors a) p50 p99 (a_memory a)).
Fixpoint scenario_results_of (l : list Acc) : result (list ScenarioResult) Stop :=
  match l with
  | [] => Ok []
  | a :: l' =>
      r <-? scenario_result a;;
      rs <-? scenario_results_of l';;
      Ok (r :: rs)
  end.

(** The subtraction for [uptime_pct] panics when there are more errors than requests. *)
Definition report_of (git_sha started finished : string) (interval : Z) (st : Soak) : result SoakReport Stop :=
  let n := total_requests st in
  up <-? (if 0 <? n then if total_errors st <=? n then Ok (100 * (n - total_errors st), n) else Err Panicked else Ok (100, 1));;
  let all := z_sort (concat (a_latencies <$> scenario_runs st)) in
  p50 <-? ok_or Panicked (percentile all 50);;
  p99 <-? ok_or Panicked (percentile all 99);;
  results <-? scenario_results_of (scenario_runs st);;
  Ok (mkReport git_sha (clock st / 10 ^ 9) (interval / 10 ^ 9) started finished n (total_errors st)
        (if 0 <? n then (total_errors st, n) else (0, 1)) up p99 p50 (max_memory st) results EmptyString).

(** [write_report] over the contents at the path: the file is emptied before it is written. *)
Record FsAnswers : Type := mkFs { parent_exists : bool; mkdir_ok : bool; create_ok : bool; write_ok : bool }.
Definition write_report (io : FsAnswers) (json : string) (file : option string) : option string * result unit Stop :=
  if negb (parent_exists io) && negb (mkdir_ok io) then (file, Err Failed)
  else if negb (create_ok io) then (file, Err Failed)
  else if write_ok io then (Some json, Ok tt) else (Some EmptyString, Err Failed).

(** The interval: given, or a tenth of the duration between one and thirty seconds. *)
Definition interval_of (interval_secs : option Z) (duration : Z) : Z :=
  match interval_secs with
  | Some s => s * 10 ^ 9
  | None => Z.max 1000 (Z.min 30000 (100 * duration)) * 10 ^ 6
  end.

(** [get_git_sha]: what git printed, if it ran and succeeded. *)
Definition get_git_sha (git : option (bool * string)) : string :=
  match git with Some (true, out) => trim out | _ => "unknown" end.
Definition initial (l : list Scenario) : Soak := mkSoak ((λ s, mkAcc (sc_name s) [] 0 0) <$> l) 0 0 0 0.
(** Each round but the last sleeps the interval, or up to the end. *)
Definition rounds_bound (total interval : Z) : nat := Z.to_nat (total / interval + 2).

(** [run] up to the write: the state of the clock at the two time stamps is given. *)
Definition soak_report (env : Z → CmdRun) (late : nat → Z) (git : option (bool * string)) (started finished : Z)
    (duration_secs interval_secs : option Z) (config : SoakConfig) : result SoakReport Stop :=
  let duration := default (duration_seconds config) duration_secs in
  let interval := interval_of interval_secs duration in
  match scenarios config with
  | [] =>
      Ok (mkReport (get_git_sha git) duration (interval / 10 ^ 9) (chrono_timestamp started) (chrono_timestamp finished)
            0 0 (0, 1) (100, 1) 0 0 0 [] "no scenarios configured")
  | l =>
      st <-? soak_loop env late (duration * 10 ^ 9) interval (rounds_bound (duration * 10 ^ 9) interval) 0 l (initial l);;
      report_of (get_git_sha git) (chrono_timestamp started) (chrono_timestamp finished) interval st
  end.
Definition run (from_yaml : string → option SoakConfig) (to_json : SoakReport → string) (io : FsAnswers)
    (env : Z → CmdRun) (late : nat → Z) (git : option (bool * string)) (started finished : Z)
    (duration_secs interval_secs : option Z) (config_file : option (option string)) (file : option string)
    : option string * result SoakReport Stop :=
  match config <-? load_config from_yaml config_file;;
        soak_report env late git started finished duration_secs interval_secs config with
  | Err e => (file, Err e)
  | Ok report =>
      match write_report io (to_json report) file with
      | (file', Ok _) => (file', Ok report)
      | (file', Err e) => (file', Err e)
      end
  end.

(** ** Percentiles *)

Lemma percentile_index_range n p : 0 < n → 0 ≤ p ≤ 100 → 0 ≤ percentile_index n p < n.
Proof.
  intros Hn Hp. unfold percentile_index. split; [apply Z.div_pos; nia|]. apply Z.div_lt_upper_bound; nia.
Qed.
Lemma percentile_index_mono n p q : 0 < n → p ≤ q → percentile_index n p ≤ percentile_index n q.
Proof. intros Hn Hpq. unfold percentile_index. apply Z.div_le_mono; nia. Qed.

Lemma z_sort_sorted l : StronglySorted Z.le (z_sort l).
Proof.
  unfold z_sort. eapply StronglySorted_ind with (P := λ l, StronglySorted Z.le l); [constructor| |apply sort_by_sorted; intros; rewrite ?Z.leb_le in *; lia].
  intros x k _ IH Hf. constructor; [done|]. eapply Forall_impl; [done|]. intros y. apply Z.leb_le.
Qed.
(** The entries above the one at an index of a sorted list come after it, those before it are not above. *)
Lemma z_sorted_split (l : list Z) i x : StronglySorted Z.le l → l !! i = Some x →
  Forall (λ y, y ≤ x) (take i l) ∧ Forall (λ y, x ≤ y) (drop (S i) l).
Proof.
  intros Hs Hi. rewrite <- (take_drop_middle l i x Hi) in Hs. apply StronglySorted_app in Hs as (H1 & _ & H2).
  apply StronglySorted_inv in H2 as [_ H2]. split; [|done]. apply Forall_forall. intros y Hy. apply H1; [done|]. by left.
Qed.
Lemma above_index (l : list Z) (i : nat) (x : Z) : StronglySorted Z.le l → l !! i = Some x →
  (length (filter (λ y, (x < y)%Z) l) + S i ≤ length l)%nat.
Proof.
  intros Hs Hi. pose proof (lookup_lt_Some _ _ _ Hi). destruct (z_sorted_split l i x Hs Hi) as [Hlo _].
  rewrite <- (take_drop_middle l i x Hi) at 1. rewrite filter_app, filter_cons, decide_False by lia.
  rewrite (filter_none _ (take i l)) by (eapply Forall_impl; [done|cbn; lia]). cbn [app].
  pose proof (length_filter (λ y, (x < y)%Z) (drop (S i) l)) as Hd. rewrite length_drop in Hd. lia.
Qed.
Lemma sorted_mono (l : list Z) i j x y : StronglySorted Z.le l → (i ≤ j)%nat → l !! i = Some x → l !! j = Some y → x ≤ y.
Proof.
  intros Hs Hij Hi Hj. destruct (decide (i = j)) as [->|]; [simplify_eq; done|].
  destruct (z_sorted_split l i x Hs Hi) as [_ Hhi]. rewrite Forall_lookup in Hhi. apply (Hhi (j - S i)%nat).
  rewrite lookup_drop. by replace (S i + (j - S i))%nat with j by lia.
Qed.

(** The [p]-th percentile of some observations, by counting: [k] is the number nearest to
    [p / 100 * (n - 1)], halves up, and [v] is an observation with at most [k] below it and more than
    [k] not above it. Of no observations it is 0. *)
Definition is_percentile (l : list Z) (p v : Z) : Prop :=
  match l with
  | [] => v = 0
  | _ =>
      ∃ k, 200 * k - 100 ≤ 2 * p * (Z.of_nat (length l) - 1) < 200 * k + 100 ∧ v ∈ l ∧
        Z.of_nat (length (filter (λ x, x < v) l)) ≤ k < Z.of_nat (length (filter (λ x, x ≤ v) l))
  end.

Lemma is_percentile_perm l k p v : l ≡ₚ k → is_percentile l p v → is_percentile k p v.
Proof.
  intros Hp. destruct l as [|x l]; [apply Permutation_nil_l in Hp as ->; done|].
  destruct k as [|y k]; [by apply Permutation_nil_r in Hp|].
  unfold is_percentile. intros (i & Hi & Hv & Hc). exists i.
  split; [by rewrite <- Hp|]. split; [by rewrite <- Hp|]. by rewrite <- !Hp.
Qed.

Lemma counts_at_index (l : list Z) (i : nat) (x : Z) : StronglySorted Z.le l → l !! i = Some x →
  (length (filter (λ y, (y < x)%Z) l) ≤ i < length (filter (λ y, (y ≤ x)%Z) l))%nat.
Proof.
  intros Hs Hi. pose proof (lookup_lt_Some _ _ _ Hi). destruct (z_sorted_split l i x Hs Hi) as [Hlo Hhi].
  rewrite <- (take_drop_middle l i x Hi). rewrite !filter_app, !filter_cons, decide_False, decide_True by lia.
  rewrite (filter_none (λ y, (y < x)%Z) (drop (S i) l)) by (eapply Forall_impl; [done|cbn; lia]).
  rewrite (filter_all (λ y, (y ≤ x)%Z) (take i l)) by done.
  pose proof (length_filter (λ y, (y < x)%Z) (take i l)) as Hf. rewrite length_take in Hf.
  rewrite !length_app, length_take. cbn [length]. lia.
Qed.

(** [percentile] of the sorted observations is their percentile. *)
Lemma percentile_spec l p : 0 ≤ p ≤ 100 → ∃ v, percentile (z_sort l) p = Some v ∧ is_percentile l p v.
Proof.
  intros Hpc. pose proof (sort_by_perm Z.leb l) as Hp. fold (z_sort l) in Hp. pose proof (z_sort_sorted l) as Hs.
  destruct l as [|x l].
  { apply Permutation_nil_r in Hp. exists 0. by rewrite Hp. }
  destruct (z_sort (x :: l)) as [|a k] eqn:Hl; [by apply Permutation_nil_l in Hp|].
  set (n := Z.of_nat (length (a :: k))). assert (0 < n) by (subst n; cbn; lia).
  pose proof (percentile_index_range n p ltac:(done) Hpc) as Hr.
  destruct (lookup_lt_is_Some_2 (a :: k) (Z.to_nat (percentile_index n p))) as [v Hv]; [subst n; lia|].
  exists v. split; [done|]. pose proof (counts_at_index _ _ _ Hs Hv) as Hc.
  rewrite Hp in Hc. exists (percentile_index n p). split_and!; [..|lia|lia].
  - rewrite <- Hp. fold n. unfold percentile_index. Z.to_euclidean_division_equations; lia.
  - rewrite <- Hp. fold n. unfold percentile_index. Z.to_euclidean_division_equations; lia.
  - rewrite <- Hp. by eapply list_elem_of_lookup_2.
Qed.

(** A percentile of some numbers is one of them; the two the report has are in order, and at most one
    in a hundred, rounded, is above the greater. *)
Lemma percentiles_spec l : ∃ p50 p99, percentile (z_sort l) 50 = Some p50 ∧ percentile (z_sort l) 99 = Some p99 ∧
  p50 ≤ p99 ∧ (l ≠ [] → p50 ∈ l ∧ p99 ∈ l ∧ 100 * Z.of_nat (length (filter (λ x, p99 < x) l)) ≤ Z.of_nat (length l) + 49).
Proof.
  pose proof (sort_by_perm Z.leb l) as Hp. fold (z_sort l) in Hp. pose proof (z_sort_sorted l) as Hs.
  destruct (z_sort l) as [|a k] eqn:Hl.
  { exists 0, 0. split_and!; [done..|lia|]. intros []. by apply Permutation_nil_l in Hp. }
  set (n := Z.of_nat (length (a :: k))). assert (0 < n) by (subst n; cbn; lia).
  pose proof (percentile_index_range n 50 ltac:(done) ltac:(lia)) as H50.
  pose proof (percentile_index_range n 99 ltac:(done) ltac:(lia)) as H99.
  destruct (lookup_lt_is_Some_2 (a :: k) (Z.to_nat (percentile_index n 50))) as [p50 Hp50]; [subst n; lia|].
  destruct (lookup_lt_is_Some_2 (a :: k) (Z.to_nat (percentile_index n 99))) as [p99 Hp99]; [subst n; lia|].
  exists p50, p99. split_and!; [done|done| |intros _; split_and!].
  - eapply sorted_mono; [done| |done|done]. pose proof (percentile_index_mono n 50 99 ltac:(done) ltac:(lia)). lia.
  - rewrite <- Hp. by eapply list_elem_of_lookup_2.
  - rewrite <- Hp. by eapply list_elem_of_lookup_2.
  - pose proof (above_index _ _ _ Hs Hp99) as Hab. rewrite <- Hp. fold n.
    unfold percentile_index in *. Z.to_euclidean_division_equations; lia.
Qed.

(** ** What the loop accumulates *)

(** The [k] commands from the [n]-th on, and those of the [i]-th of [w] scenarios in [r] rounds. *)
Fixpoint window (env : Z → CmdRun) (n : Z) (k : nat) : list CmdRun :=
  match k with O => [] | S k' => env n :: window env (n + 1) k' end.
Definition column (env : Z → CmdRun) (w i r : nat) : list CmdRun :=
  (λ j : nat, env (Z.of_nat (j * w + i))) <$> seq 0 r.

Lemma length_window env n k : length (window env n k) = k.
Proof. revert n. induction k as [|k IH]; intros n; cbn; [done|]. by rewrite IH. Qed.
Lemma window_app env n j k : window env n (j + k) = window env n j ++ window env (n + Z.of_nat j) k.
Proof.
  revert n. induction j as [|j IH]; intros n; cbn [window Nat.add app]; [f_equal; lia|].
  rewrite IH. by replace (n + 1 + Z.of_nat j) with (n + Z.of_nat (S j)) by lia.
Qed.
Lemma window_lookup env n k i : (i < k)%nat → window env n k !! i = Some (env (n + Z.of_nat i)).
Proof.
  revert n i. induction k as [|k IH]; intros n [|i] Hi; [lia|lia|cbn; do 2 f_equal; lia|].
  cbn [window lookup list_lookup]. rewrite IH by lia. by replace (n + 1 + Z.of_nat i) with (n + Z.of_nat (S i)) by lia.
Qed.
Lemma column_S env w i r : column env w i (S r) = column env w i r ++ [env (Z.of_nat (r * w) + Z.of_nat i)].
Proof. unfold column. rewrite seq_S, fmap_app. cbn. do 3 f_equal. lia. Qed.

Section Accounts.
Context (env : Z → CmdRun) (late : nat → Z) (total interval : Z).
Hypothesis took_nonneg : ∀ k, 0 ≤ took (env k).
Hypothesis late_nonneg : ∀ r, 0 ≤ late r.
Hypothesis interval_pos : 0 < interval.

Lemma window_took n k : 0 ≤ list_sum_Z (took <$> window env n k).
Proof.
  revert n. induction k as [|k IH]; intros n; cbn [window fmap list_fmap]; [done|]. specialize (IH (n + 1)). pose proof (took_nonneg n).
  unfold list_sum_Z in *. cbn. lia.
Qed.
(** One pass over the scenarios records one run with each. *)
Lemma run_scenarios_spec l : Forall (λ s, command s ≠ []) l → ∀ pre accs n e m t, length accs = length l →
  run_scenarios env (length pre) l (mkSoak (pre ++ accs) n e m t) =
  let w := window env n (length l) in
  Ok (mkSoak (pre ++ zip_with record_run accs w) (n + Z.of_nat (length l)) (e + list_sum_Z (failed <$> w))
        (foldl Z.max m (memory_of <$> w)) (t + list_sum_Z (took <$> w))).
Proof.
  induction 1 as [|s l Hs Hl IH]; intros pre accs n e m t Hlen.
  { destruct accs; [|done]. cbn. do 2 f_equal; lia. }
  destruct accs as [|a accs]; [done|]. cbn [run_scenarios]. unfold run_scenario. destruct (command s); [done|].
  cbn [scenario_runs total_requests total_errors max_memory clock result_bind].
  rewrite alter_app_r_alt by lia. replace (length pre - length pre)%nat with 0%nat by lia. cbn [alter list_alter].
  specialize (IH (pre ++ [record_run a (env n)]) accs (n + 1) (e + failed (env n)) (Z.max m (memory_of (env n))) (t + took (env n)) ltac:(cbn in Hlen; lia)).
  rewrite length_app, <- app_assoc in IH. cbn [length app] in IH. rewrite Nat.add_1_r in IH. rewrite IH.
  cbn [length window zip_with fmap list_fmap foldl list_sum_Z foldr]. rewrite <- app_assoc. cbn [app]. unfold list_sum_Z. do 2 f_equal; lia.
Qed.

Lemma zip_latencies accs w : length accs = length w →
  concat (a_latencies <$> zip_with record_run accs w) ≡ₚ concat (a_latencies <$> accs) ++ concat (latency_of <$> w).
Proof.
  revert w. induction accs as [|a accs IH]; intros [|x w] Hl; try done. cbn. rewrite IH by (cbn in Hl; lia). solve_Permutation.
Qed.
Lemma zip_errors accs w : length accs = length w →
  list_sum_Z (a_errors <$> zip_with record_run accs w) = list_sum_Z (a_errors <$> accs) + list_sum_Z (failed <$> w).
Proof.
  revert w. induction accs as [|a accs IH]; intros [|x w] Hl; try done. cbn in *. unfold list_sum_Z in *. rewrite IH by lia. lia.
Qed.

(** The state after [r] rounds over [l]. *)
Record accounted (l : list Scenario) (r : nat) (st : Soak) : Prop := {
  ac_requests : total_requests st = Z.of_nat (r * length l);
  ac_errors : total_errors st = list_sum_Z (failed <$> window env 0 (r * length l));
  ac_memory : max_memory st = foldl Z.max 0 (memory_of <$> window env 0 (r * length l));
  ac_length : length (scenario_runs st) = length l;
  ac_columns : ∀ i s, l !! i = Some s →
    scenario_runs st !! i = Some (foldl record_run (mkAcc (sc_name s) [] 0 0) (column env (length l) i r));
  ac_latencies : concat (a_latencies <$> scenario_runs st) ≡ₚ concat (latency_of <$> window env 0 (r * length l));
  ac_sum : list_sum_Z (a_errors <$> scenario_runs st) = total_errors st }.

Lemma initial_accounted l : accounted l 0 (initial l).
Proof.
  split; cbn; try done.
  - by rewrite length_fmap.
  - intros i s Hi. by rewrite list_lookup_fmap, Hi.
  - induction l; cbn; done.
  - induction l as [|s l IH]; cbn; [done|]. by rewrite IH.
Qed.
Lemma round_accounted l r st : Forall (λ s, command s ≠ []) l → accounted l r st →
  ∃ st', run_scenarios env 0 l st = Ok st' ∧ accounted l (S r) st' ∧ clock st ≤ clock st'.
Proof.
  intros Hc []. destruct st as [accs n e m t]. cbn in *. subst n.
  pose proof (run_scenarios_spec l Hc [] accs (Z.of_nat (r * length l)) e m t ltac:(done)) as Hr. cbn in Hr. rewrite Hr.
  set (w := window env (Z.of_nat (r * length l)) (length l)) in *.
  assert (length accs = length w) as Hw by (subst w; by rewrite length_window).
  assert (window env 0 (S r * length l) = window env 0 (r * length l) ++ w) as Hwin.
  { replace (S r * length l)%nat with (r * length l + length l)%nat by lia. by rewrite window_app. }
  eexists. split; [done|]. split.
  2:{ cbn. pose proof (window_took (Z.of_nat (r * length l)) (length l)). subst w. lia. }
  split; rewrite ?Hwin; cbn [scenario_runs total_requests total_errors max_memory clock].
  - lia.
  - rewrite fmap_app, list_sum_Z_app. lia.
  - rewrite fmap_app, foldl_app. by rewrite <- ac_memory0.
  - rewrite length_zip_with. lia.
  - intros i s Hi. pose proof (lookup_lt_Some _ _ _ Hi) as Hlt. rewrite lookup_zip_with, (ac_columns0 i s Hi). cbn [mbind option_bind].
    subst w. rewrite window_lookup by done. cbn [option_fmap option_map fmap].
    rewrite column_S, foldl_app. done.
  - rewrite zip_latencies, fmap_app, concat_app by done. by rewrite ac_latencies0.
  - rewrite zip_errors by done. unfold list_sum_Z in *. lia.
Qed.

(** The loop ends within its fuel, at or after the end of the configured time. *)
Lemma soak_loop_ends l fuel : Forall (λ s, command s ≠ []) l → ∀ round r st, accounted l r st →
  (0 < fuel)%nat → total - clock st ≤ (Z.of_nat fuel - 1) * interval →
  ∃ r' st', soak_loop env late total interval fuel round l st = Ok st' ∧ accounted l r' st' ∧ total ≤ clock st'.
Proof.
  intros Hc. induction fuel as [|n IH]; intros round r st Ha Hf Hm; [lia|]. cbn [soak_loop].
  destruct (Z.leb_spec total (clock st)); [by exists r, st|].
  destruct (round_accounted l r st Hc Ha) as (st' & -> & Ha' & Hclk). cbn [result_bind].
  unfold saturating_sub. destruct (Z.eqb_spec (Z.max 0 (total - clock st')) 0); [exists (S r), st'; split_and!; [done..|lia]|].
  pose proof (late_nonneg round). apply IH with (S r).
  - destruct st', Ha'; by split.
  - destruct n; [|lia]. cbn in Hm. lia.
  - cbn [clock]. destruct n; [cbn in Hm; lia|]. rewrite Z.max_r by lia. nia.
Qed.
End Accounts.

(** ** The report *)

Lemma failed_bound env n k : 0 ≤ list_sum_Z (failed <$> window env n k) ≤ Z.of_nat k.
Proof.
  revert n. induction k as [|k IH]; intros n; [done|]. specialize (IH (n + 1)). unfold list_sum_Z in *.
  assert (0 ≤ failed (env n) ≤ 1) by (unfold failed; destruct (outcome (env n)) as [[[] ?]|]; lia).
  cbn [window]. rewrite fmap_cons. cbn [foldr]. lia.
Qed.
Lemma fold_record c a : foldl record_run a c =
  mkAcc (a_name a) (a_latencies a ++ concat (latency_of <$> c)) (a_errors a + list_sum_Z (failed <$> c)) (foldl Z.max (a_memory a) (memory_of <$> c)).
Proof.
  revert a. induction c as [|x c IH]; intros a; cbn; [destruct a; cbn; by rewrite app_nil_r, Z.add_0_r|].
  rewrite IH. unfold record_run. cbn. rewrite <- app_assoc. f_equal. unfold list_sum_Z. lia.
Qed.

(** The result of a scenario from its runs. *)
Definition result_from (a : Acc) (sr : ScenarioResult) : Prop :=
  sr_name sr = a_name a ∧ runs sr = Z.of_nat (length (a_latencies a)) ∧ sr_errors sr = a_errors a ∧
  is_percentile (a_latencies a) 50 (p50_ms sr) ∧ is_percentile (a_latencies a) 99 (p99_ms sr) ∧
  sr_max_memory_bytes sr = a_memory a.
Lemma scenario_result_spec a : ∃ sr, scenario_result a = Ok sr ∧ result_from a sr.
Proof.
  unfold scenario_result. destruct (percentile_spec (a_latencies a) 50) as (p50 & -> & H50); [lia|].
  destruct (percentile_spec (a_latencies a) 99) as (p99 & -> & H99); [lia|]. cbn.
  eexists. split; [done|]. unfold result_from. cbn. unfold z_sort. rewrite (Permutation_length (sort_by_perm _ _)).
  by split_and!.
Qed.
Lemma scenario_results_spec l : ∃ rs, scenario_results_of l = Ok rs ∧ Forall2 result_from l rs.
Proof.
  induction l as [|a l (rs & Hrs & IH)]; [by exists []|]. destruct (scenario_result_spec a) as (sr & Hsr & Hf).
  exists (sr :: rs). cbn. rewrite Hsr. cbn. rewrite Hrs. by split; [|constructor].
Qed.
Lemma result_errors l rs : Forall2 result_from l rs → list_sum_Z (sr_errors <$> rs) = list_sum_Z (a_errors <$> l).
Proof. unfold list_sum_Z. induction 1 as [|a sr l rs (_ & _ & He & _) _ IH]; cbn; [done|]. lia. Qed.

(** C33: for a configuration with at least one scenario, each with a command, and a positive interval,
    the soak harness returns within its bound of rounds, not before the configured time is over, and
    its report is the account of what it ran: every scenario once a round, as many errors as commands
    that failed or did not start, the errors of the scenarios adding up to them, the greatest memory
    seen, and the median and the 99th percentile of the latencies; and for each scenario its own runs,
    errors, memory, median and 99th percentile. *)
Theorem soak_report_exact env late git t0 t1 dur ivl config :
  let l := scenarios config in let d := default (duration_seconds config) dur in
  l ≠ [] → Forall (λ s, command s ≠ []) l → (∀ k, 0 ≤ took (env k)) → (∀ r, 0 ≤ late r) → 0 ≤ d → 0 < interval_of ivl d →
  ∃ rounds report, soak_report env late git t0 t1 dur ivl config = Ok report ∧
    let ran := window env 0 (rounds * length l) in
    d ≤ duration_sec report ∧
    rp_requests report = Z.of_nat (rounds * length l) ∧ errors report = list_sum_Z (failed <$> ran) ∧
    errors report ≤ rp_requests report ∧ list_sum_Z (sr_errors <$> scenario_results report) = errors report ∧
    max_memory_bytes report = foldl Z.max 0 (memory_of <$> ran) ∧
    length (scenario_results report) = length l ∧
    (∀ i s, l !! i = Some s → ∃ sr, scenario_results report !! i = Some sr ∧ sr_name sr = sc_name s ∧
       let own := column env (length l) i rounds in
       let seen := concat (latency_of <$> own) in
       runs sr = Z.of_nat (length seen) ∧ sr_errors sr = list_sum_Z (failed <$> own) ∧
       sr_max_memory_bytes sr = foldl Z.max 0 (memory_of <$> own) ∧
       is_percentile seen 50 (p50_ms sr) ∧ is_percentile seen 99 (p99_ms sr)) ∧
    is_percentile (concat (latency_of <$> ran)) 50 (p50_latency_ms report) ∧
    is_percentile (concat (latency_of <$> ran)) 99 (p99_latency_ms report) ∧
    p50_latency_ms report ≤ p99_latency_ms report.
Proof.
  intros l d Hl Hc Htook Hlate Hd Hi. unfold soak_report. fold l d.
  destruct (soak_loop_ends env late (d * 10 ^ 9) (interval_of ivl d) Htook Hlate Hi l (rounds_bound (d * 10 ^ 9) (interval_of ivl d)) Hc 0 0 (initial l)
    (initial_accounted env l)) as (r & st & Hst & Ha & Hclk).
  { unfold rounds_bound. pose proof (Z.div_pos (d * 10 ^ 9) _ ltac:(lia) Hi). lia. }
  { unfold rounds_bound. pose proof (Z.div_pos (d * 10 ^ 9) _ ltac:(lia) Hi).
    pose proof (Z.mul_succ_div_gt (d * 10 ^ 9) _ Hi). rewrite Z2Nat.id by lia. cbn [initial clock]. nia. }
  exists r. destruct Ha.
  assert (total_errors st ≤ total_requests st) as Hle by (pose proof (failed_bound env 0 (r * length l)); lia).
  destruct (percentiles_spec (concat (a_latencies <$> scenario_runs st))) as (p50 & p99 & H50 & H99 & Hp & _).
  destruct (percentile_spec (concat (a_latencies <$> scenario_runs st)) 50) as (q50 & E50 & Hq50); [lia|].
  destruct (percentile_spec (concat (a_latencies <$> scenario_runs st)) 99) as (q99 & E99 & Hq99); [lia|].
  rewrite H50 in E50. rewrite H99 in E99. injection E50 as <-. injection E99 as <-.
  destruct (scenario_results_spec (scenario_runs st)) as (rs & Hrs & Hf).
  assert (∃ up, report_of (get_git_sha git) (chrono_timestamp t0) (chrono_timestamp t1) (interval_of ivl d) st =
    Ok (mkReport (get_git_sha git) (clock st / 10 ^ 9) (interval_of ivl d / 10 ^ 9) (chrono_timestamp t0) (chrono_timestamp t1)
      (total_requests st) (total_errors st) (if 0 <? total_requests st then (total_errors st, total_requests st) else (0, 1)) up p99 p50 (max_memory st) rs EmptyString))
    as [up Hrep].
  { unfold report_of. rewrite (proj2 (Z.leb_le _ _) Hle), H50, H99, Hrs. destruct (0 <? total_requests st); eexists; done. }
  eexists. split; [refine (eq_trans _ Hrep); destruct l; [done|]; by rewrite Hst|].
  cbn [duration_sec rp_requests errors scenario_results p50_latency_ms p99_latency_ms max_memory_bytes].
  split_and!; [|done|done|done| |done| | | | |done].
  - apply Z.div_le_lower_bound; lia.
  - by rewrite (result_errors _ _ Hf).
  - by rewrite <- (Forall2_length _ _ _ Hf).
  - intros i s Hs. specialize (ac_columns0 i s Hs).
    destruct (Forall2_lookup_l _ _ _ _ _ Hf ac_columns0) as (sr & Hsr & Hn & Hru & He & Hs50 & Hs99 & Hmem).
    exists sr. rewrite fold_record in *. cbn in *. by split_and!.
  - by eapply is_percentile_perm.
  - by eapply is_percentile_perm.
Qed.

(** Two scenarios, of which the second has no program to start. *)
Definition demo_env (k : Z) : CmdRun :=
  if k mod 2 =? 0 then mkRun 300000000 (Some (true, None)) else mkRun 1000000 None.
Definition demo_config : SoakConfig := mkConfig 2 "r.json" [mkScenario "a" ["true"] 10; mkScenario "b" ["missing"] 10].
Lemma soak_report_exact_witness : ∃ rounds report sr,
  soak_report demo_env (λ _, 0) None 0 2 None (Some 1) demo_config = Ok report ∧
  2 ≤ duration_sec report ∧ rp_requests report = Z.of_nat (rounds * 2) ∧ errors report ≤ rp_requests report ∧
  scenario_results report !! 0%nat = Some sr ∧ is_percentile (concat (latency_of <$> column demo_env 2 0 rounds)) 50 (p50_ms sr).
Proof.
  destruct (soak_report_exact demo_env (λ _, 0) None 0 2 None (Some 1) demo_config)
    as (r & rep & Hr & Hd & Hn & _ & Hle & _ & _ & _ & Hs & _);
    [done|by repeat constructor|intros k; unfold demo_env; by destruct (_ =? _)|done|cbn; lia|cbn; lia|].
  destruct (Hs 0%nat (mkScenario "a" ["true"] 10) eq_refl) as (sr & Hsr & _ & _ & _ & _ & H50 & _).
  exists r, rep, sr. by split_and!.
Defined.
Example median_of_scenario : ∃ report, soak_report demo_env (λ _, 0) None 0 2 None (Some 1) demo_config = Ok report ∧
  ((λ sr, (p50_ms sr, p99_ms sr)) <$> scenario_results report) = [(300, 300); (0, 0)].
Proof. eexists. vm_compute. split_and!; reflexivity. Qed.

(** A scenario that never starts has errors and no runs, and counts against the others. *)
Example errors_without_runs : ∃ report, soak_report demo_env (λ _, 0) None 0 2 None (Some 1) demo_config = Ok report ∧
  rp_requests report = 4 ∧ ((λ sr, (runs sr, sr_errors sr)) <$> scenario_results report) = [(2, 0); (0, 2)].
Proof. eexists. vm_compute. split_and!; reflexivity. Qed.
(** Without a configuration file nothing is run, and the report says that everything is well. *)
Example missing_file_runs_nothing y : ∃ report,
  (c <-? load_config y None;; soak_report demo_env (λ _, 0) None 0 2 None None c) = Ok report ∧
  rp_requests report = 0 ∧ uptime_pct report = (100, 1).
Proof. eexists. split; [reflexivity|done]. Qed.
Example no_command_panics :
  soak_report demo_env (λ _, 0) None 0 2 None (Some 1) (mkConfig 2 "r.json" [mkScenario "a" [] 10]) = Err Panicked.
Proof. reflexivity. Qed.
(** A write that fails leaves an empty file in place of the earlier report. *)
Example report_lost : write_report (mkFs true true true false) "new" (Some "old") = (Some EmptyString, Err Failed).
Proof. reflexivity. Qed.
