(* ===== verification/FleetReport.v ===== *)
(** Fleet analytics and the CSV documents of the operator commands (src/commands/{report,render_csv}.rs,
    src/monitoring.rs and the companion blocks of sharecli-fleet): the report over the processes of a
    pool, the monitoring report with its recommendations, the health record, and the documents, which
    are read back.  The clock and the text of the load average are arguments. *)
From S2P Require Import Prelude FleetGate ProcTable Config RuntimePool.
From Stdlib Require Import QArith.
#[global] Open Scope Z_scope.

(** * Fleet report *)

Inductive ReportFormat : Type := Text | Json | Csv.
Inductive SortBy : Type := ByMemory | ByName.
Definition sort_by_of (s : string) : result SortBy string :=
  let l := to_ascii_lowercase s in
  if bool_decide (l = "memory") then Ok ByMemory else if bool_decide (l = "name") then Ok ByName
  else Err ("unknown sort key '" +:+ l +:+ "'; expected 'memory' or 'name'").
Definition report_format_of (s : string) : result ReportFormat string :=
  let l := to_ascii_lowercase s in
  if bool_decide (l = "text") then Ok Text else if bool_decide (l = "json") then Ok Json else if bool_decide (l = "csv") then Ok Csv
  else Err ("unknown format '" +:+ l +:+ "'; expected 'text', 'json', or 'csv'").

Record ProjectBreakdown : Type := mkBreakdown { pb_count : Z; pb_memory_mb : Z }.
Record TopConsumer : Type := mkConsumer { tc_pid : Z; tc_name : string; tc_project : option string; tc_memory_mb : Z }.
Record FleetReport : Type := mkFleetReport {
  fr_timestamp : Z; uptime_seconds : Z; total_processes : Z; total_memory_mb : Z;
  by_project : gmap string ProjectBreakdown; top_consumers : list TopConsumer;
  fr_thermal_pressure : string; fr_detected_agents : Z; fr_agent_contention : string; fr_gate_decision : string }.

Definition memory_le (a b : TopConsumer) : bool := tc_memory_mb b <=? tc_memory_mb a.
Definition consumer_le (s : SortBy) (a b : TopConsumer) : bool :=
  match s with ByMemory => memory_le a b | ByName => bool_decide (String.le (tc_name a) (tc_name b)) end.
Definition sort_consumers (l : list TopConsumer) (s : SortBy) : list TopConsumer := sort_by (consumer_le s) l.

Definition project_key (p : ProcessInfo) : string := default "<untagged>" (pi_project p).
(** [entry(key).or_insert(..)] and the two additions. *)
Definition add_process (m : gmap string ProjectBreakdown) (p : ProcessInfo) : gmap string ProjectBreakdown :=
  let e := default (mkBreakdown 0 0) (m !! project_key p) in
  <[project_key p := mkBreakdown (pb_count e + 1) (pb_memory_mb e + pi_memory_mb p)]> m.
Definition consumer_of (p : ProcessInfo) : TopConsumer := mkConsumer (pi_pid p) (pi_name p) (pi_project p) (pi_memory_mb p).
(** [Iterator::min]. *)
Definition min_of (l : list Z) : option Z := match l with [] => None | x :: l' => Some (foldl Z.min x l') end.

(** [build_report]; sums of megabytes stay far below the width of the counters. *)
Definition build_report (now : Z) (processes : list ProcessInfo) (gate : GateStatusSnapshot) (s : SortBy) : FleetReport :=
  let candidates := take 5 (sort_by memory_le (consumer_of <$> processes)) in
  let earliest := min_of (List.filter (λ t, 0 <? t) (pi_start_time <$> processes)) in
  mkFleetReport now (match earliest with Some t => saturating_sub now t | None => 0 end)
    (Z.of_nat (length processes)) (list_sum_Z (pi_memory_mb <$> processes)) (foldl add_process ∅ processes) (sort_consumers candidates s)
    (thermal_pressure gate) (detected_agents gate) (agent_contention gate) (gate_decision gate).

(** ** What the report adds up *)

(** The processes of a project. *)
Definition own (k : string) (l : list ProcessInfo) : list ProcessInfo := filter (λ p, project_key p = k) l.
Definition breakdown_of (l : list ProcessInfo) : option ProjectBreakdown :=
  match l with [] => None | _ => Some (mkBreakdown (Z.of_nat (length l)) (list_sum_Z (pi_memory_mb <$> l))) end.

Lemma breakdown_snoc l p : let e := default (mkBreakdown 0 0) (breakdown_of l) in
  breakdown_of (l ++ [p]) = Some (mkBreakdown (pb_count e + 1) (pb_memory_mb e + pi_memory_mb p)).
Proof.
  destruct l as [|q l]; cbn [app breakdown_of]; [cbn; do 2 f_equal; lia|]. cbn [default pb_count pb_memory_mb from_option].
  rewrite !app_comm_cons, length_app, fmap_app, list_sum_Z_app. do 2 f_equal; cbn; lia.
Qed.
Lemma by_project_lookup k l : foldl add_process ∅ l !! k = breakdown_of (own k l).
Proof.
  induction l as [|p l IH] using rev_ind; [done|]. rewrite foldl_snoc. unfold own in *. rewrite filter_app, filter_cons, filter_nil.
  unfold add_process at 1. destruct (decide (project_key p = k)) as [<-|Hk].
  - rewrite lookup_insert_eq, breakdown_snoc. unfold id. rewrite <- IH. done.
  - rewrite lookup_insert_ne by done. by rewrite app_nil_r.
Qed.
Lemma map_sum_insert m i x : map_sum (<[i:=x]> m) = map_sum m - default 0 (m !! i) + x.
Proof.
  rewrite <- insert_delete_eq, map_sum_insert_None by apply lookup_delete_eq. destruct (m !! i) as [y|] eqn:E; cbn.
  - rewrite (map_sum_delete m i y) by done. lia.
  - rewrite delete_id by done. lia.
Qed.
Lemma by_project_sums l : map_sum (pb_count <$> foldl add_process ∅ l) = Z.of_nat (length l) ∧
  map_sum (pb_memory_mb <$> foldl add_process ∅ l) = list_sum_Z (pi_memory_mb <$> l).
Proof.
  induction l as [|p l [IHc IHm]] using rev_ind; [cbn; by rewrite !fmap_empty, map_sum_empty|]. rewrite foldl_snoc, length_app, fmap_app, list_sum_Z_app.
  unfold add_process at 1 3. set (m := foldl add_process ∅ l) in *. rewrite !fmap_insert, !map_sum_insert, !lookup_fmap, IHc, IHm.
  destruct (m !! project_key p); cbn; split; lia.
Qed.

Lemma consumer_le_total s x y : consumer_le s x y = true ∨ consumer_le s y x = true.
Proof.
  destruct s; cbn; unfold memory_le; rewrite ?Z.leb_le, ?bool_decide_eq_true; [lia|apply (total String.le)].
Qed.
Lemma consumer_le_trans s x y z : consumer_le s x y = true → consumer_le s y z = true → consumer_le s x z = true.
Proof. destruct s; cbn; unfold memory_le; rewrite ?Z.leb_le, ?bool_decide_eq_true; [lia|intros; by etrans]. Qed.

(** The report adds up: every project has the number and the memory of its processes, the projects
    together those of the fleet; the consumers shown are as many as there are up to five, in the order
    asked for, and no process left out uses more memory than one of them. *)
Theorem report_adds_up now processes gate s : let r := build_report now processes gate s in
  (∀ k, by_project r !! k = breakdown_of (own k processes)) ∧
  map_sum (pb_count <$> by_project r) = total_processes r ∧ map_sum (pb_memory_mb <$> by_project r) = total_memory_mb r ∧
  length (top_consumers r) = (length processes `min` 5)%nat ∧
  StronglySorted (λ a b, consumer_le s a b = true) (top_consumers r) ∧
  ∃ others, top_consumers r ++ others ≡ₚ consumer_of <$> processes ∧
    ∀ a b, a ∈ top_consumers r → b ∈ others → tc_memory_mb b ≤ tc_memory_mb a.
Proof.
  intros r. destruct (by_project_sums processes) as [Hc Hm]. split; [intros k; apply by_project_lookup|]. split; [done|]. split; [done|].
  subst r. cbn [build_report top_consumers]. unfold sort_consumers. set (l := sort_by memory_le (consumer_of <$> processes)).
  pose proof (sort_by_perm memory_le (consumer_of <$> processes)) as Hl. fold l in Hl.
  pose proof (sort_by_perm (consumer_le s) (take 5 l)) as Hp. split; [|split].
  - rewrite Hp, length_take, Hl, length_fmap. lia.
  - apply sort_by_sorted; [apply consumer_le_total|apply consumer_le_trans].
  - exists (drop 5 l). split; [by rewrite Hp, take_drop|]. intros a b Ha Hb. rewrite Hp in Ha.
    assert (StronglySorted (λ a b, consumer_le ByMemory a b = true) l) as Hs by (apply sort_by_sorted; [apply (consumer_le_total ByMemory)|apply (consumer_le_trans ByMemory)]).
    rewrite <- (take_drop 5 l) in Hs. by apply Z.leb_le, (StronglySorted_app_1_elem_of _ _ _ _ _ Hs).
Qed.

Section fresh.
(** The samplers and the iteration order of the pool. *)
Context (sys : Z → option SysProc) (iter : gmap Z ManagedProcess → list (Z * ManagedProcess)).
Hypothesis iter_perm : ∀ m, iter m ≡ₚ map_to_list m.
(** The report command makes a pool of its own, which tracks nothing. *)
Definition report_command (e : gmap string string) (now : Z) (gate : GateStatusSnapshot) (s : SortBy) : FleetReport :=
  build_report now (list_processes sys iter (pool_new e)) gate s.
Definition ps_command (e : gmap string string) (project harness : option string) : list ProcessInfo :=
  find sys iter (match project, harness with Some p, _ => ByProject p | None, Some h => ByHarness h | None, None => All end) (pool_new e).
(** So the report and the process list are of no process, whatever runs. *)
Lemma fresh_pool_reports_nothing e now gate s project harness :
  total_processes (report_command e now gate s) = 0 ∧ top_consumers (report_command e now gate s) = [] ∧ ps_command e project harness = [].
Proof.
  assert (list_processes sys iter (pool_new e) = []) as H.
  { unfold list_processes. cbn [processes pool_new].
    assert (iter ∅ = []) as Hi by (apply Permutation_nil_r; by rewrite iter_perm, map_to_list_empty). by rewrite Hi. }
  unfold report_command, ps_command, find. rewrite H. by destruct project, harness.
Qed.
End fresh.

(** * The CSV documents *)

Definition show_bool (b : bool) : string := if b then "true" else "false".
Definition csv_line (fs : list string) : string := join_with "," fs.
Definition blank_then (lines : list string) : string := line_block (EmptyString :: lines).

(** [render_report_csv_body]. *)
Definition SUMMARY_HEADER : list string :=
  ["record"; "timestamp"; "uptime_seconds"; "total_processes"; "total_memory_mb"; "thermal_pressure"; "detected_agents"; "agent_contention"; "gate_decision"].
Definition render_report_csv_body (r : FleetReport) : string :=
  line_block [csv_line SUMMARY_HEADER;
    csv_line ["summary"; show_u (fr_timestamp r); show_u (uptime_seconds r); show_u (total_processes r); show_u (total_memory_mb r);
      csv_escape_field (fr_thermal_pressure r); show_u (fr_detected_agents r); csv_escape_field (fr_agent_contention r); csv_escape_field (fr_gate_decision r)]]
  +:+ blank_then (csv_line ["record"; "project"; "count"; "memory_mb"] ::
    ((λ '(name, bd), csv_line ["project"; csv_escape_field name; show_u (pb_count bd); show_u (pb_memory_mb bd)]) <$> btree_entries (by_project r)))
  +:+ blank_then (csv_line ["record"; "pid"; "name"; "project"; "memory_mb"] ::
    ((λ tc, csv_line ["consumer"; show_u (tc_pid tc); csv_escape_field (tc_name tc); csv_escape_field (default "-" (tc_project tc)); show_u (tc_memory_mb tc)]) <$> top_consumers r)).

(** The companion blocks: nothing in them is escaped. *)
Record HostResourceWatchJson : Type := mkHostWatch { hw_fd : Z; hw_rx : Z; hw_tx : Z; hw_rss : Z; hw_load_text : string }.
Record PoolOperatorPanel : Type := mkPoolPanel { pp_status : PoolStatus; pp_healthy : bool }.
Record StatusOperatorPanel : Type := mkStatusPanel { sp_scanned : Z; sp_watched : Z; sp_total_processes : Z; sp_agent_rows : Z }.
Definition show_n (n : nat) : string := show_u (Z.of_nat n).
Definition gate_csv_companion (g : GateStatusSnapshot) : string :=
  blank_then [csv_line ["record"; "thermal_pressure"; "detected_agents"; "agent_total_rss_bytes"; "agent_contention"; "gate_decision"];
    csv_line ["gate"; thermal_pressure g; show_u (detected_agents g); show_u (agent_total_rss_bytes g); agent_contention g; gate_decision g]].
Definition host_csv_companion (h : HostResourceWatchJson) : string :=
  blank_then [csv_line ["record"; "fd_count"; "net_rx_bytes"; "net_tx_bytes"; "mem_rss_bytes"; "load_1m"];
    csv_line ["host"; show_u (hw_fd h); show_u (hw_rx h); show_u (hw_tx h); show_u (hw_rss h); hw_load_text h]].
Definition pool_csv_companion (p : PoolOperatorPanel) : string :=
  blank_then [csv_line ["record"; "node_total"; "node_idle"; "bun_total"; "bun_idle"; "max_per_type"; "healthy"];
    csv_line ["pool"; show_n (node_total (pp_status p)); show_n (node_idle (pp_status p)); show_n (bun_total (pp_status p)); show_n (bun_idle (pp_status p));
              show_n (ps_max (pp_status p)); show_bool (pp_healthy p)]].
Definition status_csv_companion (s : StatusOperatorPanel) : string :=
  blank_then [csv_line ["record"; "scanned"; "watched"; "total_processes"; "agent_rows"];
    csv_line ["status"; show_u (sp_scanned s); show_u (sp_watched s); show_u (sp_total_processes s); show_u (sp_agent_rows s)]].
(** [append_operator_csv_companions] of [render_csv.rs] and its copy in [report.rs],
    [append_report_csv_companions]; the panels are those of samplers that did not fail. *)
Definition append_operator_csv_companions (csv : string) (g : GateStatusSnapshot) (h : HostResourceWatchJson) (p : PoolOperatorPanel)
    (s : StatusOperatorPanel) : string :=
  csv +:+ gate_csv_companion g +:+ host_csv_companion h +:+ pool_csv_companion p +:+ status_csv_companion s.

(** [render_health_csv_body] and [render_pool_csv_body]. *)
Record HealthJson : Type := mkHealthJson { hj_healthy : bool; hj_status : PoolStatus; hj_node_in_use : nat; hj_bun_in_use : nat; hj_issues : list string }.
Definition render_health_csv_body (h : HealthJson) : string :=
  line_block [csv_line ["record"; "healthy"; "node_total"; "node_idle"; "node_in_use"; "bun_total"; "bun_idle"; "bun_in_use"; "max_per_type"; "issues"];
    csv_line ["health"; show_bool (hj_healthy h); show_n (node_total (hj_status h)); show_n (node_idle (hj_status h)); show_n (hj_node_in_use h);
      show_n (bun_total (hj_status h)); show_n (bun_idle (hj_status h)); show_n (hj_bun_in_use h); show_n (ps_max (hj_status h));
      csv_escape_field (join_with ";" (hj_issues h))]].
Definition render_pool_csv_body (p : PoolOperatorPanel) (issues : list string) : string :=
  line_block [csv_line ["record"; "node_total"; "node_idle"; "bun_total"; "bun_idle"; "max_per_type"; "healthy"; "issues"];
    csv_line ["pool"; show_n (node_total (pp_status p)); show_n (node_idle (pp_status p)); show_n (bun_total (pp_status p)); show_n (bun_idle (pp_status p));
      show_n (ps_max (pp_status p)); show_bool (pp_healthy p); csv_escape_field (join_with ";" issues)]].

(** [render_status_csv_body]: the percentage of memory is 0 when the total is. *)
Definition used_pct (used total : Z) : Z := if total =? 0 then 0 else as_u64 (used * 100) / total.
Definition render_status_csv_body (s : StatusOperatorPanel) (rows : list (string * Z * Z)) (p : PoolStatus) (used total : Z) : string :=
  line_block [csv_line ["record"; "total_processes"; "scanned"; "watched"; "agent_rows"];
    csv_line ["status"; show_u (sp_total_processes s); show_u (sp_scanned s); show_u (sp_watched s); show_u (sp_agent_rows s)]]
  +:+ blank_then (csv_line ["record"; "harness"; "count"; "memory_mb"] ::
    ((λ '(h, count, mem), csv_line ["harness"; csv_escape_field h; show_u count; show_u mem]) <$> rows))
  +:+ blank_then [csv_line ["record"; "type"; "total"; "idle"; "max_per_type"];
    csv_line ["runtime_pool"; "node"; show_n (node_total p); show_n (node_idle p); show_n (ps_max p)];
    csv_line ["runtime_pool"; "bun"; show_n (bun_total p); show_n (bun_idle p); show_n (ps_max p)]]
  +:+ blank_then [csv_line ["record"; "used_mb"; "total_mb"; "used_pct"];
    csv_line ["system_memory"; show_u used; show_u total; show_u (used_pct used total)]].

(** [render_ps_all_csv_body], over the rows of the agent inventory. *)
Record AgentProcRow : Type := mkAgentRow { ar_pid : Z; ar_family : string; ar_comm : string; ar_state : string; ar_rss : Z; ar_rss_text : string; ar_fd : option Z }.
Definition render_ps_all_csv_body (label : Z → string) (processes : list ProcessInfo) (agents : list AgentProcRow) (scanned watched : Z) : string :=
  line_block (csv_line ["record"; "pid"; "name"; "memory_mb"; "project"; "harness"; "agent"] ::
    ((λ p, csv_line ["process"; show_u (pi_pid p); csv_escape_field (pi_name p); show_u (pi_memory_mb p); csv_escape_field (default "-" (pi_project p));
                     csv_escape_field (default "-" (pi_harness p)); csv_escape_field (label (pi_pid p))]) <$> processes))
  +:+ blank_then [csv_line ["record"; "process_count"; "total_memory_mb"];
    csv_line ["summary"; show_n (length processes); show_u (list_sum_Z (pi_memory_mb <$> processes))]]
  +:+ blank_then [csv_line ["record"; "scanned"; "watched"]; csv_line ["agent_inventory"; show_u scanned; show_u watched]]
  +:+ blank_then (csv_line INVENTORY_HEADER ::
    ((λ a, csv_line [show_u (ar_pid a); csv_escape_field (ar_family a); csv_escape_field (ar_comm a); csv_escape_field (ar_state a); show_u (ar_rss a);
                     csv_escape_field (ar_rss_text a); show_fd (ar_fd a)]) <$> agents)).

(** ** Reading a document *)

(** Sections of records, a blank line between them; no record has more than ten fields. *)
Fixpoint read_rows (n : nat) (s : string) : option (list (list string) * string) :=
  match n with
  | O => Some ([], s)
  | S n' => '(x, rest) ← read_record 10 s; '(xs, rest') ← read_rows n' rest; Some (x :: xs, rest')
  end.
Fixpoint read_document (shape : list nat) (s : string) : option (list (list (list string))) :=
  match shape with
  | [] => if str_is_empty s then Some [] else None
  | n :: shape' =>
      '(rows, rest) ← read_rows n s;
      match shape', rest with
      | [], EmptyString => Some [rows]
      | _ :: _, String c rest' => if bool_decide (c = nl) then cons rows <$> read_document shape' rest' else None
      | _, _ => None
      end
  end.
Definition section_text (rows : list (list string)) : string := line_block ((λ fs, csv_line (csv_escape_field <$> fs)) <$> rows).
Fixpoint document (ss : list (list (list string))) : string :=
  match ss with
  | [] => EmptyString
  | [s] => section_text s
  | s :: ss' => section_text s +:+ String nl (document ss')
  end.
Definition narrow (rows : list (list string)) : Prop := Forall (λ fs, fs ≠ [] ∧ length fs ≤ 10)%nat rows.

Lemma read_rows_ok rows rest : narrow rows → read_rows (length rows) (section_text rows +:+ rest) = Some (rows, rest).
Proof.
  unfold section_text, line_block. induction 1 as [|fs rows [Hne Hw] _ IH]; [done|]. cbn [length read_rows fmap list_fmap concat_str].
  unfold csv_line in *. rewrite !str_app_assoc, str_app_cons, str_app_nil_l, read_record_ok by done. cbn [mbind option_bind]. by rewrite IH.
Qed.
Lemma read_document_ok ss : Forall narrow ss → read_document (length <$> ss) (document ss) = Some ss.
Proof.
  induction 1 as [|s ss Hs Hss IH]; [done|]. destruct ss as [|s' ss].
  - cbn [fmap list_fmap document read_document]. pose proof (read_rows_ok s EmptyString Hs) as H. rewrite str_app_nil_r in H. by rewrite H.
  - cbn [fmap list_fmap document read_document] in *. rewrite read_rows_ok by done. cbn [mbind option_bind]. rewrite bool_decide_true by done.
    by rewrite IH.
Qed.
Lemma document_cons s s' ss : document (s :: s' :: ss) = section_text s +:+ String nl (document (s' :: ss)).
Proof. done. Qed.
Lemma document_app ss s' ss' : ss ≠ [] → document (ss ++ s' :: ss') = document ss +:+ String nl (document (s' :: ss')).
Proof.
  induction ss as [|s [|t ss] IH]; intros Hne; [done|done|]. cbn [app]. rewrite !document_cons. cbn [app] in IH. rewrite IH by done.
  by rewrite str_app_assoc, str_app_cons.
Qed.
Lemma blank_then_eq lines : blank_then lines = String nl (line_block lines).
Proof. done. Qed.

(** The fields of the report, of the companion blocks, of the status and of the process list. *)
Definition report_sections (r : FleetReport) : list (list (list string)) :=
  [[SUMMARY_HEADER; ["summary"; show_u (fr_timestamp r); show_u (uptime_seconds r); show_u (total_processes r); show_u (total_memory_mb r);
      fr_thermal_pressure r; show_u (fr_detected_agents r); fr_agent_contention r; fr_gate_decision r]];
   ["record"; "project"; "count"; "memory_mb"] ::
     ((λ '(name, bd), ["project"; name; show_u (pb_count bd); show_u (pb_memory_mb bd)]) <$> btree_entries (by_project r));
   ["record"; "pid"; "name"; "project"; "memory_mb"] ::
     ((λ tc, ["consumer"; show_u (tc_pid tc); tc_name tc; default "-" (tc_project tc); show_u (tc_memory_mb tc)]) <$> top_consumers r)].
Lemma rows_fmap {A} (f : A → string) (g : A → list string) (h : string) (hs : list string) l :
  h = csv_line (csv_escape_field <$> hs) → (∀ a, f a = csv_line (csv_escape_field <$> g a)) → line_block (h :: (f <$> l)) = section_text (hs :: (g <$> l)).
Proof. intros -> H. unfold section_text. cbn [fmap list_fmap]. do 2 f_equal. rewrite <- list_fmap_compose. apply list_fmap_ext. intros; apply H. Qed.
Lemma section_step a rows t t' : a = section_text rows → t = t' → a +:+ String nl t = section_text rows +:+ String nl t'.
Proof. by intros -> ->. Qed.
(** A row of numbers, literals and escaped fields is the escaped row. *)
Ltac csv_row := cbn [fmap list_fmap]; rewrite ?escape_show_u, ?escape_fd; reflexivity.
Ltac csv_section := first
  [apply rows_fmap; [reflexivity|intros x; repeat case_match; csv_row]
  |unfold section_text, show_n; csv_row].
Ltac csv_document := rewrite ?document_cons, ?blank_then_eq, ?str_app_cons; cbn [document]; repeat (apply section_step; [csv_section|]); csv_section.

Lemma report_body_document r : render_report_csv_body r = document (report_sections r).
Proof. unfold render_report_csv_body, report_sections. csv_document. Qed.
Definition plain (s : string) : Prop := str_all (λ c, negb (special c)) s = true.
Definition companion_sections (g : GateStatusSnapshot) (h : HostResourceWatchJson) (p : PoolOperatorPanel) (s : StatusOperatorPanel)
    : list (list (list string)) :=
  [[["record"; "thermal_pressure"; "detected_agents"; "agent_total_rss_bytes"; "agent_contention"; "gate_decision"];
    ["gate"; thermal_pressure g; show_u (detected_agents g); show_u (agent_total_rss_bytes g); agent_contention g; gate_decision g]];
   [["record"; "fd_count"; "net_rx_bytes"; "net_tx_bytes"; "mem_rss_bytes"; "load_1m"];
    ["host"; show_u (hw_fd h); show_u (hw_rx h); show_u (hw_tx h); show_u (hw_rss h); hw_load_text h]];
   [["record"; "node_total"; "node_idle"; "bun_total"; "bun_idle"; "max_per_type"; "healthy"];
    ["pool"; show_n (node_total (pp_status p)); show_n (node_idle (pp_status p)); show_n (bun_total (pp_status p)); show_n (bun_idle (pp_status p));
     show_n (ps_max (pp_status p)); show_bool (pp_healthy p)]];
   [["record"; "scanned"; "watched"; "total_processes"; "agent_rows"];
    ["status"; show_u (sp_scanned s); show_u (sp_watched s); show_u (sp_total_processes s); show_u (sp_agent_rows s)]]].
Definition status_sections (s : StatusOperatorPanel) (rows : list (string * Z * Z)) (p : PoolStatus) (used total : Z) : list (list (list string)) :=
  [[["record"; "total_processes"; "scanned"; "watched"; "agent_rows"];
    ["status"; show_u (sp_total_processes s); show_u (sp_scanned s); show_u (sp_watched s); show_u (sp_agent_rows s)]];
   ["record"; "harness"; "count"; "memory_mb"] :: ((λ '(h, count, mem), ["harness"; h; show_u count; show_u mem]) <$> rows);
   [["record"; "type"; "total"; "idle"; "max_per_type"];
    ["runtime_pool"; "node"; show_n (node_total p); show_n (node_idle p); show_n (ps_max p)];
    ["runtime_pool"; "bun"; show_n (bun_total p); show_n (bun_idle p); show_n (ps_max p)]];
   [["record"; "used_mb"; "total_mb"; "used_pct"]; ["system_memory"; show_u used; show_u total; show_u (used_pct used total)]]].
Definition ps_sections (label : Z → string) (processes : list ProcessInfo) (agents : list AgentProcRow) (scanned watched : Z) : list (list (list string)) :=
  [["record"; "pid"; "name"; "memory_mb"; "project"; "harness"; "agent"] ::
     ((λ p, ["process"; show_u (pi_pid p); pi_name p; show_u (pi_memory_mb p); default "-" (pi_project p); default "-" (pi_harness p); label (pi_pid p)]) <$> processes);
   [["record"; "process_count"; "total_memory_mb"]; ["summary"; show_n (length processes); show_u (list_sum_Z (pi_memory_mb <$> processes))]];
   [["record"; "scanned"; "watched"]; ["agent_inventory"; show_u scanned; show_u watched]];
   INVENTORY_HEADER :: ((λ a, [show_u (ar_pid a); ar_family a; ar_comm a; ar_state a; show_u (ar_rss a); ar_rss_text a; show_fd (ar_fd a)]) <$> agents)].

Lemma status_body_document s rows p used total : render_status_csv_body s rows p used total = document (status_sections s rows p used total).
Proof. unfold render_status_csv_body, status_sections. csv_document. Qed.
Lemma ps_body_document label processes agents scanned watched :
  render_ps_all_csv_body label processes agents scanned watched = document (ps_sections label processes agents scanned watched).
Proof. unfold render_ps_all_csv_body, ps_sections. csv_document. Qed.
Lemma companions_document csv g h p s :
  plain (thermal_pressure g) → plain (agent_contention g) → plain (gate_decision g) → plain (hw_load_text h) →
  append_operator_csv_companions csv g h p s = csv +:+ String nl (document (companion_sections g h p s)).
Proof.
  intros Ht Ha Hg Hl. unfold append_operator_csv_companions, companion_sections, gate_csv_companion, host_csv_companion, pool_csv_companion, status_csv_companion.
  rewrite !document_cons, !blank_then_eq, !str_app_cons. f_equal. f_equal. cbn [document].
  repeat (apply section_step; [unfold section_text, show_n; cbn [fmap list_fmap]; rewrite ?escape_show_u, ?(escape_plain _ Ht), ?(escape_plain _ Ha), ?(escape_plain _ Hg), ?(escape_plain _ Hl);
    try (destruct (pp_healthy p)); reflexivity|]).
  csv_section.
Qed.

(** Sections of rows of a fixed shape are narrow. *)
Lemma narrow_rows {A} (h : list string) (g : A → list string) l :
  h ≠ [] → (length h ≤ 10)%nat → (∀ a, g a ≠ [] ∧ length (g a) ≤ 10)%nat → narrow (h :: (g <$> l)).
Proof. intros. constructor; [done|]. apply Forall_fmap, Forall_true. done. Qed.
Ltac narrow_all := repeat first
  [lazymatch goal with |- narrow (_ :: (_ <$> _)) => apply narrow_rows; [done|cbn; lia|intros x; repeat case_match; cbn; split; [done|lia]] end
  |apply Forall_nil_2|apply Forall_cons_2|split; [done|cbn; lia]].
Lemma companions_narrow g h p s : Forall narrow (companion_sections g h p s).
Proof. unfold companion_sections. narrow_all. Qed.

Section documents.
Context (g : GateStatusSnapshot) (h : HostResourceWatchJson) (p : PoolOperatorPanel) (s : StatusOperatorPanel).
(** The labels of the gate and the load are texts without commas, quotes and line ends. *)
Hypothesis labels_plain : plain (thermal_pressure g) ∧ plain (agent_contention g) ∧ plain (gate_decision g) ∧ plain (hw_load_text h).

Lemma with_companions_reads csv ss : ss ≠ [] → Forall narrow ss → csv = document ss →
  read_document (length <$> (ss ++ companion_sections g h p s)) (append_operator_csv_companions csv g h p s) = Some (ss ++ companion_sections g h p s).
Proof.
  intros Hne Hn ->. destruct labels_plain as (? & ? & ? & ?). rewrite companions_document by done.
  unfold companion_sections. rewrite <- document_app by done. apply read_document_ok, Forall_app. split; [done|]. apply companions_narrow.
Qed.

(** C34: a reader of the CSV of the fleet report gets every section back, the summary, the projects in
    order, the consumers, and the four companion blocks, with the fields as they are in the report,
    whatever names projects and processes have. *)
Theorem report_csv_reads_back r :
  read_document ([2; S (length (btree_entries (by_project r))); S (length (top_consumers r)); 2; 2; 2; 2]%nat)
    (append_operator_csv_companions (render_report_csv_body r) g h p s) = Some (report_sections r ++ companion_sections g h p s).
Proof.
  pose proof (with_companions_reads (render_report_csv_body r) (report_sections r)) as H. cbn [fmap list_fmap app report_sections companion_sections length] in H.
  rewrite !length_fmap in H. apply H; [done| |apply report_body_document]. unfold report_sections. narrow_all.
Qed.
(** The CSV of the status and of the process list read back too. *)
Lemma status_csv_reads_back rows st used total :
  read_document ([2; S (length rows); 3; 2; 2; 2; 2; 2]%nat)
    (append_operator_csv_companions (render_status_csv_body s rows st used total) g h p s) = Some (status_sections s rows st used total ++ companion_sections g h p s).
Proof.
  pose proof (with_companions_reads (render_status_csv_body s rows st used total) (status_sections s rows st used total)) as H.
  cbn [fmap list_fmap app status_sections companion_sections length] in H.
  rewrite !length_fmap in H. apply H; [done| |apply status_body_document]. unfold status_sections. narrow_all.
Qed.
Lemma ps_csv_reads_back label processes agents scanned watched :
  read_document ([S (length processes); 2; 2; S (length agents); 2; 2; 2; 2]%nat)
    (append_operator_csv_companions (render_ps_all_csv_body label processes agents scanned watched) g h p s) =
  Some (ps_sections label processes agents scanned watched ++ companion_sections g h p s).
Proof.
  pose proof (with_companions_reads (render_ps_all_csv_body label processes agents scanned watched) (ps_sections label processes agents scanned watched)) as H.
  cbn [fmap list_fmap app ps_sections companion_sections length] in H.
  rewrite !length_fmap in H. apply H; [done| |apply ps_body_document]. unfold ps_sections. narrow_all.
Qed.
End documents.
(** The labels of the gate are plain. *)
Lemma gate_labels_plain t n rss : let g := gate_status_snapshot_with_rss t n rss in
  plain (thermal_pressure g) ∧ plain (agent_contention g) ∧ plain (gate_decision g).
Proof.
  unfold gate_status_snapshot_with_rss, effective_gate_decision_for_tier. cbn. destruct (combined_agent_contention_tier _ _ _ _), t; by vm_compute.
Qed.
Lemma show_bool_plain b : csv_escape_field (show_bool b) = show_bool b.
Proof. by destruct b. Qed.
Lemma health_csv_reads_back h :
  read_document [2%nat] (render_health_csv_body h) =
  Some [[["record"; "healthy"; "node_total"; "node_idle"; "node_in_use"; "bun_total"; "bun_idle"; "bun_in_use"; "max_per_type"; "issues"];
    ["health"; show_bool (hj_healthy h); show_n (node_total (hj_status h)); show_n (node_idle (hj_status h)); show_n (hj_node_in_use h);
      show_n (bun_total (hj_status h)); show_n (bun_idle (hj_status h)); show_n (hj_bun_in_use h); show_n (ps_max (hj_status h)); join_with ";" (hj_issues h)]]].
Proof.
  rewrite <- (read_document_ok [_]) by narrow_all. unfold render_health_csv_body. do 2 f_equal. cbn [document].
  unfold section_text, show_n. cbn [fmap list_fmap]. by rewrite !escape_show_u, show_bool_plain.
Qed.
Lemma pool_csv_reads_back p issues :
  read_document [2%nat] (render_pool_csv_body p issues) =
  Some [[["record"; "node_total"; "node_idle"; "bun_total"; "bun_idle"; "max_per_type"; "healthy"; "issues"];
    ["pool"; show_n (node_total (pp_status p)); show_n (node_idle (pp_status p)); show_n (bun_total (pp_status p)); show_n (bun_idle (pp_status p));
      show_n (ps_max (pp_status p)); show_bool (pp_healthy p); join_with ";" issues]]].
Proof.
  rewrite <- (read_document_ok [_]) by narrow_all. unfold render_pool_csv_body. do 2 f_equal. cbn [document].
  unfold section_text, show_n. cbn [fmap list_fmap]. by rewrite !escape_show_u, show_bool_plain.
Qed.

(** Two processes, one of them named with a comma, the other without a project. *)
Definition demo_info (pid : Z) (name : string) (mem start : Z) (project : option string) : ProcessInfo :=
  mkInfo pid name [name] mem start "0" project None None None 0 Run None None None None.
Definition demo_gate : GateStatusSnapshot := gate_status_snapshot_with_rss Green 2 0.
Definition demo_report : FleetReport :=
  build_report 100 [demo_info 7 "a,b" 30 40 (Some "web"); demo_info 8 "c" 50 60 None] demo_gate ByMemory.
Definition demo_host : HostResourceWatchJson := mkHostWatch 3 0 0 10 "0.25".
Definition demo_panel : PoolOperatorPanel := mkPoolPanel (mkPoolStatus 0 0 0 0 2) true.
Lemma report_csv_reads_back_witness :
  read_document [2; 3; 3; 2; 2; 2; 2]%nat
    (append_operator_csv_companions (render_report_csv_body demo_report) demo_gate demo_host demo_panel (mkStatusPanel 1 1 0 0)) =
  Some (report_sections demo_report ++ companion_sections demo_gate demo_host demo_panel (mkStatusPanel 1 1 0 0)).
Proof.
  apply (report_csv_reads_back demo_gate demo_host demo_panel (mkStatusPanel 1 1 0 0)). by vm_compute.
Defined.
Example demo_uptime : uptime_seconds demo_report = 60 ∧ (tc_pid <$> top_consumers demo_report) = [8; 7].
Proof. by vm_compute. Qed.
(** A project may have the name that stands for no project: the two are counted together. *)
Example untagged_collides :
  by_project (build_report 0 [demo_info 1 "a" 10 0 None; demo_info 2 "b" 20 0 (Some "<untagged>")] demo_gate ByName) !! "<untagged>" = Some (mkBreakdown 2 30).
Proof. by vm_compute. Qed.

(** * Monitoring *)

Record HealthStatus : Type := mkHealthStatus { healthy : bool; last_check : Z; hs_uptime : Z; checks_passed : Z; checks_failed : Z }.
Definition health_new (now : Z) : HealthStatus := mkHealthStatus true now 0 1 0.
Definition mark_healthy (now : Z) (h : HealthStatus) : HealthStatus :=
  mkHealthStatus true now (hs_uptime h) (checks_passed h + 1) (checks_failed h).
Definition mark_unhealthy (now : Z) (h : HealthStatus) : HealthStatus :=
  mkHealthStatus false now (hs_uptime h) (checks_passed h) (checks_failed h + 1).
(** A check at a time that passed or failed. *)
Definition mark (h : HealthStatus) (c : Z * bool) : HealthStatus := if c.2 then mark_healthy c.1 h else mark_unhealthy c.1 h.

(** After any checks the health record has the outcome and the time of the last, and has counted
    each; the count of passed checks is one ahead, since a new record has one that was not made. *)
Theorem health_record now checks : let h := foldl mark (health_new now) checks in
  healthy h = default true (snd <$> last checks) ∧ last_check h = default now (fst <$> last checks) ∧ hs_uptime h = 0 ∧
  checks_passed h = 1 + Z.of_nat (length (filter (λ c, c.2 = true) checks)) ∧
  checks_failed h = Z.of_nat (length (filter (λ c, c.2 = false) checks)).
Proof.
  cbn. induction checks as [|[t b] l (IHh & IHl & IHu & IHp & IHf)] using rev_ind; [done|].
  rewrite foldl_snoc, last_snoc, !filter_app, !length_app, !filter_cons, !filter_nil.
  destruct b; repeat case_decide; try done; cbn; split_and!; try done; lia.
Qed.

Record ProcessStats : Type := mkStats { st_pid : Z; st_name : string; st_memory_mb : Z; st_cpu : Q; st_uptime : Z }.
Definition is_idle (p : ProcessStats) (threshold_secs : Z) : bool := (threshold_secs <? st_uptime p) && negb (Qle_bool 1 (st_cpu p)).
Record MonitoringReport : Type := mkMonReport {
  mr_timestamp : Z; mr_total_processes : Z; mr_total_memory_mb : Z; mr_by_project : gmap string Z; mr_by_harness : gmap string Z;
  idle_processes : Z; recommendations : list string }.
Record MonTotals : Type := mkTotals { mt_memory : Z; mt_idle : Z; mt_harness : gmap string Z }.
Definition mon_step (cfg : MonitoringConfig) (t : MonTotals) (p : ProcessStats) : MonTotals :=
  mkTotals (mt_memory t + st_memory_mb p) (mt_idle t + (if is_idle p (mc_idle_threshold_secs cfg) then 1 else 0))
    (<[st_name p := default 0 (mt_harness t !! st_name p) + 1]> (mt_harness t)).
Definition recommend (cfg : MonitoringConfig) (memory idle : Z) : list string :=
  (if mc_high_memory_threshold_mb cfg <? memory then ["High memory usage: " +:+ show_u memory +:+ " MB. Consider pruning idle processes."] else [])
  ++ (if mc_idle_process_threshold cfg <? idle then [show_u idle +:+ " idle processes found. Run 'sharecli prune' to clean up."] else []).
Definition generate (cfg : MonitoringConfig) (now : Z) (l : list ProcessStats) : MonitoringReport :=
  let t := foldl (mon_step cfg) (mkTotals 0 0 ∅) l in
  mkMonReport now (Z.of_nat (length l)) (mt_memory t) ∅ (mt_harness t) (mt_idle t) (recommend cfg (mt_memory t) (mt_idle t)).

Lemma mon_totals cfg l : let t := foldl (mon_step cfg) (mkTotals 0 0 ∅) l in
  mt_memory t = list_sum_Z (st_memory_mb <$> l) ∧ mt_idle t = Z.of_nat (length (List.filter (λ p, is_idle p (mc_idle_threshold_secs cfg)) l)) ∧
  map_sum (mt_harness t) = Z.of_nat (length l) ∧
  ∀ k, default 0 (mt_harness t !! k) = Z.of_nat (length (filter (λ p, st_name p = k) l)).
Proof.
  cbn. induction l as [|p l (IHm & IHi & IHs & IHh)] using rev_ind; [done|]. rewrite foldl_snoc. set (t := foldl _ _ l) in *.
  unfold mon_step. cbn [mt_memory mt_idle mt_harness]. rewrite fmap_app, list_sum_Z_app, List.filter_app, !length_app, map_sum_insert. split_and!.
  - cbn. lia.
  - cbn. destruct (is_idle _ _); cbn; lia.
  - cbn. lia.
  - intros k. rewrite filter_app, length_app, filter_cons, filter_nil. destruct (decide (st_name p = k)) as [<-|].
    + rewrite lookup_insert_eq, IHh. cbn. lia.
    + rewrite lookup_insert_ne by done. cbn. rewrite IHh. lia.
Qed.
(** The monitoring report counts the processes of every harness, their memory and the idle ones,
    and recommends something exactly when the memory or the number of idle processes is above its
    threshold; it has no project, whatever it is given. *)
Theorem monitoring_counts cfg now l : let r := generate cfg now l in
  mr_total_memory_mb r = list_sum_Z (st_memory_mb <$> l) ∧
  idle_processes r = Z.of_nat (length (List.filter (λ p, is_idle p (mc_idle_threshold_secs cfg)) l)) ∧
  (∀ k, default 0 (mr_by_harness r !! k) = Z.of_nat (length (filter (λ p, st_name p = k) l))) ∧
  map_sum (mr_by_harness r) = mr_total_processes r ∧ mr_by_project r = ∅ ∧
  (recommendations r = [] ↔ mr_total_memory_mb r ≤ mc_high_memory_threshold_mb cfg ∧ idle_processes r ≤ mc_idle_process_threshold cfg).
Proof.
  intros r. destruct (mon_totals cfg l) as (Hm & Hi & Hs & Hh). split_and!; [done..|]. subst r. cbn [generate recommendations mr_total_memory_mb idle_processes].
  unfold recommend. destruct (Z.ltb_spec (mc_high_memory_threshold_mb cfg) (mt_memory (foldl (mon_step cfg) (mkTotals 0 0 ∅) l))),
    (Z.ltb_spec (mc_idle_process_threshold cfg) (mt_idle (foldl (mon_step cfg) (mkTotals 0 0 ∅) l))); cbn; split; try done; lia.
Qed.
