(* ===== verification/TeamClient.v ===== *)
(** The clients of the coordination daemon (lib/teamcomm): the typed client of teamcomm-client, the
    command line of teamcomm-cli with its [rpc.rs], the MCP server of teamcomm-mcp, and the pid file
    of the daemon, put together with the daemon of [TeamComm].  The texts of JSON values and the
    failures of the socket are parameters; one call is served between its write and its read. *)
From S2P Require Import Prelude JsonValue TeamComm.

(** * The request on the wire *)

(** The request envelope of teamcomm-protocol. *)
Definition decode_rpc_id (v : Value) : option RpcId :=
  match v with Str s => Some (IdString s) | Num (PosInt n) => Some (IdNumber n) | _ => None end.
Definition decode_request (v : Value) : option JsonRpcRequest :=
  g ← struct_fields ["jsonrpc"; "id"; "method"; "params"] v;
  _ ← req str_codec g "jsonrpc";
  id ← match g "id" with
       | Some Null => Some None
       | Some i => Some <$> decode_rpc_id i
       | None => match v with Obj _ => Some None | _ => None end
       end;
  m ← req str_codec g "method";
  p ← g "params";
  Some (mkRpc id m p).
Definition parse_request `{JsonText} (line : string) : result JsonRpcRequest string :=
  ok_or "not a request" (value_of line ≫= decode_request).

(** * The typed client *)

(** What the methods of [Client] ask for. *)
Inductive Ask : Type :=
| AskRegister (pid : Z) (agent_type : string) (working_dir : option string) (capabilities : list string)
| AskDeregister (session_id : string)
| AskHeartbeat (session_id : string)
| AskSessions
| AskSession (session_id : string)
| AskClaim (session_id path mode : string) (ttl_sec : Z)
| AskRelease (reservation_id : string)
| AskReservations (path : option string)
| AskPost (from to subject body priority : string)
| AskInbox (session_id : string) (unread_only : bool) (limit : Z)
| AskRead (message_id : string)
| AskSetState (session_id : string) (focus_file focus_branch worktree : option string) (status : string)
| AskState (session_id : string)
| AskDiscover (path branch : option string) (capabilities : list string).

(** [params[k] = json!(v)] when there is one. *)
Definition set_opt (k : string) (o : option string) (v : Value) : Value :=
  match o, v with Some t, Obj m => Obj (obj_set k (Str t) m) | _, _ => v end.
Definition strings (l : list string) : Value := Arr (Str <$> l).
Definition num (n : Z) : Value := Num (PosInt n).

Definition ask_method (a : Ask) : string :=
  match a with
  | AskRegister _ _ _ _ => "session.register" | AskDeregister _ => "session.deregister" | AskHeartbeat _ => "session.heartbeat"
  | AskSessions => "session.list" | AskSession _ => "session.get" | AskClaim _ _ _ _ => "reservation.claim"
  | AskRelease _ => "reservation.release" | AskReservations _ => "reservation.list" | AskPost _ _ _ _ _ => "inbox.post"
  | AskInbox _ _ _ => "inbox.list" | AskRead _ => "inbox.read" | AskSetState _ _ _ _ _ => "state.set" | AskState _ => "state.get"
  | AskDiscover _ _ _ => "discover.agents"
  end.
Definition ask_params (a : Ask) : Value :=
  match a with
  | AskRegister p t wd caps => set_opt "working_dir" wd (Obj [("pid", num p); ("agent_type", Str t); ("capabilities", strings caps)])
  | AskDeregister id | AskHeartbeat id | AskSession id | AskState id => Obj [("session_id", Str id)]
  | AskSessions => Obj []
  | AskClaim id path m ttl => Obj [("session_id", Str id); ("path", Str path); ("mode", Str m); ("ttl_sec", num ttl)]
  | AskRelease id => Obj [("reservation_id", Str id)]
  | AskReservations path => set_opt "path" path (Obj [])
  | AskPost from to subject body prio =>
      Obj [("from_session", Str from); ("to_session", Str to); ("subject", Str subject); ("body", Str body); ("priority", Str prio)]
  | AskInbox id unread limit => Obj [("session_id", Str id); ("unread_only", Bool unread); ("limit", num limit)]
  | AskRead id => Obj [("message_id", Str id)]
  | AskSetState id file branch tree st =>
      set_opt "worktree" tree (set_opt "focus_branch" branch (set_opt "focus_file" file (Obj [("session_id", Str id); ("status", Str st)])))
  | AskDiscover path branch caps => set_opt "branch" branch (set_opt "path" path (Obj [("capabilities", strings caps)]))
  end.

(** ** What the daemon is asked to do, without JSON *)

Section spec.
Variable iter : ∀ {A : Type}, gmap string A → list (string * A).
Variable add_secs : Z → Z → option Z.

Definition with_session (id : string) (f : Session → AppState → AppState * Reply) : stm AppState Failure Reply := λ s,
  match sessions s !! id with
  | Some x => let '(s', r) := f x s in (s', Ok r)
  | None => (s, Err (no_session id))
  end.
Definition register (e : Env) (p : Z) (t : AgentType) (wd : string) (caps : list string) : stm AppState Failure Reply := λ s,
  match sessions_by_pid s !! p ≫= λ id, (id,.) <$> sessions s !! id with
  | Some (id, x) => (with_sessions (<[id := set_session_heartbeat (now e) x]>) s, Ok (RRegistered id))
  | None => let '(s', id) := insert_new_session e p t wd caps s in (s', Ok (RRegistered id))
  end.
Definition summary_if (path branch : option string) (caps : list string) (s : AppState) (x : string * Session) : option SessionSummary :=
  let live := live_state s !! x.1 in
  let focus := live ≫= focus_file in
  if from_option (λ p, from_option (starts_with p) false focus) true path
     && from_option (λ b, bool_decide (focus_branch <$> live = Some (Some b))) true branch
     && forallb (λ c, bool_decide (c ∈ capabilities x.2)) caps
  then Some (mkSummary x.1 (agent_type x.2) (pid x.2) (default Idle (status <$> live)) focus (last_heartbeat x.2)) else None.

Definition perform (e : Env) (a : Ask) : stm AppState Failure Reply :=
  match a with
  | AskRegister p t wd caps => register e p (parse_agent_type t) (default "/" wd) caps
  | AskDeregister id => λ s,
      (match sessions s !! id with
       | Some x => mkState (delete id (sessions s)) (delete (pid x) (sessions_by_pid s)) (reservations s) (live_state s) (inbox s)
       | None => s
       end, Ok ROk)
  | AskHeartbeat id => with_session id (λ x s, (with_sessions (<[id := set_session_heartbeat (now e) x]>) s, RHeartbeat))
  | AskSessions => λ s, (s, Ok (RSessions (iter (sessions s)).*2))
  | AskSession id => with_session id (λ x s, (s, RSession x))
  | AskClaim id path m ttl =>
      m <- st_lift (parse_reservation_mode m) ;;
      expires <- st_lift (ok_or Panicked (add_secs (now e) (as_i64 ttl))) ;;
      let rid := "resv_" +:+ uuid e in
      with_session id (λ _ s,
        (with_reservations (<[rid := mkReservation rid id path m (now e) expires]>) s,
         RClaimed rid (filter (λ r, blocks (now e) id path m r = true) (iter (reservations s)).*2)))
  | AskRelease rid => λ s,
      match reservations s !! rid with
      | Some _ => (with_reservations (delete rid) s, Ok ROk)
      | None => (s, Err (Rejected (NotFound ("reservation " +:+ rid))))
      end
  | AskReservations path => λ s,
      (s, Ok (RReservations (filter (λ r, from_option (λ p, starts_with p (res_path r)) true path = true)
                               (filter (λ r, now e < expires_at r) (iter (reservations s)).*2))))
  | AskPost from to subject body prio =>
      prio <- st_lift (parse_priority prio) ;;
      let m := mkMessage ("msg_" +:+ uuid e) from to subject body prio (now e) false in
      with_session from (λ _ s, (with_inbox (λ b, <[to := default [] (b !! to) ++ [m]]> b) s, RPosted (message_id m)))
  | AskInbox id unread limit => λ s,
      let messages := default [] (inbox s !! id) in
      let ids := message_id <$> take_limit limit (filter (λ m, negb unread || negb (is_read m) = true) messages) in
      let marked := (λ m, if bool_decide (message_id m ∈ ids) then set_read true m else m) <$> messages in
      (with_inbox (<[id := marked]>) s, Ok (RMessages (filter (λ m, message_id m ∈ ids) marked)))
  | AskRead id => λ s,
      match read_in id (iter (inbox s)) with
      | Some (k, l, m) => (with_inbox (<[k := l]>) s, Ok (RMessage m))
      | None => (s, Err (Rejected (NotFound ("message " +:+ id))))
      end
  | AskSetState id file branch tree st =>
      st <- st_lift (parse_agent_status st) ;;
      with_session id (λ _ s, (with_live (<[id := mkLive id file branch tree st (now e)]>) s, ROk))
  | AskState id => λ s,
      (s, match live_state s !! id with Some l => Ok (RLive l) | None => Err (Rejected (NotFound ("live state for session " +:+ id))) end)
  | AskDiscover path branch caps => λ s, (s, Ok (RSummaries (omap (summary_if path branch caps s) (iter (sessions s)))))
  end.

(** The arguments that are 32 bits wide in the client. *)
Definition ask_ok (a : Ask) : Prop := match a with AskRegister p _ _ _ => 0 ≤ p < 2 ^ 32 | _ => True end.

Lemma strings_array (l : list string) : omap as_str (Str <$> l) = l.
Proof. induction l as [|t l IH]; [done|]. cbn. by f_equal. Qed.
Lemma summary_decoded path branch caps s x :
  discovered (ask_params (AskDiscover path branch caps)) s x = summary_if path branch caps s x.
Proof.
  assert (str_field "path" (ask_params (AskDiscover path branch caps)) = path) as H1 by by destruct path, branch.
  assert (str_field "branch" (ask_params (AskDiscover path branch caps)) = branch) as H2 by by destruct path, branch.
  assert (str_array "capabilities" (ask_params (AskDiscover path branch caps)) = caps) as H3 by (destruct path, branch; apply strings_array).
  unfold discovered, summary_if. rewrite H1, H2, H3. by destruct path, branch.
Qed.

Lemma ask_dispatch e a s : ask_ok a →
  dispatch (@iter) add_secs e (ask_method a) (ask_params a) s = perform e a s.
Proof.
  destruct a as [p t wd caps|id|id| |id|id path m ttl|rid|path|from to subject body prio|id unread limit|id|id file branch tree st|id|path branch caps]; intros Hok.
  - assert (p mod 2 ^ 32 = p) as Hp by (apply Z.mod_small; exact Hok).
    change (handle_session_register e (ask_params (AskRegister p t wd caps)) s = register e p (parse_agent_type t) (default "/" wd) caps s).
    assert (str_array "capabilities" (ask_params (AskRegister p t wd caps)) = caps) as Hc by (destruct wd; apply strings_array).
    unfold handle_session_register, register. rewrite Hc. replace (value_get "pid" (ask_params (AskRegister p t wd caps)) ≫= JsonValue.as_u64) with (Some p) by by destruct wd.
    unfold st_bind. cbn [st_lift ok_or]. rewrite Hp. destruct wd; (destruct (sessions_by_pid s !! p) as [i|]; [|done]); cbn; by destruct (sessions s !! i).
  - change (handle_session_deregister (Obj [("session_id", Str id)]) s = perform e (AskDeregister id) s).
    unfold handle_session_deregister, st_bind. change (req_field _ _) with (@Ok string Failure id). cbn. by destruct (sessions s !! id).
  - change (handle_session_heartbeat e (Obj [("session_id", Str id)]) s = perform e (AskHeartbeat id) s).
    unfold handle_session_heartbeat, st_bind. change (req_field _ _) with (@Ok string Failure id). cbn. unfold with_session. by destruct (sessions s !! id).
  - done.
  - change (handle_session_get (Obj [("session_id", Str id)]) s = perform e (AskSession id) s).
    unfold handle_session_get, st_bind. change (req_field _ _) with (@Ok string Failure id). cbn. unfold with_session. by destruct (sessions s !! id).
  - change (handle_reservation_claim (@iter) add_secs e (ask_params (AskClaim id path m ttl)) s = perform e (AskClaim id path m ttl) s).
    unfold handle_reservation_claim, perform, with_session, st_bind, st_lift. cbn -[parse_reservation_mode req_field].
    change (req_field "session_id" _) with (@Ok string Failure id). change (req_field "path" _) with (@Ok string Failure path).
    change (parse_reservation_mode (default _ _)) with (parse_reservation_mode m). change (default 600 _) with ttl. cbn -[parse_reservation_mode].
    destruct (parse_reservation_mode m) as [md|]; [|done]. destruct (add_secs (now e) (as_i64 ttl)); [|done]. cbn. by destruct (sessions s !! id).
  - done.
  - change (handle_reservation_list (@iter) e (ask_params (AskReservations path)) s = perform e (AskReservations path) s).
    unfold handle_reservation_list, perform. destruct path as [path|]; [done|]. cbn. by rewrite (filter_all (λ r, true = true)) by (by apply Forall_true).
  - change (handle_inbox_post e (ask_params (AskPost from to subject body prio)) s = perform e (AskPost from to subject body prio) s).
    unfold handle_inbox_post, perform, with_session, st_bind, st_lift, message_of.
    change (req_field "from_session" _) with (@Ok string Failure from). change (req_field "to_session" _) with (@Ok string Failure to).
    change (parse_priority (default _ _)) with (parse_priority prio). cbn -[parse_priority].
    destruct (parse_priority prio) as [pr|]; [|done]. cbn. by destruct (sessions s !! from).
  - done.
  - done.
  - change (handle_state_set e (ask_params (AskSetState id file branch tree st)) s = perform e (AskSetState id file branch tree st) s).
    unfold handle_state_set, perform, with_session, st_bind, st_lift. replace (req_field "session_id" _) with (@Ok string Failure id) by (by destruct file, branch, tree).
    replace (default "idle" _) with st by (by destruct file, branch, tree). destruct file, branch, tree; cbn -[parse_agent_status];
      (destruct (parse_agent_status st) as [x|]; [|done]); cbn; by destruct (sessions s !! id).
  - done.
  - change ((s, Ok (RSummaries (omap (discovered (ask_params (AskDiscover path branch caps)) s) (iter (sessions s))))) = perform e (AskDiscover path branch caps) s).
    cbn [perform]. do 3 f_equal. apply list_omap_ext, Forall_Forall2_diag, Forall_true. intros x. apply summary_decoded.
Qed.
(** C26: the typed client and the daemon agree: each of the fourteen methods of the client, sent as the
    JSON it builds, does in the daemon what the method asks for, with these arguments, and fails with
    the same error. *)
Theorem typed_client_refines e a s : ask_ok a →
  dispatch (@iter) add_secs e (ask_method a) (ask_params a) s = perform e a s.
Proof. apply ask_dispatch. Qed.
End spec.

(** * One call over the socket *)

(** Whether the write of the request and the read of the answer succeed. *)
Record Link : Type := mkLink { write_ok : bool; read_ok : bool }.
Definition request (method : string) (params : Value) : Value :=
  Obj [("jsonrpc", Str "2.0"); ("id", num 1); ("method", Str method); ("params", params)].
Definition value_i64 (v : Value) : option Z :=
  match v with Num (PosInt n) => if n <? 2 ^ 63 then Some n else None | Num (NegInt n) => Some n | _ => None end.

(** The errors of [rpc.rs]. *)
Inductive RpcCallError : Type := Server (code : Z) (message : string) | Transport (why : string) | MethodMissing (message : string).

Section wire.
Context `{JsonText}.
Variable iter : ∀ {A : Type}, gmap string A → list (string * A).
Variable add_secs : Z → Z → option Z.
Variable rfc3339 : Z → string.

(** What the client reads after it has written a line: an answer, or the end of the connection, by a
    panic of its task or by the idle timeout of a line that is not answered. *)
Inductive Heard : Type := HeardLine (line : string) | HeardEnd | WriteFailed | ReadFailed.
Definition exchange (l : Link) (e : Env) (payload : string) (s : AppState) : AppState * Heard :=
  if write_ok l then
    match handle_line (@iter) add_secs parse_request rfc3339 e payload s with
    | (s', Answer v) => (s', if read_ok l then HeardLine (text_of v) else ReadFailed)
    | (s', (Silent | TaskPanic)) => (s', if read_ok l then HeardEnd else ReadFailed)
    end
  else (s, WriteFailed).

(** ** teamcomm-client *)

Definition client_answer (line : string) : result Value string :=
  v <-? ok_or "failed to parse response" (value_of line);;
  match value_get "error" v with
  | Some err =>
      Err ("daemon error " +:+ show_i (default (-32603) (value_get "code" err ≫= value_i64)) +:+ ": "
           +:+ default "unknown error" (value_get "message" err ≫= as_str))
  | None => Ok (default Null (value_get "result" v))
  end.
(** [Client::call]: the stream is taken, and put back once a line was read. *)
Definition call (l : Link) (e : Env) (method : string) (params : Value) (stream : bool) (s : AppState)
    : bool * AppState * result Value string :=
  if stream then
    match exchange l e (text_of (request method params)) s with
    | (s', HeardLine line) => (true, s', client_answer line)
    | (s', HeardEnd) => (false, s', Err "daemon closed connection before sending response")
    | (s', WriteFailed) => (false, s', Err "failed to write request")
    | (s', ReadFailed) => (false, s', Err "failed to read response")
    end
  else (false, s, Err "client stream is not available").

(** ** rpc.rs of the command line *)

Definition uint_i32 (v : Value) : option Z :=
  n ← value_i64 v; if (-2 ^ 31 <=? n) && (n <? 2 ^ 31) then Some n else None.
Definition decode_response (v : Value) : option Value :=
  g ← struct_fields ["jsonrpc"; "id"; "result"] v; _ ← req str_codec g "jsonrpc"; _ ← g "id"; g "result".
Definition decode_error (v : Value) : option (Z * string) :=
  g ← struct_fields ["jsonrpc"; "id"; "error"] v;
  _ ← req str_codec g "jsonrpc"; _ ← g "id"; b ← g "error";
  h ← struct_fields ["code"; "message"; "data"] b;
  code ← (c ← h "code"; uint_i32 c); message ← req str_codec h "message";
  match b, h "data" with Arr _, None => None | _, _ => Some (code, message) end.
Definition cli_answer (line : string) : result Value RpcCallError :=
  match value_of line with
  | Some v =>
      match decode_response v, decode_error v with
      | Some r, _ => Ok r
      | None, Some (code, message) => Err (if code =? -32601 then MethodMissing message else Server code message)
      | None, None => Err (Server (-32700) "daemon response was not a valid JSON-RPC envelope")
      end
  | None => Err (Server (-32700) "daemon response was not a valid JSON-RPC envelope")
  end.
Definition call_on_stream (l : Link) (e : Env) (method : string) (params : Value) (s : AppState) : AppState * result Value RpcCallError :=
  match exchange l e (text_of (request method params)) s with
  | (s', HeardLine line) => (s', cli_answer line)
  | (s', HeardEnd) => (s', Err (Server (-32099) "daemon closed connection before sending a response"))
  | (s', WriteFailed) => (s', Err (Transport "write"))
  | (s', ReadFailed) => (s', Err (Transport "read"))
  end.
(** [call_into]: a failure to connect leaves through the outer result. *)
Definition call_into (connected : bool) (l : Link) (e : Env) (method : string) (params : Value) (s : AppState)
    : AppState * result (result Value RpcCallError) RpcCallError :=
  if connected then let '(s', r) := call_on_stream l e method params s in (s', Ok r) else (s, Err (Transport "connect")).

(** ** What a call comes to *)

Lemma request_decodes method params : decode_request (request method params) = Some (mkRpc (Some (IdNumber 1)) method params).
Proof. done. Qed.
Lemma handle_request e method params s : Z.of_nat (String.length (text_of (request method params))) ≤ MAX_LINE_BYTES →
  handle_line (@iter) add_secs parse_request rfc3339 e (text_of (request method params)) s =
  match dispatch (@iter) add_secs e method params s with
  | (s', Ok r) => (s', Answer (success_envelope (IdNumber 1) (reply_value rfc3339 r)))
  | (s', Err (Rejected err)) => (s', Answer (error_envelope (IdNumber 1) err))
  | (s', Err Panicked) => (s', TaskPanic)
  end.
Proof.
  intros Hlen. unfold handle_line. rewrite text_trim. rewrite (proj2 (str_is_empty_false _) (text_not_empty _)).
  rewrite (proj2 (Z.ltb_ge _ _) Hlen). unfold parse_request. rewrite value_of_text. cbn [mbind option_bind]. by rewrite request_decodes.
Qed.

(** C27: a remote call is the local one: over a socket that works, a request of at most a megabyte
    comes back with the value the dispatcher gives, or with its error code and text, and the stream
    can be used again; only a panic of the daemon's task ends it. *)
Theorem remote_call_is_dispatch e method params s : Z.of_nat (String.length (text_of (request method params))) ≤ MAX_LINE_BYTES →
  call (mkLink true true) e method params true s =
  match dispatch (@iter) add_secs e method params s with
  | (s', Ok r) => (true, s', Ok (reply_value rfc3339 r))
  | (s', Err (Rejected err)) => (true, s', Err ("daemon error " +:+ show_i (rpc_code err) +:+ ": " +:+ error_text err))
  | (s', Err Panicked) => (false, s', Err "daemon closed connection before sending response")
  end.
Proof.
  intros Hlen. unfold call, exchange. cbn [write_ok read_ok]. rewrite handle_request by done.
  destruct (dispatch (@iter) add_secs e method params s) as [s' [r|[err|]]]; [| |done]; unfold client_answer; by rewrite value_of_text.
Qed.
(** The command line reads the same answers, with a method that is not there told apart. *)
Lemma cli_call_is_dispatch e method params s : Z.of_nat (String.length (text_of (request method params))) ≤ MAX_LINE_BYTES →
  call_into true (mkLink true true) e method params s =
  match dispatch (@iter) add_secs e method params s with
  | (s', Ok r) => (s', Ok (Ok (reply_value rfc3339 r)))
  | (s', Err (Rejected (MethodNotFound m))) => (s', Ok (Err (MethodMissing ("method not found: " +:+ m))))
  | (s', Err (Rejected err)) => (s', Ok (Err (Server (rpc_code err) (error_text err))))
  | (s', Err Panicked) => (s', Ok (Err (Server (-32099) "daemon closed connection before sending a response")))
  end.
Proof.
  intros Hlen. unfold call_into, call_on_stream, exchange. cbn [write_ok read_ok]. rewrite handle_request by done.
  destruct (dispatch (@iter) add_secs e method params s) as [s' [r|[err|]]]; [| |done]; unfold cli_answer; rewrite value_of_text; [done|by destruct err].
Qed.
(** A request of more than a megabyte is refused and changes nothing. *)
Lemma oversize_refused e method params s : MAX_LINE_BYTES < Z.of_nat (String.length (text_of (request method params))) →
  call (mkLink true true) e method params true s = (true, s, Err "daemon error -32602: invalid params: line exceeds MAX_LINE_BYTES (1048576)").
Proof.
  intros Hlen. unfold call, exchange, handle_line. cbn [write_ok read_ok]. rewrite text_trim, (proj2 (str_is_empty_false _) (text_not_empty _)).
  rewrite (proj2 (Z.ltb_lt _ _) Hlen). unfold client_answer. by rewrite value_of_text.
Qed.
(** After a failed write or read no later call is sent. *)
Lemma stream_not_restored l e method params s : write_ok l && read_ok l = false →
  let '(stream, s', _) := call l e method params true s in
  ∀ l2 e2 m2 p2, call l2 e2 m2 p2 stream s' = (false, s', Err "client stream is not available").
Proof.
  intros Hl. unfold call at 1, exchange. destruct (write_ok l); [|done]. cbn in Hl. rewrite Hl.
  destruct (handle_line _ _ _ _ _ _ _) as [s' []]; done.
Qed.
End wire.

(** * The command line *)

Definition opt_value (o : option string) : Value := match o with Some t => Str t | None => Null end.
Inductive CliCmd : Type :=
| CliSessions | CliShow (session_id : string)
| CliLs (path : option string) | CliClaim (path session : string) (mode : ReservationMode) (ttl_sec : Z) | CliRelease (reservation_id : string)
| CliInbox (session : string) (unread : bool) (limit : Z) | CliRead (message_id : string)
| CliPost (from to subject body : string) (priority : Priority)
| CliState (session : option string) | CliSetFocus (file : string) (session : option string) | CliSetStatus (status : string) (session : option string)
| CliDiscover (path branch : option string) (capability : list string).
Definition mode_word (m : ReservationMode) : string := match m with Read => "read" | Write => "write" | Exclusive => "exclusive" end.
Definition priority_word (p : Priority) : string := match p with Low => "low" | Normal => "normal" | High => "high" end.
Definition cli_method (c : CliCmd) : string :=
  match c with
  | CliSessions => "session.list" | CliShow _ => "session.get" | CliLs _ => "reservation.list" | CliClaim _ _ _ _ => "reservation.claim"
  | CliRelease _ => "reservation.release" | CliInbox _ _ _ => "inbox.list" | CliRead _ => "inbox.read" | CliPost _ _ _ _ _ => "inbox.post"
  | CliState _ => "state.get" | CliSetFocus _ _ => "state.set_focus" | CliSetStatus _ _ => "state.set_status" | CliDiscover _ _ _ => "discover.agents"
  end.
(** The parameters of each command. *)
Definition show_params (session_id : string) : Value := Obj [("session_id", Str session_id)].
Definition ls_params (path : option string) : Value := Obj [("path", opt_value path)].
Definition claim_params (path session : string) (m : ReservationMode) (ttl : Z) : Value :=
  Obj [("session", Str session); ("path", Str path); ("mode", Str (mode_word m)); ("ttl_sec", num ttl)].
Definition release_params (reservation_id : string) : Value := Obj [("reservation_id", Str reservation_id)].
Definition inbox_params (session : string) (unread : bool) (limit : Z) : Value :=
  Obj [("session", Str session); ("unread_only", Bool unread); ("limit", num limit)].
Definition read_params (message_id : string) : Value := Obj [("message_id", Str message_id)].
Definition post_params (from to subject body : string) (p : Priority) : Value :=
  Obj [("from_session", Str from); ("to_session", Str to); ("subject", Str subject); ("body", Str body); ("priority", Str (priority_word p))].
Definition state_params (session : option string) : Value := Obj [("session", opt_value session)].
Definition focus_params (file : string) (session : option string) : Value := Obj [("file", Str file); ("session", opt_value session)].
Definition status_params (st : string) (session : option string) : Value := Obj [("status", Str st); ("session", opt_value session)].
Definition agents_params (path branch : option string) (caps : list string) : Value :=
  Obj [("path", opt_value path); ("branch", opt_value branch); ("capabilities", strings caps)].
Definition cli_params (c : CliCmd) : Value :=
  match c with
  | CliSessions => Obj []
  | CliShow id => show_params id
  | CliLs path => ls_params path
  | CliClaim path session m ttl => claim_params path session m ttl
  | CliRelease id => release_params id
  | CliInbox session unread limit => inbox_params session unread limit
  | CliRead id => read_params id
  | CliPost from to subject body p => post_params from to subject body p
  | CliState session => state_params session
  | CliSetFocus file session => focus_params file session
  | CliSetStatus st session => status_params st session
  | CliDiscover path branch caps => agents_params path branch caps
  end.

(** What a command comes to in the daemon: one of the client's requests, or an error. *)
Definition cli_outcome (c : CliCmd) : result Ask TeamcommError :=
  match c with
  | CliSessions => Ok AskSessions
  | CliShow id => Ok (AskSession id)
  | CliLs path => Ok (AskReservations path)
  | CliRelease id => Ok (AskRelease id)
  | CliRead id => Ok (AskRead id)
  | CliPost from to subject body p => Ok (AskPost from to subject body (priority_word p))
  | CliDiscover path branch caps => Ok (AskDiscover path branch caps)
  | CliClaim _ _ _ _ | CliInbox _ _ _ | CliState _ => Err (InvalidParams "missing required field: session_id")
  | CliSetFocus _ _ => Err (MethodNotFound "state.set_focus")
  | CliSetStatus _ _ => Err (MethodNotFound "state.set_status")
  end.

(** What a command prints, and how it ends. *)
Inductive Printed : Type := Shown (v : Value) | Placeholder (method hint : string) | Nothing.
Definition rpc_error_text (e : RpcCallError) : string :=
  match e with
  | Server code m => "daemon returned error " +:+ show_i code +:+ ": " +:+ m
  | Transport why => "transport error: " +:+ why
  | MethodMissing m => "method not found: " +:+ m
  end.
(** [placeholder_or]: every error becomes a hint, and the command succeeds. *)
Definition placeholder_or (method : string) (r : result (result Value RpcCallError) RpcCallError) : Printed * result unit string :=
  (match r with
   | Ok (Ok v) => Shown v
   | Ok (Err (MethodMissing m)) => Placeholder method m
   | Ok (Err (Transport why)) => Placeholder method ("daemon is not reachable (" +:+ why +:+ ")")
   | Ok (Err e) | Err e => Placeholder method (rpc_error_text e)
   end, Ok tt).
Definition sessions_or (method : string) (r : result (result Value RpcCallError) RpcCallError) : Printed * result unit string :=
  match r with
  | Ok (Ok v) => (Shown v, Ok tt)
  | Ok (Err (MethodMissing m)) => (Nothing, Err ("daemon does not implement `" +:+ method +:+ "` yet (" +:+ m +:+ ")"))
  | Ok (Err e) | Err e => (Nothing, Err (rpc_error_text e))
  end.
Definition finish (c : CliCmd) : result (result Value RpcCallError) RpcCallError → Printed * result unit string :=
  match c with CliSessions | CliShow _ => sessions_or (cli_method c) | _ => placeholder_or (cli_method c) end.
(** [daemon stop]. *)
Definition stop_or (r : result (result Value RpcCallError) RpcCallError) : Printed * result unit string :=
  match r with
  | Ok (Ok v) => (Shown v, Ok tt)
  | Ok (Err (MethodMissing m)) => (Placeholder "daemon.shutdown" m, Ok tt)
  | Ok (Err (Transport why)) => (Placeholder "daemon.shutdown" ("could not reach the daemon (" +:+ why +:+ "); nothing to stop"), Ok tt)
  | Ok (Err e) | Err e => (Nothing, Err (rpc_error_text e))
  end.

Section cli.
Context `{JsonText}.
Variable iter : ∀ {A : Type}, gmap string A → list (string * A).
Variable add_secs : Z → Z → option Z.
Variable rfc3339 : Z → string.
Definition run_cli (connected : bool) (l : Link) (e : Env) (c : CliCmd) (s : AppState) : AppState * (Printed * result unit string) :=
  let '(s', r) := call_into (@iter) add_secs rfc3339 connected l e (cli_method c) (cli_params c) s in (s', finish c r).
Definition stop_daemon (connected : bool) (l : Link) (e : Env) (s : AppState) : AppState * (Printed * result unit string) :=
  let '(s', r) := call_into (@iter) add_secs rfc3339 connected l e "daemon.shutdown" (Obj []) s in (s', stop_or r).

Lemma mode_word_parses m : parse_reservation_mode (mode_word m) = Ok m.
Proof. by destruct m. Qed.
Lemma priority_word_parses p : parse_priority (priority_word p) = Ok p.
Proof. by destruct p. Qed.

(** The parameters of a command and those the client builds for the same request decode alike. *)
Lemma cli_dispatch e c s : dispatch (@iter) add_secs e (cli_method c) (cli_params c) s =
  match cli_outcome c with Ok a => perform (@iter) add_secs e a s | Err err => (s, Err (Rejected err)) end.
Proof.
  destruct c as [|id|path|path session m ttl|id|session unread limit|id|from to subject body p|session|file session|st session|path branch caps]; try done;
    try (by destruct session).
  - apply (ask_dispatch (@iter) add_secs e (AskSession id) s I).
  - cbn [cli_outcome]. rewrite <- (ask_dispatch (@iter) add_secs e (AskReservations path) s I). by destruct path.
  - cbn [cli_outcome]. by rewrite <- (ask_dispatch (@iter) add_secs e (AskPost from to subject body (priority_word p)) s I).
  - cbn [cli_outcome]. rewrite <- (ask_dispatch (@iter) add_secs e (AskDiscover path branch caps) s I). by destruct path, branch.
Qed.

(** Over a working socket a command of the command line does in the daemon what the client's
    request does and shows its value or its error; a claim, a listing of the inbox, a look at a state
    and a change of focus or status are no such request: the daemon refuses them unchanged, and the
    command prints its hint and succeeds. *)
Theorem cli_commands_reach e c s : Z.of_nat (String.length (text_of (request (cli_method c) (cli_params c)))) ≤ MAX_LINE_BYTES →
  match cli_outcome c with
  | Ok a =>
      let '(s', r) := perform (@iter) add_secs e a s in
      let '(s'', (shown, ended)) := run_cli true (mkLink true true) e c s in
      s'' = s' ∧ (∀ v, r = Ok v → shown = Shown (reply_value rfc3339 v) ∧ ended = Ok tt)
  | Err err => ∃ hint, run_cli true (mkLink true true) e c s = (s, (Placeholder (cli_method c) hint, Ok tt))
  end.
Proof.
  intros Hlen. unfold run_cli. rewrite cli_call_is_dispatch, cli_dispatch by done. destruct (cli_outcome c) as [a|err] eqn:Hc.
  - destruct (perform _ _ _ _ _) as [s' [r|[[]|]]]; destruct c; cbn [finish sessions_or placeholder_or];
      (split; [done|]); intros v Hv; by simplify_eq.
  - destruct c; try done; injection Hc as <-; by eexists.
Qed.

(** The stop command changes nothing in a daemon that runs, and says so only in its text; when no
    daemon can be reached it fails, although it has a text for that. *)
Lemma stop_stops_nothing e s : Z.of_nat (String.length (text_of (request "daemon.shutdown" (Obj [])))) ≤ MAX_LINE_BYTES →
  stop_daemon true (mkLink true true) e s = (s, (Placeholder "daemon.shutdown" "method not found: daemon.shutdown", Ok tt)) ∧
  stop_daemon false (mkLink true true) e s = (s, (Nothing, Err "transport error: connect")).
Proof. intros Hlen. unfold stop_daemon. by rewrite cli_call_is_dispatch. Qed.
End cli.

(** * The MCP server *)

Inductive McpTool : Type :=
| RegisterSession | DeregisterSession | ListSessions | ClaimFile | ReleaseFile | ListClaims | PostMessage | ReadInbox
| AnnounceFocus | SetStatus | DiscoverAgentsForPath.
(** The names [route] knows, and those the manifest and [KNOWN_TOOL_NAMES] give to the caller. *)
Definition routed : list (string * McpTool) :=
  [("teamcomm_session_register", RegisterSession); ("teamcomm_session_deregister", DeregisterSession); ("teamcomm_session_list", ListSessions);
   ("teamcomm_file_claim", ClaimFile); ("teamcomm_file_release", ReleaseFile); ("teamcomm_file_list_claims", ListClaims);
   ("teamcomm_inbox_post", PostMessage); ("teamcomm_inbox_read", ReadInbox); ("teamcomm_announce_focus", AnnounceFocus);
   ("teamcomm_set_status", SetStatus); ("teamcomm_discover_agents_for_path", DiscoverAgentsForPath)].
Definition KNOWN_TOOL_NAMES : list string :=
  ["register_session"; "deregister_session"; "list_sessions"; "claim_file"; "release_file"; "list_claims"; "post_message"; "read_inbox";
   "announce_focus"; "set_status"; "discover_agents_for_path"].
Definition tool_of (name : string) : option McpTool := snd <$> find (λ x : string * McpTool, bool_decide (x.1 = name)) routed.

Definition require_str (k : string) (args : Value) : result string string :=
  ok_or ("missing required string argument: " +:+ k) (str_field k args).
Definition mcp_method (t : McpTool) : string :=
  match t with
  | RegisterSession => "session.register" | DeregisterSession => "session.deregister" | ListSessions => "session.list"
  | ClaimFile => "reservation.claim" | ReleaseFile => "reservation.release" | ListClaims => "reservation.list"
  | PostMessage => "inbox.post" | ReadInbox => "inbox.list" | AnnounceFocus | SetStatus => "state.set" | DiscoverAgentsForPath => "discover.agents"
  end.
(** [contains_key] and [insert] of a map that may not be an object. *)
Definition members (v : option Value) : list (string * Value) := match v with Some (Obj m) => m | _ => [] end.
Definition insert_missing (k : string) (o : option string) (m : list (string * Value)) : list (string * Value) :=
  match obj_get k m, o with None, Some t => obj_set k (Str t) m | _, _ => m end.
Definition register_metadata (agent_id role : string) (args : Value) : list (string * Value) :=
  let m := insert_missing "focus" (str_field "focus" args) (insert_missing "role" (Some role) (members (value_get "metadata" args))) in
  obj_set "mcp_agent_id" (Str agent_id) (obj_set "mcp_role" (Str role) m).

(** The parameters each handler sends; [own_pid] is the process of the server. *)
Definition mcp_params (own_pid : Z) (t : McpTool) (args : Value) : result Value string :=
  match t with
  | RegisterSession =>
      agent_id <-? require_str "agent_id" args;; role <-? require_str "role" args;;
      Ok (Obj [("agent_type", Str "codex"); ("pid", num own_pid); ("metadata", Obj (register_metadata agent_id role args))])
  | DeregisterSession => id <-? require_str "session_id" args;; Ok (Obj [("session_id", Str id)])
  | ListSessions => Ok (set_opt "focus_contains" (str_field "focus_contains" args) (set_opt "role" (str_field "role" args) (Obj [])))
  | ClaimFile =>
      id <-? require_str "session_id" args;; path <-? require_str "path" args;; m <-? require_str "mode" args;;
      let ttl := default 300 (value_get "ttl_sec" args ≫= JsonValue.as_u64) in
      Ok (set_opt "reason" (str_field "reason" args) (Obj [("session_id", Str id); ("path", Str path); ("mode", Str m); ("ttl_seconds", num ttl)]))
  | ReleaseFile =>
      id <-? require_str "reservation_id" args;;
      Ok (set_opt "session_id" (str_field "session_id" args) (Obj [("reservation_id", Str id)]))
  | ListClaims =>
      Ok (set_opt "mode" (str_field "mode" args) (set_opt "path_prefix" (str_field "path_prefix" args) (set_opt "session_id" (str_field "session_id" args) (Obj []))))
  | PostMessage =>
      id <-? require_str "session_id" args;; body <-? require_str "body" args;;
      let o := Obj [("from_session", Str id); ("kind", Str (default "note" (str_field "kind" args)));
                    ("priority", Str (default "normal" (str_field "priority" args))); ("body", Str body)] in
      Ok (set_opt "subject" (str_field "topic" args) (set_opt "to_session" (Some (default EmptyString (str_field "to" args))) o))
  | ReadInbox =>
      id <-? require_str "session_id" args;;
      let o := match value_get "limit" args ≫= JsonValue.as_u64 with Some n => Obj [("session_id", Str id); ("limit", num n)] | None => Obj [("session_id", Str id)] end in
      Ok (set_opt "since" (str_field "since" args) o)
  | AnnounceFocus =>
      id <-? require_str "session_id" args;; focus <-? require_str "focus" args;;
      Ok (Obj [("session_id", Str id); ("state", Obj [("focus", Str focus); ("status", Str "working")])])
  | SetStatus =>
      id <-? require_str "session_id" args;; st <-? require_str "status" args;;
      Ok (Obj [("session_id", Str id); ("state", set_opt "status_message" (str_field "message" args) (Obj [("status", Str st)]))])
  | DiscoverAgentsForPath =>
      path <-? require_str "path" args;;
      Ok (set_opt "agent_type" (str_field "agent_type" args)
            (Obj [("path", Str path); ("include_idle", Bool (default false (value_get "include_idle" args ≫= as_bool)))]))
  end.

(** What reaches the daemon of the arguments of a tool. *)
Definition field (k : string) (args : Value) : string := default EmptyString (str_field k args).
Definition mcp_effect (own_pid : Z) (t : McpTool) (args : Value) : Ask :=
  match t with
  | RegisterSession => AskRegister own_pid "codex" None []
  | DeregisterSession => AskDeregister (field "session_id" args)
  | ListSessions => AskSessions
  | ClaimFile => AskClaim (field "session_id" args) (field "path" args) (field "mode" args) 600
  | ReleaseFile => AskRelease (field "reservation_id" args)
  | ListClaims => AskReservations None
  | PostMessage => AskPost (field "session_id" args) (field "to" args) (field "topic" args) (field "body" args) (default "normal" (str_field "priority" args))
  | ReadInbox => AskInbox (field "session_id" args) false (default 50 (value_get "limit" args ≫= JsonValue.as_u64))
  | AnnounceFocus | SetStatus => AskSetState (field "session_id" args) None None None "idle"
  | DiscoverAgentsForPath => AskDiscover (Some (field "path" args)) None []
  end.

Section mcp.
Variable iter : ∀ {A : Type}, gmap string A → list (string * A).
Variable add_secs : Z → Z → option Z.

Lemma require_field k args x : require_str k args = Ok x → field k args = x.
Proof. unfold require_str, field. destruct (str_field k args); by intros [= ->]. Qed.

(** What an MCP tool does in the daemon: a claim lasts ten minutes whatever lifetime was asked
    for, a claim listing is of every claim, the announcement of a focus and the setting of any status
    both clear the focus and set the status to idle, a message to nobody goes to the inbox of the
    empty name, a registration is of the server's own process. *)
Theorem mcp_tools_reach own_pid e t args p s : 0 ≤ own_pid < 2 ^ 32 → mcp_params own_pid t args = Ok p →
  dispatch (@iter) add_secs e (mcp_method t) p s = perform (@iter) add_secs e (mcp_effect own_pid t args) s.
Proof.
  intros Hpid Hp. rewrite <- (ask_dispatch (@iter) add_secs e (mcp_effect own_pid t args) s) by by destruct t.
  destruct t; cbn [mcp_params] in Hp;
    repeat (match type of Hp with context [require_str ?k ?a] => destruct (require_str k a) eqn:?; [|done] end; cbn [result_bind] in Hp);
    injection Hp as <-; cbn [mcp_method mcp_effect ask_method ask_params];
    repeat match goal with Hr : require_str _ _ = Ok _ |- _ => rewrite (require_field _ _ _ Hr); clear Hr end; try done.
  - by destruct (str_field "reason" args).
  - by destruct (str_field "session_id" args).
  - by destruct (str_field "session_id" args), (str_field "path_prefix" args), (str_field "mode" args).
  - unfold field. by destruct (str_field "topic" args).
  - by destruct (str_field "since" args), (value_get "limit" args ≫= JsonValue.as_u64).
  - by destruct (str_field "agent_type" args).
Qed.
End mcp.

(** ** The server *)

Definition error_reply (id : Value) (code : Z) (message : string) : Value :=
  Obj [("jsonrpc", Str "2.0"); ("id", id); ("error", Obj [("code", Num (NegInt code)); ("message", Str message)])].
Definition result_reply (id v : Value) : Value := Obj [("jsonrpc", Str "2.0"); ("id", id); ("result", v)].
Definition id_of (req : Value) : Value := default Null (value_get "id" req).

Section server.
Context `{JsonText}.
Variable iter : ∀ {A : Type}, gmap string A → list (string * A).
Variable add_secs : Z → Z → option Z.
Variable rfc3339 : Z → string.
Variable manifest : Value.
Variable own_pid : Z.

(** [route]: a fresh context and, for the known tools, a fresh connection for every call. *)
Definition route (connected : bool) (l : Link) (e : Env) (name : string) (args : Value) (s : AppState) : AppState * result Value string :=
  match tool_of name with
  | None => (s, Err ("unknown tool: " +:+ name))
  | Some t =>
      match mcp_params own_pid t args with
      | Err m => (s, Err m)
      | Ok p =>
          if connected then
            let '(_, s', r) := call (@iter) add_secs rfc3339 l e (mcp_method t) p true s in
            (s', match r with Ok v => Ok v | Err m => Err (mcp_method t +:+ " failed: " +:+ m) end)
          else (s, Err "failed to connect to teamcomm daemon")
      end
  end.
Definition dispatch_tool_call (connected : bool) (l : Link) (e : Env) (req : Value) (s : AppState) : AppState * result Value string :=
  match str_field "method" req with
  | None => (s, Err "missing method")
  | Some m =>
      if bool_decide (m = "tools/call") then
        let params := default Null (value_get "params" req) in
        match str_field "name" params with
        | None => (s, Err "missing params.name")
        | Some name =>
            let '(s', r) := route connected l e name (default Null (value_get "arguments" params)) s in
            (s', Ok (match r with Ok v => result_reply (id_of req) v | Err m => error_reply (id_of req) (-32000) m end))
        end
      else (s, Ok (error_reply (id_of req) (-32601) ("unknown method: " +:+ m)))
  end.
(** One line of standard input: [None] when nothing is written. *)
Definition mcp_line (connected : bool) (l : Link) (e : Env) (line : string) (s : AppState) : AppState * option Value :=
  if str_is_empty (trim line) then (s, None)
  else match value_of line with
  | None => (s, Some (error_reply Null (-32700) "parse error"))
  | Some req =>
      let m := default EmptyString (str_field "method" req) in
      if bool_decide (m = "initialize") || bool_decide (m = "tools/list") then (s, Some (result_reply (id_of req) manifest))
      else if bool_decide (m = "tools/call") then
        let '(s', r) := dispatch_tool_call connected l e req s in
        (s', Some (match r with Ok v => v | Err m => error_reply (id_of req) (-32000) m end))
      else if bool_decide (m = "ping") then (s, Some (result_reply (id_of req) (Obj [])))
      else if bool_decide (m = EmptyString) then (s, Some (error_reply (id_of req) (-32600) "missing method"))
      else (s, Some (error_reply (id_of req) (-32601) ("method not found: " +:+ m)))
  end.

(** The MCP server answers every line that is not blank with one reply under the id of the line,
    or the null id when the line is no JSON or has none; only a call of a routed tool with its
    arguments over a connection reaches the daemon. *)
Theorem mcp_answers_each_line connected l e line s :
  let '(s', out) := mcp_line connected l e line s in
  (out = None ↔ trim line = EmptyString) ∧
  (∀ v, out = Some v → value_get "id" v = Some (from_option id_of Null (value_of line))) ∧
  (s' ≠ s → ∃ req params name t p, value_of line = Some req ∧ connected = true ∧ str_field "method" req = Some "tools/call" ∧
     value_get "params" req = Some params ∧ str_field "name" params = Some name ∧ tool_of name = Some t ∧
     mcp_params own_pid t (default Null (value_get "arguments" params)) = Ok p).
Proof.
  unfold mcp_line. destruct (str_is_empty (trim line)) eqn:Hb.
  { split_and!; [|done|done]. split; [intros _|done]. by destruct (trim line). }
  assert (trim line ≠ EmptyString) as Hne by by apply str_is_empty_false.
  destruct (value_of line) as [req|]; [|split_and!; [done|by intros v [= <-]|done]]. cbn [from_option].
  destruct (str_field "method" req) as [m|] eqn:Hm; cbn [default]; [|split_and!; [done|by intros v [= <-]|done]]. unfold id.
  destruct (_ || _); [split_and!; [done|by intros v [= <-]|done]|].
  destruct (decide (m = "tools/call")) as [->|Hd]; cycle 1.
  { rewrite (bool_decide_false (m = "tools/call")) by done. destruct (bool_decide (m = "ping")), (bool_decide (m = EmptyString)); cbv beta iota;
      (split_and!; [done|by intros v [= <-]|done]). }
  rewrite (bool_decide_true ("tools/call" = "tools/call")) by done.
  unfold dispatch_tool_call. rewrite Hm. rewrite bool_decide_true by done.
  destruct (str_field "name" (default Null (value_get "params" req))) as [name|] eqn:Hn; [|split_and!; [done|by intros v [= <-]|done]].
  unfold route. destruct (tool_of name) as [t|] eqn:Ht; [|split_and!; [done|by intros v [= <-]|done]].
  destruct (mcp_params _ _ _) as [p|m] eqn:Hp; [|split_and!; [done|by intros v [= <-]|done]].
  destruct connected; [|split_and!; [done|by intros v [= <-]|done]]. destruct (call _ _ _ _ _ _ _ _ _) as [[st s'] r].
  split_and!; [done|destruct r; by intros v [= <-]|]. intros _. destruct (value_get "params" req) as [params|] eqn:Hv; [|done].
  exists req, params, name, t, p. by split_and!.
Qed.

(** None of the tools the server offers can be called under its name. *)
Lemma advertised_tools_unknown connected l e args s name : name ∈ KNOWN_TOOL_NAMES →
  route connected l e name args s = (s, Err ("unknown tool: " +:+ name)).
Proof.
  intros Hin. assert (Forall (λ n, tool_of n = None) KNOWN_TOOL_NAMES) as Ha by by repeat constructor.
  rewrite Forall_forall in Ha. unfold route. by rewrite (Ha name Hin).
Qed.
End server.

(** * The pid file of the daemon *)

(** The file, and whether a process runs. *)
Inductive PidFile : Type := NoFile | Unreadable | Contents (text : string).
Definition read_pid_file (f : PidFile) : result (option Z) string :=
  match f with
  | NoFile => Ok None
  | Unreadable => Err "failed to read pid file"
  | Contents t =>
      let trimmed := trim t in
      if str_is_empty trimmed then Ok None
      else pid <-? ok_or "non-numeric pid" (parse_uint u32_max trimmed);; Ok (Some pid)
  end.
(** The part of [write_pid_file] that looks, and the part that writes; the removal of a stale file may fail. *)
Definition check_pid (running : Z → bool) (f : PidFile) : result unit string :=
  existing <-? read_pid_file f;;
  match existing with
  | Some p => if running p then Err "pid file already exists and the pid is running" else Ok tt
  | None => Ok tt
  end.
Definition put_pid (mkdir_ok write_ok : bool) (pid : Z) (f : PidFile) : PidFile * result unit string :=
  if mkdir_ok then if write_ok then (Contents (show_u pid), Ok tt) else (f, Err "failed to write pid file") else (f, Err "failed to create pid file parent").
Definition write_pid_file (running : Z → bool) (mkdir_ok write_ok : bool) (pid : Z) (f : PidFile) : PidFile * result unit string :=
  match check_pid running f with
  | Err m => (f, Err m)
  | Ok _ => put_pid mkdir_ok write_ok pid f
  end.

(** A daemon that has written its pid file is the only one: as long as it runs, no other daemon
    that looks afterwards writes its own, and the file reads back its number. *)
Theorem pid_file_excludes running pid f f' pid' a b : 0 ≤ pid ≤ u32_max → running pid = true →
  write_pid_file running true true pid f = (f', Ok tt) →
  read_pid_file f' = Ok (Some pid) ∧ write_pid_file running a b pid' f' = (f', Err "pid file already exists and the pid is running").
Proof.
  intros Hp Hr Hw. unfold write_pid_file in Hw. destruct (check_pid running f); [|done]. cbn in Hw. injection Hw as <-.
  assert (trim (show_u pid) = show_u pid) as Ht.
  { apply (trim_no_ws (λ c, negb (is_ws c))); [intros c; by rewrite negb_true_iff|].
    assert (∀ c, has_char c (show_u pid) = true → is_ws c = false) as Hc.
    { intros c Hc. destruct (is_ws c) eqn:E; [|done]. rewrite has_char_show_u in Hc; [done|]. revert E. clear. destruct c as [[] [] [] [] [] [] [] []]; by vm_compute. }
    induction (show_u pid) as [|c t IH]; [done|]. cbn. rewrite Hc by (cbn; by rewrite bool_decide_true). apply IH.
    intros d Hd. apply Hc. cbn. by rewrite Hd, orb_true_r. }
  assert (read_pid_file (Contents (show_u pid)) = Ok (Some pid)) as Hread.
  { unfold read_pid_file. rewrite Ht, (proj2 (str_is_empty_false _) (show_u_nonempty pid)), parse_uint_show by done. done. }
  split; [done|]. unfold write_pid_file, check_pid. rewrite Hread. cbn. by rewrite Hr.
Qed.
Lemma pid_file_excludes_witness :
  read_pid_file (Contents "12") = Ok (Some 12) ∧
  write_pid_file (λ _, true) true true 13 (Contents "12") = (Contents "12", Err "pid file already exists and the pid is running").
Proof. apply (pid_file_excludes (λ _, true) 12 NoFile (Contents "12")); [by split|done|by vm_compute]. Defined.
(** Two daemons that look before either has written both start, and the second one's number stays. *)
Example both_start running : check_pid running NoFile = Ok tt ∧
  put_pid true true 2 (put_pid true true 1 NoFile).1 = (Contents "2", Ok tt).
Proof. by vm_compute. Qed.
(** A file that cannot be understood keeps every later daemon from starting. *)
Example garbled_file_blocks running pid : write_pid_file running true true pid (Contents "x") = (Contents "x", Err "non-numeric pid").
Proof. done. Qed.

(** * Concrete calls *)

Module DemoClient.
Import DemoText.
Definition rfc (_ : Z) : string := EmptyString.
Definition one_session : AppState := (serve DemoDaemon.iter DemoDaemon.add_secs [DemoDaemon.register 0 "a" 1]).1.

Lemma typed_client_refines_witness :
  dispatch DemoDaemon.iter DemoDaemon.add_secs (mkEnv 5 "u") "session.register" (ask_params (AskRegister 7 "claude" None ["rust"])) one_session =
  perform DemoDaemon.iter DemoDaemon.add_secs (mkEnv 5 "u") (AskRegister 7 "claude" None ["rust"]) one_session.
Proof. apply (typed_client_refines DemoDaemon.iter DemoDaemon.add_secs (mkEnv 5 "u") (AskRegister 7 "claude" None ["rust"]) one_session). split; [lia|reflexivity]. Defined.
Lemma remote_call_is_dispatch_witness :
  call DemoDaemon.iter DemoDaemon.add_secs rfc (mkLink true true) (mkEnv 5 "u") "state.get" (ask_params (AskState "x")) true new_state =
  (true, new_state, Err "daemon error -32004: not found: live state for session x").
Proof.
  refine (eq_trans (remote_call_is_dispatch DemoDaemon.iter DemoDaemon.add_secs rfc (mkEnv 5 "u") "state.get" (ask_params (AskState "x")) new_state _) _);
    [by vm_compute|reflexivity].
Defined.
Definition claim_cmd : CliCmd := CliClaim "src/a.rs" "sess_a" Write 60.
Lemma cli_commands_reach_witness : ∃ hint,
  run_cli DemoDaemon.iter DemoDaemon.add_secs rfc true (mkLink true true) (mkEnv 5 "u") claim_cmd one_session =
  (one_session, (Placeholder "reservation.claim" hint, Ok tt)).
Proof. apply (cli_commands_reach DemoDaemon.iter DemoDaemon.add_secs rfc (mkEnv 5 "u") claim_cmd one_session). by vm_compute. Defined.
(** The arguments of a claim for one minute and of a status of working. *)
Definition claim_args : Value := Obj [("session_id", Str "sess_a"); ("path", Str "a"); ("mode", Str "write"); ("ttl_sec", num 60)].
Lemma mcp_tools_reach_witness :
  dispatch DemoDaemon.iter DemoDaemon.add_secs (mkEnv 0 "u") "reservation.claim"
    (Obj [("session_id", Str "sess_a"); ("path", Str "a"); ("mode", Str "write"); ("ttl_seconds", num 60)]) one_session =
  perform DemoDaemon.iter DemoDaemon.add_secs (mkEnv 0 "u") (AskClaim "sess_a" "a" "write" 600) one_session.
Proof.
  apply (mcp_tools_reach DemoDaemon.iter DemoDaemon.add_secs 9 (mkEnv 0 "u") ClaimFile claim_args); [split; [lia|reflexivity]|reflexivity].
Defined.
Example status_becomes_idle :
  status <$> live_state (dispatch DemoDaemon.iter DemoDaemon.add_secs (mkEnv 0 "u") "state.set"
    (match mcp_params 9 SetStatus (Obj [("session_id", Str "sess_a"); ("status", Str "blocked")]) with Ok p => p | Err _ => Null end) one_session).1 !! "sess_a" = Some Idle.
Proof. by vm_compute. Qed.
(** A message without an addressee is in the inbox of nobody, not in those of the team. *)
Example broadcast_reaches_nobody :
  (dispatch DemoDaemon.iter DemoDaemon.add_secs (mkEnv 0 "u") "inbox.post"
    (match mcp_params 9 PostMessage (Obj [("session_id", Str "sess_a"); ("body", Str "hi")]) with Ok p => p | Err _ => Null end) one_session).1
  = with_inbox (<[EmptyString := [mkMessage "msg_u" "sess_a" EmptyString EmptyString "hi" Normal 0 false]]>) one_session.
Proof. by vm_compute. Qed.
Lemma mcp_answers_each_line_witness :
  value_get "id" (default Null (mcp_line DemoDaemon.iter DemoDaemon.add_secs rfc Null 9 true (mkLink true true) (mkEnv 0 "u")
    (text (Obj [("id", num 4); ("method", Str "ping")])) new_state).2) = Some (num 4).
Proof.
  pose proof (mcp_answers_each_line DemoDaemon.iter DemoDaemon.add_secs rfc Null 9 true (mkLink true true) (mkEnv 0 "u") (text (Obj [("id", num 4); ("method", Str "ping")])) new_state) as Hm.
  destruct (mcp_line _ _ _ _ _ _ _ _ _ _) as [s' [v|]] eqn:E; [|by vm_compute in E]. destruct Hm as (_ & Hid & _).
  cbn. rewrite (Hid v eq_refl). by vm_compute.
Defined.
End DemoClient.
