(* ===== verification/SurfaceClient.v ===== *)
(** The clients of terminal surfaces (src/session.rs): the commands of zmx, the capabilities of Ghostty
    and the client of the control socket, put together with the surface server of [SurfaceRpc].  The
    texts of JSON values, the JSON of a reply and the failures of the socket are parameters. *)
From S2P Require Import Prelude JsonValue Sessions SessionLedger SurfaceEvents SurfaceRpc.

(** * zmx *)

Record ZmxCommand : Type := mkZmx { program : string; args : list string }.
Definition zmx_attach (binary name : string) (command : list string) : ZmxCommand := mkZmx binary (["attach"; name] ++ command).
Definition zmx_send (binary name input : string) : ZmxCommand := mkZmx binary ["send"; name; input].
Definition zmx_tail (binary name : string) (lines : option Z) : ZmxCommand :=
  mkZmx binary ("tail" :: match lines with Some n => ["--lines"; show_u n; name] | None => [name] end).
Definition zmx_history (binary name : string) (vt : bool) : ZmxCommand :=
  mkZmx binary ("history" :: (if vt then ["--vt"] else []) ++ [name]).
Record ZmxCapabilities : Type := mkZmxCaps { available : bool; durable_pty : bool; unix_socket : bool; zmx_history_ok : bool }.
(** [command_available]: the binary itself, or one in a directory of the path. *)
Definition command_available (is_file : string → bool) (path_dirs : option (list string)) (join : string → string → string) (binary : string) : bool :=
  is_file binary || from_option (existsb (λ d, is_file (join d binary))) false path_dirs.
Definition zmx_capabilities (avail probe_socket : bool) : ZmxCapabilities := mkZmxCaps avail avail (avail && probe_socket) avail.

(** * Ghostty *)

Record GhosttyCapabilities : Type := mkGhostty { apple_events : bool; app_intents : bool; accessibility_readback : bool; control_socket : bool }.
Definition from_probe (ae ai ar : bool) : GhosttyCapabilities := mkGhostty ae ai ar false.
Definition with_control_socket (c : GhosttyCapabilities) (b : bool) : GhosttyCapabilities :=
  mkGhostty (apple_events c) (app_intents c) (accessibility_readback c) b.
Definition degraded_reason (c : GhosttyCapabilities) : option string :=
  if negb (apple_events c) && negb (app_intents c) && negb (control_socket c) then Some "native surface API unavailable"
  else if negb (control_socket c) then Some "native RPC unavailable" else None.
(** Nothing but the control socket lifts the degradation. *)
Lemma degraded_unless_socket c : degraded_reason c = None ↔ control_socket c = true.
Proof. unfold degraded_reason. destruct c as [[] [] ? []]; done. Qed.

(** * The control client *)

Definition n64 (n : Z) : Value := Num (PosInt n).
Definition with_token (token : option string) (v : Value) : Value :=
  match token, v with Some t, Obj m => Obj (obj_set "token" (Str t) m) | _, _ => v end.
(** The request of [request]; those of [subscribe_surface] and [unsubscribe]. *)
Definition one_shot (id : Z) (method : string) (params : list (string * Value)) (token : option string) : Value :=
  with_token token (Obj [("id", n64 id); ("method", Str method); ("params", Obj params)]).
Definition enveloped (id : Z) (method : string) (params : list (string * Value)) (token : option string) : Value :=
  with_token token (Obj [("jsonrpc", Str "2.0"); ("id", n64 id); ("method", Str method); ("params", Obj params)]).

(** The one-shot methods. *)
Inductive SurfaceAsk : Type :=
| AskList | AskSend (surface text : string) | AskCapabilities (surface : string) | AskRead (surface : string) (max_bytes : Z)
| AskResize (surface : string) (rows cols : Z) | AskSnapshot | AskRestore (snapshot : Value).
Definition surface_ask_method (a : SurfaceAsk) : string :=
  match a with
  | AskList => "surface.list" | AskSend _ _ => "surface.io.send" | AskCapabilities _ => "surface.io.capabilities" | AskRead _ _ => "surface.io.read"
  | AskResize _ _ _ => "surface.io.resize" | AskSnapshot => "surface.layout.snapshot" | AskRestore _ => "surface.layout.restore"
  end.
Definition surface_ask_params (a : SurfaceAsk) : list (string * Value) :=
  match a with
  | AskList | AskSnapshot => []
  | AskSend i t => [("surface_id", Str i); ("text", Str t)]
  | AskCapabilities i => [("surface_id", Str i)]
  | AskRead i n => [("surface_id", Str i); ("max_bytes", n64 n)]
  | AskResize i r c => [("surface_id", Str i); ("rows", n64 r); ("cols", n64 c)]
  | AskRestore v => [("snapshot", v)]
  end.

Definition opt_entry {A} (k : string) (f : A → Value) (o : option A) : list (string * Value) :=
  match o with Some a => [(k, f a)] | None => [] end.
Definition subscribe_params (surface : option string) (from_seq : option Z) (chunk capacity : Z) : list (string * Value) :=
  [("max_chunk_bytes", n64 chunk); ("queue_capacity", n64 capacity)] ++ opt_entry "surface_id" Str surface ++ opt_entry "from_seq" n64 from_seq.

Section client.
Context `{SurfaceControl} `{JsonText}.
Variable de_layout : Value → option SessionLedger.LayoutSnapshot.
Variable explain : Value → string.
(** The JSON of a result. *)
Variable reply_json : Reply → Value.
Definition parse_line (line : string) : result Value string := ok_or "expected value" (value_of line).
Definition serve (expected : option string) (line : string) (s : Rpc) : Rpc * SurfaceResponse :=
  dispatch_with_token parse_line de_layout explain expected line s.
Definition response_value (r : SurfaceResponse) : Value :=
  Obj ([("jsonrpc", Str "2.0"); ("id", sr_id r)] ++
    match sr_outcome r with
    | Ok v => [("result", reply_json v)]
    | Err (code, m) => [("error", Obj [("code", Num (NegInt code)); ("message", Str m)])]
    end).

(** The answer to a request: an error, or the result. *)
Definition answer_of (what : string) (line : string) : result Value string :=
  v <-? ok_or "expected value" (value_of line);;
  match value_get "error" v with
  | Some err => Err (what +:+ " failed: " +:+ text_of err)
  | None => Ok (default Null (value_get "result" v))
  end.
(** [request]: connect, write, read one line. *)
Definition request (connected : bool) (expected : option string) (id : Z) (method : string) (params : list (string * Value)) (token : option string)
    (s : Rpc) : Rpc * result Value string :=
  if connected then
    let '(s', r) := serve expected (text_of (one_shot id method params token)) s in
    (s', answer_of ("Ghostty RPC " +:+ method) (text_of (response_value r)))
  else (s, Err "connect").
(** [subscribe_surface]: the bounds are checked before the socket is opened; the number of the subscription. *)
Definition in_range (mx n : Z) : bool := (1 <=? n) && (n <=? mx).
Definition subscribe_surface (connected : bool) (expected : option string) (id : Z) (surface : option string) (from_seq : option Z)
    (chunk capacity : Z) (token : option string) (s : Rpc) : Rpc * result Z string :=
  if negb (in_range (Z.of_N MAX_EVENT_CHUNK_BYTES) chunk) then (s, Err "max_chunk_bytes must be between 1 and 65536")
  else if negb (in_range (Z.of_N MAX_EVENT_QUEUE_CAPACITY) capacity) then (s, Err "queue_capacity must be between 1 and 256")
  else if connected then
    let '(s', r) := serve expected (text_of (enveloped id "surface.io.subscribe" (subscribe_params surface from_seq chunk capacity) token)) s in
    (s', v <-? answer_of "Ghostty subscribe" (text_of (response_value r));;
         ok_or "missing field" (value_get "subscription_id" v ≫= JsonValue.as_u64))
  else (s, Err "connect").

(** [next_event]: lines that are neither events nor errors are skipped. *)
Fixpoint next_event (lines : list string) : result (Value * list string) string :=
  match lines with
  | [] => Err "Ghostty live surface subscription closed"
  | line :: rest =>
      v <-? ok_or "expected value" (value_of line);;
      if bool_decide (value_get "method" v ≫= as_str = Some "surface.io.event") then Ok (value_index "params" v, rest)
      else match value_get "error" v with
           | Some err => Err ("Ghostty live event RPC failed: " +:+ text_of err)
           | None => next_event rest
           end
  end.
(** The rest of [unsubscribe], after the request was written: one line is read for the answer. *)
Definition unsubscribe_answer (lines : list string) : result unit string :=
  v <-? ok_or "expected value" (head lines ≫= value_of);;
  match value_get "error" v with Some err => Err ("Ghostty unsubscribe failed: " +:+ text_of err) | None => Ok tt end.

(** ** One-shot requests *)

(** Reading the tree of an object of distinct keys keeps its values read alike. *)
Lemma one_shot_tree id method params token : ∃ p,
  as_value (one_shot id method params token) = with_token token (Obj [("id", n64 id); ("method", Str method); ("params", Obj p)]).
Proof. eexists. destruct token; reflexivity. Qed.

(** The surface server of this repository refuses every one-shot request of the control client,
    with the right token or without, and calls nothing of its provider: the request has no version. *)
Theorem one_shot_refused connected expected id method params token s : ∃ why,
  request connected expected id method params token s = (s, Err why).
Proof.
  destruct connected; [|by eexists]. unfold request, serve, dispatch_with_token.
  destruct (one_shot_tree id method params token) as [p Hp].
  assert (decode_request (as_value (one_shot id method params token)) = None) as Hd by (rewrite Hp; by destruct token).
  assert (value_get "params" (as_value (one_shot id method params token)) = Some (Obj p)) as Hv by (rewrite Hp; by destruct token).
  assert (dispatch_surface parse_line de_layout explain (text_of (one_shot id method params token)) s =
    (s, surface_error Null (-32600) ("invalid request: " +:+ explain (as_value (one_shot id method params token))))) as Hs.
  { unfold dispatch_surface, parse_line. rewrite value_of_text. cbn [ok_or]. by rewrite Hv, Hd. }
  assert (decode_request_text (one_shot id method params token) = None) as Ht by (unfold decode_request_text; rewrite Hd; by destruct (repeats _)).
  unfold parse_line at 1. rewrite value_of_text. cbn [ok_or]. rewrite Ht. rewrite Hs.
  destruct expected; unfold answer_of; rewrite value_of_text; by eexists.
Qed.

(** ** Subscriptions *)

(** The JSON of an acknowledgement carries the number of the subscription. *)
Hypothesis ack_law : ∀ a, value_get "subscription_id" (reply_json (RAck a)) ≫= JsonValue.as_u64 = Some (ack_subscription_id a).

Lemma u64_dec n : 0 ≤ n ≤ u64_max → dec u64_codec (n64 n) = Some n.
Proof. intros Hn. apply (codec_law u64_codec n). exact Hn. Qed.
Lemma subscribe_decodes surface from_seq chunk capacity :
  0 ≤ chunk ≤ u64_max → 0 ≤ capacity ≤ u64_max → from_option (λ n, 0 ≤ n ≤ u64_max) True from_seq →
  decode_subscribe (Obj (subscribe_params surface from_seq chunk capacity)) =
  Some (SurfaceEvents.mkRequest surface from_seq (Z.to_N chunk) (Z.to_N capacity)).
Proof.
  intros Hch Hca Hfr. unfold decode_subscribe, dflt.
  assert (object_field (Obj (subscribe_params surface from_seq chunk capacity)) "surface_id" = Str <$> surface) as -> by (by destruct surface, from_seq).
  assert (object_field (Obj (subscribe_params surface from_seq chunk capacity)) "from_seq" = n64 <$> from_seq) as -> by (by destruct surface, from_seq).
  assert (object_field (Obj (subscribe_params surface from_seq chunk capacity)) "max_chunk_bytes" = Some (n64 chunk)) as -> by (by destruct surface, from_seq).
  assert (object_field (Obj (subscribe_params surface from_seq chunk capacity)) "queue_capacity" = Some (n64 capacity)) as -> by (by destruct surface, from_seq).
  assert (match Str <$> surface with Some v => dec (opt_codec str_codec) v | None => Some None end = Some surface) as -> by (by destruct surface).
  assert (match n64 <$> from_seq with Some v => dec (opt_codec u64_codec) v | None => Some None end = Some from_seq) as ->.
  { destruct from_seq as [n|]; [|done]. apply (codec_law (opt_codec u64_codec) (Some n)). by split. }
  cbn [mbind option_bind]. rewrite (u64_dec chunk Hch). cbn [mbind option_bind]. by rewrite (u64_dec capacity Hca).
Qed.
Lemma subscribe_tree id surface from_seq chunk capacity token :
  let v := enveloped id "surface.io.subscribe" (subscribe_params surface from_seq chunk capacity) token in
  as_value v = v ∧ repeats v = false ∧ value_get "params" v = Some (Obj (subscribe_params surface from_seq chunk capacity)) ∧
  decode_request v = Some (mkSurfaceRequest "2.0" (Some (n64 id)) "surface.io.subscribe" token).
Proof. destruct surface, from_seq, token; by split_and!. Qed.

(** A subscription within the bounds the client checks is accepted by the server's hub, with the
    token it expects: the client gets the number the hub gave, and the hub holds the subscription with
    the surface, start, chunk size and capacity asked for. *)
Theorem subscribe_surface_accepted expected id surface from_seq chunk capacity token s h :
  in_range (Z.of_N MAX_EVENT_CHUNK_BYTES) chunk = true → in_range (Z.of_N MAX_EVENT_QUEUE_CAPACITY) capacity = true →
  from_option (λ n, 0 ≤ n ≤ u64_max) True from_seq → hub s = Some h → (∀ t, expected = Some t → token = Some t) →
  ∃ ack h', subscribe (SurfaceEvents.mkRequest surface from_seq (Z.to_N chunk) (Z.to_N capacity)) h = (h', Ok ack) ∧
    subscribe_surface true expected id surface from_seq chunk capacity token s = (mkRpc (calls s) (Some h'), Ok (ack_subscription_id ack)).
Proof.
  intros Hch Hca Hfr Hh Htok. unfold subscribe_surface. rewrite Hch, Hca. cbn [negb].
  assert (Hb := Hch). assert (Hq := Hca). unfold in_range, MAX_EVENT_CHUNK_BYTES, MAX_EVENT_QUEUE_CAPACITY in Hb, Hq. bool_prop.
  destruct (subscribe _ h) as [h' r] eqn:Hsub.
  assert (∃ ack, r = Ok ack) as [ack ->].
  { unfold subscribe in Hsub. cbn [rq_max_chunk_bytes rq_queue_capacity] in Hsub. unfold MAX_EVENT_CHUNK_BYTES, MAX_EVENT_QUEUE_CAPACITY in Hsub.
    rewrite (proj2 (N.eqb_neq (Z.to_N chunk) 0)), (proj2 (N.ltb_ge _ (Z.to_N chunk))), (proj2 (N.eqb_neq (Z.to_N capacity) 0)), (proj2 (N.ltb_ge _ (Z.to_N capacity))) in Hsub by lia.
    injection Hsub as _ <-. by eexists. }
  exists ack, h'. split; [done|].
  destruct (subscribe_tree id surface from_seq chunk capacity token) as (Hv & Hr & Hp & Hd).
  set (v := enveloped id _ _ _) in *.
  assert (dispatch_surface parse_line de_layout explain (text_of v) s = (mkRpc (calls s) (Some h'), mkResponse (n64 id) (Ok (RAck ack)))) as Hs.
  { unfold dispatch_surface, parse_line. rewrite value_of_text. cbn [ok_or]. rewrite Hv, Hp, Hd. cbn [sq_id sq_jsonrpc sq_method default]. rewrite bool_decide_true by done. cbn [negb].
    unfold Datatypes.id. change (dispatch_method de_layout explain "surface.io.subscribe" (Obj (subscribe_params surface from_seq chunk capacity)) s)
      with ((need_hub ;;; q <- decode_params explain decode_subscribe (Obj (subscribe_params surface from_seq chunk capacity)) ;; a <- on_hub (subscribe q) ;; st_ret (RAck a)) s).
    unfold need_hub, decode_params, on_hub, st_bind, st_lift. rewrite Hh. cbn -[decode_subscribe subscribe_params subscribe].
    rewrite subscribe_decodes by (unfold u64_max; lia || done). cbn -[subscribe]. rewrite Hh, Hsub. done. }
  assert (serve expected (text_of v) s = (mkRpc (calls s) (Some h'), mkResponse (n64 id) (Ok (RAck ack)))) as Hsv.
  { unfold serve, dispatch_with_token. destruct expected as [t|]; [|done]. unfold parse_line at 1. rewrite value_of_text. cbn [ok_or].
    unfold decode_request_text. rewrite Hr, Hv, Hd. cbn [sq_token]. by rewrite bool_decide_true by auto. }
  rewrite Hsv. assert (answer_of "Ghostty subscribe" (text_of (response_value (mkResponse (n64 id) (Ok (RAck ack))))) = Ok (reply_json (RAck ack))) as ->
    by (unfold answer_of; by rewrite value_of_text).
  cbn [result_bind]. by rewrite ack_law.
Qed.

(** ** Events *)

(** What the server writes on the connection: an event, or an answer that is not an error. *)
Definition event_value (p : Value) : Value := Obj [("jsonrpc", Str "2.0"); ("method", Str "surface.io.event"); ("params", p)].
Inductive Written : Type := WEvent (p : Value) | WAnswer (id : Z) (r : Reply).
Definition written_value (w : Written) : Value :=
  match w with WEvent p => event_value p | WAnswer id r => response_value (mkResponse (n64 id) (Ok r)) end.
Definition written_text (w : Written) : string := text_of (written_value w).
Lemma value_of_written w : value_of (written_text w) = Some (written_value w).
Proof. apply value_of_text. Qed.
Definition event_params (w : Written) : option Value := match w with WEvent p => Some p | WAnswer _ _ => None end.
(** [next_event] again and again, until it fails. *)
Fixpoint all_events (fuel : nat) (lines : list string) : list Value * string :=
  match fuel with
  | O => ([], "fuel")
  | S n =>
      match next_event lines with
      | Ok (v, rest) => let '(vs, e) := all_events n rest in (v :: vs, e)
      | Err e => ([], e)
      end
  end.

Lemma next_event_written ws : match next_event (written_text <$> ws) with
  | Ok (v, rest) => ∃ skipped ws', ws = skipped ++ WEvent v :: ws' ∧ omap event_params skipped = [] ∧ rest = written_text <$> ws'
  | Err e => omap event_params ws = [] ∧ e = "Ghostty live surface subscription closed"
  end.
Proof.
  induction ws as [|w ws IH]; [done|]. rewrite fmap_cons. cbn [next_event]. rewrite value_of_written. cbn [ok_or result_bind]. destruct w as [p|id r].
  - rewrite bool_decide_true by done. exists [], ws. done.
  - rewrite bool_decide_false by done. change (value_get "error" (written_value (WAnswer id r))) with (@None Value). cbn iota.
    destruct (next_event (written_text <$> ws)) as [[v rest]|e].
    + destruct IH as (sk & ws' & -> & Hs & ->). exists (WAnswer id r :: sk), ws'. by cbn.
    + by cbn.
Qed.
(** A reader of a subscription gets every event the server writes, once and in order, whatever
    answers come in between, and then the end of the stream. *)
Theorem events_arrive_in_order ws :
  all_events (S (length ws)) (written_text <$> ws) = (omap event_params ws, "Ghostty live surface subscription closed").
Proof.
  remember (S (length ws)) as n eqn:Hn. assert (length ws < n)%nat as Hlt by lia. clear Hn. revert ws Hlt.
  induction n as [|n IH]; intros ws Hlt; [lia|]. cbn [all_events]. pose proof (next_event_written ws) as Hne.
  destruct (next_event (written_text <$> ws)) as [[v rest]|e].
  - destruct Hne as (sk & ws' & -> & Hs & ->). rewrite length_app in Hlt. cbn in Hlt. rewrite IH by lia. by rewrite omap_app, Hs.
  - by destruct Hne as [-> ->].
Qed.
(** An event that waits is taken for the answer to [unsubscribe], whatever the answer is. *)
Lemma unsubscribe_takes_event p lines : unsubscribe_answer (written_text (WEvent p) :: lines) = Ok tt.
Proof. unfold unsubscribe_answer. cbn [head mbind option_bind]. by rewrite value_of_written. Qed.
End client.

Module DemoSurfaceClient.
Import DemoText.
#[local] Instance idle_control : SurfaceControl := {
  ctl_list _ := Ok []; ctl_send _ _ _ := Ok tt; ctl_read _ _ _ := Ok []; ctl_resize _ _ _ _ := Ok tt;
  ctl_capabilities _ _ := Err "none"; ctl_snapshot_layout _ := Err "none"; ctl_restore_layout _ _ := Err "none" }.
Definition reply_json (r : Reply) : Value :=
  match r with RAck a => Obj [("subscription_id", n64 (ack_subscription_id a))] | _ => Null end.
Lemma subscribe_surface_accepted_witness : ∃ ack h',
  subscribe (SurfaceEvents.mkRequest (Some "s") None 100 10) hub_new = (h', Ok ack) ∧
  subscribe_surface (λ _, None) (λ _, "bad") reply_json true (Some "t") 1 (Some "s") None 100 10 (Some "t") (mkRpc [] (Some hub_new)) =
  (mkRpc [] (Some h'), Ok (ack_subscription_id ack)).
Proof.
  apply (subscribe_surface_accepted (λ _, None) (λ _, "bad") reply_json ltac:(done) (Some "t") 1 (Some "s") None 100 10 (Some "t") (mkRpc [] (Some hub_new)) hub_new); [done|done|done|done|].
  by intros t [= ->].
Defined.
Lemma one_shot_refused_witness : ∃ why,
  request (λ _, None) (λ _, "bad") reply_json true (Some "t") 1 "surface.list" (surface_ask_params AskList) (Some "t") (mkRpc [] None) = (mkRpc [] None, Err why).
Proof. apply (one_shot_refused (λ _, None) (λ _, "bad") reply_json true (Some "t") 1 "surface.list" (surface_ask_params AskList) (Some "t")). Defined.
Lemma events_arrive_in_order_witness :
  all_events 4 (written_text reply_json <$> [WEvent (n64 1); WAnswer 2 RNull; WEvent (n64 3)]) = ([n64 1; n64 3], "Ghostty live surface subscription closed").
Proof. apply (events_arrive_in_order reply_json [WEvent (n64 1); WAnswer 2 RNull; WEvent (n64 3)]). Defined.
End DemoSurfaceClient.
