(* ===== verification/FuseBackend.v ===== *)
(** Mounting choices of the FUSE crate (sharecli-fuse/src/{backend,mount_smoke}.rs) and of its smoke
    runner (fuse-smoke-runner/src/matrix.rs): which macFUSE backend a mount gets, the session that
    mounts and waits for its seed file, the check of the provenance, and the matrix of cells.  The
    platform, the environment, the probes and what the mount shows are arguments. *)
From S2P Require Import Prelude FuseStores.

(** * Backend selection *)

Inductive FuseBackend : Type := Fskit | Kernel | Unavailable.
#[global] Instance fuse_backend_eq_dec : EqDecision FuseBackend.
Proof. solve_decision. Defined.
Definition backend_str (b : FuseBackend) : string :=
  match b with Kernel => "kext" | Fskit => "fskit" | Unavailable => "non-fuse" end.
Record FuseCapabilities : Type := mkCaps { kernel_loaded : bool; fskit_approved : bool }.
Inductive FuseBackendDiagnostic : Type := NoVerifiedBackend | FskitRequiresVolumes.
Record FuseBackendSelection : Type := mkSelection { backend : FuseBackend; diagnostic : option FuseBackendDiagnostic }.
Record FuseRuntimeEvidence : Type := mkEvidence {
  ev_platform : string; ev_mountpoint : path; ev_kernel : bool; ev_framework : bool; ev_approved : bool;
  ev_selection : FuseBackendSelection; non_fuse_fallback : bool }.

(** The host: its platform, two variables, the output of [kmutil] if it ran, and the framework. *)
Record Host : Type := mkHost {
  os : string; var_backend : option string; var_approved : option string; kmutil : option string; framework_dir : bool }.
Definition is_macos (h : Host) : bool := bool_decide (os h = "macos").
Definition kernel_backend_loaded (h : Host) : bool := from_option (λ out, contains "macfuse" (to_ascii_lowercase out)) false (kmutil h).
Definition fskit_framework_available (h : Host) : bool := is_macos h && framework_dir h.
Definition fskit_approval_requested (h : Host) : bool :=
  is_macos h && from_option (λ v, bool_decide (to_ascii_lowercase (trim v) ∈ ["1"; "true"; "yes"])) false (var_approved h).
Definition fskit_backend_approved (h : Host) : bool := fskit_framework_available h && fskit_approval_requested h.

Definition select_backend (h : Host) : FuseBackend :=
  match var_backend h with
  | Some v =>
      let w := to_ascii_lowercase v in
      if bool_decide (w = "fskit") then Fskit else if bool_decide (w = "kernel") && kernel_backend_loaded h then Kernel else Unavailable
  | None =>
      if is_macos h then if kernel_backend_loaded h then Kernel else Fskit
      else if kernel_backend_loaded h then Kernel else Unavailable
  end.
Definition select_backend_with (c : FuseCapabilities) : FuseBackend :=
  if kernel_loaded c then Kernel else if fskit_approved c then Fskit else Unavailable.
(** [starts_with("/Volumes")] compares components. *)
Definition under_volumes (p : path) : bool := bool_decide (take 2 p = [RootDir; Normal "Volumes"]).
Definition select_backend_for_mount_with (c : FuseCapabilities) (mountpoint : path) : FuseBackendSelection :=
  match select_backend_with c with
  | Kernel => mkSelection Kernel None
  | Fskit => if under_volumes mountpoint then mkSelection Fskit None else mkSelection Unavailable (Some FskitRequiresVolumes)
  | Unavailable => mkSelection Unavailable (Some NoVerifiedBackend)
  end.
Definition select_backend_for_mount (h : Host) (mountpoint : path) : FuseBackendSelection :=
  if is_macos h then select_backend_for_mount_with (mkCaps (kernel_backend_loaded h) (fskit_backend_approved h)) mountpoint
  else mkSelection (select_backend h) None.
Definition probe_runtime (h : Host) (mountpoint : path) : FuseRuntimeEvidence :=
  let k := kernel_backend_loaded h in
  let f := fskit_framework_available h in
  let a := f && fskit_approval_requested h in
  mkEvidence (os h) mountpoint k f a (select_backend_for_mount_with (mkCaps k a) mountpoint) true.

(** On macOS a mount gets the kernel extension exactly when it is loaded, FSKit only when it was
    approved, the framework is there and the mount point is under /Volumes, and no backend exactly
    when a diagnostic says why; the operator's probe reports the same choice. *)
Theorem mount_backend_verified h mountpoint : os h = "macos" →
  let s := select_backend_for_mount h mountpoint in
  (backend s = Kernel ↔ kernel_backend_loaded h = true) ∧
  (backend s = Fskit ↔ kernel_backend_loaded h = false ∧ fskit_backend_approved h = true ∧ under_volumes mountpoint = true) ∧
  (backend s = Unavailable ↔ is_Some (diagnostic s)) ∧
  (diagnostic s = Some FskitRequiresVolumes ↔ kernel_backend_loaded h = false ∧ fskit_backend_approved h = true ∧ under_volumes mountpoint = false) ∧
  ev_selection (probe_runtime h mountpoint) = s.
Proof.
  intros Hos s. subst s. unfold select_backend_for_mount, is_macos. rewrite bool_decide_true by done.
  unfold probe_runtime, fskit_backend_approved, select_backend_for_mount_with, select_backend_with. cbn [kernel_loaded fskit_approved ev_selection].
  destruct (kernel_backend_loaded h), (fskit_framework_available h && fskit_approval_requested h), (under_volumes mountpoint); cbn [backend diagnostic];
    split_and!; try reflexivity; split; intros; destruct_and?; try done; by eexists.
Qed.
Definition mac (approved : option string) (kext : option string) : Host := mkHost "macos" None approved kext true.
Lemma mount_backend_verified_witness :
  let s := select_backend_for_mount (mac (Some " Yes ") None) [RootDir; Normal "Volumes"; Normal "x"] in
  backend s = Fskit ∧ ev_selection (probe_runtime (mac (Some " Yes ") None) [RootDir; Normal "Volumes"; Normal "x"]) = s.
Proof.
  destruct (mount_backend_verified (mac (Some " Yes ") None) [RootDir; Normal "Volumes"; Normal "x"] eq_refl) as (_ & Hf & _ & _ & Hp).
  split; [|exact Hp]. apply Hf. by vm_compute.
Defined.

(** Without a mount point the choice is not verified: FSKit is taken on macOS without approval, and
    on any platform when it is asked for. *)
Example fskit_unapproved : select_backend (mac None None) = Fskit ∧ backend (select_backend_for_mount (mac None None) [RootDir; Normal "Volumes"]) = Unavailable.
Proof. by vm_compute. Qed.
Example fskit_forced_anywhere : select_backend (mkHost "linux" (Some "FSKit") None None false) = Fskit.
Proof. by vm_compute. Qed.
(** Off macOS a missing backend has no diagnostic. *)
Example unavailable_unexplained : select_backend_for_mount (mkHost "linux" None None None false) [RootDir] = mkSelection Unavailable None.
Proof. by vm_compute. Qed.

(** [parse_bundle_version]: the first line with text after the one that names the key. *)
Fixpoint trim_start_matches (fuel : nat) (p s : string) : string :=
  match fuel with O => s | S n => match strip_prefix p s with Some t => trim_start_matches n p t | None => s end end.
Fixpoint trim_end_matches (fuel : nat) (p s : string) : string :=
  match fuel with O => s | S n => match strip_suffix p s with Some t => trim_end_matches n p t | None => s end end.
Definition bundle_value (value : string) : option string :=
  let v := trim value in
  let t := trim_start_matches (String.length v) "<string>" v in
  let u := trim_end_matches (String.length t) "</string>" t in
  if str_is_empty u then None else Some u.
Fixpoint bundle_version (lines : list string) : option string :=
  match lines with
  | [] => None
  | line :: rest =>
      if contains "CFBundleShortVersionString" line
      then find (λ v, negb (str_is_empty (trim v))) rest ≫= bundle_value
      else bundle_version rest
  end.
Definition parse_bundle_version (contents : string) : option string := bundle_version (str_lines contents).
Example bundle_example :
  parse_bundle_version (line_block ["<key>CFBundleShortVersionString</key>"; "  <string>4.8.0</string>"]) = Some "4.8.0".
Proof. by vm_compute. Qed.

(** * The mount session *)

Definition fuse_mount_smoke_enabled (var : option string) : bool :=
  from_option (λ v, bool_decide (v = "1") || bool_decide (to_ascii_lowercase v = "true")) false var.
(** [force_unmount] on Linux: the first of the two helpers that succeeds; [None] is one that cannot be run. *)
Definition force_unmount (helper : string → option bool) : result unit string :=
  if existsb (λ b, bool_decide (helper b = Some true)) ["fusermount3"; "fusermount"] then Ok tt else Err "force_unmount failed".

Inductive StartError : Type := MountFailed (why : string) | TimedOut | NoFuel.
Section start.
(** At the [k]-th look: whether the seed file can be read, and whether the mounting thread has failed. *)
Context (visible : nat → bool) (failed : nat → option string).
(** The loop of [start]: the clock in milliseconds; whether an unmount was tried. *)
Fixpoint start_loop (fuel k : nat) (waited : Z) : result nat StartError * bool :=
  match fuel with
  | O => (Err NoFuel, false)
  | S n =>
      if waited <? 8000 then
        if visible k then (Ok k, false)
        else match failed k with
             | Some why => (Err (MountFailed why), false)
             | None => start_loop n (S k) (waited + 100)
             end
      else (Err TimedOut, true)
  end.
Definition start : result nat StartError * bool := start_loop 81 0 0.

(** The first look that settles the matter. *)
Definition settled (k : nat) : bool := visible k || bool_decide (is_Some (failed k)).
Lemma start_loop_spec fuel k : (k ≤ 80)%nat → fuel = (81 - k)%nat →
  match start_loop fuel k (100 * Z.of_nat k) with
  | (Ok j, u) => (k ≤ j < 80)%nat ∧ visible j = true ∧ u = false ∧ ∀ i, (k ≤ i < j)%nat → settled i = false
  | (Err (MountFailed why), u) => ∃ j, (k ≤ j < 80)%nat ∧ visible j = false ∧ failed j = Some why ∧ u = false ∧ ∀ i, (k ≤ i < j)%nat → settled i = false
  | (Err TimedOut, u) => u = true ∧ ∀ i, (k ≤ i < 80)%nat → settled i = false
  | (Err NoFuel, _) => False
  end.
Proof.
  revert k. induction fuel as [|n IH]; intros k Hk Hf; [lia|]. cbn [start_loop].
  destruct (Z.ltb_spec (100 * Z.of_nat k) 8000) as [Hlt|Hge]; [|split; [done|]; intros; lia].
  destruct (visible k) eqn:Hv; [split_and!; try done; try lia; intros; lia|].
  destruct (failed k) as [why|] eqn:Hw; [exists k; split_and!; try done; try lia; intros; lia|].
  assert (settled k = false) as Hs by (unfold settled; by rewrite Hv, Hw).
  replace (100 * Z.of_nat k + 100) with (100 * Z.of_nat (S k)) by lia. specialize (IH (S k) ltac:(lia) ltac:(lia)).
  assert (∀ b, (∀ i, (S k ≤ i < b)%nat → settled i = false) → ∀ i, (k ≤ i < b)%nat → settled i = false) as Hext.
  { intros b Hb i Hi. destruct (decide (i = k)) as [->|]; [done|]. apply Hb. lia. }
  destruct (start_loop n (S k) (100 * Z.of_nat (S k))) as [[j|[why| |]] u].
  - destruct IH as (? & ? & ? & ?). split_and!; [lia..|done|done|by apply Hext].
  - destruct IH as (j & ? & ? & ? & ? & ?). exists j. split_and!; [lia..|done|done|done|by apply Hext].
  - destruct IH as (? & ?). split; [done|by apply Hext].
  - done.
Qed.
(** A mount session decides within eighty looks a tenth of a second apart: it starts at the first
    look that shows the seed file, fails at the first that shows a failed mount instead, and otherwise
    times out after eight seconds, when it has tried to unmount. *)
Theorem mount_session_decides :
  match start with
  | (Ok j, u) => (j < 80)%nat ∧ visible j = true ∧ u = false ∧ ∀ i, (i < j)%nat → settled i = false
  | (Err (MountFailed why), u) => ∃ j, (j < 80)%nat ∧ visible j = false ∧ failed j = Some why ∧ u = false ∧ ∀ i, (i < j)%nat → settled i = false
  | (Err TimedOut, u) => u = true ∧ ∀ i, (i < 80)%nat → settled i = false
  | (Err NoFuel, _) => False
  end.
Proof.
  pose proof (start_loop_spec 81 0 ltac:(lia) ltac:(lia)) as Hs. change (100 * Z.of_nat 0) with 0 in Hs. fold start in Hs.
  destruct start as [[j|[why| |]] u]; [destruct Hs as (? & ? & ? & Hi)|destruct Hs as (j & ? & ? & ? & ? & Hi); exists j|destruct Hs as (? & Hi)|done];
    split_and!; try done; try lia; intros i ?; apply Hi; lia.
Qed.
End start.

(** [verify_mount_smoke_provenance] after the read of the attributes. *)
Definition verify_provenance (now : Z) (expected : string) (p : option (string * Z)) : result unit string :=
  match p with
  | None => Err "missing xattrs"
  | Some (session, at_) =>
      if negb (bool_decide (session = expected)) then Err "session_id mismatch"
      else if negb (at_ <=? saturating_add u64_max now 5) then Err "written_at is in the future"
      else if negb (saturating_sub now at_ <=? 60) then Err "written_at is stale"
      else Ok tt
  end.
Lemma verify_provenance_ok now expected p : 0 ≤ now → now + 5 ≤ u64_max →
  is_ok (verify_provenance now expected p) = true ↔ ∃ at_, p = Some (expected, at_) ∧ now - 60 ≤ at_ ≤ now + 5.
Proof.
  intros Hn Hm. unfold verify_provenance, saturating_add, saturating_sub. rewrite Z.min_r by lia. destruct p as [[session at_]|]; [|split; [done|by intros (? & ? & ?)]].
  destruct (decide (session = expected)) as [->|Hne]; cycle 1.
  { rewrite bool_decide_false by done. split; [done|]. intros (? & [= -> _] & _). done. }
  rewrite bool_decide_true by done. cbn [negb]. destruct (Z.leb_spec at_ (now + 5)), (Z.leb_spec (Z.max 0 (now - at_)) 60); cbn;
    (split; [intros Hv; first [done|eexists; split; [done|lia]]|intros (? & [= <-] & ?); first [done|lia]]).
Qed.

(** * The smoke matrix *)

Inductive FailReason : Type := DriverMissing | WinfspMissing | NoFuseDevice | UnsupportedArch | ToolingMissing | HostOsMismatch | SmokeFailed.
Inductive CellId : Type := LinuxNative | LinuxContainer | MacHostLinuxColima | MacosNative | MacosVmTart | Wsl2 | WindowsWinfsp.
Definition reason_str (r : FailReason) : string :=
  match r with
  | DriverMissing => "driver_missing" | WinfspMissing => "winfsp_missing" | NoFuseDevice => "no_fuse_device" | UnsupportedArch => "unsupported_arch"
  | ToolingMissing => "tooling_missing" | HostOsMismatch => "host_os_mismatch" | SmokeFailed => "smoke_failed"
  end.
Definition cell_str (c : CellId) : string :=
  match c with
  | LinuxNative => "linux_native" | LinuxContainer => "linux_container" | MacHostLinuxColima => "mac_host_linux_colima" | MacosNative => "macos_native"
  | MacosVmTart => "macos_vm_tart" | Wsl2 => "wsl2" | WindowsWinfsp => "windows_winfsp"
  end.
Definition ALL : list CellId := [LinuxNative; LinuxContainer; MacHostLinuxColima; MacosNative; MacosVmTart; Wsl2; WindowsWinfsp].
Definition REASONS : list FailReason := [DriverMissing; WinfspMissing; NoFuseDevice; UnsupportedArch; ToolingMissing; HostOsMismatch; SmokeFailed].
Definition reason_of (s : string) : result FailReason string :=
  ok_or ("unknown fail reason: " +:+ s) (find (λ r, bool_decide (reason_str r = s)) REASONS).
Definition cell_of (s : string) : result CellId string :=
  ok_or (if bool_decide (s = "all") then "use --all instead of --cell all"
         else "unknown cell `" +:+ s +:+ "`; expected one of: " +:+ join_with ", " (cell_str <$> ALL))
    (find (λ c, bool_decide (cell_str c = s)) ALL).
(** The names of cells and reasons are read back, and no other text is one. *)
Lemma cell_roundtrip s c : cell_of s = Ok c ↔ s = cell_str c.
Proof.
  split; [|intros ->; by destruct c]. unfold cell_of, ok_or. destruct (find _ ALL) as [d|] eqn:E; [|by case_bool_decide]. intros [= <-].
  apply find_some in E as [_ E]. by apply bool_decide_eq_true in E.
Qed.
Lemma reason_roundtrip s r : reason_of s = Ok r ↔ s = reason_str r.
Proof.
  split; [|intros ->; by destruct r]. unfold reason_of, ok_or. destruct (find _ REASONS) as [d|] eqn:E; [|done]. intros [= <-].
  apply find_some in E as [_ E]. by apply bool_decide_eq_true in E.
Qed.

Record CellResult : Type := mkCell { cr_cell : CellId; cr_ok : bool; cr_reason : option FailReason; cr_detail : string }.
Record MatrixReport : Type := mkMatrix { mx_cells : list CellResult; mx_ok : bool }.
Definition from_cells (l : list CellResult) : MatrixReport := mkMatrix l (forallb cr_ok l).
Definition default_cells_for_host (os : string) : list CellId :=
  if bool_decide (os = "linux") then [LinuxNative; LinuxContainer]
  else if bool_decide (os = "macos") then [MacHostLinuxColima; LinuxContainer; MacosNative; MacosVmTart]
  else if bool_decide (os = "windows") then [WindowsWinfsp; Wsl2] else [].
(** On any other platform no cell is run and the report is a success. *)
Example no_cells_pass os : default_cells_for_host os = [] → mx_ok (from_cells []) = true.
Proof. done. Qed.

(** [find_repo_root]: up from the start; [has] says that a directory holds the two files. *)
Fixpoint root_above (has : path → bool) (rev : path) : option path :=
  if has (reverse rev) then Some (reverse rev)
  else match rev with
       | [] | RootDir :: _ => None
       | _ :: rest => root_above has rest
       end.
Definition find_repo_root (has : path → bool) (start : path) : option path := root_above has (reverse start).
Lemma prefix_snoc_inv (q p : path) c : q `prefix_of` p ++ [c] → q = p ++ [c] ∨ q `prefix_of` p.
Proof.
  intros [k Hk]. destruct k as [|x k _] using rev_ind; [left; by rewrite app_nil_r in Hk|].
  right. rewrite app_assoc in Hk. apply app_inj_tail in Hk as [-> _]. by exists k.
Qed.
Lemma root_above_nearest has l r : root_above has l = Some r →
  has r = true ∧ r `prefix_of` reverse l ∧ ∀ q, r `prefix_of` q → q `prefix_of` reverse l → q ≠ r → has q = false.
Proof.
  induction l as [|c l IH]; cbn [root_above].
  - destruct (has (reverse [])) eqn:Hh; [|done]. intros [= <-]. split_and!; [done|done|]. intros q _ Hq Hne. by apply prefix_nil_inv in Hq.
  - destruct (has (reverse (c :: l))) eqn:Hh.
    + intros [= <-]. split_and!; [done|done|]. intros q H1 H2 Hne. by destruct Hne; apply (anti_symm prefix).
    + intros Hr. assert (root_above has l = Some r) as Hr' by (by destruct c). destruct (IH Hr') as (Hy & Hp & Hq).
      rewrite reverse_cons in Hh |- *. split_and!; [done|by apply prefix_app_r|]. intros q H1 H2 Hne.
      apply prefix_snoc_inv in H2 as [->|H2]; [done|by apply Hq].
Qed.
(** The root found holds the files, is the start or above it, and nothing between holds them. *)
Lemma repo_root_nearest has start r : find_repo_root has start = Some r →
  has r = true ∧ r `prefix_of` start ∧ ∀ q, r `prefix_of` q → q `prefix_of` start → q ≠ r → has q = false.
Proof. intros Hr. apply root_above_nearest in Hr. by rewrite reverse_involutive in Hr. Qed.
