(* ===== verification/TrayClient.v ===== *)
(** The daemon's socket and its tray client: the operator snapshots of sharecli-ipc/src/handler.rs as
    JSON, the connection loop of sharecli-ipc/src/main.rs with its check of the peer, and the client,
    the state and the gate visuals of sharecli-tray-linux, put together with [IpcHandler].  The texts
    of JSON values, the samplers and the failures of the socket are parameters. *)
From S2P Require Import Prelude FleetGate RuntimePool FleetReport JsonValue Config LogBuffer Sessions SessionLedger IpcHandler.

(** * Codecs of the wire types *)

(** A floating-point number is kept as the number of the text. *)
Definition number_dec (v : Value) : option Number := match v with Num n => Some n | _ => None end.
Lemma number_codec_law (n : Number) : True → number_dec (Num n) = Some n.
Proof. done. Qed.
Definition number_codec : Codec Number := mkCodec _ Num number_dec (λ _, True) number_codec_law.

(** One field of a struct that is there. *)
Ltac in_width := first [done|by apply Forall_true|split; [lia|done]].
Ltac field_step :=
  match goal with
  | |- context [req ?c ?g ?k] =>
      let H := fresh in eassert (req c g k = Some _) as H by (apply req_found; [reflexivity|in_width]);
      rewrite H; clear H; cbn [mbind option_bind]
  end.

(** ** The gate *)

Definition gate_value (g : GateStatusSnapshot) : Value :=
  Obj [("thermal_pressure", Str (thermal_pressure g)); ("detected_agents", enc u64_codec (detected_agents g));
       ("agent_total_rss_bytes", enc u64_codec (agent_total_rss_bytes g)); ("agent_contention", Str (agent_contention g));
       ("gate_decision", Str (gate_decision g))].
Definition gate_dec (v : Value) : option GateStatusSnapshot :=
  g ← struct_fields ["thermal_pressure"; "detected_agents"; "agent_total_rss_bytes"; "agent_contention"; "gate_decision"] v;
  t ← req str_codec g "thermal_pressure"; n ← req u64_codec g "detected_agents"; r ← req u64_codec g "agent_total_rss_bytes";
  c ← req str_codec g "agent_contention"; d ← req str_codec g "gate_decision"; Some (mkGateStatus t n r c d).
Definition gate_ok (g : GateStatusSnapshot) : Prop := 0 ≤ detected_agents g ≤ u64_max ∧ 0 ≤ agent_total_rss_bytes g ≤ u64_max.
Lemma gate_law g : gate_ok g → gate_dec (gate_value g) = Some g.
Proof. intros [H1 H2]. unfold gate_dec. cbn [struct_fields gate_value mbind option_bind]. repeat field_step. by destruct g. Qed.
Definition gate_codec : Codec GateStatusSnapshot := mkCodec _ gate_value gate_dec gate_ok gate_law.

(** ** The host *)

Record HostWatch : Type := mkWatch { w_fd : Z; w_rx : Z; w_tx : Z; w_rss : Z; w_load : Number }.
Definition watch_value (h : HostWatch) : Value :=
  Obj [("fd_count", enc u64_codec (w_fd h)); ("net_rx_bytes", enc u64_codec (w_rx h)); ("net_tx_bytes", enc u64_codec (w_tx h));
       ("mem_rss_bytes", enc u64_codec (w_rss h)); ("load_1m", Num (w_load h))].
Definition watch_dec (v : Value) : option HostWatch :=
  g ← struct_fields ["fd_count"; "net_rx_bytes"; "net_tx_bytes"; "mem_rss_bytes"; "load_1m"] v;
  fd ← req u64_codec g "fd_count"; rx ← req u64_codec g "net_rx_bytes"; tx ← req u64_codec g "net_tx_bytes";
  rss ← req u64_codec g "mem_rss_bytes"; l ← req number_codec g "load_1m"; Some (mkWatch fd rx tx rss l).
Definition watch_ok (h : HostWatch) : Prop := Forall (λ n, 0 ≤ n ≤ u64_max) [w_fd h; w_rx h; w_tx h; w_rss h].
Lemma watch_law h : watch_ok h → watch_dec (watch_value h) = Some h.
Proof.
  intros H. unfold watch_ok in H. rewrite !Forall_cons in H. destruct H as (? & ? & ? & ? & _).
  unfold watch_dec. cbn [struct_fields watch_value mbind option_bind]. repeat field_step. by destruct h.
Qed.
Definition watch_codec : Codec HostWatch := mkCodec _ watch_value watch_dec watch_ok watch_law.

(** ** Rows of agents *)

Definition row_value (a : AgentProcRow) : Value :=
  Obj ([("pid", enc u32_codec (ar_pid a)); ("family", Str (ar_family a)); ("comm", Str (ar_comm a)); ("state", Str (ar_state a));
        ("mem_rss_bytes", enc u64_codec (ar_rss a)); ("mem_rss", Str (ar_rss_text a))]
       ++ match ar_fd a with Some n => [("fd_count", enc u64_codec n)] | None => [] end).
Definition row_dec (v : Value) : option AgentProcRow :=
  g ← struct_fields ["pid"; "family"; "comm"; "state"; "mem_rss_bytes"; "mem_rss"; "fd_count"] v;
  p ← req u32_codec g "pid"; f ← req str_codec g "family"; c ← req str_codec g "comm"; s ← req str_codec g "state";
  r ← req u64_codec g "mem_rss_bytes"; t ← req str_codec g "mem_rss"; fd ← optf u64_codec v g "fd_count";
  Some (mkAgentRow p f c s r t fd).
Definition row_ok (a : AgentProcRow) : Prop :=
  0 ≤ ar_pid a ≤ u32_max ∧ 0 ≤ ar_rss a ≤ u64_max ∧ from_option (λ n, 0 ≤ n ≤ u64_max) True (ar_fd a).
Lemma row_law a : row_ok a → row_dec (row_value a) = Some a.
Proof.
  destruct a as [p f c s r t [fd|]]; intros (H1 & H2 & H3); cbn in H1, H2, H3; unfold row_dec; cbn [struct_fields row_value mbind option_bind app ar_fd];
    repeat field_step; [by rewrite (optf_found u64_codec _ _ _ (Some fd))|done].
Qed.
Definition row_codec : Codec AgentProcRow := mkCodec _ row_value row_dec row_ok row_law.

(** * The snapshots *)

(** As the tray reads them. *)
Record PoolSnapshot : Type := mkPoolSnapshot {
  pl_status : RuntimePool.PoolStatus; pl_healthy : bool; pl_issues : list string; pl_gate : GateStatusSnapshot; pl_host : HostWatch }.
Record StatusSnapshot : Type := mkStatusSnapshot {
  sn_total : Z; sn_agents : list AgentProcRow; sn_scanned : Z; sn_watched : Z; sn_gate : GateStatusSnapshot; sn_host : HostWatch }.
(** As the daemon sends them: each may have the other inside. *)
Inductive SentPool : Type := sent_pool (p : PoolSnapshot) (inside : option SentStatus)
with SentStatus : Type := sent_status (s : StatusSnapshot) (inside : option SentPool).

Definition usize (n : nat) : Value := enc u64_codec (Z.of_nat n).
Definition pool_entries (p : PoolSnapshot) : list (string * Value) :=
  [("node_total", usize (node_total (pl_status p))); ("node_idle", usize (node_idle (pl_status p)));
   ("bun_total", usize (bun_total (pl_status p))); ("bun_idle", usize (bun_idle (pl_status p)));
   ("max_per_type", usize (ps_max (pl_status p))); ("healthy", Bool (pl_healthy p)); ("issues", enc (list_codec str_codec) (pl_issues p));
   ("gate", gate_value (pl_gate p)); ("host_watch", watch_value (pl_host p))].
Definition status_entries (s : StatusSnapshot) : list (string * Value) :=
  [("total_processes", enc u64_codec (sn_total s)); ("agents", enc (list_codec row_codec) (sn_agents s));
   ("scanned", enc u64_codec (sn_scanned s)); ("watched", enc u64_codec (sn_watched s));
   ("gate", gate_value (sn_gate s)); ("host_watch", watch_value (sn_host s))].
Fixpoint pool_value (p : SentPool) : Value :=
  match p with sent_pool p inside => Obj (pool_entries p ++ match inside with Some s => [("status", status_value s)] | None => [] end) end
with status_value (s : SentStatus) : Value :=
  match s with sent_status s inside => Obj (status_entries s ++ match inside with Some p => [("pool", pool_value p)] | None => [] end) end.

Definition pool_dec (v : Value) : option PoolSnapshot :=
  g ← struct_fields ["node_total"; "node_idle"; "bun_total"; "bun_idle"; "max_per_type"; "healthy"; "issues"; "gate"; "host_watch"] v;
  nt ← req u64_codec g "node_total"; ni ← req u64_codec g "node_idle"; bt ← req u64_codec g "bun_total"; bi ← req u64_codec g "bun_idle";
  mx ← req u64_codec g "max_per_type"; ok ← req bool_codec g "healthy"; iss ← req (list_codec str_codec) g "issues";
  gt ← req gate_codec g "gate"; h ← req watch_codec g "host_watch";
  Some (mkPoolSnapshot (mkPoolStatus (Z.to_nat nt) (Z.to_nat ni) (Z.to_nat bt) (Z.to_nat bi) (Z.to_nat mx)) ok iss gt h).
Definition status_dec (v : Value) : option StatusSnapshot :=
  g ← struct_fields ["total_processes"; "agents"; "scanned"; "watched"; "gate"; "host_watch"] v;
  n ← req u64_codec g "total_processes"; l ← req (list_codec row_codec) g "agents"; sc ← req u64_codec g "scanned";
  w ← req u64_codec g "watched"; gt ← req gate_codec g "gate"; h ← req watch_codec g "host_watch";
  Some (mkStatusSnapshot n l sc w gt h).

Definition pool_ok (p : PoolSnapshot) : Prop :=
  Forall (λ n, Z.of_nat n ≤ u64_max) [node_total (pl_status p); node_idle (pl_status p); bun_total (pl_status p); bun_idle (pl_status p); ps_max (pl_status p)]
  ∧ gate_ok (pl_gate p) ∧ watch_ok (pl_host p).
Definition status_ok (s : StatusSnapshot) : Prop :=
  Forall (λ n, 0 ≤ n ≤ u64_max) [sn_total s; sn_scanned s; sn_watched s] ∧ Forall row_ok (sn_agents s) ∧ gate_ok (sn_gate s) ∧ watch_ok (sn_host s).
(** The tray reads what was sent, and does not look inside. *)
Lemma pool_read p inside : pool_ok p → pool_dec (pool_value (sent_pool p inside)) = Some p.
Proof.
  intros (H & Hg & Hw). rewrite !Forall_cons in H. destruct H as (? & ? & ? & ? & ? & _).
  unfold pool_dec. cbn [struct_fields pool_value mbind option_bind]. unfold pool_entries, usize.
  repeat field_step. rewrite !Nat2Z.id. by destruct p as [[]].
Qed.
Lemma status_read s inside : status_ok s → status_dec (status_value (sent_status s inside)) = Some s.
Proof.
  intros (H & Hr & Hg & Hw). rewrite !Forall_cons in H. destruct H as (? & ? & ? & _).
  unfold status_dec. cbn [struct_fields status_value mbind option_bind]. unfold status_entries.
  repeat field_step. by destruct s.
Qed.

(** ** Processes *)

Definition debug_state (s : ProcState) : string :=
  match s with
  | RuntimePool.Idle => "Idle" | Run => "Run" | Sleep => "Sleep" | Stop => "Stop" | Zombie => "Zombie" | Tracing => "Tracing" | Dead => "Dead"
  | RuntimePool.Unknown => "Unknown"
  end.
Definition opt_str (o : option string) : Value := enc (opt_codec str_codec) o.
Definition opt_num (o : option Z) : Value := enc (opt_codec u64_codec) o.
(** The fields the two rows end with. *)
Definition row_tail (p : ProcessInfo) : list (string * Value) :=
  [("start_time", enc u64_codec (pi_start_time p)); ("cpu_percent", Num (Float (pi_cpu_percent p))); ("ppid", opt_num (pi_ppid p));
   ("cwd", opt_str (pi_cwd p)); ("env_count", enc u32_codec (pi_env_count p)); ("fd_count", opt_num (pi_fd_count p));
   ("thread_count", opt_num (pi_thread_count p)); ("disk_read_bytes", opt_num (pi_disk_read p)); ("disk_write_bytes", opt_num (pi_disk_write p));
   ("state", Str (debug_state (pi_state p)))].
Definition summary_value (p : ProcessInfo) : Value :=
  Obj ([("pid", enc u32_codec (pi_pid p)); ("name", Str (pi_name p)); ("cmd", enc (list_codec str_codec) (pi_cmd p));
        ("memory_mb", enc u64_codec (pi_memory_mb p)); ("project", opt_str (pi_project p)); ("harness", opt_str (pi_harness p))] ++ row_tail p).
Definition entry_value (p : ProcessInfo) : Value :=
  Obj ([("pid", enc u32_codec (pi_pid p)); ("name", Str (pi_name p)); ("memory_mb", enc u64_codec (pi_memory_mb p));
        ("project", opt_str (pi_project p)); ("harness", opt_str (pi_harness p))] ++ row_tail p).

Record ProcessSummary : Type := mkProcSummary {
  su_pid : Z; su_name : string; su_cmd : list string; su_memory_mb : Z; su_project : option string; su_harness : option string; su_start_time : Z }.
Record MonitoringProcessEntry : Type := mkEntry {
  me_pid : Z; me_name : string; me_memory_mb : Z; me_project : option string; me_harness : option string }.
Definition summary_dec (v : Value) : option ProcessSummary :=
  g ← struct_fields ["pid"; "name"; "cmd"; "memory_mb"; "project"; "harness"; "start_time"] v;
  p ← req u32_codec g "pid"; n ← req str_codec g "name"; c ← req (list_codec str_codec) g "cmd"; m ← req u64_codec g "memory_mb";
  pr ← optf str_codec v g "project"; h ← optf str_codec v g "harness"; s ← req u64_codec g "start_time";
  Some (mkProcSummary p n c m pr h s).
Definition mon_entry_dec (v : Value) : option MonitoringProcessEntry :=
  g ← struct_fields ["pid"; "name"; "memory_mb"; "project"; "harness"] v;
  p ← req u32_codec g "pid"; n ← req str_codec g "name"; m ← req u64_codec g "memory_mb";
  pr ← optf str_codec v g "project"; h ← optf str_codec v g "harness"; Some (mkEntry p n m pr h).
Definition entry_of (p : ProcessInfo) : MonitoringProcessEntry := mkEntry (pi_pid p) (pi_name p) (pi_memory_mb p) (pi_project p) (pi_harness p).
Definition summary_of (p : ProcessInfo) : ProcessSummary :=
  mkProcSummary (pi_pid p) (pi_name p) (pi_cmd p) (pi_memory_mb p) (pi_project p) (pi_harness p) (pi_start_time p).
Definition info_ok (p : ProcessInfo) : Prop := 0 ≤ pi_pid p ≤ u32_max ∧ 0 ≤ pi_memory_mb p ≤ u64_max ∧ 0 ≤ pi_start_time p ≤ u64_max.

Lemma opt_str_found v g k o : g k = Some (opt_str o) → optf str_codec v g k = Some o.
Proof. intros H. apply optf_found; [done|]. by destruct o. Qed.
Lemma mon_entry_read p : info_ok p → mon_entry_dec (entry_value p) = Some (entry_of p).
Proof.
  intros (? & ? & ?). unfold mon_entry_dec. cbn [struct_fields entry_value app mbind option_bind]. repeat field_step.
  rewrite (opt_str_found _ _ "project" (pi_project p)) by done. cbn [mbind option_bind]. by rewrite (opt_str_found _ _ "harness" (pi_harness p)).
Qed.
Lemma summary_read p : info_ok p → summary_dec (summary_value p) = Some (summary_of p).
Proof.
  intros (? & ? & ?). unfold summary_dec. cbn [struct_fields summary_value app mbind option_bind]. repeat field_step.
  rewrite (opt_str_found _ _ "project" (pi_project p)) by done. cbn [mbind option_bind].
  rewrite (opt_str_found _ _ "harness" (pi_harness p)) by done. cbn [mbind option_bind]. repeat field_step. done.
Qed.
Definition rows_dec {A} (dec1 : Value → option A) (v : Value) : option (list A) := match v with Arr l => mapM dec1 l | _ => None end.
Definition read_as {A} (dec1 : Value → option A) (g : string → option Value) (k : string) : option A := v ← g k; dec1 v.
Lemma read_as_found {A} (dec1 : Value → option A) g k v a : g k = Some v → dec1 v = Some a → read_as dec1 g k = Some a.
Proof. intros H Ha. unfold read_as. by rewrite H. Qed.
Lemma rows_read {A B} (enc1 : A → Value) (dec1 : Value → option B) (f : A → B) (ok : A → Prop) l :
  (∀ a, ok a → dec1 (enc1 a) = Some (f a)) → Forall ok l → rows_dec dec1 (Arr (enc1 <$> l)) = Some (f <$> l).
Proof. intros H Hl. cbn. apply mapM_Some, Forall2_fmap. induction Hl; constructor; auto. Qed.

(** * What the daemon samples *)

Record Scan : Type := mkScan { c_agents : list AgentProcRow; c_scanned : Z; c_watched : Z; c_gate : GateStatusSnapshot; c_host : HostWatch }.
(** The samples of one request: the pool is listed a second time for the status. *)
Record Samples : Type := mkSamples {
  x_now : Z; x_procs : list ProcessInfo; x_used : Z; x_total : Z; x_level : option ThermalLevel; x_agents : Z; x_rss : Z;
  x_host : result HostWatch string; x_pool : RuntimePool.PoolStatus; x_healthy : bool; x_issues : list string;
  x_later : list ProcessInfo; x_scan : result Scan string }.

Definition capture_gate (x : Samples) : GateStatusSnapshot :=
  match x_level x with
  | Some t => gate_status_snapshot_with_rss t (x_agents x) (x_rss x)
  | None => mkGateStatus "UNAVAILABLE" (x_agents x) 0 "UNAVAILABLE" "UNAVAILABLE"
  end.
Definition capture_pool_snapshot (x : Samples) (h : HostWatch) : PoolSnapshot :=
  mkPoolSnapshot (x_pool x) (x_healthy x) (x_issues x) (capture_gate x) h.
Definition capture_status_snapshot (x : Samples) : result StatusSnapshot string :=
  c <-? x_scan x;;
  Ok (mkStatusSnapshot (Z.of_nat (length (x_later x))) (c_agents c) (c_scanned c) (c_watched c) (c_gate c) (c_host c)).
Definition is_healthy (used total : Z) : bool := used <? total / 2.
Definition health_value (x : Samples) (h : HostWatch) (s : StatusSnapshot) : Value :=
  Obj [("managed_processes", usize (length (x_procs x))); ("used_memory_mb", enc u64_codec (x_used x)); ("total_memory_mb", enc u64_codec (x_total x));
       ("healthy", Bool (is_healthy (x_used x) (x_total x))); ("gate", gate_value (capture_gate x)); ("host_watch", watch_value h);
       ("pool", pool_value (sent_pool (capture_pool_snapshot x h) None)); ("status", status_value (sent_status s None))].
Definition report_value (x : Samples) (h : HostWatch) (s : StatusSnapshot) : Value :=
  Obj [("timestamp", enc u64_codec (x_now x)); ("total_processes", usize (length (x_procs x))); ("used_memory_mb", enc u64_codec (x_used x));
       ("total_memory_mb", enc u64_codec (x_total x)); ("processes", Arr (entry_value <$> x_procs x)); ("gate", gate_value (capture_gate x));
       ("host_watch", watch_value h); ("pool", pool_value (sent_pool (capture_pool_snapshot x h) None)); ("status", status_value (sent_status s None))].
(** The five methods that sample the host. *)
Definition sample_of (x : Samples) (m : Method) : result Value string :=
  match m with
  | ProcessList => Ok (Arr (summary_value <$> x_procs x))
  | IpcHandler.HealthStatus => h <-? x_host x;; s <-? capture_status_snapshot x;; Ok (health_value x h s)
  | IpcHandler.PoolStatus =>
      h <-? x_host x;; s <-? capture_status_snapshot x;; Ok (pool_value (sent_pool (capture_pool_snapshot x h) (Some (sent_status s None))))
  | IpcHandler.StatusSnapshot =>
      s <-? capture_status_snapshot x;; h <-? x_host x;; Ok (status_value (sent_status s (Some (sent_pool (capture_pool_snapshot x h) None))))
  | IpcHandler.MonitoringReport => h <-? x_host x;; s <-? capture_status_snapshot x;; Ok (report_value x h s)
  | _ => Err "not sampled"
  end.

(** * What the tray makes of it *)

Record HealthSnapshot : Type := mkHealthSnapshot {
  hs_managed : Z; hs_used : Z; hs_total : Z; hs_healthy : bool; hs_gate : GateStatusSnapshot; hs_host : HostWatch }.
Record MonitoringReportSnapshot : Type := mkReportSnapshot {
  rp_timestamp : Z; rp_total_processes : Z; rp_used : Z; rp_total : Z; rp_processes : list MonitoringProcessEntry;
  rp_gate : GateStatusSnapshot; rp_host : HostWatch; rp_pool : PoolSnapshot; rp_status : StatusSnapshot }.
Definition health_dec (v : Value) : option HealthSnapshot :=
  g ← struct_fields ["managed_processes"; "used_memory_mb"; "total_memory_mb"; "healthy"; "gate"; "host_watch"] v;
  n ← req u64_codec g "managed_processes"; u ← req u64_codec g "used_memory_mb"; t ← req u64_codec g "total_memory_mb";
  b ← req bool_codec g "healthy"; gt ← req gate_codec g "gate"; h ← req watch_codec g "host_watch"; Some (mkHealthSnapshot n u t b gt h).
Definition report_dec (v : Value) : option MonitoringReportSnapshot :=
  g ← struct_fields ["timestamp"; "total_processes"; "used_memory_mb"; "total_memory_mb"; "processes"; "gate"; "host_watch"; "pool"; "status"] v;
  ts ← req u64_codec g "timestamp"; n ← req u64_codec g "total_processes"; u ← req u64_codec g "used_memory_mb"; t ← req u64_codec g "total_memory_mb";
  l ← read_as (rows_dec mon_entry_dec) g "processes";
  gt ← req gate_codec g "gate"; h ← req watch_codec g "host_watch"; p ← read_as pool_dec g "pool"; s ← read_as status_dec g "status";
  Some (mkReportSnapshot ts n u t l gt h p s).
Definition health_snapshot (r : MonitoringReportSnapshot) : HealthSnapshot :=
  mkHealthSnapshot (rp_total_processes r) (rp_used r) (rp_total r) (is_healthy (rp_used r) (rp_total r)) (rp_gate r) (rp_host r).
Definition process_summaries (r : MonitoringReportSnapshot) : list ProcessSummary :=
  (λ e, mkProcSummary (me_pid e) (me_name e) [] (me_memory_mb e) (me_project e) (me_harness e) 0) <$> rp_processes r.

(** The samples are in the widths of the wire. *)
Record fits (x : Samples) : Prop := {
  fits_numbers : Forall (λ n, 0 ≤ n ≤ u64_max) [x_now x; x_used x; x_total x; x_agents x; x_rss x];
  fits_procs : Z.of_nat (length (x_procs x)) ≤ u64_max ∧ Z.of_nat (length (x_later x)) ≤ u64_max ∧ Forall info_ok (x_procs x);
  fits_pool : Forall (λ n, Z.of_nat n ≤ u64_max) [node_total (x_pool x); node_idle (x_pool x); bun_total (x_pool x); bun_idle (x_pool x); ps_max (x_pool x)];
  fits_host h : x_host x = Ok h → watch_ok h;
  fits_scan c : x_scan x = Ok c → 0 ≤ c_scanned c ≤ u64_max ∧ 0 ≤ c_watched c ≤ u64_max ∧ Forall row_ok (c_agents c) ∧ gate_ok (c_gate c) ∧ watch_ok (c_host c) }.
Definition seen (x : Samples) (h : HostWatch) (s : StatusSnapshot) : MonitoringReportSnapshot :=
  mkReportSnapshot (x_now x) (Z.of_nat (length (x_procs x))) (x_used x) (x_total x) (entry_of <$> x_procs x) (capture_gate x) h (capture_pool_snapshot x h) s.

Lemma capture_gate_ok x : fits x → gate_ok (capture_gate x).
Proof.
  intros [Hn _ _ _ _]. rewrite !Forall_cons in Hn. destruct Hn as (_ & _ & _ & ? & ? & _). unfold capture_gate, gate_ok.
  destruct (x_level x); cbn; split; try done; lia.
Qed.
Lemma capture_status_ok x s : fits x → capture_status_snapshot x = Ok s → status_ok s.
Proof.
  intros Hx. unfold capture_status_snapshot. destruct (x_scan x) as [c|] eqn:E; [|done]. intros [= <-].
  destruct (fits_scan x Hx c E) as (? & ? & ? & ? & ?), (fits_procs x Hx) as (_ & ? & _).
  split_and!; [|done..]. repeat (apply Forall_cons; split; [cbn; split; try done; lia|]). by apply Forall_nil.
Qed.
Lemma report_read x h s : fits x → x_host x = Ok h → capture_status_snapshot x = Ok s → report_dec (report_value x h s) = Some (seen x h s).
Proof.
  intros Hx Hh Hs. pose proof (capture_gate_ok x Hx) as Hg. pose proof (fits_host x Hx h Hh) as Hw. pose proof (capture_status_ok x s Hx Hs) as Hst.
  destruct Hx as [Hn (Hl & _ & Hi) Hp _ _]. rewrite !Forall_cons in Hn. destruct Hn as (? & ? & ? & _).
  unfold report_dec. cbn [struct_fields report_value mbind option_bind]. unfold usize. repeat field_step.
  erewrite (read_as_found (rows_dec mon_entry_dec)); [|reflexivity|by apply (rows_read _ _ _ _ _ mon_entry_read)]. cbn [mbind option_bind].
  repeat field_step. erewrite (read_as_found pool_dec); [|reflexivity|by apply pool_read]. cbn [mbind option_bind].
  by erewrite (read_as_found status_dec); [|reflexivity|by apply status_read].
Qed.
(** The health the tray derives from a report is that of [health.status] on the same samples. *)
Lemma health_parity x h s : fits x → x_host x = Ok h → capture_status_snapshot x = Ok s →
  health_dec (health_value x h s) = Some (health_snapshot (seen x h s)).
Proof.
  intros Hx Hh Hs. pose proof (capture_gate_ok x Hx) as Hg. pose proof (fits_host x Hx h Hh) as Hw.
  destruct Hx as [Hn (Hl & _ & _) _ _ _]. rewrite !Forall_cons in Hn. destruct Hn as (? & ? & ? & _).
  unfold health_dec. cbn [struct_fields health_value mbind option_bind]. unfold usize. repeat field_step. done.
Qed.
(** The list of processes reads back; the rows made from a report have no command and no start. *)
Lemma processes_read x : fits x → rows_dec summary_dec (Arr (summary_value <$> x_procs x)) = Some (summary_of <$> x_procs x).
Proof. intros [_ (_ & _ & Hi) _ _ _]. by rewrite (rows_read _ _ _ _ _ summary_read Hi). Qed.

(** * The gate as an icon *)

Inductive TrayGateSeverity : Type := Normal | Warning | Critical | Offline.
#[global] Instance severity_eq_dec : EqDecision TrayGateSeverity.
Proof. solve_decision. Defined.
Record TrayGateVisual : Type := mkVisual {
  severity : TrayGateSeverity; decision_class : string; thermal_class : string; color_hex : string; badge_label : string;
  linux_icon_name : string; swift_symbol_name : string }.
Definition resolve_gate_decision_class (d : string) : string :=
  if bool_decide (d = "ADMIT") then "gate-admit" else if bool_decide (d = "DENY") then "gate-deny" else "gate-unavailable".
Definition resolve_thermal_class (t : string) : string :=
  if bool_decide (t = "GREEN") then EmptyString else if bool_decide (t = "YELLOW") then "warning" else if bool_decide (t = "RED") then "critical" else "warning".
Definition resolve_severity (thermal decision : string) : TrayGateSeverity :=
  if bool_decide (decision = "DENY") || bool_decide (thermal = "RED") then Critical
  else if bool_decide (decision = "THROTTLE") || bool_decide (thermal = "YELLOW") || bool_decide (thermal = "UNAVAILABLE")
          || bool_decide (resolve_gate_decision_class decision = "gate-unavailable") then Warning
  else Normal.
Definition severity_tokens (s : TrayGateSeverity) (thermal : string) : string * string * string * string :=
  match s with
  | Critical => ("#f85149", "Critical", "dialog-error", "flame.fill")
  | Warning => ("#d29922", (if bool_decide (thermal = "UNAVAILABLE") then "Unavailable" else "Warning"), "dialog-warning", "exclamationmark.triangle.fill")
  | Normal => ("#3fb950", "Normal", "utilities-system-monitor", "cpu")
  | Offline => ("#d29922", "Offline", "network-offline", "wifi.slash")
  end.
Definition resolve_tray_gate_visual (thermal decision : string) (connected : bool) : TrayGateVisual :=
  if connected then
    let s := resolve_severity thermal decision in
    let '(color, badge, icon, symbol) := severity_tokens s thermal in
    mkVisual s (resolve_gate_decision_class decision) (resolve_thermal_class thermal) color badge icon symbol
  else mkVisual Offline "gate-unavailable" "warning" "#d29922" "Offline" "network-offline" "wifi.slash".
Definition visual_of_gate (g : GateStatusSnapshot) (connected : bool) : TrayGateVisual :=
  resolve_tray_gate_visual (thermal_pressure g) (gate_decision g) connected.

(** The icon is critical exactly when the gate of the daemon denies, normal exactly when the machine is
    cool and the gate admits, and a warning when the thermal level is raised or cannot be read. *)
Lemma icon_shows_gate x : let g := capture_gate x in let s := severity (visual_of_gate g true) in
  (s = Critical ↔ gate_decision g = "DENY") ∧
  (s = Normal ↔ x_level x = Some Green ∧ gate_decision g = "ADMIT") ∧
  (s = Warning ↔ x_level x = None ∨ x_level x = Some Yellow ∧ gate_decision g = "ADMIT").
Proof.
  cbn. unfold capture_gate. destruct (x_level x) as [t|]; [|vm_compute; intuition congruence].
  unfold gate_status_snapshot_with_rss, visual_of_gate, effective_gate_decision_for_tier. cbn -[combined_agent_contention_tier].
  destruct (combined_agent_contention_tier _ _ _ _), t; vm_compute; intuition congruence.
Qed.
(** A warning and a daemon that cannot be reached have one colour. *)
Lemma offline_looks_like_warning thermal decision thermal' decision' :
  resolve_severity thermal decision = Warning →
  color_hex (resolve_tray_gate_visual thermal decision true) = color_hex (resolve_tray_gate_visual thermal' decision' false).
Proof. intros H. unfold resolve_tray_gate_visual. by rewrite H. Qed.

(** * The socket *)

Record ConnLine : Type := mkLine { on_host : Host; raw_line : option string; answer_sent : bool }.
(** The client's side of a connection. *)
Record Wire : Type := mkWire { connects : bool; writes : bool; reads : bool; peer : option Z }.

Section socket.
Context `{JsonText}.
Context `{JResume : Json ResumeRecipe, JConf : Json ResolutionConfidence, JState : Json SessionState,
          JSurface : Json SurfaceRecord, JSession : Json AgentSession,
          JCaps : Json SurfaceCapabilities, JKind : Json ObservationKind, JLayout : Json LayoutSnapshot}.
Variable de_observation : Value → option SessionObservation.
Variable de_layout : Value → option LayoutSnapshot.
Variable to_toml : Config → option string.
Variable parse_ts : string → option Z.
Variable ticks : Z.
(** The JSON of the replies the tray does not ask for. *)
Variable other_reply : Reply → Value.

Definition request_dec (v : Value) : option Request :=
  g ← struct_fields ["id"; "method"; "params"] v;
  i ← req u64_codec g "id"; m ← req str_codec g "method"; Some (mkRequest i m (default Null (g "params"))).
Definition de_request (raw : string) : result Request string := ok_or "expected value" (value_of raw ≫= request_dec).
Definition reply_value (r : Reply) : Value := match r with RHost v => v | RTrue => Bool true | _ => other_reply r end.
Definition response_value (r : Response) : Value :=
  Obj [("id", enc u64_codec (resp_id r)); ("result", default Null (reply_value <$> resp_result r)); ("error", opt_str (resp_error r))].
Definition dispatch1 : Host → string → Daemon → Daemon * Response := dispatch de_request de_observation de_layout to_toml parse_ts ticks.

(** ** The server *)

Fixpoint conn_loop (lines : list ConnLine) (d : Daemon) : Daemon * list string :=
  match lines with
  | [] => (d, [])
  | l :: rest =>
      match raw_line l with
      | None => (d, [])
      | Some raw =>
          if str_is_empty (trim raw) then conn_loop rest d
          else
            let '(d', r) := dispatch1 (on_host l) (trim raw) d in
            if answer_sent l then let '(d'', out) := conn_loop rest d' in (d'', text_of (response_value r) :: out) else (d', [])
      end
  end.
Definition serve_unix_connection (self_uid : Z) (peer : option Z) (lines : list ConnLine) (d : Daemon) : Daemon * list string :=
  if bool_decide (peer = Some self_uid) then conn_loop lines d else (d, []).
(** On Windows the peer is not checked. *)
Definition serve_tcp_connection (lines : list ConnLine) (d : Daemon) : Daemon * list string := conn_loop lines d.

(** The requests of a connection, and what they come to one after the other. *)
Definition requests (lines : list ConnLine) : list (Host * string) :=
  omap (λ l, raw ← raw_line l; if str_is_empty (trim raw) then None else Some (on_host l, trim raw)) lines.
Fixpoint run_all (script : list (Host * string)) (d : Daemon) : Daemon * list Response :=
  match script with
  | [] => (d, [])
  | (h, raw) :: rest => let '(d', r) := dispatch1 h raw d in let '(d'', rs) := run_all rest d' in (d'', r :: rs)
  end.

Lemma run_all_serve script : ∀ d a, (run_all script d).1 = (serve de_request de_observation de_layout to_toml parse_ts ticks script (d, a)).1.
Proof.
  induction script as [|[h raw] rest IH]; intros d a; [done|]. cbn [run_all serve fst]. unfold dispatch1.
  destruct (dispatch _ _ _ _ _ _ h raw d) as [d' r]. rewrite <- IH. by destruct (run_all rest d').
Qed.
Lemma conn_loop_prefix lines : ∀ d, ∃ k j, (j ≤ k ≤ S j)%nat ∧
  (conn_loop lines d).1 = (run_all (take k (requests lines)) d).1 ∧
  (conn_loop lines d).2 = take j ((λ r, text_of (response_value r)) <$> (run_all (requests lines) d).2) ∧
  (Forall (λ l, is_Some (raw_line l) ∧ answer_sent l = true) lines → k = length (requests lines) ∧ j = k).
Proof.
  induction lines as [|l lines IH]; intros d; [exists 0%nat, 0%nat; split_and!; [lia|lia|done|done|done]|]. cbn [conn_loop requests omap list_omap].
  fold (requests lines). destruct (raw_line l) as [raw|] eqn:E; cbn [mbind option_bind].
  2: { exists 0%nat, 0%nat. split_and!; [lia|lia|done|done|]. rewrite Forall_cons, E. by intros [[[] ?] ?]. }
  destruct (str_is_empty (trim raw)) eqn:Eb; cbn [omap list_omap].
  { destruct (IH d) as (k & j & ? & ? & ? & Hall). exists k, j. split_and!; try done; try lia. rewrite Forall_cons. intros [_ Hl]. by apply Hall. }
  cbn [run_all]. destruct (dispatch1 (on_host l) (trim raw) d) as [d' r] eqn:Ed. destruct (answer_sent l) eqn:Es.
  - destruct (IH d') as (k & j & ? & H1 & H2 & Hall). exists (S k), (S j). cbn [take run_all]. rewrite Ed.
    destruct (conn_loop lines d') as [d1 out], (run_all (requests lines) d') as [d2 rs], (run_all (take k (requests lines)) d') as [d3 rs3].
    cbn in *. split_and!; [lia|lia|done|by rewrite H2|]. rewrite Forall_cons. intros [_ Hl]. destruct (Hall Hl) as [-> ->]. done.
  - exists 1%nat, 0%nat. cbn [take run_all]. rewrite Ed. split_and!; [lia|lia|done|done|]. rewrite Forall_cons, Es. by intros [[_ [=]] _].
Qed.
(** The socket serves its owner only and in order: a connection whose peer is another user or cannot
    be told changes nothing and gets no answer; on one of the owner the requests are handled one after
    the other up to a failure of the stream, and the answers are theirs in order, at most the one whose
    write failed missing; without failures every request is answered. *)
Theorem socket_serves_owner self_uid peer lines d :
  let '(d', out) := serve_unix_connection self_uid peer lines d in
  (peer ≠ Some self_uid → d' = d ∧ out = []) ∧
  (peer = Some self_uid → ∃ k j, (j ≤ k ≤ S j)%nat ∧ d' = (run_all (take k (requests lines)) d).1 ∧
     out = take j ((λ r, text_of (response_value r)) <$> (run_all (requests lines) d).2) ∧
     (Forall (λ l, is_Some (raw_line l) ∧ answer_sent l = true) lines → k = length (requests lines) ∧ j = k)).
Proof.
  unfold serve_unix_connection. case_bool_decide as Hp; [|done]. pose proof (conn_loop_prefix lines d) as H1.
  destruct (conn_loop lines d) as [d' out]. cbn in H1. by split.
Qed.

(** ** The client *)

Definition tray_request (id : Z) (method : string) (params : Value) : Value :=
  Obj [("id", enc u64_codec id); ("method", Str method); ("params", params)].
(** An optional result of a type that is read with [dec1]. *)
Definition result_dec {A} (dec1 : Value → option A) (v : Value) (g : string → option Value) : option (option A) :=
  match g "result" with
  | Some Null => Some None
  | Some r => Some <$> dec1 r
  | None => match v with Obj _ => Some None | _ => None end
  end.
Definition tray_answer {A} (dec1 : Value → option A) (method line : string) : result A string :=
  if str_is_empty (trim line) then Err "empty response from IPC server"
  else
    match (v ← value_of (trim line); g ← struct_fields ["id"; "result"; "error"] v; _ ← req u64_codec g "id";
           r ← result_dec dec1 v g; e ← optf str_codec v g "error"; Some (r, e)) with
    | None => Err ("decode IPC response for " +:+ method)
    | Some (_, Some e) => Err ("IPC error (" +:+ method +:+ "): " +:+ e)
    | Some (None, None) => Err ("IPC response for " +:+ method +:+ " had no result")
    | Some (Some a, None) => Ok a
    end.
Definition tray_call {A} (dec1 : Value → option A) (self_uid : Z) (w : Wire) (h : Host) (id : Z) (method : string) (params : Value) (d : Daemon)
    : Daemon * result A string :=
  if negb (connects w) then (d, Err "connect to sharecli IPC socket")
  else if negb (writes w) then (d, Err "write")
  else
    let '(d', out) := serve_unix_connection self_uid (peer w) [mkLine h (Some (text_of (tray_request id method params))) true] d in
    if negb (reads w) then (d', Err "read")
    else match out with [] => (d', Err "empty response from IPC server") | line :: _ => (d', tray_answer dec1 method line) end.

Definition wire_good (self_uid : Z) (w : Wire) : bool := connects w && writes w && reads w && bool_decide (peer w = Some self_uid).
Lemma request_read id method params : 0 ≤ id ≤ u64_max →
  de_request (text_of (tray_request id method params)) = Ok (mkRequest id method params).
Proof.
  intros Hid. unfold de_request. rewrite value_of_text. cbn [mbind option_bind]. unfold request_dec. cbn [struct_fields tray_request mbind option_bind].
  repeat field_step. done.
Qed.
(** What a result comes to. *)
Definition result_of {A} (dec1 : Value → option A) (method : string) (v : Value) : result A string :=
  match v with
  | Null => Err ("IPC response for " +:+ method +:+ " had no result")
  | _ => ok_or ("decode IPC response for " +:+ method) (dec1 v)
  end.
(** A call over a good wire is the handling of its request. *)
Lemma tray_call_handles {A} (dec1 : Value → option A) self_uid w h id method params d : wire_good self_uid w = true → 0 ≤ id ≤ u64_max →
  tray_call dec1 self_uid w h id method params d =
  let '(d', r) := handle de_observation de_layout to_toml parse_ts ticks h (mkRequest id method params) d in
  (d', match r with
       | Err e => Err ("IPC error (" +:+ method +:+ "): " +:+ e)
       | Ok rep =>
           result_of dec1 method (reply_value rep)
       end).
Proof.
  intros Hw Hid. unfold wire_good in Hw. rewrite !andb_true_iff, bool_decide_eq_true in Hw. destruct Hw as (((Hc & Hwr) & Hr) & Hp).
  unfold tray_call, serve_unix_connection. rewrite Hc, Hwr, Hr, Hp, bool_decide_eq_true_2 by done. cbn [negb conn_loop raw_line on_host answer_sent].
  rewrite text_trim, (proj2 (str_is_empty_false _) (text_not_empty _)).
  unfold dispatch1, dispatch. rewrite request_read by done.
  destruct (handle _ _ _ _ _ h _ d) as [d' [rep|e]]; cbn [conn_loop].
  all: unfold tray_answer; rewrite text_trim, (proj2 (str_is_empty_false _) (text_not_empty _)), value_of_text; cbn [mbind option_bind struct_fields response_value resp_ok resp_err resp_id resp_result resp_error req_id].
  all: rewrite (req_found u64_codec _ "id" id eq_refl Hid); cbn [mbind option_bind].
  - unfold result_dec, result_of. change (obj_get "result" _) with (Some (reply_value rep)). f_equal.
    rewrite (opt_str_found _ _ "error" None) by done. destruct (reply_value rep); try done; by destruct (dec1 _).
  - done.
Qed.

(** ** The tray *)

Record Tray : Type := mkTray {
  tr_processes : list ProcessSummary; tr_health : option HealthSnapshot; tr_pool : option PoolSnapshot; tr_status : option StatusSnapshot;
  tr_connected : bool; tr_visual : TrayGateVisual }.
Definition tray_offline : Tray := mkTray [] None None None false (resolve_tray_gate_visual "UNAVAILABLE" "UNAVAILABLE" false).
Definition refresh (self_uid : Z) (w : Wire) (h : Host) (id : Z) (t : Tray) (d : Daemon) : Daemon * Tray :=
  let '(d', r) := tray_call report_dec self_uid w h id "monitoring.report" (Obj []) d in
  (d', match r with
       | Ok s => mkTray (process_summaries s) (Some (health_snapshot s)) (Some (rp_pool s)) (Some (rp_status s)) true (visual_of_gate (rp_gate s) true)
       | Err _ => tray_offline
       end).
Definition shown (x : Samples) (h : HostWatch) (s : StatusSnapshot) : Tray :=
  mkTray (process_summaries (seen x h s)) (Some (health_snapshot (seen x h s))) (Some (capture_pool_snapshot x h)) (Some s) true
    (visual_of_gate (capture_gate x) true).

Lemma report_keeps_daemon h id d :
  handle de_observation de_layout to_toml parse_ts ticks h (mkRequest id "monitoring.report" (Obj [])) d =
  (d, match sample h IpcHandler.MonitoringReport with Ok v => Ok (RHost v) | Err e => Err e end).
Proof. unfold handle. change (method_of _) with (Some IpcHandler.MonitoringReport). cbn. unfold st_bind, st_lift. by destruct (sample h _). Qed.

(** Killing from the menu reaches the pool, for every process number of 32 bits. *)
Lemma kill_reaches self_uid w h id pid d : wire_good self_uid w = true → 0 ≤ id ≤ u64_max → 0 ≤ pid ≤ u32_max →
  tray_call as_bool self_uid w h id "process.kill" (Obj [("pid", enc u32_codec pid)]) d =
  (d, match kill h pid with Ok _ => Ok true | Err e => Err ("IPC error (process.kill): " +:+ e) end).
Proof.
  intros Hw Hid Hp. rewrite tray_call_handles by done. unfold handle. change (method_of _) with (Some ProcessKill). cbn [params].
  unfold pid_param. change (as_u64 (value_index "pid" _)) with (Some pid). cbn iota. rewrite (proj2 (Z.leb_le _ _)) by lia. cbn.
  unfold st_bind, st_lift. by destruct (kill h pid).
Qed.

(** ** The C interface *)

(** [sharecli_request]: the lines of the text are all served, and the first answer is given back; a
    connection that is closed gives an empty text. *)
Definition sharecli_request (self_uid : Z) (w : Wire) (h : Host) (text : string) (d : Daemon) : Daemon * option string :=
  if negb (connects w && writes w) then (d, None)
  else
    let '(d', out) := serve_unix_connection self_uid (peer w) ((λ l, mkLine h (Some l) true) <$> str_lines text) d in
    (d', if reads w then Some (default EmptyString (head out)) else None).
(** [sharecli_ipc_start]. *)
Definition sharecli_ipc_start (socket_exists : bool) (sidecar : option string) (spawned : bool) : Z :=
  if socket_exists then 0 else match sidecar with Some _ => 0 | None => 1 end.
Definition find_sidecar (exe_dir : option string) (exists_file : string → bool) (which : option (bool * string)) (name : string) : option string :=
  match exe_dir with
  | Some dir => if exists_file (dir +:+ "/" +:+ name) then Some (dir +:+ "/" +:+ name)
                else match which with Some (true, out) => if str_is_empty (trim out) then None else Some (trim out) | _ => None end
  | None => match which with Some (true, out) => if str_is_empty (trim out) then None else Some (trim out) | _ => None end
  end.
Definition socket_path (var data_dir : option string) : string :=
  match var with Some v => v | None => default "/tmp" data_dir +:+ "/sharecli/ipc.sock" end.
End socket.

(** A file the last daemon left behind, and a daemon that cannot be started, count as started. *)
Example start_of_nothing path : sharecli_ipc_start true None false = 0 ∧ sharecli_ipc_start false (Some path) false = 0.
Proof. done. Qed.

(** * A concrete tray *)

Module DemoTray.
Import SessionLedger.Demo DemoText.
#[local] Instance j_layout : Json LayoutSnapshot := mkJson _ (λ _, None) (λ _, None).
Definition watch : HostWatch := mkWatch 3 10 20 4096 (Float "0.5").
Definition proc : ProcessInfo := mkInfo 7 "codex" ["codex"; "exec"] 64 1000 "1.5" (Some "web") None (Some 1) None 3 Run None None None None.
Definition samples : Samples :=
  mkSamples 1700 [proc] 100 1000 (Some Green) 1 2048 (Ok watch) (mkPoolStatus 2 1 0 0 4) true [] [proc]
    (Ok (mkScan [mkAgentRow 7 "codex" "codex" "S" 2048 "2.0K" None] 50 1 (gate_status_snapshot_with_rss Green 1 2048) watch)).
Definition tray_host : Host :=
  mkHost sql_ok None 9 (λ _ _ _, Ok tt) (λ _, false) (λ _, Ok tt) (Ok tt) (λ _, None) (sample_of samples).
Definition good : Wire := mkWire true true true (Some 501).
Notation refresh1 := (refresh IpcHandler.DemoDaemon.de_observation IpcHandler.DemoDaemon.de_layout demo_toml parse 1 (λ _, Null)).

Lemma samples_fit : fits samples.
Proof.
  split; cbn; [..|intros h [= <-]|intros c [= <-]; cbn].
  all: repeat first [split|apply Forall_cons|apply Forall_nil]; try done; cbn; try lia.
Qed.
(** The rows lose the command and the start the list of processes has. *)
Example rows_without_start : su_start_time <$> process_summaries (seen samples watch (mkStatusSnapshot 0 [] 0 0 (capture_gate samples) watch)) = [0]
  ∧ su_start_time <$> (summary_of <$> x_procs samples) = [1000].
Proof. done. Qed.

Definition two_lines : list ConnLine := [mkLine tray_host (Some " ") true; mkLine tray_host (Some "x") true].
Lemma socket_serves_owner_witness :
  serve_unix_connection IpcHandler.DemoDaemon.de_observation IpcHandler.DemoDaemon.de_layout demo_toml parse 1 (λ _, Null)
    501 (Some 502) two_lines IpcHandler.DemoDaemon.fresh_daemon = (IpcHandler.DemoDaemon.fresh_daemon, []).
Proof.
  pose proof (socket_serves_owner IpcHandler.DemoDaemon.de_observation IpcHandler.DemoDaemon.de_layout demo_toml parse 1 (λ _, Null)
    501 (Some 502) two_lines IpcHandler.DemoDaemon.fresh_daemon) as H.
  destruct (serve_unix_connection _ _ _ _ _ _ _ _ _ _) as [d' out]. destruct H as [H _]. destruct (H ltac:(done)) as [-> ->]. done.
Defined.
End DemoTray.
