(* ===== verification/LiveFeed.v ===== *)
(** The live feed of [sharecli serve] (src/commands/serve/{pressure,poller,ws,dashboard,prometheus,
    handlers}.rs) and its client (sharecli-ipc/src/ws_client.rs): the thermal poller, the broadcast of
    its events to the sockets, the dashboard snapshot, the process metrics, and what the client makes of
    the frames.  The samplers, the clock of the loops and the texts of JSON values are parameters. *)
From S2P Require Import Prelude FleetGate RuntimePool FleetReport JsonValue RespCodec GatewayText Config Monitors Sessions SessionLedger IpcHandler TrayClient.

(** * The thermal poller *)

Inductive ThermalEvent : Type := ThermalWarning (pressure : Z) | ThermalCritical (pressure : Z).
Definition parse_pressure_level (raw : Z) : option ThermalLevel :=
  if raw =? 1 then Some Green else if raw =? 2 then Some Yellow else if raw =? 4 then Some Red else None.
(** The level as a number; [None] is a governor that cannot be read. *)
Definition read_raw_pressure (level : option ThermalLevel) : option Z :=
  (λ t, match t with Green => 1 | Yellow => 2 | Red => 4 end) <$> level.

Inductive PollTick : Type := Cancelled | Polled (level : option ThermalLevel).
#[global] Instance poll_tick_eq_dec : EqDecision PollTick.
Proof. solve_decision. Defined.
(** The events that are sent, and whether the shutdown is requested. *)
Fixpoint thermal_poll_task (ticks : list PollTick) : list ThermalEvent * bool :=
  match ticks with
  | [] | Cancelled :: _ => ([], false)
  | Polled level :: rest =>
      match read_raw_pressure level ≫= parse_pressure_level with
      | Some Red => ([ThermalCritical 4], true)
      | Some Yellow => let '(evs, down) := thermal_poll_task rest in (ThermalWarning 2 :: evs, down)
      | Some Green | None => thermal_poll_task rest
      end
  end.

(** The ticks the task looks at before it stops. *)
Definition goes_on (t : PollTick) : bool := match t with Cancelled | Polled (Some Red) => false | _ => true end.
Fixpoint looked_at (ticks : list PollTick) : list PollTick :=
  match ticks with t :: rest => if goes_on t then t :: looked_at rest else [] | [] => [] end.
Definition stopped_by (ticks : list PollTick) : option PollTick := head (drop (length (looked_at ticks)) ticks).

(** The poller warns of every raised reading and stops at the first critical one: the events are one
    warning per raised reading before it, then one critical event, and the shutdown is requested exactly
    when a critical reading came before the cancellation; an error of the governor changes nothing. *)
Theorem poller_exact ticks :
  let down := bool_decide (stopped_by ticks = Some (Polled (Some Red))) in
  thermal_poll_task ticks =
  (omap (λ t, match t with Polled (Some Yellow) => Some (ThermalWarning 2) | _ => None end) (looked_at ticks)
   ++ (if down then [ThermalCritical 4] else []), down).
Proof.
  cbn. induction ticks as [|t ticks IH]; [done|]. destruct t as [|[[]|]]; cbn in *; try done; unfold stopped_by in *; cbn; by rewrite IH.
Qed.

(** * The feed of one socket *)

(** The ring of the broadcast channel. *)
Definition CAPACITY : nat := 64.
Inductive Frame : Type := Snapshot (v : Value) | Event (e : ThermalEvent).
(** What the loop of a socket meets: a tick with the snapshot, if it could be built; a wake-up of the
    receiver when so many events were published; the end of the channel. *)
Inductive WsInput : Type := WsTick (v : option Value) (sent : bool) | WsWake (published : nat) (sent : bool) | WsClosed.
Fixpoint handle_ws (events : list ThermalEvent) (inputs : list WsInput) (cursor : nat) : list Frame :=
  match inputs with
  | [] | WsClosed :: _ => []
  | WsTick None _ :: rest => handle_ws events rest cursor
  | WsTick (Some v) sent :: rest => if sent then Snapshot v :: handle_ws events rest cursor else []
  | WsWake published sent :: rest =>
      if (cursor + CAPACITY <? published)%nat then handle_ws events rest (published - CAPACITY)
      else if (cursor <? published)%nat then
        match events !! cursor with
        | Some e => if sent then Event e :: handle_ws events rest (S cursor) else []
        | None => handle_ws events rest cursor
        end
      else handle_ws events rest cursor
  end.
Definition event_of (f : Frame) : option ThermalEvent := match f with Event e => Some e | Snapshot _ => None end.
Definition published (i : WsInput) : nat := match i with WsWake n _ => n | _ => 0 end.

Ltac nothing_got := exists []; split_and!; [constructor|constructor|reflexivity|constructor].
Lemma handle_ws_events events inputs : ∀ cursor, ∃ ps, StronglySorted lt ps ∧ Forall (λ p, cursor ≤ p)%nat ps ∧
  omap event_of (handle_ws events inputs cursor) = omap (events !!.) ps ∧ Forall (λ p, is_Some (events !! p)) ps.
Proof.
  induction inputs as [|[[v|] sent|n sent|] rest IH]; intros cursor; cbn [handle_ws].
  1, 5: nothing_got.
  - destruct sent; [|nothing_got]. apply IH.
  - apply IH.
  - destruct (Nat.ltb_spec (cursor + CAPACITY) n).
    { destruct (IH (n - CAPACITY)%nat) as (ps & Hs & Hf & He & Hl). exists ps. split_and!; try done. eapply Forall_impl; [exact Hf|]. cbn. intros. lia. }
    destruct (cursor <? n)%nat; [|apply IH]. destruct (events !! cursor) as [e|] eqn:E; [|apply IH]. destruct sent; [|nothing_got].
    destruct (IH (S cursor)) as (ps & Hs & Hf & He & Hl). exists (cursor :: ps). split_and!.
    + constructor; [done|]. eapply Forall_impl; [exact Hf|]. cbn. lia.
    + constructor; [lia|]. eapply Forall_impl; [exact Hf|]. cbn. lia.
    + cbn. by rewrite E, He.
    + constructor; [by rewrite E|done].
Qed.
Lemma handle_ws_complete events inputs : ∀ cursor, Forall (λ i, published i ≤ cursor + CAPACITY)%nat inputs →
  omap event_of (handle_ws events inputs cursor) `prefix_of` drop cursor events.
Proof.
  induction inputs as [|[[v|] sent|n sent|] rest IH]; intros cursor Hp; cbn [handle_ws]; try apply prefix_nil;
    apply Forall_cons in Hp as [Hn Hp].
  - destruct sent; [by apply IH|apply prefix_nil].
  - by apply IH.
  - cbn in Hn. destruct (Nat.ltb_spec (cursor + CAPACITY) n); [lia|]. destruct (cursor <? n)%nat; [|by apply IH].
    destruct (events !! cursor) as [e|] eqn:E; [|by apply IH]. destruct sent; [|apply prefix_nil]. cbn.
    rewrite (drop_S _ _ _ E). apply prefix_cons, IH. eapply Forall_impl; [exact Hp|]. cbn. lia.
Qed.
(** A socket gets the events in order and none twice, whatever is dropped when it falls behind; as long
    as no more than the channel holds were published since it subscribed, it gets all up to the last one it
    was woken for, without a gap. *)
Theorem feed_in_order events inputs cursor : let got := omap event_of (handle_ws events inputs cursor) in
  (∃ ps, StronglySorted lt ps ∧ Forall (λ p, cursor ≤ p)%nat ps ∧ got = omap (events !!.) ps ∧ Forall (λ p, is_Some (events !! p)) ps) ∧
  (Forall (λ i, published i ≤ cursor + CAPACITY)%nat inputs → got `prefix_of` drop cursor events).
Proof. split; [apply handle_ws_events|apply handle_ws_complete]. Qed.
Lemma feed_in_order_witness :
  omap event_of (handle_ws [ThermalWarning 2; ThermalCritical 4] [WsWake 1 true; WsTick (Some Null) true; WsWake 2 true] 0)
    `prefix_of` [ThermalWarning 2; ThermalCritical 4].
Proof.
  apply (feed_in_order [ThermalWarning 2; ThermalCritical 4] [WsWake 1 true; WsTick (Some Null) true; WsWake 2 true] 0).
  repeat constructor; cbn; unfold CAPACITY; lia.
Defined.
(** A receiver that has fallen behind goes on at the oldest event that is held. *)
Example lagged_socket_skips : omap event_of (handle_ws (replicate 70 (ThermalWarning 2) ++ [ThermalCritical 4]) [WsWake 71 true; WsWake 71 true] 0) = [ThermalWarning 2].
Proof. by vm_compute. Qed.

(** Readiness: [readyz] refuses once the poller has requested the shutdown. *)
Definition readyz_response (shutdown_requested : bool) : Z * Value :=
  if shutdown_requested then (503, Obj [("status", Str "unavailable")]) else (200, Obj [("status", Str "ok")]).

(** * Process metrics *)

(** [str::replace] of one character. *)
Fixpoint replace_char (c : ascii) (r s : string) : string :=
  match s with EmptyString => EmptyString | String d s' => (if bool_decide (d = c) then r else String d EmptyString) +:+ replace_char c r s' end.
Definition escape_label_value (s : string) : string :=
  replace_char nl (String backslash "n") (replace_char quote (String backslash (String quote EmptyString))
    (replace_char backslash (String backslash (String backslash EmptyString)) s)).
Lemma replace_char_app c r s t : replace_char c r (s +:+ t) = replace_char c r s +:+ replace_char c r t.
Proof. induction s as [|d s IH]; [done|]. cbn [replace_char]. rewrite str_app_cons. cbn [replace_char]. by rewrite IH, str_app_assoc. Qed.
(** The three replacements in turn are the escape of the gateway's renderer in one pass. *)
Lemma escape_in_one_pass s : escape_label_value s = escape_label s.
Proof.
  unfold escape_label_value. induction s as [|c s IH]; [done|]. cbn [escape_label]. rewrite <- IH.
  cbn [replace_char]. rewrite !replace_char_app. f_equal.
  destruct (decide (c = backslash)) as [->|H1]; [reflexivity|]. destruct (decide (c = quote)) as [->|H2]; [reflexivity|].
  destruct (decide (c = nl)) as [->|H3]; [reflexivity|].
  rewrite !bool_decide_false by done. cbn [replace_char append]. rewrite !bool_decide_false by done. rewrite str_app_nil_r. cbn [replace_char]. by rewrite bool_decide_false.
Qed.

Section metrics.
(** The order in which the health map is gone through. *)
Variable iter : gmap string Monitors.HealthStatus → list (string * Monitors.HealthStatus).
Definition metric_sample (metric name : string) (n : Z) : string :=
  metric +:+ "{process=" +:+ String quote (escape_label_value name +:+ String quote ("} " +:+ show_u n)).
Definition up_of (health : gmap string Monitors.HealthStatus) (p : ProcessInfo) : Z :=
  match health !! pi_name p with Some s => if Monitors.healthy s then 1 else 0 | None => 1 end.
Definition render_prometheus_metrics (processes : list ProcessInfo) (health : gmap string Monitors.HealthStatus) : string :=
  line_block
    (["# HELP sharecli_process_memory_mb Resident memory usage in MiB per process"; "# TYPE sharecli_process_memory_mb gauge"]
     ++ ((λ p, metric_sample "sharecli_process_memory_mb" (pi_name p) (pi_memory_mb p)) <$> processes)
     ++ ["# HELP sharecli_process_up 1 if the process is considered healthy, 0 otherwise"; "# TYPE sharecli_process_up gauge"]
     ++ ((λ p, metric_sample "sharecli_process_up" (pi_name p) (up_of health p)) <$> processes)
     ++ ["# HELP sharecli_health_check_consecutive_failures Number of consecutive health-check failures";
         "# TYPE sharecli_health_check_consecutive_failures gauge"]
     ++ ((λ x, metric_sample "sharecli_health_check_consecutive_failures" x.1 (consecutive_failures x.2)) <$> iter health)
     ++ ["# HELP sharecli_health_check_status 1 if health check is passing, 0 otherwise"; "# TYPE sharecli_health_check_status gauge"]
     ++ ((λ x, metric_sample "sharecli_health_check_status" x.1 (if Monitors.healthy x.2 then 1 else 0)) <$> iter health)).

(** The same metrics for the renderer of the gateway crate. *)
Definition gauge (name help : string) (l : list (string * Z)) : Metric Z := mkMetric name help Gauge ((λ x, ([("process", x.1)], x.2)) <$> l).
Definition process_metrics (processes : list ProcessInfo) (health : gmap string Monitors.HealthStatus) : list (Metric Z) :=
  [gauge "sharecli_process_memory_mb" "Resident memory usage in MiB per process" ((λ p, (pi_name p, pi_memory_mb p)) <$> processes);
   gauge "sharecli_process_up" "1 if the process is considered healthy, 0 otherwise" ((λ p, (pi_name p, up_of health p)) <$> processes);
   gauge "sharecli_health_check_consecutive_failures" "Number of consecutive health-check failures" ((λ x, (x.1, consecutive_failures x.2)) <$> iter health);
   gauge "sharecli_health_check_status" "1 if health check is passing, 0 otherwise" ((λ x, (x.1, if Monitors.healthy x.2 then 1 else 0)) <$> iter health)].
Definition render_gateway : list (Metric Z) → string := prom_render (λ _, false) (λ _, None) Some show_i.

Lemma metric_sample_line name k n : 0 ≤ n → metric_sample name k n = sample_line (λ _, false) (λ _, None) Some show_i name ([("process", k)], n).
Proof.
  intros Hn. unfold metric_sample, sample_line, format_labels, label_list, format_label, push_value, show_i. cbn [fmap list_fmap join_with fst snd].
  rewrite bool_decide_false by done. rewrite (proj2 (Z.ltb_ge _ _) Hn), escape_in_one_pass. by rewrite !str_app_assoc, !str_app_cons, !str_app_assoc, !str_app_cons.
Qed.
Lemma gauge_lines {A} name help (f : A → string) (g : A → Z) l : Forall (λ a, 0 ≤ g a) l →
  metric_lines (λ _, false) (λ _, None) Some show_i (gauge name help ((λ a, (f a, g a)) <$> l)) =
  ["# HELP " +:+ name +:+ " " +:+ help; "# TYPE " +:+ name +:+ " gauge"] ++ ((λ a, metric_sample name (f a) (g a)) <$> l).
Proof.
  intros Hl. unfold metric_lines, gauge. cbn [m_name m_help m_type m_samples as_prom_type app]. do 2 f_equal.
  rewrite <- !list_fmap_compose. apply list_fmap_ext. intros i a Ha. cbn. symmetry. apply metric_sample_line. by eapply Forall_lookup_1 in Hl.
Qed.
(** The metrics page of the service is what the exposition renderer of the gateway crate writes for the
    same gauges, whatever the names of the processes are; so each process has a line of its own there, and
    its label reads back. *)
Theorem metrics_are_exposition processes health : Forall (λ p, 0 ≤ pi_memory_mb p) processes →
  Forall (λ x, 0 ≤ consecutive_failures x.2) (iter health) →
  render_prometheus_metrics processes health = render_gateway (process_metrics processes health).
Proof.
  intros Hp Hh. unfold render_prometheus_metrics, render_gateway, prom_render, process_metrics. cbn [fmap list_fmap concat_str compose].
  assert (∀ b : bool, 0 ≤ (if b then 1 else 0)) as Hb by (intros []; lia).
  rewrite !gauge_lines; try done.
  - unfold line_block. rewrite !fmap_app, !concat_str_app. cbn [fmap list_fmap concat_str]. by rewrite ?str_app_nil_r, ?str_app_assoc.
  - apply Forall_true. intros x. apply Hb.
  - apply Forall_true. intros p. unfold up_of. destruct (health !! _); [apply Hb|lia].
Qed.
End metrics.
Definition named (pid : Z) (name : string) (mem : Z) : ProcessInfo := FleetReport.demo_info pid name mem 0 None.
Lemma metrics_are_exposition_witness :
  render_prometheus_metrics (λ m, map_to_list m) [named 1 (String quote "a") 3] ∅ = render_gateway (process_metrics (λ m, map_to_list m) [named 1 (String quote "a") 3] ∅).
Proof. apply (metrics_are_exposition (λ m, map_to_list m)); [repeat constructor; cbn; lia|]. rewrite map_to_list_empty. constructor. Defined.
(** Two processes of one name give one series two values. *)
Example duplicate_series : let lines := split_on nl (render_prometheus_metrics (λ m, map_to_list m) [named 1 "node" 3; named 2 "node" 5] ∅) in
  let series n := "sharecli_process_memory_mb{process=" +:+ String quote ("node" +:+ String quote ("} " +:+ n)) in
  lines !! 2%nat = Some (series "3") ∧ lines !! 3%nat = Some (series "5").
Proof. by vm_compute. Qed.

(** * The dashboard snapshot *)

Definition dashboard_row (p : ProcessInfo) : Value :=
  Obj ([("pid", enc u32_codec (pi_pid p)); ("name", Str (pi_name p)); ("cmd", enc (list_codec str_codec) (pi_cmd p)); ("memory_mb", enc u64_codec (pi_memory_mb p))]
       ++ match pi_project p with Some t => [("project", Str t)] | None => [] end
       ++ match pi_harness p with Some t => [("harness", Str t)] | None => [] end
       ++ [("start_time", enc u64_codec (pi_start_time p))]).
Record DashboardAgentSummary : Type := mkAgentSummary { as_scanned : Z; as_watched : Z; as_total_rss : Z; as_families : gmap string Z }.
Definition add_agent (a : Z * gmap string Z) (r : AgentProcRow) : Z * gmap string Z :=
  (a.1 + ar_rss r, <[ar_family r := default 0 (a.2 !! ar_family r) + 1]> a.2).
Definition agent_summary (c : Scan) : DashboardAgentSummary :=
  let '(rss, families) := foldl add_agent (0, ∅) (c_agents c) in mkAgentSummary (c_scanned c) (c_watched c) rss families.
Definition build_pool_json (x : Samples) : result Value string := h <-? x_host x;; Ok (pool_value (sent_pool (capture_pool_snapshot x h) None)).
Definition build_status_json (log : option string) (x : Samples) : result Value string :=
  s <-? capture_status_snapshot x;; Ok (Obj (status_entries s ++ match log with Some p => [("log_location", Str p)] | None => [] end)).

Section dashboard.
Variable entries : gmap string Z → list (string * Z).
Definition summary_json (s : DashboardAgentSummary) : Value :=
  Obj [("scanned", enc u64_codec (as_scanned s)); ("watched", enc u64_codec (as_watched s)); ("total_rss_bytes", enc u64_codec (as_total_rss s));
       ("families", Obj (prod_map id (enc u64_codec) <$> entries (as_families s)))].
(** [managed] are the processes of the pool that is made for the snapshot. *)
Definition build_dashboard_ws_snapshot (managed : list ProcessInfo) (log : option string) (x : Samples) : result Value string :=
  c <-? x_scan x;; pool <-? build_pool_json x;; st <-? build_status_json log x;;
  Ok (Obj [("gate", gate_value (c_gate c)); ("host_watch", watch_value (c_host c)); ("pool", pool); ("status", st);
           ("agents", summary_json (agent_summary c)); ("processes", Arr (dashboard_row <$> managed))]).

Context (sys : Z → option SysProc) (iter : gmap Z ManagedProcess → list (Z * ManagedProcess)).
Hypothesis iter_perm : ∀ m, iter m ≡ₚ map_to_list m.
(** The pool is new, so the dashboard lists no process. *)
Lemma dashboard_lists_nothing e : dashboard_row <$> list_processes sys iter (pool_new e) = [].
Proof.
  unfold list_processes. cbn [processes pool_new].
  assert (iter ∅ = []) as Hi by (apply Permutation_nil_r; by rewrite iter_perm, map_to_list_empty). by rewrite Hi.
Qed.
End dashboard.

(** The families of the summary count every agent once. *)
Lemma summary_counts c : let s := agent_summary c in
  as_total_rss s = list_sum_Z (ar_rss <$> c_agents c) ∧ map_sum (as_families s) = Z.of_nat (length (c_agents c)) ∧
  ∀ f, default 0 (as_families s !! f) = Z.of_nat (length (filter (λ r, ar_family r = f) (c_agents c))).
Proof.
  unfold agent_summary. assert (let a := foldl add_agent (0, ∅) (c_agents c) in
    a.1 = list_sum_Z (ar_rss <$> c_agents c) ∧ map_sum a.2 = Z.of_nat (length (c_agents c)) ∧
    ∀ f, default 0 (a.2 !! f) = Z.of_nat (length (filter (λ r, ar_family r = f) (c_agents c)))) as Ha; [|by destruct (foldl _ _ _)].
  induction (c_agents c) as [|r l (IHr & IHs & IHf)] using rev_ind; [done|]. rewrite foldl_snoc. cbn [add_agent fst snd] in *.
  rewrite fmap_app, list_sum_Z_app, length_app, map_sum_insert, IHr, IHs. split_and!; [cbn; lia|cbn; lia|].
  intros f. rewrite filter_app, length_app, filter_cons, filter_nil. destruct (decide (ar_family r = f)) as [<-|].
  - rewrite lookup_insert_eq, IHf. cbn. lia.
  - rewrite lookup_insert_ne by done. rewrite IHf. cbn. lia.
Qed.

(** * The client of the feed *)

Definition event_value (e : ThermalEvent) : Value :=
  match e with
  | ThermalWarning p => Obj [("event", Str "thermal_warning"); ("pressure", enc u8_codec p)]
  | ThermalCritical p => Obj [("event", Str "thermal_critical"); ("pressure", enc u8_codec p)]
  end.
Definition frame_value (f : Frame) : Value := match f with Snapshot v => v | Event e => event_value e end.

Section client.
Context `{JsonText}.
(** The derived decoders of the two payloads. *)
Context {PT HT : Type} (dec_processes : Value → option PT) (dec_health : Value → option HT).
Inductive ClientMessage : Type := ProcessSnapshot (l : PT) | HealthUpdate (h : HT) | CThermalEvent (level : Z) (message : string) | CUnknown (raw : string).
(** The tag and the fields of an envelope; in an array the tag comes first. *)
Definition envelope_dec (v : Value) : option ClientMessage :=
  '(tag, body) ← match v with
                 | Obj m => t ← obj_get "type" m; t ← as_str t; Some (t, v)
                 | Arr (t :: l) => t ← as_str t; Some (t, Arr l)
                 | _ => None
                 end;
  if bool_decide (tag = "process_snapshot") then g ← struct_fields ["processes"] body; ProcessSnapshot <$> read_as dec_processes g "processes"
  else if bool_decide (tag = "health_update") then g ← struct_fields ["health"] body; HealthUpdate <$> read_as dec_health g "health"
  else if bool_decide (tag = "thermal_event") then
    g ← struct_fields ["level"; "message"] body; n ← req u8_codec g "level"; m ← req str_codec g "message"; Some (CThermalEvent n m)
  else None.
Definition from_json (raw : string) : ClientMessage := default (CUnknown raw) (value_of raw ≫= envelope_dec).

(** What the client is written for is read. *)
Lemma envelope_read l h n m : 0 ≤ n ≤ u8_max →
  (∀ p, dec_processes l = Some p → from_json (text_of (Obj [("type", Str "process_snapshot"); ("processes", l)])) = ProcessSnapshot p) ∧
  (∀ p, dec_health h = Some p → from_json (text_of (Obj [("type", Str "health_update"); ("health", h)])) = HealthUpdate p) ∧
  from_json (text_of (Obj [("type", Str "thermal_event"); ("level", enc u8_codec n); ("message", Str m)])) = CThermalEvent n m.
Proof.
  intros Hn. unfold from_json. rewrite !value_of_text. split_and!.
  - intros p Hp. cbn [mbind option_bind]. unfold envelope_dec.
    change (obj_get "type" _) with (Some (Str "process_snapshot")). cbn [mbind option_bind as_str struct_fields]. rewrite bool_decide_true by done.
    by rewrite (read_as_found dec_processes _ "processes" l p).
  - intros p Hp. cbn [mbind option_bind]. unfold envelope_dec.
    change (obj_get "type" _) with (Some (Str "health_update")). cbn [mbind option_bind as_str struct_fields].
    rewrite bool_decide_false, bool_decide_true by done. by rewrite (read_as_found dec_health _ "health" h p).
  - cbn [mbind option_bind]. unfold envelope_dec. change (obj_get "type" _) with (Some (Str "thermal_event")). cbn [mbind option_bind as_str struct_fields].
    rewrite bool_decide_false, bool_decide_false, bool_decide_true by done. repeat field_step. done.
Qed.
(** The client understands nothing of the feed: no frame the service writes, snapshot or thermal event,
    has the tag the client looks for, so each is handed on as unknown text. *)
Theorem feed_not_understood entries managed log x events inputs cursor :
  (∀ v sent, WsTick (Some v) sent ∈ inputs → build_dashboard_ws_snapshot entries managed log x = Ok v) →
  Forall (λ f, from_json (text_of (frame_value f)) = CUnknown (text_of (frame_value f))) (handle_ws events inputs cursor).
Proof.
  intros Hsnap. revert cursor. induction inputs as [|i inputs IH]; intros cursor; [constructor|].
  assert (∀ cursor, Forall (λ f, from_json (text_of (frame_value f)) = CUnknown (text_of (frame_value f))) (handle_ws events inputs cursor)) as IH'.
  { intros c. apply IH. intros v sent Hv. eapply Hsnap. by apply list_elem_of_further. }
  destruct i as [[v|] sent|n sent|]; cbn [handle_ws]; try (by constructor); try apply IH'.
  - destruct sent; [|constructor]. constructor; [|apply IH']. pose proof (Hsnap v true (list_elem_of_here _ _)) as E. cbn [frame_value].
    unfold build_dashboard_ws_snapshot in E. destruct (x_scan x) as [c|]; [|done]. cbn -[build_status_json build_pool_json] in E.
    destruct (build_pool_json x); [|done]. cbn -[build_status_json] in E. destruct (build_status_json log x); [|done].
    injection E as <-. unfold from_json. by rewrite value_of_text.
  - repeat case_match; try apply IH'; try constructor; try apply IH'. cbn [frame_value]. unfold from_json. rewrite value_of_text. by destruct t.
Qed.
End client.

Module DemoFeed.
Import DemoText.
Lemma feed_not_understood_witness : ∃ v, build_dashboard_ws_snapshot (λ m, map_to_list m) [] None DemoTray.samples = Ok v ∧
  Forall (λ f, from_json (@Some Value) (@Some Value) (text_of (frame_value f)) = CUnknown (text_of (frame_value f)))
    (handle_ws [ThermalWarning 2] [WsTick (Some v) true; WsWake 1 true] 0).
Proof.
  destruct (build_dashboard_ws_snapshot (λ m, map_to_list m) [] None DemoTray.samples) as [v|e] eqn:E; [|done].
  exists v. split; [done|]. apply (feed_not_understood (@Some Value) (@Some Value) (λ m, map_to_list m) [] None DemoTray.samples).
  intros v' sent Hv. apply elem_of_cons in Hv as [[= -> _]|Hv]; [done|]. by apply list_elem_of_singleton in Hv.
Defined.
End DemoFeed.
